(* ===== verification/_CoqProject ===== *)
-Q . S2P
Prelude.v
Text.v
Bytes.v
Codec.v
Protover.v
ExtList.v
RelayMsg.v
RelayCell.v
ChanCell.v
Sendme.v
RelayCrypt.v
Cwnd.v
Rtt.v
Vegas.v
Congestion.v
TokenBucket.v
CircMap.v
FlowCtrl.v
PollSet.v
StreamMap.v
ConfluxMsg.v
HopSettings.v
CircHop.v
StateM.v
Circuit.v
CircuitFrame.v
ConfluxSet.v
Reactor.v
Scenario.v
ConfluxOrder.v
ConfluxSend.v
Handshakes.v
HandshakeAgree.v
Socks.v
SocksFrame.v
SocksTalk.v
SocksAgree.v
SocksSafe.v
ChanHandler.v
TorCert.v
ChanHandshake.v
ChanOpen.v
ConsDiff.v
HsTime.v
NetDir.v
HsDirAgree.v
HsRevision.v
