(* ===== verification/Prelude.v ===== *)
(** * Verification of Arti

    Arti is a Tor implementation in Rust.  This library models the parts of it that turn bytes into
    messages, keep the state of channels, circuits, tunnels and streams, negotiate keys, and compute
    what a client and an onion service must agree on.  The models are executable functions that
    follow the code function by function; the theorems state what the rest of the program relies on.
    Paths are relative to [src/crates/].

    ** The parts and how they interact

    A channel is a TLS connection that carries circuits; a circuit carries relay cells between a
    client and each hop; a tunnel is one circuit, or several legs that meet at a join point
    (conflux); a hop has streams.  A channel is opened with a handshake that authenticates the relay,
    and a hop with a circuit handshake whose keys encrypt the relay cells.  A relay cell that arrives
    is decrypted and decoded into a message; the hop counts it against congestion control; on a
    multi-path tunnel it waits for its turn; the stream map finds its stream, whose flow control
    counts it again.  What a stream wants to send goes the other way, chosen by the poll set when the
    congestion window and the stream's flow control allow it.  A local application reaches the client
    through the SOCKS proxy.  The network directory, kept up to date with consensus diffs, gives the
    relays, and the ring from which clients and onion services choose directories.

    Foundations:
    - [Prelude] (this file): results with panics, bounded integers, the tactics and hint databases
      that all files use.  [StateM]: operations on a shared state that can fail, and [Keeps], what
      they leave alone.  [Text]: strings as bytes.
    - [Bytes]: [tor-bytes/src/reader.rs], [writer.rs], [impls.rs], [err.rs].  [Reader] as a state
      monad that keeps the offset of a failed call; class [Writer]; class [PrefixStable], the
      contract of [Readable].  [Codec]: what the codecs of messages share.
    - [Protover]: [tor-protover].

    Messages and cells:
    - [RelayMsg], [ExtList], [RelayCell]: [tor-cell/src/relaycell] and [relaycell.rs].  One record,
      decoder and encoder per message; extension lists; the cell formats V0 and V1.
    - [ChanCell]: [tor-cell/src/chancell].  Channel messages and the codec of cells.

    Circuits and streams ([tor-proto/src]):
    - [Sendme], [Cwnd], [Rtt], [Vegas], [Congestion]: [congestion/].  Windows, tags, the two
      algorithms as instances of [CongestionControlAlgorithm]; class [AckClock] is what they promise.
      [Wire] is the two ends of a hop with the cells in transit, [link_step] their interleavings.
    - [TokenBucket]: [util/token_bucket/bucket.rs].
    - [RelayCrypt]: [crypto/cell.rs], [crypto/cell/].  Tor1 and CGO layers; [OutboundPair] and
      [InboundPair] are what a client layer and the relay layer with its keys promise.
    - [Handshakes], [HandshakeAgree]: [crypto/handshake.rs], [crypto/handshake/], [crypto/ll/kdf.rs].
    - [FlowCtrl]: [stream/flow_ctrl].  Class [FlowCtrlHooks] with its instances, the side-channel
      defence, and the reader that asks for an XON.
    - [PollSet]: [util/stream_poll_set.rs] with [keyed_futures_unordered.rs] and
      [tunnel_activity.rs].  [StreamMap]: [streammap.rs], [streammap/halfstream.rs], the delivery of
      messages to streams.
    - [HopSettings], [CircHop]: [circuit/circhop.rs], [client/reactor/circuit/circhop.rs].
    - [Circuit], [CircuitFrame]: [client/reactor/circuit.rs].  [ConfluxMsg]: [conflux/].
      [ConfluxSet]: [client/reactor/conflux.rs].  [Reactor]: [client/reactor.rs],
      [client/reactor/control.rs].  [Scenario] is a concrete tunnel; [ConfluxOrder] and
      [ConfluxSend] hold the theorems on multi-path tunnels.

    Channels ([tor-proto/src] and below it):
    - [CircMap]: [channel/circmap.rs], [client/circuit/halfcirc.rs], the handlers of
      [channel/reactor.rs] that use them; [chan_run] is any sequence of events of a channel.
    - [ChanHandler]: [channel/handler.rs], [channel/msg.rs].  [TorCert]: [tor-cert],
      [tor-checkable].  [ChanHandshake], [ChanOpen]: [channel/handshake.rs], [client/channel],
      [relay/channel], [util/skew.rs].

    Around them:
    - [Socks], [SocksFrame], [SocksTalk], [SocksAgree], [SocksSafe]: [tor-socksproto].  Class
      [Handshake] is the trait of the two handshakes; [net_step] is a client and a proxy joined by
      two queues.
    - [ConsDiff]: [tor-consdiff].  [HsTime], [NetDir], [HsDirAgree]: [tor-hscrypto/src/time.rs],
      [tor-netdir/src/hsdir_params.rs], [hsdir_ring.rs], [lib.rs].  [HsRevision]:
      [tor-hscrypto/src/ope.rs] and the revision counter of [tor-hsservice].

    ** Conventions

    A machine integer is a [Z] with its bound written where it matters ([uadd], [usub], [umul],
    [checked_add], [saturating_sub], ...).  [res E A] is the result of a Rust call: [Ok], [Err] or
    [Panic]; overflow panics, as in a build with overflow checks, and so do failed assertions,
    debug assertions included, and [expect] on [None].  Where the caller goes on with an object after
    an error, the function returns the object next to the result ([ST]); otherwise an error carries no
    state, since it ends the circuit or the channel.  Time is an argument, in nanoseconds.
    Randomness, hashes, ciphers, curves and signatures are parameters or type classes, whose laws are
    what their crates document; each theorem that uses a law has a witness with a concrete instance.
    Handles to tasks are opaque or logs of what was sent.

    Bounds and fuel, and why they are enough: [poll_ready] gets the length of its notification queue,
    and polling adds no notification; [sm_add_ent] tries 65536 identifiers, as the code does;
    [loop_remaining] gets the bytes left, of which each round takes some; [dec_digits] and
    [hex_digits] get the number of digits of the type they print; [mask_runs] gets the 64 bits of its
    mask; [dequeue_loop] gets one round more than the buffer is long; [legacy_kdf_loop] gets 257
    rounds, at which the code's counter has overflowed; [drain] and [read_cells] get the bytes that
    are there, of which each cell takes some; [for_commands] gets one round more than the diff has
    lines; [encrypt_chunks] gets one round for each [BUF_LEN] of the offset and one more.  Running
    out is a panic, an error or a state that the theorems exclude.

    ** What is proved

    - Wire formats: relay cells, certificates, protocol lists and the stream of a channel decode to
      what was encoded, however the bytes are cut; decoding arbitrary bytes never panics.
    - Cryptography: a cell encrypted for a hop is recognized exactly there, with its contents and
      tag, and so are cells of a relay by the client, for any mix of layers, unless an earlier layer
      finds its marks in the cell by chance; both ends of ntor v3 agree, and a client that accepts
      an answer shares the transcript.
    - Channels: the checks of the handshake accept exactly the peers that the specification accepts;
      a client opens a channel to a relay that follows the protocol and is total on any peer; relays
      never open one, since authentication is unfinished in the code; counters and disuse times are
      right after any events; a closed circuit accepts a bounded number of cells and delivers none.
    - Tunnels: messages are delivered in order, each once; the join point numbers what the client
      sends 1, 2, 3, ... when messages are routed as [tunnel_step] requires, and every command of
      the reactor is made of such steps.
    - Congestion and flow control: honest ends never fail each other, for every interleaving; Vegas
      does not panic under conditions stated with it; XOFF and XON take turns, a stopped peer is
      resumed, and flow control messages are paid for by data; the token bucket bounds its rate.
    - Streams: the poll set implements a map with ready and woken streams; [stream_step] is what
      every operation of the stream map does to every stream, errors included; no stream is starved;
      messages reach only their stream; a half-closed stream accepts at most a window of data.
    - SOCKS: client and proxy always finish and agree; a proxy survives any client.
    - Directory: the fast application of a diff equals the reference; a directory keeps its indexes
      right; a reused ring equals a computed one; a client asks only directories to which a service
      uploads, under the assumptions listed there; revision counters increase.
    - Where the code does not do what it says, the theorem is a concrete run, such as
      [close_stream_repeats_number], [add_ent_reuses_closed_id], [take_from_ended_stream_corrupts],
      [honest_xoff_rejected], [bdp_divides_by_zero], [sendme_inc_drifts].

    ** What is not modelled

    Input and output, asynchronous tasks and runtimes, the inside of cryptographic primitives, the
    handshake hs-ntor, creating and extending circuits beyond the negotiation of a hop, padding and
    the scheduling of channels, the rate-limited writers, the grammar of directory documents, guards
    and the managers of circuits and channels, the tasks of onion services, memory quotas, proof of
    work, RPC, configuration and applications: they are input and output, or thin layers over
    runtimes and libraries, or parts that a model of this size does not reach.  Onion-service message
    bodies are carried as unrecognized bodies.  [handle_msg] of [StreamMap] is that of a build with
    [hs-service], which is the one that accepts more. *)

From stdpp Require Export base option list gmap fin_maps sets strings.
From Stdlib Require Export ZArith Lia.

#[export] Set Default Goal Selector "!".
Open Scope Z_scope.

(** ** Results

    A Rust call either returns [Ok], returns [Err], or panics.  Panics are kept apart from
    errors because a caller can handle only the latter: an arithmetic overflow (in a build with
    overflow checks), a failed [debug_assert!], a division by zero, and an [expect] on [None]
    are all [Panic]. *)

Inductive res (E A : Type) : Type :=
| Ok (a : A)
| Err (e : E)
| Panic.
Arguments Ok {_ _} _.
Arguments Err {_ _} _.
Arguments Panic {_ _}.

Definition res_bind {E A B} (f : A → res E B) (m : res E A) : res E B :=
  match m with
  | Ok a => f a
  | Err e => Err e
  | Panic => Panic
  end.

#[export] Instance res_mbind E : MBind (res E) := @res_bind E.
#[export] Instance res_mret E : MRet (res E) := @Ok E.

Definition is_ok {E A} (m : res E A) : bool :=
  match m with Ok _ => true | _ => false end.

Definition map_err {E F A} (f : E → F) (m : res E A) : res F A :=
  match m with
  | Ok a => Ok a
  | Err e => Err (f e)
  | Panic => Panic
  end.

(** [Option::ok_or] and [Option::expect]. *)
Definition ok_or {E A} (o : option A) (e : E) : res E A :=
  match o with Some a => Ok a | None => Err e end.

Definition expect {E A} (o : option A) : res E A :=
  match o with Some a => Ok a | None => Panic end.

(** [debug_assert!(b)]. *)
Definition debug_assert {E} (b : bool) : res E unit :=
  if b then Ok tt else Panic.

Lemma ok_bind {E A B} (a : A) (f : A → res E B) : (Ok a ≫= f) = f a.
Proof. done. Qed.

Lemma bind_ok {E A B} (m : res E A) (f : A → res E B) b :
  (m ≫= f) = Ok b → ∃ a, m = Ok a ∧ f a = Ok b.
Proof. destruct m; simpl; [eauto|discriminate..]. Qed.

Lemma ok_or_ok {E A} (o : option A) (e : E) a : ok_or o e = Ok a ↔ o = Some a.
Proof. destruct o; simpl; naive_solver. Qed.

Lemma debug_assert_ok {E} (b : bool) u : debug_assert (E:=E) b = Ok u ↔ b = true.
Proof. destruct b, u; naive_solver. Qed.

(** ** Machine integers

    Unsigned integers are [Z] values with their maximum written out. *)

Definition u8_max : Z := 255.
Definition u16_max : Z := 65535.
Definition u32_max : Z := 4294967295.
Definition u64_max : Z := 18446744073709551615.
Definition u128_max : Z := 340282366920938463463374607431768211455.
(** [usize] on the 64-bit targets. *)
Definition usize_max : Z := u64_max.

Definition in_uint (m x : Z) : Prop := 0 ≤ x ≤ m.

#[export] Instance in_uint_dec m x : Decision (in_uint m x).
Proof. unfold in_uint. apply _. Defined.

Definition saturating_add (m a b : Z) : Z := Z.min (a + b) m.
Definition saturating_sub (a b : Z) : Z := Z.max (a - b) 0.
Definition saturating_mul (m a b : Z) : Z := Z.min (a * b) m.

Definition checked_add (m a b : Z) : option Z :=
  if a + b <=? m then Some (a + b) else None.
Definition checked_sub (a b : Z) : option Z :=
  if b <=? a then Some (a - b) else None.
Definition checked_mul (m a b : Z) : option Z :=
  if a * b <=? m then Some (a * b) else None.

(** The operators [+], [-], [*] and [/] on unsigned integers. *)
Definition uadd {E} (m a b : Z) : res E Z := expect (checked_add m a b).
Definition usub {E} (a b : Z) : res E Z := expect (checked_sub a b).
Definition umul {E} (m a b : Z) : res E Z := expect (checked_mul m a b).
Definition udiv {E} (a b : Z) : res E Z := if b =? 0 then Panic else Ok (a / b).
Definition urem {E} (a b : Z) : res E Z := if b =? 0 then Panic else Ok (a mod b).

(** [u64::div_ceil]. *)
Definition div_ceil (a b : Z) : Z := (a + b - 1) / b.

(** [x as uN] for an unsigned [x]. *)
Definition wrap (m x : Z) : Z := x mod (m + 1).

(** [uN::try_from(x).unwrap_or(uN::MAX)]. *)
Definition sat_cast (m x : Z) : Z := Z.min x m.

Lemma uadd_ok {E} m a b : a + b ≤ m → uadd (E:=E) m a b = Ok (a + b).
Proof. intros. unfold uadd, checked_add. by rewrite (proj2 (Z.leb_le _ _)). Qed.

Lemma usub_ok {E} a b : b ≤ a → usub (E:=E) a b = Ok (a - b).
Proof. intros. unfold usub, checked_sub. by rewrite (proj2 (Z.leb_le _ _)). Qed.

Lemma umul_ok {E} m a b : a * b ≤ m → umul (E:=E) m a b = Ok (a * b).
Proof. intros. unfold umul, checked_mul. by rewrite (proj2 (Z.leb_le _ _)). Qed.

Lemma udiv_ok {E} a b : b ≠ 0 → udiv (E:=E) a b = Ok (a / b).
Proof. intros. unfold udiv. by rewrite (proj2 (Z.eqb_neq _ _)). Qed.

Lemma urem_ok {E} a b : b ≠ 0 → urem (E:=E) a b = Ok (a mod b).
Proof. intros. unfold urem. by rewrite (proj2 (Z.eqb_neq _ _)). Qed.

Lemma uadd_inv {E} m a b c : uadd (E:=E) m a b = Ok c → c = a + b ∧ c ≤ m.
Proof. unfold uadd, checked_add. case_match eqn:H; simpl; [|done]. intros [= <-]. lia. Qed.

Lemma usub_inv {E} a b c : usub (E:=E) a b = Ok c → c = a - b ∧ 0 ≤ c.
Proof. unfold usub, checked_sub. case_match eqn:H; simpl; [|done]. intros [= <-]. lia. Qed.

Lemma umul_inv {E} m a b c : umul (E:=E) m a b = Ok c → c = a * b ∧ c ≤ m.
Proof. unfold umul, checked_mul. case_match eqn:H; simpl; [|done]. intros [= <-]. lia. Qed.

Lemma udiv_inv {E} a b c : udiv (E:=E) a b = Ok c → c = a / b ∧ b ≠ 0.
Proof. unfold udiv. case_match eqn:H; [done|]. intros [= <-]. lia. Qed.

Lemma urem_inv {E} a b c : urem (E:=E) a b = Ok c → c = a mod b ∧ b ≠ 0.
Proof. unfold urem. case_match eqn:H; [done|]. intros [= <-]. lia. Qed.

Lemma div_ceil_spec a b : 0 < b → a ≤ div_ceil a b * b < a + b.
Proof.
  intros Hb. unfold div_ceil.
  pose proof (Z.div_mod (a + b - 1) b ltac:(lia)).
  pose proof (Z.mod_pos_bound (a + b - 1) b Hb). nia.
Qed.

Lemma div_ceil_le a b c : 0 < b → a ≤ c * b → div_ceil a b ≤ c.
Proof. intros Hb H. pose proof (div_ceil_spec a b Hb). nia. Qed.

(** ** Automation *)

Create HintDb arti.

(** Boolean comparisons on [Z] in hypotheses and goal become propositions. *)
Ltac zify_bool :=
  repeat match goal with
  | H : (_ <=? _) = true |- _ => apply Z.leb_le in H
  | H : (_ <=? _) = false |- _ => apply Z.leb_gt in H
  | H : (_ <? _) = true |- _ => apply Z.ltb_lt in H
  | H : (_ <? _) = false |- _ => apply Z.ltb_ge in H
  | H : (_ =? _) = true |- _ => apply Z.eqb_eq in H
  | H : (_ =? _) = false |- _ => apply Z.eqb_neq in H
  | H : (_ && _) = true |- _ => apply andb_true_iff in H as [? ?]
  | H : (_ || _) = false |- _ => apply orb_false_iff in H as [? ?]
  | H : negb _ = true |- _ => apply negb_true_iff in H
  | H : negb _ = false |- _ => apply negb_false_iff in H
  end.

(** Decomposes a successful chain of operations. *)
Ltac ok_inv :=
  repeat match goal with
  | H : Ok _ = Ok _ |- _ => injection H as H; try subst
  | H : (_, Ok _) = (_, Ok _) |- _ => injection H as ? H; try subst
  | H : Err _ = Ok _ |- _ => discriminate H
  | H : Panic = Ok _ |- _ => discriminate H
  | H : (_, Err _) = (_, Ok _) |- _ => discriminate H
  | H : (_, Panic) = (_, Ok _) |- _ => discriminate H
  | H : mbind _ _ = Ok _ |- _ => apply bind_ok in H as (? & ? & H)
  | H : uadd _ _ _ = Ok _ |- _ => apply uadd_inv in H as [? ?]
  | H : usub _ _ = Ok _ |- _ => apply usub_inv in H as [? ?]
  | H : umul _ _ _ = Ok _ |- _ => apply umul_inv in H as [? ?]
  | H : udiv _ _ = Ok _ |- _ => apply udiv_inv in H as [? ?]
  | H : urem _ _ = Ok _ |- _ => apply urem_inv in H as [? ?]
  | H : debug_assert _ = Ok _ |- _ => apply debug_assert_ok in H
  | H : mret _ = Ok _ |- _ => injection H as H; try subst
  end.

(** Runs arithmetic whose bounds [tac] can prove. *)
Ltac run_arith tac :=
  repeat (first
    [ rewrite uadd_ok by tac | rewrite usub_ok by tac | rewrite umul_ok by tac
    | rewrite udiv_ok by tac | rewrite urem_ok by tac ]; rewrite ?ok_bind; cbn beta).

(** ** Code without an error path

    [NoErr m]: [m] returns a value or panics.  The instances follow the shape of the code. *)

Class NoErr {E A} (m : res E A) : Prop := no_err : ∀ e, m ≠ Err e.

#[export] Instance no_err_ok {E A} (a : A) : NoErr (E:=E) (Ok a).
Proof. done. Qed.
#[export] Instance no_err_panic {E A} : NoErr (E:=E) (A:=A) Panic.
Proof. done. Qed.
#[export] Instance no_err_bind {E A B} (m : res E A) (f : A → res E B) :
  NoErr m → (∀ a, NoErr (f a)) → NoErr (m ≫= f).
Proof. intros Hm Hf e. destruct m as [a|e'|]; simpl; [apply Hf|intros _; by apply (Hm e')|done]. Qed.
#[export] Instance no_err_if {E A} (c : bool) (m n : res E A) :
  NoErr m → NoErr n → NoErr (if c then m else n).
Proof. by destruct c. Qed.
#[export] Instance no_err_expect {E A} (o : option A) : NoErr (E:=E) (expect o).
Proof. by destruct o. Qed.
#[export] Instance no_err_assert {E} b : NoErr (E:=E) (debug_assert b).
Proof. by destruct b. Qed.
#[export] Instance no_err_uadd {E} m a b : NoErr (E:=E) (uadd m a b).
Proof. unfold uadd. apply _. Qed.
#[export] Instance no_err_usub {E} a b : NoErr (E:=E) (usub a b).
Proof. unfold usub. apply _. Qed.
#[export] Instance no_err_umul {E} m a b : NoErr (E:=E) (umul m a b).
Proof. unfold umul. apply _. Qed.
#[export] Instance no_err_udiv {E} a b : NoErr (E:=E) (udiv a b).
Proof. unfold udiv. apply _. Qed.
#[export] Instance no_err_urem {E} a b : NoErr (E:=E) (urem a b).
Proof. unfold urem. apply _. Qed.
#[export] Hint Extern 1 (NoErr (match ?x with pair _ _ => _ end)) =>
  destruct x : typeclass_instances.

(** ** Lists *)

Lemma take_drop_length {A} (n : nat) (l : list A) :
  (n ≤ length l)%nat → length (take n l) = n.
Proof. intros. rewrite length_take. lia. Qed.

(** Sum of a list of integers. *)
Fixpoint sumZ (l : list Z) : Z :=
  match l with [] => 0 | x :: l => x + sumZ l end.

Lemma sumZ_app l k : sumZ (l ++ k) = sumZ l + sumZ k.
Proof. induction l; simpl; lia. Qed.

(** A map whose keys are the integers from one to [n] has at most [n] entries. *)
Lemma size_bounded {A} (m : gmap Z A) n :
  0 ≤ n → (∀ id x, m !! id = Some x → 1 ≤ id ≤ n) → Z.of_nat (size m) ≤ n.
Proof.
  intros Hn Hm. rewrite <-size_dom.
  trans (Z.of_nat (size (list_to_set (seqZ 1 n) : gset Z))).
  - apply Nat2Z.inj_le, subseteq_size. intros id [x Hx]%elem_of_dom.
    apply elem_of_list_to_set, elem_of_seqZ. apply Hm in Hx. lia.
  - rewrite size_list_to_set by apply NoDup_seqZ. rewrite length_seqZ. lia.
Qed.

(** ** Reachability

    [reachable init step] is the set of states that a step relation reaches from the initial
    ones; invariants are proved by [reachable_ind]. *)

Inductive reachable {S : Type} (init : S → Prop) (step : S → S → Prop) : S → Prop :=
| reach_init s : init s → reachable init step s
| reach_step s s' : reachable init step s → step s s' → reachable init step s'.

Lemma invariant_reachable {S} (init : S → Prop) step (I : S → Prop) :
  (∀ s, init s → I s) → (∀ s s', I s → step s s' → I s') →
  ∀ s, reachable init step s → I s.
Proof. intros H0 H1 s. induction 1; eauto. Qed.
