(* ===== verification/Text.v ===== *)
(** * Text: strings as bytes

    A [str] or [String] is the list of its UTF-8 bytes.  This file holds what the parsers and
    printers use of the standard library: decimal numbers, splitting and joining, and the order
    of strings. *)

From stdpp Require Import sorting.
From S2P Require Import Prelude.

Definition byte_of_ascii (a : Ascii.ascii) : Z := Z.of_N (Ascii.N_of_ascii a).
Fixpoint str (s : string) : list Z :=
  match s with
  | EmptyString => []
  | String a s => byte_of_ascii a :: str s
  end.

(** ** Numbers *)

Definition is_digit (x : Z) : Prop := 48 ≤ x ≤ 57.
Definition is_ascii_digit (x : Z) : bool := (48 <=? x) && (x <=? 57).

(** [<uN as FromStr>::from_str]: an optional plus sign and decimal digits. *)
Fixpoint parse_digits (max acc : Z) (l : list Z) : option Z :=
  match l with
  | [] => Some acc
  | d :: l =>
      if is_ascii_digit d
      then let acc' := acc * 10 + (d - 48) in
           if acc' <=? max then parse_digits max acc' l else None
      else None
  end.

Definition parse_uint (max : Z) (l : list Z) : option Z :=
  match l with
  | [] => None
  | x :: l' =>
      if x =? 43 then (if (length l' =? 0)%nat then None else parse_digits max 0 l')
      else parse_digits max 0 l
  end.

(** [to_string] of a number that has at most [fuel] digits. *)
Fixpoint dec_digits (fuel : nat) (x : Z) : list Z :=
  match fuel with
  | O => []
  | S fuel => if x <? 10 then [48 + x] else dec_digits fuel (x / 10) ++ [48 + x mod 10]
  end.

Lemma parse_digits_cons max a d l :
  0 ≤ d < 10 → 10 * a + d ≤ max →
  parse_digits max a ((48 + d) :: l) = parse_digits max (10 * a + d) l.
Proof.
  intros Hd Ha. cbn [parse_digits]. unfold is_ascii_digit.
  rewrite (proj2 (Z.leb_le 48 _)), (proj2 (Z.leb_le _ 57)) by lia. cbn [andb].
  replace (a * 10 + (48 + d - 48)) with (10 * a + d) by lia.
  by rewrite (proj2 (Z.leb_le _ _)).
Qed.

(** The digits of a number read back as the number; the first is a zero only for zero. *)
Lemma dec_digits_spec max fuel x :
  (0 < fuel)%nat → 0 ≤ x < 10 ^ Z.of_nat fuel →
  Forall is_digit (dec_digits fuel x) ∧
  (∃ d l, dec_digits fuel x = d :: l ∧ (0 < x → d ≠ 48)) ∧
  (x ≤ max → ∀ l, parse_digits max 0 (dec_digits fuel x ++ l) = parse_digits max x l).
Proof.
  revert x. induction fuel as [|fuel IH]; intros x Hf Hx; [lia|]. cbn [dec_digits].
  destruct (x <? 10) eqn:H10; zify_bool.
  - split; [repeat constructor; lia|]. split; [eexists _, _; split; [done|lia]|].
    intros Hm l. cbn [app]. by rewrite (parse_digits_cons max 0 x) by lia.
  - pose proof (Z.div_mod x 10 ltac:(lia)) as Hdm. pose proof (Z.mod_pos_bound x 10 ltac:(lia)).
    rewrite Nat2Z.inj_succ, Z.pow_succ_r in Hx by lia.
    assert (Hf' : (0 < fuel)%nat) by (destruct fuel; [simpl in Hx; lia|lia]).
    destruct (IH (x / 10)) as (H1 & (d & l0 & H2 & Hd) & H3); [done|lia|]. split.
    { apply Forall_app. split; [done|]. repeat constructor; lia. }
    split; [rewrite H2; eexists _, _; split; [done|intros _; apply Hd; lia]|].
    intros Hm l. rewrite <-(assoc_L app), H3 by lia. cbn [app]. rewrite parse_digits_cons by lia.
    by rewrite <-Hdm.
Qed.

Lemma parse_uint_dec max fuel x :
  (0 < fuel)%nat → 0 ≤ x < 10 ^ Z.of_nat fuel → x ≤ max →
  parse_uint max (dec_digits fuel x) = Some x.
Proof.
  intros Hf Hx Hm. destruct (dec_digits_spec max fuel x Hf Hx) as (H1 & (d & l & H2 & _) & H3).
  specialize (H3 Hm []). rewrite app_nil_r in H3. rewrite H2 in H1, H3 |- *.
  inversion H1 as [|?? Hd Hl]; subst. unfold is_digit in Hd. unfold parse_uint.
  rewrite (proj2 (Z.eqb_neq _ _)) by lia. done.
Qed.

Lemma parse_digits_range max acc l x : 0 ≤ acc ≤ max → parse_digits max acc l = Some x → acc ≤ x ≤ max.
Proof.
  revert acc. induction l as [|d l IH]; intros acc Hacc; cbn [parse_digits].
  { intros [= <-]. lia. }
  destruct (is_ascii_digit d) eqn:Hd; [|done]. unfold is_ascii_digit in Hd. zify_bool. simpl.
  destruct (acc * 10 + (d - 48) <=? max) eqn:Hle; [|done]. zify_bool. intros Hx.
  apply IH in Hx; lia.
Qed.

Lemma parse_uint_range max l x : 0 ≤ max → parse_uint max l = Some x → 0 ≤ x ≤ max.
Proof.
  intros Hm. unfold parse_uint. destruct l as [|d l]; [done|].
  destruct (d =? 43); [destruct (length l =? 0)%nat; [done|]|]; intros H;
    eapply parse_digits_range in H; lia.
Qed.

(** ** Splitting and joining *)

(** [s.split(c)]: at least one piece. *)
Fixpoint split_on (c : Z) (l : list Z) : list (list Z) :=
  match l with
  | [] => [[]]
  | x :: l =>
      if x =? c then [] :: split_on c l
      else match split_on c l with
           | [] => [[x]]
           | p :: ps => (x :: p) :: ps
           end
  end.

(** The pieces before and after the first [c]. *)
Fixpoint split_once (c : Z) (l : list Z) : option (list Z * list Z) :=
  match l with
  | [] => None
  | x :: l =>
      if x =? c then Some ([], l)
      else match split_once c l with
           | None => None
           | Some (a, b) => Some (x :: a, b)
           end
  end.

Fixpoint join (sep : list Z) (ps : list (list Z)) : list Z :=
  match ps with
  | [] => []
  | [p] => p
  | p :: ps => p ++ sep ++ join sep ps
  end.

Lemma split_on_nonempty c l : ∃ p ps, split_on c l = p :: ps.
Proof.
  destruct l as [|x l]; simpl; [by eexists _, _|].
  destruct (x =? c); [by eexists _, _|]. destruct (split_on c l); by eexists _, _.
Qed.

Lemma split_on_app c p l : c ∉ p → split_on c (p ++ c :: l) = p :: split_on c l.
Proof.
  induction p as [|x p IH]; simpl; intros Hc.
  - by rewrite Z.eqb_refl.
  - apply not_elem_of_cons in Hc as [Hx Hc]. rewrite (proj2 (Z.eqb_neq _ _)) by congruence.
    by rewrite IH.
Qed.

Lemma split_on_none c p : c ∉ p → split_on c p = [p].
Proof.
  induction p as [|x p IH]; simpl; intros Hc; [done|].
  apply not_elem_of_cons in Hc as [Hx Hc]. rewrite (proj2 (Z.eqb_neq _ _)) by congruence.
  by rewrite IH.
Qed.

Lemma split_join c ps : ps ≠ [] → Forall (λ p, c ∉ p) ps → split_on c (join [c] ps) = ps.
Proof.
  intros Hne Hps. induction Hps as [|p ps Hp Hps IH]; [done|].
  destruct ps as [|p' ps]; [by apply split_on_none|].
  change (join [c] (p :: p' :: ps)) with (p ++ c :: join [c] (p' :: ps)).
  rewrite split_on_app by done. f_equal. by apply IH.
Qed.

Lemma split_once_app c a b : c ∉ a → split_once c (a ++ c :: b) = Some (a, b).
Proof.
  induction a as [|x a IH]; simpl; intros Hc; [by rewrite Z.eqb_refl|].
  apply not_elem_of_cons in Hc as [Hx Hc]. rewrite (proj2 (Z.eqb_neq _ _)) by congruence.
  by rewrite IH.
Qed.

Lemma split_once_none c a : c ∉ a → split_once c a = None.
Proof.
  induction a as [|x a IH]; simpl; intros Hc; [done|].
  apply not_elem_of_cons in Hc as [Hx Hc]. rewrite (proj2 (Z.eqb_neq _ _)) by congruence.
  by rewrite IH.
Qed.

Lemma split_once_spec c l a b : split_once c l = Some (a, b) → l = a ++ c :: b ∧ c ∉ a.
Proof.
  revert a b. induction l as [|x l IH]; intros a b; simpl; [done|].
  destruct (Z.eqb_spec x c) as [->|Hx].
  - intros [= <- <-]. split; [done|]. apply not_elem_of_nil.
  - destruct (split_once c l) as [[a' b']|]; [|done]. intros [= <- <-].
    destruct (IH a' b' eq_refl) as [-> Hc]. split; [done|]. by apply not_elem_of_cons.
Qed.

Lemma elem_of_join x c ps : x ∈ join [c] ps → x = c ∨ ∃ p, p ∈ ps ∧ x ∈ p.
Proof.
  induction ps as [|p ps IH]; [by intros ?%elem_of_nil|]. destruct ps as [|p' ps].
  - simpl. intros Hx. right. exists p. split; [by apply list_elem_of_singleton|done].
  - change (join [c] (p :: p' :: ps)) with (p ++ c :: join [c] (p' :: ps)).
    rewrite elem_of_app, elem_of_cons. intros [Hx|[->|Hx]]; [|by left|].
    + right. exists p. split; [by left|done].
    + destruct (IH Hx) as [->|(q & Hq & Hx')]; [by left|]. right. exists q. split; [by right|done].
Qed.

Lemma split_on_elem c l p : p ∈ split_on c l → c ∉ p ∧ ∀ x, x ∈ p → x ∈ l.
Proof.
  revert p. induction l as [|x l IH]; intros p; simpl.
  { rewrite list_elem_of_singleton. intros ->. split; [apply not_elem_of_nil|done]. }
  destruct (Z.eqb_spec x c) as [->|Hx].
  - rewrite elem_of_cons. intros [->|Hp].
    + split; [apply not_elem_of_nil|]. by intros y ?%elem_of_nil.
    + destruct (IH p Hp) as [? Hin]. split; [done|]. intros y Hy. right. by apply Hin.
  - destruct (split_on_nonempty c l) as (q & qs & Heq). rewrite Heq in *.
    rewrite elem_of_cons. intros [->|Hp].
    + destruct (IH q) as [? Hin]; [by left|]. split; [by apply not_elem_of_cons|].
      intros y. rewrite elem_of_cons. intros [->|Hy]; [by left|]. right. by apply Hin.
    + destruct (IH p) as [? Hin]; [by right|]. split; [done|]. intros y Hy. right. by apply Hin.
Qed.

(** ** Order *)

(** The lexicographic order of [str] and [String]. *)
Fixpoint str_leb (a b : list Z) : bool :=
  match a, b with
  | [], _ => true
  | _, [] => false
  | x :: a, y :: b => (x <? y) || ((x =? y) && str_leb a b)
  end.

Lemma str_leb_refl a : str_leb a a = true.
Proof. induction a as [|x a IH]; simpl; [done|]. by rewrite Z.eqb_refl, IH, orb_true_r. Qed.

Lemma str_leb_total a b : str_leb a b = true ∨ str_leb b a = true.
Proof.
  revert b. induction a as [|x a IH]; intros [|y b]; simpl; try by auto.
  destruct (Z.lt_trichotomy x y) as [?|[->|?]].
  - left. by rewrite (proj2 (Z.ltb_lt _ _)).
  - rewrite Z.eqb_refl. destruct (IH b) as [->| ->]; rewrite orb_true_r; auto.
  - right. by rewrite (proj2 (Z.ltb_lt _ _)).
Qed.

Lemma str_leb_cons x y a b :
  str_leb (x :: a) (y :: b) = true ↔ x < y ∨ (x = y ∧ str_leb a b = true).
Proof. simpl. rewrite orb_true_iff, andb_true_iff, Z.ltb_lt, Z.eqb_eq. done. Qed.

Lemma str_leb_antisym a b : str_leb a b = true → str_leb b a = true → a = b.
Proof.
  revert b. induction a as [|x a IH]; intros [|y b]; [done..|].
  rewrite !str_leb_cons. intros [?|[-> H1]] [?|[? H2]]; try lia. f_equal. by apply IH.
Qed.

Lemma str_leb_trans a b c : str_leb a b = true → str_leb b c = true → str_leb a c = true.
Proof.
  revert b c. induction a as [|x a IH]; intros [|y b] [|z c]; try done.
  rewrite !str_leb_cons. intros [?|[-> H1]] [?|[-> H2]]; [left; lia..|]. right. split; [done|].
  by eapply IH.
Qed.
