(* ===== verification/Bytes.v ===== *)
(** * Bytes: the byte reader and writer of crate tor-bytes

    [Reader] is the cursor over a byte slice of [tor-bytes/src/reader.rs]; its methods are
    functions in the state-and-result monad [RD], so that the offset a failed call leaves behind
    is part of the model.  [Writer] is the trait of [tor-bytes/src/writer.rs] as a type class;
    [Vec<u8>] is one instance, the fixed-size slice writer of file [RelayCell] another.  A byte
    is a [Z] in 0..255, a [usize] offset or length a [nat]. *)

From S2P Require Import Prelude.

(** ** Errors (tor-bytes/src/err.rs) *)

Inductive BytesError : Type :=
| Truncated
| Incomplete (deficit : nat)
| ExtraneousBytes
| BadLengthValue
| BadMessage (msg : string)
| InvalidMessage (msg : string)
| MissingData
| Bug (msg : string).

Inductive EncodeError : Type :=
| EncBadLengthValue
| EncBug (msg : string).

#[export] Instance BytesError_eq_dec : EqDecision BytesError.
Proof. solve_decision. Defined.

(** ** Bytes and big-endian integers *)

Definition byte_ok (x : Z) : Prop := 0 ≤ x < 256.
Definition bytes_ok (l : list Z) : Prop := Forall byte_ok l.

(** [uN::to_be_bytes] for [n] bytes. *)
Fixpoint to_be_bytes (n : nat) (x : Z) : list Z :=
  match n with
  | O => []
  | S n' => (x / 256 ^ Z.of_nat n') mod 256 :: to_be_bytes n' x
  end.

(** [uN::from_be_bytes]. *)
Fixpoint from_be_bytes_acc (acc : Z) (l : list Z) : Z :=
  match l with
  | [] => acc
  | x :: l => from_be_bytes_acc (acc * 256 + x) l
  end.
Definition from_be_bytes (l : list Z) : Z := from_be_bytes_acc 0 l.

(** ** Reader *)

Inductive Completeness : Type := PossiblyIncomplete | SupposedlyComplete.

Record Reader : Type := mkReader {
  rd_b : list Z;
  rd_off : nat;
  rd_completeness : Completeness;
}.

Definition from_slice (slice : list Z) : Reader := mkReader slice 0 SupposedlyComplete.
Definition from_possibly_incomplete_slice (slice : list Z) : Reader :=
  mkReader slice 0 PossiblyIncomplete.

Definition total_len (r : Reader) : nat := length (rd_b r).
Definition remaining (r : Reader) : nat := length (rd_b r) - rd_off r.
Definition into_rest (r : Reader) : list Z := drop (rd_off r) (rd_b r).
Definition consumed (r : Reader) : nat := rd_off r.

Definition set_off (n : nat) (r : Reader) : Reader :=
  mkReader (rd_b r) n (rd_completeness r).

(** A reader method: from the reader to the reader after the call and its result. *)
Definition RD (A : Type) : Type := Reader → Reader * res BytesError A.

#[export] Instance RD_mret : MRet RD := λ A a r, (r, Ok a).
#[export] Instance RD_mbind : MBind RD := λ A B f m r,
  match m r with
  | (r', Ok a) => f a r'
  | (r', Err e) => (r', Err e)
  | (r', Panic) => (r', Panic)
  end.

Definition rd_fail {A} (e : BytesError) : RD A := λ r, (r, Err e).
Definition rd_remaining : RD nat := λ r, (r, Ok (remaining r)).

Definition incomplete_error (r : Reader) (deficit : nat) : BytesError :=
  match rd_completeness r with
  | PossiblyIncomplete => Incomplete deficit
  | SupposedlyComplete => MissingData
  end.

Definition peek (n : nat) (r : Reader) : res BytesError (list Z) :=
  if (remaining r <? n)%nat then Err (incomplete_error r (n - remaining r))
  else Ok (take n (drop (rd_off r) (rd_b r))).

Definition advance (n : nat) : RD unit := λ r,
  match peek n r with
  | Ok _ => (set_off (rd_off r + n) r, Ok tt)
  | Err e => (r, Err e)
  | Panic => (r, Panic)
  end.

Definition should_be_exhausted : RD unit := λ r,
  if (remaining r =? 0)%nat then (r, Ok tt) else (r, Err ExtraneousBytes).

Definition truncate (n : nat) : RD unit := λ r,
  if (n <? remaining r)%nat
  then (mkReader (take (rd_off r + n) (rd_b r)) (rd_off r) (rd_completeness r), Ok tt)
  else (r, Ok tt).

Definition rd_take (n : nat) : RD (list Z) := λ r,
  match peek n r with
  | Ok b => (advance n ≫= λ _, mret b) r
  | Err e => (r, Err e)
  | Panic => (r, Panic)
  end.

(** [extract]: on an error the offset is rewound. *)
Definition extract {A} (take_from : RD A) : RD A := λ r,
  let off_orig := rd_off r in
  match take_from r with
  | (r', Err e) => (set_off off_orig r', Err e)
  | rr => rr
  end.

(** [take_into] followed by the array it fills: [<[u8; N] as Readable>::take_from]. *)
Definition take_array (n : nat) : RD (list Z) := rd_take n.

Definition rd_lift {A} (x : res BytesError A) : RD A := λ r, (r, x).

Definition take_u8 : RD Z :=
  b ← rd_take 1; rd_lift (expect (b !! 0%nat)).
Definition take_u16 : RD Z :=
  b ← extract (take_array 2); mret (from_be_bytes b).
Definition take_u32 : RD Z :=
  b ← extract (take_array 4); mret (from_be_bytes b).
Definition take_u64 : RD Z :=
  b ← extract (take_array 8); mret (from_be_bytes b).
Definition take_u128 : RD Z :=
  b ← extract (take_array 16); mret (from_be_bytes b).

(** [iter().position(|b| *b == term)]. *)
Fixpoint position (term : Z) (l : list Z) : option nat :=
  match l with
  | [] => None
  | x :: l => if x =? term then Some 0%nat else S <$> position term l
  end.

Definition take_until (term : Z) : RD (list Z) := λ r,
  match position term (drop (rd_off r) (rd_b r)) with
  | None => (r, Err (incomplete_error r 1))
  | Some pos => (result ← rd_take pos; _ ← advance 1; mret result) r
  end.

Definition take_rest : RD (list Z) := λ r,
  match rd_take (remaining r) r with
  | (r', Err _) => (r', Panic)
  | rr => rr
  end.

Definition take_all_but (n : nat) : RD (list Z) := λ r,
  match rd_completeness r with
  | PossiblyIncomplete =>
      (r, Err (Bug "Called take_all_but on a PossiblyIncomplete reader."))
  | SupposedlyComplete =>
      if (remaining r <? n)%nat then (r, Err MissingData)
      else match rd_take (remaining r - n) r with
           | (r', Err _) => (r', Err (Bug "Subtraction misled us somehow"))
           | (r', Ok result) =>
               if (remaining r' =? n)%nat then (r', Ok result) else (r', Panic)
           | (r', Panic) => (r', Panic)
           end
  end.

Fixpoint extract_n_loop {A} (take_from : RD A) (n : nat) : RD (list A) :=
  match n with
  | O => mret []
  | S n => x ← take_from; xs ← extract_n_loop take_from n; mret (x :: xs)
  end.

Definition extract_n {A} (take_from : RD A) (n : nat) : RD (list A) := λ r,
  let off_orig := rd_off r in
  match extract_n_loop take_from n r with
  | (r', Err e) => (set_off off_orig r', Err e)
  | rr => rr
  end.

Definition read_nested_generic {A} (length : RD Z) (f : RD A) : RD A :=
  len ← extract length;
  slice ← rd_take (Z.to_nat len);
  λ r, let '(inner, out) := f (from_slice slice) in
       match out with
       | Ok out =>
           match should_be_exhausted inner with
           | (_, Ok _) => (r, Ok out)
           | (_, Err e) => (r, Err e)
           | (_, Panic) => (r, Panic)
           end
       | Err e => (r, Err e)
       | Panic => (r, Panic)
       end.

Definition read_nested_u8len {A} (f : RD A) : RD A := read_nested_generic take_u8 f.
Definition read_nested_u16len {A} (f : RD A) : RD A := read_nested_generic take_u16 f.
Definition read_nested_u32len {A} (f : RD A) : RD A := read_nested_generic take_u32 f.

(** [range]: the bytes between two cursors, empty when they do not delimit a range. *)
Definition range (start_pos end_pos : nat) (r : Reader) : list Z :=
  if (start_pos <=? end_pos)%nat && (end_pos <=? length (rd_b r))%nat
  then take (end_pos - start_pos) (drop start_pos (rd_b r))
  else [].

(** ** Writer *)

Class Writer (W : Type) : Type := write_all : list Z → W → W.

#[export] Instance vec_writer : Writer (list Z) := λ bytes w, w ++ bytes.

Section writer.
Context {W : Type} `{Writer W}.

Definition write_u8 (x : Z) : W → W := write_all [x].
Definition write_u16 (x : Z) : W → W := write_all (to_be_bytes 2 x).
Definition write_u32 (x : Z) : W → W := write_all (to_be_bytes 4 x).
Definition write_u64 (x : Z) : W → W := write_all (to_be_bytes 8 x).
Definition write_u128 (x : Z) : W → W := write_all (to_be_bytes 16 x).
Definition write_zeros (n : nat) : W → W := write_all (replicate n 0).

(** [NestedWriter::finish] with a length field of [k] bytes: [inner] is the buffer the
    caller has filled. *)
Definition nested_finish (k : nat) (inner : list Z) (outer : W) : res EncodeError W :=
  if Z.of_nat (length inner) <? 256 ^ Z.of_nat k
  then Ok (write_all inner (write_all (to_be_bytes k (Z.of_nat (length inner))) outer))
  else Err EncBadLengthValue.
End writer.

(** ** Big-endian integers: round trips *)

Lemma length_to_be_bytes n x : length (to_be_bytes n x) = n.
Proof. induction n; simpl; auto. Qed.

Lemma to_be_bytes_ok n x : bytes_ok (to_be_bytes n x).
Proof.
  unfold bytes_ok. induction n as [|n IH]; constructor; [|done].
  apply Z.mod_pos_bound. lia.
Qed.

Lemma from_be_bytes_acc_to acc n x :
  from_be_bytes_acc acc (to_be_bytes n x) = acc * 256 ^ Z.of_nat n + x mod 256 ^ Z.of_nat n.
Proof.
  revert acc. induction n as [|n IH]; intros acc.
  - rewrite Z.mod_1_r. simpl. lia.
  - simpl to_be_bytes. cbn [from_be_bytes_acc]. rewrite IH.
    rewrite Nat2Z.inj_succ, Z.pow_succ_r by lia.
    rewrite (Z.mul_comm 256), Z.rem_mul_r by lia. lia.
Qed.

Lemma from_to_be_bytes n x :
  0 ≤ x < 256 ^ Z.of_nat n → from_be_bytes (to_be_bytes n x) = x.
Proof.
  intros. unfold from_be_bytes. rewrite from_be_bytes_acc_to, Z.mod_small by done. lia.
Qed.

Lemma from_be_bytes_acc_bound acc l :
  0 ≤ acc → bytes_ok l →
  acc * 256 ^ Z.of_nat (length l) ≤ from_be_bytes_acc acc l
    < (acc + 1) * 256 ^ Z.of_nat (length l).
Proof.
  intros Hacc Hl. revert acc Hacc. induction Hl as [|x l Hx Hl IH]; intros acc Hacc; simpl.
  - lia.
  - unfold byte_ok in Hx. specialize (IH (acc * 256 + x) ltac:(lia)).
    rewrite Nat2Z.inj_succ, Z.pow_succ_r by lia. nia.
Qed.

Lemma from_be_bytes_bound l :
  bytes_ok l → 0 ≤ from_be_bytes l < 256 ^ Z.of_nat (length l).
Proof. intros H. pose proof (from_be_bytes_acc_bound 0 l ltac:(lia) H). unfold from_be_bytes. lia. Qed.

(** ** What a reader method consumes *)

Definition rd_wf (r : Reader) : Prop := (rd_off r ≤ length (rd_b r))%nat.

Lemma rd_take_ok n r :
  (n ≤ remaining r)%nat →
  rd_take n r = (set_off (rd_off r + n) r, Ok (take n (drop (rd_off r) (rd_b r)))).
Proof.
  intros Hn. unfold rd_take, advance, peek, mbind, RD_mbind.
  by rewrite (proj2 (Nat.ltb_ge _ _)).
Qed.

Lemma rd_take_err n r :
  (remaining r < n)%nat → rd_take n r = (r, Err (incomplete_error r (n - remaining r))).
Proof. intros Hn. unfold rd_take, peek. by rewrite (proj2 (Nat.ltb_lt _ _)). Qed.

Lemma advance_take n r :
  advance n r = (fst (rd_take n r), _ ← snd (rd_take n r); Ok tt).
Proof.
  unfold rd_take, advance, mbind, RD_mbind, peek.
  by destruct (remaining r <? n)%nat.
Qed.

(** [reads f bs v]: wherever [bs] is next, [f] consumes exactly [bs] and returns [v]. *)
Definition reads {A} (f : RD A) (bs : list Z) (v : A) : Prop :=
  ∀ pre post c,
    f (mkReader (pre ++ bs ++ post) (length pre) c) =
      (mkReader (pre ++ bs ++ post) (length pre + length bs) c, Ok v).

Lemma reads_bind {A B} (f : RD A) (g : A → RD B) bs1 bs2 v w :
  reads f bs1 v → reads (g v) bs2 w → reads (f ≫= g) (bs1 ++ bs2) w.
Proof.
  intros Hf Hg pre post c. unfold mbind, RD_mbind.
  rewrite <-(assoc_L app), Hf.
  specialize (Hg (pre ++ bs1) post c). rewrite <-(assoc_L app), length_app in Hg.
  rewrite Hg, length_app, Nat.add_assoc. done.
Qed.

Lemma reads_bind_nil {A B} (f : RD A) (g : A → RD B) bs v w :
  reads f bs v → reads (g v) [] w → reads (f ≫= g) bs w.
Proof. rewrite <-(app_nil_r bs) at 2. apply reads_bind. Qed.

Lemma reads_ret {A} (v : A) : reads (mret v) [] v.
Proof. intros pre post c. simpl. by rewrite Nat.add_0_r. Qed.

Lemma reads_take bs : reads (rd_take (length bs)) bs bs.
Proof.
  intros pre post c. rewrite rd_take_ok.
  - unfold set_off; simpl. by rewrite drop_app_length, take_app_length.
  - unfold remaining; simpl. rewrite !length_app. lia.
Qed.

Lemma reads_take' n bs : n = length bs → reads (rd_take n) bs bs.
Proof. intros ->. apply reads_take. Qed.

Lemma reads_advance n bs : n = length bs → reads (advance n) bs tt.
Proof. intros Hn pre post c. rewrite advance_take, (reads_take' n bs Hn). done. Qed.

Lemma reads_extract {A} (f : RD A) bs v : reads f bs v → reads (extract f) bs v.
Proof. intros Hf pre post c. unfold extract. by rewrite Hf. Qed.

Lemma reads_uint n x :
  0 ≤ x < 256 ^ Z.of_nat n →
  reads (b ← extract (take_array n); mret (from_be_bytes b)) (to_be_bytes n x) x.
Proof.
  intros Hx. eapply reads_bind_nil.
  - apply reads_extract, reads_take'. by rewrite length_to_be_bytes.
  - rewrite from_to_be_bytes by done. apply reads_ret.
Qed.

Lemma reads_u8 x : reads take_u8 [x] x.
Proof.
  eapply reads_bind_nil; [by apply reads_take'|].
  intros pre post c. simpl. by rewrite Nat.add_0_r.
Qed.

Lemma reads_u16 x : in_uint u16_max x → reads take_u16 (to_be_bytes 2 x) x.
Proof. unfold in_uint, u16_max. intros. apply (reads_uint 2). simpl. lia. Qed.

Lemma reads_u32 x : in_uint u32_max x → reads take_u32 (to_be_bytes 4 x) x.
Proof. unfold in_uint, u32_max. intros. apply (reads_uint 4). simpl. lia. Qed.

Lemma reads_u64 x : in_uint u64_max x → reads take_u64 (to_be_bytes 8 x) x.
Proof. unfold in_uint, u64_max. intros. apply (reads_uint 8). simpl. lia. Qed.

Lemma reads_u128 x : in_uint u128_max x → reads take_u128 (to_be_bytes 16 x) x.
Proof. unfold in_uint, u128_max. intros. apply (reads_uint 16). simpl. lia. Qed.

Lemma position_app term l post : term ∉ l → position term (l ++ term :: post) = Some (length l).
Proof.
  induction l as [|x l IH]; intros Hn; simpl.
  - by rewrite Z.eqb_refl.
  - rewrite not_elem_of_cons in Hn. destruct Hn as [Hx Hl].
    rewrite (proj2 (Z.eqb_neq x term)) by congruence. by rewrite IH.
Qed.

Lemma reads_until term l : term ∉ l → reads (take_until term) (l ++ [term]) l.
Proof.
  intros Hl pre post c. unfold take_until. simpl.
  rewrite drop_app_length.
  replace (position term ((l ++ [term]) ++ post)) with (Some (length l))
    by (rewrite <-(assoc_L app l); by rewrite <-(position_app term l post)).
  apply (reads_bind (rd_take (length l)) (λ result, _ ← advance 1; mret result)
    l [term] l l (reads_take l)).
  eapply reads_bind_nil; [by apply reads_advance|apply reads_ret].
Qed.

Lemma reads_nested {A} (k : nat) (len : RD Z) (f : RD A) bs v :
  reads len (to_be_bytes k (Z.of_nat (length bs))) (Z.of_nat (length bs)) →
  reads f bs v →
  reads (read_nested_generic len f) (to_be_bytes k (Z.of_nat (length bs)) ++ bs) v.
Proof.
  intros Hlen Hf. unfold read_nested_generic.
  eapply reads_bind; [by apply reads_extract|].
  eapply reads_bind_nil; [apply reads_take'; by rewrite Nat2Z.id|].
  intros pre post c. specialize (Hf [] [] SupposedlyComplete). simpl in Hf.
  rewrite app_nil_r in Hf. unfold from_slice. rewrite Hf.
  unfold should_be_exhausted, remaining; simpl. rewrite Nat.sub_diag. simpl. by rewrite Nat.add_0_r.
Qed.

#[export] Hint Resolve reads_ret reads_take' reads_advance reads_u8 reads_u16 reads_u32 reads_u64
  reads_u128 reads_until reads_extract : arti.

(** ** The [Readable] contract

    The trait documentation (tor-bytes/src/lib.rs) requires of [take_from] that a success does
    not depend on the bytes after the consumed ones, that a failure other than [Incomplete]
    stays the same failure when more bytes arrive, and that [Incomplete] gives a lower bound of
    the bytes that are missing.  [prefix_stable] says so for a reader over a possibly incomplete
    slice [b] and its extension by [ext]. *)

Definition reader_at (b : list Z) (off : nat) : Reader := mkReader b off PossiblyIncomplete.

Definition stable_outcome {A} (f : RD A) (b ext : list Z) (off : nat) : Prop :=
  match f (reader_at b off) with
  | (r', Ok v) =>
      ∃ off', r' = reader_at b off' ∧ (off ≤ off' ≤ length b)%nat ∧
        f (reader_at (b ++ ext) off) = (reader_at (b ++ ext) off', Ok v)
  | (_, Err (Incomplete d)) =>
      (0 < d)%nat ∧
      ((length ext < d)%nat →
        ∃ r' d', f (reader_at (b ++ ext) off) = (r', Err (Incomplete d'))
                 ∧ (d ≤ length ext + d')%nat)
  | (_, Err e) => ∃ r', f (reader_at (b ++ ext) off) = (r', Err e)
  | (_, Panic) => ∃ r', f (reader_at (b ++ ext) off) = (r', Panic)
  end.

Class PrefixStable {A} (f : RD A) : Prop :=
  prefix_stable : ∀ b ext off, (off ≤ length b)%nat → stable_outcome f b ext off.

#[export] Instance stable_ret {A} (v : A) : PrefixStable (mret v : RD A).
Proof. intros b ext off Hoff. exists off. done. Qed.

#[export] Instance stable_lift {A} (v : option A) : PrefixStable (rd_lift (expect v)).
Proof. intros b ext off Hoff. unfold stable_outcome, rd_lift. destruct v; simpl; eauto. Qed.

#[export] Instance stable_invalid {A} msg : PrefixStable (rd_fail (A:=A) (InvalidMessage msg)).
Proof. intros b ext off Hoff. unfold stable_outcome, rd_fail. eauto. Qed.

#[export] Instance stable_take n : PrefixStable (rd_take n).
Proof.
  intros b ext off Hoff. unfold stable_outcome, reader_at.
  destruct (decide (n ≤ length b - off)%nat) as [Hn|Hn].
  - rewrite rd_take_ok by (unfold remaining; simpl; lia).
    exists (off + n)%nat. split; [done|]. split; [lia|].
    rewrite rd_take_ok by (unfold remaining; simpl; rewrite length_app; lia).
    unfold set_off; simpl. f_equal. f_equal.
    rewrite drop_app_le by lia. rewrite take_app_le; [done|]. rewrite length_drop. lia.
  - rewrite rd_take_err by (unfold remaining; simpl; lia).
    unfold incomplete_error, remaining; simpl. split; [lia|]. intros Hext.
    rewrite rd_take_err by (unfold remaining; simpl; rewrite length_app; lia).
    unfold incomplete_error, remaining; simpl. rewrite length_app. eexists _, _. split; [done|lia].
Qed.

#[export] Instance stable_bind {A B} (f : RD A) (g : A → RD B) :
  PrefixStable f → (∀ v, PrefixStable (g v)) → PrefixStable (f ≫= g).
Proof.
  intros Hf Hg b ext off Hoff. specialize (Hf b ext off Hoff).
  unfold stable_outcome, mbind, RD_mbind in *.
  destruct (f (reader_at b off)) as [r' [v|e|]].
  - destruct Hf as (off' & -> & Ho' & Hf). specialize (Hg v b ext off' ltac:(lia)).
    unfold stable_outcome in Hg. rewrite Hf.
    destruct (g v (reader_at b off')) as [r'' [w|e|]]; [|done..].
    destruct Hg as (off'' & -> & Ho'' & Hg). exists off''. split; [done|]. split; [lia|done].
  - destruct e; try (destruct Hf as [r2 ->]; eauto).
    destruct Hf as [Hd Hf]. split; [done|]. intros Hext.
    destruct (Hf Hext) as (r2 & d' & -> & ?). eauto.
  - destruct Hf as [r2 ->]. eauto.
Qed.

#[export] Instance stable_extract {A} (f : RD A) : PrefixStable f → PrefixStable (extract f).
Proof.
  intros Hf b ext off Hoff. specialize (Hf b ext off Hoff).
  unfold stable_outcome, extract in *.
  destruct (f (reader_at b off)) as [r' [v|e|]].
  - destruct Hf as (off' & -> & Ho' & ->). eauto.
  - destruct e; try (destruct Hf as [r2 ->]; eauto).
    destruct Hf as [Hd Hf]. split; [done|]. intros Hext.
    destruct (Hf Hext) as (r2 & d' & -> & ?). eauto.
  - destruct Hf as [r2 ->]. eauto.
Qed.

#[export] Instance stable_advance n : PrefixStable (advance n).
Proof.
  intros b ext off Hoff. pose proof (stable_take n b ext off Hoff) as Ht.
  unfold stable_outcome in *. rewrite !advance_take.
  destruct (rd_take n (reader_at b off)) as [r' [w|e|]]; simpl.
  - destruct Ht as (o & -> & ? & ->). eauto.
  - destruct e; try (destruct Ht as [r2 ->]; eauto).
    destruct Ht as [Hd Ht]. split; [done|]. intros Hx.
    destruct (Ht Hx) as (r2 & d' & -> & ?). eauto.
  - destruct Ht as [r2 ->]. eauto.
Qed.

#[export] Instance stable_u8 : PrefixStable take_u8.
Proof. unfold take_u8. apply _. Qed.
#[export] Instance stable_u16 : PrefixStable take_u16.
Proof. unfold take_u16. apply _. Qed.
#[export] Instance stable_u32 : PrefixStable take_u32.
Proof. unfold take_u32. apply _. Qed.
#[export] Instance stable_u64 : PrefixStable take_u64.
Proof. unfold take_u64. apply _. Qed.
#[export] Instance stable_u128 : PrefixStable take_u128.
Proof. unfold take_u128. apply _. Qed.

#[export] Instance stable_extract_n_loop {A} (f : RD A) n :
  PrefixStable f → PrefixStable (extract_n_loop f n).
Proof. intros Hf. induction n; simpl; apply _. Qed.

#[export] Instance stable_extract_n {A} (f : RD A) n :
  PrefixStable f → PrefixStable (extract_n f n).
Proof. intros Hf. apply (stable_extract (extract_n_loop f n)). apply _. Qed.

Lemma position_lt term l p : position term l = Some p → (p < length l)%nat.
Proof.
  revert p. induction l as [|x l IH]; simpl; intros p; [done|].
  case_match; [intros [= <-]; lia|].
  destruct (position term l) as [q|]; simpl; [intros [= <-]; specialize (IH q eq_refl); lia|done].
Qed.

Lemma position_app_l term l k p : position term l = Some p → position term (l ++ k) = Some p.
Proof.
  revert p. induction l as [|x l IH]; simpl; intros p; [done|].
  case_match; [done|]. destruct (position term l) as [q|]; simpl; [|done].
  intros [= <-]. by rewrite (IH q).
Qed.

#[export] Instance stable_until term : PrefixStable (take_until term).
Proof.
  intros b ext off Hoff. unfold stable_outcome, take_until. simpl.
  destruct (position term (drop off b)) as [p|] eqn:Hp.
  - rewrite (drop_app_le b) by done.
    rewrite (position_app_l _ _ ext _ Hp).
    apply (stable_bind (rd_take p) (λ result, _ ← advance 1; mret result) _ _ b ext off Hoff).
  - unfold incomplete_error. simpl. split; [lia|]. intros Hext.
    destruct ext; [|simpl in Hext; lia]. rewrite app_nil_r, Hp. eauto.
Qed.

(** The inner reader of a counted section is over a complete slice, so that what its parser
    does is independent of the bytes after the section; [Incomplete] must not leak from it. *)
#[export] Instance stable_nested {A} (len : RD Z) (f : RD A) :
  PrefixStable len → (∀ s d, snd (f (from_slice s)) ≠ Err (Incomplete d)) →
  PrefixStable (read_nested_generic len f).
Proof.
  intros Hlen Hinc. unfold read_nested_generic.
  apply stable_bind; [apply _|intros n]. apply stable_bind; [apply _|intros slice].
  intros b ext off Hoff. unfold stable_outcome. specialize (Hinc slice).
  destruct (f (from_slice slice)) as [inner [v|e|]].
  - unfold should_be_exhausted. destruct (remaining inner =? 0)%nat; [|eauto].
    exists off. split; [done|]. split; [lia|done].
  - destruct e; eauto. by destruct (Hinc deficit).
  - eauto.
Qed.

(** ** No panics, and no reader that goes back

    [Safe f]: on any reader whose offset is within its slice, [f] does not panic, leaves the
    slice alone, and does not move the offset backwards or past the end. *)

Definition safe_after {A} (r : Reader) (out : Reader * res BytesError A) : Prop :=
  snd out ≠ Panic ∧ rd_b (fst out) = rd_b r ∧ (rd_off r ≤ rd_off (fst out))%nat ∧ rd_wf (fst out).

Class Safe {A} (f : RD A) : Prop := safe : ∀ r, rd_wf r → safe_after r (f r).

#[export] Instance safe_ret {A} (v : A) : Safe (mret v : RD A).
Proof. by intros r Hr. Qed.

#[export] Instance safe_fail {A} e : Safe (rd_fail (A:=A) e).
Proof. by intros r Hr. Qed.

#[export] Instance safe_remaining : Safe rd_remaining.
Proof. by intros r Hr. Qed.

#[export] Instance safe_bind {A B} (f : RD A) (g : A → RD B) :
  Safe f → (∀ v, Safe (g v)) → Safe (f ≫= g).
Proof.
  intros Hf Hg r Hr. specialize (Hf r Hr). unfold mbind, RD_mbind.
  destruct (f r) as [r' [v|e|]]; destruct Hf as (Hp & Hb & Ho & Hw); simpl in *; [|done..].
  destruct (Hg v r' Hw) as (Hp' & Hb' & Ho' & Hw'). repeat split; [done|congruence|lia|done].
Qed.

#[export] Instance safe_take n : Safe (rd_take n).
Proof.
  intros r Hr. unfold rd_wf in Hr. destruct (decide (n ≤ remaining r)%nat) as [Hn|Hn].
  - rewrite rd_take_ok by done. unfold safe_after, rd_wf, remaining in *. simpl. repeat split; [done|lia|lia].
  - rewrite rd_take_err by lia. unfold safe_after, rd_wf. done.
Qed.

#[export] Instance safe_advance n : Safe (advance n).
Proof.
  intros r Hr. destruct (safe_take n r Hr) as (Hp & Hrest). rewrite advance_take.
  split; [|done]. simpl. by destruct (snd (rd_take n r)).
Qed.

#[export] Instance safe_extract {A} (f : RD A) : Safe f → Safe (extract f).
Proof.
  intros Hf r Hr. specialize (Hf r Hr). unfold extract.
  destruct (f r) as [r' [v|e|]]; [done| |done].
  destruct Hf as (_ & Hb & Ho & Hw). unfold safe_after, rd_wf, set_off in *. simpl in *.
  rewrite Hb. repeat split; [done|lia|done].
Qed.

#[export] Instance safe_u8 : Safe take_u8.
Proof.
  intros r Hr. unfold take_u8, mbind, RD_mbind.
  pose proof (safe_take 1 r Hr) as H. unfold rd_wf in Hr.
  destruct (decide (1 ≤ remaining r)%nat) as [Hn|Hn].
  - rewrite rd_take_ok in * by done. unfold rd_lift.
    destruct (take 1 (drop (rd_off r) (rd_b r))) as [|x l] eqn:Hl;
      [|by destruct H as [_ ?]; split].
    apply (f_equal length) in Hl. rewrite length_take, length_drop in Hl.
    unfold remaining in Hn. cbn [length] in Hl. lia.
  - by rewrite rd_take_err by lia.
Qed.
#[export] Instance safe_u16 : Safe take_u16.
Proof. unfold take_u16, take_array. apply _. Qed.
#[export] Instance safe_u32 : Safe take_u32.
Proof. unfold take_u32, take_array. apply _. Qed.
#[export] Instance safe_u64 : Safe take_u64.
Proof. unfold take_u64, take_array. apply _. Qed.
#[export] Instance safe_u128 : Safe take_u128.
Proof. unfold take_u128, take_array. apply _. Qed.

#[export] Instance safe_until term : Safe (take_until term).
Proof.
  intros r Hr. unfold take_until. destruct (position _ _) as [p|]; [|done].
  by apply (safe_bind (rd_take p) (λ result, _ ← advance 1; mret result) _ _).
Qed.

#[export] Instance safe_rest : Safe take_rest.
Proof.
  intros r Hr. unfold take_rest. pose proof (safe_take (remaining r) r Hr) as H.
  by rewrite rd_take_ok in *.
Qed.

#[export] Instance safe_extract_n_loop {A} (f : RD A) n : Safe f → Safe (extract_n_loop f n).
Proof. intros Hf. induction n; simpl; apply _. Qed.

#[export] Instance safe_extract_n {A} (f : RD A) n : Safe f → Safe (extract_n f n).
Proof. intros Hf. apply (safe_extract (extract_n_loop f n)). apply _. Qed.

#[export] Instance safe_nested {A} (len : RD Z) (f : RD A) :
  Safe len → Safe f → Safe (read_nested_generic len f).
Proof.
  intros Hlen Hf. unfold read_nested_generic.
  apply safe_bind; [apply _|intros n]. apply safe_bind; [apply _|intros slice].
  intros r Hr. destruct (Hf (from_slice slice)) as (Hp & _); [unfold rd_wf; simpl; lia|].
  destruct (f (from_slice slice)) as [inner [v|e|]]; [|done..].
  unfold should_be_exhausted. by destruct (remaining inner =? 0)%nat.
Qed.
