(* ===== verification/Codec.v ===== *)
(** * Codec: what the codecs of messages share

    Addresses, counted strings and lists as [tor-bytes] writes them, the proof that an encoder
    writes the same bytes to every writer, and what it means that an encoded body reads back. *)

From S2P Require Import Prelude Bytes.

(** ** Addresses (tor-bytes/src/impls.rs) *)

(** An address is the integer its octets spell in network order. *)
Inductive IpAddr : Type := V4 (a : Z) | V6 (a : Z).

#[export] Instance IpAddr_eq_dec : EqDecision IpAddr.
Proof. solve_decision. Defined.

Definition take_ipv4 : RD Z := take_u32.
Definition take_ipv6 : RD Z := take_u128.

(** ** Items up to the end of the reader

    [while r.remaining() > 0]: each round reads an item, which consumes at least one byte, so the
    number of remaining bytes is enough fuel ([safe_while_remaining]). *)

Fixpoint loop_remaining {A} (item : RD A) (fuel : nat) : RD (list A) :=
  n ← rd_remaining;
  if (n =? 0)%nat then mret []
  else match fuel with
       | O => rd_lift Panic
       | S fuel => x ← item; rest ← loop_remaining item fuel; mret (x :: rest)
       end.

Definition while_remaining {A} (item : RD A) : RD (list A) :=
  n ← rd_remaining; loop_remaining item n.

(** [for _ in 0..n] around one read. *)
Fixpoint repeat_read {A} (f : RD A) (n : nat) : RD (list A) :=
  match n with
  | O => mret []
  | S n => x ← f; rest ← repeat_read f n; mret (x :: rest)
  end.

(** ** Encoders of parts *)

Section encode_parts.
Context {W : Type} `{!Writer W}.

Definition write_ip (a : IpAddr) (w : W) : W :=
  match a with V4 a => write_all (to_be_bytes 4 a) w | V6 a => write_all (to_be_bytes 16 a) w end.

(** A length field of [k] bytes, checked with [try_into], and the bytes it counts. *)
Definition write_counted (k : nat) (x : list Z) (w : W) : res EncodeError W :=
  if Z.of_nat (length x) <? 256 ^ Z.of_nat k
  then Ok (write_all x (write_all (to_be_bytes k (Z.of_nat (length x))) w))
  else Err EncBadLengthValue.

Fixpoint write_list {A} (f : A → W → res EncodeError W) (l : list A) (w : W) :
    res EncodeError W :=
  match l with
  | [] => Ok w
  | x :: l => w ← f x w; write_list f l w
  end.

End encode_parts.

(** ** An encoder writes the same bytes to every writer

    [W1] and [W2] are related by [R], which writing preserves; then so does every encoder. *)

Class WriterSim {W1 W2 : Type} `{!Writer W1, !Writer W2} (R : W1 → W2 → Prop) : Prop :=
  sim_write : ∀ c w1 w2, R w1 w2 → R (write_all c w1) (write_all c w2).

Section simulation.
Context {W1 W2 : Type} `{!Writer W1, !Writer W2} (R : W1 → W2 → Prop) `{!WriterSim R}.

Definition sim (x : res EncodeError W1) (y : res EncodeError W2) : Prop :=
  match x, y with
  | Ok w1, Ok w2 => R w1 w2
  | Err e1, Err e2 => e1 = e2
  | Panic, Panic => True
  | _, _ => False
  end.

Lemma sim_ok w1 w2 : R w1 w2 → sim (Ok w1) (Ok w2).
Proof. done. Qed.

Lemma sim_err e : sim (Err e) (Err e).
Proof. done. Qed.

Lemma sim_bind x y f g :
  sim x y → (∀ w1 w2, R w1 w2 → sim (f w1) (g w2)) → sim (x ≫= f) (y ≫= g).
Proof. destruct x, y; simpl; try done. intros H Hfg. by apply Hfg. Qed.

Lemma sim_list {A} (f : A → W1 → _) (g : A → W2 → _) l w1 w2 :
  (∀ x w1 w2, R w1 w2 → sim (f x w1) (g x w2)) →
  R w1 w2 → sim (write_list f l w1) (write_list g l w2).
Proof.
  intros Hfg. revert w1 w2. induction l as [|x l IH]; intros; simpl; [done|].
  apply sim_bind; auto.
Qed.
End simulation.

Ltac sim_solve :=
  repeat first
    [ assumption | reflexivity | apply sim_write | progress apply sim_ok | apply sim_err | case_match ].

Lemma sim_counted {W1 W2} `{!Writer W1, !Writer W2} (R : W1 → W2 → Prop) `{!WriterSim R} k x w1 w2 :
  R w1 w2 → sim R (write_counted k x w1) (write_counted k x w2).
Proof. intros. unfold write_counted. sim_solve. Qed.

Lemma sim_nested {W1 W2} `{!Writer W1, !Writer W2} (R : W1 → W2 → Prop) `{!WriterSim R} k x w1 w2 :
  R w1 w2 → sim R (nested_finish k x w1) (nested_finish k x w2).
Proof. intros. unfold nested_finish. sim_solve. Qed.

(** ** Bodies read back

    [reads_all f bs v]: when [bs] is all that remains, [f] consumes it and returns [v].  A relay
    message body is always decoded from a reader that was truncated to the body. *)

Definition reads_all {A} (f : RD A) (bs : list Z) (v : A) : Prop :=
  ∀ pre c,
    f (mkReader (pre ++ bs) (length pre) c) =
      (mkReader (pre ++ bs) (length pre + length bs) c, Ok v).

Lemma reads_all_of {A} (f : RD A) bs v : reads f bs v → reads_all f bs v.
Proof. intros Hf pre c. specialize (Hf pre [] c). by rewrite app_nil_r in Hf. Qed.

Lemma reads_all_bind {A B} (f : RD A) (g : A → RD B) bs1 bs2 v w :
  reads f bs1 v → reads_all (g v) bs2 w → reads_all (f ≫= g) (bs1 ++ bs2) w.
Proof.
  intros Hf Hg pre c. unfold mbind, RD_mbind. rewrite Hf.
  specialize (Hg (pre ++ bs1) c). rewrite <-(assoc_L app), length_app in Hg.
  by rewrite Hg, length_app, Nat.add_assoc.
Qed.

Lemma reads_all_bind_l {A B} (f : RD A) (g : A → RD B) bs v w :
  reads_all f bs v → reads (g v) [] w → reads_all (f ≫= g) bs w.
Proof.
  intros Hf Hg pre c. unfold mbind, RD_mbind. rewrite Hf.
  specialize (Hg (pre ++ bs) [] c). rewrite !app_nil_r, length_app in Hg. rewrite Hg. simpl.
  by rewrite Nat.add_0_r.
Qed.

Lemma reads_all_remaining {B} (g : nat → RD B) bs w :
  reads_all (g (length bs)) bs w → reads_all (rd_remaining ≫= g) bs w.
Proof.
  intros Hg pre c. unfold mbind, RD_mbind, rd_remaining, remaining. simpl.
  replace (length (pre ++ bs) - length pre)%nat with (length bs) by (rewrite length_app; lia).
  apply Hg.
Qed.

Lemma reads_take_ipv4 a : in_uint u32_max a → reads (extract take_ipv4) (to_be_bytes 4 a) a.
Proof. intros. by apply reads_extract, reads_u32. Qed.
Lemma reads_take_ipv6 a : in_uint u128_max a → reads (extract take_ipv6) (to_be_bytes 16 a) a.
Proof. intros. by apply reads_extract, reads_u128. Qed.

(** A counted byte string reads back. *)
Lemma reads_counted2 {B} x (g : list Z → RD B) w :
  Z.of_nat (length x) < 65536 → reads (g x) [] w →
  reads (hlen ← take_u16; b ← rd_take (Z.to_nat hlen); g b)
    (to_be_bytes 2 (Z.of_nat (length x)) ++ x) w.
Proof.
  intros Hx Hg. eapply reads_bind; [apply reads_u16; unfold in_uint, u16_max; lia|].
  eapply reads_bind_nil; [|done]. apply reads_take'. lia.
Qed.

#[export] Hint Resolve reads_take_ipv4 reads_take_ipv6 : arti.

Definition ip_wf (a : IpAddr) : Prop :=
  match a with V4 a => in_uint u32_max a | V6 a => in_uint u128_max a end.

Lemma write_counted_vec k x (w bs : list Z) :
  write_counted k x w = Ok bs →
  bs = w ++ to_be_bytes k (Z.of_nat (length x)) ++ x ∧ Z.of_nat (length x) < 256 ^ Z.of_nat k.
Proof.
  unfold write_counted, write_all, vec_writer. case_match; [|done]. intros [= <-]. zify_bool.
  by rewrite (assoc_L app).
Qed.

Lemma to_be_bytes_1 x : 0 ≤ x < 256 → to_be_bytes 1 x = [x].
Proof.
  intros. change (to_be_bytes 1 x) with [(x / 256 ^ 0) mod 256].
  rewrite Z.pow_0_r, Z.div_1_r, Z.mod_small by done. done.
Qed.

Lemma reads_rest bs : reads_all take_rest bs bs.
Proof.
  intros pre c. unfold take_rest, remaining. simpl.
  rewrite length_app. replace (length pre + length bs - length pre)%nat with (length bs) by lia.
  pose proof (reads_take bs pre [] c) as Ht. rewrite app_nil_r in Ht. by rewrite Ht.
Qed.

Lemma reads_nested_all {A} (k : nat) (len : RD Z) (f : RD A) bs v :
  reads len (to_be_bytes k (Z.of_nat (length bs))) (Z.of_nat (length bs)) →
  reads_all f bs v →
  reads (read_nested_generic len f) (to_be_bytes k (Z.of_nat (length bs)) ++ bs) v.
Proof.
  intros Hlen Hf. unfold read_nested_generic.
  eapply reads_bind; [by apply reads_extract|].
  eapply reads_bind_nil; [apply reads_take'; by rewrite Nat2Z.id|].
  intros pre post c. specialize (Hf [] SupposedlyComplete). simpl in Hf.
  unfold from_slice. rewrite Hf. unfold should_be_exhausted, remaining. simpl.
  rewrite Nat.sub_diag. simpl. by rewrite Nat.add_0_r.
Qed.

#[export] Instance safe_if {A} (c : bool) (f g : RD A) : Safe f → Safe g → Safe (if c then f else g).
Proof. by destruct c. Qed.

(** ** Loops over the rest of a reader *)

Class Progress {A} (f : RD A) : Prop :=
  progress_off r r' v : rd_wf r → f r = (r', Ok v) → (rd_off r < rd_off r')%nat.

#[export] Instance progress_take_u8 : Progress take_u8.
Proof.
  intros r r' v Hr. unfold take_u8, mbind, RD_mbind.
  destruct (decide (1 ≤ remaining r)%nat) as [Hn|Hn].
  - rewrite rd_take_ok by done. unfold rd_lift. intros [= <- _]. simpl. lia.
  - by rewrite rd_take_err by lia.
Qed.

#[export] Instance progress_extract {A} (f : RD A) : Progress f → Progress (extract f).
Proof.
  intros Hf r r' v Hr. unfold extract. destruct (f r) as [? [?|?|]] eqn:E; intros [=]; subst.
  by eapply Hf.
Qed.

#[export] Instance progress_bind {A B} (f : RD A) (g : A → RD B) :
  Progress f → Safe f → (∀ v, Safe (g v)) → Progress (f ≫= g).
Proof.
  intros Hf Hs Hg r r' v Hr. unfold mbind, RD_mbind.
  destruct (f r) as [r1 [a|e|]] eqn:E; [|done..]. intros Heq.
  pose proof (Hs r Hr) as (_ & _ & _ & Hw). rewrite E in Hw.
  pose proof (Hg a r1 Hw) as (_ & _ & Ho & _). rewrite Heq in Ho. simpl in Ho.
  apply Hf in E; [lia|done].
Qed.

Lemma safe_loop {A} (item : RD A) `{!Safe item, !Progress item} fuel r :
  rd_wf r → (remaining r ≤ fuel)%nat → safe_after r (loop_remaining item fuel r).
Proof.
  revert r. induction fuel as [|fuel IH]; intros r Hr Hf.
  - unfold loop_remaining, mbind, RD_mbind, rd_remaining.
    rewrite (proj2 (Nat.eqb_eq _ _)) by lia. by apply safe_ret.
  - cbn [loop_remaining]. unfold mbind at 1, RD_mbind at 1, rd_remaining.
    destruct (Nat.eqb_spec (remaining r) 0) as [_|Hne]; [by apply safe_ret|].
    unfold mbind, RD_mbind. pose proof (safe (f:=item) r Hr) as H1.
    destruct (item r) as [r1 [v|e|]] eqn:E; [|by destruct H1; split..].
    destruct H1 as (_ & Hb1 & Ho1 & Hw1). simpl in *. apply progress_off in E; [|done].
    destruct (IH r1 Hw1) as (Hp3 & Hb3 & Ho3 & Hw3).
    { unfold remaining in *. rewrite Hb1 in *. lia. }
    destruct (loop_remaining item fuel r1) as [r3 [l|e|]]; unfold safe_after; simpl in *;
      rewrite Hb3, Hb1; repeat split; try done; lia.
Qed.

#[export] Instance safe_while_remaining {A} (item : RD A) :
  Safe item → Progress item → Safe (while_remaining item).
Proof. intros Hs Hp r Hr. by apply safe_loop. Qed.

(** Items that read back one by one read back as a list. *)
Lemma reads_while {A} (item : RD A) (write : A → list Z → res EncodeError (list Z)) l (w bs : list Z) :
  Forall (λ x, ∀ w bs, write x w = Ok bs → ∃ c, bs = w ++ c ∧ c ≠ [] ∧ reads item c x) l →
  write_list write l w = Ok bs →
  ∃ c, bs = w ++ c ∧ reads_all (while_remaining item) c l.
Proof.
  intros Hl Hw.
  cut (∃ c, bs = w ++ c ∧ ∀ fuel, (length c ≤ fuel)%nat → reads_all (loop_remaining item fuel) c l).
  { intros (c & Hc & H). exists c. split; [done|]. by apply reads_all_remaining, H. }
  revert w Hw. induction Hl as [|x l Hx Hl IH]; intros w; cbn [write_list].
  - intros [= <-]. exists []. rewrite app_nil_r. split; [done|]. intros fuel _.
    destruct fuel; apply reads_all_remaining; simpl; apply reads_all_of, reads_ret.
  - intros (w' & (c1 & -> & Hne & H1)%Hx & (c2 & -> & H2)%IH)%bind_ok.
    exists (c1 ++ c2). split; [by rewrite <-!(assoc_L app)|]. rewrite length_app. intros fuel Hf.
    assert (length c1 ≠ 0%nat) by by destruct c1.
    destruct fuel as [|fuel]; [lia|]. apply reads_all_remaining.
    rewrite length_app, (proj2 (Nat.eqb_neq _ _)) by lia.
    eapply reads_all_bind; [done|]. eapply reads_all_bind_l; [apply H2; lia|apply reads_ret].
Qed.

(** A list of items whose number is known reads back. *)
Lemma reads_repeat {A B} (item : RD B) (write : A → list Z → res EncodeError (list Z)) (g : A → B) l w bs :
  Forall (λ x, ∀ w bs, write x w = Ok bs → ∃ c, bs = w ++ c ∧ reads item c (g x)) l →
  write_list write l w = Ok bs →
  ∃ c, bs = w ++ c ∧ reads (repeat_read item (length l)) c (g <$> l).
Proof.
  intros Hl. revert w. induction Hl as [|x l Hx Hl IH]; intros w; cbn [write_list].
  - intros [= <-]. exists []. rewrite app_nil_r. split; [done|apply reads_ret].
  - intros (w' & (c1 & -> & H1)%Hx & (c2 & -> & H2)%IH)%bind_ok.
    exists (c1 ++ c2). rewrite (assoc_L app). split; [done|].
    eapply reads_bind; [done|]. eapply reads_bind_nil; [done|]. apply reads_ret.
Qed.

#[export] Instance safe_repeat {A} (f : RD A) n : Safe f → Safe (repeat_read f n).
Proof. intros Hf. induction n; simpl; apply _. Qed.

#[export] Instance progress_take_u16 : Progress take_u16.
Proof.
  intros r r' v Hr. unfold take_u16, mbind, RD_mbind, extract, take_array.
  destruct (decide (2 ≤ remaining r)%nat) as [Hn|Hn].
  - rewrite rd_take_ok by done. intros [= <- _]. simpl. lia.
  - by rewrite rd_take_err by lia.
Qed.

(** [yields f bs v]: at the start of the remaining bytes [bs], [f] returns [v]; what it leaves
    is the padding of a cell. *)
Definition yields {A} (f : RD A) (bs : list Z) (v : A) : Prop :=
  ∀ pre c, snd (f (mkReader (pre ++ bs) (length pre) c)) = Ok v.

Lemma yields_reads {A} (f : RD A) bs pad v : reads f bs v → yields f (bs ++ pad) v.
Proof. intros Hf pre c. by rewrite Hf. Qed.
Lemma yields_all {A} (f : RD A) bs v : reads_all f bs v → yields f bs v.
Proof. intros Hf pre c. by rewrite Hf. Qed.
Lemma yields_extract {A} (f : RD A) bs v : yields f bs v → yields (extract f) bs v.
Proof.
  intros Hf pre c. unfold extract. specialize (Hf pre c).
  destruct (f _) as [r [a|e|]]; simpl in *; congruence.
Qed.
Lemma yields_map {A B} (f : RD A) (g : A → B) bs v :
  yields f bs v → yields (x ← f; mret (g x)) bs (g v).
Proof.
  intros Hf pre c. specialize (Hf pre c). unfold mbind, RD_mbind.
  destruct (f _) as [r [a|e|]]; simpl in *; congruence.
Qed.
