(* ===== verification/Protover.v ===== *)
(** * Protover: subprotocol versions

    Crate [tor-protover]: sets of subprotocol versions, their textual form in consensus
    documents, and the set operations.  A bit vector is a [u64]; a set is interned in the code,
    which does not change its value. *)

From stdpp Require Import sorting.
From S2P Require Import Prelude Text.

(** ** Protocols *)

Definition proto_names : list (list Z) :=
  map str ["Link"; "LinkAuth"; "Relay"; "DirCache"; "HSDir"; "HSIntro"; "HSRend"; "Desc";
           "Microdesc"; "Cons"; "Padding"; "FlowCtrl"; "Conflux"].

Definition N_RECOGNIZED : nat := 13.
Definition MAX_VER : Z := 63.

(** [ProtoKind::from_name] and [ProtoKind::to_str]. *)
Definition ProtoKind_from_name (name : list Z) : option nat := fst <$> list_find (name =.) proto_names.
Definition ProtoKind_to_str (k : nat) : option (list Z) := proto_names !! k.

Record NamedSubver : Type := mkNamed { ns_kind : nat; ns_version : Z }.

Definition NamedSubver_new {E} (kind : nat) (version : Z) : res E NamedSubver :=
  _ ← debug_assert (kind <? N_RECOGNIZED)%nat;
  _ ← debug_assert (version <=? MAX_VER);
  Ok (mkNamed kind version).

Inductive Protocol : Type := Proto (k : nat) | Unrecognized (s : list Z).

#[export] Instance Protocol_eq_dec : EqDecision Protocol.
Proof. solve_decision. Defined.

Definition is_unrecognized (s : list Z) (p : Protocol) : bool :=
  match p with Unrecognized s2 => bool_decide (s2 = s) | _ => false end.

Definition Protocol_to_str (p : Protocol) : list Z :=
  match p with
  | Proto k => default (str "<bug>") (ProtoKind_to_str k)
  | Unrecognized s => s
  end.

Record SubprotocolEntry : Type := mkEntry { proto : Protocol; supported : Z }.

Record Protocols : Type := mkProtocols {
  recognized : list Z; unrecognized : list SubprotocolEntry }.

Definition Protocols_new : Protocols := mkProtocols (replicate N_RECOGNIZED 0) [].

(** ** 64-bit vectors *)

Definition not64 (x : Z) : Z := Z.lxor x u64_max.
Definition shl64 (x n : Z) : Z := Z.land (Z.shiftl x n) u64_max.
Definition bit (ver : Z) : Z := Z.shiftl 1 ver.

Definition bitrange {E} (lo hi : Z) : res E Z :=
  _ ← debug_assert ((lo <=? hi) && (lo <=? 63) && (hi <=? 63));
  let mask := u64_max in
  let mask := shl64 mask (63 - hi) in
  let mask := Z.shiftr mask (63 - hi + lo) in
  Ok (shl64 mask lo).

(** [u64::trailing_zeros] and [u64::trailing_ones]. *)
Fixpoint pos_zeros (p : positive) : Z :=
  match p with xO p => 1 + pos_zeros p | _ => 0 end.
Fixpoint pos_ones (p : positive) : Z :=
  match p with xI p => 1 + pos_ones p | xH => 1 | xO _ => 0 end.
Definition trailing_zeros (m : Z) : Z := match m with Zpos p => pos_zeros p | _ => 64 end.
Definition trailing_ones (m : Z) : Z := match m with Zpos p => pos_ones p | _ => 0 end.

(** ** Queries *)

Definition supports_recognized_ver (p : Protocols) (proto : nat) (ver : Z) : bool :=
  if MAX_VER <? ver then false
  else match recognized p !! proto with
       | None => false
       | Some mask => negb (Z.land mask (bit ver) =? 0)
       end.

Definition supports_unrecognized_ver (p : Protocols) (name : list Z) (ver : Z) : bool :=
  if MAX_VER <? ver then false
  else match list_find (λ e, is_unrecognized name (proto e)) (unrecognized p) with
       | Some (_, e) => negb (Z.land (supported e) (bit ver) =? 0)
       | None => false
       end.

Definition p_is_empty (p : Protocols) : bool :=
  forallb (λ v, v =? 0) (recognized p) && forallb (λ e, supported e =? 0) (unrecognized p).

Definition supports_known_subver (p : Protocols) (proto : nat) (ver : Z) : bool :=
  supports_recognized_ver p proto ver.

Definition supports_subver (p : Protocols) (name : list Z) (ver : Z) : bool :=
  match ProtoKind_from_name name with
  | Some k => supports_recognized_ver p k ver
  | None => supports_unrecognized_ver p name ver
  end.

Definition supports_named_subver (p : Protocols) (s : NamedSubver) : bool :=
  supports_known_subver p (ns_kind s) (ns_version s).

(** ** Set operations *)

(** The derived orders: [Proto] before [Unrecognized], then by field. *)
Definition entry_leb (a b : SubprotocolEntry) : bool :=
  match proto a, proto b with
  | Proto i, Proto j => (i <? j)%nat || ((i =? j)%nat && (supported a <=? supported b))
  | Proto _, Unrecognized _ => true
  | Unrecognized _, Proto _ => false
  | Unrecognized s, Unrecognized t =>
      if bool_decide (s = t) then supported a <=? supported b else str_leb s t
  end.

Definition entry_le (a b : SubprotocolEntry) : Prop := entry_leb a b = true.
#[export] Instance entry_le_dec a b : Decision (entry_le a b).
Proof. unfold entry_le. apply _. Defined.

Definition sort_entries (l : list SubprotocolEntry) : list SubprotocolEntry := merge_sort entry_le l.

Definition find_proto (pr : Protocol) (l : list SubprotocolEntry) : option SubprotocolEntry :=
  snd <$> list_find (λ e, proto e = pr) l.

Definition p_difference (a b : Protocols) : Protocols :=
  mkProtocols (zip_with (λ x y, Z.land x (not64 y)) (recognized a) (recognized b))
    (omap (λ ent,
       let s := match find_proto (proto ent) (unrecognized b) with
                | Some other => Z.land (supported ent) (not64 (supported other))
                | None => supported ent
                end in
       if s =? 0 then None else Some (mkEntry (proto ent) s)) (unrecognized a)).

(** One round of the loop of [union]: the entry is merged into the first one with its name. *)
Fixpoint union_entry (ent : SubprotocolEntry) (l : list SubprotocolEntry) : list SubprotocolEntry :=
  match l with
  | [] => [ent]
  | e :: l =>
      if decide (proto e = proto ent)
      then mkEntry (proto e) (Z.lor (supported e) (supported ent)) :: l
      else e :: union_entry ent l
  end.

Definition p_union (a b : Protocols) : Protocols :=
  mkProtocols (zip_with Z.lor (recognized a) (recognized b))
    (sort_entries (foldl (λ l ent, union_entry ent l) (unrecognized a) (unrecognized b))).

Definition p_intersection (a b : Protocols) : Protocols :=
  mkProtocols (zip_with Z.land (recognized a) (recognized b))
    (sort_entries
       (omap (λ ent,
          match find_proto (proto ent) (unrecognized b) with
          | Some other =>
              let s := Z.land (supported ent) (supported other) in
              if s =? 0 then None else Some (mkEntry (proto ent) s)
          | None => None
          end) (unrecognized a))).

(** [Protocols::from_iter] over named subprotocol versions. *)
Fixpoint from_named {E} (l : list NamedSubver) (r : list Z) : res E Protocols :=
  match l with
  | [] => Ok (mkProtocols r [])
  | s :: l =>
      _ ← debug_assert (ns_kind s <? N_RECOGNIZED)%nat;
      _ ← debug_assert (ns_version s <=? MAX_VER);
      from_named l (alter (λ m, Z.lor m (bit (ns_version s))) (ns_kind s) r)
  end.

(** ** Parsing *)

Inductive ParseError : Type := OutOfRange | Duplicate | Malformed.

Definition is_good_number (n : list Z) : bool :=
  forallb is_ascii_digit n && negb (match n with d :: _ => d =? 48 | [] => false end).

(** One range of the list of versions, merged into [supported]. *)
Definition parse_range (ent : list Z) (supported : Z) : res ParseError Z :=
  let '(lo_s, hi_s) := match split_once 45 ent with Some (a, b) => (a, b) | None => (ent, ent) end in
  if negb (is_good_number lo_s) then Err Malformed
  else if negb (is_good_number hi_s) then Err Malformed
  else
    lo ← ok_or (parse_uint u64_max lo_s) Malformed;
    hi ← ok_or (parse_uint u64_max hi_s) Malformed;
    if (MAX_VER <? lo) || (MAX_VER <? hi) then Err OutOfRange
    else if hi <? lo then Err Malformed
    else
      mask ← bitrange lo hi;
      if negb (Z.land supported mask =? 0) then Err Duplicate
      else Ok (Z.lor supported mask).

Fixpoint parse_versions (ents : list (list Z)) (supported : Z) : res ParseError Z :=
  match ents with
  | [] => Ok supported
  | ent :: ents => supported ← parse_range ent supported; parse_versions ents supported
  end.

Definition protocol_of_name (name : list Z) : Protocol :=
  match ProtoKind_from_name name with Some k => Proto k | None => Unrecognized name end.

Definition entry_from_str (s : list Z) : res ParseError SubprotocolEntry :=
  '(name, versions) ← ok_or (split_once 61 s) Malformed;
  let proto := protocol_of_name name in
  match versions with
  | [] => Ok (mkEntry proto 0)
  | _ => supported ← parse_versions (split_on 44 versions) 0; Ok (mkEntry proto supported)
  end.

Definition p_add (ent : SubprotocolEntry) (foundmask : Z) (p : Protocols) :
    res ParseError (Protocols * Z) :=
  match proto ent with
  | Proto k =>
      _ ← debug_assert (k <? N_RECOGNIZED)%nat;
      let b := bit (Z.of_nat k) in
      if negb (Z.land foundmask b =? 0) then Err Duplicate
      else Ok (mkProtocols (<[k := supported ent]> (recognized p)) (unrecognized p),
               Z.lor foundmask b)
  | Unrecognized s =>
      if existsb (λ e, is_unrecognized s (proto e)) (unrecognized p) then Err Duplicate
      else if supported ent =? 0 then Ok (p, foundmask)
      else Ok (mkProtocols (recognized p) (unrecognized p ++ [ent]), foundmask)
  end.

Fixpoint parse_entries (ents : list (list Z)) (foundmask : Z) (p : Protocols) :
    res ParseError Protocols :=
  match ents with
  | [] => Ok (mkProtocols (recognized p) (sort_entries (unrecognized p)))
  | [] :: ents => parse_entries ents foundmask p
  | ent :: ents =>
      s ← entry_from_str ent;
      '(p, foundmask) ← p_add s foundmask p;
      parse_entries ents foundmask p
  end.

Definition Protocols_from_str (s : list Z) : res ParseError Protocols :=
  parse_entries (split_on 32 s) 0 Protocols_new.

(** ** Printing *)

(** The runs of ones in [mask], shifted by [shift]; each round takes at least one. *)
Fixpoint mask_runs (fuel : nat) (mask shift : Z) : list (Z * Z) :=
  match fuel with
  | O => []
  | S fuel =>
      if mask =? 0 then []
      else
        let zeros := trailing_zeros mask in
        let mask := Z.shiftr mask zeros in
        let shift := shift + zeros in
        let ones := trailing_ones mask in
        (shift, shift + ones - 1) ::
        (if ones =? 64 then [] else mask_runs fuel (Z.shiftr mask ones) (shift + ones))
  end.

Definition range_to_string (r : Z * Z) : list Z :=
  if r.1 =? r.2 then dec_digits 2 r.1 else dec_digits 2 r.1 ++ 45 :: dec_digits 2 r.2.

Definition dumpmask (mask : Z) : list Z := join [44] (map range_to_string (mask_runs 64 mask 0)).

Definition entry_to_string (e : SubprotocolEntry) : list Z :=
  Protocol_to_str (proto e) ++ 61 :: dumpmask (supported e).

Definition str_le (a b : list Z) : Prop := str_leb a b = true.
#[export] Instance str_le_dec a b : Decision (str_le a b).
Proof. unfold str_le. apply _. Defined.

(** The entries that are printed, recognized ones first. *)
Definition display_entries (p : Protocols) : list SubprotocolEntry :=
  filter (λ e, supported e ≠ 0) (imap (λ i m, mkEntry (Proto i) m) (recognized p) ++ unrecognized p).

Definition Protocols_to_string (p : Protocols) : list Z :=
  join [32] (merge_sort str_le (map entry_to_string (display_entries p))).

(** ** Bit vectors *)

Definition mask_ok (m : Z) : Prop := 0 ≤ m ≤ u64_max ∧ Z.testbit m 0 = false.

Lemma u64_pow m : 0 ≤ m ≤ u64_max ↔ 0 ≤ m < 2 ^ 64.
Proof. unfold u64_max. lia. Qed.

(** All ranges at once. *)
Lemma bitrange_ok {E} lo hi : 0 ≤ lo ≤ hi → hi ≤ 63 → bitrange (E:=E) lo hi = Ok (2 ^ (hi + 1) - 2 ^ lo).
Proof.
  intros Hlo Hhi.
  assert (∀ lo hi, (lo ≤ hi < 64)%nat →
    bitrange (E:=E) (Z.of_nat lo) (Z.of_nat hi) = Ok (2 ^ (Z.of_nat hi + 1) - 2 ^ Z.of_nat lo)) as H.
  { clear. intros lo hi [Hlo Hhi].
    assert (forallb (λ hi, forallb (λ lo,
      match bitrange (E:=unit) (Z.of_nat lo) (Z.of_nat hi) with
      | Ok m => m =? 2 ^ (Z.of_nat hi + 1) - 2 ^ Z.of_nat lo | _ => false end) (seq 0 (S hi))) (seq 0 64)
      = true) as Hall by (vm_compute; reflexivity).
    rewrite forallb_forall in Hall. specialize (Hall hi). rewrite forallb_forall in Hall.
    specialize (Hall ltac:(apply in_seq; lia) lo ltac:(apply in_seq; lia)).
    unfold bitrange in *.
    rewrite !(proj2 (Z.leb_le _ _)) in * by lia. simpl in *. by apply Z.eqb_eq in Hall as <-. }
  specialize (H (Z.to_nat lo) (Z.to_nat hi) ltac:(lia)). by rewrite !Z2Nat.id in H by lia.
Qed.

Lemma land_low a b n : 0 ≤ n → 0 ≤ a < 2 ^ n → Z.land a (b * 2 ^ n) = 0.
Proof.
  intros Hn Ha. apply Z.bits_inj'. intros i Hi. rewrite Z.land_spec, Z.bits_0, Z.mul_pow2_bits by done.
  destruct (Z.lt_ge_cases i n).
  - rewrite (Z.testbit_neg_r b) by lia. apply andb_false_r.
  - destruct (Z.eq_dec a 0) as [->|]; [by rewrite Z.bits_0|].
    rewrite (Z.bits_above_log2 a); [done|lia|]. apply Z.log2_lt_pow2; [lia|].
    eapply Z.lt_le_trans; [apply Ha|]. apply Z.pow_le_mono_r; lia.
Qed.

Lemma lor_low a b n : 0 ≤ n → 0 ≤ a < 2 ^ n → Z.lor a (b * 2 ^ n) = a + b * 2 ^ n.
Proof. intros Hn Ha. pose proof (Z.add_lor_land a (b * 2 ^ n)) as H. rewrite land_low in H by done. lia. Qed.

Lemma pos_zeros_spec p : 0 ≤ pos_zeros p ∧ ∃ q, Zpos p = (2 * q + 1) * 2 ^ pos_zeros p ∧ 0 ≤ q.
Proof.
  induction p as [p _|p IH|]; simpl pos_zeros.
  - split; [lia|]. exists (Zpos p). lia.
  - destruct IH as (Hz & q & Hq & Hq0). split; [lia|]. exists q. split; [|done].
    rewrite Z.pow_add_r by lia. rewrite (Pos2Z.inj_xO p), Hq. lia.
  - split; [lia|]. exists 0. lia.
Qed.

Lemma pos_ones_spec p : 0 ≤ pos_ones p ∧
  ∃ q, Zpos p = q * 2 ^ (pos_ones p + 1) + (2 ^ pos_ones p - 1) ∧ 0 ≤ q.
Proof.
  induction p as [p IH|p _|]; simpl pos_ones.
  - destruct IH as (Hz & q & Hq & Hq0). split; [lia|]. exists q. split; [|done].
    rewrite (Pos2Z.inj_xI p), Hq. rewrite !Z.pow_add_r by lia. lia.
  - split; [lia|]. exists (Zpos p). lia.
  - split; [lia|]. exists 0. lia.
Qed.

(** What one round of [mask_runs] finds. *)
Lemma mask_run m :
  0 < m → let z := trailing_zeros m in let m' := Z.shiftr m z in let o := trailing_ones m' in
  0 ≤ z ∧ 0 < o ∧ 0 ≤ Z.shiftr m' o ∧ m = (2 ^ o - 1) * 2 ^ z + Z.shiftr m' o * 2 ^ (z + o).
Proof.
  intros Hm z m' o. destruct m as [|p|p]; [lia| |lia]. subst z. simpl trailing_zeros in *.
  destruct (pos_zeros_spec p) as (Hz & q & Hq & Hq0). subst m'. set (z := pos_zeros p) in *.
  assert (Z.shiftr (Zpos p) z = 2 * q + 1) as Hs.
  { rewrite Z.shiftr_div_pow2, Hq by done. apply Z.div_mul. lia. }
  rewrite Hs in *. subst o. destruct (2 * q + 1) as [|p'|p'] eqn:Hp'; [lia| |lia].
  simpl trailing_ones. destruct (pos_ones_spec p') as (Ho & r & Hr & Hr0).
  assert (0 < pos_ones p') as Ho' by (destruct p'; simpl; [pose proof (pos_ones_spec p'); lia|lia|lia]).
  set (o := pos_ones p') in *.
  assert (Z.shiftr (Zpos p') o = 2 * r) as Hs'.
  { rewrite Z.shiftr_div_pow2, Hr by lia. rewrite Z.pow_add_r by lia.
    replace (r * (2 ^ o * 2 ^ 1) + (2 ^ o - 1)) with (2 * r * 2 ^ o + (2 ^ o - 1)) by lia.
    rewrite Z.div_add_l by lia. rewrite (Z.div_small (2 ^ o - 1)) by lia. lia. }
  rewrite Hs. change (trailing_ones (Zpos p')) with o. rewrite Hs'. split_and!; [done..|lia|]. rewrite Hq, Hr. rewrite !Z.pow_add_r by lia. lia.
Qed.

(** ** Printed masks read back *)

Lemma number_spec x : 1 ≤ x ≤ 63 →
  is_good_number (dec_digits 2 x) = true ∧ parse_uint u64_max (dec_digits 2 x) = Some x ∧
  Forall is_digit (dec_digits 2 x).
Proof.
  intros Hx. destruct (dec_digits_spec u64_max 2 x) as (Hd & (d & l & Hl & Hne) & _); [lia|simpl; lia|].
  split_and!; [|apply parse_uint_dec; [lia|simpl; lia|unfold u64_max; lia]|done].
  unfold is_good_number. rewrite andb_true_iff. split.
  - apply forallb_forall. intros y Hy%list_elem_of_In. rewrite Forall_forall in Hd.
    specialize (Hd y Hy). unfold is_digit in Hd. unfold is_ascii_digit.
    by rewrite !(proj2 (Z.leb_le _ _)) by lia.
  - rewrite Hl. rewrite (proj2 (Z.eqb_neq _ _)); [done|]. apply Hne. lia.
Qed.

Lemma digits_not_elem l c : Forall is_digit l → ¬ is_digit c → c ∉ l.
Proof. rewrite Forall_forall. intros Hl Hc Hin. by apply Hc, Hl. Qed.

Lemma range_to_string_chars lo hi c : 1 ≤ lo ≤ hi → hi ≤ 63 →
  c ∈ range_to_string (lo, hi) → is_digit c ∨ c = 45.
Proof.
  intros Hlo Hhi. destruct (number_spec lo ltac:(lia)) as (_ & _ & H1).
  destruct (number_spec hi ltac:(lia)) as (_ & _ & H2). rewrite Forall_forall in H1, H2.
  unfold range_to_string. simpl. destruct (lo =? hi); [by auto|].
  rewrite elem_of_app, elem_of_cons. intros [?|[?|?]]; auto.
Qed.

Lemma parse_run lo hi sup : 1 ≤ lo ≤ hi → hi ≤ 63 → 0 ≤ sup < 2 ^ lo →
  parse_range (range_to_string (lo, hi)) sup = Ok (sup + (2 ^ (hi + 1) - 2 ^ lo)).
Proof.
  intros Hlo Hhi Hsup. destruct (number_spec lo ltac:(lia)) as (Hg1 & Hp1 & Hd1).
  destruct (number_spec hi ltac:(lia)) as (Hg2 & Hp2 & Hd2).
  assert (45 ∉ dec_digits 2 lo) as Hdash by (apply digits_not_elem; [done|unfold is_digit; lia]).
  assert (2 ^ (hi + 1) - 2 ^ lo = (2 ^ (hi + 1 - lo) - 1) * 2 ^ lo) as Hmask.
  { replace (hi + 1) with (hi + 1 - lo + lo) at 1 by lia. rewrite Z.pow_add_r by lia. lia. }
  assert (match split_once 45 (range_to_string (lo, hi)) with
          | Some (a, b) => (a, b) | None => (range_to_string (lo, hi), range_to_string (lo, hi)) end
          = (dec_digits 2 lo, dec_digits 2 hi)) as Hsplit.
  { unfold range_to_string. simpl. destruct (Z.eqb_spec lo hi) as [->|].
    - by rewrite split_once_none.
    - by rewrite split_once_app. }
  unfold parse_range. rewrite Hsplit, Hg1, Hg2, Hp1, Hp2. simpl.
  rewrite !(proj2 (Z.ltb_ge _ _)) by (unfold MAX_VER; lia). simpl.
  rewrite bitrange_ok by lia. simpl. rewrite Hmask, land_low by lia. simpl. by rewrite lor_low by lia.
Qed.

(** Where a run is, in a mask of versions that do not include zero. *)
Lemma mask_run_bounds m shift :
  0 < m → 0 ≤ shift → m * 2 ^ shift < 2 ^ 64 → 0 < shift ∨ Z.testbit m 0 = false →
  let z := trailing_zeros m in let m' := Z.shiftr m z in let o := trailing_ones m' in
  1 ≤ shift + z ∧ shift + z + o ≤ 64 ∧ Z.shiftr m' o * 2 ^ (shift + z + o) < 2 ^ 64 ∧
  m * 2 ^ shift = (2 ^ (shift + z + o) - 2 ^ (shift + z)) + Z.shiftr m' o * 2 ^ (shift + z + o).
Proof.
  intros Hm Hs Hlt Heven z m1 o. destruct (mask_run m Hm) as (Hz & Ho & Hm' & Heq).
  fold z m1 o in Heq, Hz, Ho, Hm'. set (m' := Z.shiftr m1 o) in *.
  assert (1 ≤ shift + z) as Hlo.
  { destruct (Z.eq_dec z 0) as [Hz0|]; [|lia]. destruct Heven as [?|Heven]; [lia|].
    rewrite Z.bit0_odd in Heven. rewrite Heq, Hz0 in Heven. exfalso. revert Heven.
    replace ((2 ^ o - 1) * 2 ^ 0 + m' * 2 ^ (0 + o)) with (1 + 2 * (2 ^ (o - 1) - 1 + m' * 2 ^ (o - 1))).
    { rewrite Z.odd_add_mul_2. done. }
    replace (0 + o) with (1 + (o - 1)) by lia. replace o with (1 + (o - 1)) at 3 by lia.
    rewrite !Z.pow_add_r by lia. lia. }
  assert (m * 2 ^ shift = (2 ^ (shift + z + o) - 2 ^ (shift + z)) + m' * 2 ^ (shift + z + o)) as Hval.
  { rewrite Heq. rewrite !Z.pow_add_r by lia. lia. }
  assert (0 ≤ m' * 2 ^ (shift + z + o)) by (apply Z.mul_nonneg_nonneg; lia).
  assert (2 ^ (shift + z) * 2 ≤ 2 ^ (shift + z + o)).
  { rewrite Z.mul_comm, <- Z.pow_succ_r by lia. apply Z.pow_le_mono_r; lia. }
  split_and!; [done| |lia|done]. destruct (Z.le_gt_cases (shift + z + o) 64); [done|].
  assert (2 ^ 65 ≤ 2 ^ (shift + z + o)) by (apply Z.pow_le_mono_r; lia).
  change (2 ^ 65) with (2 * 2 ^ 64) in *. lia.
Qed.

#[local] Arguments mask_runs : simpl never.

Lemma mask_runs_S fuel m shift :
  mask_runs (S fuel) m shift =
    if m =? 0 then []
    else
      let z := trailing_zeros m in let m' := Z.shiftr m z in let o := trailing_ones m' in
      (shift + z, shift + z + o - 1) ::
      (if o =? 64 then [] else mask_runs fuel (Z.shiftr m' o) (shift + z + o)).
Proof. done. Qed.

Lemma mask_runs_nonempty fuel m : m ≠ 0 → ∃ lo hi l, mask_runs (S fuel) m 0 = (lo, hi) :: l.
Proof. intros Hm. rewrite mask_runs_S, (proj2 (Z.eqb_neq _ _)) by done. by eexists _, _, _. Qed.

Lemma mask_runs_range fuel m shift lo hi :
  0 ≤ m → 0 ≤ shift → m * 2 ^ shift < 2 ^ 64 → 0 < shift ∨ Z.testbit m 0 = false →
  (lo, hi) ∈ mask_runs fuel m shift → 1 ≤ lo ≤ hi ∧ hi ≤ 63.
Proof.
  revert m shift. induction fuel as [|fuel IH]; intros m shift Hm Hs Hlt Heven.
  { by intros ?%elem_of_nil. }
  rewrite mask_runs_S. cbv zeta.
  destruct (Z.eqb_spec m 0); [by intros ?%elem_of_nil|].
  destruct (mask_run_bounds m shift ltac:(lia) Hs Hlt Heven) as (Hlo & Hhi & Hb & _).
  destruct (mask_run m ltac:(lia)) as (Hz & Ho & Hm' & _).
  rewrite elem_of_cons. intros [[= -> ->]|Hin]; [lia|].
  destruct (_ =? 64); [by apply elem_of_nil in Hin|].
  eapply IH in Hin; [done|done|lia|done|left; lia].
Qed.

Lemma parse_runs fuel m shift sup :
  0 ≤ m < 2 ^ Z.of_nat fuel → 0 ≤ shift → m * 2 ^ shift < 2 ^ 64 →
  0 < shift ∨ Z.testbit m 0 = false → 0 ≤ sup < 2 ^ shift →
  parse_versions (map range_to_string (mask_runs fuel m shift)) sup = Ok (sup + m * 2 ^ shift).
Proof.
  revert m shift sup. induction fuel as [|fuel IH]; intros m shift sup Hm Hs Hlt Heven Hsup.
  { simpl in Hm. replace m with 0 by lia. simpl. f_equal. lia. }
  rewrite mask_runs_S. cbv zeta.
  destruct (Z.eqb_spec m 0) as [->|]; [simpl; f_equal; lia|].
  destruct (mask_run_bounds m shift ltac:(lia) Hs Hlt Heven) as (Hlo & Hhi & Hb & Hval).
  destruct (mask_run m ltac:(lia)) as (Hz & Ho & Hm' & Heq).
  set (z := trailing_zeros m) in *. set (o := trailing_ones (Z.shiftr m z)) in *.
  set (m' := Z.shiftr (Z.shiftr m z) o) in *. rewrite Hval.
  assert (2 ^ shift ≤ 2 ^ (shift + z)) by (apply Z.pow_le_mono_r; lia).
  assert (0 < 2 ^ (shift + z) ≤ 2 ^ (shift + z + o)).
  { split; [lia|]. apply Z.pow_le_mono_r; lia. }
  cbn [map parse_versions]. rewrite parse_run by lia. rewrite ok_bind.
  replace (shift + z + o - 1 + 1) with (shift + z + o) by lia.
  destruct (Z.eqb_spec o 64) as [H64|].
  - simpl. f_equal. assert (m' = 0) as ->; [|lia]. rewrite H64 in Hb, Hhi.
    replace (shift + z + 64) with (shift + z + 64) in Hb by lia. lia.
  - rewrite IH; [f_equal; lia| |lia|done|left; lia|lia].
    rewrite Nat2Z.inj_succ, Z.pow_succ_r in Hm by lia. split; [done|].
    assert (2 ^ 1 ≤ 2 ^ (z + o)) by (apply Z.pow_le_mono_r; lia).
    assert (m' * 2 ≤ m' * 2 ^ (z + o)) by (apply Z.mul_le_mono_nonneg_l; lia).
    assert (0 ≤ (2 ^ o - 1) * 2 ^ z) by (apply Z.mul_nonneg_nonneg; lia). lia.
Qed.

Lemma runs_text fuel m :
  0 ≤ m < 2 ^ Z.of_nat (S fuel) → m < 2 ^ 64 → Z.testbit m 0 = false → m ≠ 0 →
  let text := join [44] (map range_to_string (mask_runs (S fuel) m 0)) in
  parse_versions (split_on 44 text) 0 = Ok m ∧ text ≠ [] ∧ 32 ∉ text.
Proof.
  intros Hm H64 Heven Hne text. set (runs := mask_runs (S fuel) m 0) in *.
  assert (∀ a b, (a, b) ∈ runs → 1 ≤ a ≤ b ∧ b ≤ 63) as Hr.
  { intros lo hi. apply mask_runs_range; [lia..|by right]. }
  assert (∀ p, p ∈ map range_to_string runs → ∀ c, c ∈ p → is_digit c ∨ c = 45) as Hchars.
  { intros p ([a b] & -> & Hin)%list_elem_of_fmap c Hc. destruct (Hr a b Hin).
    by apply range_to_string_chars in Hc. }
  destruct (mask_runs_nonempty fuel m Hne) as (lo & hi & l & Hruns). fold runs in Hruns.
  split_and!.
  - subst text. rewrite split_join.
    + subst runs. rewrite parse_runs; [f_equal; lia|done|lia..|by right|lia].
    + by rewrite Hruns.
    + apply Forall_forall. intros p Hp Hc%(Hchars p Hp). unfold is_digit in Hc. lia.
  - subst text. destruct (Hr lo hi); [rewrite Hruns; by left|].
    destruct (dec_digits_spec u64_max 2 lo) as (_ & (d & l' & Hl & _) & _); [lia|simpl; lia|].
    assert (∃ d l', range_to_string (lo, hi) = d :: l') as (d' & l'' & Hd).
    { unfold range_to_string. cbn [fst snd]. rewrite Hl. destruct (lo =? hi); by eexists _, _. }
    rewrite Hruns. cbn [map]. rewrite Hd. by destruct (map range_to_string l).
  - intros [?|(p & Hp & Hc%(Hchars p Hp))]%elem_of_join; [done|]. unfold is_digit in Hc. lia.
Qed.

Lemma dumpmask_parse m : mask_ok m → m ≠ 0 →
  parse_versions (split_on 44 (dumpmask m)) 0 = Ok m ∧ dumpmask m ≠ [] ∧ 32 ∉ dumpmask m.
Proof. intros [Hm%u64_pow Heven] Hne. apply (runs_text 63 m); [done|lia|done..]. Qed.

(** ** Well-formed sets *)

(** A name that the parser can produce for an unrecognized protocol. *)
Definition name_ok (s : list Z) : Prop := ProtoKind_from_name s = None ∧ 61 ∉ s ∧ 32 ∉ s.

Definition proto_ok (pr : Protocol) : Prop :=
  match pr with Proto k => (k < N_RECOGNIZED)%nat | Unrecognized s => name_ok s end.

Definition entry_ok (e : SubprotocolEntry) : Prop := proto_ok (proto e) ∧ mask_ok (supported e).

(** An entry of the list of unrecognized protocols. *)
Definition unrec_ok (e : SubprotocolEntry) : Prop :=
  entry_ok e ∧ supported e ≠ 0 ∧ ∃ s, proto e = Unrecognized s.

(** The invariant of a set while it is built: the list is not sorted yet. *)
Record protocols_inv (p : Protocols) : Prop := mkInv {
  inv_len : length (recognized p) = N_RECOGNIZED;
  inv_rec : Forall mask_ok (recognized p);
  inv_unrec : Forall unrec_ok (unrecognized p);
  inv_nodup : NoDup (map proto (unrecognized p)) }.

Definition protocols_wf (p : Protocols) : Prop :=
  protocols_inv p ∧ Sorted entry_le (unrecognized p).

(** The versions of a protocol in a list of entries, and in a set. *)
Definition list_mask (l : list SubprotocolEntry) (pr : Protocol) : Z :=
  match find_proto pr l with Some e => supported e | None => 0 end.

Definition mask_of (p : Protocols) (pr : Protocol) : Z :=
  match pr with
  | Proto k => default 0 (recognized p !! k)
  | Unrecognized _ => list_mask (unrecognized p) pr
  end.

Lemma find_proto_cons pr e l :
  find_proto pr (e :: l) = if decide (proto e = pr) then Some e else find_proto pr l.
Proof. unfold find_proto. cbn [list_find]. case_decide; [done|]. by destruct (list_find _ l) as [[]|]. Qed.

Lemma find_proto_Some l pr e : NoDup (map proto l) → find_proto pr l = Some e ↔ e ∈ l ∧ proto e = pr.
Proof.
  induction l as [|x l IH]; intros Hnd.
  { split; [done|]. by intros [?%elem_of_nil _]. }
  cbn [map] in Hnd. apply NoDup_cons in Hnd as [Hx Hnd].
  rewrite find_proto_cons, elem_of_cons. case_decide as Hpr; [subst pr|].
  - split; [intros [= <-]; by auto|]. intros [[->|Hin] Heq]; [done|]. exfalso. apply Hx.
    rewrite <- Heq. by apply list_elem_of_fmap_2.
  - rewrite IH by done. split; [intros [??]; auto|]. intros [[->|?] ?]; [done|auto].
Qed.

Lemma find_proto_None l pr : find_proto pr l = None ↔ pr ∉ map proto l.
Proof.
  induction l as [|x l IH]; [split; [intros _; apply not_elem_of_nil|done]|].
  rewrite find_proto_cons. cbn [map]. rewrite not_elem_of_cons.
  case_decide; [split; [done|intros [? _]; congruence]|].
  rewrite IH. split; [intros; split; [congruence|done]|by intros [_ ?]].
Qed.

Lemma find_proto_Permutation l k pr : NoDup (map proto l) → l ≡ₚ k → find_proto pr l = find_proto pr k.
Proof.
  intros Hnd Hlk. assert (NoDup (map proto k)) as Hnd' by (by rewrite <- Hlk).
  apply option_eq. intros e. rewrite !find_proto_Some by done. by rewrite Hlk.
Qed.

Lemma list_mask_Permutation l k pr : NoDup (map proto l) → l ≡ₚ k → list_mask l pr = list_mask k pr.
Proof. intros Hnd Hlk. unfold list_mask. by rewrite (find_proto_Permutation l k). Qed.

#[export] Instance entry_le_total : Total entry_le.
Proof.
  intros [[i|s] m] [[j|t] n]; unfold entry_le, entry_leb; cbn [proto supported]; [|by auto..|].
  - rewrite !orb_true_iff, !andb_true_iff, !Nat.ltb_lt, !Nat.eqb_eq, !Z.leb_le. lia.
  - destruct (decide (s = t)) as [->|Hst].
    + rewrite bool_decide_eq_true_2, !Z.leb_le by done. lia.
    + rewrite !bool_decide_eq_false_2 by congruence. apply str_leb_total.
Qed.

#[export] Instance entry_le_trans : Transitive entry_le.
Proof.
  intros [[i|s] m] [[j|t] n] [[k|u] o]; unfold entry_le, entry_leb; cbn [proto supported];
    try done.
  - rewrite !orb_true_iff, !andb_true_iff, !Nat.ltb_lt, !Nat.eqb_eq, !Z.leb_le. lia.
  - repeat case_bool_decide; subst; rewrite ?Z.leb_le; try done; [lia| |by eauto using str_leb_trans].
    intros H1 H2. by rewrite (str_leb_antisym _ _ H1 H2) in *.
Qed.

#[export] Instance entry_le_antisym : AntiSymm (=) entry_le.
Proof.
  intros [[i|s] m] [[j|t] n]; unfold entry_le, entry_leb; cbn [proto supported]; try done.
  - rewrite !orb_true_iff, !andb_true_iff, !Nat.ltb_lt, !Nat.eqb_eq, !Z.leb_le.
    intros ??. repeat f_equal; lia.
  - destruct (decide (s = t)) as [->|Hst].
    + rewrite bool_decide_eq_true_2, !Z.leb_le by done. intros. repeat f_equal; lia.
    + rewrite !bool_decide_eq_false_2 by congruence. intros H1 H2.
      by destruct (str_leb_antisym _ _ H1 H2).
Qed.

(** A set has one representation. *)
Lemma protocols_canonical p q :
  protocols_wf p → protocols_wf q → (∀ pr, mask_of p pr = mask_of q pr) → p = q.
Proof.
  intros [Hp Hps] [Hq Hqs] Heq. destruct p as [pr pu], q as [qr qu].
  destruct Hp as [Hpl _ Hpu Hpn], Hq as [Hql _ Hqu Hqn]. simpl in *. f_equal.
  - apply list_eq_same_length with N_RECOGNIZED; [done..|]. intros i x y Hi Hx Hy.
    specialize (Heq (Proto i)). simpl in Heq. by rewrite Hx, Hy in Heq.
  - apply (Sorted_unique entry_le); [done..|].
    apply NoDup_Permutation; [by eapply NoDup_fmap_1..|]. intros e.
    assert (∀ a b, Forall unrec_ok a → NoDup (map proto a) → NoDup (map proto b) →
      (∀ s, list_mask a (Unrecognized s) = list_mask b (Unrecognized s)) → e ∈ a → e ∈ b) as Hsub.
    { clear. intros a b Ha Hna Hnb Hab Hin. rewrite Forall_forall in Ha.
      destruct (Ha e Hin) as (_ & Hne & s & Hs). specialize (Hab s). unfold list_mask in Hab.
      rewrite (proj2 (find_proto_Some a _ e Hna)) in Hab by done.
      destruct (find_proto _ b) as [e'|] eqn:He'; [|lia]. apply find_proto_Some in He' as [He' Hp]; [|done].
      destruct e, e'; simpl in *. by subst. }
    split; apply Hsub; try done; intros s; [|symmetry]; apply (Heq (Unrecognized s)).
Qed.

Lemma sort_wf p : protocols_inv p →
  let q := mkProtocols (recognized p) (sort_entries (unrecognized p)) in
  protocols_wf q ∧ ∀ pr, mask_of q pr = mask_of p pr.
Proof.
  intros [Hl Hr Hu Hn]. assert (sort_entries (unrecognized p) ≡ₚ unrecognized p) as Hperm
    by apply merge_sort_Permutation.
  split; [split; [split; cbn [recognized unrecognized]; try done|]|].
  - by rewrite Hperm.
  - by rewrite Hperm.
  - apply (Sorted_merge_sort entry_le).
  - intros [k|s]; [done|]. symmetry. by apply list_mask_Permutation.
Qed.

(** ** The operations on masks *)

Lemma u64_log2 m : 0 ≤ m ≤ u64_max ↔ 0 ≤ m ∧ ∀ i, 64 ≤ i → Z.testbit m i = false.
Proof.
  rewrite u64_pow. split.
  - intros [Hm Hlt]. split; [done|]. intros i Hi. destruct (Z.eq_dec m 0) as [->|]; [apply Z.bits_0|].
    apply Z.bits_above_log2; [lia|]. apply Z.log2_lt_pow2 in Hlt; lia.
  - intros [Hm Hbits]. split; [done|]. destruct (Z.lt_ge_cases m (2 ^ 64)) as [|Hge]; [done|].
    pose proof (proj1 (Z.log2_le_pow2 m 64 ltac:(lia)) Hge) as Hlog. specialize (Hbits _ Hlog). by rewrite Z.bit_log2 in Hbits by lia.
Qed.

Lemma mask_ok_0 : mask_ok 0.
Proof. split; [unfold u64_max; lia|done]. Qed.

Lemma mask_ok_lor a b : mask_ok a → mask_ok b → mask_ok (Z.lor a b).
Proof.
  intros [[? Ha]%u64_log2 Ha0] [[? Hb]%u64_log2 Hb0]. split; [|by rewrite Z.lor_spec, Ha0, Hb0].
  apply u64_log2. split; [by apply Z.lor_nonneg|]. intros i Hi. by rewrite Z.lor_spec, Ha, Hb.
Qed.

Lemma mask_ok_land a b : mask_ok a → 0 ≤ b → mask_ok (Z.land a b).
Proof.
  intros [[? Ha]%u64_log2 Ha0] Hb. split; [|by rewrite Z.land_spec, Ha0].
  apply u64_log2. split; [apply Z.land_nonneg; auto|]. intros i Hi. by rewrite Z.land_spec, Ha.
Qed.

Lemma not64_nonneg b : mask_ok b → 0 ≤ not64 b.
Proof. intros [[? _] _]. apply Z.lxor_nonneg. unfold u64_max. lia. Qed.

Lemma testbit_not64 m i : 0 ≤ i < 64 → Z.testbit (not64 m) i = negb (Z.testbit m i).
Proof.
  intros Hi. unfold not64. rewrite Z.lxor_spec. change u64_max with (Z.ones 64).
  rewrite Z.ones_spec_low by done. by destruct (Z.testbit m i).
Qed.

Lemma land_bit m i : 0 ≤ i → negb (Z.land m (bit i) =? 0) = Z.testbit m i.
Proof.
  intros Hi. unfold bit. rewrite Z.shiftl_1_l. destruct (Z.testbit m i) eqn:Hb.
  - rewrite (proj2 (Z.eqb_neq _ _)); [done|]. intros H%(f_equal (λ x, Z.testbit x i)).
    by rewrite Z.land_spec, Hb, Z.pow2_bits_true, Z.bits_0 in H.
  - rewrite (proj2 (Z.eqb_eq _ _)); [done|]. apply Z.bits_inj'. intros j Hj.
    rewrite Z.land_spec, Z.bits_0. destruct (decide (i = j)) as [->|]; [by rewrite Hb|].
    rewrite Z.pow2_bits_false by done. apply andb_false_r.
Qed.

(** The queries read a bit of the mask. *)
Lemma supports_subver_mask p name ver : 0 ≤ ver →
  supports_subver p name ver =
    if MAX_VER <? ver then false else Z.testbit (mask_of p (protocol_of_name name)) ver.
Proof.
  intros Hv. unfold supports_subver, protocol_of_name, supports_recognized_ver, supports_unrecognized_ver.
  destruct (ProtoKind_from_name name) as [k|]; (destruct (MAX_VER <? ver); [done|]); cbn [mask_of].
  - destruct (recognized p !! k); simpl; [by apply land_bit|by rewrite Z.bits_0].
  - unfold list_mask. assert (snd <$> list_find (λ e, is_unrecognized name (proto e)) (unrecognized p)
      = find_proto (Unrecognized name) (unrecognized p)) as <-.
    { induction (unrecognized p) as [|e l IH]; [done|]. rewrite find_proto_cons, <- IH. cbn [list_find].
      unfold is_unrecognized at 1. destruct (proto e) as [k|s]; cbn;
        repeat case_decide; simplify_eq; try done;
        try (destruct (list_find _ l) as [[]|]; done); case_bool_decide; naive_solver. }
    destruct (list_find _ _) as [[i e]|]; simpl; [by apply land_bit|by rewrite Z.bits_0].
Qed.

Lemma from_name_range name k : ProtoKind_from_name name = Some k → (k < N_RECOGNIZED)%nat.
Proof.
  unfold ProtoKind_from_name. destruct (list_find _ _) as [[i x]|] eqn:Hf; [|done].
  intros [= <-]. apply list_find_Some in Hf as [Hf _]. by apply lookup_lt_Some in Hf.
Qed.

Lemma protocols_inv_new : protocols_inv Protocols_new.
Proof. split; [done| |constructor..]. apply Forall_replicate, mask_ok_0. Qed.

Lemma protocols_wf_new : protocols_wf Protocols_new.
Proof. split; [apply protocols_inv_new|constructor]. Qed.

(** ** Set operations on well-formed sets *)

(** An entry with its versions replaced, if any are left. *)
Definition reduce (f : SubprotocolEntry → Z) (e : SubprotocolEntry) : option SubprotocolEntry :=
  if f e =? 0 then None else Some (mkEntry (proto e) (f e)).

Lemma elem_of_reduce f (l : list SubprotocolEntry) e : e ∈ omap (reduce f) l →
  ∃ x, x ∈ l ∧ e = mkEntry (proto x) (f x) ∧ f x ≠ 0.
Proof.
  rewrite list_elem_of_omap. intros (x & Hx & He). unfold reduce in He. exists x.
  destruct (Z.eqb_spec (f x) 0); [done|]. by injection He as <-.
Qed.

Lemma reduce_protos f (l : list SubprotocolEntry) pr : pr ∈ map proto (omap (reduce f) l) → pr ∈ map proto l.
Proof.
  rewrite !list_elem_of_fmap. intros (e & -> & (x & Hx & -> & _)%elem_of_reduce). by exists x.
Qed.

Lemma reduce_NoDup f l : NoDup (map proto l) → NoDup (map proto (omap (reduce f) l)).
Proof.
  induction l as [|e l IH]; [done|]. cbn [map]. intros [He Hnd]%NoDup_cons. simpl. unfold reduce at 1.
  destruct (f e =? 0); [by apply IH|]. cbn [map]. apply NoDup_cons. split; [|by apply IH].
  contradict He. by apply reduce_protos in He.
Qed.

Lemma reduce_find f l pr : NoDup (map proto l) →
  find_proto pr (omap (reduce f) l) = find_proto pr l ≫= reduce f.
Proof.
  induction l as [|e l IH]; [done|]. cbn [map]. intros [He Hnd]%NoDup_cons.
  rewrite find_proto_cons. simpl. unfold reduce at 1. case_decide as Hpr; simpl.
  - unfold reduce at 1 3. destruct (Z.eqb_spec (f e) 0).
    + apply find_proto_None. subst pr. contradict He. by apply reduce_protos in He.
    + rewrite find_proto_cons. by rewrite decide_True.
  - destruct (f e =? 0); [by apply IH|]. rewrite find_proto_cons, decide_False by done. by apply IH.
Qed.

Lemma entry_le_protos a b a' b' :
  proto a = proto a' → proto b = proto b' → proto a ≠ proto b → entry_le a b → entry_le a' b'.
Proof.
  destruct a as [[i|s] m], b as [[j|t] n], a' as [? ?], b' as [? ?]; simpl; intros <- <- Hne;
    unfold entry_le, entry_leb; simpl; try done.
  - assert (i ≠ j) by congruence.
    rewrite !orb_true_iff, !andb_true_iff, !Nat.ltb_lt, !Nat.eqb_eq. intros [?|[? _]]; [by left|lia].
  - by rewrite !bool_decide_eq_false_2 by congruence.
Qed.

Lemma reduce_Sorted f l :
  NoDup (map proto l) → Sorted entry_le l → Sorted entry_le (omap (reduce f) l).
Proof.
  intros Hnd Hs%Sorted_StronglySorted; [|apply _]. apply StronglySorted_Sorted.
  induction Hs as [|e l Hs IH Hall]; [constructor|]. cbn [map] in Hnd. apply NoDup_cons in Hnd as [He Hnd].
  simpl. unfold reduce at 1. destruct (f e =? 0); [by apply IH|]. constructor; [by apply IH|].
  apply Forall_forall. intros e' (x & Hx & -> & _)%elem_of_reduce. rewrite Forall_forall in Hall.
  apply (entry_le_protos e x); [done..| |by apply Hall]. intros Heq. apply He. rewrite Heq.
  by apply list_elem_of_fmap_2.
Qed.

(** The entries of a list of unrecognized protocols, reduced. *)
Lemma reduce_ok f (l : list SubprotocolEntry) : Forall unrec_ok l → (∀ e, unrec_ok e → mask_ok (f e)) →
  Forall unrec_ok (omap (reduce f) l).
Proof.
  rewrite !Forall_forall. intros Hl Hf e (x & Hx & -> & Hne)%elem_of_reduce.
  destruct (Hl x Hx) as ([Hp Hm] & Hnz & Hs). split; [|done]. split; [done|]. by apply Hf.
Qed.

Lemma reduce_mask f l pr : NoDup (map proto l) →
  list_mask (omap (reduce f) l) pr = match find_proto pr l with Some e => f e | None => 0 end.
Proof.
  intros Hnd. unfold list_mask. rewrite reduce_find by done.
  destruct (find_proto pr l) as [e|]; simpl; [|done]. unfold reduce.
  by destruct (Z.eqb_spec (f e) 0).
Qed.

Lemma land_not64_0 m : mask_ok m → Z.land m (not64 0) = m.
Proof.
  intros [[Hm Hbits]%u64_log2 _]. change (not64 0) with (Z.ones 64). rewrite Z.land_ones by lia.
  apply Z.mod_small. by apply u64_pow, u64_log2.
Qed.

Lemma list_mask_ok l pr : Forall unrec_ok l → NoDup (map proto l) → mask_ok (list_mask l pr).
Proof.
  intros Hl Hnd. unfold list_mask. destruct (find_proto pr l) as [e|] eqn:He; [|apply mask_ok_0].
  apply find_proto_Some in He as [He _]; [|done]. rewrite Forall_forall in Hl. by apply Hl in He as [[_ ?] _].
Qed.

(** Position by position on the recognized protocols. *)
Lemma zip_recognized f ra rb k :
  length ra = N_RECOGNIZED → length rb = N_RECOGNIZED → f 0 0 = 0 →
  default 0 (zip_with f ra rb !! k) = f (default 0 (ra !! k)) (default 0 (rb !! k)).
Proof.
  intros Ha Hb H0. rewrite lookup_zip_with.
  destruct (ra !! k) eqn:Hka, (rb !! k) eqn:Hkb; simpl; try done.
  - apply lookup_lt_Some in Hka. apply lookup_ge_None in Hkb. lia.
  - apply lookup_lt_Some in Hkb. apply lookup_ge_None in Hka. lia.
Qed.

Lemma zip_ok f ra rb :
  Forall mask_ok ra → Forall mask_ok rb → (∀ x y, mask_ok x → mask_ok y → mask_ok (f x y)) →
  Forall mask_ok (zip_with f ra rb).
Proof.
  rewrite !Forall_forall. intros Ha Hb Hf m (x & y & -> & Hx & Hy)%elem_of_zip_with. auto.
Qed.

Lemma omap_reduce g f (l : list SubprotocolEntry) :
  Forall unrec_ok l → (∀ e, unrec_ok e → g e = reduce f e) → omap g l = omap (reduce f) l.
Proof.
  intros Hl Hg. induction Hl as [|e l He _ IH]; [done|]. simpl. rewrite Hg by done.
  destruct (reduce f e); [f_equal|]; apply IH.
Qed.

Lemma difference_spec a b : protocols_wf a → protocols_wf b →
  protocols_wf (p_difference a b) ∧
  ∀ pr, mask_of (p_difference a b) pr = Z.land (mask_of a pr) (not64 (mask_of b pr)).
Proof.
  intros [[Hal Har Hau Han] Has] [[Hbl Hbr Hbu Hbn] Hbs].
  set (f := λ e, Z.land (supported e) (not64 (list_mask (unrecognized b) (proto e)))).
  assert (unrecognized (p_difference a b) = omap (reduce f) (unrecognized a)) as Hu.
  { apply omap_reduce; [done|]. intros e [[_ He] _]. unfold reduce, f, list_mask.
    destruct (find_proto (proto e) (unrecognized b)); [done|]. by rewrite land_not64_0. }
  split; [split; [split|]|].
  - simpl. rewrite length_zip_with_l; lia.
  - apply zip_ok; [done..|]. intros x y Hx Hy. by apply mask_ok_land, not64_nonneg.
  - rewrite Hu. apply reduce_ok; [done|]. intros e [[_ He] _].
    by apply mask_ok_land, not64_nonneg, list_mask_ok.
  - rewrite Hu. by apply reduce_NoDup.
  - rewrite Hu. by apply reduce_Sorted.
  - intros [k|s]; [by apply zip_recognized|]. unfold mask_of. rewrite Hu, reduce_mask by done.
    unfold list_mask at 1. destruct (find_proto _ (unrecognized a)) as [e|] eqn:He; [|done].
    apply find_proto_Some in He as [_ He]; [|done]. unfold f. by rewrite He.
Qed.

Lemma intersection_spec a b : protocols_wf a → protocols_wf b →
  protocols_wf (p_intersection a b) ∧
  ∀ pr, mask_of (p_intersection a b) pr = Z.land (mask_of a pr) (mask_of b pr).
Proof.
  intros [[Hal Har Hau Han] Has] [[Hbl Hbr Hbu Hbn] Hbs].
  set (f := λ e, Z.land (supported e) (list_mask (unrecognized b) (proto e))).
  set (r := zip_with Z.land (recognized a) (recognized b)).
  assert (p_intersection a b = mkProtocols r (sort_entries (omap (reduce f) (unrecognized a)))) as ->.
  { unfold p_intersection. f_equal. f_equal. apply omap_reduce; [done|]. intros e _.
    unfold reduce, f, list_mask.
    destruct (find_proto (proto e) (unrecognized b)); [done|]. by rewrite Z.land_0_r. }
  destruct (sort_wf (mkProtocols r (omap (reduce f) (unrecognized a)))) as [Hwf Hmask].
  { split; cbn [recognized unrecognized].
    - subst r. rewrite length_zip_with_l; lia.
    - apply zip_ok; [done..|]. intros x y Hx [Hy _]. apply mask_ok_land; [done|lia].
    - apply reduce_ok; [done|]. intros e [[_ He] _]. apply mask_ok_land; [done|].
      by apply (list_mask_ok (unrecognized b)).
    - by apply reduce_NoDup. }
  split; [done|]. intros pr. rewrite Hmask. destruct pr as [k|s]; [by apply zip_recognized|].
  unfold mask_of. cbn [unrecognized]. rewrite reduce_mask by done.
  unfold list_mask at 1. destruct (find_proto _ (unrecognized a)) as [e|] eqn:He; [|done].
  apply find_proto_Some in He as [_ He]; [|done]. unfold f. by rewrite He.
Qed.

Lemma union_entry_find ent l pr :
  find_proto pr (union_entry ent l) =
    if decide (proto ent = pr) then Some (mkEntry pr (Z.lor (list_mask l pr) (supported ent)))
    else find_proto pr l.
Proof.
  unfold list_mask. induction l as [|e l IH]; cbn [union_entry].
  { rewrite find_proto_cons. case_decide; [|done]. subst pr. cbn. by destruct ent. }
  destruct (decide (proto e = proto ent)) as [He|He]; rewrite !find_proto_cons; cbn [proto]; [|rewrite IH];
    repeat case_decide; subst; try done; congruence.
Qed.

Lemma union_entry_inv ent l :
  unrec_ok ent → Forall unrec_ok l → NoDup (map proto l) →
  Forall unrec_ok (union_entry ent l) ∧ NoDup (map proto (union_entry ent l)) ∧
  (∀ pr, pr ∈ map proto (union_entry ent l) → pr = proto ent ∨ pr ∈ map proto l).
Proof.
  intros Hent Hl Hnd. induction Hl as [|e l He Hl IH]; cbn [union_entry].
  { split_and!; [by apply Forall_singleton|apply NoDup_singleton|].
    intros pr Hpr%list_elem_of_singleton. by left. }
  cbn [map] in Hnd. apply NoDup_cons in Hnd as [Hx Hnd]. case_decide as Heq.
  - split_and!; [constructor; [|done]|by constructor|intros pr ?; by right].
    destruct He as ([Hp [? He0]] & Hne & Hs), Hent as ([_ Hm] & _ & _). split; cbn.
    + split; [done|]. by apply mask_ok_lor.
    + split; [|done]. intros [? _]%Z.lor_eq_0_iff. done.
  - destruct IH as (H1 & H2 & H3); [done|]. split_and!; [by constructor| |].
    + cbn [map]. apply NoDup_cons. split; [|done]. intros [?|?]%H3; congruence.
    + intros pr. cbn [map]. rewrite !elem_of_cons. intros [->|[->|?]%H3]; auto.
Qed.

Lemma union_entries l l' :
  Forall unrec_ok l → NoDup (map proto l) → Forall unrec_ok l' → NoDup (map proto l') →
  let r := foldl (λ l ent, union_entry ent l) l l' in
  Forall unrec_ok r ∧ NoDup (map proto r) ∧
  ∀ pr, list_mask r pr = Z.lor (list_mask l pr) (list_mask l' pr).
Proof.
  intros Hl Hnl Hl'. revert l Hl Hnl. induction Hl' as [|e l' He Hl' IH]; intros l Hl Hnl Hnl'; cbn.
  { split_and!; [done..|]. intros pr. by rewrite Z.lor_0_r. }
  apply NoDup_cons in Hnl' as [Hx Hnl']. destruct (union_entry_inv e l He Hl Hnl) as (H1 & H2 & _).
  destruct (IH _ H1 H2 Hnl') as (H3 & H4 & H5). split_and!; [done..|]. intros pr. rewrite H5.
  unfold list_mask at 1 4. rewrite union_entry_find, find_proto_cons. case_decide as Hpr; [|done].
  subst pr. cbn [supported]. unfold list_mask at 2. rewrite (proj2 (find_proto_None l' _)) by done.
  by rewrite Z.lor_0_r.
Qed.

Lemma union_spec a b : protocols_wf a → protocols_wf b →
  protocols_wf (p_union a b) ∧
  ∀ pr, mask_of (p_union a b) pr = Z.lor (mask_of a pr) (mask_of b pr).
Proof.
  intros [[Hal Har Hau Han] _] [[Hbl Hbr Hbu Hbn] _].
  destruct (union_entries (unrecognized a) (unrecognized b)) as (H1 & H2 & H3); [done..|].
  unfold p_union. set (l := foldl _ _ _) in *. set (r := zip_with _ _ _).
  destruct (sort_wf (mkProtocols r l)) as [Hwf Hmask].
  { split; [subst r; cbn; rewrite length_zip_with_l; lia| |done..].
    apply zip_ok; [done..|]. apply mask_ok_lor. }
  split; [done|]. intros pr. rewrite Hmask. destruct pr as [k|s]; [by apply zip_recognized|apply H3].
Qed.

(** ** Parsing *)

Lemma good_number_pos n x : is_good_number n = true → parse_uint u64_max n = Some x → 1 ≤ x.
Proof.
  unfold is_good_number, parse_uint. destruct n as [|d n]; [done|]. cbn [forallb].
  unfold is_ascii_digit at 1. rewrite !andb_true_iff, negb_true_iff. intros [[[? ?] _] ?]. zify_bool.
  rewrite (proj2 (Z.eqb_neq d 43)) by lia. cbn [parse_digits]. unfold is_ascii_digit at 1.
  rewrite !(proj2 (Z.leb_le _ _)) by (unfold u64_max; lia). cbn [andb].
  intros Hx%parse_digits_range; unfold u64_max; lia.
Qed.

Lemma bitrange_mask_ok lo hi : 1 ≤ lo ≤ hi → hi ≤ 63 → mask_ok (2 ^ (hi + 1) - 2 ^ lo).
Proof.
  intros Hlo Hhi. assert (2 ^ lo ≤ 2 ^ (hi + 1) ≤ 2 ^ 64) by (split; apply Z.pow_le_mono_r; lia).
  split; [unfold u64_max; lia|]. rewrite Z.bit0_odd, Z.odd_sub, !Z.odd_pow by lia. done.
Qed.

Lemma parse_range_ok ent sup :
  mask_ok sup → (∃ m, parse_range ent sup = Ok m ∧ mask_ok m) ∨ (∃ e, parse_range ent sup = Err e).
Proof.
  intros Hsup. unfold parse_range. 
  destruct (match split_once 45 ent with Some (a, b) => (a, b) | None => (ent, ent) end) as [lo_s hi_s].
  destruct (is_good_number lo_s) eqn:Hlo; [|by right; eexists].
  destruct (is_good_number hi_s) eqn:Hhi; [|by right; eexists]. cbn [negb].
  destruct (parse_uint u64_max lo_s) as [lo|] eqn:Hl; [|by right; eexists].
  destruct (parse_uint u64_max hi_s) as [hi|] eqn:Hh; [|by right; eexists]. cbn.
  apply good_number_pos in Hl; [|done]. unfold MAX_VER.
  destruct ((63 <? lo) || (63 <? hi)) eqn:H63; [by right; eexists|].
  destruct (hi <? lo) eqn:Hlt; [by right; eexists|]. zify_bool.
  rewrite bitrange_ok by lia. cbn. destruct (negb _); [by right; eexists|].
  left. eexists. split; [done|]. apply mask_ok_lor; [done|]. by apply bitrange_mask_ok.
Qed.

Lemma parse_versions_ok ents sup :
  mask_ok sup →
  (∃ m, parse_versions ents sup = Ok m ∧ mask_ok m) ∨ (∃ e, parse_versions ents sup = Err e).
Proof.
  revert sup. induction ents as [|ent ents IH]; intros sup Hsup; cbn [parse_versions].
  { left. by exists sup. }
  destruct (parse_range_ok ent sup Hsup) as [(m & -> & Hm)|[e ->]]; [by apply IH|by right; exists e].
Qed.

Lemma protocol_of_name_ok name : 61 ∉ name → 32 ∉ name → proto_ok (protocol_of_name name).
Proof.
  intros H1 H2. unfold protocol_of_name. destruct (ProtoKind_from_name name) as [k|] eqn:Hk; cbn.
  - by apply from_name_range in Hk.
  - done.
Qed.

Lemma entry_from_str_ok s : 32 ∉ s →
  (∃ e, entry_from_str s = Ok e ∧ entry_ok e) ∨ (∃ e, entry_from_str s = Err e).
Proof.
  intros Hs. unfold entry_from_str. destruct (split_once 61 s) as [[name vs]|] eqn:Hsplit; [|by right; eexists].
  apply split_once_spec in Hsplit as [-> Hname]. apply not_elem_of_app in Hs as [Hs _].
  pose proof (protocol_of_name_ok name Hname Hs) as Hok. cbn. destruct vs as [|v vs].
  { left. eexists. split; [done|]. split; [done|apply mask_ok_0]. }
  destruct (parse_versions_ok (split_on 44 (v :: vs)) 0 mask_ok_0) as [(m & -> & Hm)|[e ->]];
    [left|right]; by eexists.
Qed.

Lemma existsb_unrecognized s l :
  existsb (λ e, is_unrecognized s (proto e)) l = false ↔ Unrecognized s ∉ map proto l.
Proof.
  induction l as [|e l IH]; [split; [intros _; apply not_elem_of_nil|done]|].
  cbn [existsb map]. rewrite orb_false_iff, not_elem_of_cons, IH.
  destruct (proto e) as [k|t]; cbn.
  { split; [intros [_ ?]; by split|by intros [_ ?]]. }
  rewrite bool_decide_eq_false. split; intros [? ?]; (split; [congruence|done]).
Qed.

(** What [add] does, when it does not fail, to a set and to the versions of each protocol. *)
Lemma p_add_ok ent fm p : entry_ok ent → protocols_inv p → 0 ≤ fm →
  (∃ q fm', p_add ent fm p = Ok (q, fm') ∧ protocols_inv q ∧ 0 ≤ fm') ∨ (∃ e, p_add ent fm p = Err e).
Proof.
  intros [Hp Hm] [Hl Hr Hu Hn] Hfm. unfold p_add. destruct (proto ent) as [k|s] eqn:Hpr; cbn [proto_ok] in Hp.
  - rewrite (proj2 (Nat.ltb_lt _ _)) by done. cbn. destruct (negb _); [by right; eexists|]. left.
    eexists _, _. split; [done|]. split; [|apply Z.lor_nonneg; split; [done|apply Z.shiftl_nonneg; lia]].
    split; cbn; [by rewrite length_insert|by apply Forall_insert|done..].
  - destruct (existsb _ _) eqn:Hex; [by right; eexists|]. left.
    destruct (Z.eqb_spec (supported ent) 0); [by eexists _, _|]. eexists _, _. split; [done|].
    split; [|done]. apply existsb_unrecognized in Hex. split; cbn; [done..| |].
    + apply Forall_app. split; [done|]. apply Forall_singleton. split; [split; [by rewrite Hpr|done]|].
      split; [done|]. by exists s.
    + rewrite map_app. cbn [map]. apply NoDup_app. split; [done|]. split; [|apply NoDup_singleton].
      intros pr Hin ->%list_elem_of_singleton. by rewrite Hpr in Hin.
Qed.

Lemma parse_entries_ok ents fm p :
  Forall (λ s, 32 ∉ s) ents → protocols_inv p → 0 ≤ fm →
  (∃ q, parse_entries ents fm p = Ok q ∧ protocols_wf q) ∨ (∃ e, parse_entries ents fm p = Err e).
Proof.
  intros Hents. revert fm p. induction Hents as [|s ents Hs Hents IH]; intros fm p Hp Hfm; cbn [parse_entries].
  { left. eexists. split; [done|]. by apply sort_wf. }
  destruct s as [|c s]; [by apply IH|].
  destruct (entry_from_str_ok (c :: s) Hs) as [(ent & -> & Hent)|[e ->]]; [|by right; exists e].
  rewrite ok_bind.
  destruct (p_add_ok ent fm p Hent Hp Hfm) as [(q & fm' & -> & Hq & Hfm')|[e ->]]; [|by right; exists e].
  rewrite ok_bind. by apply IH.
Qed.

(** ** Printing and parsing *)

Lemma proto_name_ok pr : proto_ok pr →
  protocol_of_name (Protocol_to_str pr) = pr ∧ 61 ∉ Protocol_to_str pr ∧ 32 ∉ Protocol_to_str pr.
Proof.
  destruct pr as [k|s]; cbn [proto_ok Protocol_to_str].
  - intros Hk. assert (k ∈ seq 0 N_RECOGNIZED) as Hin by (apply elem_of_seq; lia).
    assert (Forall (λ k, protocol_of_name (Protocol_to_str (Proto k)) = Proto k ∧
      61 ∉ Protocol_to_str (Proto k) ∧ 32 ∉ Protocol_to_str (Proto k)) (seq 0 N_RECOGNIZED)) as Hall.
    { apply (bool_decide_unpack _). vm_compute. exact I. }
    rewrite Forall_forall in Hall. by apply Hall.
  - intros (Hn & ? & ?). split; [|done]. unfold protocol_of_name. by rewrite Hn.
Qed.

Lemma entry_text e : entry_ok e → supported e ≠ 0 →
  entry_from_str (entry_to_string e) = Ok e ∧ entry_to_string e ≠ [] ∧ 32 ∉ entry_to_string e.
Proof.
  intros [Hp Hm] Hne. destruct (proto_name_ok _ Hp) as (Hname & H61 & H32).
  destruct (dumpmask_parse _ Hm Hne) as (Hparse & Hd & Hd32). unfold entry_to_string. split_and!.
  - unfold entry_from_str. rewrite split_once_app by done. cbn [ok_or]. rewrite ok_bind, Hname.
    destruct (dumpmask (supported e)) eqn:Hdump; [done|]. rewrite Hparse, ok_bind. by destruct e.
  - by destruct (Protocol_to_str _).
  - rewrite not_elem_of_app, not_elem_of_cons. split_and!; [done|lia|done].
Qed.

(** Nothing in [p] or [fm] says that the protocol has been seen. *)
Definition unseen (fm : Z) (p : Protocols) (pr : Protocol) : Prop :=
  match pr with
  | Proto k => Z.testbit fm (Z.of_nat k) = false
  | Unrecognized s => Unrecognized s ∉ map proto (unrecognized p)
  end.

Lemma p_add_unseen ent fm p :
  entry_ok ent → supported ent ≠ 0 → protocols_inv p → unseen fm p (proto ent) →
  ∃ q fm', p_add ent fm p = Ok (q, fm') ∧
    (∀ pr, mask_of q pr = if decide (proto ent = pr) then supported ent else mask_of p pr) ∧
    (∀ pr, pr ≠ proto ent → unseen fm p pr → unseen fm' q pr).
Proof.
  intros [Hp Hm] Hne [Hl Hr Hu Hn] Hun. unfold p_add. destruct (proto ent) as [k|s] eqn:Hpr; cbn in Hp, Hun.
  - rewrite (proj2 (Nat.ltb_lt _ _)) by done. cbn [debug_assert]. rewrite ok_bind.
    rewrite land_bit, Hun by lia. eexists _, _. split; [done|]. split.
    + intros [j|t]; cbn [mask_of recognized unrecognized]; [|done]. case_decide as Hj.
      * injection Hj as ->. by rewrite list_lookup_insert_eq by lia.
      * by rewrite list_lookup_insert_ne by congruence.
    + intros [j|t] Hj; cbn; [|done]. intros Htb. rewrite Z.lor_spec, Htb. unfold bit.
      rewrite Z.shiftl_1_l, Z.pow2_bits_false; [done|]. intros ?%Nat2Z.inj. congruence.
  - rewrite (proj2 (existsb_unrecognized _ _)) by done. rewrite (proj2 (Z.eqb_neq _ _)) by done.
    eexists _, _. split; [done|]. split.
    + intros [j|t]; cbn [mask_of unrecognized]; [done|].
      rewrite (list_mask_Permutation _ (ent :: unrecognized p)).
      * unfold list_mask. rewrite find_proto_cons, Hpr. by case_decide.
      * rewrite map_app. cbn [map]. apply NoDup_app. split; [done|]. split; [|apply NoDup_singleton].
        intros pr Hin ->%list_elem_of_singleton. by rewrite Hpr in Hin.
      * by rewrite Permutation_app_comm.
    + intros [j|t] Hj; cbn; [done|]. rewrite map_app, not_elem_of_app. intros Ht. split; [done|].
      cbn [map]. rewrite list_elem_of_singleton, Hpr. congruence.
Qed.

Lemma parse_entries_text es fm p :
  Forall entry_ok es → Forall (λ e, supported e ≠ 0) es → NoDup (map proto es) →
  protocols_inv p → 0 ≤ fm → Forall (λ e, unseen fm p (proto e)) es →
  ∃ q, parse_entries (map entry_to_string es) fm p = Ok q ∧
    ∀ pr, mask_of q pr = match find_proto pr es with Some e => supported e | None => mask_of p pr end.
Proof.
  intros Hok. revert fm p. induction Hok as [|e es He Hes IH]; intros fm p Hne Hnd Hp Hfm Hun.
  { eexists. split; [done|]. intros pr. by destruct (sort_wf p Hp) as [_ Hmask]. }
  apply Forall_cons in Hne as [Hne Hnes]. apply Forall_cons in Hun as [Hun Huns].
  cbn [map] in Hnd. apply NoDup_cons in Hnd as [Hx Hnd].
  destruct (entry_text e He Hne) as (Hparse & Hnonempty & _).
  destruct (p_add_unseen e fm p He Hne Hp Hun) as (q & fm' & Hadd & Hmask & Hun').
  destruct (p_add_ok e fm p He Hp Hfm) as [(q' & fm'' & Hadd' & Hq & Hfm')|[err Herr]]; [|congruence].
  rewrite Hadd in Hadd'. injection Hadd' as <- <-.
  destruct (IH fm' q) as (r & Hr & Hrmask); [done..| |].
  { rewrite Forall_forall in *. intros x Hxin. apply Hun'; [|by apply Huns].
    intros Heq. apply Hx. rewrite <- Heq. by apply list_elem_of_fmap_2. }
  exists r. split.
  - cbn [map parse_entries]. destruct (entry_to_string e) eqn:Htext; [done|].
    rewrite Hparse, ok_bind, Hadd, ok_bind. done.
  - intros pr. rewrite Hrmask, Hmask, find_proto_cons. case_decide as Hpr; [|done]. subst pr.
    by rewrite (proj2 (find_proto_None es _)).
Qed.

Lemma from_str_ok s :
  (∃ p, Protocols_from_str s = Ok p ∧ protocols_wf p) ∨ (∃ e, Protocols_from_str s = Err e).
Proof.
  apply parse_entries_ok; [|apply protocols_inv_new|done].
  apply Forall_forall. intros t Ht. by apply split_on_elem in Ht as [? _].
Qed.

Lemma parse_wf s p : Protocols_from_str s = Ok p → protocols_wf p.
Proof. intros Hp. destruct (from_str_ok s) as [(q & Hq & ?)|[e He]]; congruence. Qed.

(** Every entry of a set, absent ones included. *)
Definition all_entries (p : Protocols) : list SubprotocolEntry :=
  imap (λ i m, mkEntry (Proto i) m) (recognized p) ++ unrecognized p.

Lemma display_entries_reduce p : display_entries p = omap (reduce supported) (all_entries p).
Proof.
  unfold display_entries. fold (all_entries p). induction (all_entries p) as [|e l IH]; [done|].
  change (omap (reduce supported) (e :: l)) with (match reduce supported e with
    | Some y => y :: omap (reduce supported) l | None => omap (reduce supported) l end).
  rewrite filter_cons, IH. unfold reduce at 3.
  destruct (Z.eqb_spec (supported e) 0); [by rewrite decide_False by tauto|].
  rewrite decide_True by done. by destruct e.
Qed.

Lemma elem_of_recognized l e :
  e ∈ imap (λ i m, mkEntry (Proto i) m) l ↔ ∃ k, proto e = Proto k ∧ l !! k = Some (supported e).
Proof.
  rewrite list_elem_of_lookup. split.
  - intros [i Hi]. rewrite list_lookup_imap in Hi. apply fmap_Some in Hi as (m & Hm & ->). by exists i.
  - intros (k & Hp & Hk). exists k. rewrite list_lookup_imap, Hk. simpl. rewrite <- Hp. by destruct e.
Qed.

Lemma recognized_protos l : map proto (imap (λ i m, mkEntry (Proto i) m) l) = map Proto (seq 0 (length l)).
Proof.
  apply list_eq. intros i. change (map proto) with (fmap (M:=list) proto). change (map Proto) with (fmap (M:=list) Proto).
  rewrite !list_lookup_fmap, list_lookup_imap. destruct (l !! i) eqn:Hi; simpl.
  - rewrite lookup_seq_lt; [done|]. by apply lookup_lt_Some in Hi.
  - by rewrite lookup_seq_ge by (by apply lookup_ge_None).
Qed.

Lemma all_entries_ok p : protocols_inv p → NoDup (map proto (all_entries p)) ∧ Forall entry_ok (all_entries p).
Proof.
  intros [Hl Hr Hu Hn]. rewrite Forall_forall in Hu. unfold all_entries. split.
  - rewrite map_app, recognized_protos. apply NoDup_app. split_and!; [|  |done].
    + apply NoDup_fmap_2; [congruence|apply NoDup_seq].
    + intros pr (k & -> & _)%list_elem_of_fmap (e & He & Hin)%list_elem_of_fmap.
      destruct (Hu e Hin) as (_ & _ & s & Hs). congruence.
  - apply Forall_app. split; apply Forall_forall.
    + intros e (k & Hk & Hm)%elem_of_recognized. split.
      * rewrite Hk. cbn. rewrite <- Hl. by eapply lookup_lt_Some.
      * rewrite Forall_forall in Hr. by eapply Hr, list_elem_of_lookup_2.
    + intros e He. by apply Hu.
Qed.

Lemma all_entries_mask p pr : protocols_inv p → list_mask (all_entries p) pr = mask_of p pr.
Proof.
  intros Hp. destruct (all_entries_ok p Hp) as [Hnd _]. destruct Hp as [Hl Hr Hu Hn].
  rewrite Forall_forall in Hu. unfold list_mask.
  destruct (find_proto pr (all_entries p)) as [e|] eqn:Hf.
  - apply find_proto_Some in Hf as [Hin <-]; [|done]. apply elem_of_app in Hin as [Hin|Hin].
    + apply elem_of_recognized in Hin as (k & -> & Hk). cbn. by rewrite Hk.
    + destruct (Hu e Hin) as (_ & _ & s & Hs). rewrite Hs. cbn. unfold list_mask.
      by rewrite (proj2 (find_proto_Some _ _ e Hn)).
  - apply find_proto_None in Hf. unfold all_entries in Hf. rewrite map_app, not_elem_of_app in Hf.
    destruct Hf as [Hf1 Hf2]. destruct pr as [k|s]; cbn.
    + destruct (recognized p !! k) as [m|] eqn:Hk; [|done]. exfalso. apply Hf1.
      rewrite recognized_protos. apply list_elem_of_fmap_2, elem_of_seq. apply lookup_lt_Some in Hk. lia.
    + unfold list_mask. by rewrite (proj2 (find_proto_None _ _)).
Qed.

Lemma display_entries_ok p : protocols_inv p →
  Forall entry_ok (display_entries p) ∧ Forall (λ e, supported e ≠ 0) (display_entries p) ∧
  NoDup (map proto (display_entries p)) ∧ ∀ pr, list_mask (display_entries p) pr = mask_of p pr.
Proof.
  intros Hp. destruct (all_entries_ok p Hp) as [Hnd Hok]. rewrite Forall_forall in Hok.
  rewrite display_entries_reduce. split_and!.
  - apply Forall_forall. intros e (x & Hx & -> & _)%elem_of_reduce. destruct x. by apply Hok.
  - apply Forall_forall. by intros e (x & Hx & -> & ?)%elem_of_reduce.
  - by apply reduce_NoDup.
  - intros pr. rewrite reduce_mask by done. by apply all_entries_mask.
Qed.

(** Reading what is printed for a list of entries, in any order. *)
Lemma parse_join es :
  Forall entry_ok es → Forall (λ e, supported e ≠ 0) es → NoDup (map proto es) →
  ∃ q, Protocols_from_str (join [32] (map entry_to_string es)) = Ok q ∧
    ∀ pr, mask_of q pr = list_mask es pr.
Proof.
  intros Hok Hne Hnd. destruct (parse_entries_text es 0 Protocols_new) as (q & Hq & Hmask);
    [done..|apply protocols_inv_new|done| |].
  { apply Forall_true. intros [[k|s] m]; cbn; [apply Z.bits_0|apply not_elem_of_nil]. }
  exists q. split.
  - unfold Protocols_from_str. destruct es as [|e es]; [done|].
    rewrite split_join; [done|done|]. apply Forall_fmap. rewrite Forall_forall in *. intros x Hx.
    by destruct (entry_text x) as (_ & _ & ?); auto.
  - intros pr. rewrite Hmask. unfold list_mask. destruct (find_proto pr es); [done|].
    destruct pr as [k|s]; [|done]. unfold mask_of, Protocols_new. cbn [recognized].
    destruct (decide (k < N_RECOGNIZED)%nat).
    + by rewrite lookup_replicate_2.
    + rewrite lookup_ge_None_2; [done|]. rewrite length_replicate. lia.
Qed.

(** C37: a subprotocol set is printed in the textual form of consensus documents and read back
    as the same set, for every well-formed set: the versions of each protocol survive the
    run-length encoding of bit vectors, the sorting of the entries by their text and the
    splitting on spaces, commas and dashes. *)
Theorem protocols_roundtrip p : protocols_wf p → Protocols_from_str (Protocols_to_string p) = Ok p.
Proof.
  intros Hp. destruct (display_entries_ok p (proj1 Hp)) as (H1 & H2 & H3 & H4).
  unfold Protocols_to_string.
  destruct (Permutation_map_inv entry_to_string
    (l1:=merge_sort str_le (map entry_to_string (display_entries p))) (display_entries p))
    as (es & -> & Hperm); [apply merge_sort_Permutation|].
  destruct (parse_join es) as (q & Hq & Hmask); [by rewrite <- Hperm..|]. rewrite Hq. f_equal.
  symmetry. apply protocols_canonical; [done| |].
  - by eapply parse_wf.
  - intros pr. rewrite Hmask, <- H4. by apply list_mask_Permutation.
Qed.

Lemma protocols_roundtrip_witness :
  let s := str "Foo=2,4-6 Link=1-3" in
  ∃ p, Protocols_from_str s = Ok p ∧ Protocols_to_string p = s ∧
    Protocols_from_str (Protocols_to_string p) = Ok p.
Proof.
  eexists. split; [vm_compute; reflexivity|]. split; [vm_compute; reflexivity|].
  apply protocols_roundtrip, (parse_wf (str "Foo=2,4-6 Link=1-3")). vm_compute. reflexivity.
Defined.

(** C38: every set of subprotocol versions the crate builds is well-formed (13 bit vectors of
    64 bits, without version zero; the unrecognized protocols sorted, each named once, none
    empty and none with the name of a recognized one): parsing returns such a set or an error
    and never panics, and union, intersection and difference preserve it. *)
Theorem protocols_well_formed :
  (∀ s, (∃ p, Protocols_from_str s = Ok p ∧ protocols_wf p) ∨ (∃ e, Protocols_from_str s = Err e)) ∧
  protocols_wf Protocols_new ∧
  (∀ a b, protocols_wf a → protocols_wf b →
    protocols_wf (p_union a b) ∧ protocols_wf (p_intersection a b) ∧ protocols_wf (p_difference a b)).
Proof.
  split_and!.
  - apply from_str_ok.
  - apply protocols_wf_new.
  - intros a b Ha Hb. split_and!; [by apply union_spec|by apply intersection_spec|by apply difference_spec].
Qed.

Lemma protocols_well_formed_witness :
  ∃ p, Protocols_from_str (str "Foo=2 Link=1-3") = Ok p ∧ protocols_wf (p_difference p Protocols_new).
Proof.
  eexists. split; [vm_compute; reflexivity|].
  destruct protocols_well_formed as (_ & Hnew & Hops). apply Hops; [|exact Hnew].
  apply (parse_wf (str "Foo=2 Link=1-3")). vm_compute. reflexivity.
Defined.

(** The set operations are the set operations: a version of a protocol, recognized or
    not, is supported by the union, intersection or difference of two well-formed sets exactly
    when it is in one of them, in both, or in the first and not the second. *)
Theorem protocols_algebra a b name ver : protocols_wf a → protocols_wf b → 0 ≤ ver →
  supports_subver (p_union a b) name ver = supports_subver a name ver || supports_subver b name ver ∧
  supports_subver (p_intersection a b) name ver = supports_subver a name ver && supports_subver b name ver ∧
  supports_subver (p_difference a b) name ver =
    supports_subver a name ver && negb (supports_subver b name ver).
Proof.
  intros Ha Hb Hv. rewrite !supports_subver_mask by done. unfold MAX_VER.
  destruct (Z.ltb_spec 63 ver); [done|].
  destruct (union_spec a b Ha Hb) as [_ ->], (intersection_spec a b Ha Hb) as [_ ->],
    (difference_spec a b Ha Hb) as [_ ->].
  rewrite Z.lor_spec, !Z.land_spec, testbit_not64 by lia. done.
Qed.

Lemma protocols_algebra_witness :
  ∃ a b, Protocols_from_str (str "Foo=2 Link=1-3") = Ok a ∧ Protocols_from_str (str "Foo=3 Link=3-4") = Ok b ∧
    supports_subver (p_union a b) (str "Foo") 3 = true ∧
    supports_subver (p_difference a b) (str "Link") 3 = false.
Proof.
  eexists _, _. split; [vm_compute; reflexivity|]. split; [vm_compute; reflexivity|].
  destruct (protocols_algebra _ _ (str "Foo") 3
    (parse_wf (str "Foo=2 Link=1-3") _ ltac:(vm_compute; reflexivity))
    (parse_wf (str "Foo=3 Link=3-4") _ ltac:(vm_compute; reflexivity)) ltac:(lia)) as (H1 & _ & _).
  split; [exact H1|]. vm_compute. reflexivity.
Defined.
