(* ===== verification/ExtList.v ===== *)
(** * ExtList: extension lists and circuit extensions

    [tor-cell/src/relaycell/extlist.rs] and [extend.rs]: the common format of extension lists,
    generic in the group of extensions that a message allows, and the groups sent with a circuit
    request and with its response, in a build without the feature [hs]. *)

From stdpp Require Import sorting.
From S2P Require Import Prelude Bytes Codec Protover.

(** ** Groups of extensions *)

Class ExtGroup (T : Type) : Type := {
  type_id : T → Z;
  ext_take_from : RD T;
  ext_write_onto : ∀ W, Writer W → T → W → res EncodeError W;
}.
Arguments ext_write_onto {T _ W _}.

(** [sort_by_key], which is stable. *)
Fixpoint insert_by_key {T} (key : T → Z) (x : T) (l : list T) : list T :=
  match l with
  | [] => [x]
  | y :: l => if key x <=? key y then x :: y :: l else y :: insert_by_key key x l
  end.
Definition sort_by_key {T} (key : T → Z) (l : list T) : list T := foldr (insert_by_key key) [] l.

Section ext_list.
Context {T : Type} `{!ExtGroup T}.

Definition ExtList_take_from : RD (list T) :=
  n_extensions ← take_u8;
  extract_n_loop (extract ext_take_from) (Z.to_nat n_extensions).

Definition ExtListRef_write_onto {W} `{!Writer W} (extensions : list T) (w : W) :
    res EncodeError W :=
  if Z.of_nat (length extensions) <=? u8_max then
    let w := write_u8 (Z.of_nat (length extensions)) w in
    let exts_sorted := sort_by_key type_id extensions in
    write_list ext_write_onto exts_sorted w
  else Err EncBadLengthValue.

Definition replace_by_type (ext : T) (extensions : list T) : list T :=
  filter (λ e, type_id e ≠ type_id ext) extensions ++ [ext].

(** [write_many_onto] and [decode] of a group. *)
Definition write_many_onto {W} `{!Writer W} (exts : list T) (out : W) : res EncodeError W :=
  ExtListRef_write_onto exts out.

Definition ext_decode (message : list Z) : res BytesError (list T) :=
  let '(r, exts) := extract ExtList_take_from (from_slice message) in
  exts ← exts;
  _ ← snd (should_be_exhausted r);
  Ok exts.
End ext_list.

(** ** Capabilities by number (tor-protover/src/lib.rs) *)

Record NumberedSubver : Type := mkNumbered { nu_kind : Z; nu_version : Z }.

#[export] Instance NumberedSubver_eq_dec : EqDecision NumberedSubver.
Proof. solve_decision. Defined.

Definition NumberedSubver_from (value : NamedSubver) : NumberedSubver :=
  mkNumbered (Z.of_nat (ns_kind value)) (ns_version value).

Definition NumberedSubver_take_from : RD NumberedSubver :=
  kind ← take_u8; version ← take_u8; mret (mkNumbered kind version).

Definition NumberedSubver_write_onto {W} `{!Writer W} (s : NumberedSubver) (w : W) :
    res EncodeError W :=
  Ok (write_u8 (nu_version s) (write_u8 (nu_kind s) w)).

Definition supports_numbered_subver (p : Protocols) (s : NumberedSubver) : bool :=
  supports_known_subver p (Z.to_nat (nu_kind s)) (nu_version s).

(** The derived order: by kind, then by version. *)
Definition numbered_lt (a b : NumberedSubver) : Prop :=
  nu_kind a < nu_kind b ∨ (nu_kind a = nu_kind b ∧ nu_version a < nu_version b).
Definition numbered_le (a b : NumberedSubver) : Prop := a = b ∨ numbered_lt a b.
#[export] Instance numbered_lt_dec a b : Decision (numbered_lt a b).
Proof. unfold numbered_lt. apply _. Defined.
#[export] Instance numbered_le_dec a b : Decision (numbered_le a b).
Proof. unfold numbered_le. apply _. Defined.

(** ** Circuit request extensions *)

Module CircRequestExtType.
Definition CC_REQUEST : Z := 1.
Definition SUBPROTOCOL_REQUEST : Z := 3.
End CircRequestExtType.

Module CircResponseExtType.
Definition CC_RESPONSE : Z := 2.
End CircResponseExtType.

Fixpoint is_strictly_ascending (vers : list NumberedSubver) : bool :=
  match vers with
  | a :: (b :: _) as l => bool_decide (numbered_lt a b) && is_strictly_ascending l
  | _ => true
  end.

(** [Vec::dedup]. *)
Fixpoint dedup (l : list NumberedSubver) : list NumberedSubver :=
  match l with
  | a :: (b :: _) as l => if decide (a = b) then dedup l else a :: dedup l
  | _ => l
  end.

(** [SubprotocolRequest::from_iter]. *)
Definition SubprotocolRequest_from (l : list NumberedSubver) : list NumberedSubver :=
  dedup (merge_sort numbered_le l).

Definition SubprotocolRequest_take_body_from : RD (list NumberedSubver) :=
  protocols ← while_remaining (extract NumberedSubver_take_from);
  if negb (is_strictly_ascending protocols)
  then rd_fail (InvalidMessage "SubprotocolRequest not sorted and deduplicated.")
  else mret protocols.

(** [SubprotocolRequest::contains]: the list is sorted, so that the binary search finds what it
    holds. *)
Definition subproto_contains (cap : NamedSubver) (protocols : list NumberedSubver) : bool :=
  bool_decide (NumberedSubver_from cap ∈ protocols).
Definition contains_only (supported : Protocols) (protocols : list NumberedSubver) : bool :=
  forallb (supports_numbered_subver supported) protocols.

Inductive CircRequestExt : Type :=
| CcRequest
| SubprotocolRequest (protocols : list NumberedSubver)
| ReqUnrecognized (tp : Z) (body : list Z).

Inductive CircResponseExt : Type :=
| CcResponse (sendme_inc : Z)
| RespUnrecognized (tp : Z) (body : list Z).

#[export] Instance CircRequestExt_eq_dec : EqDecision CircRequestExt.
Proof. solve_decision. Defined.
#[export] Instance CircResponseExt_eq_dec : EqDecision CircResponseExt.
Proof. solve_decision. Defined.

Definition req_type_id (e : CircRequestExt) : Z :=
  match e with
  | CcRequest => CircRequestExtType.CC_REQUEST
  | SubprotocolRequest _ => CircRequestExtType.SUBPROTOCOL_REQUEST
  | ReqUnrecognized tp _ => tp
  end.

Definition req_take_from : RD CircRequestExt :=
  tp ← take_u8;
  if tp =? CircRequestExtType.CC_REQUEST then read_nested_u8len (mret CcRequest)
  else if tp =? CircRequestExtType.SUBPROTOCOL_REQUEST
  then read_nested_u8len (l ← SubprotocolRequest_take_body_from; mret (SubprotocolRequest l))
  else read_nested_u8len (body ← take_rest; mret (ReqUnrecognized tp body)).

(** The body of an extension as it is written to the nested buffer. *)
Definition req_body (e : CircRequestExt) : res EncodeError (list Z) :=
  match e with
  | CcRequest => Ok []
  | SubprotocolRequest l => write_list NumberedSubver_write_onto l []
  | ReqUnrecognized _ body => Ok body
  end.

Definition req_write_onto {W} `{!Writer W} (e : CircRequestExt) (w : W) : res EncodeError W :=
  let w := write_u8 (req_type_id e) w in
  body ← req_body e;
  nested_finish 1 body w.

#[export] Instance circ_request_ext : ExtGroup CircRequestExt := {
  type_id := req_type_id; ext_take_from := req_take_from; ext_write_onto _ _ := req_write_onto }.

(** ** Circuit response extensions *)

Definition resp_type_id (e : CircResponseExt) : Z :=
  match e with CcResponse _ => CircResponseExtType.CC_RESPONSE | RespUnrecognized tp _ => tp end.

Definition resp_take_from : RD CircResponseExt :=
  tp ← take_u8;
  if tp =? CircResponseExtType.CC_RESPONSE
  then read_nested_u8len (sendme_inc ← take_u8; mret (CcResponse sendme_inc))
  else read_nested_u8len (body ← take_rest; mret (RespUnrecognized tp body)).

Definition resp_write_onto {W} `{!Writer W} (e : CircResponseExt) (w : W) : res EncodeError W :=
  let w := write_u8 (resp_type_id e) w in
  let body := match e with CcResponse inc => [inc] | RespUnrecognized _ body => body end in
  nested_finish 1 body w.

#[export] Instance circ_response_ext : ExtGroup CircResponseExt := {
  type_id := resp_type_id; ext_take_from := resp_take_from; ext_write_onto _ _ := resp_write_onto }.

(** ** Extension lists read back, sorted by type

    A group is lawful when every well-formed extension is written as bytes that are read back as
    the extension, whatever follows them, and when reading it never panics. *)

Class ExtLaws (T : Type) `{!ExtGroup T} : Type := {
  ext_wf : T → Prop;
  ext_bytes : T → list Z;
  ext_writes e (w : list Z) : ext_wf e → ext_write_onto e w = Ok (w ++ ext_bytes e);
  ext_reads e : ext_wf e → reads ext_take_from (ext_bytes e) e;
  ext_safe :: Safe (@ext_take_from T _);
}.

Lemma insert_by_key_perm {T} (key : T → Z) x l : insert_by_key key x l ≡ₚ x :: l.
Proof.
  induction l as [|y l IH]; simpl; [done|]. case_match; [done|]. rewrite IH. constructor.
Qed.

Lemma sort_by_key_perm {T} (key : T → Z) l : sort_by_key key l ≡ₚ l.
Proof.
  induction l as [|x l IH]; simpl; [done|]. rewrite insert_by_key_perm. by constructor.
Qed.

Lemma insert_by_key_sorted {T} (key : T → Z) x l :
  StronglySorted (λ a b, key a ≤ key b) l →
  StronglySorted (λ a b, key a ≤ key b) (insert_by_key key x l).
Proof.
  induction 1 as [|y l Hl IH Hy]; simpl; [by repeat constructor|].
  case_match; zify_bool.
  - constructor; [by constructor|]. constructor; [done|].
    eapply Forall_impl; [exact Hy|]. simpl. lia.
  - constructor; [done|]. rewrite insert_by_key_perm. constructor; [lia|done].
Qed.

Lemma sort_by_key_sorted {T} (key : T → Z) l :
  StronglySorted (λ a b, key a ≤ key b) (sort_by_key key l).
Proof. induction l; [constructor|]. by apply insert_by_key_sorted. Qed.

(** A list that is sorted already is written in its order. *)
Lemma sort_by_key_id {T} (key : T → Z) l :
  StronglySorted (λ a b, key a ≤ key b) l → sort_by_key key l = l.
Proof.
  induction 1 as [|x l Hl IH Hx]; simpl; [done|]. rewrite IH.
  destruct l as [|y l]; simpl; [done|]. inversion_clear Hx.
  by rewrite (proj2 (Z.leb_le _ _)).
Qed.

Section laws.
Context {T : Type} `{!ExtGroup T} `{!ExtLaws T}.

Lemma write_exts (l : list T) (w : list Z) :
  Forall ext_wf l → write_list ext_write_onto l w = Ok (w ++ mjoin (ext_bytes <$> l)).
Proof.
  intros Hl. revert w. induction Hl as [|e l He Hl IH]; intros w; simpl.
  - by rewrite app_nil_r.
  - rewrite ext_writes by done. simpl. by rewrite IH, <-(assoc_L app).
Qed.

Lemma reads_exts (l : list T) :
  Forall ext_wf l →
  reads (extract_n_loop (extract ext_take_from) (length l)) (mjoin (ext_bytes <$> l)) l.
Proof.
  induction 1 as [|e l He Hl IH]; simpl; [apply reads_ret|].
  eapply reads_bind; [by apply reads_extract, ext_reads|].
  eapply reads_bind_nil; [done|apply reads_ret].
Qed.

(** Every list of at most 255 well-formed extensions is written, and read back in the order of
    their types. *)
Lemma exts_roundtrip (exts : list T) :
  Forall ext_wf exts → Z.of_nat (length exts) ≤ u8_max →
  ∃ bs, write_many_onto exts [] = Ok bs ∧ ext_decode bs = Ok (sort_by_key type_id exts).
Proof.
  intros Hwf Hlen. unfold write_many_onto, ExtListRef_write_onto.
  rewrite (proj2 (Z.leb_le _ _)) by done.
  set (s := sort_by_key type_id exts).
  assert (Forall ext_wf s) as Hs by (unfold s; by rewrite sort_by_key_perm).
  assert (length s = length exts) as Hl by (apply Permutation_length, sort_by_key_perm).
  rewrite write_exts by done. eexists. split; [done|]. unfold ext_decode.
  change (write_u8 (Z.of_nat (length exts)) []) with [Z.of_nat (length exts)].
  assert (reads (extract ExtList_take_from)
    ([Z.of_nat (length exts)] ++ mjoin (ext_bytes <$> s)) s) as Hr.
  { apply reads_extract. eapply reads_bind; [apply reads_u8|].
    rewrite Nat2Z.id, <-Hl. by apply reads_exts. }
  specialize (Hr [] [] SupposedlyComplete). rewrite app_nil_r in Hr.
  unfold from_slice. simpl app in *. simpl length in Hr. rewrite Hr. simpl.
  unfold should_be_exhausted, remaining. simpl. by rewrite Nat.sub_diag.
Qed.

#[export] Instance safe_ext_list : Safe (ExtList_take_from (T := T)).
Proof. apply _. Qed.

Lemma ext_decode_safe message : ext_decode (T := T) message ≠ Panic.
Proof.
  unfold ext_decode.
  destruct (safe_extract (ExtList_take_from (T:=T)) _ (from_slice message)) as (Hp & _);
    [unfold rd_wf; simpl; lia|].
  destruct (extract _ _) as [r [l|e|]]; simpl; [|done..].
  unfold should_be_exhausted. by case_match.
Qed.
End laws.

(** ** The circuit extensions are lawful *)

Definition numbered_wf (s : NumberedSubver) : Prop :=
  in_uint u8_max (nu_kind s) ∧ in_uint u8_max (nu_version s).

Definition req_wf (e : CircRequestExt) : Prop :=
  match e with
  | CcRequest => True
  | SubprotocolRequest l => is_strictly_ascending l = true ∧ (length l ≤ 127)%nat
  | ReqUnrecognized tp body =>
      tp ∉ [CircRequestExtType.CC_REQUEST; CircRequestExtType.SUBPROTOCOL_REQUEST]
      ∧ (length body ≤ 255)%nat
  end.

Definition resp_wf (e : CircResponseExt) : Prop :=
  match e with
  | CcResponse _ => True
  | RespUnrecognized tp body => tp ≠ CircResponseExtType.CC_RESPONSE ∧ (length body ≤ 255)%nat
  end.

Fixpoint subvers_bytes (l : list NumberedSubver) : list Z :=
  match l with [] => [] | s :: l => nu_kind s :: nu_version s :: subvers_bytes l end.

Lemma length_subvers_bytes l : length (subvers_bytes l) = (2 * length l)%nat.
Proof. induction l; simpl; lia. Qed.

Lemma write_subvers l (w : list Z) :
  write_list NumberedSubver_write_onto l w = Ok (w ++ subvers_bytes l).
Proof.
  revert w. induction l as [|s l IH]; intros w; simpl; [by rewrite app_nil_r|].
  rewrite IH. unfold write_u8, write_all, vec_writer. by rewrite <-!(assoc_L app).
Qed.

Lemma reads_subvers l : reads_all (while_remaining (extract NumberedSubver_take_from)) (subvers_bytes l) l.
Proof.
  pose proof (write_subvers l []) as Hw.
  eapply (reads_while (extract NumberedSubver_take_from)) in Hw as (c & Hc & H);
    [simpl in *; by subst|].
  apply Forall_forall. intros [k v] _ w bs [= <-]. exists [k; v].
  split; [by unfold write_u8, write_all, vec_writer; rewrite <-(assoc_L app)|]. split; [done|].
  apply reads_extract. eapply (reads_bind _ _ [k] [v]); [apply reads_u8|].
  eapply reads_bind_nil; [apply reads_u8|apply reads_ret].
Qed.

Definition req_bytes (e : CircRequestExt) : list Z :=
  let body := match req_body e with Ok b => b | _ => [] end in
  req_type_id e :: Z.of_nat (length body) :: body.

(** An extension with a body of at most 255 bytes, written to a vector. *)
Lemma nested_u8_vec (tp : Z) (body w : list Z) :
  (length body ≤ 255)%nat →
  nested_finish 1 body (write_u8 tp w) = Ok (w ++ tp :: Z.of_nat (length body) :: body).
Proof.
  intros Hb. unfold nested_finish. rewrite (proj2 (Z.ltb_lt _ _)) by (simpl; lia).
  rewrite to_be_bytes_1 by lia. unfold write_u8, write_all, vec_writer.
  by rewrite <-!(assoc_L app).
Qed.

(** ... and read back by its type. *)
Lemma reads_u8_tagged {A} (f : Z → RD A) (g : RD A) tp body v :
  f tp = read_nested_u8len g → (length body ≤ 255)%nat → reads_all g body v →
  reads (take_u8 ≫= f) (tp :: Z.of_nat (length body) :: body) v.
Proof.
  intros Hf Hb Hg. eapply (reads_bind _ _ [tp] (_ :: body)); [apply reads_u8|]. rewrite Hf.
  change (Z.of_nat (length body) :: body) with ([Z.of_nat (length body)] ++ body).
  rewrite <-to_be_bytes_1 by lia. apply reads_nested_all; [|done].
  rewrite to_be_bytes_1 by lia. apply reads_u8.
Qed.

#[export] Instance safe_req_take_from : Safe req_take_from.
Proof.
  unfold req_take_from, read_nested_u8len, SubprotocolRequest_take_body_from,
    NumberedSubver_take_from. apply _.
Qed.

#[export] Instance safe_resp_take_from : Safe resp_take_from.
Proof. unfold resp_take_from, read_nested_u8len. apply _. Qed.

#[export, refine] Instance circ_request_laws : ExtLaws CircRequestExt := {
  ext_wf := req_wf; ext_bytes := req_bytes }.
Proof.
  - intros e w He. unfold ext_write_onto. simpl. unfold req_write_onto, req_bytes.
    destruct e as [|l|tp body]; simpl in *; [apply (nested_u8_vec _ []); simpl; lia| |apply nested_u8_vec; lia].
    rewrite write_subvers. simpl. apply nested_u8_vec. rewrite length_subvers_bytes. lia.
  - intros e He. unfold req_bytes. simpl. unfold req_take_from.
    destruct e as [|l|tp body]; simpl in *.
    + eapply (reads_u8_tagged _ _ _ []); [reflexivity|simpl; lia|apply reads_all_of, reads_ret].
    + destruct He as [Ha Hl]. rewrite write_subvers. simpl.
      eapply reads_u8_tagged; [reflexivity|rewrite length_subvers_bytes; lia|].
      eapply reads_all_bind_l; [|apply reads_ret].
      eapply reads_all_bind_l; [apply reads_subvers|]. rewrite Ha. apply reads_ret.
    + destruct He as [Ht Hl]. rewrite !not_elem_of_cons in Ht. destruct Ht as (H1 & H3 & _).
      eapply reads_u8_tagged; [by rewrite !(proj2 (Z.eqb_neq _ _))|done|].
      eapply reads_all_bind_l; [apply reads_rest|apply reads_ret].
Defined.

#[export, refine] Instance circ_response_laws : ExtLaws CircResponseExt := {
  ext_wf := resp_wf;
  ext_bytes e := let body := match e with CcResponse inc => [inc] | RespUnrecognized _ body => body end in
    resp_type_id e :: Z.of_nat (length body) :: body }.
Proof.
  - intros e w He. apply nested_u8_vec. destruct e; simpl in *; lia.
  - intros e He. simpl. unfold resp_take_from. destruct e as [inc|tp body]; simpl in *.
    + eapply (reads_u8_tagged _ _ _ [inc]); [reflexivity|simpl; lia|].
      apply reads_all_of. eapply reads_bind_nil; [apply reads_u8|apply reads_ret].
    + destruct He as [Ht Hl]. eapply reads_u8_tagged; [by rewrite (proj2 (Z.eqb_neq _ _))|done|].
      eapply reads_all_bind_l; [apply reads_rest|apply reads_ret].
Defined.
