(* ===== verification/RelayMsg.v ===== *)
(** * RelayMsg: relay message bodies of crate tor-cell

    The message types of [tor-cell/src/relaycell/msg.rs], [flow_ctrl.rs], [conflux.rs] and
    [udp.rs], each with the [Body] trait's pair of functions, and [AnyRelayMsg] as
    [restricted_msg!] declares it in a build with the optional features [conflux] and
    [experimental-udp] and without [hs], whose commands then decode as [Unrecognized].  Error
    texts leave out interpolated values. *)

From S2P Require Import Prelude Text Bytes Codec.

(** ** Commands (tor-cell/src/relaycell.rs) *)

Module RelayCmd.
Definition BEGIN : Z := 1.
Definition DATA : Z := 2.
Definition END : Z := 3.
Definition CONNECTED : Z := 4.
Definition SENDME : Z := 5.
Definition EXTEND : Z := 6.
Definition EXTENDED : Z := 7.
Definition TRUNCATE : Z := 8.
Definition TRUNCATED : Z := 9.
Definition DROP : Z := 10.
Definition RESOLVE : Z := 11.
Definition RESOLVED : Z := 12.
Definition BEGIN_DIR : Z := 13.
Definition EXTEND2 : Z := 14.
Definition EXTENDED2 : Z := 15.
Definition CONNECT_UDP : Z := 16.
Definition CONNECTED_UDP : Z := 17.
Definition DATAGRAM : Z := 18.
Definition CONFLUX_LINK : Z := 19.
Definition CONFLUX_LINKED : Z := 20.
Definition CONFLUX_LINKED_ACK : Z := 21.
Definition CONFLUX_SWITCH : Z := 22.
Definition ESTABLISH_INTRO : Z := 32.
Definition ESTABLISH_RENDEZVOUS : Z := 33.
Definition INTRODUCE1 : Z := 34.
Definition INTRODUCE2 : Z := 35.
Definition RENDEZVOUS1 : Z := 36.
Definition RENDEZVOUS2 : Z := 37.
Definition INTRO_ESTABLISHED : Z := 38.
Definition RENDEZVOUS_ESTABLISHED : Z := 39.
Definition INTRODUCE_ACK : Z := 40.
Definition PADDING_NEGOTIATE : Z := 41.
Definition PADDING_NEGOTIATED : Z := 42.
Definition XOFF : Z := 43.
Definition XON : Z := 44.
End RelayCmd.

(** ** Text *)

Definition is_ascii (l : list Z) : bool := forallb (λ x, x <? 128) l.

(** [core::str::from_utf8]. *)
Definition is_cont (x : Z) : bool := (128 <=? x) && (x <=? 191).
Fixpoint utf8_valid (l : list Z) : bool :=
  match l with
  | [] => true
  | a :: l1 =>
      if a <? 128 then utf8_valid l1
      else match l1 with
      | [] => false
      | b :: l2 =>
          if (194 <=? a) && (a <=? 223) then is_cont b && utf8_valid l2
          else match l2 with
          | [] => false
          | c :: l3 =>
              if (224 <=? a) && (a <=? 239) then
                is_cont b && is_cont c
                && negb ((a =? 224) && (b <? 160)) && negb ((a =? 237) && (160 <=? b))
                && utf8_valid l3
              else match l3 with
              | [] => false
              | d :: l4 =>
                  (240 <=? a) && (a <=? 244) && is_cont b && is_cont c && is_cont d
                  && negb ((a =? 240) && (b <? 144)) && negb ((a =? 244) && (144 <=? b))
                  && utf8_valid l4
              end
          end
      end
  end.

Definition parse_u16 (l : list Z) : option Z := parse_uint u16_max l.

(** [u16::to_string]: at most five digits. *)
Definition u16_to_string (x : Z) : list Z := dec_digits 5 x.

(** ** Begin *)

Module BeginFlags.
Definition IPV6_OKAY : Z := Z.shiftl 1 0.
Definition IPV4_NOT_OKAY : Z := Z.shiftl 1 1.
Definition IPV6_PREFERRED : Z := Z.shiftl 1 2.
(** [from_bits_truncate]. *)
Definition from_u32 (v : Z) : Z := Z.land v 7.
End BeginFlags.

Inductive IpVersionPreference : Type :=
| Ipv4Only | Ipv4Preferred | Ipv6Preferred | Ipv6Only.

Definition begin_flags_of_preference (v : IpVersionPreference) : Z :=
  match v with
  | Ipv4Only => BeginFlags.from_u32 0
  | Ipv4Preferred => BeginFlags.IPV6_OKAY
  | Ipv6Preferred => Z.lor BeginFlags.IPV6_OKAY BeginFlags.IPV6_PREFERRED
  | Ipv6Only => BeginFlags.IPV4_NOT_OKAY
  end.

Record Begin : Type := mkBegin { bg_addr : list Z; bg_port : Z; bg_flags : Z }.

Definition lower (x : Z) : Z := if (65 <=? x) && (x <=? 90) then x + 32 else x.

(** [Begin::new]; [None] is [BadStreamAddress]. *)
Definition Begin_new (addr : list Z) (port flags : Z) : option Begin :=
  if is_ascii addr then Some (mkBegin (map lower addr) port flags) else None.

(** [decode_from_reader] after the address. *)
Definition Begin_decode_rest (addr : list Z) : RD Begin :=
  port ← take_until 0;
  n ← rd_remaining;
  flags ← (if (4 <=? n)%nat then take_u32 else mret 0);
  if negb (is_ascii addr)
  then rd_fail (InvalidMessage "target address in begin cell not ascii")
  else if negb (utf8_valid port)
  then rd_fail (InvalidMessage "port in begin cell not utf8")
  else match parse_u16 port with
       | None => rd_fail (InvalidMessage "port in begin cell not a valid port")
       | Some p => mret (mkBegin addr p (BeginFlags.from_u32 flags))
       end.

Definition Begin_decode : RD Begin :=
  first ← (λ r, (r, peek 1 r) : Reader * res BytesError (list Z));
  addr ← (if decide (first = [91]) then
            _ ← advance 1;
            a ← take_until 93;
            colon ← take_u8;
            if colon =? 58 then mret a else rd_fail (InvalidMessage "missing port in begin cell")
          else take_until 58);
  Begin_decode_rest addr.

(** ** Data *)

Record Data : Type := mkData { dt_body : list Z }.

Definition CELL_DATA_LEN : nat := 509.
Definition Data_MAXLEN_V0 : nat := CELL_DATA_LEN - 11.
Definition Data_MAXLEN_V1 : nat := CELL_DATA_LEN - 21.
Definition Data_MAXLEN : nat := Data_MAXLEN_V0.

(** Relay cell formats (tor-cell/src/relaycell.rs). *)
Inductive RelayCellFormat : Type := FV0 | FV1.

Definition Data_max_body_len (format : RelayCellFormat) : nat :=
  match format with FV0 => Data_MAXLEN_V0 | FV1 => Data_MAXLEN_V1 end.

Inductive CellError : Type := CantEncode (msg : string).

(** [Data::new_unchecked] with its [debug_assert!]. *)
Definition Data_new_unchecked {E} (body : list Z) : res E Data :=
  _ ← debug_assert ((1 <=? length body)%nat && (length body <=? Data_MAXLEN)%nat);
  Ok (mkData body).

Definition Data_new (inp : list Z) : res CellError Data :=
  if (Data_MAXLEN <? length inp)%nat then Err (CantEncode "Data message too long")
  else if (length inp =? 0)%nat then Err (CantEncode "Empty data message")
  else Data_new_unchecked inp.

Definition Data_try_split_from {E} (version : RelayCellFormat) (inp : list Z) :
    res E (option (Data * list Z)) :=
  if (length inp =? 0)%nat then Ok None
  else
    let len := Nat.min (length inp) (Data_max_body_len version) in
    d ← Data_new_unchecked (take len inp);
    Ok (Some (d, drop len inp)).

Definition Data_decode : RD Data :=
  n ← rd_remaining;
  if (n =? 0)%nat then rd_fail (InvalidMessage "Empty DATA message")
  else b ← rd_take n; mret (mkData b).

(** ** End *)

Module EndReason.
Definition MISC : Z := 1.
Definition EXITPOLICY : Z := 4.
Definition RESOURCELIMIT : Z := 11.
End EndReason.

Record End' : Type := mkEnd { en_reason : Z; en_addr : option (IpAddr * Z) }.

Definition End_new_misc : End' := mkEnd EndReason.MISC None.
Definition End_new_with_reason (reason : Z) : End' := mkEnd reason None.
Definition End_new_exitpolicy (addr : IpAddr) (ttl : Z) : End' :=
  mkEnd EndReason.EXITPOLICY (Some (addr, ttl)).

Definition End_decode : RD End' :=
  n ← rd_remaining;
  if (n =? 0)%nat then mret (mkEnd EndReason.MISC None)
  else
    reason ← take_u8;
    if reason =? EndReason.EXITPOLICY then
      n ← rd_remaining;
      if (n =? 4)%nat || (n =? 8)%nat || (n =? 16)%nat || (n =? 20)%nat then
        addr ← (if (n =? 4)%nat || (n =? 8)%nat
                then a ← extract take_ipv4; mret (V4 a)
                else a ← extract take_ipv6; mret (V6 a));
        m ← rd_remaining;
        ttl ← (if (m =? 4)%nat then take_u32 else mret u32_max);
        mret (mkEnd reason (Some (addr, ttl)))
      else mret (mkEnd reason None)
    else mret (mkEnd reason None).

(** ** Connected *)

Record Connected : Type := mkConnected { cn_addr : option (IpAddr * Z) }.

Definition Connected_new_empty : Connected := mkConnected None.
Definition Connected_new_with_addr (addr : IpAddr) (ttl : Z) : Connected :=
  mkConnected (Some (addr, ttl)).

Definition Connected_decode : RD Connected :=
  n ← rd_remaining;
  if (n =? 0)%nat then mret (mkConnected None)
  else
    ipv4 ← take_u32;
    addr ← (if ipv4 =? 0 then
              t ← take_u8;
              if t =? 6 then a ← extract take_ipv6; mret (V6 a)
              else rd_fail (InvalidMessage "Invalid address type in CONNECTED cell")
            else mret (V4 ipv4));
    ttl ← take_u32;
    mret (mkConnected (Some (addr, ttl))).

(** ** Sendme *)

Record SendmeTag : Type := mkSendmeTag { tg_len : Z; tg_tag : list Z }.

#[export] Instance SendmeTag_eq_dec : EqDecision SendmeTag.
Proof. solve_decision. Defined.

(** The conversions from arrays of 20 and of 16 bytes. *)
Definition SendmeTag_from20 (value : list Z) : SendmeTag := mkSendmeTag 20 value.
Definition SendmeTag_from16 (value : list Z) : SendmeTag :=
  mkSendmeTag 16 (value ++ replicate 4 0).
Definition SendmeTag_as_ref (t : SendmeTag) : list Z := take (Z.to_nat (tg_len t)) (tg_tag t).

Definition SendmeTag_try_from (value : list Z) : res BytesError SendmeTag :=
  if (length value =? 16)%nat then Ok (SendmeTag_from16 value)
  else if (length value =? 20)%nat then Ok (SendmeTag_from20 value)
  else Err BadLengthValue.

Record Sendme : Type := mkSendme { sm_tag : option SendmeTag }.

Definition Sendme_decode : RD Sendme :=
  n ← rd_remaining;
  if (n =? 0)%nat then mret (mkSendme None)
  else
    ver ← take_u8;
    if ver =? 0 then mret (mkSendme None)
    else if ver =? 1 then
      dlen ← take_u16;
      b ← rd_take (Z.to_nat dlen);
      t ← rd_lift (SendmeTag_try_from b);
      mret (mkSendme (Some t))
    else rd_fail (InvalidMessage "Unrecognized SENDME version.").

(** ** Extend, Extended, Extend2, Extended2 *)

Definition TAP_C_HANDSHAKE_LEN : nat := 128 + 16 + 42.
Definition TAP_S_HANDSHAKE_LEN : nat := 128 + 20.
Definition RSA_ID_LEN : nat := 20.

Record Extend : Type := mkExtend {
  ex_addr : Z; ex_port : Z; ex_handshake : list Z; ex_rsaid : list Z }.

Definition Extend_decode : RD Extend :=
  addr ← extract take_ipv4;
  port ← take_u16;
  handshake ← rd_take TAP_C_HANDSHAKE_LEN;
  rsaid ← extract (rd_take RSA_ID_LEN);
  mret (mkExtend addr port handshake rsaid).

Record Extended : Type := mkExtended { exd_handshake : list Z }.

Definition Extended_decode : RD Extended :=
  handshake ← rd_take TAP_S_HANDSHAKE_LEN; mret (mkExtended handshake).

(** Encoded link specifiers (tor-linkspec/src/ls.rs). *)
Record EncodedLinkSpec : Type := mkEncodedLinkSpec { ls_type : Z; ls_body : list Z }.

Definition EncodedLinkSpec_take_from : RD EncodedLinkSpec :=
  lstype ← take_u8;
  read_nested_u8len (body ← take_rest; mret (mkEncodedLinkSpec lstype body)).

Record Extend2 : Type := mkExtend2 {
  e2_linkspec : list EncodedLinkSpec; e2_handshake_type : Z; e2_handshake : list Z }.

Definition Extend2_decode : RD Extend2 :=
  n ← take_u8;
  linkspec ← extract_n EncodedLinkSpec_take_from (Z.to_nat n);
  handshake_type ← take_u16;
  hlen ← take_u16;
  handshake ← rd_take (Z.to_nat hlen);
  mret (mkExtend2 linkspec handshake_type handshake).

Record Extended2 : Type := mkExtended2 { e2d_handshake : list Z }.

Definition Extended2_decode : RD Extended2 :=
  hlen ← take_u16; handshake ← rd_take (Z.to_nat hlen); mret (mkExtended2 handshake).

(** ** Truncated, Resolve *)

Record Truncated' : Type := mkTruncated { tr_reason : Z }.

Definition Truncated_decode : RD Truncated' := reason ← take_u8; mret (mkTruncated reason).

Record Resolve : Type := mkResolve { rs_query : list Z }.

Definition Resolve_decode : RD Resolve := query ← take_until 0; mret (mkResolve query).

(** ** Resolved *)

Inductive ResolvedVal : Type :=
| RvIp (a : IpAddr)
| RvHostname (h : list Z)
| RvTransientError
| RvNontransientError
| RvUnrecognized (tp : Z) (v : list Z).

Definition RES_HOSTNAME : Z := 0.
Definition RES_IPV4 : Z := 4.
Definition RES_IPV6 : Z := 6.
Definition RES_ERR_TRANSIENT : Z := 240.
Definition RES_ERR_NONTRANSIENT : Z := 241.

Definition res_len (tp : Z) : option Z :=
  if tp =? RES_IPV4 then Some 4 else if tp =? RES_IPV6 then Some 16 else None.

Definition ResolvedVal_take_from : RD ResolvedVal :=
  tp ← take_u8;
  len ← take_u8;
  if match res_len tp with Some expected_len => negb (len =? expected_len) | None => false end
  then rd_fail (InvalidMessage "Wrong length for RESOLVED answer")
  else if tp =? RES_HOSTNAME then h ← rd_take (Z.to_nat len); mret (RvHostname h)
  else if tp =? RES_IPV4 then a ← extract take_ipv4; mret (RvIp (V4 a))
  else if tp =? RES_IPV6 then a ← extract take_ipv6; mret (RvIp (V6 a))
  else if tp =? RES_ERR_TRANSIENT then _ ← advance (Z.to_nat len); mret RvTransientError
  else if tp =? RES_ERR_NONTRANSIENT then _ ← advance (Z.to_nat len); mret RvNontransientError
  else v ← rd_take (Z.to_nat len); mret (RvUnrecognized tp v).

Record Resolved : Type := mkResolved { rv_answers : list (ResolvedVal * Z) }.

Definition Resolved_new_empty : Resolved := mkResolved [].
Definition Resolved_add_answer (answer : ResolvedVal) (ttl : Z) (r : Resolved) : Resolved :=
  mkResolved (rv_answers r ++ [(answer, ttl)]).
Definition Resolved_new_err (transient : bool) (ttl : Z) : Resolved :=
  Resolved_add_answer (if transient then RvTransientError else RvNontransientError) ttl
    Resolved_new_empty.

Definition Resolved_decode : RD Resolved :=
  answers ← while_remaining (
    rv ← extract ResolvedVal_take_from;
    ttl ← take_u32;
    mret (rv, ttl));
  mret (mkResolved answers).

(** ** XON and XOFF (tor-cell/src/relaycell/flow_ctrl.rs) *)

Inductive XonKbpsEwma : Type := Limited (rate : Z) | Unlimited.

Definition XonKbpsEwma_decode (kbps_ewma : Z) : XonKbpsEwma :=
  if kbps_ewma =? 0 then Unlimited else Limited kbps_ewma.
Definition XonKbpsEwma_encode (x : XonKbpsEwma) : Z :=
  match x with Limited x => x | Unlimited => 0 end.

(** [FlowCtrlVersion::new]; [None] is [UnrecognizedVersionError]. *)
Definition FlowCtrlVersion_new (version : Z) : option Z :=
  if version =? 0 then Some version else None.

Record Xon : Type := mkXon { xon_version : Z; xon_kbps_ewma : XonKbpsEwma }.
Record Xoff : Type := mkXoff { xoff_version : Z }.

Definition Xon_decode : RD Xon :=
  version ← take_u8;
  match FlowCtrlVersion_new version with
  | None => rd_fail (InvalidMessage "Unrecognized XON version.")
  | Some version => k ← take_u32; mret (mkXon version (XonKbpsEwma_decode k))
  end.

Definition Xoff_decode : RD Xoff :=
  version ← take_u8;
  match FlowCtrlVersion_new version with
  | None => rd_fail (InvalidMessage "Unrecognized XOFF version.")
  | Some version => mret (mkXoff version)
  end.

(** ** Conflux (tor-cell/src/relaycell/conflux.rs) *)

Definition CONFLUX_LINK_VERSION : Z := 1.
Definition V1_LINK_NONCE_LEN : nat := 32.

Module V1DesiredUx.
Definition NO_OPINION : Z := 0.
Definition MIN_LATENCY : Z := 1.
Definition LOW_MEM_LATENCY : Z := 2.
Definition HIGH_THROUGHPUT : Z := 3.
Definition LOW_MEM_THROUGHPUT : Z := 4.
End V1DesiredUx.

Record V1LinkPayload : Type := mkV1LinkPayload {
  lp_nonce : list Z; lp_last_seqno_sent : Z; lp_last_seqno_recv : Z; lp_desired_ux : Z }.

Definition V1LinkPayload_new (nonce : list Z) (desired_ux : Z) : V1LinkPayload :=
  mkV1LinkPayload nonce 0 0 desired_ux.

(** The body shared by [ConfluxLink] and [ConfluxLinked]. *)
Record Link : Type := mkLink { lk_version : Z; lk_payload : V1LinkPayload }.

Definition Link_new (payload : V1LinkPayload) : Link := mkLink CONFLUX_LINK_VERSION payload.

Definition V1LinkPayload_decode : RD V1LinkPayload :=
  nonce ← extract (take_array V1_LINK_NONCE_LEN);
  last_seqno_sent ← take_u64;
  last_seqno_recv ← take_u64;
  desired_ux ← take_u8;
  mret (mkV1LinkPayload nonce last_seqno_sent last_seqno_recv desired_ux).

Definition Link_decode : RD Link :=
  version ← take_u8;
  if negb (version =? CONFLUX_LINK_VERSION)
  then rd_fail (InvalidMessage "Unrecognized CONFLUX_LINK/CONFLUX_LINKED version.")
  else payload ← V1LinkPayload_decode; mret (mkLink version payload).

Record ConfluxSwitch : Type := mkConfluxSwitch { sw_seqno : Z }.

Definition ConfluxSwitch_decode : RD ConfluxSwitch := seqno ← take_u32; mret (mkConfluxSwitch seqno).

(** ** UDP (tor-cell/src/relaycell/udp.rs) *)

Definition T_HOSTNAME : Z := 1.
Definition T_IPV4 : Z := 4.
Definition T_IPV6 : Z := 6.

Inductive Address : Type := AdHostname (h : list Z) | AdIp (a : IpAddr).

Definition is_hostname (a : Address) : bool := match a with AdHostname _ => true | _ => false end.
Definition wire_addr_type (a : Address) : Z :=
  match a with AdHostname _ => T_HOSTNAME | AdIp (V4 _) => T_IPV4 | AdIp (V6 _) => T_IPV6 end.

Definition Address_take_from : RD Address :=
  addr_type ← take_u8;
  read_nested_u8len
    (if addr_type =? T_HOSTNAME then h ← take_rest; mret (AdHostname h)
     else if addr_type =? T_IPV4 then a ← extract take_ipv4; mret (AdIp (V4 a))
     else if addr_type =? T_IPV6 then a ← extract take_ipv6; mret (AdIp (V6 a))
     else rd_fail (InvalidMessage "Invalid address type")).

Record AddressPort : Type := mkAddressPort { ap_addr : Address; ap_port : Z }.

Definition AddressPort_take_from : RD AddressPort :=
  addr ← extract Address_take_from; port ← take_u16; mret (mkAddressPort addr port).

Record ConnectUdp : Type := mkConnectUdp { cu_flags : Z; cu_addr : AddressPort }.

Definition ConnectUdp_decode : RD ConnectUdp :=
  flags ← take_u32; addr ← extract AddressPort_take_from;
  mret (mkConnectUdp (BeginFlags.from_u32 flags) addr).

Record ConnectedUdp : Type := mkConnectedUdp { cdu_ours : AddressPort; cdu_theirs : AddressPort }.

Definition ConnectedUdp_decode : RD ConnectedUdp :=
  our_address ← extract AddressPort_take_from;
  if is_hostname (ap_addr our_address) then rd_fail (InvalidMessage "Our address is a Hostname")
  else
    their_address ← extract AddressPort_take_from;
    if is_hostname (ap_addr their_address)
    then rd_fail (InvalidMessage "Their address is a Hostname")
    else mret (mkConnectedUdp our_address their_address).

Record Datagram : Type := mkDatagram { dg_body : list Z }.

Definition Datagram_new (inp : list Z) : res CellError Datagram :=
  if (Data_MAXLEN_V0 <? length inp)%nat then Err (CantEncode "Datagram too long")
  else Ok (mkDatagram inp).

Definition Datagram_decode : RD Datagram :=
  n ← rd_remaining; b ← rd_take n; mret (mkDatagram b).

(** ** Any message *)

Inductive AnyRelayMsg : Type :=
| ABegin (m : Begin)
| AData (m : Data)
| AEnd (m : End')
| AConnected (m : Connected)
| ASendme (m : Sendme)
| AExtend (m : Extend)
| AExtended (m : Extended)
| AExtend2 (m : Extend2)
| AExtended2 (m : Extended2)
| ATruncate
| ATruncated (m : Truncated')
| ADrop
| AResolve (m : Resolve)
| AResolved (m : Resolved)
| ABeginDir
| AConnectUdp (m : ConnectUdp)
| AConnectedUdp (m : ConnectedUdp)
| ADatagram (m : Datagram)
| AConfluxLink (m : Link)
| AConfluxLinked (m : Link)
| AConfluxLinkedAck
| AConfluxSwitch (m : ConfluxSwitch)
| AXon (m : Xon)
| AXoff (m : Xoff)
| AUnrecognized (cmd : Z) (body : list Z).

Definition msg_cmd (m : AnyRelayMsg) : Z :=
  match m with
  | ABegin _ => RelayCmd.BEGIN
  | AData _ => RelayCmd.DATA
  | AEnd _ => RelayCmd.END
  | AConnected _ => RelayCmd.CONNECTED
  | ASendme _ => RelayCmd.SENDME
  | AExtend _ => RelayCmd.EXTEND
  | AExtended _ => RelayCmd.EXTENDED
  | AExtend2 _ => RelayCmd.EXTEND2
  | AExtended2 _ => RelayCmd.EXTENDED2
  | ATruncate => RelayCmd.TRUNCATE
  | ATruncated _ => RelayCmd.TRUNCATED
  | ADrop => RelayCmd.DROP
  | AResolve _ => RelayCmd.RESOLVE
  | AResolved _ => RelayCmd.RESOLVED
  | ABeginDir => RelayCmd.BEGIN_DIR
  | AConnectUdp _ => RelayCmd.CONNECT_UDP
  | AConnectedUdp _ => RelayCmd.CONNECTED_UDP
  | ADatagram _ => RelayCmd.DATAGRAM
  | AConfluxLink _ => RelayCmd.CONFLUX_LINK
  | AConfluxLinked _ => RelayCmd.CONFLUX_LINKED
  | AConfluxLinkedAck => RelayCmd.CONFLUX_LINKED_ACK
  | AConfluxSwitch _ => RelayCmd.CONFLUX_SWITCH
  | AXon _ => RelayCmd.XON
  | AXoff _ => RelayCmd.XOFF
  | AUnrecognized cmd _ => cmd
  end.

Definition Unrecognized_decode (cmd : Z) : RD AnyRelayMsg :=
  n ← rd_remaining; b ← rd_take n; mret (AUnrecognized cmd b).

Definition decode_from_reader (cmd : Z) : RD AnyRelayMsg :=
  if cmd =? RelayCmd.BEGIN then m ← Begin_decode; mret (ABegin m)
  else if cmd =? RelayCmd.DATA then m ← Data_decode; mret (AData m)
  else if cmd =? RelayCmd.END then m ← End_decode; mret (AEnd m)
  else if cmd =? RelayCmd.CONNECTED then m ← Connected_decode; mret (AConnected m)
  else if cmd =? RelayCmd.SENDME then m ← Sendme_decode; mret (ASendme m)
  else if cmd =? RelayCmd.EXTEND then m ← Extend_decode; mret (AExtend m)
  else if cmd =? RelayCmd.EXTENDED then m ← Extended_decode; mret (AExtended m)
  else if cmd =? RelayCmd.EXTEND2 then m ← Extend2_decode; mret (AExtend2 m)
  else if cmd =? RelayCmd.EXTENDED2 then m ← Extended2_decode; mret (AExtended2 m)
  else if cmd =? RelayCmd.TRUNCATE then mret ATruncate
  else if cmd =? RelayCmd.TRUNCATED then m ← Truncated_decode; mret (ATruncated m)
  else if cmd =? RelayCmd.DROP then mret ADrop
  else if cmd =? RelayCmd.RESOLVE then m ← Resolve_decode; mret (AResolve m)
  else if cmd =? RelayCmd.RESOLVED then m ← Resolved_decode; mret (AResolved m)
  else if cmd =? RelayCmd.BEGIN_DIR then mret ABeginDir
  else if cmd =? RelayCmd.CONNECT_UDP then m ← ConnectUdp_decode; mret (AConnectUdp m)
  else if cmd =? RelayCmd.CONNECTED_UDP then m ← ConnectedUdp_decode; mret (AConnectedUdp m)
  else if cmd =? RelayCmd.DATAGRAM then m ← Datagram_decode; mret (ADatagram m)
  else if cmd =? RelayCmd.CONFLUX_LINK then m ← Link_decode; mret (AConfluxLink m)
  else if cmd =? RelayCmd.CONFLUX_LINKED then m ← Link_decode; mret (AConfluxLinked m)
  else if cmd =? RelayCmd.CONFLUX_LINKED_ACK then mret AConfluxLinkedAck
  else if cmd =? RelayCmd.CONFLUX_SWITCH then m ← ConfluxSwitch_decode; mret (AConfluxSwitch m)
  else if cmd =? RelayCmd.XON then m ← Xon_decode; mret (AXon m)
  else if cmd =? RelayCmd.XOFF then m ← Xoff_decode; mret (AXoff m)
  else Unrecognized_decode cmd.

(** ** Encoders

    [encode_onto] of each body, over any [Writer].  The callers drop the writer when an encoder
    fails, so an error carries none. *)

Section encode.
Context {W : Type} `{!Writer W}.

Definition contains (x : Z) (l : list Z) : bool := existsb (Z.eqb x) l.

Definition Begin_encode (m : Begin) (w : W) : res EncodeError W :=
  let w := if contains 58 (bg_addr m)
           then write_u8 93 (write_all (bg_addr m) (write_u8 91 w))
           else write_all (bg_addr m) w in
  let w := write_u8 58 w in
  let w := write_all (u16_to_string (bg_port m)) w in
  let w := write_u8 0 w in
  Ok (if bg_flags m =? 0 then w else write_u32 (bg_flags m) w).

Definition End_encode (m : End') (w : W) : res EncodeError W :=
  let w := write_u8 (en_reason m) w in
  match en_addr m with
  | Some (addr, ttl) =>
      if en_reason m =? EndReason.EXITPOLICY then Ok (write_u32 ttl (write_ip addr w)) else Ok w
  | None => Ok w
  end.

Definition Connected_encode (m : Connected) (w : W) : res EncodeError W :=
  match cn_addr m with
  | None => Ok w
  | Some (V4 a, ttl) => Ok (write_u32 ttl (write_ip (V4 a) w))
  | Some (V6 a, ttl) => Ok (write_u32 ttl (write_ip (V6 a) (write_u8 6 (write_u32 0 w))))
  end.

Definition Sendme_encode (m : Sendme) (w : W) : res EncodeError W :=
  match sm_tag m with
  | None => Ok w
  | Some x => write_counted 2 (SendmeTag_as_ref x) (write_u8 1 w)
  end.

Definition Extend_encode (m : Extend) (w : W) : res EncodeError W :=
  let w := write_all (to_be_bytes 4 (ex_addr m)) w in
  let w := write_u16 (ex_port m) w in
  let w := write_all (ex_handshake m) w in
  Ok (write_all (ex_rsaid m) w).

Definition EncodedLinkSpec_write_onto (ls : EncodedLinkSpec) (w : W) : res EncodeError W :=
  nested_finish 1 (ls_body ls) (write_u8 (ls_type ls) w).

Definition Extend2_encode (m : Extend2) (w : W) : res EncodeError W :=
  if Z.of_nat (length (e2_linkspec m)) <=? u8_max then
    let w := write_u8 (Z.of_nat (length (e2_linkspec m))) w in
    w ← write_list EncodedLinkSpec_write_onto (e2_linkspec m) w;
    let w := write_u16 (e2_handshake_type m) w in
    write_counted 2 (e2_handshake m) w
  else Err EncBadLengthValue.

Definition ResolvedVal_write_onto (v : ResolvedVal) (w : W) : res EncodeError W :=
  match v with
  | RvHostname h => write_counted 1 h (write_u8 RES_HOSTNAME w)
  | RvIp (V4 a) => Ok (write_ip (V4 a) (write_u8 4 (write_u8 RES_IPV4 w)))
  | RvIp (V6 a) => Ok (write_ip (V6 a) (write_u8 16 (write_u8 RES_IPV6 w)))
  | RvTransientError => Ok (write_u8 0 (write_u8 RES_ERR_TRANSIENT w))
  | RvNontransientError => Ok (write_u8 0 (write_u8 RES_ERR_NONTRANSIENT w))
  | RvUnrecognized tp v => write_counted 1 v (write_u8 tp w)
  end.

Definition Resolved_encode (m : Resolved) (w : W) : res EncodeError W :=
  write_list (λ '(rv, ttl) w, w ← ResolvedVal_write_onto rv w; Ok (write_u32 ttl w))
    (rv_answers m) w.

Definition Xon_encode (m : Xon) (w : W) : res EncodeError W :=
  Ok (write_u32 (XonKbpsEwma_encode (xon_kbps_ewma m)) (write_u8 (xon_version m) w)).

Definition V1LinkPayload_encode (m : V1LinkPayload) (w : W) : res EncodeError W :=
  let w := write_all (lp_nonce m) w in
  let w := write_u64 (lp_last_seqno_sent m) w in
  let w := write_u64 (lp_last_seqno_recv m) w in
  Ok (write_u8 (lp_desired_ux m) w).

Definition Link_encode (m : Link) (w : W) : res EncodeError W :=
  V1LinkPayload_encode (lk_payload m) (write_u8 (lk_version m) w).

Definition Address_write_onto (a : Address) (w : W) : res EncodeError W :=
  let inner := match a with AdHostname h => h | AdIp ip => write_ip ip [] end in
  nested_finish 1 inner (write_u8 (wire_addr_type a) w).

Definition AddressPort_write_onto (a : AddressPort) (w : W) : res EncodeError W :=
  w ← Address_write_onto (ap_addr a) w; Ok (write_u16 (ap_port a) w).

Definition ConnectUdp_encode (m : ConnectUdp) (w : W) : res EncodeError W :=
  AddressPort_write_onto (cu_addr m) (write_u32 (cu_flags m) w).

Definition ConnectedUdp_encode (m : ConnectedUdp) (w : W) : res EncodeError W :=
  w ← AddressPort_write_onto (cdu_ours m) w; AddressPort_write_onto (cdu_theirs m) w.

Definition encode_onto (m : AnyRelayMsg) (w : W) : res EncodeError W :=
  match m with
  | ABegin m => Begin_encode m w
  | AData m => Ok (write_all (dt_body m) w)
  | AEnd m => End_encode m w
  | AConnected m => Connected_encode m w
  | ASendme m => Sendme_encode m w
  | AExtend m => Extend_encode m w
  | AExtended m => Ok (write_all (exd_handshake m) w)
  | AExtend2 m => Extend2_encode m w
  | AExtended2 m => write_counted 2 (e2d_handshake m) w
  | ATruncate => Ok w
  | ATruncated m => Ok (write_u8 (tr_reason m) w)
  | ADrop => Ok w
  | AResolve m => Ok (write_u8 0 (write_all (rs_query m) w))
  | AResolved m => Resolved_encode m w
  | ABeginDir => Ok w
  | AConnectUdp m => ConnectUdp_encode m w
  | AConnectedUdp m => ConnectedUdp_encode m w
  | ADatagram m => Ok (write_all (dg_body m) w)
  | AConfluxLink m => Link_encode m w
  | AConfluxLinked m => Link_encode m w
  | AConfluxLinkedAck => Ok w
  | AConfluxSwitch m => Ok (write_u32 (sw_seqno m) w)
  | AXon m => Xon_encode m w
  | AXoff m => Ok (write_u8 (xoff_version m) w)
  | AUnrecognized _ body => Ok (write_all body w)
  end.
End encode.

(** ** An encoder writes the same bytes to every writer *)

Section simulation.
Context {W1 W2 : Type} `{!Writer W1, !Writer W2} (R : W1 → W2 → Prop) `{!WriterSim R}.

Lemma sim_resolved_val v w1 w2 :
  R w1 w2 → sim R (ResolvedVal_write_onto v w1) (ResolvedVal_write_onto v w2).
Proof.
  intros. destruct v as [[a|a]|h| | |tp v]; simpl;
    first [ apply sim_counted | idtac ]; unfold write_u8; sim_solve.
Qed.

Lemma sim_address_port a w1 w2 :
  R w1 w2 → sim R (AddressPort_write_onto a w1) (AddressPort_write_onto a w2).
Proof.
  intros. unfold AddressPort_write_onto, Address_write_onto, write_u8, write_u16.
  apply sim_bind; [apply (sim_nested R); by apply sim_write|intros; sim_solve].
Qed.

Lemma sim_encode m w1 w2 : R w1 w2 → sim R (encode_onto m w1) (encode_onto m w2).
Proof.
  intros HR.
  destruct m as [b|d|e|c|s|e|e|e|e| |t| |r|r| |u|u|d|l|l| |sw|x|x|cmd b]; simpl;
    unfold Begin_encode, End_encode, Connected_encode, Sendme_encode, Extend_encode,
      Extend2_encode, Resolved_encode, Xon_encode, Link_encode, V1LinkPayload_encode, write_ip,
      write_u8, write_u16, write_u32, write_u64;
    try by sim_solve.
  - destruct (sm_tag s); [apply sim_counted|]; sim_solve.
  - case_match; [|done]. apply sim_bind.
    + apply sim_list; [|by apply sim_write]. intros. unfold EncodedLinkSpec_write_onto, nested_finish, write_u8.
      sim_solve.
    + intros. apply (sim_counted R). by apply sim_write.
  - by apply sim_counted.
  - apply sim_list; [|done]. intros [rv ttl] v1 v2 Hv. apply sim_bind; [by apply sim_resolved_val|].
    intros. sim_solve.
  - apply sim_address_port. by apply sim_write.
  - apply sim_bind; [by apply sim_address_port|]. intros. by apply sim_address_port.
Qed.
End simulation.

(** Writing to a vector appends. *)
Lemma encode_vec m (bs w : list Z) :
  encode_onto m [] = Ok bs → encode_onto m w = Ok (w ++ bs).
Proof.
  intros Hm.
  assert (Hs : sim (λ w1 w2 : list Z, w2 = w ++ w1) (encode_onto m []) (encode_onto m w)).
  { apply sim_encode; [|by rewrite app_nil_r].
    intros c w1 w2 ->. unfold write_all, vec_writer. by rewrite (assoc_L app). }
  rewrite Hm in Hs.
  destruct (encode_onto m w); simpl in Hs; [by subst|done..].
Qed.

(** ** Decimal ports *)

Lemma u16_string_spec x :
  in_uint u16_max x →
  parse_u16 (u16_to_string x) = Some x ∧ utf8_valid (u16_to_string x) = true ∧
  0 ∉ u16_to_string x.
Proof.
  intros Hx. unfold in_uint, u16_max in Hx. unfold u16_to_string.
  destruct (dec_digits_spec u16_max 5 x) as (H1 & _ & _); [lia|simpl; lia|].
  split; [|split].
  - apply parse_uint_dec; [lia|simpl; lia|unfold u16_max; lia].
  - revert H1. generalize (dec_digits 5 x). clear.
    induction l as [|d l IH]; [done|]. inversion 1 as [|?? Hd Hl]; subst.
    unfold is_digit in Hd. cbn [utf8_valid]. rewrite (proj2 (Z.ltb_lt _ _)) by lia. auto.
  - rewrite Forall_forall in H1. intros Hin. specialize (H1 _ Hin). unfold is_digit in H1. lia.
Qed.

Definition tag_wf (t : SendmeTag) : Prop :=
  (tg_len t = 20 ∧ length (tg_tag t) = 20%nat) ∨
  (tg_len t = 16 ∧ length (tg_tag t) = 20%nat ∧ drop 16 (tg_tag t) = replicate 4 0).

Definition resolved_val_wf (v : ResolvedVal) : Prop :=
  match v with
  | RvIp a => ip_wf a
  | RvUnrecognized tp _ =>
      tp ∉ [RES_HOSTNAME; RES_IPV4; RES_IPV6; RES_ERR_TRANSIENT; RES_ERR_NONTRANSIENT]
  | _ => True
  end.

Definition link_wf (m : Link) : Prop :=
  lk_version m = CONFLUX_LINK_VERSION ∧ length (lp_nonce (lk_payload m)) = V1_LINK_NONCE_LEN ∧
  in_uint u64_max (lp_last_seqno_sent (lk_payload m)) ∧
  in_uint u64_max (lp_last_seqno_recv (lk_payload m)).

Definition address_port_wf (a : AddressPort) : Prop :=
  in_uint u16_max (ap_port a) ∧ match ap_addr a with AdHostname _ => True | AdIp a => ip_wf a end.

(** The messages whose encoding determines them: fields in the range of their types, and none
    of the values that the encoding identifies with another one. *)
Definition msg_wf (m : AnyRelayMsg) : Prop :=
  match m with
  | ABegin m =>
      is_ascii (bg_addr m) = true ∧ in_uint u16_max (bg_port m) ∧ in_uint 7 (bg_flags m) ∧
      (if contains 58 (bg_addr m) then contains 93 (bg_addr m) = false
       else head (bg_addr m) ≠ Some 91)
  | AData m => dt_body m ≠ []
  | AEnd m =>
      match en_addr m with
      | None => True
      | Some (a, ttl) => en_reason m = EndReason.EXITPOLICY ∧ ip_wf a ∧ in_uint u32_max ttl
      end
  | AConnected m =>
      match cn_addr m with
      | None => True
      | Some (a, ttl) => ip_wf a ∧ a ≠ V4 0 ∧ in_uint u32_max ttl
      end
  | ASendme m => match sm_tag m with None => True | Some t => tag_wf t end
  | AExtend m =>
      in_uint u32_max (ex_addr m) ∧ in_uint u16_max (ex_port m) ∧
      length (ex_handshake m) = TAP_C_HANDSHAKE_LEN ∧ length (ex_rsaid m) = RSA_ID_LEN
  | AExtended m => length (exd_handshake m) = TAP_S_HANDSHAKE_LEN
  | AExtend2 m => in_uint u16_max (e2_handshake_type m)
  | AResolve m => contains 0 (rs_query m) = false
  | AResolved m => Forall (λ '(v, ttl), resolved_val_wf v ∧ in_uint u32_max ttl) (rv_answers m)
  | AConnectUdp m => in_uint 7 (cu_flags m) ∧ address_port_wf (cu_addr m)
  | AConnectedUdp m =>
      address_port_wf (cdu_ours m) ∧ address_port_wf (cdu_theirs m) ∧
      is_hostname (ap_addr (cdu_ours m)) = false ∧ is_hostname (ap_addr (cdu_theirs m)) = false
  | AConfluxLink m | AConfluxLinked m => link_wf m
  | AConfluxSwitch m => in_uint u32_max (sw_seqno m)
  | AXon m =>
      xon_version m = 0 ∧
      match xon_kbps_ewma m with Limited x => 1 ≤ x ≤ u32_max | Unlimited => True end
  | AXoff m => xoff_version m = 0
  | AUnrecognized cmd _ =>
      cmd ∉ [RelayCmd.BEGIN; RelayCmd.DATA; RelayCmd.END; RelayCmd.CONNECTED; RelayCmd.SENDME;
             RelayCmd.EXTEND; RelayCmd.EXTENDED; RelayCmd.EXTEND2; RelayCmd.EXTENDED2;
             RelayCmd.TRUNCATE; RelayCmd.TRUNCATED; RelayCmd.DROP; RelayCmd.RESOLVE;
             RelayCmd.RESOLVED; RelayCmd.BEGIN_DIR; RelayCmd.CONNECT_UDP; RelayCmd.CONNECTED_UDP;
             RelayCmd.DATAGRAM; RelayCmd.CONFLUX_LINK; RelayCmd.CONFLUX_LINKED;
             RelayCmd.CONFLUX_LINKED_ACK; RelayCmd.CONFLUX_SWITCH; RelayCmd.XON; RelayCmd.XOFF]
  | AExtended2 _ | ATruncate | ATruncated _ | ADrop | ABeginDir | ADatagram _ | AConfluxLinkedAck => True
  end.

Lemma contains_false x l : contains x l = false ↔ x ∉ l.
Proof.
  unfold contains. induction l as [|y l IH]; simpl; [set_solver|].
  rewrite orb_false_iff, IH, not_elem_of_cons, Z.eqb_neq. done.
Qed.

(** [peek(1)] in [Begin] does not move the reader. *)
Lemma reads_all_peek {B} (g : list Z → RD B) x bs w :
  reads_all (g [x]) (x :: bs) w →
  reads_all ((λ r, (r, peek 1 r) : Reader * res BytesError (list Z)) ≫= g) (x :: bs) w.
Proof.
  intros Hg pre c. unfold mbind, RD_mbind, peek, remaining. simpl.
  rewrite length_app. simpl length.
  rewrite (proj2 (Nat.ltb_ge _ _)) by lia. rewrite drop_app_length. simpl. apply Hg.
Qed.

Lemma begin_flags_id f : in_uint 7 f → BeginFlags.from_u32 f = f.
Proof.
  unfold BeginFlags.from_u32, in_uint. intros Hf. change 7 with (Z.ones 3). rewrite Z.land_ones by lia.
  apply Z.mod_small. simpl. lia.
Qed.

Lemma reads_begin_rest addr port flags :
  is_ascii addr = true → in_uint u16_max port → in_uint 7 flags →
  reads_all (Begin_decode_rest addr)
    (u16_to_string port ++ [0] ++ (if flags =? 0 then [] else to_be_bytes 4 flags))
    (mkBegin addr port flags).
Proof.
  intros Hascii Hport Hflags. destruct (u16_string_spec port Hport) as (Hp1 & Hp2 & Hp3).
  rewrite (assoc_L app). eapply reads_all_bind; [by apply reads_until|].
  apply reads_all_remaining.
  pose proof (begin_flags_id flags Hflags) as Hf.
  destruct (flags =? 0) eqn:Hz; zify_bool.
  - subst. simpl. rewrite Hascii, Hp1, Hp2. apply reads_all_of, reads_ret.
  - rewrite length_to_be_bytes. simpl (4 <=? 4)%nat. cbv iota.
    eapply reads_all_bind_l.
    + apply reads_all_of, reads_u32. unfold in_uint, u32_max in *. lia.
    + rewrite Hascii, Hp1, Hp2, Hf. apply reads_ret.
Qed.

Lemma reads_begin b bs :
  msg_wf (ABegin b) → Begin_encode b [] = Ok bs → reads_all Begin_decode bs b.
Proof.
  destruct b as [addr port flags]. simpl. intros (Hascii & Hport & Hflags & Haddr) Henc.
  pose proof (reads_begin_rest addr port flags Hascii Hport Hflags) as Htail.
  unfold Begin_encode, write_u8, write_u32, write_all, vec_writer in Henc. simpl in Henc.
  set (tail := u16_to_string port ++ _) in Htail.
  assert (Hbs : bs = (if contains 58 addr then [91] ++ (addr ++ [93]) ++ [58] else addr ++ [58])
                  ++ tail).
  { unfold tail. destruct (contains 58 addr), (flags =? 0); injection Henc as <-;
      by rewrite <-?(assoc_L app), ?app_nil_r. }
  subst bs. clear Henc. unfold Begin_decode. destruct (contains 58 addr) eqn:Hc.
  - apply (reads_all_peek _ 91). rewrite decide_True by done.
    eapply (reads_all_bind _ _ ([91] ++ (addr ++ [93]) ++ [58]) tail); [|exact Htail].
    eapply reads_bind; [by apply reads_advance|].
    eapply reads_bind; [apply reads_until; by apply contains_false|].
    eapply reads_bind_nil; [apply reads_u8|]. apply reads_ret.
  - assert (∃ x l, (addr ++ [58]) ++ tail = x :: l ∧ x ≠ 91) as (x & l & Hx & Hne).
    { destruct addr as [|x l]; [by exists 58, tail|]. exists x, ((l ++ [58]) ++ tail).
      split; [done|]. simpl in Haddr. congruence. }
    rewrite Hx. apply reads_all_peek. rewrite decide_False by congruence. rewrite <-Hx.
    eapply reads_all_bind; [|exact Htail]. apply reads_until. by apply contains_false.
Qed.

#[local] Opaque to_be_bytes.

Lemma reads_end e bs : msg_wf (AEnd e) → End_encode e [] = Ok bs → reads_all End_decode bs e.
Proof.
  destruct e as [reason [[a ttl]|]]; simpl; unfold End_encode, End_decode; simpl.
  - intros (-> & Ha & Httl). unfold write_ip, write_u8, write_u32, write_all, vec_writer. simpl.
    intros Hbs.
    set (k := match a with V4 _ => 4%nat | V6 _ => 16%nat end).
    set (n := match a with V4 a => a | V6 a => a end).
    replace bs with ([4] ++ to_be_bytes k n ++ to_be_bytes 4 ttl)
      by (destruct a; by injection Hbs).
    apply reads_all_remaining. simpl length. cbv iota.
    apply (reads_all_bind _ _ [4] (to_be_bytes k n ++ to_be_bytes 4 ttl) 4); [apply reads_u8|].
    apply reads_all_remaining. rewrite length_app, !length_to_be_bytes.
    destruct a as [a|a]; simpl;
      (eapply reads_all_bind; [eapply reads_bind_nil; [eauto with arti|apply reads_ret]|]);
      apply reads_all_remaining; rewrite length_to_be_bytes; simpl;
      (eapply reads_all_bind_l; [apply reads_all_of, reads_u32; done|apply reads_ret]).
  - intros _ [= <-]. apply reads_all_remaining. simpl.
    eapply (reads_all_bind _ _ [_] []); [apply reads_u8|]. destruct (reason =? _).
    + apply reads_all_remaining. simpl. apply reads_all_of, reads_ret.
    + apply reads_all_of, reads_ret.
Qed.

Lemma reads_connected m bs :
  msg_wf (AConnected m) → Connected_encode m [] = Ok bs → reads_all Connected_decode bs m.
Proof.
  destruct m as [[[[a|a] ttl]|]]; simpl; unfold Connected_encode, Connected_decode; simpl;
    unfold write_ip, write_u8, write_u32, write_all, vec_writer.
  - intros (Ha & Hne & Httl) [= <-]. apply reads_all_remaining.
    rewrite !length_app, !length_to_be_bytes. simpl.
    eapply reads_all_bind; [by apply reads_u32|].
    rewrite (proj2 (Z.eqb_neq _ _)) by congruence.
    eapply (reads_all_bind _ _ []); [apply reads_ret|].
    eapply reads_all_bind_l; [by apply reads_all_of, reads_u32|apply reads_ret].
  - intros (Ha & Hne & Httl) [= <-]. apply reads_all_remaining.
    rewrite !length_app, !length_to_be_bytes. simpl.
    rewrite <-!(assoc_L app). eapply reads_all_bind; [by apply reads_u32|]. simpl.
    eapply (reads_all_bind _ _ (6 :: _)).
    { eapply (reads_bind _ _ [6]); [apply reads_u8|]. simpl.
      eapply reads_bind_nil; [by apply reads_take_ipv6|apply reads_ret]. }
    eapply reads_all_bind_l; [by apply reads_all_of, reads_u32|apply reads_ret].
  - intros _ [= <-]. apply reads_all_remaining. simpl. apply reads_all_of, reads_ret.
Qed.

Lemma tag_as_ref_roundtrip t : tag_wf t → SendmeTag_try_from (SendmeTag_as_ref t) = Ok t.
Proof.
  destruct t as [len tag]. unfold tag_wf, SendmeTag_try_from, SendmeTag_as_ref. simpl.
  intros [[-> Hl]|(-> & Hl & Hz)]; simpl in *; rewrite length_take, Hl; simpl.
  - rewrite take_ge by lia. done.
  - unfold SendmeTag_from16. change (replicate 4 0) with [0; 0; 0; 0].
    by rewrite <-Hz, take_drop.
Qed.

Lemma reads_sendme m bs :
  msg_wf (ASendme m) → Sendme_encode m [] = Ok bs → reads_all Sendme_decode bs m.
Proof.
  destruct m as [[t|]]; unfold Sendme_encode, Sendme_decode; simpl; intros Ht.
  - intros [-> Hlen]%write_counted_vec. apply reads_all_remaining. simpl.
    eapply (reads_all_bind _ _ [1]); [apply reads_u8|]. simpl. apply reads_all_of.
    apply reads_counted2; [done|]. rewrite tag_as_ref_roundtrip by done.
    eapply (reads_bind _ _ [] []); [|apply reads_ret].
    intros pre post c. unfold rd_lift. simpl. by rewrite Nat.add_0_r.
  - intros [= <-]. apply reads_all_remaining. simpl. apply reads_all_of, reads_ret.
Qed.

Lemma reads_extend m bs :
  msg_wf (AExtend m) → Extend_encode m [] = Ok bs → reads Extend_decode bs m.
Proof.
  destruct m as [addr port hs rsa]. simpl. intros (Ha & Hp & Hh & Hr).
  unfold Extend_encode, write_u16, write_all, vec_writer. simpl. intros [= <-].
  rewrite <-!(assoc_L app). unfold Extend_decode.
  eapply reads_bind; [by apply reads_take_ipv4|].
  eapply reads_bind; [by apply reads_u16|].
  eapply reads_bind; [by apply reads_take'|].
  eapply reads_bind_nil; [by apply reads_extract, reads_take'|apply reads_ret].
Qed.

Lemma reads_linkspec ls (w bs : list Z) :
  EncodedLinkSpec_write_onto ls w = Ok bs →
  ∃ c, bs = w ++ c ∧ reads EncodedLinkSpec_take_from c ls.
Proof.
  destruct ls as [tp body]. unfold EncodedLinkSpec_write_onto, nested_finish. simpl.
  case_match; [|done]. zify_bool. intros [= <-]. unfold write_u8, write_all, vec_writer.
  eexists ([tp] ++ to_be_bytes 1 (Z.of_nat (length body)) ++ body).
  split; [by rewrite <-!(assoc_L app)|]. unfold EncodedLinkSpec_take_from, read_nested_u8len.
  eapply reads_bind; [apply reads_u8|]. apply reads_nested_all.
  - rewrite to_be_bytes_1 by (simpl in *; lia). apply reads_u8.
  - eapply reads_all_bind_l; [apply reads_rest|apply reads_ret].
Qed.

Lemma reads_linkspecs l (w bs : list Z) :
  write_list EncodedLinkSpec_write_onto l w = Ok bs →
  ∃ c, bs = w ++ c ∧ reads (extract_n_loop EncodedLinkSpec_take_from (length l)) c l.
Proof.
  revert w. induction l as [|ls l IH]; intros w; simpl.
  - intros [= <-]. exists []. rewrite app_nil_r. split; [done|apply reads_ret].
  - intros (w' & Hw & Hl)%bind_ok. apply reads_linkspec in Hw as (c1 & -> & H1).
    apply IH in Hl as (c2 & -> & H2). exists (c1 ++ c2). split; [by rewrite (assoc_L app)|].
    eapply reads_bind; [done|]. eapply reads_bind_nil; [done|]. apply reads_ret.
Qed.

Lemma reads_extend2 m bs :
  msg_wf (AExtend2 m) → Extend2_encode m [] = Ok bs → reads Extend2_decode bs m.
Proof.
  destruct m as [ls tp hs]. unfold Extend2_encode. simpl. intros Htp.
  case_match; [|done]. zify_bool. intros (w & Hls & Hc)%bind_ok.
  apply reads_linkspecs in Hls as (c & -> & Hls). apply write_counted_vec in Hc as [-> Hlen].
  unfold write_u8, write_u16, write_all, vec_writer. simpl. rewrite <-!(assoc_L app). simpl.
  eapply (reads_bind _ _ [_]); [apply reads_u8|]. eapply (reads_bind _ _ c _ ls).
  - intros pre post cc. unfold extract_n.
    by rewrite Nat2Z.id, Hls.
  - eapply reads_bind; [by apply reads_u16|]. apply reads_counted2; [done|apply reads_ret].
Qed.

Lemma reads_resolved_val v (w bs : list Z) :
  resolved_val_wf v → ResolvedVal_write_onto v w = Ok bs →
  ∃ c, bs = w ++ c ∧ c ≠ [] ∧ reads ResolvedVal_take_from c v.
Proof.
  destruct v as [[a|a]|h| | |tp b]; simpl; intros Hv;
    unfold write_ip, write_u8, write_all, vec_writer.
  - intros [= <-]. eexists ([4] ++ [4] ++ to_be_bytes 4 a). split; [by rewrite <-!(assoc_L app)|].
    split; [done|]. do 2 (eapply reads_bind; [apply reads_u8|]). simpl.
    eapply reads_bind_nil; [by apply reads_take_ipv4|apply reads_ret].
  - intros [= <-]. eexists ([6] ++ [16] ++ to_be_bytes 16 a). split; [by rewrite <-!(assoc_L app)|].
    split; [done|]. do 2 (eapply reads_bind; [apply reads_u8|]). simpl.
    eapply reads_bind_nil; [by apply reads_take_ipv6|apply reads_ret].
  - intros [-> Hlen]%write_counted_vec. simpl in Hlen. rewrite to_be_bytes_1 by lia.
    eexists ([0] ++ [_] ++ h). split; [by rewrite <-!(assoc_L app)|].
    split; [done|]. do 2 (eapply reads_bind; [apply reads_u8|]). simpl.
    eapply reads_bind_nil; [apply reads_take'; lia|apply reads_ret].
  - intros [= <-]. eexists ([240] ++ [0] ++ []). split; [by rewrite <-!(assoc_L app)|].
    split; [done|]. do 2 (eapply reads_bind; [apply reads_u8|]). simpl.
    eapply reads_bind_nil; [by apply reads_advance|apply reads_ret].
  - intros [= <-]. eexists ([241] ++ [0] ++ []). split; [by rewrite <-!(assoc_L app)|].
    split; [done|]. do 2 (eapply reads_bind; [apply reads_u8|]). simpl.
    eapply reads_bind_nil; [by apply reads_advance|apply reads_ret].
  - intros [-> Hlen]%write_counted_vec. simpl in Hlen. rewrite to_be_bytes_1 by lia.
    eexists ([tp] ++ [_] ++ b). split; [by rewrite <-!(assoc_L app)|].
    split; [done|]. do 2 (eapply reads_bind; [apply reads_u8|]).
    rewrite !not_elem_of_cons in Hv. destruct Hv as (H1 & H2 & H3 & H4 & H5 & _).
    unfold res_len. rewrite !(proj2 (Z.eqb_neq tp _)) by done.
    eapply reads_bind_nil; [apply reads_take'; lia|apply reads_ret].
Qed.

Lemma reads_resolved l (bs : list Z) :
  Forall (λ '(v, ttl), resolved_val_wf v ∧ in_uint u32_max ttl) l →
  write_list (λ '(rv, ttl) w, w ← ResolvedVal_write_onto rv w; Ok (write_u32 ttl w)) l [] = Ok bs →
  reads_all Resolved_decode bs (mkResolved l).
Proof.
  intros Hl Hw. eapply reads_while in Hw as (c & -> & Hc).
  { eapply reads_all_bind_l; [exact Hc|apply reads_ret]. }
  eapply Forall_impl; [exact Hl|]. clear. intros [v ttl] [Hv Ht] w bs.
  intros (w' & Hw & [= <-])%bind_ok.
  apply reads_resolved_val in Hw as (c1 & -> & Hne & H1); [|done].
  exists (c1 ++ to_be_bytes 4 ttl). split; [by rewrite (assoc_L app)|].
  split; [by destruct c1|]. eapply reads_bind; [by apply reads_extract|].
  eapply reads_bind_nil; [by apply reads_u32|apply reads_ret].
Qed.

Lemma reads_link m bs : link_wf m → Link_encode m [] = Ok bs → reads Link_decode bs m.
Proof.
  destruct m as [v [nonce ls lr ux]]. intros (Hv & Hn & Hs & Hr). simpl in *. subst v.
  unfold Link_encode, V1LinkPayload_encode, write_u8, write_u64, write_all, vec_writer. simpl.
  intros [= <-]. eapply (reads_bind _ _ [CONFLUX_LINK_VERSION] _); [apply reads_u8|]. simpl.
  rewrite <-!(assoc_L app). eapply reads_bind_nil; [|apply reads_ret]. unfold V1LinkPayload_decode.
  eapply reads_bind; [by apply reads_extract, reads_take'|].
  eapply reads_bind; [by apply reads_u64|]. eapply reads_bind; [by apply reads_u64|].
  eapply reads_bind_nil; [apply reads_u8|apply reads_ret].
Qed.

Lemma reads_address a (w bs : list Z) :
  match a with AdHostname _ => True | AdIp a => ip_wf a end → Address_write_onto a w = Ok bs →
  ∃ c, bs = w ++ c ∧ reads Address_take_from c a.
Proof.
  intros Hwf. unfold Address_write_onto, nested_finish. destruct (Z.ltb _ _) eqn:Hlen; [|done]. zify_bool.
  intros [= <-]. unfold write_u8, write_all, vec_writer in *. simpl in *. rewrite <-!(assoc_L app).
  eexists. split; [done|]. eapply reads_bind; [apply reads_u8|].
  apply reads_nested_all; [rewrite to_be_bytes_1 by lia; apply reads_u8|].
  destruct a as [h|[a|a]]; simpl in *.
  - eapply reads_all_bind_l; [apply reads_rest|apply reads_ret].
  - eapply reads_all_bind_l; [by apply reads_all_of, reads_take_ipv4|apply reads_ret].
  - eapply reads_all_bind_l; [by apply reads_all_of, reads_take_ipv6|apply reads_ret].
Qed.

Lemma reads_address_port a (w bs : list Z) :
  address_port_wf a → AddressPort_write_onto a w = Ok bs →
  ∃ c, bs = w ++ c ∧ reads (extract AddressPort_take_from) c a.
Proof.
  destruct a as [a p]. intros [Hp Ha]. simpl in *. unfold AddressPort_write_onto. simpl.
  intros (w' & (c & -> & Hc)%reads_address & [= <-])%bind_ok; [|done].
  unfold write_u16, write_all, vec_writer. exists (c ++ to_be_bytes 2 p). rewrite (assoc_L app).
  split; [done|]. apply reads_extract. eapply reads_bind; [by apply reads_extract|].
  eapply reads_bind_nil; [by apply reads_u16|apply reads_ret].
Qed.

Ltac eqb_neqs :=
  repeat match goal with
  | H : ?x ≠ ?y |- context [?x =? ?y] => rewrite (proj2 (Z.eqb_neq x y) H)
  end.

(** Decoding the body of a message that was encoded gives the message back. *)
Lemma body_roundtrip m bs :
  msg_wf m → encode_onto m [] = Ok bs → reads_all (decode_from_reader (msg_cmd m)) bs m.
Proof.
  intros Hwf Henc.
  destruct m as [b|d|e|c|s|e|e|e|e| |t| |r|r| |u|u|d|l|l| |sw|x|x|cmd b]; simpl in Henc; unfold decode_from_reader;
    simpl msg_cmd; simpl Z.eqb; cbv iota;
    try (injection Henc as <-; apply reads_all_of, reads_ret);
    try (eapply reads_all_bind_l; [|apply reads_ret]).
  - by apply reads_begin.
  - destruct d as [[|y l]]; [done|]. injection Henc as <-. apply reads_all_remaining.
    eapply reads_all_bind_l; [apply reads_all_of, reads_take'; done|apply reads_ret].
  - by apply reads_end.
  - by apply reads_connected.
  - by apply reads_sendme.
  - by apply reads_all_of, reads_extend.
  - destruct e. injection Henc as <-. apply reads_all_of.
    eapply reads_bind_nil; [by apply reads_take'|apply reads_ret].
  - by apply reads_all_of, reads_extend2.
  - destruct e. apply write_counted_vec in Henc as [-> Hlen]. apply reads_all_of.
    apply reads_counted2; [done|apply reads_ret].
  - destruct t. injection Henc as <-. apply reads_all_of.
    eapply reads_bind_nil; [apply reads_u8|apply reads_ret].
  - destruct r. injection Henc as <-. apply reads_all_of.
    eapply reads_bind_nil; [apply reads_until; by apply contains_false|apply reads_ret].
  - destruct r. by apply reads_resolved.
  - destruct u as [f a], Hwf as [Hf Ha]. unfold ConnectUdp_encode in Henc. simpl in *.
    apply reads_address_port in Henc as (c & -> & Hc); [|done]. apply reads_all_of.
    eapply reads_bind; [apply reads_u32; unfold in_uint, u32_max in *; lia|].
    eapply reads_bind_nil; [done|]. rewrite begin_flags_id by done. apply reads_ret.
  - destruct u as [a b], Hwf as (Ha & Hb & Hna & Hnb). simpl in *. apply bind_ok in Henc as (w & Hw & Henc).
    simpl in *. apply reads_address_port in Hw as (c & -> & Hc); [|done].
    apply reads_address_port in Henc as (d & -> & Hd); [|done]. apply reads_all_of.
    eapply reads_bind; [done|]. rewrite Hna. eapply reads_bind_nil; [done|]. rewrite Hnb. apply reads_ret.
  - destruct d. injection Henc as <-. apply reads_all_remaining.
    eapply reads_all_bind_l; [apply reads_all_of, reads_take|apply reads_ret].
  - by apply reads_all_of, reads_link.
  - by apply reads_all_of, reads_link.
  - destruct sw. injection Henc as <-. apply reads_all_of.
    eapply reads_bind_nil; [by apply reads_u32|apply reads_ret].
  - destruct x as [ver k]. destruct Hwf as [Hver Hk]. simpl in Hver, Hk. subst.
    injection Henc as <-. apply reads_all_of. eapply reads_bind; [apply reads_u8|]. simpl.
    unfold XonKbpsEwma_decode. eapply reads_bind_nil.
    + apply reads_u32. unfold in_uint, u32_max in *. destruct k; simpl; lia.
    + destruct k as [k|]; simpl; [rewrite (proj2 (Z.eqb_neq k 0)) by lia|]; apply reads_ret.
  - destruct x as [ver]. simpl in Hwf. subst. injection Henc as <-. apply reads_all_of.
    eapply reads_bind_nil; [apply reads_u8|]. apply reads_ret.
  - simpl in Hwf. rewrite !not_elem_of_cons in Hwf. destruct_and!. eqb_neqs.
    injection Henc as <-. apply reads_all_remaining.
    eapply reads_all_bind_l; [apply reads_all_of, reads_take|apply reads_ret].
Qed.

(** ** Decoders on arbitrary bytes *)

#[export] Instance safe_peek n : Safe (λ r, (r, peek n r) : Reader * res BytesError (list Z)).
Proof. intros r Hr. split; [|done]. unfold peek. simpl. by case_match. Qed.

#[export] Instance safe_begin : Safe Begin_decode.
Proof.
  unfold Begin_decode. apply safe_bind; [apply _|]. intros first.
  apply safe_bind; [case_match; apply _|]. intros addr. unfold Begin_decode_rest.
  do 3 (apply safe_bind; [apply _|intros ?]). do 2 (apply safe_if; [apply _|]).
  destruct (parse_u16 _); apply _.
Qed.

#[export] Instance safe_data : Safe Data_decode.
Proof. unfold Data_decode. apply _. Qed.
#[export] Instance safe_end : Safe End_decode.
Proof. unfold End_decode, take_ipv4, take_ipv6. apply _. Qed.
#[export] Instance safe_connected : Safe Connected_decode.
Proof. unfold Connected_decode, take_ipv6. apply _. Qed.

#[export] Instance safe_sendme : Safe Sendme_decode.
Proof.
  assert (∀ b, Safe (rd_lift (SendmeTag_try_from b))).
  { intros b r Hr. split; [|done]. unfold rd_lift, SendmeTag_try_from. simpl. by repeat case_match. }
  unfold Sendme_decode. apply _.
Qed.

#[export] Instance safe_extend : Safe Extend_decode.
Proof. unfold Extend_decode, take_ipv4. apply _. Qed.
#[export] Instance safe_extended : Safe Extended_decode.
Proof. unfold Extended_decode. apply _. Qed.
#[export] Instance safe_extend2 : Safe Extend2_decode.
Proof. unfold Extend2_decode, EncodedLinkSpec_take_from, read_nested_u8len. apply _. Qed.
#[export] Instance safe_extended2 : Safe Extended2_decode.
Proof. unfold Extended2_decode. apply _. Qed.
#[export] Instance safe_resolved_val : Safe ResolvedVal_take_from.
Proof. unfold ResolvedVal_take_from, take_ipv4, take_ipv6. apply _. Qed.

(** The TTL that ends each answer has four bytes, so the loop makes progress. *)
#[export] Instance safe_resolved : Safe Resolved_decode.
Proof.
  unfold Resolved_decode. apply safe_bind; [|apply _]. apply safe_while_remaining; [apply _|].
  apply progress_bind; [|apply _..]. unfold ResolvedVal_take_from. apply _.
Qed.

#[export] Instance safe_xon : Safe Xon_decode.
Proof.
  unfold Xon_decode. apply safe_bind; [apply _|]. intros v. destruct (FlowCtrlVersion_new v); apply _.
Qed.
#[export] Instance safe_xoff : Safe Xoff_decode.
Proof.
  unfold Xoff_decode. apply safe_bind; [apply _|]. intros v. destruct (FlowCtrlVersion_new v); apply _.
Qed.

#[export] Instance safe_link : Safe Link_decode.
Proof. unfold Link_decode, V1LinkPayload_decode, take_array. apply _. Qed.
#[export] Instance safe_address_port : Safe AddressPort_take_from.
Proof. unfold AddressPort_take_from, Address_take_from, read_nested_u8len, take_ipv4, take_ipv6. apply _. Qed.
#[export] Instance safe_connect_udp : Safe ConnectUdp_decode.
Proof. unfold ConnectUdp_decode. apply _. Qed.
#[export] Instance safe_connected_udp : Safe ConnectedUdp_decode.
Proof. unfold ConnectedUdp_decode. apply _. Qed.

#[export] Instance safe_decode cmd : Safe (decode_from_reader cmd).
Proof.
  unfold decode_from_reader, Truncated_decode, Resolve_decode, Datagram_decode, ConfluxSwitch_decode,
    Unrecognized_decode. apply _.
Qed.

(** ** The [Readable] contract of EXTEND2 *)

#[export] Instance stable_linkspec : PrefixStable EncodedLinkSpec_take_from.
Proof.
  unfold EncodedLinkSpec_take_from, read_nested_u8len. apply stable_bind; [apply _|].
  intros tp. apply stable_nested; [apply _|]. intros s d.
  pose proof (reads_rest s [] SupposedlyComplete) as Hr. unfold from_slice, mbind, RD_mbind.
  simpl in Hr. by rewrite Hr.
Qed.

(** reading an EXTEND2 body from a partial buffer keeps the contract of [Readable]: a
    result does not depend on the bytes that follow, an error other than [Incomplete] is
    final, and [Incomplete d] means that fewer than [d] more bytes leave the body incomplete. *)
Theorem extend2_prefix_stable b ext off :
  (off ≤ length b)%nat → stable_outcome Extend2_decode b ext off.
Proof. revert b ext off. change (PrefixStable Extend2_decode). unfold Extend2_decode. apply _. Qed.

Lemma extend2_prefix_stable_witness :
  stable_outcome Extend2_decode [1; 0; 2; 9] [9; 0; 2; 0; 1; 5] 0.
Proof. apply (extend2_prefix_stable [1; 0; 2; 9] [9; 0; 2; 0; 1; 5] 0). simpl. lia. Defined.
