(* ===== verification/RelayCell.v ===== *)
(** * RelayCell: relay cells in the V0 and V1 formats

    The framing of [tor-cell/src/relaycell.rs]: a relay message with its stream ID is written
    into a 509-byte cell body by a [SliceWriter] ([tor-cell/src/slicewriter.rs]) and padded with
    random bytes; the decoder keeps the body unparsed, answers questions about the command, the
    stream ID and the data length from its bytes, and decodes the message on demand.  The random
    generator is an argument: the function from a number of bytes to the bytes it fills in. *)

From S2P Require Import Prelude Bytes Codec RelayMsg.

(** ** Stream IDs *)

Inductive StreamIdReq : Type := WantNone | WantSome | AnyReq | UnrecognizedReq.

Definition one_of (cmd : Z) (l : list Z) : bool := existsb (Z.eqb cmd) l.

Definition expects_streamid (cmd : Z) (format : option RelayCellFormat) : StreamIdReq :=
  if one_of cmd [RelayCmd.BEGIN; RelayCmd.DATA; RelayCmd.END; RelayCmd.CONNECTED;
                 RelayCmd.RESOLVE; RelayCmd.RESOLVED; RelayCmd.BEGIN_DIR; RelayCmd.XOFF;
                 RelayCmd.XON] then WantSome
  else if one_of cmd [RelayCmd.CONNECT_UDP; RelayCmd.CONNECTED_UDP; RelayCmd.DATAGRAM]
  then WantSome
  else if one_of cmd [RelayCmd.EXTEND; RelayCmd.EXTENDED; RelayCmd.TRUNCATE; RelayCmd.TRUNCATED;
                      RelayCmd.DROP; RelayCmd.EXTEND2; RelayCmd.EXTENDED2; RelayCmd.CONFLUX_LINK;
                      RelayCmd.CONFLUX_LINKED; RelayCmd.CONFLUX_LINKED_ACK;
                      RelayCmd.CONFLUX_SWITCH; RelayCmd.ESTABLISH_INTRO;
                      RelayCmd.ESTABLISH_RENDEZVOUS; RelayCmd.INTRODUCE1; RelayCmd.INTRODUCE2;
                      RelayCmd.RENDEZVOUS1; RelayCmd.RENDEZVOUS2; RelayCmd.INTRO_ESTABLISHED;
                      RelayCmd.RENDEZVOUS_ESTABLISHED; RelayCmd.INTRODUCE_ACK] then WantNone
  else if cmd =? RelayCmd.SENDME then
    match format with
    | Some FV1 => WantNone
    | Some FV0 => AnyReq
    | None => AnyReq
    end
  else UnrecognizedReq.

(** A [StreamId] is a nonzero [u16]. *)
Definition StreamId_new (stream_id : Z) : option Z :=
  if stream_id =? 0 then None else Some stream_id.
Definition get_or_zero (stream_id : option Z) : Z :=
  match stream_id with Some i => i | None => 0 end.

Definition accepts_streamid_val (cmd : Z) (id : option Z) : bool :=
  match expects_streamid cmd None with
  | WantNone => negb (bool_decide (is_Some id))
  | WantSome => bool_decide (is_Some id)
  | AnyReq => true
  | UnrecognizedReq => true
  end.

(** ** SliceWriter *)

Record SliceWriter : Type := mkSliceWriter { sw_data : list Z; sw_offset : Z }.

Definition SliceWriter_new (data : list Z) : SliceWriter := mkSliceWriter data 0.

(** [copy_from_slice] at an offset. *)
Definition overwrite (data : list Z) (off : nat) (b : list Z) : list Z :=
  take off data ++ b ++ drop (off + length b) data.

#[export] Instance slice_writer : Writer SliceWriter := λ b w,
  let new_offset := saturating_add usize_max (sw_offset w) (Z.of_nat (length b)) in
  if new_offset <=? Z.of_nat (length (sw_data w))
  then mkSliceWriter (overwrite (sw_data w) (Z.to_nat (sw_offset w)) b) new_offset
  else mkSliceWriter (sw_data w) usize_max.

Definition sw_advance (n : Z) (w : SliceWriter) : SliceWriter :=
  let new_offset := saturating_add usize_max (sw_offset w) n in
  if new_offset <=? Z.of_nat (length (sw_data w))
  then mkSliceWriter (sw_data w) new_offset
  else mkSliceWriter (sw_data w) usize_max.

(** [None] is [SliceWriterError::Truncated]. *)
Definition sw_offset_checked (w : SliceWriter) : option Z :=
  if sw_offset w =? usize_max then None else Some (sw_offset w).
Definition try_unwrap (w : SliceWriter) : option (list Z * Z) :=
  match sw_offset_checked w with
  | Some offset => Some (sw_data w, offset)
  | None => None
  end.

Definition assert_offset_is {E} (n : Z) (w : SliceWriter) : res E unit :=
  debug_assert (sw_offset w =? n).

(** ** Layout *)

Definition STREAM_ID_OFFSET_V0 : nat := 3.
Definition STREAM_ID_OFFSET_V1 : nat := 16 + 1 + 2.
Definition LENGTH_OFFSET_V0 : nat := 1 + 2 + 2 + 4.
Definition LENGTH_OFFSET_V1 : nat := 16 + 1.
Definition PAYLOAD_OFFSET_V0 : nat := LENGTH_OFFSET_V0 + 2.
Definition PAYLOAD_OFFSET_V1_WITHOUT_STREAM_ID : nat := LENGTH_OFFSET_V1 + 2.
Definition PAYLOAD_OFFSET_V1_WITH_STREAM_ID : nat := LENGTH_OFFSET_V1 + 2 + 2.
Definition BODY_MAX_LEN_V0 : nat := 509.
Definition BODY_MAX_LEN_V1 : nat := 509.
Definition PAYLOAD_MAX_SIZE_V0 : nat := BODY_MAX_LEN_V0 - PAYLOAD_OFFSET_V0.
Definition PAYLOAD_MAX_SIZE_V1_WITHOUT_STREAM_ID : nat :=
  BODY_MAX_LEN_V1 - PAYLOAD_OFFSET_V1_WITHOUT_STREAM_ID.
Definition PAYLOAD_MAX_SIZE_V1_WITH_STREAM_ID : nat :=
  BODY_MAX_LEN_V1 - PAYLOAD_OFFSET_V1_WITH_STREAM_ID.
Definition PAYLOAD_MAX_SIZE_ALL : nat :=
  Nat.min PAYLOAD_MAX_SIZE_V0
    (Nat.min PAYLOAD_MAX_SIZE_V1_WITH_STREAM_ID PAYLOAD_MAX_SIZE_V1_WITHOUT_STREAM_ID).
Definition PAYLOAD_MAX_SIZE_ANY : nat :=
  Nat.max PAYLOAD_MAX_SIZE_V0
    (Nat.max PAYLOAD_MAX_SIZE_V1_WITH_STREAM_ID PAYLOAD_MAX_SIZE_V1_WITHOUT_STREAM_ID).

(** ** Unparsed messages *)

Inductive UnparsedRelayMsg : Type := UV0 (body : list Z) | UV1 (body : list Z).

Record IncompleteRelayMsgInfo : Type := mkIncomplete {
  in_cmd : Z; in_stream_id : option Z; in_total_msg_len : Z; in_num_bytes_present : Z }.

Record RelayCellDecoderResult : Type := mkDecoderResult {
  dr_msgs : list UnparsedRelayMsg; dr_incomplete : option IncompleteRelayMsgInfo }.

(** [body[i]] and a two-byte slice as [u16::from_be_bytes]; both panic out of range. *)
Definition index {E} (body : list Z) (i : nat) : res E Z := expect (body !! i).
Definition u16_at {E} (body : list Z) (i : nat) : res E Z :=
  if (i + 2 <=? length body)%nat then Ok (from_be_bytes (take 2 (drop i body))) else Panic.

Definition decoder_decode (version : RelayCellFormat) (cell : list Z) : RelayCellDecoderResult :=
  let msg_internal := match version with FV0 => UV0 cell | FV1 => UV1 cell end in
  mkDecoderResult [msg_internal] None.

Definition unparsed_cmd {E} (m : UnparsedRelayMsg) : res E Z :=
  match m with UV0 body => index body 0 | UV1 body => index body 16 end.

Definition unparsed_stream_id {E} (m : UnparsedRelayMsg) : res E (option Z) :=
  match m with
  | UV0 body => id ← u16_at body STREAM_ID_OFFSET_V0; Ok (StreamId_new id)
  | UV1 body =>
      cmd ← unparsed_cmd m;
      match expects_streamid cmd (Some FV1) with
      | WantNone => Ok None
      | UnrecognizedReq | AnyReq => Ok None
      | WantSome => id ← u16_at body STREAM_ID_OFFSET_V1; Ok (StreamId_new id)
      end
  end.

Definition data_len (m : UnparsedRelayMsg) : res BytesError Z :=
  cmd ← unparsed_cmd m;
  if negb (cmd =? RelayCmd.DATA) then Ok 0
  else
    len ← match m with
          | UV0 body => u16_at body LENGTH_OFFSET_V0
          | UV1 body => u16_at body LENGTH_OFFSET_V1
          end;
    let max := match m with UV0 _ => BODY_MAX_LEN_V0 | UV1 _ => BODY_MAX_LEN_V1 end in
    if Z.of_nat max <? len then Err BadLengthValue else Ok len.

(** [iter().all(|m| m.cmd() == DROP)], stopping at the first other command. *)
Fixpoint all_drop {E} (msgs : list UnparsedRelayMsg) : res E bool :=
  match msgs with
  | [] => Ok true
  | m :: msgs => c ← unparsed_cmd m; if c =? RelayCmd.DROP then all_drop msgs else Ok false
  end.

Definition is_padding {E} (r : RelayCellDecoderResult) : res E bool :=
  all ← all_drop (dr_msgs r);
  Ok (all && match dr_incomplete r with
             | None => true
             | Some incomplete => in_cmd incomplete =? RelayCmd.DROP
             end).

Definition from_singleton_body (version : RelayCellFormat) (body : list Z) :
    res BytesError UnparsedRelayMsg :=
  let '(mkDecoderResult msgs incomplete) := decoder_decode version body in
  match msgs with
  | [] => Err MissingData
  | msg :: msgs =>
      match incomplete with
      | Some _ => Err ExtraneousBytes
      | None => match msgs with _ :: _ => Err ExtraneousBytes | [] => Ok msg end
      end
  end.

(** ** Messages with their stream ID *)

Record RelayMsgOuter : Type := mkOuter { ro_streamid : option Z; ro_msg : AnyRelayMsg }.

Definition decode_v0_from_reader : RD RelayMsgOuter :=
  cmd ← take_u8;
  _ ← advance 2;
  id ← take_u16;
  let streamid := StreamId_new id in
  _ ← advance 4;
  len ← take_u16;
  n ← rd_remaining;
  if (n <? Z.to_nat len)%nat then rd_fail (InvalidMessage "Insufficient data in relay cell")
  else
    _ ← truncate (Z.to_nat len);
    msg ← decode_from_reader cmd;
    mret (mkOuter streamid msg).

Definition decode_v1_from_reader : RD RelayMsgOuter :=
  _ ← advance 16;
  cmd ← take_u8;
  len ← take_u16;
  streamid ← match expects_streamid cmd (Some FV1) with
             | WantNone => mret None
             | WantSome =>
                 id ← take_u16;
                 match StreamId_new id with
                 | Some id => mret (Some id)
                 | None => rd_fail (InvalidMessage "Zero-valued stream ID with relay command")
                 end
             | UnrecognizedReq | AnyReq =>
                 rd_fail (InvalidMessage "Unrecognized relay command")
             end;
  n ← rd_remaining;
  if (n <? Z.to_nat len)%nat then rd_fail (InvalidMessage "Insufficient data in relay cell")
  else
    _ ← truncate (Z.to_nat len);
    msg ← decode_from_reader cmd;
    mret (mkOuter streamid msg).

Definition unparsed_decode (m : UnparsedRelayMsg) : res BytesError RelayMsgOuter :=
  match m with
  | UV0 body => snd (decode_v0_from_reader (from_slice body))
  | UV1 body => snd (decode_v1_from_reader (from_slice body))
  end.

Definition decode_singleton (version : RelayCellFormat) (body : list Z) :
    res BytesError RelayMsgOuter :=
  unparsed_msg ← from_singleton_body version body;
  unparsed_decode unparsed_msg.

(** The end of both encoders: take the buffer back and fill in the length. *)
Definition finish_cell (body_pos len_pos : Z) (w : SliceWriter) :
    res EncodeError (list Z * Z) :=
  '(body, written) ← ok_or (try_unwrap w)
    (EncBug "Encoding of relay message was too long to fit into a cell!");
  payload_len ← usub written body_pos;
  _ ← debug_assert (payload_len <? u16_max);
  if len_pos + 2 <=? Z.of_nat (length body)
  then Ok (overwrite body (Z.to_nat len_pos) (to_be_bytes 2 (wrap u16_max payload_len)), written)
  else Panic.

Definition encode_to_cell_v0 (m : RelayMsgOuter) : res EncodeError (list Z * Z) :=
  let LEN_POS := 9 in
  let BODY_POS := 11 in
  let body := replicate BODY_MAX_LEN_V0 0 in
  let w := SliceWriter_new body in
  let w := write_u8 (msg_cmd (ro_msg m)) w in
  let w := write_u16 0 w in
  _ ← assert_offset_is (Z.of_nat STREAM_ID_OFFSET_V0) w;
  let w := write_u16 (get_or_zero (ro_streamid m)) w in
  let w := write_u32 0 w in
  _ ← assert_offset_is LEN_POS w;
  let w := write_u16 0 w in
  _ ← assert_offset_is BODY_POS w;
  w ← encode_onto (ro_msg m) w;
  finish_cell BODY_POS LEN_POS w.

Definition encode_to_cell_v1 (m : RelayMsgOuter) : res EncodeError (list Z * Z) :=
  let LEN_POS_V1 := 16 + 1 in
  let cmd := msg_cmd (ro_msg m) in
  let body := replicate BODY_MAX_LEN_V1 0 in
  let w := SliceWriter_new body in
  let w := sw_advance 16 w in
  let w := write_u8 cmd w in
  _ ← assert_offset_is LEN_POS_V1 w;
  let w := sw_advance 2 w in
  let body_pos := 16 + 1 + 2 in
  '(w, body_pos) ←
    match expects_streamid cmd (Some FV1), ro_streamid m with
    | WantNone, None => Ok (w, body_pos)
    | WantSome, Some id => Ok (write_u16 id w, body_pos + 2)
    | _, _ => Err (EncBug "Tried to encode invalid stream ID")
    end;
  _ ← assert_offset_is body_pos w;
  w ← encode_onto (ro_msg m) w;
  finish_cell body_pos LEN_POS_V1 w.

Definition encode (format : RelayCellFormat) (rng : nat → list Z) (m : RelayMsgOuter) :
    res EncodeError (list Z) :=
  let MIN_SPACE_BEFORE_PADDING := 4 in
  '(body, enc_len) ← match format with
                     | FV0 => encode_to_cell_v0 m
                     | FV1 => encode_to_cell_v1 m
                     end;
  _ ← debug_assert (enc_len <=? Z.of_nat CELL_DATA_LEN);
  if enc_len <? Z.of_nat CELL_DATA_LEN - MIN_SPACE_BEFORE_PADDING
  then
    let start := Z.to_nat (enc_len + MIN_SPACE_BEFORE_PADDING) in
    Ok (overwrite body start (rng (length body - start)%nat))
  else Ok body.

(** ** The slice writer holds what a vector would *)

Section slice_writer.
Context (d : list Z) (Hd : Z.of_nat (length d) < usize_max).

(** The writer over [d] after the bytes [bs] were written from its start. *)
Definition slice_holds (bs : list Z) (w : SliceWriter) : Prop :=
  length (sw_data w) = length d ∧
  if (length bs <=? length d)%nat
  then sw_data w = bs ++ drop (length bs) d ∧ sw_offset w = Z.of_nat (length bs)
  else sw_offset w = usize_max.

Lemma slice_holds_new : slice_holds [] (SliceWriter_new d).
Proof. by split. Qed.

Lemma slice_holds_write c bs w :
  slice_holds bs w → slice_holds (bs ++ c) (write_all c w).
Proof.
  intros [Hl Hw]. unfold slice_holds, write_all, slice_writer, saturating_add. rewrite length_app.
  destruct (Nat.leb_spec (length bs) (length d)) as [Hb|Hb].
  - destruct Hw as [Hdata ->]. rewrite Hl.
    destruct (Nat.leb_spec (length bs + length c) (length d)) as [Hc|Hc].
    + rewrite Z.min_l by lia. rewrite (proj2 (Z.leb_le _ _)) by lia. simpl.
      rewrite Nat2Z.id, Hdata. unfold overwrite. rewrite take_app_length.
      rewrite drop_app_ge by lia. rewrite drop_drop.
      replace (length bs + (length bs + length c - length bs))%nat
        with (length bs + length c)%nat by lia.
      split; [rewrite !length_app, length_drop; lia|].
      split; [by rewrite <-!(assoc_L app)|lia].
    + rewrite (proj2 (Z.leb_gt _ _)) by lia. done.
  - rewrite (proj2 (Nat.leb_gt _ _)) by lia. rewrite Hw, Hl.
    rewrite (proj2 (Z.leb_gt _ _)) by lia. done.
Qed.

(** Skipping zeros writes them. *)
Lemma slice_holds_advance n bs w :
  (length bs + n ≤ length d)%nat → take n (drop (length bs) d) = replicate n 0 →
  slice_holds bs w → slice_holds (bs ++ replicate n 0) (sw_advance (Z.of_nat n) w).
Proof.
  intros Hn Hz [Hl Hw]. unfold slice_holds, sw_advance, saturating_add.
  rewrite length_app, length_replicate.
  rewrite (proj2 (Nat.leb_le _ _)) in Hw by lia. destruct Hw as [Hdata ->].
  rewrite (proj2 (Nat.leb_le _ _)) by lia.
  rewrite Z.min_l, (proj2 (Z.leb_le _ _)) by lia. simpl. split; [done|]. split; [|lia].
  rewrite Hdata, <-Hz, <-(assoc_L app). f_equal. by rewrite <-drop_drop, take_drop.
Qed.

Lemma slice_holds_offset bs w :
  (length bs ≤ length d)%nat → slice_holds bs w → sw_offset w = Z.of_nat (length bs).
Proof. intros Hb [_ Hw]. rewrite (proj2 (Nat.leb_le _ _)) in Hw by done. by destruct Hw. Qed.

Lemma assert_offset_holds {E A} bs w n (f : unit → res E A) x :
  (length bs ≤ length d)%nat → slice_holds bs w → n = Z.of_nat (length bs) →
  f tt = x → (_ ← assert_offset_is n w; f tt) = x.
Proof.
  intros Hb Hw -> <-. unfold assert_offset_is. rewrite (slice_holds_offset bs w) by done.
  by rewrite Z.eqb_refl.
Qed.

Lemma try_unwrap_holds bs w :
  slice_holds bs w →
  try_unwrap w = if (length bs <=? length d)%nat
                 then Some (bs ++ drop (length bs) d, Z.of_nat (length bs)) else None.
Proof.
  intros [Hl Hw]. unfold try_unwrap, sw_offset_checked.
  destruct (Nat.leb_spec (length bs) (length d)) as [Hb|Hb].
  - destruct Hw as [-> ->]. by rewrite (proj2 (Z.eqb_neq _ _)) by lia.
  - by rewrite Hw, Z.eqb_refl.
Qed.

(** An encoder leaves in the slice what it appends to a vector. *)
Lemma slice_holds_encode m hdr w :
  slice_holds hdr w → sim slice_holds (encode_onto m hdr) (encode_onto m w).
Proof. intros. apply sim_encode; [|done]. intros c w1 w2. apply slice_holds_write. Qed.
End slice_writer.

Lemma overwrite_mid (a x b y : list Z) :
  length x = length y → overwrite (a ++ x ++ b) (length a) y = a ++ y ++ b.
Proof.
  intros Hxy. unfold overwrite. rewrite take_app_length, drop_app_ge by lia.
  replace (length a + length y - length a)%nat with (length x) by lia.
  by rewrite drop_app_length.
Qed.

(** ** What the encoders write *)

Definition zeros (n : nat) : list Z := replicate n 0.

Definition hdr_v0 (m : RelayMsgOuter) (len : Z) : list Z :=
  [msg_cmd (ro_msg m); 0; 0] ++ to_be_bytes 2 (get_or_zero (ro_streamid m)) ++ [0; 0; 0; 0]
  ++ to_be_bytes 2 len.

Definition hdr_v1 (m : RelayMsgOuter) (len : Z) : list Z :=
  zeros 16 ++ [msg_cmd (ro_msg m)] ++ to_be_bytes 2 len
  ++ match ro_streamid m with Some id => to_be_bytes 2 id | None => [] end.

Definition hdr (format : RelayCellFormat) (m : RelayMsgOuter) (len : Z) : list Z :=
  match format with FV0 => hdr_v0 m len | FV1 => hdr_v1 m len end.

(** The stream ID is one that the command takes in the V1 format. *)
Definition v1_streamid_ok (m : RelayMsgOuter) : bool :=
  match expects_streamid (msg_cmd (ro_msg m)) (Some FV1), ro_streamid m with
  | WantNone, None => true
  | WantSome, Some _ => true
  | _, _ => false
  end.

Lemma length_zeros n : length (zeros n) = n.
Proof. apply length_replicate. Qed.

Lemma take_zeros n k : take n (zeros k) = zeros (Nat.min n k).
Proof. apply take_replicate. Qed.

Lemma cell_len_bound : Z.of_nat (length (zeros 509)) < usize_max.
Proof. unfold zeros. rewrite length_replicate. unfold usize_max, u64_max. lia. Qed.

#[local] Opaque to_be_bytes.

Lemma finish_cell_spec h1 x y h2 bs w :
  slice_holds (zeros 509) ((h1 ++ [x; y] ++ h2) ++ bs) w →
  (length h1 + 2 + length h2 ≤ 509)%nat →
  finish_cell (Z.of_nat (length h1 + 2 + length h2)) (Z.of_nat (length h1)) w =
    let total := (length h1 + 2 + length h2 + length bs)%nat in
    if (total <=? 509)%nat
    then Ok (h1 ++ to_be_bytes 2 (Z.of_nat (length bs)) ++ h2 ++ bs ++ zeros (509 - total),
             Z.of_nat total)
    else Err (EncBug "Encoding of relay message was too long to fit into a cell!").
Proof.
  intros Hw Hh. unfold finish_cell. rewrite (try_unwrap_holds _ cell_len_bound _ _ Hw).
  unfold zeros. rewrite drop_replicate, length_replicate, !length_app. simpl length. cbv zeta.
  replace (length h1 + (2 + length h2) + length bs)%nat
    with (length h1 + 2 + length h2 + length bs)%nat by lia.
  destruct (Nat.leb_spec (length h1 + 2 + length h2 + length bs) 509) as [Ht|Ht]; [|done].
  cbn [ok_or mbind res_mbind res_bind]. rewrite usub_ok by lia. cbn [mbind res_mbind res_bind].
  replace (Z.of_nat (length h1 + 2 + length h2 + length bs) - Z.of_nat (length h1 + 2 + length h2))
    with (Z.of_nat (length bs)) by lia.
  rewrite (proj2 (Z.ltb_lt _ _)) by (unfold u16_max; lia). cbn [debug_assert].
  rewrite !length_app, length_replicate. simpl length.
  rewrite (proj2 (Z.leb_le _ _)) by lia.
  unfold wrap. rewrite Z.mod_small by (unfold u16_max; lia).
  rewrite Nat2Z.id, <-!(assoc_L app). by rewrite (overwrite_mid h1 [x; y]).
Qed.

(** Running the body encoder behind a header and finishing the cell. *)
Lemma encode_finish m h1 x y h2 w :
  slice_holds (zeros 509) (h1 ++ [x; y] ++ h2) w →
  (length h1 + 2 + length h2 ≤ 509)%nat →
  (w ← encode_onto m w;
   finish_cell (Z.of_nat (length h1 + 2 + length h2)) (Z.of_nat (length h1)) w) =
  (bs ← encode_onto m [];
   let total := (length h1 + 2 + length h2 + length bs)%nat in
   if (total <=? 509)%nat
   then Ok (h1 ++ to_be_bytes 2 (Z.of_nat (length bs)) ++ h2 ++ bs ++ zeros (509 - total),
            Z.of_nat total)
   else Err (EncBug "Encoding of relay message was too long to fit into a cell!")).
Proof.
  intros Hw Hh.
  assert (Hs : sim (λ bs w, slice_holds (zeros 509) ((h1 ++ [x; y] ++ h2) ++ bs) w)
                 (encode_onto m []) (encode_onto m w)).
  { apply sim_encode; [|by rewrite app_nil_r].
    intros c w1 w2 H. unfold write_all at 1, vec_writer. rewrite (assoc_L app).
    apply slice_holds_write; [apply cell_len_bound|done]. }
  destruct (encode_onto m []) as [bs|e|], (encode_onto m w) as [w'|e'|]; simpl in Hs; try done.
  - simpl. by rewrite (finish_cell_spec h1 x y h2 bs w').
  - simpl. congruence.
Qed.

#[local] Opaque zeros.

Ltac cell_lengths :=
  unfold STREAM_ID_OFFSET_V0;
  rewrite ?length_app, ?length_to_be_bytes, ?length_zeros, ?length_replicate; cbn [length]; lia.

(** Steps a slice writer [H : slice_holds _ _ w] over a write of [c], and over an assertion. *)
Ltac sw_write H c := apply (slice_holds_write _ cell_len_bound c) in H.
Ltac sw_assert H :=
  match type of H with
  | slice_holds ?d ?bs ?w =>
      apply (assert_offset_holds d bs w _ (λ _, _)); [cell_lengths|exact H|cell_lengths|]
  end.

Lemma encode_v0_spec m :
  encode_to_cell_v0 m =
    (bs ← encode_onto (ro_msg m) [];
     let total := (11 + length bs)%nat in
     if (total <=? 509)%nat
     then Ok (hdr_v0 m (Z.of_nat (length bs)) ++ bs ++ zeros (509 - total), Z.of_nat total)
     else Err (EncBug "Encoding of relay message was too long to fit into a cell!")).
Proof.
  unfold encode_to_cell_v0.
  set (h1 := [msg_cmd (ro_msg m); 0; 0] ++ to_be_bytes 2 (get_or_zero (ro_streamid m))
             ++ [0; 0; 0; 0]).
  assert (Hh1 : length h1 = 9%nat) by (unfold h1; rewrite !length_app, length_to_be_bytes; done).
  change BODY_MAX_LEN_V0 with 509%nat. change (replicate 509 0) with (zeros 509).
  pose proof (slice_holds_new (zeros 509)) as H.
  unfold write_u8, write_u16, write_u32.
  sw_write H [msg_cmd (ro_msg m)]. sw_write H (to_be_bytes 2 0). sw_assert H.
  sw_write H (to_be_bytes 2 (get_or_zero (ro_streamid m))). sw_write H (to_be_bytes 4 0).
  sw_assert H. sw_write H (to_be_bytes 2 0). sw_assert H.
  pose proof (encode_finish (ro_msg m) h1 0 0 []) as Hf. rewrite Hh1 in Hf.
  rewrite Hf; [|exact H|simpl; lia].
  destruct (encode_onto (ro_msg m) []) as [bs|e|]; [|done..]. cbn [mbind res_mbind res_bind].
  change (9 + 2 + length [] + length bs)%nat with (11 + length bs)%nat. cbv zeta.
  unfold h1, hdr_v0. by rewrite <-!(assoc_L app).
Qed.

Lemma encode_v1_spec m :
  encode_to_cell_v1 m =
    if v1_streamid_ok m then
      bs ← encode_onto (ro_msg m) [];
      let total := (length (hdr_v1 m 0) + length bs)%nat in
      if (total <=? 509)%nat
      then Ok (hdr_v1 m (Z.of_nat (length bs)) ++ bs ++ zeros (509 - total), Z.of_nat total)
      else Err (EncBug "Encoding of relay message was too long to fit into a cell!")
    else Err (EncBug "Tried to encode invalid stream ID").
Proof.
  unfold encode_to_cell_v1.
  change BODY_MAX_LEN_V1 with 509%nat. change (replicate 509 0) with (zeros 509).
  pose proof (slice_holds_new (zeros 509)) as H.
  apply (slice_holds_advance _ cell_len_bound 16) in H; [|cell_lengths|done].
  unfold write_u8, write_u16. sw_write H [msg_cmd (ro_msg m)].
  change (Z.of_nat 16) with 16 in H. sw_assert H.
  apply (slice_holds_advance _ cell_len_bound 2) in H; [|cell_lengths|done].
  change (Z.of_nat 2) with 2 in H. unfold v1_streamid_ok, hdr_v1.
  destruct (expects_streamid (msg_cmd (ro_msg m)) (Some FV1)), (ro_streamid m) as [id|]; try done;
    cbn [mbind res_mbind res_bind].
  - sw_assert H.
    pose proof (encode_finish (ro_msg m) (zeros 16 ++ [msg_cmd (ro_msg m)]) 0 0 []) as Hf.
    etransitivity; [exact (Hf _ H ltac:(cell_lengths))|]. rewrite !length_app, length_to_be_bytes.
    destruct (encode_onto (ro_msg m) []) as [bs|e|]; [|done..]. cbn [mbind res_mbind res_bind].
    cbv zeta. rewrite !Nat.add_assoc, <-!(assoc_L app). reflexivity.
  - sw_write H (to_be_bytes 2 id). sw_assert H.
    pose proof (encode_finish (ro_msg m) (zeros 16 ++ [msg_cmd (ro_msg m)]) 0 0 (to_be_bytes 2 id))
      as Hf.
    rewrite length_to_be_bytes in Hf.
    etransitivity; [exact (Hf _ H ltac:(cell_lengths))|]. rewrite !length_app, length_to_be_bytes.
    destruct (encode_onto (ro_msg m) []) as [bs|e|]; [|done..]. cbn [mbind res_mbind res_bind].
    cbv zeta. rewrite !Nat.add_assoc, <-!(assoc_L app). reflexivity.
Qed.

Lemma overwrite_app_r (a b y : list Z) n :
  overwrite (a ++ b) (length a + n) y = a ++ overwrite b n y.
Proof.
  unfold overwrite. rewrite take_app_ge by lia. rewrite drop_app_ge by lia.
  replace (length a + n - length a)%nat with n by lia.
  replace (length a + n + length y - length a)%nat with (n + length y)%nat by lia.
  by rewrite <-(assoc_L app).
Qed.

Lemma length_hdr format m len : length (hdr format m len) = length (hdr format m 0).
Proof.
  destruct format; simpl; unfold hdr_v0, hdr_v1; rewrite !length_app, !length_to_be_bytes; done.
Qed.

(** Both formats at once. *)
Definition enc_cell (format : RelayCellFormat) (m : RelayMsgOuter) : res EncodeError (list Z * Z) :=
  match format with FV0 => encode_to_cell_v0 m | FV1 => encode_to_cell_v1 m end.

Lemma enc_cell_ok format m body n :
  enc_cell format m = Ok (body, n) →
  ∃ bs, encode_onto (ro_msg m) [] = Ok bs ∧ (format = FV1 → v1_streamid_ok m = true) ∧
    n = Z.of_nat (length (hdr format m 0) + length bs) ∧ n ≤ 509 ∧
    body = hdr format m (Z.of_nat (length bs)) ++ bs
           ++ zeros (509 - (length (hdr format m 0) + length bs)).
Proof.
  assert (H11 : length (hdr_v0 m 0) = 11%nat)
    by (unfold hdr_v0; rewrite !length_app, !length_to_be_bytes; done).
  destruct format; cbn [enc_cell hdr].
  - rewrite encode_v0_spec. intros (bs & Hbs & H)%bind_ok. exists bs.
    rewrite H11. cbv zeta in H. destruct (Nat.leb_spec (11 + length bs) 509) as [Hle|]; [|done].
    injection H as <- <-. repeat split; try done. lia.
  - rewrite encode_v1_spec. case_match eqn:Hv1; [|done]. intros (bs & Hbs & H)%bind_ok. exists bs.
    cbv zeta in H. destruct (Nat.leb_spec (length (hdr_v1 m 0) + length bs) 509) as [Hle|]; [|done].
    injection H as <- <-. repeat split; try done. lia.
Qed.

Lemma encode_shape format rng m cell :
  (∀ n, length (rng n) = n) → encode format rng m = Ok cell →
  ∃ bs post, encode_onto (ro_msg m) [] = Ok bs ∧ (format = FV1 → v1_streamid_ok m = true) ∧
    cell = hdr format m (Z.of_nat (length bs)) ++ bs ++ post ∧
    length cell = 509%nat ∧ take 4 post = zeros (Nat.min 4 (length post)).
Proof.
  intros Hrng Henc. unfold encode in Henc. fold (enc_cell format m) in Henc.
  apply bind_ok in Henc as ([body n] & Hb & Henc).
  apply enc_cell_ok in Hb as (bs & Hbs & Hid & -> & Hn & ->).
  set (h := hdr format m (Z.of_nat (length bs))) in *.
  assert (Hh : length (hdr format m 0) = length h) by (symmetry; apply length_hdr).
  rewrite Hh in *. set (p := (509 - (length h + length bs))%nat) in *.
  ok_inv. exists bs. change (Z.of_nat CELL_DATA_LEN - 4) with 505 in Henc.
  destruct (_ <? 505) eqn:Hlt in Henc; zify_bool; injection Henc as <-.
  - exists (overwrite (zeros p) 4 (rng (p - 4)%nat)).
    assert (Hlen : length (overwrite (zeros p) 4 (rng (p - 4)%nat)) = p).
    { unfold overwrite. rewrite !length_app, length_take, length_drop, Hrng, length_zeros. lia. }
    split; [done|]. split; [done|].
    rewrite (assoc_L app), length_app, length_app, length_zeros.
    replace (Z.to_nat (Z.of_nat (length h + length bs) + 4))
      with (length (h ++ bs) + 4)%nat by (rewrite length_app; lia).
    rewrite overwrite_app_r, <-(assoc_L app), length_app.
    replace (length h + length bs + p - (length h + length bs + 4))%nat with (p - 4)%nat by lia.
    split; [done|]. split; [rewrite !length_app, Hlen; lia|]. rewrite Hlen.
    unfold overwrite. rewrite take_app_le by (rewrite length_take, length_zeros; lia).
    by rewrite take_take, Nat.min_id, take_zeros.
  - exists (zeros p). do 3 (split; [done|]).
    split; [rewrite !length_app, length_zeros; lia|].
    by rewrite length_zeros, take_zeros.
Qed.

(** ** Round trips *)

Definition streamid_wf (id : option Z) : Prop :=
  match id with Some id => 1 ≤ id ≤ u16_max | None => True end.

Definition outer_wf (m : RelayMsgOuter) : Prop := msg_wf (ro_msg m) ∧ streamid_wf (ro_streamid m).

Lemma get_or_zero_range id : streamid_wf id → in_uint u16_max (get_or_zero id).
Proof. destruct id; simpl; unfold in_uint, u16_max; lia. Qed.

Lemma StreamId_new_some id : 1 ≤ id → StreamId_new id = Some id.
Proof. intros. unfold StreamId_new. by rewrite (proj2 (Z.eqb_neq _ _)) by lia. Qed.

Lemma StreamId_new_get_or_zero id : streamid_wf id → StreamId_new (get_or_zero id) = id.
Proof.
  destruct id; simpl; [|done]. intros []. by apply StreamId_new_some.
Qed.

(** The end of both decoders: the length, the truncation and the body. *)
Lemma decode_body cmd len bs post h (streamid : option Z) msg c :
  reads_all (decode_from_reader cmd) bs msg → len = Z.of_nat (length bs) →
  snd ((n ← rd_remaining;
        if (n <? Z.to_nat len)%nat then rd_fail (InvalidMessage "Insufficient data in relay cell")
        else _ ← truncate (Z.to_nat len); msg ← decode_from_reader cmd; mret (mkOuter streamid msg))
       (mkReader (h ++ bs ++ post) (length h) c)) = Ok (mkOuter streamid msg).
Proof.
  intros Hr ->. rewrite Nat2Z.id. unfold mbind, RD_mbind, rd_remaining, truncate, remaining.
  cbn [rd_b rd_off rd_completeness].
  assert (Hrem : (length (h ++ bs ++ post) - length h)%nat = (length bs + length post)%nat)
    by (rewrite !length_app; lia).
  rewrite Hrem, (proj2 (Nat.ltb_ge _ _)) by lia. cbn [rd_b rd_off rd_completeness]. rewrite Hrem.
  destruct (Nat.ltb_spec (length bs) (length bs + length post)) as [Hlt|Hge].
  - replace (take (length h + length bs) (h ++ bs ++ post)) with (h ++ bs)
      by (by rewrite (assoc_L app), <-length_app, take_app_length).
    by rewrite Hr.
  - destruct post; [|simpl in Hge; lia]. by rewrite app_nil_r, Hr.
Qed.

Lemma reads_then {A B} (f : RD A) (g : A → RD B) bs rest v h c x :
  reads f bs v →
  snd (g v (mkReader ((h ++ bs) ++ rest) (length (h ++ bs)) c)) = x →
  snd ((f ≫= g) (mkReader (h ++ bs ++ rest) (length h) c)) = x.
Proof.
  intros Hf <-. unfold mbind, RD_mbind. rewrite Hf.
  by rewrite <-(assoc_L app), length_app.
Qed.

Lemma decode_v0_hdr m bs post :
  outer_wf m → reads_all (decode_from_reader (msg_cmd (ro_msg m))) bs (ro_msg m) →
  Z.of_nat (length bs) < 65536 →
  unparsed_decode (UV0 (hdr_v0 m (Z.of_nat (length bs)) ++ bs ++ post)) = Ok m.
Proof.
  intros [Hm Hid] Hbs Hlen. unfold unparsed_decode, hdr_v0, from_slice.
  rewrite <-!(assoc_L app). unfold decode_v0_from_reader.
  eapply (reads_then _ _ [_] _ _ []); [apply reads_u8|].
  eapply (reads_then _ _ [_; _] _ tt); [by apply reads_advance|].
  eapply reads_then; [by apply reads_u16, get_or_zero_range|].
  eapply reads_then; [by apply reads_advance|].
  eapply reads_then; [apply reads_u16; unfold in_uint, u16_max; lia|].
  rewrite StreamId_new_get_or_zero by done.
  destruct m as [id msg]. by apply decode_body.
Qed.

Lemma decode_v1_hdr m bs post :
  outer_wf m → v1_streamid_ok m = true →
  reads_all (decode_from_reader (msg_cmd (ro_msg m))) bs (ro_msg m) → Z.of_nat (length bs) < 65536 →
  unparsed_decode (UV1 (hdr_v1 m (Z.of_nat (length bs)) ++ bs ++ post)) = Ok m.
Proof.
  intros [Hm Hid] Hv1 Hbs Hlen. unfold unparsed_decode, hdr_v1, from_slice.
  rewrite <-!(assoc_L app). unfold decode_v1_from_reader.
  eapply (reads_then _ _ (zeros 16) _ tt []); [apply reads_advance; by rewrite length_zeros|].
  eapply reads_then; [apply reads_u8|].
  eapply reads_then; [apply reads_u16; unfold in_uint, u16_max; lia|].
  unfold v1_streamid_ok in Hv1.
  destruct (expects_streamid (msg_cmd (ro_msg m)) (Some FV1)), m as [[id|] msg];
    try done; cbn [ro_streamid ro_msg] in *.
  - eapply (reads_then _ _ []); [apply reads_ret|]. by apply decode_body.
  - simpl in Hid. eapply reads_then.
    + eapply reads_bind_nil; [apply reads_u16; unfold in_uint; lia|].
      rewrite StreamId_new_some by lia. apply reads_ret.
    + by apply decode_body.
Qed.

(** C1: a relay message that encodes, in either format and with any padding, gives a cell body
    of 509 bytes, and decoding that body gives back the same stream ID and message. *)
Theorem relay_cell_roundtrip format rng m cell :
  (∀ n, length (rng n) = n) → outer_wf m → encode format rng m = Ok cell →
  length cell = 509%nat ∧ decode_singleton format cell = Ok m.
Proof.
  intros Hrng Hwf Henc.
  destruct (encode_shape _ _ _ _ Hrng Henc) as (bs & post & Hbs & Hid & -> & Hlen & _).
  split; [done|]. pose proof (body_roundtrip _ _ (proj1 Hwf) Hbs) as Hr.
  assert (Z.of_nat (length bs) < 65536) by (rewrite !length_app in Hlen; lia).
  destruct format; [by apply decode_v0_hdr|apply decode_v1_hdr; auto].
Qed.

Lemma relay_cell_roundtrip_witness :
  let m := mkOuter (Some 17) (AResolved (mkResolved [(RvIp (V4 2130706433), 60);
             (RvHostname [116; 111; 114], 7); (RvUnrecognized 9 [1; 2], 1)])) in
  ∃ cell, encode FV1 (λ n, replicate n 170) m = Ok cell ∧ length cell = 509%nat ∧
    decode_singleton FV1 cell = Ok m.
Proof.
  intros m. eexists. split; [vm_compute; reflexivity|].
  apply (relay_cell_roundtrip FV1 (λ n, replicate n 170) m).
  - intros n. apply length_replicate.
  - split; [|by vm_compute]. apply Forall_cons; split; [by vm_compute|].
    apply Forall_cons; split; [by vm_compute|]. apply Forall_singleton.
    split; [|by vm_compute]. cbn [resolved_val_wf]. by apply (bool_decide_unpack _).
  - vm_compute. reflexivity.
Defined.

(** ** Arbitrary cells *)

(** [f] does not panic; the reader it leaves is not constrained. *)
Definition no_panic {A} (f : RD A) : Prop := ∀ r, rd_wf r → snd (f r) ≠ Panic.

Lemma no_panic_bind {A B} (f : RD A) (g : A → RD B) :
  Safe f → (∀ v, no_panic (g v)) → no_panic (f ≫= g).
Proof.
  intros Hf Hg r Hr. unfold mbind, RD_mbind. destruct (Hf r Hr) as (Hp & _ & _ & Hw).
  destruct (f r) as [r' [v|e|]]; [by apply Hg|done..].
Qed.

Lemma no_panic_safe {A} (f : RD A) : Safe f → no_panic f.
Proof. intros Hf r Hr. apply (Hf r Hr). Qed.

Lemma no_panic_tail cmd len (streamid : option Z) :
  no_panic (n ← rd_remaining;
    if (n <? Z.to_nat len)%nat then rd_fail (InvalidMessage "Insufficient data in relay cell")
    else _ ← truncate (Z.to_nat len); msg ← decode_from_reader cmd; mret (mkOuter streamid msg)).
Proof.
  apply no_panic_bind; [apply _|]. intros n. case_match; [apply no_panic_safe; apply _|].
  intros r Hr. unfold mbind at 1, RD_mbind at 1, truncate. unfold rd_wf in *.
  destruct (Z.to_nat len <? remaining r)%nat; cbn beta iota;
    (apply no_panic_bind; [apply _|intros msg; apply no_panic_safe, _|]); [|done].
  unfold rd_wf. simpl. rewrite length_take. lia.
Qed.

(** Decoding never panics, whatever the 509 bytes of the cell body are: every index, slice
    conversion and loop of the decoder is within bounds, so that a hostile cell gives a message
    or an error. *)
Theorem decode_never_panics format body :
  length body = 509%nat →
  decode_singleton format body ≠ Panic ∧
  data_len (match format with FV0 => UV0 body | FV1 => UV1 body end) ≠ Panic ∧
  is_padding (E:=BytesError) (decoder_decode format body) ≠ Panic.
Proof.
  intros Hlen.
  assert (Hi : ∀ i, (i < 509)%nat → ∃ x, ∀ E, index (E:=E) body i = Ok x).
  { intros i Hi. destruct (lookup_lt_is_Some_2 body i) as [x Hx]; [lia|]. exists x.
    intros E. unfold index. by rewrite Hx. }
  assert (Hu : ∀ i E, (i + 2 ≤ 509)%nat → u16_at (E:=E) body i ≠ Panic).
  { intros i E Hi'. unfold u16_at. by rewrite (proj2 (Nat.leb_le _ _)) by lia. }
  split; [|split].
  - destruct format; unfold decode_singleton, unparsed_decode; simpl.
    + apply no_panic_bind; [apply _| |unfold rd_wf; simpl; lia]. intros cmd.
      do 4 (apply no_panic_bind; [apply _|intros ?]). apply no_panic_tail.
    + apply no_panic_bind; [apply _| |unfold rd_wf; simpl; lia]. intros u.
      do 2 (apply no_panic_bind; [apply _|intros ?]).
      apply no_panic_bind; [|intros ?; apply no_panic_tail].
      destruct (expects_streamid _ _); try apply _. apply safe_bind; [apply _|].
      intros id. destruct (StreamId_new id); apply _.
  - unfold data_len, unparsed_cmd. destruct format.
    + destruct (Hi 0%nat) as [x Hx]; [lia|]. rewrite Hx. simpl. case_match; [done|].
      specialize (Hu LENGTH_OFFSET_V0 BytesError ltac:(unfold LENGTH_OFFSET_V0; lia)).
      destruct (u16_at _ _); simpl; [by case_match|done..].
    + destruct (Hi 16%nat) as [x Hx]; [lia|]. rewrite Hx. simpl. case_match; [done|].
      specialize (Hu LENGTH_OFFSET_V1 BytesError ltac:(unfold LENGTH_OFFSET_V1; lia)).
      destruct (u16_at _ _); simpl; [by case_match|done..].
  - unfold is_padding, decoder_decode, unparsed_cmd. destruct format; simpl.
    + destruct (Hi 0%nat) as [x Hx]; [lia|]. rewrite Hx. simpl. by case_match.
    + destruct (Hi 16%nat) as [x Hx]; [lia|]. rewrite Hx. simpl. by case_match.
Qed.

Lemma decode_never_panics_witness :
  length (replicate 509 255) = 509%nat ∧ decode_singleton FV1 (replicate 509 255) ≠ Panic.
Proof.
  split; [reflexivity|]. apply (decode_never_panics FV1 (replicate 509 255)). reflexivity.
Defined.

(** ** When encoding succeeds *)

Lemma encode_no_panic_body m : encode_onto (W:=list Z) m [] ≠ Panic.
Proof.
  assert (Hc : ∀ k x (w : list Z), write_counted k x w ≠ Panic).
  { intros k x w. unfold write_counted. by case_match. }
  assert (Hl : ∀ A (f : A → list Z → res EncodeError (list Z)) l w,
            (∀ x w, f x w ≠ Panic) → write_list f l w ≠ Panic).
  { intros A f l w Hf. revert w. induction l as [|x l IH]; intros w; simpl; [done|].
    specialize (Hf x w). destruct (f x w); simpl; auto. }
  assert (Ha : ∀ a (w : list Z), AddressPort_write_onto a w ≠ Panic).
  { intros [a p] w. unfold AddressPort_write_onto, Address_write_onto, nested_finish. simpl.
    by destruct (Z.ltb _ _). }
  destruct m as [b|d|e|c|s|e|e|e|e| |t| |r|r| |u|u|d|l|l| |sw|x|x|cmd b]; simpl; try done.
  - unfold End_encode. by repeat case_match.
  - unfold Connected_encode. by repeat case_match.
  - unfold Sendme_encode. by case_match.
  - unfold Extend2_encode. case_match; [|done].
    destruct (write_list _ _ _) as [w|er|] eqn:Hw; [simpl; auto|done|].
    apply Hl in Hw; [done|]. intros ls w. unfold EncodedLinkSpec_write_onto, nested_finish. by case_match.
  - apply Hl. intros [rv ttl] w.
    assert (Hrv : ResolvedVal_write_onto rv w ≠ Panic) by (destruct rv as [[]| | | |]; simpl; auto).
    by destruct (ResolvedVal_write_onto rv w).
  - apply Ha.
  - unfold ConnectedUdp_encode. specialize (Ha (cdu_ours u) []) as Hu.
    destruct (AddressPort_write_onto (cdu_ours u) []); [apply Ha|done..].
Qed.

Definition fits (format : RelayCellFormat) (m : RelayMsgOuter) : Prop :=
  ∃ bs, encode_onto (ro_msg m) [] = Ok bs ∧ (length (hdr format m 0) + length bs ≤ 509)%nat ∧
        (format = FV1 → v1_streamid_ok m = true).

Lemma enc_cell_fits format m :
  fits format m → ∃ body n, enc_cell format m = Ok (body, n) ∧ n ≤ 509.
Proof.
  intros (bs & Hbs & Hlen & Hv1). destruct format; cbn [enc_cell hdr] in *.
  - rewrite encode_v0_spec, Hbs, ok_bind.
    replace (length (hdr_v0 m 0)) with 11%nat in Hlen
      by (unfold hdr_v0; rewrite !length_app, !length_to_be_bytes; done).
    cbv zeta. rewrite (proj2 (Nat.leb_le _ _)) by lia. eexists _, _. split; [done|lia].
  - rewrite encode_v1_spec, (Hv1 eq_refl), Hbs, ok_bind.
    cbv zeta. rewrite (proj2 (Nat.leb_le _ _)) by lia. eexists _, _. split; [done|lia].
Qed.

Lemma enc_cell_no_panic format m : enc_cell format m ≠ Panic.
Proof.
  pose proof (encode_no_panic_body (ro_msg m)) as Hb.
  destruct format; cbn [enc_cell]; rewrite ?encode_v0_spec, ?encode_v1_spec.
  - destruct (encode_onto (ro_msg m) []); [rewrite ok_bind; cbv zeta; by case_match|done..].
  - case_match; [|done].
    destruct (encode_onto (ro_msg m) []); [rewrite ok_bind; cbv zeta; by case_match|done..].
Qed.

Lemma encode_of_cell format rng m body n :
  enc_cell format m = Ok (body, n) → n ≤ 509 → is_ok (encode format rng m) = true.
Proof.
  intros He Hn. unfold encode. fold (enc_cell format m). rewrite He, ok_bind.
  change (Z.of_nat CELL_DATA_LEN) with 509. rewrite (proj2 (Z.leb_le _ _)) by done.
  cbn [debug_assert]. rewrite ok_bind. by case_match.
Qed.

(** [encode] never panics, so none of its offset assertions can fail, and it succeeds for
    exactly those messages whose body encodes and fits behind the header in 509 bytes and, in
    the V1 format, whose stream ID is one the command calls for. *)
Theorem encode_ok_iff format rng m :
  encode format rng m ≠ Panic ∧ (is_ok (encode format rng m) = true ↔ fits format m).
Proof.
  assert (Hok : fits format m → is_ok (encode format rng m) = true).
  { intros (body & n & He & Hn)%enc_cell_fits. by eapply encode_of_cell. }
  pose proof (enc_cell_no_panic format m) as Hp.
  destruct (enc_cell format m) as [[body n]|e|] eqn:He; [|split|done].
  - destruct (enc_cell_ok _ _ _ _ He) as (bs & Hbs & Hid & Hn & H509 & _).
    pose proof (encode_of_cell _ rng _ _ _ He H509) as Hi.
    split; [by destruct (encode format rng m)|]. split; [|done]. intros _. exists bs.
    split; [done|]. split; [lia|done].
  - unfold encode. fold (enc_cell format m). by rewrite He.
  - split; [|done]. unfold encode. fold (enc_cell format m). by rewrite He.
Qed.

(** [Data::try_split_from] cuts a nonempty buffer into a message and the rest without
    losing or reordering bytes, the message is as long as the format allows unless the buffer is
    exhausted, and it always encodes into a cell of that format. *)
Theorem data_split_encodes version rng inp id :
  inp ≠ [] →
  ∃ d rest, Data_try_split_from (E:=CellError) version inp = Ok (Some (d, rest)) ∧
    dt_body d ++ rest = inp ∧ dt_body d ≠ [] ∧
    (rest ≠ [] → length (dt_body d) = Data_max_body_len version) ∧
    is_ok (encode version rng (mkOuter (Some id) (AData d))) = true.
Proof.
  intros Hne. unfold Data_try_split_from, Data_new_unchecked.
  assert (Hl : (0 < length inp)%nat) by (destruct inp; simpl; [done|lia]).
  rewrite (proj2 (Nat.eqb_neq _ _)) by lia.
  set (len := Nat.min (length inp) (Data_max_body_len version)).
  assert (Hm : (488 ≤ Data_max_body_len version ≤ Data_MAXLEN)%nat)
    by (destruct version; vm_compute; lia).
  assert (Hlen : length (take len inp) = len) by (rewrite length_take; lia).
  rewrite Hlen, (proj2 (Nat.leb_le _ _)), (proj2 (Nat.leb_le _ _)) by lia. simpl.
  eexists _, _. split; [done|]. simpl. split; [apply take_drop|].
  split; [intros E; rewrite E in Hlen; simpl in Hlen; lia|]. split.
  { rewrite Hlen. intros Hr. destruct (decide (length inp ≤ len)%nat) as [Hd|Hd]; [|lia].
    by rewrite drop_ge in Hr. }
  destruct (enc_cell_fits version (mkOuter (Some id) (AData (mkData (take len inp)))))
    as (body & n & He & Hn); [|by eapply encode_of_cell].
  exists (take len inp). split; [done|]. rewrite Hlen. split; [|done].
  assert (len ≤ Data_max_body_len version)%nat by lia.
  destruct version; cbn [hdr]; unfold hdr_v0, hdr_v1, Data_max_body_len in *;
    cbn [ro_streamid ro_msg]; rewrite ?length_app, ?length_to_be_bytes, ?length_zeros; simpl;
    unfold Data_MAXLEN_V0, Data_MAXLEN_V1, CELL_DATA_LEN in *; lia.
Qed.

Lemma data_split_encodes_witness :
  ∃ d rest, Data_try_split_from (E:=CellError) FV1 (replicate 500 7) = Ok (Some (d, rest)) ∧
    length rest = 12%nat ∧
    is_ok (encode FV1 (λ n, replicate n 0) (mkOuter (Some 1) (AData d))) = true.
Proof.
  destruct (data_split_encodes FV1 (λ n, replicate n 0) (replicate 500 7) 1)
    as (d & rest & H1 & H2 & H3 & H4 & H5); [discriminate|].
  exists d, rest. split; [exact H1|]. split; [|exact H5].
  vm_compute in H1. injection H1 as <- <-. reflexivity.
Defined.

Lemma u16_at_app {E} a x rest i :
  in_uint u16_max x → i = length a → u16_at (E:=E) (a ++ to_be_bytes 2 x ++ rest) i = Ok x.
Proof.
  unfold in_uint, u16_max. intros Hx ->. unfold u16_at. rewrite !length_app, length_to_be_bytes.
  rewrite (proj2 (Nat.leb_le _ _)) by lia. rewrite drop_app_length.
  rewrite take_app_length' by (by rewrite length_to_be_bytes).
  rewrite from_to_be_bytes; [done|]. simpl. lia.
Qed.

Lemma index_app {E} a x rest i : i = length a → index (E:=E) (a ++ x :: rest) i = Ok x.
Proof. intros ->. unfold index. by rewrite list_lookup_middle. Qed.

(** The number of data bytes that [data_len] should report. *)
Definition data_bytes (m : AnyRelayMsg) : Z :=
  match m with AData d => Z.of_nat (length (dt_body d)) | _ => 0 end.

Lemma data_len_of body m bs u :
  msg_wf m → encode_onto m [] = Ok bs → Z.of_nat (length bs) ≤ 509 →
  unparsed_cmd (E:=BytesError) u = Ok (msg_cmd m) → u = UV0 body ∨ u = UV1 body →
  match u with UV0 _ => u16_at body LENGTH_OFFSET_V0 | UV1 _ => u16_at body LENGTH_OFFSET_V1 end
    = Ok (Z.of_nat (length bs)) (E:=BytesError) →
  data_len u = Ok (data_bytes m).
Proof.
  intros Hwf Hbs Hlen Hcmd Hu Hl. unfold data_len. rewrite Hcmd, ok_bind.
  assert (Hcase : (∃ d, m = AData d) ∨ (msg_cmd m =? RelayCmd.DATA) = false ∧ data_bytes m = 0).
  { destruct m; try (by right); [by left; eexists|]. right. simpl in *. split; [|done].
    apply Z.eqb_neq. rewrite !not_elem_of_cons in Hwf. by destruct_and!. }
  destruct Hcase as [[d ->]|[-> ->]]; [|done]. injection Hbs as <-. cbn [msg_cmd].
  change (negb (RelayCmd.DATA =? RelayCmd.DATA)) with false. cbn [data_bytes]. cbv iota.
  unfold BODY_MAX_LEN_V0, BODY_MAX_LEN_V1.
  destruct Hu as [-> | ->]; rewrite Hl, ok_bind; rewrite (proj2 (Z.ltb_ge _ _)) by (simpl; lia); done.
Qed.

(** what the decoder reads off an unparsed cell without parsing the message agrees with
    the message: the command, the stream ID (in V1 only where the command has one) and, for a
    DATA message, the number of data bytes. *)
Theorem unparsed_fields_agree format rng m cell :
  (∀ n, length (rng n) = n) → outer_wf m → encode format rng m = Ok cell →
  let u := match format with FV0 => UV0 cell | FV1 => UV1 cell end in
  unparsed_cmd (E:=BytesError) u = Ok (msg_cmd (ro_msg m)) ∧
  unparsed_stream_id (E:=BytesError) u = Ok (ro_streamid m) ∧
  data_len u = Ok (data_bytes (ro_msg m)).
Proof.
  intros Hrng [Hwf Hid] Henc u.
  destruct (encode_shape _ _ _ _ Hrng Henc) as (bs & post & Hbs & Hv1 & Hcell & Hlen & _).
  assert (Hb : Z.of_nat (length bs) ≤ 509) by (rewrite Hcell, !length_app in Hlen; lia).
  assert (Hbu : in_uint u16_max (Z.of_nat (length bs))) by (unfold in_uint, u16_max; lia).
  set (l := Z.of_nat (length bs)) in *.
  assert (Hcmd : unparsed_cmd (E:=BytesError) u = Ok (msg_cmd (ro_msg m))).
  { destruct format; cbn [hdr] in Hcell; unfold u; rewrite Hcell; [done|].
    unfold hdr_v1. rewrite <-!(assoc_L app). by apply index_app. }
  split; [done|]. split.
  - destruct format; cbn [hdr] in Hcell; unfold u in *; unfold unparsed_stream_id.
    + rewrite Hcell. unfold hdr_v0. rewrite <-!(assoc_L app).
      rewrite (u16_at_app [msg_cmd (ro_msg m); 0; 0] (get_or_zero (ro_streamid m)));
        [|by apply get_or_zero_range|done].
      rewrite ok_bind. by rewrite StreamId_new_get_or_zero.
    + rewrite Hcmd, ok_bind. specialize (Hv1 eq_refl). unfold v1_streamid_ok in Hv1.
      destruct (expects_streamid _ _), (ro_streamid m) as [id|] eqn:Hm; try done.
      rewrite Hcell. unfold hdr_v1. rewrite Hm. simpl in Hid.
      rewrite !(assoc_L app), <-(assoc_L app _ bs post), <-(assoc_L app _ (to_be_bytes 2 id)).
      rewrite u16_at_app; [|unfold in_uint; lia|].
      * rewrite ok_bind. by rewrite StreamId_new_some by lia.
      * rewrite !length_app, length_to_be_bytes. done.
  - apply (data_len_of cell _ bs); [done..| |]; [unfold u; destruct format; auto|].
    destruct format; cbn [hdr] in Hcell; unfold u; rewrite Hcell; unfold hdr_v0, hdr_v1.
    + rewrite (assoc_L app [_;_;_]), (assoc_L app _ [0;0;0;0]), <-(assoc_L app _ (to_be_bytes 2 l)).
      apply u16_at_app; [done|]. rewrite !length_app, length_to_be_bytes. done.
    + rewrite <-!(assoc_L app), (assoc_L app (zeros 16)). by apply u16_at_app.
Qed.

Lemma unparsed_fields_agree_witness :
  let m := mkOuter (Some 300) (AData (mkData [1; 2; 3])) in
  ∃ cell, encode FV1 (λ n, replicate n 99) m = Ok cell ∧ data_len (UV1 cell) = Ok 3.
Proof.
  intros m. eexists. split; [vm_compute; reflexivity|].
  apply (unparsed_fields_agree FV1 (λ n, replicate n 99) m).
  - intros n. apply length_replicate.
  - split; [discriminate|]. by vm_compute.
  - vm_compute. reflexivity.
Defined.
