(* ===== verification/ChanCell.v ===== *)
(** * ChanCell: channel cells

    [tor-cell/src/chancell.rs], the messages of [chancell/msg.rs], the sets of messages that
    [restrict.rs] derives from them, and the codec of [chancell/codec.rs], which frames cells in
    the bytes of a channel.  A [BytesMut] or [Vec<u8>] is a list of bytes.  A restricted set of
    messages is the list of its commands, or all messages with [Unrecognized] for the rest.
    Parsing the certificates of a CERTS cell belongs to another crate and is not modelled here. *)

From S2P Require Import Prelude Bytes Codec RelayMsg RelayCell.

(** ** Commands *)

Module ChanCmd.
Definition PADDING : Z := 0.
Definition CREATE : Z := 1.
Definition CREATED : Z := 2.
Definition RELAY : Z := 3.
Definition DESTROY : Z := 4.
Definition CREATE_FAST : Z := 5.
Definition CREATED_FAST : Z := 6.
Definition VERSIONS : Z := 7.
Definition NETINFO : Z := 8.
Definition RELAY_EARLY : Z := 9.
Definition CREATE2 : Z := 10.
Definition CREATED2 : Z := 11.
Definition PADDING_NEGOTIATE : Z := 12.
Definition VPADDING : Z := 128.
Definition CERTS : Z := 129.
Definition AUTH_CHALLENGE : Z := 130.
Definition AUTHENTICATE : Z := 131.
Definition AUTHORIZE : Z := 132.

(** [ChanCmd::is_var_cell]. *)
Definition is_var_cell (cmd : Z) : bool := (cmd =? VERSIONS) || (128 <=? cmd).

Inductive CircIdReq : Type := CidNone | CidSome | CidAny.

Definition allows_circid (cmd : Z) : CircIdReq :=
  if bool_decide (cmd ∈ [PADDING; NETINFO; PADDING_NEGOTIATE; VERSIONS; VPADDING; CERTS; AUTH_CHALLENGE;
                         AUTHENTICATE])
  then CidNone
  else if bool_decide (cmd ∈ [CREATE; CREATED; RELAY; DESTROY; CREATE_FAST; CREATED_FAST; RELAY_EARLY;
                              CREATE2; CREATED2])
  then CidSome
  else CidAny.

Definition accepts_circid_val (cmd : Z) (id : option Z) : bool :=
  match allows_circid cmd with
  | CidNone => bool_decide (id = None)
  | CidSome => bool_decide (id ≠ None)
  | CidAny => true
  end.
End ChanCmd.

Definition CircId_new (val : Z) : option Z := if val =? 0 then None else Some val.
Definition CircId_get_or_zero (circ_id : option Z) : Z := default 0 circ_id.

(** ** Messages *)

Module HandshakeType.
Definition TAP : Z := 0.
Definition NTOR : Z := 2.
Definition NTOR_V3 : Z := 3.
End HandshakeType.

Module PaddingNegotiateCmd.
Definition STOP : Z := 1.
Definition START : Z := 2.
End PaddingNegotiateCmd.

Record Netinfo : Type := mkNetinfo {
  ni_timestamp : Z;
  ni_their_addr : option IpAddr;
  ni_my_addr : list IpAddr }.

Record PaddingNegotiate : Type := mkPaddingNegotiate {
  pn_command : Z;
  pn_ito_low_ms : Z;
  pn_ito_high_ms : Z }.

Record TorCert : Type := mkTorCert { tc_certtype : Z; tc_cert : list Z }.
Record AuthChallenge : Type := mkAuthChallenge { ac_challenge : list Z; ac_methods : list Z }.
Record Authenticate : Type := mkAuthenticate { au_authtype : Z; au_auth : list Z }.
Record Create2 : Type := mkCreate2 { c2_handshake_type : Z; c2_handshake : list Z }.

(** A handshake of a fixed length, a relay cell and the list of versions are their contents. *)
Inductive AnyChanMsg : Type :=
| CmPadding
| CmVpadding (len : Z)
| CmCreate (handshake : list Z)
| CmCreateFast (handshake : list Z)
| CmCreate2 (m : Create2)
| CmCreated (handshake : list Z)
| CmCreatedFast (handshake : list Z)
| CmCreated2 (handshake : list Z)
| CmRelay (body : list Z)
| CmRelayEarly (body : list Z)
| CmDestroy (reason : Z)
| CmNetinfo (m : Netinfo)
| CmVersions (versions : list Z)
| CmPaddingNegotiate (m : PaddingNegotiate)
| CmCerts (certs : list TorCert)
| CmAuthChallenge (m : AuthChallenge)
| CmAuthenticate (m : Authenticate)
| CmUnrecognized (cmd : Z) (content : list Z).

Definition chan_msg_cmd (m : AnyChanMsg) : Z :=
  match m with
  | CmPadding => ChanCmd.PADDING
  | CmVpadding _ => ChanCmd.VPADDING
  | CmCreate _ => ChanCmd.CREATE
  | CmCreateFast _ => ChanCmd.CREATE_FAST
  | CmCreate2 _ => ChanCmd.CREATE2
  | CmCreated _ => ChanCmd.CREATED
  | CmCreatedFast _ => ChanCmd.CREATED_FAST
  | CmCreated2 _ => ChanCmd.CREATED2
  | CmRelay _ => ChanCmd.RELAY
  | CmRelayEarly _ => ChanCmd.RELAY_EARLY
  | CmDestroy _ => ChanCmd.DESTROY
  | CmNetinfo _ => ChanCmd.NETINFO
  | CmVersions _ => ChanCmd.VERSIONS
  | CmPaddingNegotiate _ => ChanCmd.PADDING_NEGOTIATE
  | CmCerts _ => ChanCmd.CERTS
  | CmAuthChallenge _ => ChanCmd.AUTH_CHALLENGE
  | CmAuthenticate _ => ChanCmd.AUTHENTICATE
  | CmUnrecognized cmd _ => cmd
  end.

Definition TAP_C_HANDSHAKE_LEN : nat := 128 + 16 + 42.
Definition TAP_S_HANDSHAKE_LEN : nat := 128 + 20.
Definition CHAN_FAST_C_HANDSHAKE_LEN : nat := 20.
Definition CHAN_FAST_S_HANDSHAKE_LEN : nat := 20 + 20.
Definition CHALLENGE_LEN : nat := 32.

(** [Versions::best_shared_link_protocol] and [Versions::new]. *)
Definition best_shared_link_protocol (versions my_protos : list Z) : option Z :=
  let p := foldl Z.max 0 (filter (λ p, p ∈ versions) my_protos) in
  if p =? 0 then None else Some p.

Definition Versions_new (vs : list Z) : option (list Z) :=
  if Z.of_nat (length vs) <? u16_max / 2 then Some vs else None.

Definition Netinfo_from_client (their_addr : option IpAddr) : Netinfo := mkNetinfo 0 their_addr [].
Definition Netinfo_from_relay (timestamp : Z) (their_addr : option IpAddr) (my_addrs : list IpAddr) :
    Netinfo := mkNetinfo timestamp their_addr my_addrs.

(** The seconds since the epoch. *)
Definition Netinfo_timestamp (m : Netinfo) : option Z :=
  if ni_timestamp m =? 0 then None else Some (ni_timestamp m).

Definition PaddingNegotiate_start_default : PaddingNegotiate :=
  mkPaddingNegotiate PaddingNegotiateCmd.START 0 0.
Definition PaddingNegotiate_start (ito_low ito_high : Z) : PaddingNegotiate :=
  mkPaddingNegotiate PaddingNegotiateCmd.START ito_low ito_high.
Definition PaddingNegotiate_stop : PaddingNegotiate := mkPaddingNegotiate PaddingNegotiateCmd.STOP 0 0.

(** [Certs::cert_body]: the first certificate of the type. *)
Definition cert_body (certs : list TorCert) (tp : Z) : option (list Z) :=
  (λ '(_, c), tc_cert c) <$> list_find (λ c, tc_certtype c = tp) certs.

(** ** Encoding bodies *)

#[local] Abbreviation W := (list Z).

Definition enc_one_netinfo_addr (addr : IpAddr) (w : W) : W :=
  match addr with
  | V4 _ => write_ip addr (write_u8 4 (write_u8 4 w))
  | V6 _ => write_ip addr (write_u8 16 (write_u8 6 w))
  end.

Definition Netinfo_encode (m : Netinfo) (w : W) : res EncodeError W :=
  let w := write_u32 (ni_timestamp m) w in
  let w := enc_one_netinfo_addr (default (V4 0) (ni_their_addr m)) w in
  if Z.of_nat (length (ni_my_addr m)) <=? u8_max then
    let w := write_u8 (Z.of_nat (length (ni_my_addr m))) w in
    write_list (λ addr w, Ok (enc_one_netinfo_addr addr w)) (ni_my_addr m) w
  else Err EncBadLengthValue.

Definition Create2_encode (m : Create2) (w : W) : res EncodeError W :=
  write_counted 2 (c2_handshake m) (write_u16 (c2_handshake_type m) w).

Definition Versions_encode (versions : list Z) (w : W) : res EncodeError W :=
  write_list (λ v w, Ok (write_u16 v w)) versions w.

Definition PaddingNegotiate_encode (m : PaddingNegotiate) (w : W) : res EncodeError W :=
  let w := write_u8 0 w in
  let w := write_u8 (pn_command m) w in
  let w := write_u16 (pn_ito_low_ms m) w in
  Ok (write_u16 (pn_ito_high_ms m) w).

Definition enc_one_tor_cert (c : TorCert) (w : W) : res EncodeError W :=
  write_counted 2 (tc_cert c) (write_u8 (tc_certtype c) w).

Definition Certs_encode (certs : list TorCert) (w : W) : res EncodeError W :=
  if Z.of_nat (length certs) <=? u8_max
  then write_list enc_one_tor_cert certs (write_u8 (Z.of_nat (length certs)) w)
  else Err EncBadLengthValue.

Definition AuthChallenge_encode (m : AuthChallenge) (w : W) : res EncodeError W :=
  let w := write_all (ac_challenge m) w in
  if Z.of_nat (length (ac_methods m)) <=? u16_max
  then write_list (λ m w, Ok (write_u16 m w)) (ac_methods m)
         (write_u16 (Z.of_nat (length (ac_methods m))) w)
  else Err EncBadLengthValue.

Definition Authenticate_encode (m : Authenticate) (w : W) : res EncodeError W :=
  write_counted 2 (au_auth m) (write_u16 (au_authtype m) w).

Definition chan_encode_onto (m : AnyChanMsg) (w : W) : res EncodeError W :=
  match m with
  | CmPadding => Ok w
  | CmVpadding len => Ok (write_zeros (Z.to_nat len) w)
  | CmCreate h | CmCreateFast h | CmCreated h | CmCreatedFast h => Ok (write_all h w)
  | CmCreate2 m => Create2_encode m w
  | CmCreated2 h => write_counted 2 h w
  | CmRelay body | CmRelayEarly body => Ok (write_all body w)
  | CmDestroy reason => Ok (write_u8 reason w)
  | CmNetinfo m => Netinfo_encode m w
  | CmVersions versions => Versions_encode versions w
  | CmPaddingNegotiate m => PaddingNegotiate_encode m w
  | CmCerts certs => Certs_encode certs w
  | CmAuthChallenge m => AuthChallenge_encode m w
  | CmAuthenticate m => Authenticate_encode m w
  | CmUnrecognized _ content => Ok (write_all content w)
  end.

(** [Versions::encode_for_handshake]: with the circuit identifier of two bytes. *)
Definition encode_for_handshake (versions : list Z) : res EncodeError W :=
  let v := write_u16 0 [] in
  let v := write_u8 ChanCmd.VERSIONS v in
  let v := write_u16 (Z.of_nat (length versions) * 2) v in
  Versions_encode versions v.

(** ** Decoding bodies *)

Definition Vpadding_take_from : RD AnyChanMsg :=
  n ← rd_remaining;
  if u16_max <? Z.of_nat n then rd_fail (InvalidMessage "Too many bytes in VPADDING cell")
  else mret (CmVpadding (Z.of_nat n)).

Definition Create2_take_from : RD Create2 :=
  handshake_type ← take_u16; hlen ← take_u16; handshake ← rd_take (Z.to_nat hlen);
  mret (mkCreate2 handshake_type handshake).

Definition Created2_take_from : RD (list Z) :=
  hlen ← take_u16; handshake ← rd_take (Z.to_nat hlen); mret handshake.

Definition take_one_netinfo_addr : RD (option IpAddr) :=
  atype ← take_u8; alen ← take_u8; abody ← rd_take (Z.to_nat alen);
  mret (if (atype =? 4) && (alen =? 4) then Some (V4 (from_be_bytes abody))
        else if (atype =? 6) && (alen =? 16) then Some (V6 (from_be_bytes abody))
        else None).

Definition is_unspecified (a : IpAddr) : bool := match a with V4 a => a =? 0 | V6 a => a =? 0 end.

Definition Netinfo_take_from : RD Netinfo :=
  timestamp ← take_u32;
  their_addr ← take_one_netinfo_addr;
  my_n_addrs ← take_u8;
  my_addr ← repeat_read take_one_netinfo_addr (Z.to_nat my_n_addrs);
  mret (mkNetinfo timestamp (their_addr ≫= λ a, if is_unspecified a then None else Some a)
          (omap id my_addr)).

Definition PaddingNegotiate_take_from : RD PaddingNegotiate :=
  v ← take_u8;
  if negb (v =? 0) then rd_fail (InvalidMessage "Unrecognized padding negotiation version")
  else
    command ← take_u8; ito_low_ms ← take_u16; ito_high_ms ← take_u16;
    mret (mkPaddingNegotiate command ito_low_ms ito_high_ms).

Definition take_one_tor_cert : RD TorCert :=
  certtype ← take_u8; certlen ← take_u16; cert ← rd_take (Z.to_nat certlen);
  mret (mkTorCert certtype cert).

Definition Certs_take_from : RD (list TorCert) :=
  n ← take_u8; repeat_read take_one_tor_cert (Z.to_nat n).

Definition AuthChallenge_take_from : RD AuthChallenge :=
  challenge ← extract (take_array CHALLENGE_LEN);
  n_methods ← take_u16;
  methods ← repeat_read take_u16 (Z.to_nat n_methods);
  mret (mkAuthChallenge challenge methods).

Definition Authenticate_take_from : RD Authenticate :=
  authtype ← take_u16; authlen ← take_u16; auth ← rd_take (Z.to_nat authlen);
  mret (mkAuthenticate authtype auth).

(** The reader of the body of each command that [AnyChanMsg] has a message for. *)
Definition chan_body (cmd : Z) : option (RD AnyChanMsg) :=
  if cmd =? ChanCmd.PADDING then Some (mret CmPadding)
  else if cmd =? ChanCmd.VPADDING then Some Vpadding_take_from
  else if cmd =? ChanCmd.CREATE then Some (h ← rd_take TAP_C_HANDSHAKE_LEN; mret (CmCreate h))
  else if cmd =? ChanCmd.CREATE_FAST
  then Some (h ← rd_take CHAN_FAST_C_HANDSHAKE_LEN; mret (CmCreateFast h))
  else if cmd =? ChanCmd.CREATE2 then Some (m ← Create2_take_from; mret (CmCreate2 m))
  else if cmd =? ChanCmd.CREATED then Some (h ← rd_take TAP_S_HANDSHAKE_LEN; mret (CmCreated h))
  else if cmd =? ChanCmd.CREATED_FAST
  then Some (h ← rd_take CHAN_FAST_S_HANDSHAKE_LEN; mret (CmCreatedFast h))
  else if cmd =? ChanCmd.CREATED2 then Some (h ← Created2_take_from; mret (CmCreated2 h))
  else if cmd =? ChanCmd.RELAY then Some (b ← rd_take CELL_DATA_LEN; mret (CmRelay b))
  else if cmd =? ChanCmd.RELAY_EARLY then Some (b ← rd_take CELL_DATA_LEN; mret (CmRelayEarly b))
  else if cmd =? ChanCmd.DESTROY then Some (reason ← take_u8; mret (CmDestroy reason))
  else if cmd =? ChanCmd.NETINFO then Some (m ← Netinfo_take_from; mret (CmNetinfo m))
  else if cmd =? ChanCmd.VERSIONS then Some (vs ← while_remaining take_u16; mret (CmVersions vs))
  else if cmd =? ChanCmd.PADDING_NEGOTIATE
  then Some (m ← PaddingNegotiate_take_from; mret (CmPaddingNegotiate m))
  else if cmd =? ChanCmd.CERTS then Some (m ← Certs_take_from; mret (CmCerts m))
  else if cmd =? ChanCmd.AUTH_CHALLENGE then Some (m ← AuthChallenge_take_from; mret (CmAuthChallenge m))
  else if cmd =? ChanCmd.AUTHENTICATE then Some (m ← Authenticate_take_from; mret (CmAuthenticate m))
  else None.

(** A set of messages: [AnyChanMsg] itself, or the enumerated ones only. *)
Inductive ChanMsgSet : Type := AllMsgs | OnlyMsgs (cmds : list Z).

Definition set_has (s : ChanMsgSet) (cmd : Z) : bool :=
  match s with AllMsgs => true | OnlyMsgs cmds => bool_decide (cmd ∈ cmds) end.

(** [decode_from_reader] of a set. *)
Definition chan_decode_from_reader (s : ChanMsgSet) (cmd : Z) : RD AnyChanMsg :=
  match chan_body cmd, s with
  | Some body, _ =>
      if set_has s cmd then extract body else rd_fail (InvalidMessage "Unexpected command")
  | None, AllMsgs => n ← rd_remaining; content ← rd_take n; mret (CmUnrecognized cmd content)
  | None, OnlyMsgs _ => rd_fail (InvalidMessage "Unexpected command")
  end.

(** [TryFrom<AnyChanMsg>] for a set: an [Unrecognized] message is in no enumerated set, whatever
    its command. *)
Definition in_msg_set (s : ChanMsgSet) (m : AnyChanMsg) : bool :=
  match s, m with
  | AllMsgs, _ => true
  | OnlyMsgs _, CmUnrecognized _ _ => false
  | OnlyMsgs cmds, m => bool_decide (chan_msg_cmd m ∈ cmds)
  end.

(** ** The codec *)

Record ChanCell : Type := mkChanCell { cl_circid : option Z; cl_msg : AnyChanMsg }.

Inductive CellError : Type :=
| CellInternal (msg : string)
| CellEncode (e : EncodeError)
| CellBytesErr (e : BytesError) (parsed : string)
| CellChanProto (msg : string).

(** [ChannelCodec::write_cell] appends the cell to [dst]; after an error [dst] is not used. *)
Definition write_cell (item : ChanCell) (dst : list Z) : res CellError (list Z) :=
  let cmd := chan_msg_cmd (cl_msg item) in
  let dst := write_u32 (CircId_get_or_zero (cl_circid item)) dst in
  let dst := write_u8 cmd dst in
  let pos := length dst in
  if ChanCmd.is_var_cell cmd then
    let dst := write_u16 0 dst in
    dst ← map_err CellEncode (chan_encode_onto (cl_msg item) dst);
    let len := (length dst - pos - 2)%nat in
    if u16_max <? Z.of_nat len then Err (CellInternal "ran out of space for varcell")
    else Ok (take pos dst ++ to_be_bytes 2 (Z.of_nat len) ++ drop (pos + 2) dst)
  else
    dst ← map_err CellEncode (chan_encode_onto (cl_msg item) dst);
    let len := (length dst - pos)%nat in
    if (CELL_DATA_LEN <? len)%nat then Err (CellInternal "ran out of space for cell")
    else Ok (write_zeros (CELL_DATA_LEN - len) dst).

(** The length of the first cell of [src], which holds seven bytes or more. *)
Definition cell_len_of (src : list Z) (cmd : Z) : nat :=
  if ChanCmd.is_var_cell cmd
  then Z.to_nat (from_be_bytes (take 2 (drop 5 src))) + 7
  else 514.

Definition decode_cell (s : ChanMsgSet) (src : list Z) :
    list Z * res CellError (option ChanCell) :=
  if (length src <? 7)%nat then (src, Ok None)
  else match src !! 4%nat with
  | None => (src, Panic)
  | Some cmd =>
      let cell_len := cell_len_of src cmd in
      if (length src <? cell_len)%nat then (src, Ok None)
      else
        let cell := take cell_len src in
        let '(_, out) :=
          (id ← take_u32;
           _ ← advance (if ChanCmd.is_var_cell cmd then 3 else 1);
           msg ← chan_decode_from_reader s cmd;
           mret (CircId_new id, msg)) (from_slice cell) in
        (drop cell_len src,
         '(circid, msg) ← map_err (λ e, CellBytesErr e "channel cell") out;
         if negb (ChanCmd.accepts_circid_val cmd circid)
         then Err (CellChanProto "Invalid circuit ID for cell command")
         else Ok (Some (mkChanCell circid msg)))
  end.

(** ** Bodies read back *)

Definition netinfo_wf (m : Netinfo) : Prop :=
  in_uint u32_max (ni_timestamp m) ∧
  from_option (λ a, ip_wf a ∧ is_unspecified a = false) True (ni_their_addr m) ∧
  Forall ip_wf (ni_my_addr m).

(** The fields have their widths, and a message is what its decoder would return: a fixed-length
    handshake has its length, an address that stands for no address is left out. *)
Definition chan_msg_wf (m : AnyChanMsg) : Prop :=
  match m with
  | CmPadding => True
  | CmVpadding len => in_uint u16_max len
  | CmCreate h => length h = TAP_C_HANDSHAKE_LEN
  | CmCreateFast h => length h = CHAN_FAST_C_HANDSHAKE_LEN
  | CmCreate2 m => in_uint u16_max (c2_handshake_type m)
  | CmCreated h => length h = TAP_S_HANDSHAKE_LEN
  | CmCreatedFast h => length h = CHAN_FAST_S_HANDSHAKE_LEN
  | CmCreated2 _ => True
  | CmRelay b | CmRelayEarly b => length b = CELL_DATA_LEN
  | CmDestroy reason => byte_ok reason
  | CmNetinfo m => netinfo_wf m
  | CmVersions vs => Forall (in_uint u16_max) vs
  | CmPaddingNegotiate m =>
      byte_ok (pn_command m) ∧ in_uint u16_max (pn_ito_low_ms m) ∧ in_uint u16_max (pn_ito_high_ms m)
  | CmCerts certs => Forall (λ c, byte_ok (tc_certtype c)) certs
  | CmAuthChallenge m => length (ac_challenge m) = CHALLENGE_LEN ∧ Forall (in_uint u16_max) (ac_methods m)
  | CmAuthenticate m => in_uint u16_max (au_authtype m)
  | CmUnrecognized cmd content =>
      byte_ok cmd ∧ chan_body cmd = None ∧
      (ChanCmd.is_var_cell cmd = false → length content = CELL_DATA_LEN)
  end.

#[local] Opaque to_be_bytes.

Lemma reads_netinfo_addr a (w : W) :
  ip_wf a → ∃ c, enc_one_netinfo_addr a w = w ++ c ∧ reads take_one_netinfo_addr c (Some a).
Proof.
  unfold take_one_netinfo_addr, write_ip.
  destruct a as [a|a]; intros Ha; unfold enc_one_netinfo_addr, write_ip, write_u8, write_all, vec_writer.
  - eexists ([4] ++ [4] ++ to_be_bytes 4 a). split; [by rewrite <-!(assoc_L app)|].
    do 2 (eapply reads_bind; [apply reads_u8|]).
    eapply reads_bind_nil; [apply reads_take'; by rewrite length_to_be_bytes|].
    simpl. rewrite from_to_be_bytes by (unfold ip_wf, in_uint, u32_max in Ha; simpl; lia). apply reads_ret.
  - eexists ([6] ++ [16] ++ to_be_bytes 16 a). split; [by rewrite <-!(assoc_L app)|].
    do 2 (eapply reads_bind; [apply reads_u8|]).
    eapply reads_bind_nil; [apply reads_take'; by rewrite length_to_be_bytes|].
    simpl. rewrite from_to_be_bytes by (unfold ip_wf, in_uint, u128_max in Ha; simpl; lia). apply reads_ret.
Qed.

Lemma reads_netinfo m (w bs : W) :
  netinfo_wf m → Netinfo_encode m w = Ok bs → ∃ c, bs = w ++ c ∧ reads Netinfo_take_from c m.
Proof.
  destruct m as [ts ta ma]. intros (Hts & Hta & Hma). unfold Netinfo_encode. simpl in *.
  destruct (reads_netinfo_addr (default (V4 0) ta) (write_u32 ts w)) as (c1 & -> & H1).
  { destruct ta; simpl in *; [by apply Hta|done]. }
  destruct (Z.leb_spec (Z.of_nat (length ma)) u8_max) as [Hl|]; [|done]. intros Hw.
  eapply (reads_repeat _ _ Some) in Hw as (c2 & -> & H2); last first.
  { eapply Forall_impl; [exact Hma|]. intros a Ha w' bs' [= <-]. by apply reads_netinfo_addr. }
  unfold write_u32, write_u8, write_all, vec_writer.
  eexists (to_be_bytes 4 ts ++ c1 ++ [_] ++ c2). split; [by rewrite <-!(assoc_L app)|].
  eapply reads_bind; [by apply reads_u32|]. eapply reads_bind; [exact H1|].
  eapply reads_bind; [apply reads_u8|]. rewrite Nat2Z.id.
  eapply reads_bind_nil; [exact H2|].
  replace (omap id (Some <$> ma)) with ma by (clear; induction ma; simpl; by f_equal).
  replace (Some (default (V4 0) ta) ≫= _) with ta; [apply reads_ret|].
  destruct ta as [a|]; simpl in *; [|done]. by rewrite (proj2 Hta).
Qed.

Lemma reads_create2 m (w bs : W) :
  in_uint u16_max (c2_handshake_type m) → Create2_encode m w = Ok bs →
  ∃ c, bs = w ++ c ∧ reads Create2_take_from c m.
Proof.
  destruct m as [tp h]. unfold Create2_encode, write_u16, write_all, vec_writer. simpl.
  intros Ht [-> Hl]%write_counted_vec. rewrite <-(assoc_L app). eexists. split; [done|].
  eapply reads_bind; [by apply reads_u16|]. apply reads_counted2; [done|apply reads_ret].
Qed.

Lemma reads_authenticate m (w bs : W) :
  in_uint u16_max (au_authtype m) → Authenticate_encode m w = Ok bs →
  ∃ c, bs = w ++ c ∧ reads Authenticate_take_from c m.
Proof.
  destruct m as [tp h]. unfold Authenticate_encode, write_u16, write_all, vec_writer. simpl.
  intros Ht [-> Hl]%write_counted_vec. rewrite <-(assoc_L app). eexists. split; [done|].
  eapply reads_bind; [by apply reads_u16|]. apply reads_counted2; [done|apply reads_ret].
Qed.

Lemma reads_u16s l (w bs : W) :
  Forall (in_uint u16_max) l → write_list (λ v w, Ok (write_u16 v w)) l w = Ok bs →
  ∃ c, bs = w ++ c ∧ reads (repeat_read take_u16 (length l)) c l ∧ reads_all (while_remaining take_u16) c l.
Proof.
  intros Hl Hw.
  assert (Forall (λ x, ∀ w bs : W, Ok (E:=EncodeError) (write_u16 x w) = Ok bs →
            ∃ c, bs = w ++ c ∧ c ≠ [] ∧ reads take_u16 c x) l) as Hi.
  { eapply Forall_impl; [exact Hl|]. intros x Hx w' bs' [= <-]. exists (to_be_bytes 2 x).
    split; [done|]. split; [by intros H%(f_equal length); rewrite length_to_be_bytes in H|by apply reads_u16]. }
  destruct (reads_while take_u16 (λ v w, Ok (write_u16 v w)) l w bs Hi Hw) as (c & -> & Hc).
  destruct (reads_repeat take_u16 (λ v w, Ok (write_u16 v w)) id l w (w ++ c)) as (c' & Heq & Hc'); [|done|].
  { eapply Forall_impl; [exact Hi|]. intros x Hx w' bs' Hb. destruct (Hx w' bs' Hb) as (d & ? & _ & ?). eauto. }
  apply app_inv_head in Heq as <-. rewrite list_fmap_id in Hc'. eauto.
Qed.

Lemma reads_certs l (w bs : W) :
  Forall (λ c, byte_ok (tc_certtype c)) l → Certs_encode l w = Ok bs →
  ∃ c, bs = w ++ c ∧ reads Certs_take_from c l.
Proof.
  intros Hl. unfold Certs_encode. case_match; [|done]. zify_bool. intros Hw.
  eapply (reads_repeat take_one_tor_cert _ id) in Hw as (c & -> & Hc); last first.
  { eapply Forall_impl; [exact Hl|]. intros [tp b] Hb w' bs'. unfold enc_one_tor_cert. simpl.
    intros [-> Hlen]%write_counted_vec. unfold write_u8, write_all, vec_writer.
    rewrite <-(assoc_L app). eexists. split; [done|].
    eapply reads_bind; [apply reads_u8|]. apply reads_counted2; [done|apply reads_ret]. }
  unfold write_u8, write_all, vec_writer. rewrite <-(assoc_L app). eexists. split; [done|].
  eapply reads_bind; [apply reads_u8|]. rewrite Nat2Z.id, list_fmap_id in *. done.
Qed.

Lemma reads_auth_challenge m (w bs : W) :
  length (ac_challenge m) = CHALLENGE_LEN → Forall (in_uint u16_max) (ac_methods m) →
  AuthChallenge_encode m w = Ok bs → ∃ c, bs = w ++ c ∧ reads AuthChallenge_take_from c m.
Proof.
  destruct m as [ch ms]. simpl. intros Hc Hm. unfold AuthChallenge_encode. simpl.
  case_match; [|done]. zify_bool. intros (c & -> & Hr & _)%reads_u16s; [|done].
  unfold write_u16, write_all, vec_writer. rewrite <-!(assoc_L app). eexists. split; [done|].
  eapply reads_bind; [by apply reads_extract, reads_take'|].
  eapply reads_bind; [apply reads_u16; unfold in_uint; lia|].
  rewrite Nat2Z.id. eapply reads_bind_nil; [exact Hr|apply reads_ret].
Qed.

Lemma reads_padding_negotiate m (w bs : W) :
  chan_msg_wf (CmPaddingNegotiate m) → PaddingNegotiate_encode m w = Ok bs →
  ∃ c, bs = w ++ c ∧ reads PaddingNegotiate_take_from c m.
Proof.
  destruct m as [c lo hi]. intros (Hc & Hlo & Hhi). simpl in *.
  unfold PaddingNegotiate_encode, write_u8, write_u16, write_all, vec_writer. simpl. intros [= <-].
  eexists ([0] ++ [c] ++ to_be_bytes 2 lo ++ to_be_bytes 2 hi). split; [by rewrite <-!(assoc_L app)|].
  eapply reads_bind; [apply reads_u8|]. cbn [Z.eqb negb]. eapply reads_bind; [apply reads_u8|].
  eapply reads_bind; [by apply reads_u16|]. eapply reads_bind_nil; [by apply reads_u16|apply reads_ret].
Qed.

Lemma yields_zeros n : in_uint u16_max (Z.of_nat n) → yields Vpadding_take_from (replicate n 0) (CmVpadding (Z.of_nat n)).
Proof.
  intros Hn pre c. unfold Vpadding_take_from, mbind, RD_mbind, rd_remaining, remaining. cbn [rd_b rd_off].
  rewrite length_app, length_replicate. replace (length pre + n - length pre)%nat with n by lia.
  by rewrite (proj2 (Z.ltb_ge _ _)) by (unfold in_uint in Hn; lia).
Qed.

Lemma yields_unrecognized cmd content :
  yields (n ← rd_remaining; content ← rd_take n; mret (CmUnrecognized cmd content)) content
    (CmUnrecognized cmd content).
Proof.
  apply yields_all, reads_all_remaining. eapply reads_all_bind_l; [|apply reads_ret].
  apply reads_all_of, reads_take.
Qed.

(** The body of a message, with the padding of its cell, reads back as the message. *)
Lemma chan_body_roundtrip s m (w bs : W) :
  chan_msg_wf m → in_msg_set s m = true → chan_encode_onto m w = Ok bs →
  ∃ c, bs = w ++ c ∧ ∀ n,
    (if ChanCmd.is_var_cell (chan_msg_cmd m) then n = 0%nat else (length c + n = CELL_DATA_LEN)%nat) →
    yields (chan_decode_from_reader s (chan_msg_cmd m)) (c ++ replicate n 0) m.
Proof.
  intros Hwf Hs Henc. unfold chan_decode_from_reader.
  destruct (chan_body (chan_msg_cmd m)) as [body|] eqn:Hb; last first.
  { destruct m; try discriminate Hb. destruct s; [|discriminate Hs]. simpl in *.
    injection Henc as <-. exists content. split; [done|]. intros n Hn.
    destruct Hwf as (_ & _ & Hlen). replace n with 0%nat; [rewrite app_nil_r; apply yields_unrecognized|].
    destruct (ChanCmd.is_var_cell cmd); [done|]. specialize (Hlen eq_refl). lia. }
  assert (set_has s (chan_msg_cmd m) = true) as ->.
  { destruct s; [done|]. destruct m; simpl in *; done. }
  cut (∃ c, bs = w ++ c ∧ ∀ n,
    (if ChanCmd.is_var_cell (chan_msg_cmd m) then n = 0%nat else (length c + n = CELL_DATA_LEN)%nat) →
    yields body (c ++ replicate n 0) m).
  { intros (c & -> & Hc). exists c. split; [done|]. intros n Hn. by apply yields_extract, Hc. }
  destruct m; try (destruct Hwf as (_ & Hnone & _); cbn [chan_msg_cmd] in Hb; congruence);
    simpl in Hb; injection Hb as <-; cbn [chan_msg_wf chan_encode_onto chan_msg_cmd] in *;
    try (injection Henc as <-; unfold write_all, vec_writer; eexists; split; [done|]; intros n _;
         apply yields_map, yields_reads; by apply reads_take').
  - injection Henc as <-. exists []. rewrite app_nil_r. split; [done|]. by intros n _ pre c.
  - injection Henc as <-. exists (replicate (Z.to_nat len) 0). split; [done|]. intros n ->.
    rewrite app_nil_r. rewrite <-(Z2Nat.id len) at 2 by apply Hwf.
    apply yields_zeros. by rewrite Z2Nat.id by apply Hwf.
  - apply reads_create2 in Henc as (c & -> & Hc); [|done]. exists c. split; [done|]. intros n _.
    by apply yields_map, yields_reads.
  - apply write_counted_vec in Henc as [-> Hl]. eexists. split; [done|]. intros n _.
    apply yields_map, yields_reads. apply reads_counted2; [done|apply reads_ret].
  - injection Henc as <-. exists [reason]. split; [done|]. intros n _.
    apply yields_map, yields_reads, reads_u8.
  - apply reads_netinfo in Henc as (c & -> & Hc); [|done]. exists c. split; [done|]. intros n _.
    by apply yields_map, yields_reads.
  - apply reads_u16s in Henc as (c & -> & _ & Hc); [|done]. exists c. split; [done|]. intros n ->.
    rewrite app_nil_r. by apply yields_map, yields_all.
  - apply reads_padding_negotiate in Henc as (c & -> & Hc); [|done]. exists c. split; [done|]. intros n _.
    by apply yields_map, yields_reads.
  - apply reads_certs in Henc as (c & -> & Hc); [|done]. exists c. split; [done|]. intros n _.
    by apply yields_map, yields_reads.
  - apply reads_auth_challenge in Henc as (c & -> & Hc); [|apply Hwf..]. exists c. split; [done|]. intros n _.
    by apply yields_map, yields_reads.
  - apply reads_authenticate in Henc as (c & -> & Hc); [|done]. exists c. split; [done|]. intros n _.
    by apply yields_map, yields_reads.
Qed.

(** ** Cells read back from the bytes of a channel *)

Definition circid_wf (id : option Z) : Prop := from_option (λ n, 0 < n ≤ u32_max) True id.

Definition chan_cell_wf (cell : ChanCell) : Prop :=
  circid_wf (cl_circid cell) ∧ chan_msg_wf (cl_msg cell) ∧
  ChanCmd.accepts_circid_val (chan_msg_cmd (cl_msg cell)) (cl_circid cell) = true.

(** The bytes [enc] are the frame of the cell: they decode to it whatever follows, and no part of
    them is taken for a cell. *)
Definition frames (s : ChanMsgSet) (enc : list Z) (cell : ChanCell) : Prop :=
  enc ≠ [] ∧
  (∀ rest, decode_cell s (enc ++ rest) = (rest, Ok (Some cell))) ∧
  (∀ p q, enc = p ++ q → q ≠ [] → decode_cell s p = (p, Ok None)).

Lemma cell_len_prefix p q cmd :
  (7 ≤ length p)%nat → cell_len_of (p ++ q) cmd = cell_len_of p cmd.
Proof.
  intros Hp. unfold cell_len_of. rewrite drop_app_le by lia.
  by rewrite take_app_le by (rewrite length_drop; lia).
Qed.

Lemma circid_roundtrip id : circid_wf id → CircId_new (CircId_get_or_zero id) = id.
Proof.
  destruct id as [n|]; [|done]. simpl. intros Hn. unfold CircId_new.
  by rewrite (proj2 (Z.eqb_neq _ _)) by lia.
Qed.

Lemma circid_in_uint id : circid_wf id → in_uint u32_max (CircId_get_or_zero id).
Proof. destruct id; unfold circid_wf, in_uint; simpl; [|unfold u32_max]; lia. Qed.

(** The reads of [decode_cell] on the bytes of a cell. *)
Lemma read_cell s id cmd (mid body : list Z) m :
  circid_wf id → length mid = (if ChanCmd.is_var_cell cmd then 2%nat else 0%nat) →
  yields (chan_decode_from_reader s cmd) body m →
  snd ((id ← take_u32;
        _ ← advance (if ChanCmd.is_var_cell cmd then 3%nat else 1%nat);
        msg ← chan_decode_from_reader s cmd;
        mret (CircId_new id, msg))
         (from_slice (to_be_bytes 4 (CircId_get_or_zero id) ++ [cmd] ++ mid ++ body))) = Ok (id, m).
Proof.
  intros Hid Hmid Hbody. set (a := if ChanCmd.is_var_cell cmd then 3%nat else 1%nat).
  set (hd := to_be_bytes 4 (CircId_get_or_zero id)).
  assert (a = length ([cmd] ++ mid)) as Ha
    by (unfold a; rewrite length_app, Hmid; destruct (ChanCmd.is_var_cell cmd); done).
  pose proof (reads_u32 _ (circid_in_uint id Hid) [] ([cmd] ++ mid ++ body) SupposedlyComplete) as H1.
  pose proof (reads_advance a ([cmd] ++ mid) Ha hd body SupposedlyComplete) as H2.
  specialize (Hbody (hd ++ [cmd] ++ mid) SupposedlyComplete).
  rewrite (length_app hd) in Hbody. rewrite <-!(assoc_L app) in *.
  rewrite app_nil_l in H1. change (length (@nil Z)) with 0%nat in H1. rewrite Nat.add_0_l in H1.
  fold hd in H1. unfold from_slice, mbind, RD_mbind. rewrite H1, H2.
  destruct (chan_decode_from_reader s cmd _) as [r out]. simpl in Hbody. subst out.
  cbn. by rewrite circid_roundtrip.
Qed.

(** What makes [enc] a frame: its length is the one its header announces, and its body, after
    [hdr] bytes, reads back. *)
Lemma frames_intro s id cmd (mid body : list Z) m :
  circid_wf id → chan_msg_cmd m = cmd → ChanCmd.accepts_circid_val cmd id = true →
  let enc := to_be_bytes 4 (CircId_get_or_zero id) ++ [cmd] ++ mid ++ body in
  (7 ≤ length enc)%nat → cell_len_of enc cmd = length enc →
  length mid = (if ChanCmd.is_var_cell cmd then 2%nat else 0%nat) →
  yields (chan_decode_from_reader s cmd) body m →
  frames s enc (mkChanCell id m).
Proof.
  intros Hid Hcmd Hacc enc H7 Hlen Hmid Hbody.
  assert (∀ q, (enc ++ q) !! 4%nat = Some cmd) as H4.
  { intros q. unfold enc. rewrite <-(assoc_L app), lookup_app_r; rewrite length_to_be_bytes; done. }
  split; [by intros H; rewrite H in H7; simpl in H7; lia|]. split.
  - intros rest. unfold decode_cell. rewrite length_app, (proj2 (Nat.ltb_ge _ _)) by lia.
    rewrite H4, cell_len_prefix by done. rewrite Hlen, (proj2 (Nat.ltb_ge _ _)) by lia.
    rewrite take_app_length, drop_app_length.
    pose proof (read_cell s id cmd mid body m Hid Hmid Hbody) as Hread. fold enc in Hread.
    destruct (mbind _ take_u32 (from_slice enc)) as [r out]. simpl in Hread. subst out.
    cbn. rewrite Hacc. done.
  - intros p q Heq Hq. unfold decode_cell. destruct (Nat.ltb_spec (length p) 7); [done|].
    assert (p !! 4%nat = Some cmd) as ->.
    { specialize (H4 []). by rewrite app_nil_r, Heq, lookup_app_l in H4 by lia. }
    rewrite Heq, cell_len_prefix in Hlen by lia. rewrite length_app in Hlen.
    rewrite Hlen, (proj2 (Nat.ltb_lt _ _)); [done|]. destruct q; [done|]. simpl. lia.
Qed.

Lemma var_len_of (hd mid body : list Z) cmd n :
  length hd = 4%nat → ChanCmd.is_var_cell cmd = true → mid = to_be_bytes 2 (Z.of_nat n) →
  Z.of_nat n ≤ u16_max → cell_len_of (hd ++ [cmd] ++ mid ++ body) cmd = (n + 7)%nat.
Proof.
  intros Hh Hv -> Hn. unfold cell_len_of. rewrite Hv.
  rewrite (assoc_L app hd), drop_app_length' by (rewrite length_app, Hh; done).
  rewrite take_app_length' by by rewrite length_to_be_bytes.
  rewrite from_to_be_bytes, Nat2Z.id; [done|]. unfold u16_max in Hn. simpl. lia.
Qed.

(** A cell that [write_cell] appends to a buffer is framed there. *)
Lemma write_cell_frames s cell dst out :
  chan_cell_wf cell → in_msg_set s (cl_msg cell) = true → write_cell cell dst = Ok out →
  ∃ enc, out = dst ++ enc ∧ frames s enc cell.
Proof.
  destruct cell as [id m]. intros (Hid & Hm & Hacc) Hs Hw. simpl in *. unfold write_cell in Hw.
  cbn [cl_msg cl_circid] in Hw. set (hd := to_be_bytes 4 (CircId_get_or_zero id)).
  set (cmd := chan_msg_cmd m) in *. cbv zeta in Hw.
  assert (write_u8 cmd (write_u32 (CircId_get_or_zero id) dst) = dst ++ hd ++ [cmd]) as Hdst
    by (unfold write_u8, write_u32, write_all, vec_writer; by rewrite <-(assoc_L app)).
  rewrite Hdst in Hw. destruct (ChanCmd.is_var_cell cmd) eqn:Hv.
  - destruct (chan_encode_onto m _) as [bs|e|] eqn:He; [|done..]. cbn [map_err] in Hw. rewrite ok_bind in Hw.
    eapply (chan_body_roundtrip s) in He as (c & -> & Hc); [|done..]. fold cmd in Hc. rewrite Hv in Hc.
    specialize (Hc 0%nat eq_refl). rewrite app_nil_r in Hc. unfold write_u16, write_all, vec_writer in Hw.
    rewrite <-(assoc_L app (dst ++ hd ++ [cmd])) in Hw.
    rewrite take_app_length, drop_app_add' in Hw by done.
    rewrite drop_app_length' in Hw by by rewrite length_to_be_bytes.
    replace (length _ - _ - 2)%nat with (length c) in Hw
      by (rewrite !length_app, length_to_be_bytes; simpl; lia).
    destruct (Z.ltb_spec u16_max (Z.of_nat (length c))); [done|]. injection Hw as <-.
    exists (hd ++ [cmd] ++ to_be_bytes 2 (Z.of_nat (length c)) ++ c). rewrite <-!(assoc_L app). split; [done|].
    apply frames_intro; try done.
    + rewrite !length_app, !length_to_be_bytes. simpl. lia.
    + erewrite var_len_of; [|apply length_to_be_bytes|done..].
      rewrite !length_app, !length_to_be_bytes. simpl. lia.
    + by rewrite Hv, length_to_be_bytes.
  - destruct (chan_encode_onto m _) as [bs|e|] eqn:He; [|done..]. cbn [map_err] in Hw. rewrite ok_bind in Hw.
    eapply (chan_body_roundtrip s) in He as (c & -> & Hc); [|done..]. fold cmd in Hc. rewrite Hv in Hc.
    replace (length _ - _)%nat with (length c) in Hw by (rewrite !length_app; lia).
    destruct (Nat.ltb_spec CELL_DATA_LEN (length c)); [done|]. injection Hw as <-.
    specialize (Hc (CELL_DATA_LEN - length c)%nat ltac:(lia)).
    exists (hd ++ [cmd] ++ [] ++ (c ++ replicate (CELL_DATA_LEN - length c) 0)).
    unfold write_zeros, write_all, vec_writer. rewrite <-!(assoc_L app). split; [done|].
    assert (length (hd ++ [cmd] ++ [] ++ c ++ replicate (CELL_DATA_LEN - length c) 0) = 514%nat) as Hl.
    { unfold hd. rewrite !length_app, length_to_be_bytes, length_replicate. unfold CELL_DATA_LEN in *. simpl. lia. }
    apply frames_intro; try done.
    + fold hd. rewrite Hl. lia.
    + fold hd. unfold cell_len_of. by rewrite Hv, Hl.
    + by rewrite Hv.
Qed.

(** ** Decoding arbitrary bytes *)

Lemma safe_chan_body cmd body : chan_body cmd = Some body → Safe body.
Proof.
  unfold chan_body, Vpadding_take_from, Create2_take_from, Created2_take_from, Netinfo_take_from,
    take_one_netinfo_addr, PaddingNegotiate_take_from, Certs_take_from, take_one_tor_cert,
    AuthChallenge_take_from, Authenticate_take_from.
  repeat (case_match; [intros [= <-]; apply _|]). done.
Qed.

#[export] Instance safe_chan_decode s cmd : Safe (chan_decode_from_reader s cmd).
Proof.
  unfold chan_decode_from_reader. destruct (chan_body cmd) as [body|] eqn:Hb.
  - apply safe_chan_body in Hb. apply _.
  - destruct s; apply _.
Qed.

(** Whatever the bytes are, [decode_cell] does not panic; it asks for more without touching them,
    or it takes seven or more off the front. *)
Lemma decode_cell_total s src :
  let '(src', out) := decode_cell s src in
  out ≠ Panic ∧
  ((out = Ok None ∧ src' = src) ∨
   (out ≠ Ok None ∧ ∃ used, src = used ++ src' ∧ (7 ≤ length used)%nat)).
Proof.
  unfold decode_cell. destruct (Nat.ltb_spec (length src) 7); [by auto|].
  destruct (lookup_lt_is_Some_2 src 4) as [cmd ->]; [lia|].
  destruct (Nat.ltb_spec (length src) (cell_len_of src cmd)); [by auto|].
  set (m := mbind _ take_u32). assert (Safe m) as Hm by (unfold m; apply _).
  specialize (Hm (from_slice (take (cell_len_of src cmd) src))) as (Hp & _); [unfold rd_wf; simpl; lia|].
  destruct (m _) as [r out]. simpl in Hp.
  assert (7 ≤ cell_len_of src cmd)%nat by (unfold cell_len_of; case_match; lia).
  assert (∃ used, src = used ++ drop (cell_len_of src cmd) src ∧ (7 ≤ length used)%nat).
  { exists (take (cell_len_of src cmd) src). rewrite take_drop, length_take. split; [done|lia]. }
  destruct out as [[id m']|e|]; cbn; [case_match|..]; (split; [done|]); by right.
Qed.
