(* ===== verification/Sendme.v ===== *)
(** * Sendme: SENDME windows and tags

    The send and receive windows of [tor-proto/src/congestion/sendme.rs], generic in the trait
    [WindowParams] with its two instances, and [SendmeValidator], the queue of the tags that
    incoming SENDMEs have to carry.  An operation that returns an error leaves its object as it
    was and makes the caller close the circuit, so errors carry no state. *)

From S2P Require Import Prelude Bytes RelayMsg RelayCell.

(** ** Errors of crate tor-proto (tor-proto/src/util/err.rs) *)

Inductive ProtoError : Type :=
| CircProto (msg : string)
| ChanProto (msg : string)
| StreamProto (msg : string)
| IdRangeFull
| IdUnavailable (id : Z)
| NotConnected
| BadCellAuth
| ChanIoErr
| Internal (msg : string)
| BytesErr (object : string) (err : BytesError)
| CellEncodeErr (object : string) (err : EncodeError)
| NoSuchHop
| CircuitClosed
| UnknownStream (streamid : Z)
| ExcessInboundCells
| ExcessOutboundCells
| HandshakeProto (msg : string)
| ExcessPadding (hop : nat)
| BadCircHandshakeAuth
| InvalidKDFOutputLength
| EncodeErr (object : string) (err : EncodeError)
| CellDecodeErr (object : string) (err : BytesError)
| CircRefused (msg : string)
| HandshakeCertErr (msg : string)
| HandshakeCertsExpired (expired_by : Z)
| ChanMismatch (msg : string).

(** ** Window parameters *)

Class WindowParams (P : Type) : Type := {
  maximum : Z;
  increment : Z;
  start : Z;
}.
Arguments maximum P {_}.
Arguments increment P {_}.
Arguments start P {_}.

Inductive CircParams : Type := CircParams_.
Inductive StreamParams : Type := StreamParams_.

#[export] Instance circ_params : WindowParams CircParams :=
  { maximum := 1000; increment := 100; start := 1000 }.
#[export] Instance stream_params : WindowParams StreamParams :=
  { maximum := 500; increment := 50; start := 500 }.

(** What the windows rely on: the increment divides the starting value, which is the maximum,
    and one more increment does not overflow a [u16]. *)
Class WindowLaws (P : Type) `{!WindowParams P} : Prop := {
  increment_pos : 0 < increment P;
  start_multiple : start P mod increment P = 0;
  start_maximum : start P = maximum P;
  maximum_fits : maximum P + increment P ≤ u16_max;
}.

#[export] Instance circ_laws : WindowLaws CircParams.
Proof. by split. Qed.
#[export] Instance stream_laws : WindowLaws StreamParams.
Proof. by split. Qed.

(** ** Validator *)

Section validator.
Context {T : Type} `{!EqDecision T}.

Record SendmeValidator : Type := mkValidator { sv_tags : list T }.

Definition SendmeValidator_new : SendmeValidator := mkValidator [].

Definition record (tag : T) (v : SendmeValidator) : SendmeValidator :=
  mkValidator (sv_tags v ++ [tag]).

Definition validate (tag : option T) (v : SendmeValidator) : res ProtoError SendmeValidator :=
  match sv_tags v, tag with
  | t :: tags, Some tag =>
      if decide (t = tag) then Ok (mkValidator tags)
      else Err (CircProto "Mismatched tag on circuit SENDME")
  | _ :: tags, None => Ok (mkValidator tags)
  | [], _ => Err (CircProto "Received a SENDME when none was expected")
  end.
End validator.
Arguments SendmeValidator : clear implicits.

(** ** Windows *)

Record SendWindow (P : Type) : Type := mkSendWindow { sw_window : Z }.
Arguments sw_window {P}.
Arguments mkSendWindow {P}.

Record RecvWindow (P : Type) : Type := mkRecvWindow { rw_window : Z }.
Arguments rw_window {P}.
Arguments mkRecvWindow {P}.

Section windows.
Context {P : Type} `{!WindowParams P}.

Definition SendWindow_new (window : Z) : SendWindow P := mkSendWindow window.

Definition should_record_tag (w : SendWindow P) : bool := sw_window w mod increment P =? 0.

Definition SendWindow_take (w : SendWindow P) : res ProtoError (SendWindow P) :=
  new ← ok_or (checked_sub (sw_window w) 1)
    (CircProto "Called SendWindow::take() on empty SendWindow");
  Ok (mkSendWindow new).

Definition SendWindow_put (w : SendWindow P) : res ProtoError (SendWindow P) :=
  new_window ← ok_or (checked_add u16_max (sw_window w) (increment P))
    (Internal "Overflow on SENDME window");
  if maximum P <? new_window then Err (CircProto "Unexpected stream SENDME")
  else Ok (mkSendWindow new_window).

Definition RecvWindow_new (window : Z) : RecvWindow P := mkRecvWindow window.

Definition RecvWindow_take (w : RecvWindow P) : res ProtoError (RecvWindow P * bool) :=
  match checked_sub (rw_window w) 1 with
  | Some x => Ok (mkRecvWindow x, x mod increment P =? 0)
  | None => Err (CircProto "Received a data cell in violation of a window")
  end.

Definition decrement_n (n : Z) (w : RecvWindow P) : res ProtoError (RecvWindow P) :=
  new ← ok_or (checked_sub (rw_window w) n) (CircProto "Received too many cells on a stream");
  Ok (mkRecvWindow new).

Definition RecvWindow_put {E} (w : RecvWindow P) : res E (RecvWindow P) :=
  new ← expect (checked_add u16_max (rw_window w) (increment P));
  Ok (mkRecvWindow new).
End windows.
Definition cmd_counts_towards_windows (cmd : Z) : bool := cmd =? RelayCmd.DATA.

(** ** Window operations when they succeed *)

Lemma SendWindow_take_ok {P} (w : SendWindow P) :
  0 < sw_window w → SendWindow_take w = Ok (mkSendWindow (sw_window w - 1)).
Proof.
  intros Hw. unfold SendWindow_take, checked_sub. by rewrite (proj2 (Z.leb_le _ _)) by lia.
Qed.

Lemma SendWindow_put_ok `{WindowLaws P} (w : SendWindow P) :
  sw_window w + increment P ≤ maximum P →
  SendWindow_put w = Ok (mkSendWindow (sw_window w + increment P)).
Proof.
  intros Hw. pose proof maximum_fits. pose proof increment_pos. unfold SendWindow_put, checked_add.
  rewrite (proj2 (Z.leb_le _ _)) by lia. simpl. by rewrite (proj2 (Z.ltb_ge _ _)).
Qed.

Lemma RecvWindow_take_ok `{WindowParams P} (w : RecvWindow P) :
  0 < rw_window w →
  RecvWindow_take w =
    Ok (mkRecvWindow (rw_window w - 1), (rw_window w - 1) mod increment P =? 0).
Proof.
  intros Hw. unfold RecvWindow_take, checked_sub. by rewrite (proj2 (Z.leb_le _ _)) by lia.
Qed.

Lemma RecvWindow_put_ok `{WindowParams P} {E} (w : RecvWindow P) :
  rw_window w + increment P ≤ u16_max →
  RecvWindow_put (E:=E) w = Ok (mkRecvWindow (rw_window w + increment P)).
Proof.
  intros Hw. unfold RecvWindow_put, checked_add. by rewrite (proj2 (Z.leb_le _ _)) by lia.
Qed.

(** ** Marked cells

    The cells whose tags acknowledge an increment are those that bring a count of cells to a
    multiple of the increment.  [marks inc k l] are the marked ones among the cells [l] that
    follow the first [k]. *)

Fixpoint marks {T} (inc k : Z) (l : list T) : list T :=
  match l with
  | [] => []
  | x :: l =>
      if (k + 1) mod inc =? 0 then x :: marks inc (k + 1) l else marks inc (k + 1) l
  end.

Lemma marks_snoc {T} inc k (l : list T) x :
  marks inc k (l ++ [x]) =
    marks inc k l ++ (if (k + Z.of_nat (length l) + 1) mod inc =? 0 then [x] else []).
Proof.
  revert k. induction l as [|y l IH]; intros k.
  - simpl. rewrite Z.add_0_r. done.
  - cbn [app marks length]. rewrite IH.
    replace (k + 1 + Z.of_nat (length l) + 1) with (k + Z.of_nat (S (length l)) + 1) by lia.
    by case_match.
Qed.

(** Counting down from a multiple of the increment marks the same cells as counting up. *)
Lemma mark_down inc a b : 0 < inc → a mod inc = 0 → ((a - b) mod inc =? 0) = (b mod inc =? 0).
Proof.
  intros Hi Ha. rewrite Zminus_mod, Ha, Z.sub_0_l.
  destruct (Z.eqb_spec (b mod inc) 0) as [->|Hb]; [done|].
  rewrite Z.mod_opp_l_nz, Z.mod_mod by (rewrite ?Z.mod_mod; lia).
  apply Z.eqb_neq. pose proof (Z.mod_pos_bound b inc Hi). lia.
Qed.
