(* ===== verification/RelayCrypt.v ===== *)
(** * RelayCrypt: the cryptography of relay cells

    [tor-proto/src/crypto/cell.rs] with its two layer implementations, [crypto/cell/tor1.rs] (a
    stream cipher and a running digest) and [crypto/cell/cgo.rs] (Counter Galois Onion), and the
    responder layers of [client/circuit/handshake.rs].  The ciphers, the digest and the universal
    hash are other crates: they are type classes, whose laws are what those crates document.
    A cell body is a list of [CELL_DATA_LEN] bytes.  The layer traits are type classes; a relay
    layer and the client layer that shares its keys are related by [OutboundPair] and
    [InboundPair], against which the theorems about whole circuits are proved. *)

From S2P Require Import Prelude Bytes RelayMsg Sendme.

(** ** The layer interfaces *)

(** Both directions return the layer afterwards and the new body; a tag says that the cell is
    addressed to the layer. *)
Class InboundRelayLayer (L : Type) : Type := {
  originate : Z → list Z → L → res ProtoError (L * list Z * SendmeTag);
  encrypt_inbound : Z → list Z → L → res ProtoError (L * list Z);
}.
Class OutboundRelayLayer (L : Type) : Type :=
  decrypt_outbound : Z → list Z → L → res ProtoError (L * list Z * option SendmeTag).
Class OutboundClientLayer (L : Type) : Type := {
  originate_for : Z → list Z → L → res ProtoError (L * list Z * SendmeTag);
  encrypt_outbound : Z → list Z → L → res ProtoError (L * list Z);
}.
Class InboundClientLayer (L : Type) : Type :=
  decrypt_inbound : Z → list Z → L → res ProtoError (L * list Z * option SendmeTag).

#[export] Hint Mode InboundRelayLayer ! : typeclass_instances.
#[export] Hint Mode OutboundRelayLayer ! : typeclass_instances.
#[export] Hint Mode OutboundClientLayer ! : typeclass_instances.
#[export] Hint Mode InboundClientLayer ! : typeclass_instances.
Arguments decrypt_outbound : simpl never.
Arguments decrypt_inbound : simpl never.

(** ** The layers of a circuit *)

Section client_crypt.
Context {L : Type}.

(** The layers from the farthest one that still has to encrypt to the nearest. *)
Fixpoint encrypt_layers `{!OutboundClientLayer L} (cmd : Z) (cell : list Z) (layers : list L) :
    res ProtoError (list L * list Z) :=
  match layers with
  | [] => Ok ([], cell)
  | layer :: layers =>
      '(layer, cell) ← encrypt_outbound cmd cell layer;
      '(layers, cell) ← encrypt_layers cmd cell layers;
      Ok (layer :: layers, cell)
  end.

Definition crypt_encrypt `{!OutboundClientLayer L} (cmd : Z) (cell : list Z) (hop : nat)
    (layers : list L) : res ProtoError (list L * list Z * SendmeTag) :=
  if (length layers <=? hop)%nat then Err NoSuchHop
  else
    match rev (take (hop + 1) layers) with
    | [] => Err NoSuchHop
    | first_layer :: rest =>
        '(first_layer, cell, tag) ← originate_for cmd cell first_layer;
        '(rest, cell) ← encrypt_layers cmd cell rest;
        Ok (rev (first_layer :: rest) ++ drop (hop + 1) layers, cell, tag)
    end.

Fixpoint decrypt_layers `{!InboundClientLayer L} (cmd : Z) (cell : list Z) (hopnum : nat)
    (layers : list L) : res ProtoError (list L * list Z * (nat * SendmeTag)) :=
  match layers with
  | [] => Err BadCellAuth
  | layer :: layers =>
      '(layer, cell, tag) ← decrypt_inbound cmd cell layer;
      match tag with
      | Some tag =>
          hopnum ← expect (if (hopnum <=? 255)%nat then Some hopnum else None);
          Ok (layer :: layers, cell, (hopnum, tag))
      | None =>
          '(layers, cell, r) ← decrypt_layers cmd cell (S hopnum) layers;
          Ok (layer :: layers, cell, r)
      end
  end.

Definition crypt_decrypt `{!InboundClientLayer L} (cmd : Z) (cell : list Z) (layers : list L) :
    res ProtoError (list L * list Z * (nat * SendmeTag)) :=
  decrypt_layers cmd cell 0 layers.

Definition add_layer (layer : L) (layers : list L) : res ProtoError (list L) :=
  if (length layers <? 255)%nat then Ok (layers ++ [layer]) else Panic.
End client_crypt.

(** ** Slices of a cell body *)

Definition slice (a b : nat) (l : list Z) : list Z := take (b - a) (drop a l).

(** [l[a..].copy_from_slice(src)], as far as [src] goes. *)
Definition copy_into (a : nat) (src l : list Z) : list Z :=
  take a l ++ src ++ drop (a + length src) l.

Definition xor_bytes (x y : list Z) : list Z := zip_with Z.lxor x y.

Definition bytes_eq (a b : list Z) : bool := bool_decide (a = b).
Definition is_zero (x : list Z) : bool := forallb (Z.eqb 0) x.

(** [SendmeTag::try_from(x).expect(..)]. *)
Definition tag_of {E} (x : list Z) : res E SendmeTag :=
  match SendmeTag_try_from x with Ok t => Ok t | _ => Panic end.

(** ** Tor1 *)

(** A stream cipher: [keystream n] is the next [n] bytes of its key stream. *)
Class StreamCipher (SC : Type) : Type := {
  sc_key_size : nat;
  sc_new : list Z → SC;
  keystream : nat → SC → SC * list Z;
}.
Arguments sc_key_size SC {_}.

Class Digest (D : Type) : Type := {
  d_output_size : nat;
  d_new : D;
  d_update : list Z → D → D;
  d_finalize : D → list Z;
}.
Arguments d_output_size D {_}.

Class StreamCipherLaws (SC : Type) `{!StreamCipher SC} : Prop :=
  keystream_length n (c : SC) : length (snd (keystream n c)) = n.

Class DigestLaws (D : Type) `{!Digest D} : Prop := {
  update_app x y (d : D) : d_update (x ++ y) d = d_update y (d_update x d);
  finalize_length (d : D) : length (d_finalize d) = d_output_size D;
  output_size_ok : (20 ≤ d_output_size D)%nat;
}.

Definition CIRC_BINDING_LEN : nat := 20.

Section tor1.
Context {SC D : Type} `{!StreamCipher SC, !Digest D}.

Definition apply_keystream (data : list Z) (c : SC) : SC * list Z :=
  let '(c, ks) := keystream (length data) c in (c, xor_bytes data ks).

Definition RECOGNIZED_START : nat := 1.
Definition RECOGNIZED_END : nat := 3.
Definition DIGEST_START : nat := 5.
Definition DIGEST_END : nat := 9.
Definition SENDME_TAG_LEN : nat := 20.

(** The body, the digest afterwards and the tag. *)
Definition set_digest (cell : list Z) (d : D) : res ProtoError (list Z * D * SendmeTag) :=
  let cell := copy_into RECOGNIZED_START (replicate 2 0) cell in
  let cell := copy_into DIGEST_START (replicate 4 0) cell in
  let d := d_update cell d in
  let computed_digest := d_finalize d in
  tag ← tag_of (take SENDME_TAG_LEN computed_digest);
  let used_digest_prefix := take 4 computed_digest in
  Ok (copy_into DIGEST_START used_digest_prefix cell, d, tag).

(** The digest afterwards and the tag, if the cell is recognized. *)
Definition is_recognized (cell : list Z) (d : D) : res ProtoError (option (D * SendmeTag)) :=
  if negb (is_zero (slice RECOGNIZED_START RECOGNIZED_END cell)) then Ok None
  else
    let dtmp := d_update (take DIGEST_START cell) d in
    let dtmp := d_update (replicate 4 0) dtmp in
    let dtmp := d_update (drop DIGEST_END cell) dtmp in
    let result := d_finalize dtmp in
    if bytes_eq (slice DIGEST_START DIGEST_END cell) (take 4 result)
    then tag ← tag_of (take SENDME_TAG_LEN result); Ok (Some (dtmp, tag))
    else Ok None.
End tor1.

Record Tor1State (SC D : Type) : Type := mkTor1 {
  t1_cipher : SC;
  t1_digest : D;
  t1_last_sendme_tag : SendmeTag }.
Arguments mkTor1 {SC D}.
Arguments t1_cipher {SC D}.
Arguments t1_digest {SC D}.
Arguments t1_last_sendme_tag {SC D}.

Record Tor1Pair (SC D : Type) : Type := mkTor1Pair {
  t1_fwd : Tor1State SC D;
  t1_back : Tor1State SC D;
  t1_binding : list Z }.
Arguments mkTor1Pair {SC D}.
Arguments t1_fwd {SC D}.
Arguments t1_back {SC D}.
Arguments t1_binding {SC D}.

Section tor1_layers.
Context {SC D : Type} `{!StreamCipher SC, !Digest D}.

Definition tor1_seed_len : nat := sc_key_size SC * 2 + d_output_size D * 2 + CIRC_BINDING_LEN.

Definition tor1_initialize (seed : list Z) : res ProtoError (Tor1Pair SC D) :=
  if negb (length seed =? tor1_seed_len)%nat then Err (Internal "seed length was invalid")
  else
    let dlen := d_output_size D in
    let keylen := sc_key_size SC in
    let df := take dlen seed in
    let seed := drop dlen seed in
    let db := take dlen seed in
    let seed := drop dlen seed in
    let kf := take keylen seed in
    let seed := drop keylen seed in
    let kb := take keylen seed in
    let seed := drop keylen seed in
    let binding_key := take CIRC_BINDING_LEN seed in
    let tag := SendmeTag_from20 (replicate SENDME_TAG_LEN 0) in
    let fwd := mkTor1 (sc_new kf) (d_update df d_new) tag in
    let back := mkTor1 (sc_new kb) (d_update db d_new) tag in
    Ok (mkTor1Pair fwd back binding_key).

(** One application of the cipher to the body. *)
Definition tor1_crypt (cell : list Z) (s : Tor1State SC D) : Tor1State SC D * list Z :=
  let '(cipher, cell) := apply_keystream cell (t1_cipher s) in
  (mkTor1 cipher (t1_digest s) (t1_last_sendme_tag s), cell).

(** [RelayInbound::originate] and [ClientOutbound::originate_for]. *)
Definition tor1_originate (cmd : Z) (cell : list Z) (s : Tor1State SC D) :
    res ProtoError (Tor1State SC D * list Z * SendmeTag) :=
  '(cell, digest, tag) ← set_digest cell (t1_digest s);
  let '(s, cell) := tor1_crypt cell (mkTor1 (t1_cipher s) digest tag) in
  Ok (s, cell, tag).

(** [RelayInbound::encrypt_inbound] and [ClientOutbound::encrypt_outbound]. *)
Definition tor1_encrypt (cmd : Z) (cell : list Z) (s : Tor1State SC D) :
    res ProtoError (Tor1State SC D * list Z) :=
  Ok (tor1_crypt cell s).

(** [RelayOutbound::decrypt_outbound] and [ClientInbound::decrypt_inbound]. *)
Definition tor1_decrypt (cmd : Z) (cell : list Z) (s : Tor1State SC D) :
    res ProtoError (Tor1State SC D * list Z * option SendmeTag) :=
  let '(s, cell) := tor1_crypt cell s in
  r ← is_recognized cell (t1_digest s);
  Ok (match r with
      | Some (digest, tag) => (mkTor1 (t1_cipher s) digest tag, cell, Some tag)
      | None => (s, cell, None)
      end).

#[export] Instance tor1_relay_inbound : InboundRelayLayer (Tor1State SC D) := {
  originate := tor1_originate; encrypt_inbound := tor1_encrypt }.
#[export] Instance tor1_relay_outbound : OutboundRelayLayer (Tor1State SC D) := tor1_decrypt.
#[export] Instance tor1_client_outbound : OutboundClientLayer (Tor1State SC D) := {
  originate_for := tor1_originate; encrypt_outbound := tor1_encrypt }.
#[export] Instance tor1_client_inbound : InboundClientLayer (Tor1State SC D) := tor1_decrypt.
End tor1_layers.
Arguments tor1_seed_len SC D {_ _}.

(** ** Counter Galois Onion *)

Definition CGO_TAG_LEN : nat := 16.
Definition CGO_PAYLOAD_LEN : nat := CELL_DATA_LEN - CGO_TAG_LEN.
Definition BLK_LEN : nat := 16.

(** A block cipher with its counter mode: [ctr128be k iv pos n] is [n] bytes of the key stream
    from position [pos]. *)
Class BlkCipher (BC : Type) : Type := {
  bc_key_size : nat;
  bc_new : list Z → BC;
  encrypt_block : BC → list Z → list Z;
  decrypt_block : BC → list Z → list Z;
  ctr128be : BC → list Z → nat → nat → list Z;
}.
Arguments bc_key_size BC {_}.

Class BlkCipherLaws (BC : Type) `{!BlkCipher BC} : Prop := {
  encrypt_decrypt (k : BC) b : length b = BLK_LEN → encrypt_block k (decrypt_block k b) = b;
  decrypt_encrypt (k : BC) b : length b = BLK_LEN → decrypt_block k (encrypt_block k b) = b;
  length_encrypt_block (k : BC) b : length b = BLK_LEN → length (encrypt_block k b) = BLK_LEN;
  length_decrypt_block (k : BC) b : length b = BLK_LEN → length (decrypt_block k b) = BLK_LEN;
  length_ctr (k : BC) iv pos n : length (ctr128be k iv pos n) = n;
}.

(** Polyval: [update] takes whole blocks, [update_padded] pads the last one. *)
Class UniversalHash (UH : Type) : Type := {
  uh_key_size : nat;
  uh_new : list Z → UH;
  uh_update : list (list Z) → UH → UH;
  uh_update_padded : list Z → UH → UH;
  uh_finalize : UH → list Z;
}.
Arguments uh_key_size UH {_}.

Class UniversalHashLaws (UH : Type) `{!UniversalHash UH} : Prop :=
  length_uh_finalize (u : UH) : length (uh_finalize u) = BLK_LEN.

Record EtCipher (BC UH : Type) : Type := mkEt { et_kb : BC; et_ku : UH }.
Record Prf (BC UH : Type) : Type := mkPrf { prf_k : BC; prf_b : UH }.
Record Uiv (BC UH : Type) : Type := mkUiv { uiv_j : EtCipher BC UH; uiv_s : Prf BC UH }.
Record CgoState (BC UH : Type) : Type := mkCgo {
  cg_uiv : Uiv BC UH;
  cg_nonce : list Z;
  cg_tag : list Z }.
Record CgoPair (BC UH : Type) : Type := mkCgoPair {
  cg_outbound : CgoState BC UH;
  cg_inbound : CgoState BC UH;
  cg_binding : list Z }.
Arguments mkEt {BC UH}.
Arguments et_kb {BC UH}.
Arguments et_ku {BC UH}.
Arguments mkPrf {BC UH}.
Arguments prf_k {BC UH}.
Arguments prf_b {BC UH}.
Arguments mkUiv {BC UH}.
Arguments uiv_j {BC UH}.
Arguments uiv_s {BC UH}.
Arguments mkCgo {BC UH}.
Arguments cg_uiv {BC UH}.
Arguments cg_nonce {BC UH}.
Arguments cg_tag {BC UH}.
Arguments mkCgoPair {BC UH}.
Arguments cg_outbound {BC UH}.
Arguments cg_inbound {BC UH}.
Arguments cg_binding {BC UH}.

Section cgo.
Context {BC UH : Type} `{!BlkCipher BC, !UniversalHash UH}.

(** *** The tweakable block cipher *)

Definition compute_tweak_hash (t0 : list Z) (t1 : Z) (t2 : list Z) (c : EtCipher BC UH) : list Z :=
  let block1 := t1 :: slice 0 15 t2 in
  let ku := uh_update [t0; block1] (et_ku c) in
  let ku := uh_update_padded (drop 15 t2) ku in
  uh_finalize ku.

Definition et_encrypt (t0 : list Z) (t1 : Z) (t2 block : list Z) (c : EtCipher BC UH) : list Z :=
  let tag := compute_tweak_hash t0 t1 t2 c in
  let block := xor_bytes block tag in
  let block := encrypt_block (et_kb c) block in
  xor_bytes block tag.

Definition et_decrypt (t0 : list Z) (t1 : Z) (t2 block : list Z) (c : EtCipher BC UH) : list Z :=
  let tag := compute_tweak_hash t0 t1 t2 c in
  let block := xor_bytes block tag in
  let block := decrypt_block (et_kb c) block in
  xor_bytes block tag.

Definition et_seed_len : nat := bc_key_size BC + uh_key_size UH.

Definition et_initialize (seed : list Z) : res ProtoError (EtCipher BC UH) :=
  if negb (length seed =? et_seed_len)%nat then Err (Internal "Invalid seed length")
  else Ok (mkEt (bc_new (take (bc_key_size BC) seed)) (uh_new (drop (bc_key_size BC) seed))).

(** *** The pseudorandom function *)

Definition PRF_N1_OFFSET : nat := 31 * 16.

(** The counter-mode key stream for [tweak] and [t]: [n] bytes. *)
Definition prf_cipher (tweak : list Z) (t : bool) (n : nat) (p : Prf BC UH) : list Z :=
  let b := uh_update [tweak] (prf_b p) in
  let iv := uh_finalize b in
  let iv := alter (λ x, Z.land x 192) (length iv - 1)%nat iv in
  ctr128be (prf_k p) iv (if t then PRF_N1_OFFSET else 0%nat) n.

Definition xor_n0_stream (tweak out : list Z) (p : Prf BC UH) : list Z :=
  xor_bytes out (prf_cipher tweak false (length out) p).

Definition get_n1_stream (tweak : list Z) (n : nat) (p : Prf BC UH) : list Z :=
  xor_bytes (replicate n 0) (prf_cipher tweak true n p).

Definition prf_initialize (seed : list Z) : res ProtoError (Prf BC UH) :=
  if negb (length seed =? et_seed_len)%nat then Err (Internal "Invalid seed length")
  else Ok (mkPrf (bc_new (take (bc_key_size BC) seed)) (uh_new (drop (bc_key_size BC) seed))).

(** *** The wide-block cipher UIV+ *)

Definition uiv_split (cell_body : list Z) : list Z * list Z :=
  (take CGO_TAG_LEN cell_body, drop CGO_TAG_LEN cell_body).

Definition uiv_encrypt (h : list Z) (ad : Z) (cell_body : list Z) (u : Uiv BC UH) : list Z :=
  let '(x_l, x_r) := uiv_split cell_body in
  let x_l := et_encrypt h ad x_r x_l (uiv_j u) in
  let x_r := xor_n0_stream x_l x_r (uiv_s u) in
  x_l ++ x_r.

Definition uiv_decrypt (h : list Z) (ad : Z) (cell_body : list Z) (u : Uiv BC UH) : list Z :=
  let '(x_l, x_r) := uiv_split cell_body in
  let x_r := xor_n0_stream x_l x_r (uiv_s u) in
  let x_l := et_decrypt h ad x_r x_l (uiv_j u) in
  x_l ++ x_r.

Definition uiv_seed_len : nat := et_seed_len + et_seed_len.

Definition split_seed (seed : list Z) : list Z * list Z * list Z :=
  let len_j := et_seed_len in
  let len_s := et_seed_len in
  (slice 0 len_j seed, slice len_j (len_j + len_s) seed, drop (len_j + len_s) seed).

(** The cipher afterwards and the new nonce. *)
Definition uiv_update (nonce : list Z) (u : Uiv BC UH) : res ProtoError (Uiv BC UH * list Z) :=
  let n_bytes := (uiv_seed_len + BLK_LEN)%nat in
  let seed := get_n1_stream nonce n_bytes (uiv_s u) in
  let '(j, s, n) := split_seed seed in
  j ← match et_initialize j with Ok j => Ok j | _ => Panic end;
  s ← match prf_initialize s with Ok s => Ok s | _ => Panic end;
  if (length n =? length nonce)%nat then Ok (mkUiv j s, n) else Panic.

Definition uiv_initialize (seed : list Z) : res ProtoError (Uiv BC UH) :=
  if negb (length seed =? uiv_seed_len)%nat then Err (Internal "Invalid seed length")
  else
    let '(j, s, n) := split_seed seed in
    _ ← debug_assert (bool_decide (n = []));
    j ← et_initialize j;
    s ← prf_initialize s;
    Ok (mkUiv j s).

(** *** The layers *)

Definition cgo_state_seed_len : nat := uiv_seed_len + BLK_LEN.

Definition cgo_state_initialize (seed : list Z) : res ProtoError (CgoState BC UH) :=
  if negb (length seed =? cgo_state_seed_len)%nat then Err (Internal "Invalid seed length")
  else
    let j_s := take uiv_seed_len seed in
    let n := drop uiv_seed_len seed in
    uiv ← uiv_initialize j_s;
    if (length n =? BLK_LEN)%nat then Ok (mkCgo uiv n (replicate BLK_LEN 0)) else Panic.

Definition cgo_seed_len : nat := cgo_state_seed_len * 2 + CIRC_BINDING_LEN.

Definition cgo_initialize (seed : list Z) : res ProtoError (CgoPair BC UH) :=
  if negb (length seed =? cgo_seed_len)%nat then Err (Internal "Invalid seed length")
  else
    let slen := cgo_state_seed_len in
    outbound ← cgo_state_initialize (slice 0 slen seed);
    inbound ← cgo_state_initialize (slice slen (slen * 2) seed);
    let binding := drop (slen * 2) seed in
    if (length binding =? CIRC_BINDING_LEN)%nat then Ok (mkCgoPair outbound inbound binding)
    else Panic.

Definition first_block (bytes : list Z) : list Z := take BLK_LEN bytes.

Definition cgo_client_encrypt (cmd : Z) (cell : list Z) (s : CgoState BC UH) :
    CgoState BC UH * list Z :=
  let t_new := first_block cell in
  let cell := uiv_decrypt (cg_tag s) cmd cell (cg_uiv s) in
  (mkCgo (cg_uiv s) (cg_nonce s) t_new, cell).

Definition cgo_client_originate (cmd : Z) (cell : list Z) (s : CgoState BC UH) :
    res ProtoError (CgoState BC UH * list Z * SendmeTag) :=
  let cell := copy_into 0 (cg_nonce s) cell in
  let '(s, cell) := cgo_client_encrypt cmd cell s in
  '(uiv, nonce) ← uiv_update (cg_nonce s) (cg_uiv s);
  tag ← tag_of (slice 0 BLK_LEN cell);
  Ok (mkCgo uiv nonce (cg_tag s), cell, tag).

Definition cgo_client_decrypt (cmd : Z) (cell : list Z) (s : CgoState BC UH) :
    res ProtoError (CgoState BC UH * list Z * option SendmeTag) :=
  let t_orig := first_block cell in
  let cell := uiv_decrypt (cg_tag s) cmd cell (cg_uiv s) in
  if bytes_eq (take CGO_TAG_LEN cell) (cg_nonce s) then
    '(uiv, nonce) ← uiv_update t_orig (cg_uiv s);
    Ok (mkCgo uiv nonce t_orig, cell, Some (SendmeTag_from16 t_orig))
  else Ok (mkCgo (cg_uiv s) (cg_nonce s) t_orig, cell, None).

Definition cgo_relay_decrypt (cmd : Z) (cell : list Z) (s : CgoState BC UH) :
    res ProtoError (CgoState BC UH * list Z * option SendmeTag) :=
  tag ← tag_of (slice 0 BLK_LEN cell);
  let cell := uiv_encrypt (cg_tag s) cmd cell (cg_uiv s) in
  let t := first_block cell in
  if bytes_eq t (cg_nonce s) then
    '(uiv, nonce) ← uiv_update (cg_nonce s) (cg_uiv s);
    Ok (mkCgo uiv nonce t, cell, Some tag)
  else Ok (mkCgo (cg_uiv s) (cg_nonce s) t, cell, None).

Definition cgo_relay_encrypt (cmd : Z) (cell : list Z) (s : CgoState BC UH) :
    CgoState BC UH * list Z :=
  let cell := uiv_encrypt (cg_tag s) cmd cell (cg_uiv s) in
  (mkCgo (cg_uiv s) (cg_nonce s) (first_block cell), cell).

Definition cgo_relay_originate (cmd : Z) (cell : list Z) (s : CgoState BC UH) :
    res ProtoError (CgoState BC UH * list Z * SendmeTag) :=
  let cell := copy_into 0 (cg_nonce s) cell in
  let '(s, cell) := cgo_relay_encrypt cmd cell s in
  '(uiv, nonce) ← uiv_update (slice 0 BLK_LEN cell) (cg_uiv s);
  Ok (mkCgo uiv nonce (cg_tag s), cell, SendmeTag_from16 (cg_tag s)).

#[export] Instance cgo_relay_inbound : InboundRelayLayer (CgoState BC UH) := {
  originate := cgo_relay_originate;
  encrypt_inbound cmd cell s := Ok (cgo_relay_encrypt cmd cell s) }.
#[export] Instance cgo_relay_outbound : OutboundRelayLayer (CgoState BC UH) := cgo_relay_decrypt.
#[export] Instance cgo_client_outbound : OutboundClientLayer (CgoState BC UH) := {
  originate_for := cgo_client_originate;
  encrypt_outbound cmd cell s := Ok (cgo_client_encrypt cmd cell s) }.
#[export] Instance cgo_client_inbound : InboundClientLayer (CgoState BC UH) := cgo_client_decrypt.
End cgo.

(** ** Client layers and relay layers that share keys

    [out_sync c r]: the client's layer [c] and the relay's layer [r] are in the same state.
    [out_carries c x y]: the parts of a cell body that the layer leaves to its user agree.
    [out_marked c x]: the body bears the marks of a cell that is meant for the layer's relay. *)

Definition cell_len (cell : list Z) : Prop := length cell = CELL_DATA_LEN.

Class OutboundPair (C R : Type) `{!OutboundClientLayer C, !OutboundRelayLayer R} : Type := {
  out_sync : C → R → Prop;
  out_carries : C → list Z → list Z → Prop;
  out_marked : C → list Z → bool;
  out_originate cmd cell c r : cell_len cell → out_sync c r →
    ∃ c' ct tag r' pt,
      originate_for cmd cell c = Ok (c', ct, tag) ∧ cell_len ct ∧
      decrypt_outbound cmd ct r = Ok (r', pt, Some tag) ∧ cell_len pt ∧
      out_carries c cell pt ∧ out_sync c' r';
  out_forward cmd cell c r : cell_len cell → out_sync c r →
    ∃ c' ct r' o,
      encrypt_outbound cmd cell c = Ok (c', ct) ∧ cell_len ct ∧
      decrypt_outbound cmd ct r = Ok (r', cell, o) ∧
      if out_marked c cell then is_Some o else o = None ∧ out_sync c' r';
}.

Class InboundPair (R C : Type) `{!InboundRelayLayer R, !InboundClientLayer C} : Type := {
  in_sync : R → C → Prop;
  in_carries : R → list Z → list Z → Prop;
  in_marked : C → list Z → bool;
  in_originate cmd cell r c : cell_len cell → in_sync r c →
    ∃ r' ct tag c' pt,
      originate cmd cell r = Ok (r', ct, tag) ∧ cell_len ct ∧
      decrypt_inbound cmd ct c = Ok (c', pt, Some tag) ∧ cell_len pt ∧
      in_carries r cell pt ∧ in_sync r' c';
  in_forward cmd cell r c : cell_len cell → in_sync r c →
    ∃ r' ct c' o,
      encrypt_inbound cmd cell r = Ok (r', ct) ∧ cell_len ct ∧
      decrypt_inbound cmd ct c = Ok (c', cell, o) ∧
      if in_marked c cell then is_Some o else o = None ∧ in_sync r' c';
}.

#[export] Hint Mode OutboundPair ! ! - - : typeclass_instances.
#[export] Hint Mode InboundPair ! ! - - : typeclass_instances.

(** ** The relays of a circuit

    An outbound cell visits the relays until one recognizes it; an inbound cell starts at a relay
    and is encrypted by every relay on the way to the client. *)

Fixpoint relays_outbound {R} `{!OutboundRelayLayer R} (cmd : Z) (cell : list Z) (i : nat)
    (rs : list R) : res ProtoError (list R * list Z * (nat * SendmeTag)) :=
  match rs with
  | [] => Err BadCellAuth
  | r :: rs =>
      '(r, cell, tag) ← decrypt_outbound cmd cell r;
      match tag with
      | Some tag => Ok (r :: rs, cell, (i, tag))
      | None =>
          '(rs, cell, x) ← relays_outbound cmd cell (S i) rs;
          Ok (r :: rs, cell, x)
      end
  end.

Fixpoint relays_inbound {R} `{!InboundRelayLayer R} (cmd : Z) (cell : list Z) (hop : nat)
    (rs : list R) : res ProtoError (list R * list Z * SendmeTag) :=
  match hop, rs with
  | _, [] => Err NoSuchHop
  | O, r :: rs =>
      '(r, cell, tag) ← originate cmd cell r; Ok (r :: rs, cell, tag)
  | S hop, r :: rs =>
      '(rs, cell, tag) ← relays_inbound cmd cell hop rs;
      '(r, cell) ← encrypt_inbound cmd cell r;
      Ok (r :: rs, cell, tag)
  end.

(** ** Encrypting layer by layer *)

Section encrypt.
Context {L : Type} `{!OutboundClientLayer L}.
Implicit Types (layers : list L).

Lemma encrypt_layers_snoc cmd cell layers c :
  encrypt_layers cmd cell (layers ++ [c]) =
    ('(layers', cell) ← encrypt_layers cmd cell layers;
     '(c', cell) ← encrypt_outbound cmd cell c;
     Ok (layers' ++ [c'], cell)).
Proof.
  revert cell. induction layers as [|l layers IH]; intros cell; simpl.
  - by destruct (encrypt_outbound _ _ _) as [[??]|?|].
  - destruct (encrypt_outbound cmd cell l) as [[l' cell']|?|]; simpl; [|done..]. rewrite IH.
    destruct (encrypt_layers _ _ _) as [[ls ct]|?|]; simpl; [|done..].
    by destruct (encrypt_outbound _ _ _) as [[??]|?|].
Qed.

Lemma crypt_encrypt_0 cmd cell c layers :
  crypt_encrypt cmd cell 0 (c :: layers) =
    ('(c', ct, tag) ← originate_for cmd cell c; Ok (c' :: layers, ct, tag)).
Proof. unfold crypt_encrypt. simpl. by destruct (originate_for _ _ _) as [[[??]?]|?|]. Qed.

Lemma crypt_encrypt_S cmd cell hop c layers :
  crypt_encrypt cmd cell (S hop) (c :: layers) =
    ('(layers', cell, tag) ← crypt_encrypt cmd cell hop layers;
     '(c', ct) ← encrypt_outbound cmd cell c;
     Ok (c' :: layers', ct, tag)).
Proof.
  unfold crypt_encrypt. cbn [length Nat.leb]. destruct (length layers <=? hop)%nat eqn:Hl; [done|].
  apply Nat.leb_gt in Hl. cbn [take drop Nat.add]. cbn [rev].
  destruct (rev (take (hop + 1) layers)) as [|f rest] eqn:Hr.
  { apply (f_equal length) in Hr. rewrite length_rev, length_take in Hr. simpl in Hr. lia. }
  cbn [app]. destruct (originate_for cmd cell f) as [[[f' cell'] tag]|?|]; simpl; [|done..].
  rewrite encrypt_layers_snoc.
  destruct (encrypt_layers cmd cell' rest) as [[rest' cell'']|?|]; simpl; [|done..].
  destruct (encrypt_outbound cmd cell'' c) as [[c' ct]|?|]; simpl; [|done..].
  by rewrite rev_app_distr.
Qed.
End encrypt.

(** No layer before [hop] finds its marks in the cell as it is encrypted for the layers after
    it.  The marks are bytes of a digest or a nonce, so that this fails by chance only. *)
Fixpoint out_unmarked {C R} `{!OutboundClientLayer C, !OutboundRelayLayer R} `{!OutboundPair C R}
    (cmd : Z) (cell : list Z) (hop : nat) (cs : list C) : bool :=
  match hop, cs with
  | S hop, c :: cs =>
      out_unmarked (R:=R) cmd cell hop cs &&
      match crypt_encrypt cmd cell hop cs with
      | Ok (_, ct, _) => negb (out_marked (R:=R) c ct)
      | _ => true
      end
  | _, _ => true
  end.

Fixpoint in_unmarked {R C} `{!InboundRelayLayer R, !InboundClientLayer C} `{!InboundPair R C}
    (cmd : Z) (cell : list Z) (hop : nat) (rs : list R) (cs : list C) : bool :=
  match hop, rs, cs with
  | S hop, _ :: rs, c :: cs =>
      in_unmarked cmd cell hop rs cs &&
      match relays_inbound cmd cell hop rs with
      | Ok (_, ct, _) => negb (in_marked (R:=R) c ct)
      | _ => true
      end
  | _, _, _ => true
  end.

(** A cell that the client encrypts for a hop is recognized there and nowhere before, with the tag
    and the contents that the client has. *)
Lemma relays_outbound_ok {C R} `{!OutboundClientLayer C, !OutboundRelayLayer R}
    `{!OutboundPair C R} cmd cell hop (cs : list C) (rs : list R) i0 :
  cell_len cell → Forall2 out_sync cs rs → (hop < length cs)%nat →
  out_unmarked (R:=R) cmd cell hop cs = true →
  ∃ cs' ct tag rs' pt,
    crypt_encrypt cmd cell hop cs = Ok (cs', ct, tag) ∧ cell_len ct ∧
    relays_outbound cmd ct i0 rs = Ok (rs', pt, ((i0 + hop)%nat, tag)) ∧
    cell_len pt ∧ Forall2 out_sync cs' rs' ∧
    ∃ c, cs !! hop = Some c ∧ out_carries (R:=R) c cell pt.
Proof.
  intros Hcell Hs. revert hop i0. induction Hs as [|c r cs rs Hcr Hs IH]; intros [|hop] i0 Hh Hu;
    simpl in Hh; try lia.
  - destruct (out_originate cmd cell c r Hcell Hcr) as (c' & ct & tag & r' & pt & Ho & Hct & Hd & Hp & He & Hsync).
    exists (c' :: cs), ct, tag, (r' :: rs), pt. rewrite crypt_encrypt_0, Ho.
    cbn [relays_outbound]. rewrite Hd, Nat.add_0_r. split_and!; [done..|by constructor|]. by exists c.
  - cbn [out_unmarked] in Hu. apply andb_true_iff in Hu as [Hu Hm].
    destruct (IH hop (S i0) ltac:(lia) Hu) as (cs' & ct & tag & rs' & pt & He & Hct & Hr & Hp & Hs' & Hcar).
    rewrite He in Hm. apply negb_true_iff in Hm.
    destruct (out_forward cmd ct c r Hct Hcr) as (c' & ct' & r' & o & Hf & Hct' & Hd & Hn).
    rewrite Hm in Hn. destruct Hn as [-> Hn].
    exists (c' :: cs'), ct', tag, (r' :: rs'), pt. rewrite crypt_encrypt_S, He. cbn. rewrite Hf, Hd. cbn.
    rewrite Hr, Nat.add_succ_comm. split_and!; [done..|by constructor|done].
Qed.

(** The same towards the client. *)
Lemma relays_inbound_ok {R C} `{!InboundRelayLayer R, !InboundClientLayer C}
    `{!InboundPair R C} cmd cell hop (rs : list R) (cs : list C) i0 :
  cell_len cell → Forall2 in_sync rs cs → (hop < length rs)%nat → (i0 + hop ≤ 255)%nat →
  in_unmarked cmd cell hop rs cs = true →
  ∃ rs' ct tag cs' pt,
    relays_inbound cmd cell hop rs = Ok (rs', ct, tag) ∧ cell_len ct ∧
    decrypt_layers cmd ct i0 cs = Ok (cs', pt, ((i0 + hop)%nat, tag)) ∧
    cell_len pt ∧ Forall2 in_sync rs' cs' ∧
    ∃ r, rs !! hop = Some r ∧ in_carries (C:=C) r cell pt.
Proof.
  intros Hcell Hs. revert hop i0. induction Hs as [|r c rs cs Hcr Hs IH]; intros [|hop] i0 Hh Hi Hu;
    simpl in Hh; try lia.
  - destruct (in_originate cmd cell r c Hcell Hcr) as (r' & ct & tag & c' & pt & Ho & Hct & Hd & Hp & He & Hsync).
    exists (r' :: rs), ct, tag, (c' :: cs), pt. cbn [relays_inbound decrypt_layers].
    rewrite Ho, Hd. cbn. rewrite (proj2 (Nat.leb_le i0 255)), Nat.add_0_r by lia.
    split_and!; [done..|by constructor|]. by exists r.
  - cbn [in_unmarked] in Hu. apply andb_true_iff in Hu as [Hu Hm].
    destruct (IH hop (S i0) ltac:(lia) ltac:(lia) Hu)
      as (rs' & ct & tag & cs' & pt & He & Hct & Hr & Hp & Hs' & Hcar).
    rewrite He in Hm. apply negb_true_iff in Hm.
    destruct (in_forward cmd ct r c Hct Hcr) as (r' & ct' & c' & o & Hf & Hct' & Hd & Hn).
    rewrite Hm in Hn. destruct Hn as [-> Hn].
    exists (r' :: rs'), ct', tag, (c' :: cs'), pt. cbn [relays_inbound]. rewrite He. cbn. rewrite Hf. cbn.
    rewrite Hd. cbn. rewrite Hr, Nat.add_succ_comm. split_and!; [done..|by constructor|done].
Qed.

(** ** Exclusive or, slices and tags *)

Lemma length_xor_bytes x y : length x = length y → length (xor_bytes x y) = length x.
Proof. intros H. unfold xor_bytes. by rewrite length_zip_with_l_eq. Qed.

Lemma xor_bytes_twice x y : length x = length y → xor_bytes (xor_bytes x y) y = x.
Proof.
  revert y. induction x as [|a x IH]; intros [|b y]; simpl; intros H; try done.
  injection H as H. f_equal; [|by apply IH].
  by rewrite Z.lxor_assoc, Z.lxor_nilpotent, Z.lxor_0_r.
Qed.

Lemma tag_of_20 {E} x : length x = 20%nat → tag_of (E:=E) x = Ok (SendmeTag_from20 x).
Proof. intros H. unfold tag_of, SendmeTag_try_from. by rewrite H. Qed.

Lemma tag_of_16 {E} x : length x = 16%nat → tag_of (E:=E) x = Ok (SendmeTag_from16 x).
Proof. intros H. unfold tag_of, SendmeTag_try_from. by rewrite H. Qed.

Lemma bytes_eq_true a b : bytes_eq a b = true ↔ a = b.
Proof. apply bool_decide_eq_true. Qed.
Lemma bytes_eq_refl x : bytes_eq x x = true.
Proof. unfold bytes_eq. by rewrite bool_decide_true. Qed.

Lemma copy_into_length a src l :
  (a + length src ≤ length l)%nat → length (copy_into a src l) = length l.
Proof. intros H. unfold copy_into. rewrite !length_app, length_take, length_drop. lia. Qed.

(** ** Tor1 layers are paired *)

Section tor1_pair.
Context {SC D : Type} `{!StreamCipher SC, !Digest D, !StreamCipherLaws SC, !DigestLaws D}.
Implicit Types (c r : Tor1State SC D).

Definition tor1_sync c r : Prop := t1_cipher c = t1_cipher r ∧ t1_digest c = t1_digest r.

(** Everything but the fields "recognized" and "digest". *)
Definition tor1_carries (x y : list Z) : Prop :=
  take RECOGNIZED_START x = take RECOGNIZED_START y ∧
  slice RECOGNIZED_END DIGEST_START x = slice RECOGNIZED_END DIGEST_START y ∧
  drop DIGEST_END x = drop DIGEST_END y.

(** The field "recognized" is zero, and the digest is that of the cells so far and of the body
    without its digest. *)
Definition tor1_marked (d : D) (cell : list Z) : bool :=
  bool_decide (slice RECOGNIZED_START RECOGNIZED_END cell = [0; 0]) &&
  bool_decide (slice DIGEST_START DIGEST_END cell =
               take 4 (d_finalize (d_update (copy_into DIGEST_START (replicate 4 0) cell) d))).

Lemma is_recognized_marked cell (d : D) :
  (DIGEST_END ≤ length cell)%nat →
  ∃ o, is_recognized cell d = Ok o ∧ if tor1_marked d cell then is_Some o else o = None.
Proof.
  intros Hl. unfold DIGEST_END in Hl. do 9 (destruct cell as [|? cell]; [simpl in Hl; lia|]).
  unfold is_recognized, tor1_marked, slice, copy_into, RECOGNIZED_START, RECOGNIZED_END, DIGEST_START,
    DIGEST_END. cbn -[d_update]. rewrite take_0, drop_0.
  rewrite <-!update_app. cbn -[d_update].
  set (f := d_finalize (d_update _ d)).
  assert (length (take SENDME_TAG_LEN f) = 20%nat) as Hf.
  { pose proof output_size_ok. unfold f. rewrite length_take, finalize_length. unfold SENDME_TAG_LEN. lia. }
  rewrite tag_of_20 by done. cbn.
  destruct z0 as [|?|?]; [|rewrite bool_decide_false by done; by exists None..].
  destruct z1 as [|?|?]; [|rewrite bool_decide_false by done; by exists None..].
  rewrite (bool_decide_true ([0; 0] = _)) by done. cbn. unfold bytes_eq.
  case_bool_decide; eexists; (split; [done|]); done.
Qed.

Lemma set_digest_recognized cell (d : D) :
  (DIGEST_END ≤ length cell)%nat →
  ∃ cell' d' tag, set_digest cell d = Ok (cell', d', tag) ∧ length cell' = length cell ∧
    is_recognized cell' d = Ok (Some (d', tag)) ∧ tor1_carries cell cell'.
Proof.
  intros Hl. unfold DIGEST_END in Hl.
  do 9 (destruct cell as [|? cell]; [simpl in Hl; lia|]).
  unfold set_digest, is_recognized, tor1_carries, slice, copy_into,
    RECOGNIZED_START, RECOGNIZED_END, DIGEST_START, DIGEST_END, SENDME_TAG_LEN. simpl.
  set (d' := d_update _ d).
  pose proof (finalize_length d') as Hf. pose proof output_size_ok as H20.
  rewrite tag_of_20 by (rewrite length_take; lia). simpl.
  destruct (d_finalize d') as [|p0 [|p1 [|p2 [|p3 f]]]] eqn:Hd; simpl in Hf; try lia.
  simpl. rewrite drop_0. eexists _, d', _. split; [done|]. split; [done|]. split; [|done].
  replace (d_update cell _) with d' by (unfold d'; by rewrite <-!update_app).
  rewrite Hd. simpl. rewrite take_0, bytes_eq_refl.
  rewrite tag_of_20; [done|]. simpl. rewrite length_take. simpl in Hf. lia.
Qed.

Lemma tor1_crypt_twice cell c r :
  t1_cipher c = t1_cipher r →
  ∃ c' ct r', tor1_crypt cell c = (c', ct) ∧ length ct = length cell ∧
    tor1_crypt ct r = (r', cell) ∧ t1_cipher c' = t1_cipher r' ∧
    t1_digest c' = t1_digest c ∧ t1_digest r' = t1_digest r.
Proof.
  intros Hc. unfold tor1_crypt, apply_keystream. rewrite Hc.
  pose proof (keystream_length (length cell) (t1_cipher r)) as Hk.
  destruct (keystream (length cell) (t1_cipher r)) as [k ks] eqn:E. simpl in Hk.
  eexists _, _, _. split; [done|]. rewrite length_xor_bytes by done. split; [done|].
  rewrite E, xor_bytes_twice by done. done.
Qed.

Lemma tor1_originate_ok cmd cell c r :
  cell_len cell → tor1_sync c r →
  ∃ c' ct tag r' pt,
    tor1_originate cmd cell c = Ok (c', ct, tag) ∧ cell_len ct ∧
    tor1_decrypt cmd ct r = Ok (r', pt, Some tag) ∧ cell_len pt ∧
    tor1_carries cell pt ∧ tor1_sync c' r'.
Proof.
  intros Hcell [Hc Hd].
  destruct (set_digest_recognized cell (t1_digest c)) as (cell' & d' & tag & Hs & Hl & Hr & He).
  { rewrite Hcell. unfold DIGEST_END, CELL_DATA_LEN. lia. }
  destruct (tor1_crypt_twice cell' (mkTor1 (t1_cipher c) d' tag) r) as (c' & ct & r' & H1 & Hct & H2 & H3 & H4 & H5);
    [done|].
  unfold tor1_originate, tor1_decrypt. rewrite Hs. simpl. rewrite H1.
  eexists _, _, _, (mkTor1 (t1_cipher r') d' tag), cell'. unfold cell_len in *. split; [done|].
  split; [congruence|]. rewrite H2, H5, <-Hd, Hr. simpl. split; [done|].
  split; [congruence|]. by split.
Qed.

Lemma tor1_forward_ok cmd cell c r :
  cell_len cell → tor1_sync c r →
  ∃ c' ct r' o,
    tor1_encrypt cmd cell c = Ok (c', ct) ∧ cell_len ct ∧
    tor1_decrypt cmd ct r = Ok (r', cell, o) ∧
    if tor1_marked (t1_digest c) cell then is_Some o else o = None ∧ tor1_sync c' r'.
Proof.
  intros Hcell [Hc Hd].
  destruct (tor1_crypt_twice cell c r) as (c' & ct & r' & H1 & Hct & H2 & H3 & H4 & H5); [done|].
  unfold tor1_encrypt, tor1_decrypt. rewrite H1.
  destruct (is_recognized_marked cell (t1_digest r')) as (o & Ho & Hm).
  { rewrite Hcell. unfold DIGEST_END, CELL_DATA_LEN. lia. }
  exists c', ct. rewrite H2, Ho, Hd, <-H5.
  destruct o as [[d' tag]|], (tor1_marked (t1_digest r') cell); try done; try (by destruct Hm);
    do 2 eexists; (split; [done|]); (split; [by unfold cell_len in *; congruence|]).
  - by split.
  - split; [reflexivity|]. split; [done|]. split; congruence.
Qed.

Lemma tor1_forward_in cmd cell r c :
  cell_len cell → tor1_sync r c →
  ∃ r' ct c' o,
    tor1_encrypt cmd cell r = Ok (r', ct) ∧ cell_len ct ∧
    tor1_decrypt cmd ct c = Ok (c', cell, o) ∧
    if tor1_marked (t1_digest c) cell then is_Some o else o = None ∧ tor1_sync r' c'.
Proof. intros Hcell Hs. rewrite <-(proj2 Hs). by apply tor1_forward_ok. Qed.

#[export] Instance tor1_outbound_pair : OutboundPair (Tor1State SC D) (Tor1State SC D) := {
  out_sync := tor1_sync; out_carries _ := tor1_carries; out_marked c := tor1_marked (t1_digest c);
  out_originate := tor1_originate_ok; out_forward := tor1_forward_ok }.

#[export] Instance tor1_inbound_pair : InboundPair (Tor1State SC D) (Tor1State SC D) := {
  in_sync := tor1_sync; in_carries _ := tor1_carries; in_marked c := tor1_marked (t1_digest c);
  in_originate := tor1_originate_ok; in_forward := tor1_forward_in }.
End tor1_pair.

(** ** CGO layers are paired *)

Section cgo_pair.
Context {BC UH : Type} `{!BlkCipher BC, !UniversalHash UH, !BlkCipherLaws BC, !UniversalHashLaws UH}.
Implicit Types (c r : CgoState BC UH) (u : Uiv BC UH).

Lemma length_xor_hash x (h : UH) :
  length x = BLK_LEN → length (xor_bytes x (uh_finalize h)) = BLK_LEN.
Proof. intros Hx. rewrite length_xor_bytes; [done|]. by rewrite length_uh_finalize. Qed.

Lemma length_et_encrypt t0 t1 t2 b (e : EtCipher BC UH) :
  length b = BLK_LEN → length (et_encrypt t0 t1 t2 b e) = BLK_LEN.
Proof.
  intros Hb. unfold et_encrypt, compute_tweak_hash.
  by apply length_xor_hash, length_encrypt_block, length_xor_hash.
Qed.

Lemma length_et_decrypt t0 t1 t2 b (e : EtCipher BC UH) :
  length b = BLK_LEN → length (et_decrypt t0 t1 t2 b e) = BLK_LEN.
Proof.
  intros Hb. unfold et_decrypt, compute_tweak_hash.
  by apply length_xor_hash, length_decrypt_block, length_xor_hash.
Qed.

Lemma et_encrypt_decrypt t0 t1 t2 b (e : EtCipher BC UH) :
  length b = BLK_LEN → et_encrypt t0 t1 t2 (et_decrypt t0 t1 t2 b e) e = b.
Proof.
  intros Hb. unfold et_encrypt, et_decrypt. set (h := compute_tweak_hash t0 t1 t2 e).
  assert (length h = BLK_LEN) as Hh by apply length_uh_finalize.
  assert (length (xor_bytes b h) = BLK_LEN) by (rewrite length_xor_bytes; congruence).
  rewrite xor_bytes_twice by (rewrite length_decrypt_block; done).
  rewrite encrypt_decrypt by done. apply xor_bytes_twice. congruence.
Qed.

Lemma et_decrypt_encrypt t0 t1 t2 b (e : EtCipher BC UH) :
  length b = BLK_LEN → et_decrypt t0 t1 t2 (et_encrypt t0 t1 t2 b e) e = b.
Proof.
  intros Hb. unfold et_encrypt, et_decrypt. set (h := compute_tweak_hash t0 t1 t2 e).
  assert (length h = BLK_LEN) as Hh by apply length_uh_finalize.
  assert (length (xor_bytes b h) = BLK_LEN) by (rewrite length_xor_bytes; congruence).
  rewrite xor_bytes_twice by (rewrite length_encrypt_block; done).
  rewrite decrypt_encrypt by done. apply xor_bytes_twice. congruence.
Qed.

Lemma length_xor_n0 t out (p : Prf BC UH) : length (xor_n0_stream t out p) = length out.
Proof. apply length_xor_bytes. symmetry. apply length_ctr. Qed.

Lemma xor_n0_twice t out (p : Prf BC UH) : xor_n0_stream t (xor_n0_stream t out p) p = out.
Proof.
  unfold xor_n0_stream at 1. rewrite length_xor_n0. apply xor_bytes_twice.
  symmetry. apply length_ctr.
Qed.

(** A body is split into its first block and the rest. *)
Lemma cell_split cell :
  cell_len cell →
  ∃ l l' : list Z, cell = l ++ l' ∧ length l = BLK_LEN ∧ length l' = CGO_PAYLOAD_LEN.
Proof.
  intros Hc. exists (take BLK_LEN cell), (drop BLK_LEN cell). rewrite take_drop.
  rewrite length_take, length_drop, Hc. done.
Qed.

Lemma uiv_split_app l l' : length l = BLK_LEN → uiv_split (l ++ l') = (l, l').
Proof.
  intros Hl. unfold uiv_split. change CGO_TAG_LEN with BLK_LEN. rewrite <-Hl.
  by rewrite take_app_length, drop_app_length.
Qed.

Lemma cell_len_app (l r : list Z) : length l = BLK_LEN → length r = CGO_PAYLOAD_LEN → cell_len (l ++ r).
Proof. intros Hl Hr. unfold cell_len. by rewrite length_app, Hl, Hr. Qed.

Lemma uiv_encrypt_decrypt h ad cell u :
  cell_len cell → uiv_encrypt h ad (uiv_decrypt h ad cell u) u = cell.
Proof.
  intros (l & r & -> & Hl & Hr)%cell_split. unfold uiv_decrypt. rewrite uiv_split_app by done.
  unfold uiv_encrypt. rewrite uiv_split_app by by apply length_et_decrypt.
  by rewrite et_encrypt_decrypt, xor_n0_twice.
Qed.

Lemma uiv_decrypt_encrypt h ad cell u :
  cell_len cell → uiv_decrypt h ad (uiv_encrypt h ad cell u) u = cell.
Proof.
  intros (l & r & -> & Hl & Hr)%cell_split. unfold uiv_encrypt. rewrite uiv_split_app by done.
  unfold uiv_decrypt. rewrite uiv_split_app by by apply length_et_encrypt.
  by rewrite xor_n0_twice, et_decrypt_encrypt.
Qed.

Lemma uiv_encrypt_len h ad cell u : cell_len cell → cell_len (uiv_encrypt h ad cell u).
Proof.
  intros (l & r & -> & Hl & Hr)%cell_split. unfold uiv_encrypt. rewrite uiv_split_app by done.
  apply cell_len_app; [by apply length_et_encrypt|]. by rewrite length_xor_n0.
Qed.

Lemma uiv_decrypt_len h ad cell u : cell_len cell → cell_len (uiv_decrypt h ad cell u).
Proof.
  intros (l & r & -> & Hl & Hr)%cell_split. unfold uiv_decrypt. rewrite uiv_split_app by done.
  apply cell_len_app; [by apply length_et_decrypt|]. by rewrite length_xor_n0.
Qed.

Lemma et_initialize_ok seed :
  length seed = et_seed_len (BC:=BC) (UH:=UH) →
  et_initialize (BC:=BC) (UH:=UH) seed =
    Ok (mkEt (bc_new (take (bc_key_size BC) seed)) (uh_new (drop (bc_key_size BC) seed))).
Proof. intros H. unfold et_initialize. by rewrite (proj2 (Nat.eqb_eq _ _)). Qed.

Lemma prf_initialize_ok seed :
  length seed = et_seed_len (BC:=BC) (UH:=UH) →
  prf_initialize (BC:=BC) (UH:=UH) seed =
    Ok (mkPrf (bc_new (take (bc_key_size BC) seed)) (uh_new (drop (bc_key_size BC) seed))).
Proof. intros H. unfold prf_initialize. by rewrite (proj2 (Nat.eqb_eq _ _)). Qed.

Lemma uiv_update_ok nonce u :
  length nonce = BLK_LEN →
  ∃ u' nonce', uiv_update nonce u = Ok (u', nonce') ∧ length nonce' = BLK_LEN.
Proof.
  intros Hn. unfold uiv_update.
  set (seed := get_n1_stream _ _ _).
  assert (length seed = (uiv_seed_len (BC:=BC) (UH:=UH) + BLK_LEN)%nat) as Hs.
  { unfold seed, get_n1_stream. rewrite length_xor_bytes; rewrite length_replicate; [done|].
    symmetry. apply length_ctr. }
  unfold uiv_seed_len in Hs. unfold split_seed, slice. rewrite drop_0.
  rewrite et_initialize_ok by (rewrite length_take, Hs; lia). simpl.
  rewrite prf_initialize_ok by (rewrite length_take, length_drop, Hs; lia). simpl.
  assert (length (drop (et_seed_len (BC:=BC) (UH:=UH) + et_seed_len (BC:=BC) (UH:=UH)) seed) = BLK_LEN) as Hd
    by (rewrite length_drop, Hs; lia).
  rewrite Hn, Hd. simpl. eauto.
Qed.

Definition cgo_sync c r : Prop := c = r ∧ length (cg_nonce c) = BLK_LEN.

(** Everything but the block of the tag. *)
Definition cgo_carries (x y : list Z) : Prop := drop CGO_TAG_LEN x = drop CGO_TAG_LEN y.

(** The first block is the nonce. *)
Definition cgo_marked (s : CgoState BC UH) (cell : list Z) : bool :=
  bool_decide (take BLK_LEN cell = cg_nonce s).

Lemma first_block_len cell : cell_len cell → length (first_block cell) = BLK_LEN.
Proof. intros Hc. unfold first_block. by rewrite length_take, Hc. Qed.

(** Writing the nonce over the first block. *)
Lemma copy_nonce (nonce cell : list Z) :
  length nonce = BLK_LEN → cell_len cell →
  cell_len (copy_into 0 nonce cell) ∧ first_block (copy_into 0 nonce cell) = nonce ∧
  cgo_carries cell (copy_into 0 nonce cell).
Proof.
  intros Hn Hc. split_and!.
  - unfold cell_len. rewrite copy_into_length; [done|]. rewrite Hn, Hc. unfold CELL_DATA_LEN, BLK_LEN. lia.
  - unfold first_block, copy_into. simpl. rewrite <-Hn. by rewrite take_app_length.
  - unfold cgo_carries, copy_into. simpl. rewrite Hn. change CGO_TAG_LEN with BLK_LEN.
    by rewrite <-Hn at 2; rewrite drop_app_length.
Qed.

Lemma slice_first cell : slice 0 BLK_LEN cell = first_block cell.
Proof. unfold slice, first_block. by rewrite drop_0. Qed.

Lemma cgo_out_originate cmd cell c r :
  cell_len cell → cgo_sync c r →
  ∃ c' ct tag r' pt,
    cgo_client_originate cmd cell c = Ok (c', ct, tag) ∧ cell_len ct ∧
    cgo_relay_decrypt cmd ct r = Ok (r', pt, Some tag) ∧ cell_len pt ∧
    cgo_carries cell pt ∧ cgo_sync c' r'.
Proof.
  intros Hcell [<- Hn]. destruct (copy_nonce (cg_nonce c) cell Hn Hcell) as (Hl & Hf & Hcar).
  unfold cgo_client_originate, cgo_client_encrypt, cgo_relay_decrypt. simpl.
  rewrite Hf. set (x := copy_into 0 (cg_nonce c) cell) in *.
  destruct (uiv_update_ok (cg_nonce c) (cg_uiv c) Hn) as (u' & n' & Hu & Hn'). rewrite Hu. simpl.
  set (ct := uiv_decrypt (cg_tag c) cmd x (cg_uiv c)).
  assert (cell_len ct) as Hct by by apply uiv_decrypt_len.
  rewrite slice_first, tag_of_16 by by apply first_block_len. simpl.
  eexists _, ct, _, _, x. split; [done|]. split; [done|].
  rewrite (slice_first ct), tag_of_16 by by apply first_block_len. simpl.
  replace (uiv_encrypt (cg_tag c) cmd ct (cg_uiv c)) with x
    by (symmetry; by apply uiv_encrypt_decrypt).
  by rewrite Hf, bytes_eq_refl.
Qed.

Lemma cgo_out_forward cmd cell c r :
  cell_len cell → cgo_sync c r →
  ∃ c' ct r' o,
    Ok (E:=ProtoError) (cgo_client_encrypt cmd cell c) = Ok (c', ct) ∧ cell_len ct ∧
    cgo_relay_decrypt cmd ct r = Ok (r', cell, o) ∧
    if cgo_marked c cell then is_Some o else o = None ∧ cgo_sync c' r'.
Proof.
  intros Hcell [<- Hn]. unfold cgo_client_encrypt, cgo_relay_decrypt.
  set (ct := uiv_decrypt (cg_tag c) cmd cell (cg_uiv c)).
  assert (cell_len ct) as Hct by by apply uiv_decrypt_len.
  eexists _, ct. rewrite (slice_first ct), tag_of_16 by by apply first_block_len. simpl.
  replace (uiv_encrypt (cg_tag c) cmd ct (cg_uiv c)) with cell
    by (symmetry; by apply uiv_encrypt_decrypt).
  unfold cgo_marked, bytes_eq, first_block. case_bool_decide; [|by eexists _, None].
  destruct (uiv_update_ok (cg_nonce c) (cg_uiv c) Hn) as (u' & n' & Hu & Hn'). rewrite Hu. simpl.
  by eexists _, (Some _).
Qed.

Lemma cgo_in_originate cmd cell r c :
  cell_len cell → cgo_sync r c →
  ∃ r' ct tag c' pt,
    cgo_relay_originate cmd cell r = Ok (r', ct, tag) ∧ cell_len ct ∧
    cgo_client_decrypt cmd ct c = Ok (c', pt, Some tag) ∧ cell_len pt ∧
    cgo_carries cell pt ∧ cgo_sync r' c'.
Proof.
  intros Hcell [<- Hn]. destruct (copy_nonce (cg_nonce r) cell Hn Hcell) as (Hl & Hf & Hcar).
  unfold cgo_relay_originate, cgo_relay_encrypt, cgo_client_decrypt. simpl.
  set (x := copy_into 0 (cg_nonce r) cell) in *.
  set (ct := uiv_encrypt (cg_tag r) cmd x (cg_uiv r)).
  assert (cell_len ct) as Hct by by apply uiv_encrypt_len.
  rewrite (slice_first ct).
  destruct (uiv_update_ok (first_block ct) (cg_uiv r)) as (u' & n' & Hu & Hn');
    [by apply first_block_len|].
  rewrite Hu. simpl. eexists _, ct, _, _, x. split; [done|]. split; [done|].
  replace (uiv_decrypt (cg_tag r) cmd ct (cg_uiv r)) with x
    by (symmetry; by apply uiv_decrypt_encrypt).
  change (take CGO_TAG_LEN x) with (first_block x). rewrite Hf, bytes_eq_refl, Hu. simpl. done.
Qed.

Lemma cgo_in_forward cmd cell r c :
  cell_len cell → cgo_sync r c →
  ∃ r' ct c' o,
    Ok (E:=ProtoError) (cgo_relay_encrypt cmd cell r) = Ok (r', ct) ∧ cell_len ct ∧
    cgo_client_decrypt cmd ct c = Ok (c', cell, o) ∧
    if cgo_marked c cell then is_Some o else o = None ∧ cgo_sync r' c'.
Proof.
  intros Hcell [<- Hn]. unfold cgo_relay_encrypt, cgo_client_decrypt.
  set (ct := uiv_encrypt (cg_tag r) cmd cell (cg_uiv r)).
  assert (cell_len ct) as Hct by by apply uiv_encrypt_len.
  eexists _, ct. replace (uiv_decrypt (cg_tag r) cmd ct (cg_uiv r)) with cell
    by (symmetry; by apply uiv_decrypt_encrypt).
  unfold cgo_marked, bytes_eq. change CGO_TAG_LEN with BLK_LEN. case_bool_decide; [|by eexists _, None].
  destruct (uiv_update_ok (first_block ct) (cg_uiv r)) as (u' & n' & Hu & Hn');
    [by apply first_block_len|].
  rewrite Hu. simpl. by eexists _, (Some _).
Qed.

#[export] Instance cgo_outbound_pair : OutboundPair (CgoState BC UH) (CgoState BC UH) := {
  out_sync := cgo_sync; out_carries _ := cgo_carries; out_marked := cgo_marked;
  out_originate := cgo_out_originate; out_forward := cgo_out_forward }.

#[export] Instance cgo_inbound_pair : InboundPair (CgoState BC UH) (CgoState BC UH) := {
  in_sync := cgo_sync; in_carries _ := cgo_carries; in_marked := cgo_marked;
  in_originate := cgo_in_originate; in_forward := cgo_in_forward }.
End cgo_pair.

(** ** Boxed layers

    A boxed trait object is a sum: the code calls the method of the layer that is in the box. *)

Section boxed.
Context {A B : Type}.

#[export] Instance sum_inbound_relay `{!InboundRelayLayer A, !InboundRelayLayer B} :
    InboundRelayLayer (A + B) := {
  originate cmd cell l :=
    match l with
    | inl a => '(a, cell, tag) ← originate cmd cell a; Ok (inl a, cell, tag)
    | inr b => '(b, cell, tag) ← originate cmd cell b; Ok (inr b, cell, tag)
    end;
  encrypt_inbound cmd cell l :=
    match l with
    | inl a => '(a, cell) ← encrypt_inbound cmd cell a; Ok (inl a, cell)
    | inr b => '(b, cell) ← encrypt_inbound cmd cell b; Ok (inr b, cell)
    end }.

#[export] Instance sum_outbound_relay `{!OutboundRelayLayer A, !OutboundRelayLayer B} :
    OutboundRelayLayer (A + B) := λ cmd cell l,
  match l with
  | inl a => '(a, cell, tag) ← decrypt_outbound cmd cell a; Ok (inl a, cell, tag)
  | inr b => '(b, cell, tag) ← decrypt_outbound cmd cell b; Ok (inr b, cell, tag)
  end.

#[export] Instance sum_outbound_client `{!OutboundClientLayer A, !OutboundClientLayer B} :
    OutboundClientLayer (A + B) := {
  originate_for cmd cell l :=
    match l with
    | inl a => '(a, cell, tag) ← originate_for cmd cell a; Ok (inl a, cell, tag)
    | inr b => '(b, cell, tag) ← originate_for cmd cell b; Ok (inr b, cell, tag)
    end;
  encrypt_outbound cmd cell l :=
    match l with
    | inl a => '(a, cell) ← encrypt_outbound cmd cell a; Ok (inl a, cell)
    | inr b => '(b, cell) ← encrypt_outbound cmd cell b; Ok (inr b, cell)
    end }.

#[export] Instance sum_inbound_client `{!InboundClientLayer A, !InboundClientLayer B} :
    InboundClientLayer (A + B) := λ cmd cell l,
  match l with
  | inl a => '(a, cell, tag) ← decrypt_inbound cmd cell a; Ok (inl a, cell, tag)
  | inr b => '(b, cell, tag) ← decrypt_inbound cmd cell b; Ok (inr b, cell, tag)
  end.
End boxed.

Section boxed_pairs.
Context {A B A' B' : Type}.

#[export, refine] Instance sum_outbound_pair
    `{!OutboundClientLayer A, !OutboundClientLayer B, !OutboundRelayLayer A', !OutboundRelayLayer B'}
    `{!OutboundPair A A', !OutboundPair B B'} : OutboundPair (A + B) (A' + B') := {
  out_sync c r := match c, r with inl a, inl a' => out_sync a a' | inr b, inr b' => out_sync b b'
                  | _, _ => False end;
  out_carries c := match c with inl a => out_carries (R:=A') a | inr b => out_carries (R:=B') b end;
  out_marked c := match c with inl a => out_marked (R:=A') a | inr b => out_marked (R:=B') b end }.
Proof.
  - intros cmd cell [a|b] [a'|b'] Hc Hs; try done.
    + destruct (out_originate cmd cell a a' Hc Hs) as (c' & ct & tag & r' & pt & H1 & H2 & H3 & H).
      exists (inl c'), ct, tag, (inl r'), pt. simpl. unfold decrypt_outbound, sum_outbound_relay.
      by rewrite H1, H3.
    + destruct (out_originate cmd cell b b' Hc Hs) as (c' & ct & tag & r' & pt & H1 & H2 & H3 & H).
      exists (inr c'), ct, tag, (inr r'), pt. simpl. unfold decrypt_outbound, sum_outbound_relay.
      by rewrite H1, H3.
  - intros cmd cell [a|b] [a'|b'] Hc Hs; try done.
    + destruct (out_forward cmd cell a a' Hc Hs) as (c' & ct & r' & o & H1 & H2 & H3 & H).
      exists (inl c'), ct, (inl r'), o. simpl. unfold decrypt_outbound, sum_outbound_relay.
      by rewrite H1, H3.
    + destruct (out_forward cmd cell b b' Hc Hs) as (c' & ct & r' & o & H1 & H2 & H3 & H).
      exists (inr c'), ct, (inr r'), o. simpl. unfold decrypt_outbound, sum_outbound_relay.
      by rewrite H1, H3.
Defined.

#[export, refine] Instance sum_inbound_pair
    `{!InboundRelayLayer A, !InboundRelayLayer B, !InboundClientLayer A', !InboundClientLayer B'}
    `{!InboundPair A A', !InboundPair B B'} : InboundPair (A + B) (A' + B') := {
  in_sync r c := match r, c with inl a, inl a' => in_sync a a' | inr b, inr b' => in_sync b b'
                 | _, _ => False end;
  in_carries r := match r with inl a => in_carries (C:=A') a | inr b => in_carries (C:=B') b end;
  in_marked c := match c with inl a => in_marked (R:=A) a | inr b => in_marked (R:=B) b end }.
Proof.
  - intros cmd cell [a|b] [a'|b'] Hc Hs; try done.
    + destruct (in_originate cmd cell a a' Hc Hs) as (c' & ct & tag & r' & pt & H1 & H2 & H3 & H).
      exists (inl c'), ct, tag, (inl r'), pt. simpl. unfold decrypt_inbound, sum_inbound_client.
      by rewrite H1, H3.
    + destruct (in_originate cmd cell b b' Hc Hs) as (c' & ct & tag & r' & pt & H1 & H2 & H3 & H).
      exists (inr c'), ct, tag, (inr r'), pt. simpl. unfold decrypt_inbound, sum_inbound_client.
      by rewrite H1, H3.
  - intros cmd cell [a|b] [a'|b'] Hc Hs; try done.
    + destruct (in_forward cmd cell a a' Hc Hs) as (c' & ct & r' & o & H1 & H2 & H3 & H).
      exists (inl c'), ct, (inl r'), o. simpl. unfold decrypt_inbound, sum_inbound_client.
      by rewrite H1, H3.
    + destruct (in_forward cmd cell b b' Hc Hs) as (c' & ct & r' & o & H1 & H2 & H3 & H).
      exists (inr c'), ct, (inr r'), o. simpl. unfold decrypt_inbound, sum_inbound_client.
      by rewrite H1, H3.
Defined.
End boxed_pairs.

(** ** Constructing the layers of a hop (client/circuit/handshake.rs)

    An onion service plays the relay's part towards its client: it wraps relay layers. *)

Record ResponderOutboundLayer (L : Type) : Type := mkRespOut { ro_layer : L }.
Record ResponderInboundLayer (L : Type) : Type := mkRespIn { ri_layer : L }.
Arguments mkRespOut {L}.
Arguments ro_layer {L}.
Arguments mkRespIn {L}.
Arguments ri_layer {L}.

#[export] Instance responder_outbound {L} `{!InboundRelayLayer L} :
    OutboundClientLayer (ResponderOutboundLayer L) := {
  originate_for cmd cell l :=
    '(l, cell, tag) ← originate cmd cell (ro_layer l); Ok (mkRespOut l, cell, tag);
  encrypt_outbound cmd cell l :=
    '(l, cell) ← encrypt_inbound cmd cell (ro_layer l); Ok (mkRespOut l, cell) }.

#[export] Instance responder_inbound {L} `{!OutboundRelayLayer L} :
    InboundClientLayer (ResponderInboundLayer L) := λ cmd cell l,
  '(l, cell, tag) ← decrypt_outbound cmd cell (ri_layer l); Ok (mkRespIn l, cell, tag).

Inductive HandshakeRole : Type := Initiator | Responder.

Section construct.
Context {SC D SC' D' BC UH : Type}.
Context `{!StreamCipher SC, !Digest D, !StreamCipher SC', !Digest D', !BlkCipher BC, !UniversalHash UH}.

(** One direction of a layer: Tor1, its variant for onion services, or CGO. *)
Definition AnyLayer : Type := Tor1State SC D + (Tor1State SC' D' + CgoState BC UH).

Definition OutLayer : Type := AnyLayer + ResponderOutboundLayer AnyLayer.
Definition InLayer : Type := AnyLayer + ResponderInboundLayer AnyLayer.

Record BoxedClientLayer : Type := mkBoxedLayer {
  bl_fwd : OutLayer;
  bl_back : InLayer;
  bl_binding : option (list Z) }.

(** [construct] of a layer pair, split for the role. *)
Definition box_layers (role : HandshakeRole) (fwd back : AnyLayer) (binding : list Z) :
    BoxedClientLayer :=
  match role with
  | Initiator => mkBoxedLayer (inl fwd) (inl back) (Some binding)
  | Responder => mkBoxedLayer (inr (mkRespOut back)) (inr (mkRespIn fwd)) (Some binding)
  end.

Definition construct_tor1 (expand : nat → res ProtoError (list Z)) (role : HandshakeRole) :
    res ProtoError BoxedClientLayer :=
  seed ← expand (tor1_seed_len SC D);
  p ← tor1_initialize (SC:=SC) (D:=D) seed;
  Ok (box_layers role (inl (t1_fwd p)) (inl (t1_back p)) (t1_binding p)).

Definition construct_hsv3 (expand : nat → res ProtoError (list Z)) (role : HandshakeRole) :
    res ProtoError BoxedClientLayer :=
  seed ← expand (tor1_seed_len SC' D');
  p ← tor1_initialize (SC:=SC') (D:=D') seed;
  Ok (box_layers role (inr (inl (t1_fwd p))) (inr (inl (t1_back p))) (t1_binding p)).

Definition construct_cgo (expand : nat → res ProtoError (list Z)) (role : HandshakeRole) :
    res ProtoError BoxedClientLayer :=
  seed ← expand (cgo_seed_len (BC:=BC) (UH:=UH));
  p ← cgo_initialize seed;
  Ok (box_layers role (inr (inr (cg_outbound p))) (inr (inr (cg_inbound p))) (cg_binding p)).
End construct.
Arguments AnyLayer : clear implicits.
Arguments OutLayer : clear implicits.
Arguments InLayer : clear implicits.
Arguments BoxedClientLayer : clear implicits.

(** ** Whole circuits *)

Section circuits.
Context {SC D SC' D' BC UH : Type}.
Context `{!StreamCipher SC, !Digest D, !StreamCipher SC', !Digest D', !BlkCipher BC, !UniversalHash UH}.
Context `{!StreamCipherLaws SC, !DigestLaws D, !StreamCipherLaws SC', !DigestLaws D'}.
Context `{!BlkCipherLaws BC, !UniversalHashLaws UH}.
#[local] Abbreviation layer := (AnyLayer SC D SC' D' BC UH).

(** Two ends that construct a layer from the same key material are in step. *)
Lemma cgo_state_sync seed (s : CgoState BC UH) : cgo_state_initialize seed = Ok s → cgo_sync s s.
Proof.
  unfold cgo_state_initialize. case_match; [done|]. intros Hok. ok_inv.
  destruct (Nat.eqb_spec (length (drop (uiv_seed_len (BC:=BC) (UH:=UH)) seed)) BLK_LEN); [|done]. by ok_inv.
Qed.

Lemma cgo_initialize_sync seed (p : CgoPair BC UH) :
  cgo_initialize seed = Ok p →
  cgo_sync (cg_outbound p) (cg_outbound p) ∧ cgo_sync (cg_inbound p) (cg_inbound p).
Proof.
  unfold cgo_initialize. destruct (negb _); [done|].
  intros (s1 & H1 & (s2 & H2 & H3)%bind_ok)%bind_ok.
  destruct (length _ =? _)%nat; [|done]. injection H3 as <-. simpl.
  split; by eapply cgo_state_sync.
Qed.

Lemma construct_sync (expand : nat → res ProtoError (list Z))
    (make : (nat → res ProtoError (list Z)) → HandshakeRole →
            res ProtoError (BoxedClientLayer SC D SC' D' BC UH)) a b :
  make = construct_tor1 ∨ make = construct_hsv3 ∨ make = construct_cgo →
  make expand Initiator = Ok a → make expand Responder = Ok b →
  ∃ fwd back : layer,
    bl_fwd a = inl fwd ∧ bl_back b = inr (mkRespIn fwd) ∧ out_sync fwd fwd ∧
    bl_back a = inl back ∧ bl_fwd b = inr (mkRespOut back) ∧ in_sync back back.
Proof.
  intros Hm Ha Hb. destruct Hm as [->|[->| ->]];
    unfold construct_tor1, construct_hsv3, construct_cgo in *; ok_inv;
    repeat match goal with
    | H1 : ?x = Ok ?a, H2 : ?x = Ok ?b |- _ => rewrite H1 in H2; injection H2 as <-
    end; do 2 eexists; simpl; split_and!; try done.
  - match goal with H : cgo_initialize _ = Ok _ |- _ => exact (proj1 (cgo_initialize_sync _ _ H)) end.
  - match goal with H : cgo_initialize _ = Ok _ |- _ => exact (proj2 (cgo_initialize_sync _ _ H)) end.
Qed.

(** C4: However Tor1 and CGO layers are mixed on a circuit whose relays are in step with the
    client, the cell that [OutboundClientCrypt::encrypt] makes for a hop is passed on by every
    relay before that hop and recognized by the relay there; that relay gets the bytes of the body
    that the layer leaves to its user, and the tag with which it may acknowledge the cell is the
    one the client expects; afterwards every layer is still in step.  It is assumed that no relay
    before the hop finds its marks (the zero field and its digest, or its nonce) in the cell as it
    is encrypted for the relays after it. *)
Theorem onion_outbound cmd cell hop (cs rs : list layer) :
  cell_len cell → Forall2 out_sync cs rs → (hop < length cs)%nat →
  out_unmarked (R:=layer) cmd cell hop cs = true →
  ∃ cs' ct tag rs' pt,
    crypt_encrypt cmd cell hop cs = Ok (cs', ct, tag) ∧ cell_len ct ∧
    relays_outbound cmd ct 0 rs = Ok (rs', pt, (hop, tag)) ∧
    cell_len pt ∧ Forall2 out_sync cs' rs' ∧
    ∃ c, cs !! hop = Some c ∧ out_carries (R:=layer) c cell pt.
Proof. apply relays_outbound_ok. Qed.

(** C5: A cell that a relay originates and every relay before it encrypts is attributed by
    [InboundClientCrypt::decrypt] to that relay, with its tag and its contents, and leaves the
    layers in step.  It is assumed that no layer of the client before that relay's finds its marks
    in the cell as the relays after it have encrypted it. *)
Theorem onion_inbound cmd cell hop (rs cs : list layer) :
  cell_len cell → Forall2 in_sync rs cs → (hop < length rs)%nat → (hop ≤ 255)%nat →
  in_unmarked cmd cell hop rs cs = true →
  ∃ rs' ct tag cs' pt,
    relays_inbound cmd cell hop rs = Ok (rs', ct, tag) ∧ cell_len ct ∧
    crypt_decrypt cmd ct cs = Ok (cs', pt, (hop, tag)) ∧
    cell_len pt ∧ Forall2 in_sync rs' cs' ∧
    ∃ r, rs !! hop = Some r ∧ in_carries (C:=layer) r cell pt.
Proof. intros Hc Hs Hh H255. by apply relays_inbound_ok. Qed.
End circuits.

(** ** A small instance of the primitives *)

Module Toy.
#[local] Instance cipher : StreamCipher Z := {
  sc_key_size := 2;
  sc_new key := from_be_bytes key;
  keystream n c := (c + Z.of_nat n, map (λ i, (c + Z.of_nat i) mod 256) (seq 0 n)) }.
#[local] Instance cipher_laws : StreamCipherLaws Z.
Proof. intros n c. simpl. by rewrite length_map, length_seq. Qed.

#[local] Instance digest : Digest Z := {
  d_output_size := 20;
  d_new := 0;
  d_update x d := foldl (λ d b, (d * 31 + b + 7) mod 1000003) d x;
  d_finalize d := map (λ i, (d + Z.of_nat i * 7 + 1) mod 256) (seq 0 20) }.
#[local] Instance digest_laws : DigestLaws Z.
Proof.
  split; [|done|simpl; lia].
  intros x y d. simpl. by rewrite foldl_app.
Qed.

#[local] Instance block : BlkCipher Z := {
  bc_key_size := 2;
  bc_new key := from_be_bytes key;
  encrypt_block k b := map (Z.lxor (k mod 256)) b;
  decrypt_block k b := map (Z.lxor (k mod 256)) b;
  ctr128be k iv pos n := map (λ i, (k + from_be_bytes iv + Z.of_nat (pos + i)) mod 256) (seq 0 n) }.

Lemma lxor_map_twice k b : map (Z.lxor k) (map (Z.lxor k) b) = b.
Proof.
  induction b as [|x b IH]; simpl; [done|]. rewrite IH.
  by rewrite <-Z.lxor_assoc, Z.lxor_nilpotent, Z.lxor_0_l.
Qed.

#[local] Instance block_laws : BlkCipherLaws Z.
Proof.
  split; intros; simpl; try apply lxor_map_twice; rewrite ?length_map, ?length_seq; done.
Qed.

#[local] Instance hash : UniversalHash Z := {
  uh_key_size := 2;
  uh_new key := from_be_bytes key;
  uh_update bs h := foldl (λ h b, (h * 17 + b) mod 1000003) h (mjoin bs);
  uh_update_padded b h := foldl (λ h b, (h * 13 + b) mod 1000003) h b;
  uh_finalize h := to_be_bytes 16 h }.
#[local] Instance hash_laws : UniversalHashLaws Z.
Proof. intros h. apply length_to_be_bytes. Qed.

Definition tor1_layer (k : Z) : AnyLayer Z Z Z Z Z Z :=
  inl (mkTor1 k (k * 5) (SendmeTag_from20 (replicate 20 0))).
Definition cgo_layer (k : Z) : AnyLayer Z Z Z Z Z Z :=
  inr (inr (mkCgo (mkUiv (mkEt k (k + 1)) (mkPrf (k + 2) (k + 3))) (replicate 16 k) (replicate 16 0))).

(** Three hops: CGO, Tor1, CGO. *)
Definition layers : list (AnyLayer Z Z Z Z Z Z) := [cgo_layer 11; tor1_layer 22; cgo_layer 33].
Definition cell : list Z := map (λ i, Z.of_nat i mod 251) (seq 0 509).

Lemma layers_out_sync : Forall2 out_sync layers layers.
Proof. by repeat constructor. Qed.
Lemma layers_in_sync : Forall2 in_sync layers layers.
Proof. by repeat constructor. Qed.

Lemma cell_out_unmarked : out_unmarked (R:=AnyLayer Z Z Z Z Z Z) 3 cell 2 layers = true.
Proof. vm_compute. reflexivity. Qed.
Lemma cell_in_unmarked : in_unmarked 3 cell 1 layers layers = true.
Proof. vm_compute. reflexivity. Qed.

Lemma cell_ok : cell_len cell.
Proof. vm_compute. reflexivity. Qed.

Lemma onion_outbound_witness :
  ∃ cs' ct tag rs' pt,
    crypt_encrypt 3 cell 2 layers = Ok (cs', ct, tag) ∧
    relays_outbound 3 ct 0 layers = Ok (rs', pt, (2%nat, tag)) ∧
    drop CGO_TAG_LEN cell = drop CGO_TAG_LEN pt ∧ Forall2 out_sync cs' rs'.
Proof.
  destruct (onion_outbound 3 cell 2 layers layers cell_ok layers_out_sync)
    as (cs' & ct & tag & rs' & pt & H1 & _ & H2 & _ & Hs & c & Hc & Hcar);
    [simpl; lia|exact cell_out_unmarked|].
  exists cs', ct, tag, rs', pt. split; [exact H1|].
  injection Hc as <-. split; [exact H2|]. split; [exact Hcar|exact Hs].
Defined.

Lemma onion_inbound_witness :
  ∃ rs' ct tag cs' pt,
    relays_inbound 3 cell 1 layers = Ok (rs', ct, tag) ∧
    crypt_decrypt 3 ct layers = Ok (cs', pt, (1%nat, tag)) ∧
    drop DIGEST_END cell = drop DIGEST_END pt ∧ Forall2 in_sync rs' cs'.
Proof.
  destruct (onion_inbound 3 cell 1 layers layers cell_ok layers_in_sync)
    as (rs' & ct & tag & cs' & pt & H1 & _ & H2 & _ & Hs & c & Hc & Hcar);
    [simpl; lia|lia|exact cell_in_unmarked|].
  exists rs', ct, tag, cs', pt. split; [exact H1|].
  injection Hc as <-. destruct Hcar as (_ & _ & Hcar).
  split; [exact H2|]. split; [exact Hcar|exact Hs].
Defined.
End Toy.
