(* ===== verification/Cwnd.v ===== *)
(** * Cwnd: congestion control parameters, state and window

    [tor-proto/src/congestion/params.rs] and the first half of
    [tor-proto/src/congestion.rs].  All quantities are [u32] unless said otherwise; a
    [Percentage<u32>] is the number of percent. *)

From S2P Require Import Prelude Bytes RelayMsg RelayCell Sendme.

(** ** Parameters *)

Record FixedWindowParams : Type := mkFixedWindowParams {
  circ_window_start : Z; circ_window_min : Z; circ_window_max : Z }.

Record VegasQueueParams : Type := mkVegasQueueParams {
  alpha : Z; beta : Z; delta : Z; gamma : Z; ss_cwnd_cap : Z }.

Record VegasParams : Type := mkVegasParams {
  cell_in_queue_params : VegasQueueParams;
  ss_cwnd_max : Z;
  cwnd_full_gap : Z;
  cwnd_full_min_pct : Z;
  cwnd_full_per_cwnd : Z }.

Inductive Algorithm : Type :=
| AlgFixedWindow (p : FixedWindowParams)
| AlgVegas (p : VegasParams).

Definition compatible_with_cgo (a : Algorithm) : bool :=
  match a with AlgFixedWindow _ => false | AlgVegas _ => true end.

Record RoundTripEstimatorParams : Type := mkRttParams {
  ewma_cwnd_pct : Z; ewma_max : Z; ewma_ss_max : Z; rtt_reset_pct : Z }.

Record CongestionWindowParams : Type := mkCwndParams {
  cwnd_init : Z;
  cwnd_inc_pct_ss : Z;
  cwnd_inc : Z;
  cwnd_inc_rate : Z;
  cwnd_min : Z;
  cwnd_max : Z;
  cp_sendme_inc : Z }.

Definition set_sendme_inc (inc : Z) (p : CongestionWindowParams) : CongestionWindowParams :=
  mkCwndParams (cwnd_init p) (cwnd_inc_pct_ss p) (cwnd_inc p) (cwnd_inc_rate p) (cwnd_min p)
    (cwnd_max p) inc.

Record CongestionControlParams : Type := mkCCParams {
  cc_alg : Algorithm;
  fixed_window_params : FixedWindowParams;
  cwnd_params : CongestionWindowParams;
  rtt_params : RoundTripEstimatorParams }.

Definition is_enabled (p : CongestionControlParams) : bool :=
  match cc_alg p with AlgFixedWindow _ => false | AlgVegas _ => true end.

Definition use_fallback_alg (p : CongestionControlParams) : CongestionControlParams :=
  mkCCParams (AlgFixedWindow (fixed_window_params p)) (fixed_window_params p) (cwnd_params p)
    (rtt_params p).

(** [inc] is a [u8]. *)
Definition is_sendme_inc_valid (inc : Z) (params : CongestionControlParams) : bool :=
  if inc =? 0 then false
  else
    let inc_consensus := cp_sendme_inc (cwnd_params params) in
    if (saturating_add u32_max inc_consensus 1 <? inc) || (inc <? saturating_sub inc_consensus 1)
    then false else true.

(** ** Signals and state *)

Record CongestionSignals : Type := mkSignals {
  channel_blocked : bool; channel_outbound_size : Z }.

(** The size is a [usize]; [as u32] keeps its low bits. *)
Definition CongestionSignals_new (channel_blocked : bool) (channel_outbound_size : Z) :
    CongestionSignals :=
  mkSignals channel_blocked (wrap u32_max (saturating_add usize_max channel_outbound_size 0)).

Inductive State : Type := SlowStart | Steady.

Definition in_slow_start (s : State) : bool :=
  match s with SlowStart => true | Steady => false end.

(** ** Congestion window *)

Record CongestionWindow : Type := mkCwnd {
  cw_params : CongestionWindowParams; cw_value : Z; cw_is_full : bool }.

Definition CongestionWindow_new (params : CongestionWindowParams) : CongestionWindow :=
  mkCwnd params (cwnd_init params) false.

Section cwnd.
Context {E : Type}.
Implicit Types c : CongestionWindow.

Definition cw_get c : Z := cw_value c.
Definition cw_increment c : Z := cwnd_inc (cw_params c).
Definition cw_increment_rate c : Z := cwnd_inc_rate (cw_params c).
Definition cw_min c : Z := cwnd_min (cw_params c).
Definition sendme_inc c : Z := cp_sendme_inc (cw_params c).

Definition cw_set (value : Z) c : CongestionWindow := mkCwnd (cw_params c) value (cw_is_full c).

Definition cw_dec c : CongestionWindow :=
  cw_set (Z.max (saturating_sub (cw_value c) (cw_increment c)) (cwnd_min (cw_params c))) c.

Definition cw_inc c : CongestionWindow :=
  cw_set (Z.min (saturating_add u32_max (cw_value c) (cw_increment c)) (cwnd_max (cw_params c))) c.

Definition update_rate (state : State) c : res E Z :=
  if in_slow_start state then Ok 1
  else
    a ← umul u32_max (cw_increment_rate c) (sendme_inc c);
    h ← udiv a 2;
    n ← uadd u32_max (cw_get c) h;
    d ← umul u32_max (cw_increment_rate c) (sendme_inc c);
    udiv n d.

Definition reset_full c : CongestionWindow := mkCwnd (cw_params c) (cw_value c) false.

Definition sendme_per_cwnd c : res E Z :=
  h ← udiv (sendme_inc c) 2;
  n ← uadd u32_max (cw_get c) h;
  udiv n (sendme_inc c).

(** The window after the call and the increment. *)
Definition rfc3742_ss_inc (ss_cap : Z) c : res E (CongestionWindow * Z) :=
  inc ← (if cw_get c <=? ss_cap then
           a ← umul u32_max (cwnd_inc_pct_ss (cw_params c)) (sendme_inc c);
           b ← uadd u32_max a 50;
           udiv b 100
         else
           a ← umul u32_max (sendme_inc c) ss_cap;
           n ← uadd u32_max a (cw_get c);
           d ← umul u32_max (cw_get c) 2;
           q ← udiv n d;
           Ok (Z.max q 1));
  v ← uadd u32_max (cw_value c) inc;
  Ok (cw_set v c, inc).

Definition eval_fullness (inflight full_gap full_minpct : Z) c : res E CongestionWindow :=
  g ← umul u32_max (sendme_inc c) full_gap;
  l ← uadd u32_max inflight g;
  if cw_get c <=? l then Ok (mkCwnd (cw_params c) (cw_value c) true)
  else
    a ← umul u32_max 100 inflight;
    b ← umul u32_max full_minpct (cw_get c);
    if a <? b then Ok (mkCwnd (cw_params c) (cw_value c) false) else Ok c.
End cwnd.

(** ** Consensus ranges (tor-netdir/src/params.rs) *)

Definition cwnd_params_ok (p : CongestionWindowParams) : Prop :=
  31 ≤ cwnd_init p ≤ 10000 ∧ 1 ≤ cwnd_inc_pct_ss p ≤ 500 ∧ 1 ≤ cwnd_inc p ≤ 1000 ∧
  1 ≤ cwnd_inc_rate p ≤ 250 ∧ 31 ≤ cwnd_min p ≤ 1000 ∧ 500 ≤ cwnd_max p ≤ 2147483647 ∧
  1 ≤ cp_sendme_inc p ≤ 254.

(** A cap on the window under which the [u32] products of the window cannot overflow:
    4294967295 / 255, the largest percentage it is multiplied with. *)
Definition cwnd_cap : Z := 16000000.

Lemma update_rate_ok {E} state c :
  cwnd_params_ok (cw_params c) → 0 ≤ cw_value c ≤ cwnd_cap →
  ∃ n, update_rate (E:=E) state c = Ok n ∧ 0 ≤ n ≤ cwnd_cap + 1.
Proof.
  intros (_ & _ & _ & Hr & _ & _ & Hs) Hv. unfold update_rate, cwnd_cap in *.
  destruct (in_slow_start state); [exists 1; split; [done|lia]|].
  unfold cw_increment_rate, sendme_inc, cw_get.
  set (m := cwnd_inc_rate (cw_params c) * cp_sendme_inc (cw_params c)).
  assert (1 ≤ m ≤ 63500) by (unfold m; nia).
  assert (Hh : 0 ≤ m / 2 ≤ m) by (split; [apply Z.div_pos; lia|apply Z.div_le_upper_bound; lia]).
  unfold u32_max. fold m. run_arith ltac:(fold m; lia). fold m.
  eexists. split; [done|]. split; [apply Z.div_pos; lia|]. apply Z.div_le_upper_bound; [lia|]. nia.
Qed.

Lemma sendme_per_cwnd_ok {E} c :
  cwnd_params_ok (cw_params c) → 0 ≤ cw_value c ≤ cwnd_cap →
  ∃ n, sendme_per_cwnd (E:=E) c = Ok n ∧ 0 ≤ n ≤ cw_value c + 1.
Proof.
  intros (_ & _ & _ & _ & _ & _ & Hs) Hv. unfold sendme_per_cwnd, sendme_inc, cw_get, cwnd_cap in *.
  set (i := cp_sendme_inc (cw_params c)) in *.
  assert (0 ≤ i / 2 ≤ i) by (split; [apply Z.div_pos; lia|apply Z.div_le_upper_bound; lia]).
  unfold u32_max. run_arith lia. eexists. split; [done|].
  split; [apply Z.div_pos; lia|]. apply Z.div_le_upper_bound; [lia|]. nia.
Qed.
