(* ===== verification/Rtt.v ===== *)
(** * Rtt: round-trip time estimation

    [RoundtripTimeEstimator] of [tor-proto/src/congestion/rtt.rs].  An [Instant] and a
    [Duration] are numbers of nanoseconds; [Duration::as_micros] rounds down.  The atomic flag
    is a field, since the estimator is only used by the reactor that owns it. *)

From S2P Require Import Prelude Bytes RelayMsg RelayCell Sendme Cwnd.

Inductive RttError : Type := MismatchedEstimationCall.

(** [Duration::MAX]. *)
Definition duration_max : Z := u64_max * 1000000000 + 999999999.

(** [Duration * u32] panics on overflow. *)
Definition dur_mul {E} (d k : Z) : res E Z :=
  if d * k <=? duration_max then Ok (d * k) else Panic.
Definition as_micros (d : Z) : Z := d / 1000.
Definition from_micros (u : Z) : Z := u * 1000.
Definition saturating_duration_since (now earlier : Z) : Z := Z.max (now - earlier) 0.

Record RoundtripTimeEstimator : Type := mkRtt {
  sendme_expected_from : list Z;
  last_rtt : option Z;
  ewma_rtt : option Z;
  min_rtt : option Z;
  max_rtt : option Z;
  rt_params : RoundTripEstimatorParams;
  clock_stalled : bool }.

Definition RoundtripTimeEstimator_new (params : RoundTripEstimatorParams) :
    RoundtripTimeEstimator :=
  mkRtt [] None None None None params false.

Definition is_ready (r : RoundtripTimeEstimator) : bool :=
  negb (clock_stalled r) && bool_decide (is_Some (last_rtt r)).

(** [u32::try_from(rtt.as_micros()).ok().unwrap_or(u32::MAX)]. *)
Definition usec_u32 (rtt : Z) : Z := sat_cast u32_max (as_micros rtt).
Definition ewma_rtt_usec (r : RoundtripTimeEstimator) : option Z := usec_u32 <$> ewma_rtt r.
Definition min_rtt_usec (r : RoundtripTimeEstimator) : option Z := usec_u32 <$> min_rtt r.
Definition max_rtt_usec (r : RoundtripTimeEstimator) : option Z := usec_u32 <$> max_rtt r.

Definition expect_sendme (now : Z) (r : RoundtripTimeEstimator) : RoundtripTimeEstimator :=
  mkRtt (sendme_expected_from r ++ [now]) (last_rtt r) (ewma_rtt r) (min_rtt r) (max_rtt r)
    (rt_params r) (clock_stalled r).

Definition can_crosscheck_with_current_estimate (in_slow_start : bool)
    (r : RoundtripTimeEstimator) : bool :=
  negb in_slow_start && bool_decide (is_Some (ewma_rtt r)).

Definition store_stalled (b : bool) (r : RoundtripTimeEstimator) : RoundtripTimeEstimator :=
  mkRtt (sendme_expected_from r) (last_rtt r) (ewma_rtt r) (min_rtt r) (max_rtt r)
    (rt_params r) b.

Definition DELTA_DISCREPANCY_RATIO_MAX : Z := 5000.

(** The flag may change, so the estimator is returned too. *)
Definition is_clock_stalled (raw_rtt : Z) (in_slow_start : bool) (r : RoundtripTimeEstimator) :
    res RttError (RoundtripTimeEstimator * bool) :=
  if raw_rtt =? 0 then Ok (store_stalled true r, true)
  else if can_crosscheck_with_current_estimate in_slow_start r then
    ewma ← expect (ewma_rtt r);
    hi ← dur_mul ewma DELTA_DISCREPANCY_RATIO_MAX;
    if hi <? raw_rtt then Ok (r, true)
    else
      hi' ← dur_mul raw_rtt DELTA_DISCREPANCY_RATIO_MAX;
      if hi' <? ewma then Ok (r, clock_stalled r)
      else Ok (store_stalled false r, false)
  else Ok (r, false).

(** [Option::max] with [None] below every [Some]. *)
Definition opt_max (a : option Z) (b : Z) : Z :=
  match a with Some a => Z.max a b | None => b end.

(** The "N" of N-EWMA, a [u64]. *)
Definition ewma_n (state : State) (cwnd : CongestionWindow) (params : RoundTripEstimatorParams) :
    res RttError Z :=
  n ← (if in_slow_start state then Ok (ewma_ss_max params)
       else
         rate ← update_rate state cwnd;
         a ← umul u32_max rate (ewma_cwnd_pct params);
         q ← udiv a 100;
         Ok (Z.min q (ewma_max params)));
  Ok (Z.max n 2).

Definition new_ewma_usec (n raw_rtt_usec : Z) (prev : option Z) : res RttError Z :=
  match prev with
  | None => Ok raw_rtt_usec
  | Some prev_ewma_rtt_usec =>
      a ← umul u64_max raw_rtt_usec 2;
      n1 ← usub n 1;
      b ← umul u64_max n1 prev_ewma_rtt_usec;
      s ← uadd u64_max a b;
      d ← uadd u64_max n 1;
      udiv s d
  end.

(** The weighted average that replaces the minimum when the window is at its own minimum. *)
Definition reset_min_rtt (pct ewma min_rtt : Z) : res RttError Z :=
  let max := wrap u64_max (as_micros (Z.max ewma min_rtt)) in
  let min := wrap u64_max (as_micros (Z.min ewma min_rtt)) in
  a ← umul u64_max pct max;
  a ← udiv a 100;
  c ← usub 100 pct;
  b ← umul u64_max c min;
  b ← udiv b 100;
  s ← uadd u64_max a b;
  Ok (from_micros s).

Definition rtt_update (now : Z) (state : State) (cwnd : CongestionWindow)
    (r : RoundtripTimeEstimator) : res RttError RoundtripTimeEstimator :=
  match sendme_expected_from r with
  | [] => Err MismatchedEstimationCall
  | data_sent_at :: rest =>
      let r := mkRtt rest (last_rtt r) (ewma_rtt r) (min_rtt r) (max_rtt r) (rt_params r)
                 (clock_stalled r) in
      let raw_rtt := saturating_duration_since now data_sent_at in
      '(r, stalled) ← is_clock_stalled raw_rtt (in_slow_start state) r;
      if stalled : bool then Ok r
      else
        let max' := opt_max (max_rtt r) raw_rtt in
        n ← ewma_n state cwnd (rt_params r);
        let raw_rtt_usec := wrap u64_max (as_micros raw_rtt) in
        let prev := (λ d, wrap u64_max (as_micros d)) <$> ewma_rtt r in
        usec ← new_ewma_usec n raw_rtt_usec prev;
        let ewma := from_micros usec in
        let done min' := mkRtt rest (Some raw_rtt) (Some ewma) min' (Some max') (rt_params r)
                           (clock_stalled r) in
        match min_rtt r with
        | None => Ok (done (Some ewma))
        | Some m =>
            if (cw_get cwnd =? cw_min cwnd) && negb (in_slow_start state) then
              m' ← reset_min_rtt (rtt_reset_pct (rt_params r)) ewma m;
              Ok (done (Some m'))
            else if ewma <? m then Ok (done (Some ewma))
            else Ok (done (Some m))
        end
  end.

(** ** The estimates

    Either no round trip was measured yet and there are no estimates, or all four are present
    and none exceeds the maximum. *)

Definition rtt_wf (r : RoundtripTimeEstimator) : Prop :=
  match last_rtt r, ewma_rtt r, min_rtt r, max_rtt r with
  | None, None, None, None => True
  | Some l, Some e, Some m, Some x => 0 < l ≤ x ∧ 0 ≤ e ≤ x ∧ 0 ≤ m ≤ x
  | _, _, _, _ => False
  end.

Definition rtt_params_ok (p : RoundTripEstimatorParams) : Prop :=
  1 ≤ ewma_cwnd_pct p ≤ 255 ∧ 2 ≤ ewma_max p ≤ 2147483647 ∧ 2 ≤ ewma_ss_max p ≤ 2147483647 ∧
  0 ≤ rtt_reset_pct p ≤ 100.

Lemma wrap_le m x : 0 ≤ m → 0 ≤ x → 0 ≤ wrap m x ≤ x.
Proof.
  intros. unfold wrap. pose proof (Z.mod_pos_bound x (m + 1)). pose proof (Z.mod_le x (m + 1)). lia.
Qed.

Lemma as_micros_le d : 0 ≤ d → 0 ≤ as_micros d ∧ as_micros d * 1000 ≤ d.
Proof.
  intros. unfold as_micros. pose proof (Z.div_mod d 1000). pose proof (Z.mod_pos_bound d 1000).
  pose proof (Z.div_pos d 1000). lia.
Qed.

Lemma wrap_micros_le d : 0 ≤ d →
  0 ≤ wrap u64_max (as_micros d) ∧ wrap u64_max (as_micros d) * 1000 ≤ d.
Proof.
  intros Hd. pose proof (as_micros_le d Hd).
  pose proof (wrap_le u64_max (as_micros d) ltac:(done) ltac:(lia)). lia.
Qed.

(** The smoothed value lies between the previous one and the new measurement. *)
Lemma new_ewma_between n raw prev u :
  2 ≤ n → 0 ≤ raw → 0 ≤ prev → new_ewma_usec n raw (Some prev) = Ok u →
  Z.min raw prev ≤ u ≤ Z.max raw prev.
Proof.
  intros Hn Hr Hp H. unfold new_ewma_usec in H. ok_inv. subst.
  split.
  - apply Z.div_le_lower_bound; [lia|]. nia.
  - apply Z.div_le_upper_bound; [lia|]. nia.
Qed.

Lemma reset_min_le pct e m x :
  0 ≤ pct ≤ 100 → 0 ≤ e → 0 ≤ m → reset_min_rtt pct e m = Ok x → 0 ≤ x ≤ Z.max e m.
Proof.
  intros Hp He Hm H. unfold reset_min_rtt in H. ok_inv. subst.
  pose proof (wrap_micros_le (Z.max e m) ltac:(lia)) as [Ha1 Ha2].
  pose proof (wrap_micros_le (Z.min e m) ltac:(lia)) as [Hb1 Hb2].
  set (a := wrap u64_max (as_micros (Z.max e m))) in *.
  set (b := wrap u64_max (as_micros (Z.min e m))) in *.
  unfold from_micros.
  pose proof (Z.mul_div_le (pct * a) 100 ltac:(lia)).
  pose proof (Z.mul_div_le ((100 - pct) * b) 100 ltac:(lia)).
  pose proof (Z.div_pos (pct * a) 100 ltac:(nia) ltac:(lia)).
  pose proof (Z.div_pos ((100 - pct) * b) 100 ltac:(nia) ltac:(lia)). nia.
Qed.

Lemma ewma_n_ge state cwnd p n : ewma_n state cwnd p = Ok n → 2 ≤ n.
Proof. unfold ewma_n. intros H. ok_inv. subst. lia. Qed.

(** Checking the clock changes nothing but the flag. *)
Lemma is_clock_stalled_same raw ss r r' b :
  is_clock_stalled raw ss r = Ok (r', b) →
  (∃ s, r' = store_stalled s r) ∧ (raw = 0 → b = true).
Proof.
  assert (Hid : ∀ r, r = store_stalled (clock_stalled r) r) by (by intros []).
  unfold is_clock_stalled. intros H. destruct (raw =? 0) eqn:Hz; zify_bool.
  - injection H as <- <-. eauto.
  - destruct (can_crosscheck_with_current_estimate ss r); ok_inv.
    + repeat (case_match; ok_inv); simplify_eq; eauto.
    + simplify_eq. eauto.
Qed.

Lemma rtt_update_wf now state cwnd r r' :
  rtt_params_ok (rt_params r) → rtt_wf r → rtt_update now state cwnd r = Ok r' →
  rtt_wf r' ∧ rt_params r' = rt_params r ∧
  ∃ t, sendme_expected_from r = t :: sendme_expected_from r'.
Proof.
  intros (_ & _ & _ & Hp) Hwf Hu. unfold rtt_update in Hu.
  destruct (sendme_expected_from r) as [|t rest]; [done|].
  apply bind_ok in Hu as ([r1 b] & Hs & Hu).
  apply is_clock_stalled_same in Hs as [[s ->] Hraw]. destruct b.
  { injection Hu as <-. eauto. }
  simpl in Hu. set (raw := saturating_duration_since now t) in *.
  assert (raw ≠ 0) by (intros E; by specialize (Hraw E)).
  assert (0 < raw) by (unfold raw, saturating_duration_since in *; lia).
  pose proof (wrap_micros_le raw ltac:(lia)) as [Hr1 Hr2].
  apply bind_ok in Hu as (n & Hn%ewma_n_ge & Hu). apply bind_ok in Hu as (u & Hu' & Hu).
  unfold rtt_wf in Hwf.
  destruct (last_rtt r) as [l|], (ewma_rtt r) as [e|], (min_rtt r) as [m|], (max_rtt r) as [x|];
    try done; simpl in Hu, Hu'.
  - pose proof (wrap_micros_le e ltac:(lia)) as [He1 He2].
    apply new_ewma_between in Hu'; [|lia..].
    assert (0 ≤ from_micros u ≤ Z.max x raw) by (unfold from_micros; lia).
    destruct (_ && _); [|destruct (_ <? m) eqn:Hlt]; zify_bool; ok_inv; subst;
      (split; [unfold rtt_wf; simpl; repeat split; try lia|eauto]).
    all: match goal with H : reset_min_rtt _ _ _ = _ |- _ => apply reset_min_le in H; lia end.
  - injection Hu' as <-. injection Hu as <-. split; [|eauto].
    unfold rtt_wf; simpl. unfold from_micros. lia.
Qed.

(** The only error is an empty queue. *)
Lemma rtt_update_err now state cwnd r e :
  rtt_update now state cwnd r = Err e → sendme_expected_from r = [].
Proof.
  unfold rtt_update. destruct (sendme_expected_from r) as [|t rest]; [done|]. cbv zeta.
  match goal with |- ?m = _ → _ => intros H; exfalso; assert (Hn : NoErr m); [|by apply Hn in H] end.
  apply no_err_bind.
  { unfold is_clock_stalled, dur_mul. apply _. }
  intros [r1 b]. apply no_err_if; [apply _|].
  apply no_err_bind; [unfold ewma_n, update_rate; apply _|intros n].
  apply no_err_bind; [unfold new_ewma_usec; destruct (_ <$> _); apply _|intros u].
  destruct (min_rtt r1); unfold reset_min_rtt; apply _.
Qed.

(** ** Arithmetic stays in range

    The bound is the range of the microsecond getters: [u32::MAX] microseconds, which is more
    than an hour. *)

Definition rtt_bound : Z := u32_max * 1000.

Definition rtt_small (r : RoundtripTimeEstimator) : Prop :=
  match max_rtt r with Some x => x ≤ rtt_bound | None => True end.

Lemma dur_mul_ok {E} d k : d ≤ rtt_bound → 0 ≤ k ≤ 5000 → dur_mul (E:=E) d k = Ok (d * k).
Proof.
  intros Hd Hk. unfold dur_mul, duration_max, rtt_bound, u64_max, u32_max in *.
  rewrite (proj2 (Z.leb_le _ _)); [done|]. nia.
Qed.

Lemma wrap_micros_small d : 0 ≤ d ≤ rtt_bound →
  0 ≤ wrap u64_max (as_micros d) ≤ u32_max.
Proof.
  intros Hd. pose proof (wrap_micros_le d ltac:(lia)). unfold rtt_bound in Hd. lia.
Qed.

Lemma is_clock_stalled_ok raw ss r :
  0 ≤ raw ≤ rtt_bound → rtt_wf r → rtt_small r → ∃ r' b, is_clock_stalled raw ss r = Ok (r', b).
Proof.
  intros Hraw Hwf Hsm. unfold is_clock_stalled, can_crosscheck_with_current_estimate.
  destruct (raw =? 0); [eauto|]. unfold rtt_wf, rtt_small in *.
  destruct (last_rtt r), (ewma_rtt r) as [e|], (min_rtt r), (max_rtt r) as [x|]; try done; simpl.
  - rewrite andb_true_r. destruct ss; simpl; [eauto|].
    unfold DELTA_DISCREPANCY_RATIO_MAX. rewrite !dur_mul_ok by lia. rewrite !ok_bind.
    repeat case_match; eauto.
  - rewrite andb_false_r. eauto.
Qed.

Lemma ewma_n_ok state cwnd p :
  cwnd_params_ok (cw_params cwnd) → 0 ≤ cw_value cwnd ≤ cwnd_cap → rtt_params_ok p →
  ∃ n, ewma_n state cwnd p = Ok n ∧ 2 ≤ n ≤ 2147483647.
Proof.
  intros Hc Hv (H1 & H2 & H3 & _). unfold ewma_n. destruct (in_slow_start state).
  - eexists. split; [done|]. lia.
  - destruct (update_rate_ok (E:=RttError) state cwnd Hc Hv) as (n & -> & Hn). rewrite ok_bind.
    unfold u32_max, cwnd_cap in *. run_arith nia. eexists. split; [done|]. lia.
Qed.

Lemma new_ewma_ok n raw prev :
  2 ≤ n ≤ 2147483647 → 0 ≤ raw ≤ u32_max → (∀ p, prev = Some p → 0 ≤ p ≤ u32_max) →
  ∃ u, new_ewma_usec n raw prev = Ok u.
Proof.
  intros Hn Hr Hp. unfold new_ewma_usec. destruct prev as [p|]; [|eauto].
  specialize (Hp p eq_refl). unfold u64_max, u32_max in *. run_arith nia. eauto.
Qed.

Lemma reset_min_ok pct e m :
  0 ≤ pct ≤ 100 → 0 ≤ e ≤ rtt_bound → 0 ≤ m ≤ rtt_bound → ∃ x, reset_min_rtt pct e m = Ok x.
Proof.
  intros Hp He Hm. unfold reset_min_rtt.
  pose proof (wrap_micros_small (Z.max e m) ltac:(lia)).
  pose proof (wrap_micros_small (Z.min e m) ltac:(lia)).
  set (a := wrap u64_max (as_micros (Z.max e m))) in *.
  set (b := wrap u64_max (as_micros (Z.min e m))) in *. unfold u64_max, u32_max in *.
  assert (pct * a / 100 ≤ a) by (apply Z.div_le_upper_bound; nia).
  assert ((100 - pct) * b / 100 ≤ b) by (apply Z.div_le_upper_bound; nia).
  run_arith nia. eauto.
Qed.

Lemma rtt_update_ok now state cwnd r t rest :
  sendme_expected_from r = t :: rest → now - t ≤ rtt_bound →
  rtt_params_ok (rt_params r) → cwnd_params_ok (cw_params cwnd) → 0 ≤ cw_value cwnd ≤ cwnd_cap →
  rtt_wf r → rtt_small r →
  ∃ r', rtt_update now state cwnd r = Ok r' ∧ rtt_small r'.
Proof.
  intros Hq Hnow Hp Hcp Hcv Hwf Hsm. unfold rtt_update. rewrite Hq. cbv zeta.
  set (raw := saturating_duration_since now t).
  assert (Hraw : 0 ≤ raw ≤ rtt_bound)
    by (unfold raw, saturating_duration_since, rtt_bound, u32_max in *; lia).
  match goal with |- context [is_clock_stalled raw ?ss ?r0] =>
    destruct (is_clock_stalled_ok raw ss r0) as (r1 & b & Hs); [done|done|done|] end.
  rewrite Hs, ok_bind. apply is_clock_stalled_same in Hs as [[s ->] _].
  destruct b; [eauto|]. cbn [store_stalled rt_params max_rtt ewma_rtt min_rtt clock_stalled].
  destruct (ewma_n_ok state cwnd (rt_params r)) as (n & -> & Hn); [done..|]. rewrite ok_bind.
  pose proof (wrap_micros_small raw Hraw) as Hru.
  unfold rtt_wf, rtt_small in Hwf, Hsm.
  destruct (last_rtt r) as [l|], (ewma_rtt r) as [e|], (min_rtt r) as [m|], (max_rtt r) as [x|];
    try done; cbn [fmap option_fmap option_map opt_max].
  - pose proof (wrap_micros_small e ltac:(lia)) as Heu.
    destruct (new_ewma_ok n (wrap u64_max (as_micros raw)) (Some (wrap u64_max (as_micros e))))
      as [u Hu]; [done|done|intros p [= <-]; done|]. rewrite Hu, ok_bind.
    apply new_ewma_between in Hu; [|lia..].
    assert (Hx : Z.max x raw ≤ rtt_bound) by lia.
    case_match.
    + destruct (reset_min_ok (rtt_reset_pct (rt_params r)) (from_micros u) m) as [y ->];
        [by destruct Hp as (_ & _ & _ & ?)| |lia|eauto].
      unfold from_micros, rtt_bound, u32_max in *. lia.
    + case_match; eauto.
  - simpl. eexists. split; [done|]. unfold rtt_small. simpl. lia.
Qed.

(** Every successful update of the round-trip estimator takes exactly one entry off the
    queue of expected SENDMEs, in order, and keeps the estimates well formed: all present or
    all absent, and the last, smoothed and minimum values between zero and the maximum. *)
Theorem rtt_update_invariant now state cwnd r r' :
  rtt_params_ok (rt_params r) → rtt_wf r → rtt_update now state cwnd r = Ok r' →
  rtt_wf r' ∧ ∃ t, sendme_expected_from r = t :: sendme_expected_from r'.
Proof. intros Hp Hwf Hu. by destruct (rtt_update_wf _ _ _ _ _ Hp Hwf Hu) as (? & _ & ?). Qed.

Definition rtt_params_example : RoundTripEstimatorParams := mkRttParams 50 10 2 100.
Definition cwnd_params_example : CongestionWindowParams :=
  mkCwndParams 124 50 1 31 124 2147483647 31.

Lemma rtt_update_invariant_witness :
  let r := expect_sendme 7000000 (RoundtripTimeEstimator_new rtt_params_example) in
  ∃ r', rtt_update 9000000 SlowStart (CongestionWindow_new cwnd_params_example) r = Ok r' ∧
    max_rtt r' = Some 2000000 ∧ rtt_wf r'.
Proof.
  intros r. eexists. split; [vm_compute; reflexivity|]. split; [reflexivity|].
  apply (rtt_update_invariant 9000000 SlowStart (CongestionWindow_new cwnd_params_example) r).
  - vm_compute. repeat split; discriminate.
  - exact I.
  - vm_compute. reflexivity.
Defined.

(** with consensus parameters in their ranges, a window of at most 16 million cells and
    round trips of at most [u32::MAX] microseconds, updating the estimator with a pending
    SENDME neither fails nor overflows: [MismatchedEstimationCall] needs an empty queue. *)
Theorem rtt_update_total now state cwnd r t rest :
  sendme_expected_from r = t :: rest → now - t ≤ rtt_bound →
  rtt_params_ok (rt_params r) → cwnd_params_ok (cw_params cwnd) → 0 ≤ cw_value cwnd ≤ cwnd_cap →
  rtt_wf r → rtt_small r →
  ∃ r', rtt_update now state cwnd r = Ok r' ∧ rtt_small r'.
Proof. apply rtt_update_ok. Qed.

Lemma rtt_update_total_witness :
  let r := expect_sendme 7000000 (RoundtripTimeEstimator_new rtt_params_example) in
  ∃ r', rtt_update 9000000 Steady (CongestionWindow_new cwnd_params_example) r = Ok r' ∧ rtt_small r'.
Proof.
  intros r.
  apply (rtt_update_total 9000000 Steady (CongestionWindow_new cwnd_params_example) r 7000000 []);
    try reflexivity; try exact I; vm_compute; repeat split; discriminate.
Defined.
