(* ===== verification/Vegas.v ===== *)
(** * Vegas: the Tor Vegas congestion control algorithm

    [tor-proto/src/congestion/vegas.rs]: the bandwidth-delay product estimator, the state of
    the algorithm, and its reactions to data cells and SENDMEs. *)

From S2P Require Import Prelude Bytes RelayMsg RelayCell Sendme Cwnd Rtt.

(** ** Bandwidth-delay product *)

(** The new value; [saturating_div] panics on a zero divisor. *)
Definition bdp_update {E} (cwnd : CongestionWindow) (rtt : RoundtripTimeEstimator)
    (signals : CongestionSignals) : res E Z :=
  if clock_stalled rtt then
    Ok (if channel_blocked signals
        then Z.max (saturating_sub (cw_get cwnd) (channel_outbound_size signals)) (cw_min cwnd)
        else cw_get cwnd)
  else
    let min_rtt := default u32_max (min_rtt_usec rtt) in
    let ewma_rtt := default u32_max (ewma_rtt_usec rtt) in
    udiv (saturating_mul u32_max (cw_get cwnd) min_rtt) ewma_rtt.

(** ** State *)

Record Vegas : Type := mkVegas {
  vg_params : VegasParams;
  vg_bdp : Z;
  vg_cwnd : CongestionWindow;
  num_cell_until_sendme : Z;
  num_sendme_until_cwnd_update : Z;
  num_sendme_per_cwnd : Z;
  num_inflight : Z;
  is_blocked_on_chan : bool }.

Definition Vegas_new {E} (params : VegasParams) (state : State) (cwnd : CongestionWindow) :
    res E Vegas :=
  rate ← update_rate state cwnd;
  Ok (mkVegas params 0 cwnd (sendme_inc cwnd) rate 0 0 false).

Definition vegas_is_next_cell_sendme {E} (v : Vegas) : res E bool :=
  m ← urem (num_inflight v) (sendme_inc (vg_cwnd v)); Ok (m =? 0).
Definition vegas_can_send (v : Vegas) : bool := num_inflight v <? cw_get (vg_cwnd v).

Definition vegas_sendme_sent (v : Vegas) : Vegas :=
  mkVegas (vg_params v) (vg_bdp v) (vg_cwnd v) (sendme_inc (vg_cwnd v))
    (num_sendme_until_cwnd_update v) (num_sendme_per_cwnd v) (num_inflight v)
    (is_blocked_on_chan v).

Definition set_cell_until (n : Z) (v : Vegas) : Vegas :=
  mkVegas (vg_params v) (vg_bdp v) (vg_cwnd v) n (num_sendme_until_cwnd_update v)
    (num_sendme_per_cwnd v) (num_inflight v) (is_blocked_on_chan v).

Definition vegas_data_received (v : Vegas) : Vegas * bool :=
  if num_cell_until_sendme v =? 0 then (v, false)
  else
    let n := saturating_sub (num_cell_until_sendme v) 1 in
    (set_cell_until n v, n =? 0).

Definition set_inflight (n : Z) (v : Vegas) : Vegas :=
  mkVegas (vg_params v) (vg_bdp v) (vg_cwnd v) (num_cell_until_sendme v)
    (num_sendme_until_cwnd_update v) (num_sendme_per_cwnd v) n (is_blocked_on_chan v).

Definition vegas_data_sent (v : Vegas) : Vegas :=
  set_inflight (saturating_add u32_max (num_inflight v) 1) v.

(** ** Receiving a SENDME *)

(** The slow start branch: the window and the state it leaves. *)
Definition slow_start_step (p : VegasParams) (queue_use bdp : Z) (blocked : bool) (state : State)
    (cwnd : CongestionWindow) : res ProtoError (CongestionWindow * State) :=
  let q := cell_in_queue_params p in
  '(cwnd, state) ←
    (if (queue_use <? gamma q) && negb blocked then
       if cw_is_full cwnd then
         '(cwnd, inc) ← rfc3742_ss_inc (ss_cwnd_cap q) cwnd;
         per ← sendme_per_cwnd cwnd;
         a ← umul u32_max inc per;
         b ← umul u32_max (cw_increment cwnd) (cw_increment_rate cwnd);
         Ok (cwnd, if a <=? b then Steady else state)
       else Ok (cwnd, state)
     else
       v ← uadd u32_max bdp (gamma q);
       Ok (cw_set v cwnd, Steady));
  Ok (if ss_cwnd_max p <=? cw_get cwnd then (cw_set (ss_cwnd_max p) cwnd, Steady)
      else (cwnd, state)).

(** The steady state branch, run once per window. *)
Definition steady_step (p : VegasParams) (queue_use bdp : Z) (blocked : bool)
    (cwnd : CongestionWindow) : res ProtoError CongestionWindow :=
  let q := cell_in_queue_params p in
  if delta q <? queue_use then
    a ← uadd u32_max bdp (delta q);
    v ← usub a (cw_increment cwnd);
    Ok (cw_set v cwnd)
  else if (beta q <? queue_use) || blocked then Ok (cw_dec cwnd)
  else if cw_is_full cwnd && (queue_use <? alpha q) then Ok (cw_inc cwnd)
  else Ok cwnd.

(** The two countdowns, reset when they reach their bottom, and the fullness flag. *)
Definition reset_counters (p : VegasParams) (state : State) (until per : Z)
    (cwnd : CongestionWindow) : res ProtoError (Z * Z * CongestionWindow) :=
  until ← (if until =? 0 then update_rate state cwnd else Ok until);
  per ← (if per =? 0 then sendme_per_cwnd cwnd else Ok per);
  if negb (cwnd_full_per_cwnd p =? 0) then
    s ← sendme_per_cwnd cwnd;
    Ok (until, per, if per =? s then reset_full cwnd else cwnd)
  else
    u ← update_rate state cwnd;
    Ok (until, per, if until =? u then reset_full cwnd else cwnd).

Definition vegas_sendme_received (state : State) (rtt : RoundtripTimeEstimator)
    (signals : CongestionSignals) (v : Vegas) : res ProtoError (Vegas * State) :=
  let until := saturating_sub (num_sendme_until_cwnd_update v) 1 in
  let per := saturating_sub (num_sendme_per_cwnd v) 1 in
  let cwnd := vg_cwnd v in
  bdp ← bdp_update cwnd rtt signals;
  let until :=
    if is_ready rtt then
      if channel_blocked signals then (if negb (is_blocked_on_chan v) then 0 else until)
      else (if is_blocked_on_chan v then 0 else until)
    else until in
  let blocked := channel_blocked signals in
  if negb (is_ready rtt) && negb blocked then
    _ ← debug_assert (sendme_inc cwnd <=? num_inflight v);
    Ok (mkVegas (vg_params v) bdp cwnd (num_cell_until_sendme v) until per
          (saturating_sub (num_inflight v) (sendme_inc cwnd)) blocked, state)
  else
    let queue_use := saturating_sub (cw_get cwnd) bdp in
    cwnd ← eval_fullness (num_inflight v) (cwnd_full_gap (vg_params v))
             (cwnd_full_min_pct (vg_params v)) cwnd;
    '(cwnd, state) ←
      (if in_slow_start state then
         slow_start_step (vg_params v) queue_use bdp blocked state cwnd
       else if until =? 0 then
         c ← steady_step (vg_params v) queue_use bdp blocked cwnd; Ok (c, state)
       else Ok (cwnd, state));
    '(until, per, cwnd) ← reset_counters (vg_params v) state until per cwnd;
    Ok (mkVegas (vg_params v) bdp cwnd (num_cell_until_sendme v) until per
          (saturating_sub (num_inflight v) (sendme_inc cwnd)) blocked, state).

(** ** What a SENDME leaves alone *)

Lemma eval_fullness_same {E} i g m c c' :
  eval_fullness (E:=E) i g m c = Ok c' →
  cw_params c' = cw_params c ∧ cw_value c' = cw_value c.
Proof. unfold eval_fullness. intros H. ok_inv. repeat (case_match; ok_inv); simplify_eq; done. Qed.

Lemma rfc3742_params {E} cap c c' i : rfc3742_ss_inc (E:=E) cap c = Ok (c', i) →
  cw_params c' = cw_params c.
Proof. unfold rfc3742_ss_inc. intros H. ok_inv. simplify_eq. done. Qed.

Lemma slow_start_params p q b bl st c c' st' :
  slow_start_step p q b bl st c = Ok (c', st') → cw_params c' = cw_params c.
Proof.
  unfold slow_start_step. intros ([c1 s1] & H1 & H2)%bind_ok.
  assert (cw_params c1 = cw_params c).
  { destruct (_ && _); [destruct (cw_is_full c)|]; ok_inv; simplify_eq; try done.
    destruct x as [c2 i]. ok_inv. simplify_eq. by eapply rfc3742_params. }
  destruct (_ <=? _); ok_inv; simplify_eq; done.
Qed.

Lemma steady_params p q b bl c c' :
  steady_step p q b bl c = Ok c' → cw_params c' = cw_params c.
Proof. unfold steady_step. intros H. repeat (case_match; ok_inv); simplify_eq; done. Qed.

Lemma reset_counters_same p st u pe c u' p' c' :
  reset_counters p st u pe c = Ok (u', p', c') →
  cw_params c' = cw_params c ∧ cw_value c' = cw_value c.
Proof.
  unfold reset_counters. intros H. ok_inv. destruct (negb _); ok_inv; simplify_eq; repeat case_match; done.
Qed.

(** Whatever it does to the window, a SENDME acknowledges one increment of cells and leaves the
    receiving half of the state alone. *)
Lemma vegas_sendme_frame st rtt sig v v' st' :
  vegas_sendme_received st rtt sig v = Ok (v', st') →
  num_inflight v' = saturating_sub (num_inflight v) (sendme_inc (vg_cwnd v)) ∧
  cw_params (vg_cwnd v') = cw_params (vg_cwnd v) ∧
  num_cell_until_sendme v' = num_cell_until_sendme v ∧ vg_params v' = vg_params v.
Proof.
  unfold vegas_sendme_received. intros (bdp & Hb & H)%bind_ok.
  destruct (negb (is_ready rtt) && negb (channel_blocked sig)).
  { ok_inv. simplify_eq. done. }
  apply bind_ok in H as (c1 & Hf & H). apply eval_fullness_same in Hf as [Hf _].
  apply bind_ok in H as ([c2 s2] & Hs & H). apply bind_ok in H as ([[u p] c3] & Hr & H).
  apply reset_counters_same in Hr as [Hr _]. injection H as <- <-. simpl.
  assert (cw_params c2 = cw_params c1).
  { destruct (in_slow_start st); [by eapply slow_start_params|].
    destruct (_ =? 0); ok_inv; simplify_eq; [by eapply steady_params|done]. }
  unfold sendme_inc. repeat split; congruence.
Qed.

(** There is no error path. *)
#[export] Instance no_err_update_rate {E} st c : NoErr (E:=E) (update_rate st c).
Proof. unfold update_rate. apply _. Qed.
#[export] Instance no_err_per_cwnd {E} c : NoErr (E:=E) (sendme_per_cwnd c).
Proof. unfold sendme_per_cwnd. apply _. Qed.
#[export] Instance no_err_vegas_sendme st rtt sig v : NoErr (vegas_sendme_received st rtt sig v).
Proof.
  unfold vegas_sendme_received, bdp_update, eval_fullness, slow_start_step, rfc3742_ss_inc,
    steady_step, reset_counters. apply _.
Qed.

(** ** Bounds of the window *)

Definition vegas_params_ok (p : VegasParams) : Prop :=
  let q := cell_in_queue_params p in
  0 ≤ alpha q ≤ 1000 ∧ 0 ≤ beta q ≤ 1000 ∧ 0 ≤ delta q ≤ 1000 ∧ 0 ≤ gamma q ≤ 1000 ∧
  100 ≤ ss_cwnd_cap q ≤ 2147483647 ∧ 500 ≤ ss_cwnd_max p ≤ 2147483647 ∧
  0 ≤ cwnd_full_gap p ≤ 32767 ∧ 0 ≤ cwnd_full_min_pct p ≤ 100 ∧ 0 ≤ cwnd_full_per_cwnd p ≤ 1.

(** No window is larger than the largest of its initial value, its two maxima and its minimum. *)
Definition window_top (p : VegasParams) (c : CongestionWindowParams) : Z :=
  Z.max (Z.max (cwnd_init c) (cwnd_min c)) (Z.max (ss_cwnd_max p) (cwnd_max c)).

Definition window_ok (v : Vegas) : Prop :=
  0 ≤ cw_value (vg_cwnd v) ≤ window_top (vg_params v) (cw_params (vg_cwnd v)).

Lemma bdp_nonneg {E} c r s b : 0 ≤ cw_value c → 0 ≤ cwnd_min (cw_params c) →
  rtt_wf r → bdp_update (E:=E) c r s = Ok b → 0 ≤ b.
Proof.
  unfold bdp_update, cw_get, cw_min. intros Hc Hm Hr H.
  assert (Hu : ∀ d, 0 ≤ d → 0 ≤ usec_u32 d).
  { intros d Hd. pose proof (as_micros_le d Hd). unfold usec_u32, sat_cast, u32_max. lia. }
  destruct (clock_stalled r).
  - ok_inv. case_match; lia.
  - apply udiv_inv in H as [-> Hne].
    assert (0 ≤ default u32_max (min_rtt_usec r) ∧ 0 ≤ default u32_max (ewma_rtt_usec r)) as [H1 H2].
    { unfold rtt_wf, min_rtt_usec, ewma_rtt_usec in *.
      destruct (last_rtt r), (ewma_rtt r), (min_rtt r), (max_rtt r); simpl; try done;
        split; apply Hu; lia. }
    apply Z.div_pos; [|lia]. unfold saturating_mul, u32_max in *. apply Z.min_glb; nia.
Qed.

Lemma rfc3742_grows {E} cap c c' i :
  0 ≤ cw_value c → cwnd_params_ok (cw_params c) → rfc3742_ss_inc (E:=E) cap c = Ok (c', i) →
  cw_value c ≤ cw_value c' ∧ 0 ≤ i.
Proof.
  intros Hc (_ & Hp & _ & _ & _ & _ & Hs) H. unfold rfc3742_ss_inc, sendme_inc in H.
  apply bind_ok in H as (inc & Hi & H). ok_inv. simplify_eq. simpl.
  assert (0 ≤ i); [|lia]. destruct (cw_get c <=? cap); ok_inv; subst; [|lia].
  apply Z.div_pos; [nia|lia].
Qed.

Lemma slow_start_bounds p q b bl st c c' st' :
  vegas_params_ok p → cwnd_params_ok (cw_params c) → 0 ≤ cw_value c → 0 ≤ b →
  slow_start_step p q b bl st c = Ok (c', st') →
  0 ≤ cw_value c' ≤ ss_cwnd_max p ∧ (st' = SlowStart → cw_value c' < ss_cwnd_max p).
Proof.
  intros (_ & _ & _ & Hg & _ & Hm & _) Hcp Hc Hb H. unfold slow_start_step in H.
  apply bind_ok in H as ([c1 s1] & H1 & H2).
  assert (0 ≤ cw_value c1).
  { destruct (_ && _); [destruct (cw_is_full c)|]; ok_inv; simplify_eq; try done; [|simpl; lia].
    destruct x as [c2 i]. ok_inv. simplify_eq.
    match goal with H : rfc3742_ss_inc _ _ = _ |- _ => apply rfc3742_grows in H; [lia|done|done] end. }
  unfold cw_get in *. destruct (_ <=? cw_value c1) eqn:Hle; zify_bool; ok_inv; simplify_eq; simpl;
    split; try done; lia.
Qed.

Lemma steady_bounds p q b bl c c' top :
  vegas_params_ok p → cwnd_params_ok (cw_params c) → 0 ≤ cw_value c ≤ top → 0 ≤ b →
  cwnd_min (cw_params c) ≤ top → q = saturating_sub (cw_value c) b →
  steady_step p q b bl c = Ok c' →
  0 ≤ cw_value c' ≤ Z.max top (cwnd_max (cw_params c)).
Proof.
  intros (_ & _ & Hd & _) (_ & _ & Hi & _ & Hmin & Hmax & _) Hc Hb Ht -> H.
  unfold steady_step, saturating_sub, cw_increment in H.
  destruct (delta _ <? _) eqn:Hlt; zify_bool.
  - ok_inv. subst. simpl. lia.
  - destruct (_ || bl); [|destruct (_ && _)]; ok_inv; subst; simpl;
      unfold saturating_sub, saturating_add, cw_increment, u32_max; lia.
Qed.

Lemma vegas_sendme_window st rtt sig v v' st' :
  vegas_params_ok (vg_params v) → cwnd_params_ok (cw_params (vg_cwnd v)) → rtt_wf rtt →
  window_ok v → vegas_sendme_received st rtt sig v = Ok (v', st') → window_ok v'.
Proof.
  intros Hvp Hcp Hr Hw H. pose proof (vegas_sendme_frame _ _ _ _ _ _ H) as (_ & Hpar & _ & Hvpar).
  unfold window_ok in *. rewrite Hpar, Hvpar. clear Hpar Hvpar.
  unfold vegas_sendme_received in H. apply bind_ok in H as (bdp & Hb & H).
  apply bdp_nonneg in Hb; [|lia|destruct Hcp as (?&?&?&?&?&?); lia|done].
  destruct (negb (is_ready rtt) && negb (channel_blocked sig)).
  { ok_inv. simplify_eq. done. }
  apply bind_ok in H as (c1 & Hf & H). apply eval_fullness_same in Hf as [Hf1 Hf2].
  apply bind_ok in H as ([c2 s2] & Hs & H). apply bind_ok in H as ([[u p] c3] & Hrc & H).
  apply reset_counters_same in Hrc as [_ Hrc]. injection H as <- <-. cbn [vg_cwnd]. rewrite Hrc.
  rewrite <-Hf1 in *. rewrite <-Hf2 in Hw. unfold cw_get in Hs. rewrite <-Hf2 in Hs.
  set (top := window_top (vg_params v) (cw_params c1)) in *.
  assert (Htop : ss_cwnd_max (vg_params v) ≤ top ∧ cwnd_max (cw_params c1) ≤ top ∧
                 cwnd_min (cw_params c1) ≤ top) by (unfold top, window_top; lia).
  destruct (in_slow_start st).
  - apply slow_start_bounds in Hs; [lia|done|done|lia|done].
  - destruct (_ =? 0); ok_inv; simplify_eq; [|done].
    match goal with H : steady_step _ _ _ _ _ = _ |- _ =>
      apply (steady_bounds _ _ _ _ _ _ top) in H; [lia|done|done|lia|done|lia|done] end.
Qed.

(** Whatever SENDMEs bring, the congestion window never exceeds the largest of its
    initial value, its minimum, the slow start maximum and the maximum, and each SENDME takes
    exactly one increment off the cells in flight. *)
Theorem vegas_window_bounded st rtt sig v v' st' :
  vegas_params_ok (vg_params v) → cwnd_params_ok (cw_params (vg_cwnd v)) → rtt_wf rtt →
  window_ok v → vegas_sendme_received st rtt sig v = Ok (v', st') →
  window_ok v' ∧
  num_inflight v' = Z.max (num_inflight v - cp_sendme_inc (cw_params (vg_cwnd v))) 0 ∧
  vg_params v' = vg_params v ∧ cw_params (vg_cwnd v') = cw_params (vg_cwnd v).
Proof.
  intros Hvp Hcp Hr Hw H. pose proof (vegas_sendme_window _ _ _ _ _ _ Hvp Hcp Hr Hw H).
  by apply vegas_sendme_frame in H as (? & ? & _ & ?).
Qed.

Definition vegas_params_example : VegasParams :=
  mkVegasParams (mkVegasQueueParams 93 124 155 93 600) 5000 4 25 1.

Lemma vegas_window_bounded_witness :
  let c := CongestionWindow_new cwnd_params_example in
  let v := mkVegas vegas_params_example 0 c 31 1 0 124 false in
  let rtt := mkRtt [] (Some 2000000) (Some 2000000) (Some 1000000) (Some 2000000)
               rtt_params_example false in
  ∃ v' st', vegas_sendme_received SlowStart rtt (mkSignals false 0) v = Ok (v', st') ∧
    num_inflight v' = 93 ∧ cw_value (vg_cwnd v') = 140 ∧ window_ok v'.
Proof.
  intros c v rtt. eexists _, _. split; [vm_compute; reflexivity|].
  split; [reflexivity|]. split; [reflexivity|].
  apply (vegas_window_bounded SlowStart rtt (mkSignals false 0) v _ SlowStart);
    [vm_compute; repeat split; discriminate..|vm_compute; reflexivity].
Defined.

(** ** Arithmetic stays in range *)

Definition vegas_cap : Z := 15000000.

(** What the algorithm relies on: a smoothed round trip of at least a microsecond, which it
    divides by, and in slow start a minimum that is not above it. *)
Definition rtt_usable (st : State) (r : RoundtripTimeEstimator) : Prop :=
  match ewma_rtt r, min_rtt r with
  | Some e, Some m => 1000 ≤ e ∧ (st = SlowStart → m ≤ e)
  | _, _ => True
  end.

Lemma usec_u32_mono a b : a ≤ b → usec_u32 a ≤ usec_u32 b.
Proof.
  intros H. unfold usec_u32, sat_cast, as_micros. pose proof (Z.div_le_mono a b 1000). lia.
Qed.

Lemma bdp_total {E} st c r s :
  0 ≤ cw_value c ≤ vegas_cap → 0 ≤ cwnd_min (cw_params c) ≤ vegas_cap →
  0 ≤ channel_outbound_size s → rtt_wf r → rtt_usable st r →
  ∃ b, bdp_update (E:=E) c r s = Ok b ∧ 0 ≤ b ∧ (st = SlowStart → b ≤ vegas_cap).
Proof.
  intros Hc Hm Hsz Hr Hu. unfold bdp_update, cw_get, cw_min. destruct (clock_stalled r).
  { eexists. split; [done|]. unfold saturating_sub. case_match; lia. }
  assert (∃ m e, default u32_max (min_rtt_usec r) = m ∧ default u32_max (ewma_rtt_usec r) = e ∧
            0 ≤ m ∧ 0 < e ∧ (st = SlowStart → m ≤ e)) as (m & e & -> & -> & H1 & H2 & H3).
  { unfold rtt_wf, rtt_usable, min_rtt_usec, ewma_rtt_usec in *.
    destruct (last_rtt r), (ewma_rtt r) as [e|], (min_rtt r) as [m|], (max_rtt r); try done; simpl.
    - exists (usec_u32 m), (usec_u32 e). destruct Hu as [He Hss].
      split; [done|]. split; [done|]. pose proof (usec_u32_mono 1000 e He).
      pose proof (usec_u32_mono 0 m ltac:(lia)). change (usec_u32 1000) with 1 in *.
      change (usec_u32 0) with 0 in *. split; [lia|]. split; [lia|].
      intros Hst. apply usec_u32_mono. auto.
    - exists u32_max, u32_max. unfold u32_max. repeat split; lia. }
  rewrite udiv_ok by lia. eexists. split; [done|]. unfold saturating_mul, u32_max. split.
  - apply Z.div_pos; [|lia]. apply Z.min_glb; nia.
  - intros Hst. specialize (H3 Hst). apply Z.div_le_upper_bound; [lia|]. nia.
Qed.

Lemma eval_fullness_total {E} i p c :
  vegas_params_ok p → cwnd_params_ok (cw_params c) → 0 ≤ i ≤ 2 * vegas_cap →
  0 ≤ cw_value c ≤ vegas_cap →
  ∃ c', eval_fullness (E:=E) i (cwnd_full_gap p) (cwnd_full_min_pct p) c = Ok c'.
Proof.
  intros (_ & _ & _ & _ & _ & _ & Hg & Hm & _) (_ & _ & _ & _ & _ & _ & Hs) Hi Hc.
  unfold eval_fullness, sendme_inc, cw_get, vegas_cap, u32_max in *.
  run_arith nia. case_match; [eauto|]. run_arith nia. case_match; eauto.
Qed.

Lemma rfc3742_total {E} cap c :
  cwnd_params_ok (cw_params c) → 0 ≤ cw_value c ≤ vegas_cap → 100 ≤ cap ≤ 2147483647 →
  ∃ c' i, rfc3742_ss_inc (E:=E) cap c = Ok (c', i) ∧ cw_params c' = cw_params c ∧
    cw_value c' = cw_value c + i ∧ 0 ≤ i ≤ 6 * cp_sendme_inc (cw_params c).
Proof.
  intros (_ & Hp & _ & _ & _ & _ & Hs) Hc Hcap. unfold rfc3742_ss_inc, sendme_inc, cw_get.
  unfold vegas_cap, u32_max in *. set (i := cp_sendme_inc (cw_params c)) in *.
  destruct (cw_value c <=? cap) eqn:Hle; zify_bool.
  - set (q := (cwnd_inc_pct_ss (cw_params c) * i + 50) / 100).
    assert (0 ≤ q ≤ 6 * i) by (split; [apply Z.div_pos|apply Z.div_le_upper_bound]; nia).
    run_arith ltac:(fold q; nia). fold q. run_arith lia. eexists _, _. repeat split; simpl; lia.
  - set (q := (i * cap + cw_value c) / (cw_value c * 2)).
    assert (0 ≤ q ≤ 2 * i) by (split; [apply Z.div_pos|apply Z.div_le_upper_bound]; nia).
    run_arith ltac:(fold q; nia). fold q. run_arith lia. eexists _, _. repeat split; simpl; lia.
Qed.

Lemma sendme_per_cwnd_small {E} c :
  cwnd_params_ok (cw_params c) → 0 ≤ cw_value c ≤ cwnd_cap →
  ∃ n, sendme_per_cwnd (E:=E) c = Ok n ∧ 0 ≤ n ∧
    n * cp_sendme_inc (cw_params c) ≤ cw_value c + cp_sendme_inc (cw_params c).
Proof.
  intros (_ & _ & _ & _ & _ & _ & Hs) Hv. unfold sendme_per_cwnd, sendme_inc, cw_get, cwnd_cap in *.
  set (i := cp_sendme_inc (cw_params c)) in *.
  assert (0 ≤ i / 2 ≤ i) by (split; [apply Z.div_pos; lia|apply Z.div_le_upper_bound; lia]).
  unfold u32_max. run_arith lia. eexists. split; [done|]. split; [apply Z.div_pos; lia|].
  pose proof (Z.mul_div_le (cw_value c + i / 2) i ltac:(lia)). lia.
Qed.

Lemma slow_start_total p q b bl c :
  vegas_params_ok p → cwnd_params_ok (cw_params c) → 0 ≤ cw_value c ≤ vegas_cap →
  0 ≤ b ≤ vegas_cap →
  ∃ c' st', slow_start_step p q b bl SlowStart c = Ok (c', st').
Proof.
  intros (_ & _ & _ & Hg & Hcap & _) Hcp Hc Hb. unfold slow_start_step.
  assert (Hpost : ∀ c s, ∃ c' s', Ok (E:=ProtoError)
    (if ss_cwnd_max p <=? cw_get c then (cw_set (ss_cwnd_max p) c, Steady) else (c, s))
    = Ok (c', s')) by (intros; case_match; eauto).
  destruct (_ && _); [destruct (cw_is_full c)|].
  - destruct (rfc3742_total (E:=ProtoError) (ss_cwnd_cap (cell_in_queue_params p)) c)
      as (c' & i & -> & Hpar & Hv & Hi); [done|done|done|]. rewrite ok_bind.
    assert (Hs : 1 ≤ cp_sendme_inc (cw_params c) ≤ 254) by (by destruct Hcp as (_&_&_&_&_&_&?)).
    destruct (sendme_per_cwnd_small (E:=ProtoError) c') as (n & -> & Hn0 & Hn);
      [by rewrite Hpar|unfold cwnd_cap, vegas_cap in *; lia|].
    rewrite Hpar in Hn. rewrite ok_bind. unfold vegas_cap, u32_max in *.
    assert (i * n ≤ 6 * (n * cp_sendme_inc (cw_params c))) by nia.
    rewrite (umul_ok _ i n) by lia. rewrite ok_bind.
    unfold cw_increment, cw_increment_rate. rewrite Hpar.
    destruct Hcp as (_ & _ & Hinc & Hrate & _). rewrite umul_ok by nia. rewrite !ok_bind. eauto.
  - rewrite ok_bind. eauto.
  - unfold vegas_cap, u32_max in *. rewrite uadd_ok by lia. rewrite !ok_bind. eauto.
Qed.

Lemma steady_total p q b bl c :
  vegas_params_ok p → cwnd_params_ok (cw_params c) → 0 ≤ cw_value c ≤ vegas_cap → 0 ≤ b →
  cwnd_inc (cw_params c) ≤ delta (cell_in_queue_params p) →
  q = saturating_sub (cw_value c) b →
  ∃ c', steady_step p q b bl c = Ok c'.
Proof.
  intros (_ & _ & Hd & _) Hcp Hc Hb Hinc ->.
  unfold steady_step, saturating_sub, cw_increment, vegas_cap, u32_max in *.
  destruct (delta _ <? _) eqn:Hlt; zify_bool; [|repeat case_match; eauto].
  run_arith ltac:(unfold u32_max; lia). eauto.
Qed.

Lemma reset_counters_total p st u pe c :
  cwnd_params_ok (cw_params c) → 0 ≤ cw_value c ≤ cwnd_cap →
  ∃ u' pe' c', reset_counters p st u pe c = Ok (u', pe', c').
Proof.
  intros Hcp Hc. unfold reset_counters.
  destruct (update_rate_ok (E:=ProtoError) st c Hcp Hc) as (n & Hn & _).
  destruct (sendme_per_cwnd_ok (E:=ProtoError) c Hcp Hc) as (k & Hk & _).
  rewrite Hn, Hk. repeat (case_match; rewrite ?ok_bind); eauto.
Qed.

Lemma vegas_sendme_total st rtt sig v :
  vegas_params_ok (vg_params v) → cwnd_params_ok (cw_params (vg_cwnd v)) →
  cwnd_inc (cw_params (vg_cwnd v)) ≤ delta (cell_in_queue_params (vg_params v)) →
  window_top (vg_params v) (cw_params (vg_cwnd v)) ≤ vegas_cap →
  window_ok v → sendme_inc (vg_cwnd v) ≤ num_inflight v ≤ 2 * vegas_cap →
  0 ≤ channel_outbound_size sig → rtt_wf rtt → rtt_usable st rtt →
  ∃ v' st', vegas_sendme_received st rtt sig v = Ok (v', st').
Proof.
  intros Hvp Hcp Hinc Htop Hw Hin Hsz Hr Hu. unfold vegas_sendme_received, window_ok in *.
  assert (Hmin : 0 ≤ cwnd_min (cw_params (vg_cwnd v)) ≤ vegas_cap)
    by (destruct Hcp as (_&_&_&_&?&_); unfold window_top in Htop; lia).
  assert (Hi : 1 ≤ sendme_inc (vg_cwnd v)) by (by destruct Hcp as (_&_&_&_&_&_&[? _])).
  destruct (bdp_total (E:=ProtoError) st (vg_cwnd v) rtt sig) as (b & -> & Hb0 & Hb);
    [lia|lia|done..|]. rewrite ok_bind.
  destruct (negb (is_ready rtt) && negb (channel_blocked sig)).
  { rewrite (proj2 (Z.leb_le _ _)) by lia. cbn [debug_assert]. rewrite ok_bind. eauto. }
  destruct (eval_fullness_total (E:=ProtoError) (num_inflight v) (vg_params v) (vg_cwnd v))
    as [c1 Hc1]; [done|done|lia|lia|]. rewrite Hc1, ok_bind.
  apply eval_fullness_same in Hc1 as [Hp1 Hv1]. unfold cw_get. rewrite <-Hv1 in *.
  rewrite <-Hp1 in Hcp, Hinc, Htop, Hmin, Hw.
  match goal with |- ∃ _ _, (?body ≫= _) = _ => assert (Hbody : ∃ c2 s2, body = Ok (c2, s2)
    ∧ cw_params c2 = cw_params c1 ∧ 0 ≤ cw_value c2 ≤ vegas_cap) end.
  { assert (Ht : ss_cwnd_max (vg_params v) ≤ vegas_cap ∧ cwnd_max (cw_params c1) ≤ vegas_cap)
      by (unfold window_top in Htop; lia).
    destruct st; cbn [in_slow_start].
    - destruct (slow_start_total (vg_params v) (saturating_sub (cw_value c1) b) b
        (channel_blocked sig) c1) as (c2 & s2 & Hs); [done|done|lia|split; [lia|auto]|].
      exists c2, s2. split; [done|]. split; [by eapply slow_start_params|].
      apply slow_start_bounds in Hs; [lia|done|done|lia|done].
    - case_match; [|exists c1, Steady; split; [done|split; [done|lia]]].
      destruct (steady_total (vg_params v) (saturating_sub (cw_value c1) b) b
        (channel_blocked sig) c1) as [c2 Hs]; [done|done|lia|done|done|done|].
      exists c2, Steady. rewrite Hs, ok_bind. split; [done|]. split; [by eapply steady_params|].
      apply (steady_bounds _ _ _ _ _ _ vegas_cap) in Hs; [lia|done|done|lia|done|lia|done]. }
  destruct Hbody as (c2 & s2 & -> & Hp2 & Hv2). rewrite ok_bind.
  match goal with |- context [reset_counters ?p ?s ?u ?pe c2] =>
    destruct (reset_counters_total p s u pe c2) as (u' & pe' & c' & ->) end;
    [by rewrite Hp2|unfold cwnd_cap, vegas_cap in *; lia|]. rewrite ok_bind. eauto.
Qed.

(** The estimator stays usable when a measurement is zero, which stalls the clock, or at least a
    microsecond. *)
Lemma rtt_update_usable now st c r r' t rest :
  sendme_expected_from r = t :: rest → now - t ≤ 0 ∨ 1000 ≤ now - t ≤ rtt_bound →
  rtt_wf r → rtt_small r → rtt_usable st r → rtt_update now st c r = Ok r' → rtt_usable st r'.
Proof.
  intros Hq Ht Hwf Hsm Hu H. unfold rtt_update in H. rewrite Hq in H. cbv zeta in H.
  apply bind_ok in H as ([r1 b] & Hs & H).
  apply is_clock_stalled_same in Hs as [[s ->] Hraw]. destruct b.
  { injection H as <-. done. }
  cbn [store_stalled rt_params max_rtt ewma_rtt min_rtt clock_stalled] in H.
  set (raw := saturating_duration_since now t) in *.
  assert (Hr0 : raw ≠ 0) by (intros E; by specialize (Hraw E)).
  assert (Hr : 1000 ≤ raw ≤ rtt_bound) by (unfold raw, saturating_duration_since in *; lia).
  assert (Hus : ∀ d, 1000 ≤ d ≤ rtt_bound → 1 ≤ wrap u64_max (as_micros d)).
  { intros d Hd. unfold wrap, as_micros, rtt_bound, u64_max, u32_max in *.
    assert (1 ≤ d / 1000 ≤ 4294967295)
      by (split; [apply Z.div_le_lower_bound|apply Z.div_le_upper_bound]; lia).
    rewrite Z.mod_small; lia. }
  apply bind_ok in H as (n & Hn%ewma_n_ge & H). apply bind_ok in H as (u & Hu' & H).
  unfold rtt_wf, rtt_small, rtt_usable in *. pose proof (Hus raw Hr) as Hru.
  destruct (last_rtt r) as [l|], (ewma_rtt r) as [e|], (min_rtt r) as [m|], (max_rtt r) as [x|];
    try done; cbn [fmap option_fmap option_map] in H, Hu'.
  - pose proof (Hus e ltac:(lia)) as Heu. apply new_ewma_between in Hu'; [|lia..].
    assert (1000 ≤ from_micros u) by (unfold from_micros; lia).
    destruct st; cbn [in_slow_start negb] in H.
    + rewrite andb_false_r in H. destruct (_ <? m) eqn:Hlt; zify_bool; ok_inv; simpl; split; try lia.
    + destruct (_ && _); [|destruct (_ <? m)]; ok_inv; simpl; split; done.
  - injection Hu' as <-. ok_inv. simpl. split; [unfold from_micros; lia|done].
Qed.

(** Slow start is never entered again. *)
Lemma vegas_state_mono st rtt sig v v' st' :
  vegas_sendme_received st rtt sig v = Ok (v', st') → st' = SlowStart → st = SlowStart.
Proof.
  intros H ->. destruct st; [done|]. unfold vegas_sendme_received in H.
  apply bind_ok in H as (b & _ & H). destruct (_ && _); [ok_inv; simplify_eq|].
  apply bind_ok in H as (c1 & _ & H). apply bind_ok in H as ([c2 s2] & Hs & H).
  apply bind_ok in H as ([[u p] c3] & _ & H).
  cbn [in_slow_start] in Hs. destruct (_ =? 0); ok_inv; simplify_eq.
Qed.

(** ** Corner cases *)

(** The product of the window and the minimum round trip saturates at 32 bits, so that the
    estimate is not [cwnd * min_rtt / ewma_rtt]: with a window of 5000 cells and a steady round
    trip of two seconds it is 2147 cells, not 5000. *)
Theorem bdp_saturates :
  let c := mkCwnd cwnd_params_example 5000 true in
  let rtt := mkRtt [] (Some 2000000000) (Some 2000000000) (Some 2000000000) (Some 2000000000)
               rtt_params_example false in
  bdp_update (E:=ProtoError) c rtt (mkSignals false 0) = Ok 2147 ∧
  5000 * 2000000 / 2000000 = 5000.
Proof. vm_compute. done. Qed.

(** A smoothed round trip below a microsecond is a division by zero. *)
Theorem bdp_divides_by_zero :
  let c := mkCwnd cwnd_params_example 124 true in
  let rtt := mkRtt [] (Some 500) (Some 0) (Some 0) (Some 500) rtt_params_example false in
  rtt_wf rtt ∧ bdp_update (E:=ProtoError) c rtt (mkSignals false 0) = Panic.
Proof. vm_compute. done. Qed.

(** Dropping to the delta threshold ignores the minimum window: here the window falls to 10
    cells, below the minimum of 124 and below the 31 cells that one SENDME acknowledges. *)
Theorem vegas_window_below_min :
  let p := mkVegasParams (mkVegasQueueParams 3 6 10 3 600) 5000 4 25 1 in
  let v := mkVegas p 0 (mkCwnd cwnd_params_example 124 true) 31 1 1 124 false in
  let rtt := mkRtt [] (Some 90000000) (Some 90000000) (Some 1000000) (Some 90000000)
               rtt_params_example false in
  vegas_params_ok p ∧ cwnd_params_ok (cw_params (vg_cwnd v)) ∧ rtt_wf rtt ∧
  ∃ v', vegas_sendme_received Steady rtt (mkSignals false 0) v = Ok (v', Steady) ∧
    cw_value (vg_cwnd v') = 10 ∧ cwnd_min (cw_params (vg_cwnd v')) = 124 ∧
    sendme_inc (vg_cwnd v') = 31.
Proof.
  cbv zeta. split; [vm_compute; repeat split; discriminate|].
  split; [vm_compute; repeat split; discriminate|].
  split; [vm_compute; repeat split; discriminate|].
  eexists. split; [vm_compute; reflexivity|]. done.
Qed.
