(* ===== verification/Congestion.v ===== *)
(** * Congestion: congestion control of a circuit hop

    The second half of [tor-proto/src/congestion.rs]: the trait [CongestionControlAlgorithm] as
    a type class with the fixed window ([congestion/fixed.rs]) and Vegas as instances, and
    [CongestionControl], which pairs an algorithm with the queue of expected SENDME tags and
    the round-trip estimator.  The class [AckClock] states what an algorithm promises about the
    cells it counts; the theorems about the two ends of a circuit are proved against it. *)

From S2P Require Import Prelude Bytes RelayMsg RelayCell Sendme Cwnd Rtt Vegas.

(** ** The algorithm interface *)

Class CongestionControlAlgorithm (A : Type) : Type := {
  uses_stream_sendme : A → bool;
  uses_xon_xoff : A → bool;
  is_next_cell_sendme : A → res ProtoError bool;
  can_send : A → bool;
  alg_cwnd : A → option CongestionWindow;
  data_received : A → res ProtoError (A * bool);
  data_sent : A → res ProtoError A;
  sendme_received :
    State → RoundtripTimeEstimator → CongestionSignals → A → res ProtoError (A * State);
  sendme_sent : A → res ProtoError A;
  inflight : A → option Z;
  algorithm : A → Algorithm;
}.

(** ** Fixed window *)

Record FixedWindow : Type := mkFixedWindow {
  fw_recvwindow : RecvWindow CircParams;
  fw_sendwindow : SendWindow CircParams;
  fw_params : FixedWindowParams }.

Definition FixedWindow_new (params : FixedWindowParams) : FixedWindow :=
  mkFixedWindow (RecvWindow_new (start CircParams)) (SendWindow_new (circ_window_start params))
    params.

#[export] Instance fixed_window_algorithm : CongestionControlAlgorithm FixedWindow := {
  uses_stream_sendme _ := true;
  uses_xon_xoff _ := false;
  is_next_cell_sendme f := Ok (should_record_tag (fw_sendwindow f));
  can_send f := 0 <? sw_window (fw_sendwindow f);
  alg_cwnd _ := None;
  data_received f :=
    '(w, due) ← RecvWindow_take (fw_recvwindow f);
    Ok (mkFixedWindow w (fw_sendwindow f) (fw_params f), due);
  data_sent f :=
    w ← SendWindow_take (fw_sendwindow f);
    Ok (mkFixedWindow (fw_recvwindow f) w (fw_params f));
  sendme_received state _ _ f :=
    w ← SendWindow_put (fw_sendwindow f);
    Ok (mkFixedWindow (fw_recvwindow f) w (fw_params f), state);
  sendme_sent f :=
    w ← RecvWindow_put (fw_recvwindow f);
    Ok (mkFixedWindow w (fw_sendwindow f) (fw_params f));
  inflight _ := None;
  algorithm f := AlgFixedWindow (fw_params f);
}.

#[export] Instance vegas_algorithm : CongestionControlAlgorithm Vegas := {
  uses_stream_sendme _ := false;
  uses_xon_xoff _ := true;
  is_next_cell_sendme v := vegas_is_next_cell_sendme v;
  can_send v := vegas_can_send v;
  alg_cwnd v := Some (vg_cwnd v);
  data_received v := Ok (vegas_data_received v);
  data_sent v := Ok (vegas_data_sent v);
  sendme_received state rtt signals v := vegas_sendme_received state rtt signals v;
  sendme_sent v := Ok (vegas_sendme_sent v);
  inflight v := Some (num_inflight v);
  algorithm v := AlgVegas (vg_params v);
}.

(** ** Congestion control of a hop *)

Record CongestionControl (A : Type) : Type := mkCC {
  cc_state : State;
  cc_sendme_validator : SendmeValidator SendmeTag;
  cc_rtt : RoundtripTimeEstimator;
  cc_algorithm : A }.
Arguments mkCC {A}.
Arguments cc_state {A}.
Arguments cc_sendme_validator {A}.
Arguments cc_rtt {A}.
Arguments cc_algorithm {A}.

(** [CongestionControl::new] chooses the algorithm; the boxed trait object is one of the two. *)
Definition CongestionControl_new (params : CongestionControlParams) :
    res ProtoError (CongestionControl FixedWindow + CongestionControl Vegas) :=
  let state := SlowStart in
  let rtt := RoundtripTimeEstimator_new (rtt_params params) in
  match cc_alg params with
  | AlgFixedWindow p => Ok (inl (mkCC state SendmeValidator_new rtt (FixedWindow_new p)))
  | AlgVegas p =>
      let cwnd := CongestionWindow_new (cwnd_params params) in
      v ← Vegas_new p state cwnd;
      Ok (inr (mkCC state SendmeValidator_new rtt v))
  end.

Section control.
Context {A : Type} `{!CongestionControlAlgorithm A}.

(** The estimator after a SENDME, if the algorithm has a congestion window. *)
Definition update_rtt (now : Z) (c : CongestionControl A) :
    res ProtoError RoundtripTimeEstimator :=
  match alg_cwnd (cc_algorithm c) with
  | Some cwnd =>
      map_err (λ _, CircProto "Informed of a SENDME we weren't expecting")
        (rtt_update now (cc_state c) cwnd (cc_rtt c))
  | None => Ok (cc_rtt c)
  end.

Definition note_sendme_received (now : Z) (tag : SendmeTag) (signals : CongestionSignals)
    (c : CongestionControl A) : res ProtoError (CongestionControl A) :=
  validator ← validate (Some tag) (cc_sendme_validator c);
  rtt ← update_rtt now c;
  '(alg, state) ← sendme_received (cc_state c) rtt signals (cc_algorithm c);
  Ok (mkCC state validator rtt alg).

Definition note_sendme_sent (c : CongestionControl A) : res ProtoError (CongestionControl A) :=
  alg ← sendme_sent (cc_algorithm c);
  Ok (mkCC (cc_state c) (cc_sendme_validator c) (cc_rtt c) alg).

Definition note_data_received (c : CongestionControl A) :
    res ProtoError (CongestionControl A * bool) :=
  '(alg, due) ← data_received (cc_algorithm c);
  Ok (mkCC (cc_state c) (cc_sendme_validator c) (cc_rtt c) alg, due).

Definition note_data_sent (now : Z) (tag : SendmeTag) (c : CongestionControl A) :
    res ProtoError (CongestionControl A) :=
  alg ← data_sent (cc_algorithm c);
  next ← is_next_cell_sendme alg;
  if next : bool then
    let validator := record tag (cc_sendme_validator c) in
    let rtt := match alg_cwnd alg with
               | Some _ => expect_sendme now (cc_rtt c)
               | None => cc_rtt c
               end in
    Ok (mkCC (cc_state c) validator rtt alg)
  else Ok (mkCC (cc_state c) (cc_sendme_validator c) (cc_rtt c) alg).
End control.

(** ** The two ends of a hop

    A sender and a receiver joined by a queue of DATA cells one way and a queue of SENDMEs the
    other way; a cell is represented by its authentication tag.  The receiver runs
    [handle_relay_cell] of [client/reactor/circuit.rs]: it counts the cell and, when told to,
    sends a SENDME with the tag of that cell and notes it.  An event that is not enabled does
    nothing. *)

Inductive Event : Type :=
| EvSend (now : Z) (tag : SendmeTag)
| EvRecv
| EvAck (now : Z) (signals : CongestionSignals).

Record Wire (A : Type) : Type := mkWire {
  ln_sender : CongestionControl A;
  ln_data : list SendmeTag;
  ln_receiver : CongestionControl A;
  ln_sendmes : list SendmeTag }.
Arguments mkWire {A}.
Arguments ln_sender {A}.
Arguments ln_data {A}.
Arguments ln_receiver {A}.
Arguments ln_sendmes {A}.

Section link.
Context {A : Type} `{!CongestionControlAlgorithm A}.

Definition link_step (ev : Event) (l : Wire A) : res ProtoError (Wire A) :=
  match ev with
  | EvSend now tag =>
      if can_send (cc_algorithm (ln_sender l)) then
        s ← note_data_sent now tag (ln_sender l);
        Ok (mkWire s (ln_data l ++ [tag]) (ln_receiver l) (ln_sendmes l))
      else Ok l
  | EvRecv =>
      match ln_data l with
      | [] => Ok l
      | tag :: data =>
          '(r, send_circ_sendme) ← note_data_received (ln_receiver l);
          if send_circ_sendme : bool then
            r ← note_sendme_sent r;
            Ok (mkWire (ln_sender l) data r (ln_sendmes l ++ [tag]))
          else Ok (mkWire (ln_sender l) data r (ln_sendmes l))
      end
  | EvAck now signals =>
      match ln_sendmes l with
      | [] => Ok l
      | tag :: sendmes =>
          s ← note_sendme_received now tag signals (ln_sender l);
          Ok (mkWire s (ln_data l) (ln_receiver l) sendmes)
      end
  end.

Fixpoint link_run (evs : list Event) (l : Wire A) : res ProtoError (Wire A) :=
  match evs with
  | [] => Ok l
  | ev :: evs => l ← link_step ev l; link_run evs l
  end.

Definition link_init (s r : CongestionControl A) : Wire A := mkWire s [] r [].
End link.

(** ** What an algorithm promises

    [tx a] are the cells sent and not yet acknowledged, [rx a] the cells received since the last
    SENDME; [wf] is an invariant of the algorithm.  Both ends acknowledge every [inc] cells. *)

Class AckClock (A : Type) `{!CongestionControlAlgorithm A} (inc : Z) (wf : A → Prop)
    (tx rx : A → Z) : Prop := {
  ack_inc_pos : 0 < inc;
  ack_send a : wf a → can_send a = true →
    ∃ a', data_sent a = Ok a' ∧ wf a' ∧ tx a' = tx a + 1 ∧ rx a' = rx a ∧
      is_next_cell_sendme a' = Ok (tx a' mod inc =? 0) ∧
      (is_Some (alg_cwnd a') ↔ is_Some (alg_cwnd a));
  ack_recv a : wf a → 0 ≤ rx a < inc →
    ∃ a', data_received a = Ok (a', rx a + 1 =? inc) ∧ wf a' ∧ tx a' = tx a ∧ rx a' = rx a + 1;
  ack_sendme_sent a : wf a → rx a = inc →
    ∃ a', sendme_sent a = Ok a' ∧ wf a' ∧ tx a' = tx a ∧ rx a' = 0;
  ack_sendme_received st rtt sig a : wf a → inc ≤ tx a → rtt_wf rtt →
    sendme_received st rtt sig a = Panic ∨
    ∃ a' st', sendme_received st rtt sig a = Ok (a', st') ∧ wf a' ∧ tx a' = tx a - inc ∧
      rx a' = rx a ∧ (is_Some (alg_cwnd a') ↔ is_Some (alg_cwnd a));
}.

(** ** The fixed window keeps the promise *)

Definition fixed_wf (s0 : Z) (f : FixedWindow) : Prop :=
  s0 mod 100 = 0 ∧ 0 ≤ s0 ≤ 1000 ∧ 0 ≤ sw_window (fw_sendwindow f) ∧
  900 ≤ rw_window (fw_recvwindow f) ≤ 1000.
Definition fixed_tx (s0 : Z) (f : FixedWindow) : Z := s0 - sw_window (fw_sendwindow f).
Definition fixed_rx (f : FixedWindow) : Z := 1000 - rw_window (fw_recvwindow f).

#[export] Instance fixed_ack_clock s0 : AckClock FixedWindow 100 (fixed_wf s0) (fixed_tx s0) fixed_rx.
Proof.
  unfold fixed_wf, fixed_tx, fixed_rx. split.
  - lia.
  - intros [rw sw p] (Hm & Hs0 & Hs & Hr) Hc. simpl in *. zify_bool.
    rewrite SendWindow_take_ok by done. eexists. split; [done|]. simpl.
    repeat split; try lia; try done. unfold should_record_tag. simpl.
    f_equal. symmetry. by apply mark_down.
  - intros [rw sw p] (Hm & Hs0 & Hs & Hr) Hx. simpl in *.
    rewrite RecvWindow_take_ok by lia. exists (mkFixedWindow (mkRecvWindow (rw_window rw - 1)) sw p).
    rewrite ok_bind. split; [|simpl; repeat split; lia || done].
    do 2 f_equal. change (increment CircParams) with 100.
    destruct (Z.eqb_spec (1000 - rw_window rw + 1) 100) as [He|He].
    + replace (rw_window rw - 1) with 900 by lia. done.
    + apply Z.eqb_neq. intros H0. apply Z.mod_divide in H0 as [k Hk]; lia.
  - intros [rw sw p] (Hm & Hs0 & Hs & Hr) Hx. simpl in *.
    rewrite RecvWindow_put_ok by (unfold u16_max; simpl; lia). eexists. split; [done|].
    simpl. repeat split; try lia; done.
  - intros st rtt sig [rw sw p] (Hm & Hs0 & Hs & Hr) Hx _. right. simpl in *.
    rewrite SendWindow_put_ok by (simpl; lia). eexists _, _. split; [done|].
    simpl. repeat split; try lia; done.
Qed.

(** ** Vegas keeps the promise *)

Definition vegas_wf (inc : Z) (v : Vegas) : Prop :=
  vegas_params_ok (vg_params v) ∧ cwnd_params_ok (cw_params (vg_cwnd v)) ∧
  cp_sendme_inc (cw_params (vg_cwnd v)) = inc ∧ window_ok v ∧ 0 ≤ num_inflight v.
Definition vegas_rx (v : Vegas) : Z := sendme_inc (vg_cwnd v) - num_cell_until_sendme v.

Lemma window_top_u32 p c : vegas_params_ok p → cwnd_params_ok c → window_top p c ≤ 2147483647.
Proof.
  intros (_ & _ & _ & _ & _ & H1 & _) (H2 & _ & _ & _ & H3 & H4 & _). unfold window_top. lia.
Qed.

Lemma vegas_ack_clock inc : 0 < inc →
  AckClock Vegas inc (vegas_wf inc) num_inflight vegas_rx.
Proof.
  intros Hinc. unfold vegas_wf. split; [done| | | |].
  - intros v (Hvp & Hcp & Hi & Hw & Hn) Hc. simpl in *.
    unfold vegas_can_send, window_ok, cw_get in *. zify_bool.
    pose proof (window_top_u32 _ _ Hvp Hcp).
    eexists. split; [done|]. unfold vegas_data_sent, saturating_add, u32_max in *. simpl.
    rewrite Z.min_l by lia. split_and!; try done; try lia.
    unfold vegas_is_next_cell_sendme, sendme_inc. simpl. rewrite Hi. by rewrite urem_ok by lia.
  - intros v (Hvp & Hcp & Hi & Hw & Hn) Hx. simpl in *. unfold vegas_rx, sendme_inc in *.
    unfold vegas_data_received. rewrite Hi in *. rewrite (proj2 (Z.eqb_neq _ _)) by lia.
    unfold saturating_sub. rewrite Z.max_l by lia. eexists. split.
    + do 2 f_equal.
      destruct (Z.eqb_spec (num_cell_until_sendme v - 1) 0), (Z.eqb_spec (inc - num_cell_until_sendme v + 1) inc); lia.
    + simpl. rewrite Hi. split_and!; try done; lia.
  - intros v (Hvp & Hcp & Hi & Hw & Hn) Hx. simpl. eexists. split; [done|].
    unfold vegas_rx, vegas_sendme_sent, sendme_inc. simpl. split_and!; try done. lia.
  - intros st rtt sig v (Hvp & Hcp & Hi & Hw & Hn) Hx Hr. simpl.
    destruct (vegas_sendme_received st rtt sig v) as [[v' st']|e|] eqn:H; [right|
      by apply no_err_vegas_sendme in H|by left].
    pose proof (vegas_sendme_window _ _ _ _ _ _ Hvp Hcp Hr Hw H) as Hw'.
    apply vegas_sendme_frame in H as (Ht & Hp & Hu & Hvpar).
    eexists _, _. split; [done|]. unfold vegas_rx, sendme_inc, saturating_sub in *.
    rewrite Hp, Hvpar, Hu, Ht, Hi. split_and!; try done; lia.
Qed.

(** ** Two honest ends never disagree *)

Lemma marks_period {T} inc k (l : list T) : 0 < inc → marks inc (k + inc) l = marks inc k l.
Proof.
  intros Hi. revert k. induction l as [|x l IH]; intros k; [done|]. cbn [marks].
  replace (k + inc + 1) with (k + 1 + inc) by lia. rewrite IH.
  by replace ((k + 1 + inc) mod inc) with ((k + 1) mod inc)
    by (rewrite <-(Z_mod_plus_full (k + 1) 1 inc); f_equal; lia).
Qed.

Section honest.
Context {A : Type} `{!CongestionControlAlgorithm A} {inc : Z} {wf : A → Prop} {tx rx : A → Z}.
Context `{!AckClock A inc wf tx rx}.

(** The cells the sender counts as unacknowledged are those on their way, those the receiver
    counted since its last SENDME, and an increment for each SENDME on its way; the tags it
    waits for are those of the SENDMEs on their way and of the marked cells behind them; and
    it has a send time for each of them if it measures round trips. *)
Definition link_inv (l : Wire A) : Prop :=
  let s := ln_sender l in
  let r := cc_algorithm (ln_receiver l) in
  wf (cc_algorithm s) ∧ wf r ∧ rtt_wf (cc_rtt s) ∧ rtt_params_ok (rt_params (cc_rtt s)) ∧
  0 ≤ rx r < inc ∧
  tx (cc_algorithm s) = rx r + Z.of_nat (length (ln_data l))
                        + inc * Z.of_nat (length (ln_sendmes l)) ∧
  sv_tags (cc_sendme_validator s) = ln_sendmes l ++ marks inc (rx r) (ln_data l) ∧
  (is_Some (alg_cwnd (cc_algorithm s)) →
   length (sendme_expected_from (cc_rtt s)) = length (sv_tags (cc_sendme_validator s))).

Lemma link_init_inv s r :
  wf (cc_algorithm s) → wf (cc_algorithm r) → rtt_wf (cc_rtt s) →
  rtt_params_ok (rt_params (cc_rtt s)) → tx (cc_algorithm s) = 0 → rx (cc_algorithm r) = 0 →
  sv_tags (cc_sendme_validator s) = [] → sendme_expected_from (cc_rtt s) = [] →
  link_inv (link_init s r).
Proof.
  intros H1 H2 H3 H4 H5 H6 H7 H8. pose proof ack_inc_pos. unfold link_inv. simpl.
  rewrite H5, H6, H7, H8. split_and!; try done; lia.
Qed.

Lemma link_send_inv now tag l : link_inv l →
  ∃ l', link_step (EvSend now tag) l = Ok l' ∧ link_inv l'.
Proof.
  intros Hinv. pose proof Hinv as (Hs & Hr & Hw & Hp & Hx & Ht & Hg & Hq). unfold link_step.
  destruct (can_send (cc_algorithm (ln_sender l))) eqn:Hc; [|eauto].
  destruct (ack_send _ Hs Hc) as (a' & Hd & Hs' & Ht' & _ & Hn & Hcw).
  unfold note_data_sent. rewrite Hd, ok_bind, Hn, ok_bind. cbv zeta.
  set (k := rx (cc_algorithm (ln_receiver l)) + Z.of_nat (length (ln_data l)) + 1).
  assert (Hm : tx a' mod inc = k mod inc).
  { rewrite Ht', Ht, <-(Z_mod_plus_full k (Z.of_nat (length (ln_sendmes l))) inc).
    unfold k. f_equal. lia. }
  rewrite Hm. destruct (k mod inc =? 0) eqn:Hz; rewrite ?ok_bind; eexists; (split; [done|]);
    unfold link_inv; simpl; rewrite length_app, Ht', Ht, marks_snoc; fold k; rewrite Hz.
  - rewrite Hg, (assoc_L app). split_and!; try done; try (by destruct (alg_cwnd a'));
      try (cbn [length]; lia).
    intros Hi. specialize (Hq (proj1 Hcw Hi)). destruct (alg_cwnd a'); [|by destruct Hi].
    simpl. rewrite length_app, Hq, Hg, !length_app. done.
  - rewrite app_nil_r. split_and!; try done; try (cbn [length]; lia).
    intros Hi. apply Hq, (proj1 Hcw Hi).
Qed.

Lemma link_recv_inv l : link_inv l → ∃ l', link_step EvRecv l = Ok l' ∧ link_inv l'.
Proof.
  intros Hinv. pose proof Hinv as (Hs & Hr & Hw & Hp & Hx & Ht & Hg & Hq).
  unfold link_step. pose proof ack_inc_pos.
  destruct (ln_data l) as [|tag data] eqn:Hdata; [eauto|].
  destruct (ack_recv _ Hr Hx) as (a' & Hd & Hr' & _ & Hx').
  unfold note_data_received. rewrite Hd, !ok_bind. cbn [marks length] in *.
  destruct (Z.eqb_spec (rx (cc_algorithm (ln_receiver l)) + 1) inc) as [He|He].
  - destruct (ack_sendme_sent a' Hr') as (a'' & Hd'' & Hr'' & _ & Hx''); [lia|].
    unfold note_sendme_sent. cbn [cc_algorithm]. rewrite Hd'', !ok_bind.
    rewrite He, Z.mod_same in Hg by lia. change (0 =? 0) with true in Hg.
    eexists. split; [done|]. unfold link_inv. simpl. rewrite Hx'', Ht, length_app.
    rewrite Hg, <-(assoc_L app). rewrite <-(marks_period inc 0), Z.add_0_l by done.
    split_and!; try done; try (cbn [length]; nia). by intros Hi; rewrite Hq, Hg.
  - rewrite Z.mod_small in Hg by lia. rewrite (proj2 (Z.eqb_neq _ 0)) in Hg by lia.
    eexists. split; [done|]. unfold link_inv. simpl. rewrite Hx', Ht, Hg.
    split_and!; try done; try lia. by intros Hi; rewrite Hq, Hg.
Qed.
Lemma link_ack_inv now sig l : link_inv l →
  link_step (EvAck now sig) l = Panic ∨
  ∃ l', link_step (EvAck now sig) l = Ok l' ∧ link_inv l'.
Proof.
  intros Hinv. pose proof Hinv as (Hs & Hr & Hw & Hp & Hx & Ht & Hg & Hq).
  unfold link_step. pose proof ack_inc_pos.
  destruct (ln_sendmes l) as [|tag sendmes] eqn:Hsm; [eauto|].
  unfold note_sendme_received, validate. rewrite Hg. cbn [app length] in *.
  rewrite decide_True by done. rewrite ok_bind.
  assert (Hrtt : update_rtt now (ln_sender l) = Panic ∨
    ∃ rtt, update_rtt now (ln_sender l) = Ok rtt ∧ rtt_wf rtt ∧ rtt_params_ok (rt_params rtt) ∧
      (is_Some (alg_cwnd (cc_algorithm (ln_sender l))) →
       length (sendme_expected_from rtt) =
       length (sendmes ++ marks inc (rx (cc_algorithm (ln_receiver l))) (ln_data l)))).
  { unfold update_rtt. destruct (alg_cwnd (cc_algorithm (ln_sender l))) as [cwnd|];
      [|right; eexists; by split_and!].
    specialize (Hq ltac:(eauto)). rewrite Hg in Hq.
    destruct (rtt_update _ _ cwnd _) as [rtt'|e|] eqn:Hu; [right| |by left].
    - apply rtt_update_wf in Hu as (Hw' & Hp' & t & Hl); [|done|done].
      eexists. split; [done|]. rewrite Hp'. split_and!; try done. intros _.
      rewrite Hl in Hq. simpl in Hq. lia.
    - apply rtt_update_err in Hu. rewrite Hu in Hq. simpl in Hq. lia. }
  destruct Hrtt as [->|(rtt & -> & Hw' & Hp' & Hl)]; [by left|]. rewrite ok_bind.
  destruct (ack_sendme_received (cc_state (ln_sender l)) rtt sig _ Hs)
    as [->|(a' & st' & -> & Hs' & Ht' & _ & Hcw)]; [nia|done|by left|]. rewrite !ok_bind.
  right. eexists. split; [done|]. unfold link_inv. simpl. rewrite Ht', Ht.
  split_and!; try done; try nia. intros Hi. apply Hl, Hcw, Hi.
Qed.

(** A run from a state in the invariant never returns an error. *)
Lemma link_run_inv evs l : link_inv l →
  link_run evs l = Panic ∨ ∃ l', link_run evs l = Ok l' ∧ link_inv l'.
Proof.
  revert l. induction evs as [|ev evs IH]; intros l Hl; simpl; [eauto|].
  assert (link_step ev l = Panic ∨ ∃ l', link_step ev l = Ok l' ∧ link_inv l')
    as [->|(l' & -> & Hl')]; [|by left|rewrite ok_bind; auto].
  destruct ev; [right; by apply link_send_inv|right; by apply link_recv_inv|by apply link_ack_inv].
Qed.

(** When the sender is blocked, a cell or a SENDME is still on its way. *)
Lemma link_not_stuck l :
  link_inv l → inc ≤ tx (cc_algorithm (ln_sender l)) → ln_data l ≠ [] ∨ ln_sendmes l ≠ [].
Proof.
  intros (_ & _ & _ & _ & Hx & Ht & _) Hi.
  destruct (ln_data l), (ln_sendmes l); simpl in *; auto. lia.
Qed.
End honest.

(** ** Fixed windows *)

Definition fixed_link_inv (s0 : Z) : Wire FixedWindow → Prop :=
  link_inv (inc:=100) (wf:=fixed_wf s0) (tx:=fixed_tx s0) (rx:=fixed_rx).

Lemma fixed_ack_no_panic now sig l : link_step (A:=FixedWindow) (EvAck now sig) l ≠ Panic.
Proof.
  unfold link_step. destruct (ln_sendmes l) as [|t q]; [done|].
  unfold note_sendme_received, validate. destruct (sv_tags _) as [|t' tags]; [done|].
  destruct (decide _); [|done]. rewrite ok_bind. simpl.
  unfold SendWindow_put. destruct (checked_add _ _ _) as [w|]; [simpl|done]. by destruct (_ <? w).
Qed.

Lemma fixed_run_inv s0 evs l : fixed_link_inv s0 l →
  ∃ l', link_run evs l = Ok l' ∧ fixed_link_inv s0 l'.
Proof.
  revert l. induction evs as [|ev evs IH]; intros l Hl; simpl; [eauto|].
  assert (∃ l', link_step ev l = Ok l' ∧ fixed_link_inv s0 l') as (l' & -> & Hl'); [|by apply IH].
  destruct ev; [by apply link_send_inv|by apply link_recv_inv|].
  destruct (link_ack_inv (inc:=100) now signals l Hl) as [H|]; [|done].
  by apply fixed_ack_no_panic in H.
Qed.

(** C13: two honest ends that use fixed windows never fail each other.  From a starting window
    that is a multiple of 100 (100 to 1000), every interleaving of sent cells, received cells
    and SENDMEs runs without an error or a panic: no SENDME is unexpected or carries the wrong
    tag, no window under- or overflows.  And whenever the sender is blocked, a cell or a SENDME
    is still in transit, so it is not blocked for good. *)
Theorem fixed_window_never_fails params p c evs :
  cc_alg params = AlgFixedWindow p → CongestionControl_new params = Ok (inl c) →
  circ_window_start p mod 100 = 0 → 100 ≤ circ_window_start p ≤ 1000 →
  rtt_params_ok (rtt_params params) →
  ∃ l, link_run evs (link_init c c) = Ok l ∧
    (can_send (cc_algorithm (ln_sender l)) = false → ln_data l ≠ [] ∨ ln_sendmes l ≠ []).
Proof.
  intros Ha Hnew Hm Hs Hp. unfold CongestionControl_new in Hnew. rewrite Ha in Hnew.
  injection Hnew as <-.
  match goal with |- context [link_init ?c ?c] =>
    destruct (fixed_run_inv (circ_window_start p) evs (link_init c c)) as (l & Hl & Hinv) end.
  { apply link_init_inv; try done; unfold fixed_wf, fixed_tx; simpl; lia. }
  exists l. split; [done|]. simpl. intros Hc. zify_bool.
  apply (link_not_stuck (inc:=100) _ Hinv). unfold fixed_tx. lia.
Qed.

Definition tag_example (n : Z) : SendmeTag := SendmeTag_from20 (replicate 20 n).

Definition fixed_params_example (start : Z) : CongestionControlParams :=
  mkCCParams (AlgFixedWindow (mkFixedWindowParams start 100 1000))
    (mkFixedWindowParams start 100 1000) cwnd_params_example rtt_params_example.

Definition fixed_cc_example (start : Z) : CongestionControl FixedWindow :=
  mkCC SlowStart SendmeValidator_new (RoundtripTimeEstimator_new rtt_params_example)
    (FixedWindow_new (mkFixedWindowParams start 100 1000)).

Lemma fixed_window_never_fails_witness :
  let evs := replicate 101 (EvSend 0 (tag_example 1)) ++ replicate 100 EvRecv
             ++ [EvAck 5 (mkSignals false 0)] in
  ∃ l, link_run evs (link_init (fixed_cc_example 100) (fixed_cc_example 100)) = Ok l ∧
    sw_window (fw_sendwindow (cc_algorithm (ln_sender l))) = 100.
Proof.
  intros evs.
  destruct (fixed_window_never_fails (fixed_params_example 100)
    (mkFixedWindowParams 100 100 1000) (fixed_cc_example 100) evs) as (l & Hl & _);
    [reflexivity|reflexivity|reflexivity|vm_compute; split; discriminate|
     vm_compute; repeat split; discriminate|].
  exists l. split; [exact Hl|]. vm_compute in Hl. injection Hl as <-. reflexivity.
Defined.

(** A starting window that is not a multiple of 100 breaks this: with 150, the sender records
    the tag of its 50th cell and the receiver acknowledges with that of its 100th. *)
Theorem circwindow_misaligned_fails :
  let sends := map (λ i, EvSend 0 (tag_example (Z.of_nat i))) (seq 1 100) in
  link_run (sends ++ replicate 100 EvRecv ++ [EvAck 5 (mkSignals false 0)])
    (link_init (fixed_cc_example 150) (fixed_cc_example 150))
  = Err (CircProto "Mismatched tag on circuit SENDME").
Proof. vm_compute. reflexivity. Qed.

(** ** Vegas *)

(** A circuit hop with Vegas whose parameters are within their consensus ranges. *)
Definition vegas_hop (params : CongestionControlParams) (c : CongestionControl Vegas) : Prop :=
  match cc_alg params with
  | AlgVegas vp => vegas_params_ok vp
  | AlgFixedWindow _ => False
  end ∧ cwnd_params_ok (cwnd_params params) ∧ rtt_params_ok (rtt_params params) ∧
  CongestionControl_new params = Ok (inr c).

Lemma vegas_hop_inv params c :
  vegas_hop params c → let inc := cp_sendme_inc (cwnd_params params) in
  0 < inc ∧
  link_inv (inc:=inc) (wf:=vegas_wf inc) (tx:=num_inflight) (rx:=vegas_rx) (link_init c c) ∧
  c = mkCC SlowStart SendmeValidator_new (RoundtripTimeEstimator_new (rtt_params params))
        (cc_algorithm c) ∧ num_inflight (cc_algorithm c) = 0 ∧
  AlgVegas (vg_params (cc_algorithm c)) = cc_alg params ∧
  cw_params (vg_cwnd (cc_algorithm c)) = cwnd_params params.
Proof.
  intros (Hv & Hc & Hr & H) inc. unfold CongestionControl_new in H.
  destruct (cc_alg params) as [|vp]; [done|]. injection H as <-.
  assert (Hi : 0 < inc) by (unfold inc; destruct Hc as (_&_&_&_&_&_&?); lia).
  split; [done|]. split; [|done].
  assert (Hw : vegas_wf inc
    (mkVegas vp 0 (CongestionWindow_new (cwnd_params params)) inc 1 0 0 false)).
  { split_and!; try done. unfold window_ok, window_top. simpl. destruct Hc. lia. }
  pose proof (vegas_ack_clock _ Hi).
  apply link_init_inv; try done. unfold vegas_rx. simpl. apply Z.sub_diag.
Qed.

(** C22: two honest ends that use Vegas with the same SENDME increment never see a protocol
    violation: whatever the interleaving, the congestion signals and the clocks, no SENDME is
    unexpected or mismatched and the round-trip estimator always has a send time for it. *)
Theorem vegas_never_errs params c evs e :
  vegas_hop params c → link_run evs (link_init c c) ≠ Err e.
Proof.
  intros (Hi & Hinv & _)%vegas_hop_inv. pose proof (vegas_ack_clock _ Hi).
  by destruct (link_run_inv evs _ Hinv) as [->|(l & -> & _)].
Qed.

Definition vegas_cc_params_example : CongestionControlParams :=
  mkCCParams (AlgVegas vegas_params_example) (mkFixedWindowParams 1000 100 1000)
    cwnd_params_example rtt_params_example.

Definition vegas_cc_example : CongestionControl Vegas :=
  mkCC SlowStart SendmeValidator_new (RoundtripTimeEstimator_new rtt_params_example)
    (mkVegas vegas_params_example 0 (CongestionWindow_new cwnd_params_example) 31 1 0 0 false).

Lemma vegas_never_errs_witness :
  let evs := replicate 40 (EvSend 0 (tag_example 1)) ++ replicate 31 EvRecv
             ++ [EvAck 5000000 (mkSignals false 0)] in
  vegas_hop vegas_cc_params_example vegas_cc_example ∧
  link_run evs (link_init vegas_cc_example vegas_cc_example) ≠ Err NotConnected.
Proof.
  intros evs.
  assert (H : vegas_hop vegas_cc_params_example vegas_cc_example)
    by (vm_compute; repeat split; discriminate).
  split; [exact H|]. exact (vegas_never_errs _ _ evs NotConnected H).
Defined.

(** ** Vegas without panics

    The times of an acknowledgement: the clock stood still or at least a microsecond and at most
    [u32::MAX] microseconds have passed since the cell was sent. *)

Definition ack_time_ok (ev : Event) (l : Wire Vegas) : Prop :=
  match ev with
  | EvAck now sig =>
      0 ≤ channel_outbound_size sig ∧
      match sendme_expected_from (cc_rtt (ln_sender l)) with
      | t :: _ => now - t ≤ 0 ∨ 1000 ≤ now - t ≤ rtt_bound
      | [] => True
      end
  | _ => True
  end.

Fixpoint times_ok (evs : list Event) (l : Wire Vegas) : Prop :=
  match evs with
  | [] => True
  | ev :: evs => ack_time_ok ev l ∧ ∀ l', link_step ev l = Ok l' → times_ok evs l'
  end.

(** Parameters under which no intermediate value leaves its range, beyond the consensus ranges:
    a steady decrease that cannot underflow, and windows of at most 15 million cells. *)
Definition vegas_roomy (vp : VegasParams) (cp : CongestionWindowParams) : Prop :=
  cwnd_inc cp ≤ delta (cell_in_queue_params vp) ∧ window_top vp cp ≤ vegas_cap.

Definition vegas_good (c : CongestionControl Vegas) : Prop :=
  let v := cc_algorithm c in
  vegas_roomy (vg_params v) (cw_params (vg_cwnd v)) ∧ num_inflight v ≤ vegas_cap ∧
  rtt_small (cc_rtt c) ∧ rtt_usable (cc_state c) (cc_rtt c).

Lemma vegas_good_send now tag c c' :
  vegas_good c → window_ok (cc_algorithm c) → can_send (cc_algorithm c) = true →
  note_data_sent now tag c = Ok c' → vegas_good c'.
Proof.
  intros ([Hd Ht] & Hi & Hs & Hu) Hw Hc. unfold note_data_sent. simpl.
  simpl in Hc. unfold vegas_can_send, cw_get, window_ok in *. zify_bool.
  intros (n & Hn & H)%bind_ok.
  destruct n; injection H as <-; unfold vegas_good; simpl;
    unfold saturating_add, vegas_cap in *; (split; [done|]); (split; [lia|done]).
Qed.

Lemma vegas_good_ack inc now tag sig c tags t rest :
  0 < inc → vegas_good c → vegas_wf inc (cc_algorithm c) → inc ≤ num_inflight (cc_algorithm c) →
  rtt_wf (cc_rtt c) → rtt_params_ok (rt_params (cc_rtt c)) →
  sv_tags (cc_sendme_validator c) = tag :: tags →
  sendme_expected_from (cc_rtt c) = t :: rest →
  0 ≤ channel_outbound_size sig → now - t ≤ 0 ∨ 1000 ≤ now - t ≤ rtt_bound →
  ∃ c', note_sendme_received now tag sig c = Ok c' ∧ vegas_good c'.
Proof.
  intros Hinc ([Hd Ht] & Hi & Hs & Hu) (Hvp & Hcp & Hpi & Hw & _) Hge Hrw Hrp Hv Hq Hsz Htime.
  unfold note_sendme_received, validate, update_rtt. rewrite Hv, decide_True, ok_bind by done.
  cbn [alg_cwnd vegas_algorithm].
  assert (Hcap : 0 ≤ cw_value (vg_cwnd (cc_algorithm c)) ≤ vegas_cap)
    by (unfold window_ok in Hw; lia).
  destruct (rtt_update_ok now (cc_state c) (vg_cwnd (cc_algorithm c)) (cc_rtt c) t rest)
    as (r' & Hr' & Hsm'); try done.
  { unfold rtt_bound, u32_max in *. lia. }
  { unfold cwnd_cap, vegas_cap in *. lia. }
  rewrite Hr'. cbn [map_err]. rewrite ok_bind.
  pose proof (rtt_update_usable _ _ _ _ _ _ _ Hq Htime Hrw Hs Hu Hr') as Hu'.
  apply rtt_update_wf in Hr' as (Hrw' & _); [|done|done].
  cbn [sendme_received vegas_algorithm].
  destruct (vegas_sendme_total (cc_state c) r' sig (cc_algorithm c)) as (v' & st' & Hv'); try done.
  { unfold sendme_inc. rewrite Hpi. unfold vegas_cap in *. lia. }
  rewrite Hv', ok_bind. eexists. split; [done|].
  pose proof (vegas_state_mono _ _ _ _ _ _ Hv') as Hmono.
  apply vegas_sendme_frame in Hv' as (Hn & Hp & _ & Hvpar).
  unfold vegas_good, vegas_roomy. simpl. rewrite Hp, Hvpar, Hn. split_and!; try done.
  - unfold saturating_sub, sendme_inc, vegas_cap in *. rewrite Hpi. lia.
  - unfold rtt_usable in *. destruct (ewma_rtt r'), (min_rtt r'); try done.
    destruct Hu'. split; [done|]. auto.
Qed.

Lemma vegas_run_good inc evs l :
  0 < inc →
  link_inv (inc:=inc) (wf:=vegas_wf inc) (tx:=num_inflight) (rx:=vegas_rx) l →
  vegas_good (ln_sender l) → times_ok evs l → ∃ l', link_run evs l = Ok l'.
Proof.
  intros Hi. pose proof (vegas_ack_clock inc Hi) as Hclock. revert l.
  induction evs as [|ev evs IH]; intros l Hl Hg Ht; [simpl; eauto|]. destruct Ht as [Hev Ht].
  cbn [link_run].
  enough (∃ l', link_step ev l = Ok l' ∧ vegas_good (ln_sender l') ∧
    link_inv (inc:=inc) (wf:=vegas_wf inc) (tx:=num_inflight) (rx:=vegas_rx) l')
    as (l' & Hs & Hg' & Hl') by (rewrite Hs, ok_bind; by apply IH, Ht).
  pose proof Hl as (Hwf & _ & Hrw & Hrp & Hx & Htx & Htags & Hq). destruct ev as [now tag| |now sig].
  - destruct (link_send_inv (inc:=inc) now tag l Hl) as (l' & Hs & Hl'). exists l'.
    split; [done|]. split; [|done]. unfold link_step in Hs.
    destruct (can_send _) eqn:Hc; [|by injection Hs as <-].
    apply bind_ok in Hs as (s' & Hs & [= <-]). by eapply vegas_good_send; [| |done|done]; try apply Hwf.
  - destruct (link_recv_inv (inc:=inc) l Hl) as (l' & Hs & Hl'). exists l'.
    split; [done|]. split; [|done]. unfold link_step in Hs.
    destruct (ln_data l); [by injection Hs as <-|]. apply bind_ok in Hs as ([r d] & _ & Hs).
    destruct d; ok_inv; done.
  - pose proof (link_ack_inv (inc:=inc) now sig l Hl) as Hack. unfold link_step in *.
    destruct (ln_sendmes l) as [|tag q] eqn:Hsm; [eauto|].
    simpl in Htags. specialize (Hq ltac:(eauto)). rewrite Htags in Hq.
    destruct Hev as [Hsz Htime].
    destruct (sendme_expected_from (cc_rtt (ln_sender l))) as [|t rest] eqn:Hexp; [done|].
    edestruct (vegas_good_ack inc now tag sig (ln_sender l)) as (c' & Hc' & Hg'); try done.
    { simpl in Htx. nia. }
    rewrite Hc', ok_bind in *. destruct Hack as [|(l' & [= <-] & Hl')]; [done|]. eauto.
Qed.

(** C23: Vegas runs to completion under conditions that the ranges of the consensus parameters alone
    do not give: the window increment is at most the parameter [delta], the window stays below
    15 million cells ([vegas_roomy]), and every acknowledgement comes when the clock has not
    moved or has moved by at least a microsecond and at most [u32::MAX] microseconds
    ([ack_time_ok]).  Then no interleaving of two honest ends overflows, divides by zero, fails
    an assertion or returns an error.  [bdp_divides_by_zero] shows what a shorter time does. *)
Theorem vegas_never_panics params c evs :
  vegas_hop params c →
  vegas_roomy (vg_params (cc_algorithm c)) (cwnd_params params) →
  times_ok evs (link_init c c) → ∃ l, link_run evs (link_init c c) = Ok l.
Proof.
  intros (Hi & Hinv & Hc & Hn & _ & Hcp)%vegas_hop_inv Hroom Ht.
  apply (vegas_run_good (cp_sendme_inc (cwnd_params params))); try done.
  simpl. unfold vegas_good. rewrite Hcp, Hn. split; [done|]. split; [done|]. by rewrite Hc.
Qed.

Lemma vegas_never_panics_witness :
  let evs := [EvSend 0 (tag_example 1); EvRecv; EvAck 5000000 (mkSignals true 7)] in
  let params := mkCCParams (AlgVegas vegas_params_example) (mkFixedWindowParams 1000 100 1000)
    (mkCwndParams 124 50 1 31 124 5000 1) rtt_params_example in
  let c := mkCC SlowStart SendmeValidator_new (RoundtripTimeEstimator_new rtt_params_example)
    (mkVegas vegas_params_example 0 (CongestionWindow_new (mkCwndParams 124 50 1 31 124 5000 1))
       1 1 0 0 false) in
  ∃ l, link_run evs (link_init c c) = Ok l.
Proof.
  intros evs params c. apply (vegas_never_panics params c evs).
  - vm_compute. repeat split; discriminate.
  - vm_compute. split; discriminate.
  - split; [exact I|]. intros l1 H1. vm_compute in H1. injection H1 as <-.
    split; [exact I|]. intros l2 H2. vm_compute in H2. injection H2 as <-.
    split; [split; [vm_compute; discriminate|right; vm_compute; split; discriminate]|].
    intros l3 _. exact I.
Defined.

(** A window below the SENDME increment blocks the sender for good: it may not send the cell
    that would be acknowledged, and with nothing in transit no event changes that. *)
Theorem vegas_small_window_stalls (l : Wire Vegas) ev :
  ln_data l = [] → ln_sendmes l = [] →
  num_inflight (cc_algorithm (ln_sender l)) = cw_value (vg_cwnd (cc_algorithm (ln_sender l))) →
  link_step ev l = Ok l.
Proof.
  intros Hd Hs Hn. destruct ev; simpl; rewrite ?Hd, ?Hs; try done.
  unfold vegas_can_send, cw_get. rewrite Hn, Z.ltb_irrefl. done.
Qed.
