(* ===== verification/TokenBucket.v ===== *)
(** * TokenBucket: the token bucket of stream rate limits

    [tor-proto/src/util/token_bucket/bucket.rs].  Token counts are [u64]; an instant and a
    duration are numbers of nanoseconds.  What the bucket uses of the clock is [checked_add],
    which fails past [instant_max], the largest representable instant of the platform. *)

From S2P Require Import Prelude Bytes RelayMsg RelayCell Sendme Cwnd Rtt.

Inductive BecameNonEmpty : Type := NonEmptyYes | NonEmptyNo.
Inductive BecameEmpty : Type := EmptyYes | EmptyNo.

Inductive InsufficientTokensError : Type := Insufficient (available : Z).

Inductive NeverEnoughTokensError : Type :=
| ExceedsMaxTokens
| ZeroRate
| InstantNotRepresentable.

Record TokenBucketConfig : Type := mkConfig { cf_rate : Z; cf_bucket_max : Z }.

Record TokenBucket : Type := mkBucket {
  tb_rate : Z;
  tb_bucket_max : Z;
  tb_bucket : Z;
  added_tokens_at : Z }.

Record ClaimedTokens : Type := mkClaim { cl_bucket : TokenBucket; cl_count : Z }.

(** [Duration::from_secs((u32::MAX / 4) as u64)]. *)
Definition IGNORE_THRESHOLD : Z := (u32_max / 4) * 1000000000.

Definition TokenBucket_new (config : TokenBucketConfig) (now : Z) : TokenBucket :=
  mkBucket (cf_rate config) (cf_bucket_max config) (cf_bucket_max config) now.

Definition tb_is_empty (b : TokenBucket) : bool := tb_bucket b =? 0.
Definition tb_max (b : TokenBucket) : Z := tb_bucket_max b.

Definition set_bucket (n : Z) (b : TokenBucket) : TokenBucket :=
  mkBucket (tb_rate b) (tb_bucket_max b) n (added_tokens_at b).

(** ** Claims *)

Definition claim (count : Z) (b : TokenBucket) : res InsufficientTokensError ClaimedTokens :=
  if tb_bucket b <? count then Err (Insufficient (tb_bucket b)) else Ok (mkClaim b count).

(** The claim after the call, whose count is zero, and whether the bucket became empty. *)
Definition commit_impl {E} (c : ClaimedTokens) : res E (ClaimedTokens * BecameEmpty) :=
  n ← expect (checked_sub (tb_bucket (cl_bucket c)) (cl_count c));
  Ok (mkClaim (set_bucket n (cl_bucket c)) 0, if 0 <? n then EmptyNo else EmptyYes).

(** Dropping a claim gives the bucket back. *)
Definition drop_claim {E} (c : ClaimedTokens) : res E TokenBucket :=
  '(c, _) ← commit_impl c; Ok (cl_bucket c).

Definition commit {E} (c : ClaimedTokens) : res E (TokenBucket * BecameEmpty) :=
  '(c, e) ← commit_impl c; b ← drop_claim c; Ok (b, e).

Definition reduce (count : Z) (c : ClaimedTokens) : res InsufficientTokensError ClaimedTokens :=
  if cl_count c <? count then Err (Insufficient (cl_count c))
  else Ok (mkClaim (cl_bucket c) count).

Definition discard {E} (c : ClaimedTokens) : res E TokenBucket :=
  drop_claim (mkClaim (cl_bucket c) 0).

Definition drain (count : Z) (b : TokenBucket) :
    res InsufficientTokensError (TokenBucket * BecameEmpty) :=
  c ← claim count b; commit c.

(** ** Time *)

Definition tokens_to_duration (tokens rate : Z) : option Z :=
  if rate =? 0 then None
  else Some (from_micros (div_ceil (saturating_mul u64_max tokens (1000 * 1000)) rate)).

Definition duration_to_tokens (time rate : Z) : Z :=
  let micros := sat_cast u64_max (as_micros time) in
  saturating_mul u64_max rate micros / (1000 * 1000).

Section clock.
Context (instant_max : Z).

(** [Instant::checked_add]. *)
Definition instant_checked_add (t d : Z) : option Z :=
  if t + d <=? instant_max then Some (t + d) else None.

Definition refill {E} (now : Z) (b : TokenBucket) : res E (TokenBucket * BecameNonEmpty) :=
  let elapsed := saturating_duration_since now (added_tokens_at b) in
  if IGNORE_THRESHOLD <? elapsed then
    Ok (mkBucket (tb_rate b) (tb_bucket_max b) (tb_bucket b) now, NonEmptyNo)
  else
    let old_bucket := tb_bucket b in
    let bucket_inc := duration_to_tokens elapsed (tb_rate b) in
    let bucket := Z.min (tb_bucket_max b) (saturating_add u64_max (tb_bucket b) bucket_inc) in
    let added_tokens_at_inc := default 0 (tokens_to_duration bucket_inc (tb_rate b)) in
    added ← expect (instant_checked_add (added_tokens_at b) added_tokens_at_inc);
    _ ← debug_assert (added <=? now);
    Ok (mkBucket (tb_rate b) (tb_bucket_max b) bucket added,
        if (old_bucket =? 0) && negb (bucket =? 0) then NonEmptyYes else NonEmptyNo).

Definition adjust {E} (now : Z) (config : TokenBucketConfig) (b : TokenBucket) :
    res E TokenBucket :=
  '(b, _) ← refill now b;
  Ok (mkBucket (cf_rate config) (cf_bucket_max config)
        (Z.min (tb_bucket b) (cf_bucket_max config)) (Z.max (added_tokens_at b) now)).

Definition tokens_available_at (tokens : Z) (b : TokenBucket) : res NeverEnoughTokensError Z :=
  let tokens_needed := saturating_sub tokens (tb_bucket b) in
  if tokens_needed =? 0 then Ok (added_tokens_at b)
  else if tb_rate b =? 0 then Err ZeroRate
  else if tb_bucket_max b <? tokens then Err ExceedsMaxTokens
  else
    time_needed ← ok_or (tokens_to_duration tokens_needed (tb_rate b)) ZeroRate;
    let time_needed := Z.max time_needed (from_micros 1) in
    ok_or (instant_checked_add (added_tokens_at b) time_needed) InstantNotRepresentable.
End clock.

(** ** Conversions *)

Definition bucket_wf (b : TokenBucket) : Prop :=
  in_uint u64_max (tb_rate b) ∧ in_uint u64_max (tb_bucket_max b) ∧
  0 ≤ tb_bucket b ≤ tb_bucket_max b.

(** The tokens of a time, converted back, take at least their share of the rate and no more
    than that time. *)
Lemma duration_token_round_trip time rate :
  0 ≤ time → in_uint u64_max rate →
  let n := duration_to_tokens time rate in
  let d := default 0 (tokens_to_duration n rate) in
  0 ≤ n ∧ 0 ≤ d ≤ time ∧ n * 1000000000 ≤ rate * d.
Proof.
  intros Ht Hr n d. pose proof (as_micros_le time Ht) as [Hm0 Hm].
  set (us := sat_cast u64_max (as_micros time)).
  assert (Hus : 0 ≤ us ≤ as_micros time) by (unfold us, sat_cast, u64_max; lia).
  unfold in_uint in Hr. assert (Hn : n = Z.min (rate * us) u64_max / 1000000) by done.
  assert (Hp : 0 ≤ rate * us) by nia.
  pose proof (Z.mul_div_le (Z.min (rate * us) u64_max) 1000000 ltac:(lia)) as Hle.
  assert (Hn0 : 0 ≤ n) by (rewrite Hn; apply Z.div_pos; [unfold u64_max|]; lia).
  split; [done|]. unfold d, tokens_to_duration. destruct (Z.eqb_spec rate 0) as [->|Hne].
  - simpl. rewrite Hn. simpl. lia.
  - simpl. unfold saturating_mul, from_micros. rewrite Z.min_l by lia.
    pose proof (div_ceil_spec (n * 1000000) rate ltac:(lia)) as Hc.
    pose proof (div_ceil_le (n * 1000000) rate us ltac:(lia) ltac:(lia)) as Hc'.
    assert (0 ≤ div_ceil (n * 1000000) rate) by nia.
    change (1000 * 1000) with 1000000. nia.
Qed.

(** ** Refilling *)

Section refill.
Context (instant_max : Z).

Lemma refill_ok {E} now b :
  bucket_wf b → added_tokens_at b ≤ now ≤ instant_max →
  ∃ b' f, refill (E:=E) instant_max now b = Ok (b', f) ∧ bucket_wf b' ∧
    tb_rate b' = tb_rate b ∧ tb_bucket_max b' = tb_bucket_max b ∧
    added_tokens_at b ≤ added_tokens_at b' ≤ now ∧ tb_bucket b ≤ tb_bucket b' ∧
    (tb_bucket b' - tb_bucket b) * 1000000000
      ≤ tb_rate b * (added_tokens_at b' - added_tokens_at b).
Proof.
  intros (Hr & Hm & Hb) Hnow. unfold refill.
  set (elapsed := saturating_duration_since now (added_tokens_at b)).
  assert (He : elapsed = now - added_tokens_at b)
    by (unfold elapsed, saturating_duration_since; lia).
  destruct (IGNORE_THRESHOLD <? elapsed).
  { eexists _, _. split; [done|]. simpl. unfold bucket_wf, in_uint in *. simpl.
    split_and!; try done; lia || nia. }
  pose proof (duration_token_round_trip elapsed (tb_rate b) ltac:(lia) Hr) as (Hn & Hd & Hrate).
  set (n := duration_to_tokens elapsed (tb_rate b)) in *.
  set (d := default 0 (tokens_to_duration n (tb_rate b))) in *.
  unfold instant_checked_add. rewrite (proj2 (Z.leb_le _ instant_max)) by lia. cbn [expect].
  rewrite ok_bind, (proj2 (Z.leb_le _ now)) by lia. cbn [debug_assert]. rewrite ok_bind.
  eexists _, _. split; [done|]. unfold bucket_wf, in_uint, saturating_add in *. simpl.
  split_and!; try done; lia || nia.
Qed.
End refill.

(** ** Claims *)

Lemma drop_committed {E} b : 0 ≤ tb_bucket b → drop_claim (E:=E) (mkClaim b 0) = Ok b.
Proof.
  intros. unfold drop_claim, commit_impl, checked_sub. simpl.
  rewrite (proj2 (Z.leb_le _ _)) by lia. simpl. rewrite Z.sub_0_r. by destruct b.
Qed.

Lemma commit_ok {E} b n :
  0 ≤ n ≤ tb_bucket b →
  commit (E:=E) (mkClaim b n) =
    Ok (set_bucket (tb_bucket b - n) b, if 0 <? tb_bucket b - n then EmptyNo else EmptyYes).
Proof.
  intros Hn. unfold commit, commit_impl, checked_sub. simpl.
  rewrite (proj2 (Z.leb_le _ _)) by lia. simpl. by rewrite drop_committed by (simpl; lia).
Qed.

(** ** Runs *)

(** Refill at a time, or claim [n] tokens, reduce the claim to [m] and commit it. *)
Inductive BucketOp : Type := OpRefill (now : Z) | OpClaim (n m : Z).

(** The bucket and the number of tokens taken so far.  A refused claim takes nothing; a refused
    reduction discards the claim. *)
Definition bucket_op (instant_max : Z) (op : BucketOp) (s : TokenBucket * Z) :
    res InsufficientTokensError (TokenBucket * Z) :=
  let '(b, taken) := s in
  match op with
  | OpRefill now => '(b, _) ← refill instant_max now b; Ok (b, taken)
  | OpClaim n m =>
      match claim n b with
      | Ok c =>
          match reduce m c with
          | Ok c' => '(b, _) ← commit c'; Ok (b, taken + cl_count c')
          | Err _ => b ← discard c; Ok (b, taken)
          | Panic => Panic
          end
      | Err _ => Ok (b, taken)
      | Panic => Panic
      end
  end.

Fixpoint bucket_run (instant_max : Z) (ops : list BucketOp) (s : TokenBucket * Z) :
    res InsufficientTokensError (TokenBucket * Z) :=
  match ops with
  | [] => Ok s
  | op :: ops => s ← bucket_op instant_max op s; bucket_run instant_max ops s
  end.

(** The operations happen between [t] and [tend], in order; counts are not negative. *)
Fixpoint ops_between (t tend : Z) (ops : list BucketOp) : Prop :=
  match ops with
  | [] => t ≤ tend
  | OpRefill now :: ops => t ≤ now ∧ ops_between now tend ops
  | OpClaim n m :: ops => 0 ≤ n ∧ 0 ≤ m ∧ ops_between t tend ops
  end.

Lemma claim_op_ok instant_max n m b taken :
  bucket_wf b → 0 ≤ n → 0 ≤ m →
  ∃ k, bucket_op instant_max (OpClaim n m) (b, taken)
         = Ok (set_bucket (tb_bucket b - k) b, taken + k) ∧ 0 ≤ k ≤ tb_bucket b.
Proof.
  intros (_ & _ & Hb) Hn Hm. unfold bucket_op, claim.
  assert (Hsame : b = set_bucket (tb_bucket b - 0) b) by (rewrite Z.sub_0_r; by destruct b).
  destruct (tb_bucket b <? n) eqn:Hc; zify_bool.
  { exists 0. rewrite <-Hsame, Z.add_0_r. split; [done|lia]. }
  unfold reduce. simpl. destruct (n <? m) eqn:Hr; zify_bool.
  - unfold discard. rewrite drop_committed by (simpl; lia). rewrite ok_bind.
    exists 0. simpl. rewrite <-Hsame, Z.add_0_r. split; [done|lia].
  - rewrite commit_ok by lia. exists m. split; [done|lia].
Qed.

Lemma ops_between_le t tend ops : ops_between t tend ops → t ≤ tend.
Proof.
  revert t. induction ops as [|[now|n m] ops IH]; simpl; intros t H; [done| |].
  - destruct H as [? H]. specialize (IH _ H). lia.
  - destruct H as (_ & _ & H). auto.
Qed.

Lemma bucket_run_ok instant_max t0 M ops b taken t tend :
  bucket_wf b → tend ≤ instant_max → added_tokens_at b ≤ t → ops_between t tend ops →
  taken * 1000000000 + tb_bucket b * 1000000000
    ≤ M * 1000000000 + tb_rate b * (added_tokens_at b - t0) →
  ∃ b' taken', bucket_run instant_max ops (b, taken) = Ok (b', taken') ∧ bucket_wf b' ∧
    added_tokens_at b' ≤ tend ∧
    taken' * 1000000000 + tb_bucket b' * 1000000000
      ≤ M * 1000000000 + tb_rate b * (added_tokens_at b' - t0).
Proof.
  intros Hwf Hend. revert b taken t Hwf.
  induction ops as [|op ops IH]; intros b taken t Hwf Ht Hops Hinv.
  { simpl in *. eexists _, _. split; [done|]. split_and!; [done..|lia|done]. }
  destruct op as [now|n m]; cbn [ops_between bucket_run] in *.
  - destruct Hops as [Hn Hops].
    pose proof (ops_between_le _ _ _ Hops).
    destruct (refill_ok (E:=InsufficientTokensError) instant_max now b Hwf)
      as (b' & f & Hb' & Hwf' & Hr & _ & Ha & _ & Hg); [lia|].
    unfold bucket_op. rewrite Hb', !ok_bind.
    destruct (IH b' taken now Hwf' ltac:(lia) Hops) as (b2 & k2 & H2 & H3 & H4 & H5); [rewrite Hr; lia|].
    rewrite Hr in H5. eauto 10.
  - destruct Hops as (Hn & Hm & Hops).
    destruct (claim_op_ok instant_max n m b taken Hwf Hn Hm) as (k & -> & Hk). rewrite ok_bind.
    apply (IH (set_bucket (tb_bucket b - k) b) (taken + k) t); simpl; [|done|done|lia].
    destruct Hwf as (? & ? & ?). unfold bucket_wf. simpl. split_and!; try done; lia.
Qed.

(** C14: the rate limit holds.  Starting from a new bucket, any sequence of refills at
    nondecreasing times and of claims, reduced or not, runs without a panic and takes at most
    the burst plus the rate times the elapsed time in tokens. *)
Theorem token_bucket_rate_limit instant_max config t0 tend ops :
  in_uint u64_max (cf_rate config) → in_uint u64_max (cf_bucket_max config) →
  tend ≤ instant_max → ops_between t0 tend ops →
  ∃ b taken, bucket_run instant_max ops (TokenBucket_new config t0, 0) = Ok (b, taken) ∧
    0 ≤ tb_bucket b ≤ tb_bucket_max b ∧
    taken * 1000000000 ≤ cf_bucket_max config * 1000000000 + cf_rate config * (tend - t0).
Proof.
  intros Hr Hm Hend Hops.
  destruct (bucket_run_ok instant_max t0 (cf_bucket_max config) ops (TokenBucket_new config t0) 0 t0 tend)
    as (b & k & Hrun & (_ & _ & Hb) & Ha & Hi); simpl; try done; try lia.
  { unfold bucket_wf, in_uint in *. simpl. lia. }
  exists b, k. split; [done|]. split; [done|]. simpl in Hi. unfold in_uint in *. nia.
Qed.

Lemma token_bucket_rate_limit_witness :
  let config := mkConfig 100 10 in
  let ops := [OpClaim 10 10; OpRefill 52000000; OpClaim 5 4; OpRefill 70000000; OpClaim 3 2] in
  ∃ b taken, bucket_run 1000000000000 ops (TokenBucket_new config 0, 0) = Ok (b, taken) ∧
    taken = 16 ∧ taken * 1000000000 ≤ 10 * 1000000000 + 100 * (70000000 - 0).
Proof.
  intros config ops.
  destruct (token_bucket_rate_limit 1000000000000 config 0 70000000 ops) as (b & k & H & _ & Hk);
    [vm_compute; split; discriminate..|vm_compute; discriminate|vm_compute; repeat split; discriminate|].
  exists b, k. split; [exact H|]. split; [|exact Hk]. vm_compute in H. by injection H.
Defined.

(** the time that [tokens_available_at] returns is late enough: refilling then or later
    gives the tokens asked for, as long as neither 64-bit product saturates and the clock did
    not jump past the ignore threshold. *)
Theorem tokens_available_at_sufficient instant_max tokens b t now :
  bucket_wf b → 0 ≤ tokens → tokens * 1000000 ≤ u64_max →
  tokens_available_at instant_max tokens b = Ok t →
  t ≤ now → added_tokens_at b ≤ now ≤ instant_max → now - added_tokens_at b ≤ IGNORE_THRESHOLD →
  tb_rate b * as_micros (now - added_tokens_at b) ≤ u64_max →
  ∃ b' f, refill (E:=InsufficientTokensError) instant_max now b = Ok (b', f) ∧
    tokens ≤ tb_bucket b'.
Proof.
  intros Hwf Htok Hsat Hat Ht Hnow Hthr Hprod.
  destruct (refill_ok (E:=InsufficientTokensError) instant_max now b Hwf Hnow)
    as (b' & f & Hb' & _ & _ & _ & _ & Hge & _).
  exists b', f. split; [done|]. unfold tokens_available_at, saturating_sub in Hat.
  destruct (Z.eqb_spec (Z.max (tokens - tb_bucket b) 0) 0) as [|Hneed]; [lia|].
  destruct (Z.eqb_spec (tb_rate b) 0) as [|Hr0]; [done|].
  destruct (tb_bucket_max b <? tokens) eqn:Hmax; [done|]. zify_bool.
  unfold tokens_to_duration in Hat. rewrite (proj2 (Z.eqb_neq _ _) Hr0) in Hat. simpl in Hat.
  unfold instant_checked_add in Hat.
  destruct Hwf as (Hr & Hm & Hb). unfold in_uint in Hr, Hm. unfold from_micros in Hat.
  rewrite (Z.max_l (tokens - tb_bucket b)) in Hat by lia.
  unfold saturating_mul in Hat. rewrite Z.min_l in Hat by nia.
  change (1000 * 1000) with 1000000 in Hat.
  set (u := div_ceil ((tokens - tb_bucket b) * 1000000) (tb_rate b)) in Hat.
  pose proof (div_ceil_spec ((tokens - tb_bucket b) * 1000000) (tb_rate b) ltac:(lia)) as Hu.
  fold u in Hu. destruct (_ <=? instant_max); [|done]. injection Hat as <-.
  set (e := now - added_tokens_at b) in *.
  assert (Heu : u ≤ as_micros e) by (unfold as_micros; apply Z.div_le_lower_bound; lia).
  assert (Hinc : tokens - tb_bucket b ≤ duration_to_tokens e (tb_rate b)).
  { unfold duration_to_tokens, saturating_mul, sat_cast.
    assert (as_micros e ≤ u64_max).
    { unfold IGNORE_THRESHOLD, u32_max, u64_max, as_micros in *.
      apply Z.div_le_upper_bound; [lia|]. change (4294967295 / 4) with 1073741823 in Hthr. lia. }
    rewrite (Z.min_l (as_micros e)), Z.min_l by lia.
    apply Z.div_le_lower_bound; [lia|]. nia. }
  unfold refill, saturating_duration_since in Hb'. rewrite Z.max_l in Hb' by lia.
  fold e in Hb'. rewrite (proj2 (Z.ltb_ge _ _)) in Hb' by lia. ok_inv. simplify_eq. simpl.
  unfold saturating_add. lia.
Qed.

Lemma tokens_available_at_sufficient_witness :
  let b := mkBucket 100 10 2 0 in
  tokens_available_at 1000000000000 7 b = Ok 50000000 ∧
  ∃ b' f, refill (E:=InsufficientTokensError) 1000000000000 50000000 b = Ok (b', f) ∧
    7 ≤ tb_bucket b'.
Proof.
  intros b. split; [reflexivity|].
  apply (tokens_available_at_sufficient 1000000000000 7 b 50000000 50000000);
    vm_compute; repeat split; discriminate.
Defined.

(** changing the configuration is not retroactive: [adjust] keeps the bucket within the
    new maximum, and what a later refill adds is bounded by the new rate times the time since
    the change. *)
Theorem adjust_not_retroactive instant_max config b now later :
  bucket_wf b → in_uint u64_max (cf_rate config) → in_uint u64_max (cf_bucket_max config) →
  added_tokens_at b ≤ now → now ≤ later ≤ instant_max →
  ∃ b' b2 f, adjust (E:=InsufficientTokensError) instant_max now config b = Ok b' ∧
    tb_bucket b' ≤ cf_bucket_max config ∧
    refill (E:=InsufficientTokensError) instant_max later b' = Ok (b2, f) ∧
    (tb_bucket b2 - tb_bucket b') * 1000000000 ≤ cf_rate config * (later - now).
Proof.
  intros Hwf Hr Hm Ha Hl. unfold adjust.
  destruct (refill_ok (E:=InsufficientTokensError) instant_max now b Hwf ltac:(lia))
    as (b1 & f1 & -> & (_ & _ & Hb1) & _ & _ & Ha1 & _). rewrite ok_bind.
  rewrite Z.max_r by lia.
  set (b' := mkBucket (cf_rate config) (cf_bucket_max config) _ now).
  assert (Hwf' : bucket_wf b').
  { unfold bucket_wf. simpl. unfold in_uint in *. split_and!; lia. }
  destruct (refill_ok (E:=InsufficientTokensError) instant_max later b' Hwf' ltac:(simpl; lia))
    as (b2 & f2 & H2 & _ & _ & _ & Ha2 & _ & Hg).
  exists b', b2, f2. split; [done|]. split; [simpl; lia|]. split; [done|].
  simpl in Hg, Ha2. unfold b'. simpl. unfold in_uint in Hr. nia.
Qed.

Lemma adjust_not_retroactive_witness :
  let b := mkBucket 0 10 0 0 in
  ∃ b' b2 f, adjust (E:=InsufficientTokensError) 1000000000000 9000000000 (mkConfig 100 50) b = Ok b' ∧
    tb_bucket b' ≤ 50 ∧
    refill (E:=InsufficientTokensError) 1000000000000 9020000000 b' = Ok (b2, f) ∧
    (tb_bucket b2 - tb_bucket b') * 1000000000 ≤ 100 * (9020000000 - 9000000000).
Proof.
  intros b. apply (adjust_not_retroactive 1000000000000 (mkConfig 100 50) b 9000000000 9020000000);
    vm_compute; repeat split; discriminate.
Defined.

(** A time before the last added token is not tolerated: the assertion at the end of [refill]
    fails, although [adjust] takes the later of the two times. *)
Theorem refill_earlier_time_panics :
  refill (E:=InsufficientTokensError) 1000000000000 5 (TokenBucket_new (mkConfig 1 1) 10) = Panic.
Proof. reflexivity. Qed.
