(* ===== verification/CircMap.v ===== *)
(** * CircMap: the circuits of a channel

    [tor-proto/src/channel/circmap.rs] and [client/circuit/halfcirc.rs], and the part of the
    channel reactor ([channel/reactor.rs]) that uses them: allocating a circuit, delivering
    RELAY, CREATED and DESTROY cells, closing a circuit.  The senders and the padding controller
    of an entry are opaque handles.  The cells a handler hands to a circuit or to the peer are
    recorded in a log; whether the receiving end of a circuit still listens is an argument.  An
    error makes the reactor shut the channel down. *)

From S2P Require Import Prelude Bytes Codec RelayMsg RelayCell Sendme.

(** ** HalfCirc *)

Record HalfCirc : Type := mkHalfCirc { allow_relay_cells : Z }.

Definition HalfCirc_new (total_windows : Z) : HalfCirc := mkHalfCirc total_windows.

Definition receive_cell (h : HalfCirc) : res ProtoError HalfCirc :=
  match checked_sub (allow_relay_cells h) 1 with
  | Some n => Ok (mkHalfCirc n)
  | None => Err (ChanProto "Too many cells received on destroyed circuit")
  end.

(** ** Circuit map *)

Inductive CircIdRange : Type := Low | High.

Inductive CircEnt : Type :=
| Opening (create_response_sender cell_sender padding_ctrl : Z)
| Open (cell_sender padding_ctrl : Z)
| DestroySent (hs : HalfCirc).

Definition is_open_ent (e : CircEnt) : bool :=
  match e with DestroySent _ => false | _ => true end.

Record CircMap : Type := mkCircMap {
  cm_m : gmap Z CircEnt;
  cm_range : CircIdRange;
  open_count : Z }.

Definition CircMap_new (idrange : CircIdRange) : CircMap := mkCircMap ∅ idrange 0.

Definition midpoint : Z := 2147483648.

(** The identifiers that [CircIdRange::sample] can return. *)
Definition in_range (r : CircIdRange) (id : Z) : Prop :=
  match r with Low => 1 ≤ id < midpoint | High => midpoint ≤ id ≤ u32_max end.

Definition N_ATTEMPTS : nat := 16.

(** The first of the sampled identifiers that is vacant. *)
Fixpoint first_vacant (m : gmap Z CircEnt) (ids : list Z) : option Z :=
  match ids with
  | [] => None
  | id :: ids => match m !! id with None => Some id | Some _ => first_vacant m ids end
  end.

(** [samples] are the identifiers the random generator yields. *)
Definition add_ent (samples : list Z) (createdsink sink padding_ctrl : Z) (c : CircMap) :
    res ProtoError (CircMap * Z) :=
  match first_vacant (cm_m c) (take N_ATTEMPTS samples) with
  | Some id =>
      n ← uadd usize_max (open_count c) 1;
      Ok (mkCircMap (<[id := Opening createdsink sink padding_ctrl]> (cm_m c)) (cm_range c) n, id)
  | None => Err IdRangeFull
  end.

(** Dropping the exclusive reference that [get_mut] returned, after the entry was changed. *)
Definition drop_mut_ent (id : Z) (was_open : bool) (ent : CircEnt) (c : CircMap) : CircMap :=
  let n := match was_open, is_open_ent ent with
           | false, true => saturating_add usize_max (open_count c) 1
           | true, false => saturating_sub (open_count c) 1
           | _, _ => open_count c
           end in
  mkCircMap (<[id := ent]> (cm_m c)) (cm_range c) n.

Definition advance_from_opening (id : Z) (c : CircMap) : res ProtoError (CircMap * Z) :=
  match cm_m c !! id with
  | Some (Opening oneshot sink padding_ctrl) =>
      Ok (mkCircMap (<[id := Open sink padding_ctrl]> (delete id (cm_m c))) (cm_range c)
            (open_count c), oneshot)
  | _ => Err (ChanProto "Unexpected CREATED* cell not on opening circuit")
  end.

Definition destroy_sent (id : Z) (hs : HalfCirc) (c : CircMap) : CircMap :=
  let n := match cm_m c !! id with
           | Some replaced =>
               if is_open_ent replaced then saturating_sub (open_count c) 1 else open_count c
           | None => open_count c
           end in
  mkCircMap (<[id := DestroySent hs]> (cm_m c)) (cm_range c) n.

Definition cm_remove (id : Z) (c : CircMap) : CircMap * option CircEnt :=
  match cm_m c !! id with
  | Some removed =>
      (mkCircMap (delete id (cm_m c)) (cm_range c)
         (if is_open_ent removed then saturating_sub (open_count c) 1 else open_count c),
       Some removed)
  | None => (c, None)
  end.

Definition open_ent_count (c : CircMap) : Z := open_count c.

(** ** Timestamps

    [AtomicOptTimestamp] of [util/ts.rs]: a tick count, zero when unset. *)

Definition AtomicOptTimestamp_new : Z := 0.
Definition update_to (now latest : Z) : Z := Z.max latest now.
Definition update_if_none (now latest : Z) : Z := if latest =? 0 then now else latest.
Definition ts_clear (_latest : Z) : Z := 0.
Definition time_since_update_at (now earlier : Z) : option Z :=
  if (earlier <=? now) && negb (earlier =? 0) then Some (now - earlier) else None.

(** ** The channel reactor *)

(** Channel messages; a body is an opaque handle. *)
Inductive AnyChanMsg : Type :=
| MPadding | MVpadding
| MCreate (b : Z) | MCreateFast (b : Z) | MCreate2 (b : Z)
| MCreated (b : Z) | MCreatedFast (b : Z) | MCreated2 (b : Z)
| MRelay (b : Z) | MRelayEarly (b : Z) | MDestroy (b : Z)
| MNetinfo (b : Z) | MVersions (b : Z) | MPaddingNegotiate (b : Z)
| MCerts (b : Z) | MAuthChallenge (b : Z) | MAuthenticate (b : Z)
| MUnrecognized (b : Z).

(** [CreateResponse]: the messages that can answer a CREATE cell. *)
Inductive CreateResponse : Type :=
| CRDestroy (b : Z)
| CRCreatedFast (b : Z)
| CRCreated2 (b : Z).

Definition create_response_try_from (m : AnyChanMsg) : res ProtoError CreateResponse :=
  match m with
  | MDestroy b => Ok (CRDestroy b)
  | MCreatedFast b => Ok (CRCreatedFast b)
  | MCreated2 b => Ok (CRCreated2 b)
  | _ => Err (ChanProto "Got a message in response to circuit creation")
  end.

(** What a handler hands on. *)
Inductive Delivery : Type :=
| ToCircuit (id cell_sender : Z) (msg : AnyChanMsg)
| ToPending (id create_response_sender : Z) (msg : CreateResponse)
| DestroyToPeer (id : Z).

(** What the surroundings answer during one event: the coarse clock, whether the receiving half
    of the circuit's queue is still there, whether the output sink takes a cell. *)
Record Env : Type := mkEnv { env_now : Z; env_accepts : bool; env_output : bool }.

Record ChanReactor : Type := mkChan {
  ch_circs : CircMap;
  ch_unused_since : Z;
  ch_log : list Delivery }.

(** The reactor of a channel that we initiated. *)
Definition ChanReactor_new (now : Z) : ChanReactor :=
  mkChan (CircMap_new High) (update_to now AtomicOptTimestamp_new) [].

Definition update_disused_since (now : Z) (r : ChanReactor) : ChanReactor :=
  mkChan (ch_circs r)
    (if open_ent_count (ch_circs r) =? 0 then update_if_none now (ch_unused_since r)
     else ts_clear (ch_unused_since r))
    (ch_log r).

Definition push_log (d : Delivery) (r : ChanReactor) : ChanReactor :=
  mkChan (ch_circs r) (ch_unused_since r) (ch_log r ++ [d]).

Definition set_circs (c : CircMap) (r : ChanReactor) : ChanReactor :=
  mkChan c (ch_unused_since r) (ch_log r).

(** The new state, and what is sent back on [tx]. *)
Definition allocate_circuit (e : Env) (samples : list Z) (created_sender sender padding_ctrl : Z)
    (r : ChanReactor) : res ProtoError (ChanReactor * option Z) :=
  match add_ent samples created_sender sender padding_ctrl (ch_circs r) with
  | Ok (c, id) => Ok (update_disused_since (env_now e) (set_circs c r), Some id)
  | Err _ => Ok (update_disused_since (env_now e) r, None)
  | Panic => Panic
  end.

Definition outbound_destroy_circ (e : Env) (id : Z) (r : ChanReactor) :
    res ProtoError ChanReactor :=
  let r := set_circs (destroy_sent id (HalfCirc_new 3000) (ch_circs r)) r in
  let r := update_disused_since (env_now e) r in
  if env_output e then Ok (push_log (DestroyToPeer id) r) else Err ChanIoErr.

Definition deliver_relay (e : Env) (circid : option Z) (msg : AnyChanMsg) (r : ChanReactor) :
    res ProtoError ChanReactor :=
  match circid with
  | None => Err (ChanProto "Relay cell without circuit ID")
  | Some circid =>
      match cm_m (ch_circs r) !! circid with
      | None => Err (ChanProto "Relay cell on nonexistent circuit")
      | Some (Open s p) =>
          let r := set_circs (drop_mut_ent circid true (Open s p) (ch_circs r)) r in
          if env_accepts e then Ok (push_log (ToCircuit circid s msg) r)
          else outbound_destroy_circ e circid r
      | Some (Opening _ _ _) =>
          Err (ChanProto "Relay cell on pending circuit before CREATED* received")
      | Some (DestroySent hs) =>
          hs ← receive_cell hs;
          Ok (set_circs (drop_mut_ent circid false (DestroySent hs) (ch_circs r)) r)
      end
  end.

Definition deliver_created (e : Env) (circid : option Z) (msg : AnyChanMsg) (r : ChanReactor) :
    res ProtoError ChanReactor :=
  match circid with
  | None => Err (ChanProto "'Created' cell without circuit ID")
  | Some circid =>
      '(c, target) ← advance_from_opening circid (ch_circs r);
      created ← create_response_try_from msg;
      if env_accepts e then Ok (push_log (ToPending circid target created) (set_circs c r))
      else Err (Internal "Circuit queue rejected created message. Is it closing?")
  end.

Definition deliver_destroy (e : Env) (circid : option Z) (msg : AnyChanMsg) (r : ChanReactor) :
    res ProtoError ChanReactor :=
  match circid with
  | None => Err (ChanProto "'Destroy' cell without circuit ID")
  | Some circid =>
      let '(c, entry) := cm_remove circid (ch_circs r) in
      let r := update_disused_since (env_now e) (set_circs c r) in
      match entry with
      | Some (Opening sender _ _) =>
          response ← create_response_try_from msg;
          if env_accepts e then Ok (push_log (ToPending circid sender response) r)
          else Err (Internal "pending circuit wasn't interested in destroy cell?")
      | Some (Open sender _) =>
          if env_accepts e then Ok (push_log (ToCircuit circid sender msg) r)
          else Err (Internal "open circuit wasn't interested in destroy cell?")
      | Some (DestroySent _) => Ok r
      | None => Err (ChanProto "Destroy for nonexistent circuit")
      end
  end.

#[global] Arguments deliver_relay : simpl never.
#[global] Arguments deliver_created : simpl never.
#[global] Arguments deliver_destroy : simpl never.

Definition handle_cell (e : Env) (circid : option Z) (msg : AnyChanMsg) (r : ChanReactor) :
    res ProtoError ChanReactor :=
  match msg with
  | MRelay _ => deliver_relay e circid msg r
  | MDestroy _ => deliver_destroy e circid msg r
  | MCreatedFast _ | MCreated2 _ => deliver_created e circid msg r
  | MPadding | MVpadding => Ok r
  | _ => Err (ChanProto "Unexpected cell")
  end.

(** The control messages that concern circuits, and the cells from the peer. *)
Inductive ChanEvent : Type :=
| CloseCircuit (id : Z)
| AllocateCircuit (samples : list Z) (created_sender sender padding_ctrl : Z)
| CellFromPeer (circid : option Z) (msg : AnyChanMsg).

Definition handle_event (e : Env) (ev : ChanEvent) (r : ChanReactor) :
    res ProtoError ChanReactor :=
  match ev with
  | CloseCircuit id => outbound_destroy_circ e id r
  | AllocateCircuit samples cs s p =>
      '(r, _) ← allocate_circuit e samples cs s p r; Ok r
  | CellFromPeer circid msg => handle_cell e circid msg r
  end.

Fixpoint chan_run (evs : list (Env * ChanEvent)) (r : ChanReactor) : res ProtoError ChanReactor :=
  match evs with
  | [] => Ok r
  | (e, ev) :: evs => r ← handle_event e ev r; chan_run evs r
  end.

(** ** Invariant *)

(** The number of open and opening circuits. *)
Definition count_open (m : gmap Z CircEnt) : nat := size (filter (λ e, is_open_ent e.2 = true) m).

Lemma count_open_insert m id e :
  count_open (<[id := e]> m) =
    (count_open (delete id m) + if is_open_ent e then 1 else 0)%nat.
Proof.
  unfold count_open. rewrite <-insert_delete_eq. destruct (is_open_ent e) eqn:He.
  - rewrite map_filter_insert_True by done. rewrite map_size_insert_None; [lia|].
    apply map_lookup_filter_None. left. apply lookup_delete_eq.
  - rewrite map_filter_insert_False by (simpl; congruence). rewrite delete_delete_eq. lia.
Qed.

Lemma count_open_delete m id :
  count_open m =
    (count_open (delete id m) + match m !! id with
                                | Some e => if is_open_ent e then 1 else 0
                                | None => 0 end)%nat.
Proof.
  destruct (m !! id) as [e|] eqn:He.
  - rewrite <-(insert_id m id e) at 1 by done. apply count_open_insert.
  - rewrite delete_id by done. lia.
Qed.

(** The counter is the number of open and opening circuits; identifiers are nonzero 32-bit
    integers; a closed circuit has at most the allowance it was closed with. *)
Definition ent_wf (id : Z) (e : CircEnt) : Prop :=
  1 ≤ id ≤ u32_max ∧ match e with DestroySent h => 0 ≤ allow_relay_cells h ≤ 3000 | _ => True end.

Definition circmap_wf (c : CircMap) : Prop :=
  open_count c = Z.of_nat (count_open (cm_m c)) ∧ map_Forall ent_wf (cm_m c).

(** The channel counts as unused exactly when it has no open or opening circuit. *)
Definition chan_inv (r : ChanReactor) : Prop :=
  circmap_wf (ch_circs r) ∧ (ch_unused_since r ≠ 0 ↔ count_open (cm_m (ch_circs r)) = 0%nat).

Lemma count_open_bounded c : circmap_wf c → Z.of_nat (count_open (cm_m c)) ≤ u32_max.
Proof.
  intros [_ Hwf]. trans (Z.of_nat (size (cm_m c))).
  - apply Nat2Z.inj_le. unfold count_open. rewrite <-!size_dom.
    apply subseteq_size, dom_filter_subseteq.
  - apply size_bounded; [done|]. intros id x Hx. apply (Hwf _ _ Hx).
Qed.

Lemma first_vacant_some m ids id :
  first_vacant m ids = Some id → id ∈ ids ∧ m !! id = None.
Proof.
  induction ids as [|i ids IH]; simpl; [done|].
  destruct (m !! i) eqn:Hi; [intros [? ?]%IH|intros [= <-]]; by rewrite elem_of_cons; auto.
Qed.

Lemma first_vacant_none m ids : first_vacant m ids = None → ∀ id, id ∈ ids → is_Some (m !! id).
Proof.
  induction ids as [|i ids IH]; simpl; [by intros _ id ?%elem_of_nil|].
  destruct (m !! i) eqn:Hi; [|done]. intros H id [->|?]%elem_of_cons; eauto.
Qed.

(** *** Every operation of the map preserves the invariant *)

Lemma insert_wf c id e n :
  circmap_wf c → ent_wf id e →
  n = Z.of_nat (count_open (<[id := e]> (cm_m c))) →
  circmap_wf (mkCircMap (<[id := e]> (cm_m c)) (cm_range c) n).
Proof. intros [_ Hm] He Hn. split; [done|]. by apply map_Forall_insert_2. Qed.

Lemma add_ent_total samples cs s p c :
  circmap_wf c →
  add_ent samples cs s p c =
    match first_vacant (cm_m c) (take N_ATTEMPTS samples) with
    | Some id => Ok (mkCircMap (<[id := Opening cs s p]> (cm_m c)) (cm_range c) (open_count c + 1), id)
    | None => Err IdRangeFull
    end.
Proof.
  intros Hc. unfold add_ent. destruct (first_vacant _ _); [|done].
  pose proof (count_open_bounded c Hc). destruct Hc as [-> _].
  by rewrite uadd_ok by (unfold usize_max, u64_max, u32_max in *; lia).
Qed.

Lemma add_ent_wf samples cs s p c c' id :
  circmap_wf c → Forall (λ i, 1 ≤ i ≤ u32_max) samples →
  add_ent samples cs s p c = Ok (c', id) → circmap_wf c'.
Proof.
  intros Hc Hs. rewrite add_ent_total by done.
  destruct (first_vacant _ _) as [i|] eqn:Hv; [|done].
  apply first_vacant_some in Hv as [Hin Hv]. intros [= <- <-].
  apply insert_wf; [done|split; [|done]|].
  - rewrite Forall_forall in Hs. apply Hs. by eapply subseteq_take.
  - destruct Hc as [-> _].
    rewrite count_open_insert, (count_open_delete _ i), Hv. simpl. lia.
Qed.

Lemma destroy_sent_wf id h c :
  circmap_wf c → ent_wf id (DestroySent h) → circmap_wf (destroy_sent id h c).
Proof.
  intros Hc He. apply insert_wf; [done..|]. destruct Hc as [-> _].
  rewrite count_open_insert, (count_open_delete (cm_m c) id). unfold saturating_sub.
  destruct (cm_m c !! id) as [e|]; [destruct (is_open_ent e)|]; simpl; lia.
Qed.

Lemma drop_mut_ent_wf id e e' c :
  circmap_wf c → cm_m c !! id = Some e → ent_wf id e' → is_open_ent e' = is_open_ent e →
  circmap_wf (drop_mut_ent id (is_open_ent e) e' c).
Proof.
  intros Hc Hid He' Heq. unfold drop_mut_ent. rewrite Heq. apply insert_wf; [done..|].
  destruct Hc as [-> _]. rewrite count_open_insert, (count_open_delete (cm_m c) id), Hid, Heq.
  by destruct (is_open_ent e).
Qed.

Lemma advance_wf id c c' o :
  circmap_wf c → advance_from_opening id c = Ok (c', o) → circmap_wf c'.
Proof.
  unfold advance_from_opening. intros Hc H.
  destruct (cm_m c !! id) as [[]|] eqn:Hid; simplify_eq.
  rewrite insert_delete_eq. apply insert_wf; [done|split; [|done]|].
  - by apply Hc in Hid as [? _].
  - destruct Hc as [-> _]. rewrite count_open_insert, (count_open_delete _ id), Hid. done.
Qed.

Lemma remove_wf id c : circmap_wf c → circmap_wf (cm_remove id c).1.
Proof.
  intros [Hn Hm]. unfold cm_remove. destruct (cm_m c !! id) as [e|] eqn:Hid; [|done].
  split; simpl; [|by apply map_Forall_delete].
  rewrite Hn, (count_open_delete (cm_m c) id), Hid. unfold saturating_sub.
  destruct (is_open_ent e); lia.
Qed.

(** *** The reactor preserves the invariant *)

Lemma update_disused_inv now r :
  0 < now → circmap_wf (ch_circs r) → chan_inv (update_disused_since now r).
Proof.
  intros Hnow Hc. split; [done|]. simpl. unfold open_ent_count, update_if_none, ts_clear.
  destruct Hc as [-> _]. destruct (Z.eqb_spec (Z.of_nat (count_open (cm_m (ch_circs r)))) 0);
    [destruct (Z.eqb_spec (ch_unused_since r) 0)|]; lia.
Qed.

(** Replacing a circuit's entry without opening or closing it. *)
Lemma set_circs_inv c r :
  chan_inv r → circmap_wf c → open_count c = open_count (ch_circs r) → chan_inv (set_circs c r).
Proof.
  intros [[Hn _] Hu] Hc Heq. split; [done|]. simpl.
  pose proof (proj1 Hc). replace (count_open (cm_m c)) with (count_open (cm_m (ch_circs r))); lia || done.
Qed.

Definition env_ok (e : Env) : Prop := 0 < env_now e.

Definition event_ok (ev : ChanEvent) : Prop :=
  match ev with
  | CloseCircuit id => 1 ≤ id ≤ u32_max
  | AllocateCircuit samples _ _ _ => Forall (λ i, 1 ≤ i ≤ u32_max) samples
  | CellFromPeer _ _ => True
  end.

Lemma outbound_destroy_inv e id r r' :
  env_ok e → chan_inv r → 1 ≤ id ≤ u32_max →
  outbound_destroy_circ e id r = Ok r' → chan_inv r'.
Proof.
  intros He [Hc _] Hid. unfold outbound_destroy_circ. destruct (env_output e); [|done].
  intros [= <-]. apply (update_disused_inv _ _ He). by apply destroy_sent_wf.
Qed.

Lemma deliver_relay_inv e circid msg r r' :
  env_ok e → chan_inv r → deliver_relay e circid msg r = Ok r' → chan_inv r'.
Proof.
  intros He Hr. unfold deliver_relay. destruct circid as [id|]; [|done].
  destruct (cm_m (ch_circs r) !! id) as [[|s p|h]|] eqn:Hid; try done.
  all: pose proof (proj2 (proj1 Hr) _ _ Hid) as [Hrange Hh].
  - assert (chan_inv (set_circs (drop_mut_ent id true (Open s p) (ch_circs r)) r)) as Hr'.
    { apply set_circs_inv; [done| |done].
      by apply (drop_mut_ent_wf _ (Open s p)); [apply Hr|..]. }
    destruct (env_accepts e); [by intros [= <-]|]. by apply outbound_destroy_inv.
  - unfold receive_cell, checked_sub. destruct (Z.leb_spec 1 (allow_relay_cells h)); [|done].
    intros [= <-]. apply set_circs_inv; [done| |done].
    apply (drop_mut_ent_wf _ (DestroySent h)); [apply Hr|done|split; simpl; lia|done].
Qed.

Lemma deliver_created_inv e circid msg r r' :
  chan_inv r → deliver_created e circid msg r = Ok r' → chan_inv r'.
Proof.
  intros Hr. unfold deliver_created. destruct circid as [id|]; [|done].
  intros H. apply bind_ok in H as ([c o] & Ha & H). ok_inv.
  destruct (env_accepts e); simplify_eq. apply (set_circs_inv c r); [done| |].
  - by eapply advance_wf; [apply Hr|].
  - unfold advance_from_opening in Ha. destruct (cm_m (ch_circs r) !! id) as [[]|]; by simplify_eq.
Qed.

Lemma deliver_destroy_inv e circid msg r r' :
  env_ok e → chan_inv r → deliver_destroy e circid msg r = Ok r' → chan_inv r'.
Proof.
  intros He Hr. unfold deliver_destroy. destruct circid as [id|]; [|done].
  pose proof (remove_wf id (ch_circs r) (proj1 Hr)) as Hwf.
  destruct (cm_remove id (ch_circs r)) as [c ent]. simpl in Hwf.
  pose proof (update_disused_inv _ (set_circs c r) He Hwf) as Hinv.
  destruct ent as [[]|]; intros H; ok_inv; repeat case_match; by simplify_eq.
Qed.

Lemma handle_event_inv e ev r r' :
  env_ok e → event_ok ev → chan_inv r → handle_event e ev r = Ok r' → chan_inv r'.
Proof.
  intros He Hev Hr. destruct ev as [id|samples cs s p|circid msg]; simpl.
  - by apply outbound_destroy_inv.
  - unfold allocate_circuit.
    destruct (add_ent _ _ _ _ _) as [[c id]|err|] eqn:Ha; intros [= <-];
      apply update_disused_inv; try done; [|apply Hr].
    by eapply add_ent_wf; [apply Hr|..].
  - destruct msg; simpl; try done; eauto using deliver_relay_inv, deliver_created_inv,
      deliver_destroy_inv; by intros [= <-].
Qed.

Lemma handle_event_no_panic e ev r : chan_inv r → handle_event e ev r ≠ Panic.
Proof.
  intros [Hc _]. destruct ev as [id|samples cs s p|circid msg]; simpl.
  - unfold outbound_destroy_circ. by case_match.
  - unfold allocate_circuit. rewrite add_ent_total by done. by destruct (first_vacant _ _).
  - destruct msg; simpl; try done;
      unfold deliver_relay, deliver_created, deliver_destroy, outbound_destroy_circ,
        advance_from_opening, receive_cell, cm_remove; by repeat (case_match; simpl; simplify_eq).
Qed.

Lemma chan_run_inv evs r :
  chan_inv r → Forall (λ x, env_ok x.1 ∧ event_ok x.2) evs →
  match chan_run evs r with Ok r' => chan_inv r' | Err _ => True | Panic => False end.
Proof.
  intros Hr Hevs. revert r Hr. induction Hevs as [|[e ev] evs [He Hev] _ IH]; intros r Hr; [done|].
  simpl. pose proof (handle_event_no_panic e ev r Hr) as Hp.
  destruct (handle_event e ev r) as [r'| |] eqn:H; simpl; [|done..].
  by eapply IH, handle_event_inv.
Qed.

Lemma new_inv now : 0 < now → chan_inv (ChanReactor_new now).
Proof.
  intros. split; [by split; [|apply map_Forall_empty]|]. simpl.
  unfold update_to, AtomicOptTimestamp_new. split; [done|lia].
Qed.

(** C15: however circuits are allocated, closed by us or destroyed by the peer, a channel never
    panics; while it runs, its counter is the number of open and opening circuits, and its
    disuse timestamp is set exactly when there is none, so a channel in use never looks expired
    and one without circuits always has an age. *)
Theorem channel_usage_invariant (now : Z) (evs : list (Env * ChanEvent)) :
  0 < now → Forall (λ x, env_ok x.1 ∧ event_ok x.2) evs →
  match chan_run evs (ChanReactor_new now) with
  | Ok r => open_ent_count (ch_circs r) = Z.of_nat (count_open (cm_m (ch_circs r))) ∧
            (ch_unused_since r ≠ 0 ↔ count_open (cm_m (ch_circs r)) = 0%nat)
  | Err _ => True
  | Panic => False
  end.
Proof.
  intros Hnow Hevs. pose proof (chan_run_inv evs _ (new_inv now Hnow) Hevs) as H.
  destruct (chan_run _ _); [|done..]. split; apply H.
Qed.

(** A circuit is opened, answered, used and destroyed by the peer; our side then closes it. *)
Definition example_env : Env := mkEnv 7 true true.
Definition example_run : list (Env * ChanEvent) :=
  [ (example_env, AllocateCircuit [2147483650] 11 12 13);
    (example_env, CellFromPeer (Some 2147483650) (MCreated2 0));
    (example_env, CellFromPeer (Some 2147483650) (MRelay 1));
    (example_env, CellFromPeer (Some 2147483650) (MDestroy 2));
    (example_env, CloseCircuit 2147483650) ].

Lemma channel_usage_invariant_witness :
  match chan_run example_run (ChanReactor_new 5) with
  | Ok r => open_ent_count (ch_circs r) = Z.of_nat (count_open (cm_m (ch_circs r))) ∧
            (ch_unused_since r ≠ 0 ↔ count_open (cm_m (ch_circs r)) = 0%nat)
  | Err _ => True
  | Panic => False
  end.
Proof.
  apply (channel_usage_invariant 5 example_run); [lia|].
  repeat constructor; unfold env_ok, u32_max; simpl; lia.
Defined.

(** After the peer's DESTROY removed a circuit, the CLOSE that dropping the circuit always sends
    puts an entry for it back, and sends the peer a DESTROY for a circuit it has forgotten. *)
Lemma close_after_destroy_leaves_entry :
  match chan_run example_run (ChanReactor_new 5) with
  | Ok r => cm_m (ch_circs r) !! 2147483650 = Some (DestroySent (HalfCirc_new 3000)) ∧
            last (ch_log r) = Some (DestroyToPeer 2147483650)
  | _ => False
  end.
Proof. vm_compute. done. Qed.

(** allocating a circuit picks one of the first sixteen samples, in the channel's range and
    not in use; the new entry is the only change to the map.  It fails only when all sixteen are
    taken, and never panics. *)
Theorem add_ent_fresh (samples : list Z) (cs s p : Z) (c : CircMap) :
  circmap_wf c → Forall (in_range (cm_range c)) samples →
  match add_ent samples cs s p c with
  | Ok (c', id) => id ∈ take N_ATTEMPTS samples ∧ in_range (cm_range c) id ∧
                   cm_m c !! id = None ∧ cm_m c' = <[id := Opening cs s p]> (cm_m c) ∧
                   open_ent_count c' = open_ent_count c + 1
  | Err err => err = IdRangeFull ∧
               ∀ id, id ∈ take N_ATTEMPTS samples → is_Some (cm_m c !! id)
  | Panic => False
  end.
Proof.
  intros Hc Hs. rewrite add_ent_total by done.
  destruct (first_vacant _ _) as [id|] eqn:Hv.
  - apply first_vacant_some in Hv as [Hin Hv]. split_and!; try done.
    rewrite Forall_forall in Hs. apply Hs. by eapply subseteq_take.
  - split; [done|]. by apply first_vacant_none.
Qed.

Lemma add_ent_fresh_witness :
  ∃ c' id, add_ent [2147483649; 2147483650] 1 2 3
             (mkCircMap {[2147483649 := Open 4 5]} High 1) = Ok (c', id) ∧
           id ∈ take N_ATTEMPTS [2147483649; 2147483650].
Proof.
  pose proof (add_ent_fresh [2147483649; 2147483650] 1 2 3
                (mkCircMap {[2147483649 := Open 4 5]} High 1)) as H.
  destruct (add_ent _ _ _ _ _) as [[c' id]|err|] eqn:Hr; [|vm_compute in Hr; discriminate..].
  exists c', id. split; [done|]. apply H.
  - split; [by vm_compute|]. apply map_Forall_singleton. by vm_compute.
  - repeat constructor; unfold midpoint, u32_max; simpl; lia.
Defined.

(** *** A closed circuit *)

(** The event is a RELAY cell on circuit [id]. *)
Definition relay_on (id : Z) (ev : ChanEvent) : bool :=
  match ev with CellFromPeer (Some i) (MRelay _) => i =? id | _ => false end.

(** We close circuit [id]. *)
Definition closing_on (id : Z) (ev : ChanEvent) : bool :=
  match ev with CloseCircuit i => i =? id | _ => false end.

(** The peer destroys circuit [id]. *)
Definition peer_destroys (id : Z) (ev : ChanEvent) : bool :=
  match ev with CellFromPeer (Some i) (MDestroy _) => i =? id | _ => false end.

(** What has been handed to circuit [id]. *)
Definition recipient (d : Delivery) : option Z :=
  match d with ToCircuit i _ _ | ToPending i _ _ => Some i | DestroyToPeer _ => None end.

Definition handed_to (id : Z) (log : list Delivery) : list Delivery :=
  filter (λ d, recipient d = Some id) log.

Definition count_events (p : ChanEvent → bool) (evs : list (Env * ChanEvent)) : Z :=
  sumZ (map (λ x, if p x.2 then 1 else 0) evs).
Definition relays_on (id : Z) (evs : list (Env * ChanEvent)) : Z := count_events (relay_on id) evs.
Definition closings (id : Z) (evs : list (Env * ChanEvent)) : Z := count_events (closing_on id) evs.

(** What a handler that is not about the closed circuit [id] leaves unchanged. *)
Definition closed_with (id : Z) (n : Z) (handed : list Delivery) (r : ChanReactor) : Prop :=
  cm_m (ch_circs r) !! id = Some (DestroySent (mkHalfCirc n)) ∧ handed_to id (ch_log r) = handed.

Lemma handed_to_app id log d : handed_to id (log ++ [d]) = handed_to id log ++ handed_to id [d].
Proof. apply filter_app. Qed.

Lemma outbound_destroy_closed e id i n hd r r' :
  closed_with id n hd r → i ≠ id → outbound_destroy_circ e i r = Ok r' → closed_with id n hd r'.
Proof.
  intros [Hm Hh] Hi. unfold outbound_destroy_circ. destruct (env_output e); [|done].
  intros [= <-]. split; simpl; [by rewrite lookup_insert_ne|].
  rewrite handed_to_app, Hh. apply app_nil_r.
Qed.

Lemma push_closed id n hd d r :
  closed_with id n hd r → handed_to id [d] = [] → closed_with id n hd (push_log d r).
Proof. intros [Hm Hh] Hd. split; simpl; [done|]. by rewrite handed_to_app, Hh, Hd, app_nil_r. Qed.

Lemma handed_other_circuit id i s m : i ≠ id → handed_to id [ToCircuit i s m] = [].
Proof. intros. unfold handed_to. rewrite filter_cons_False; [done|]. simpl. congruence. Qed.

Lemma handed_other_pending id i s m : i ≠ id → handed_to id [ToPending i s m] = [].
Proof. intros. unfold handed_to. rewrite filter_cons_False; [done|]. simpl. congruence. Qed.

#[local] Hint Resolve push_closed handed_other_circuit handed_other_pending : arti.

Lemma relay_closed e id i b n hd r r' :
  closed_with id n hd r → deliver_relay e (Some i) (MRelay b) r = Ok r' →
  closed_with id (n - if i =? id then 1 else 0) hd r' ∧ (i = id → 1 ≤ n).
Proof.
  intros Hr. unfold deliver_relay. destruct (Z.eqb_spec i id) as [->|Hi].
  - destruct Hr as [Hm Hh]. rewrite Hm. unfold receive_cell, checked_sub. simpl.
    destruct (Z.leb_spec 1 n); [|done]. intros [= <-]. split; [|done].
    split; [apply lookup_insert_eq|done].
  - rewrite Z.sub_0_r. intros H. split; [|done].
    destruct (cm_m (ch_circs r) !! i) as [[|s p|h]|]; ok_inv; try done.
    all: assert (∀ b e', closed_with id n hd (set_circs (drop_mut_ent i b e' (ch_circs r)) r))
           as Hset by (intros; destruct Hr; split; [simpl; by rewrite lookup_insert_ne|done]).
    + destruct (env_accepts e); [ok_inv; auto with arti|].
      by apply (outbound_destroy_closed _ _ _ _ _ _ _ (Hset _ _) Hi H).
    + done.
Qed.

Lemma created_closed e id circid msg n hd r r' :
  closed_with id n hd r → deliver_created e circid msg r = Ok r' → closed_with id n hd r'.
Proof.
  intros Hr. unfold deliver_created, advance_from_opening. destruct circid as [i|]; [|done].
  destruct (cm_m (ch_circs r) !! i) as [[cs s p| |]|] eqn:Hi; try done. intros H. simpl in H. ok_inv.
  destruct (decide (i = id)) as [->|Hne]; [destruct Hr; congruence|].
  destruct (env_accepts e); ok_inv. apply push_closed; [|auto with arti].
  destruct Hr. split; simpl; [|done]. by rewrite insert_delete_eq, lookup_insert_ne.
Qed.

Lemma destroy_closed e id i msg n hd r r' :
  closed_with id n hd r → i ≠ id → deliver_destroy e (Some i) msg r = Ok r' →
  closed_with id n hd r'.
Proof.
  intros Hr Hi. unfold deliver_destroy, cm_remove.
  assert (∀ k, closed_with id n hd (update_disused_since (env_now e)
            (set_circs (mkCircMap (delete i (cm_m (ch_circs r))) (cm_range (ch_circs r)) k) r)))
    as Hset by (intros; destruct Hr; split; simpl; [by rewrite lookup_delete_ne|done]).
  destruct (cm_m (ch_circs r) !! i) as [[]|]; intros H; ok_inv; try done;
    destruct (env_accepts e); ok_inv; auto with arti.
Qed.

Lemma allocate_closed e id samples cs s p n hd r r' o :
  closed_with id n hd r → allocate_circuit e samples cs s p r = Ok (r', o) →
  closed_with id n hd r'.
Proof.
  intros [Hm Hh]. unfold allocate_circuit, add_ent.
  destruct (first_vacant _ _) as [i|] eqn:Hv; [|by intros [= <- _]].
  apply first_vacant_some in Hv as [_ Hv].
  destruct (uadd _ _ _) as [k| |]; simpl; [|by intros [= <- _]|done].
  intros [= <- _]. split; simpl; [|done]. rewrite lookup_insert_ne; congruence.
Qed.

Lemma event_closed e id ev n hd r r' :
  closed_with id n hd r → closing_on id ev = false → peer_destroys id ev = false →
  handle_event e ev r = Ok r' →
  closed_with id (n - if relay_on id ev then 1 else 0) hd r' ∧ (relay_on id ev = true → 1 ≤ n).
Proof.
  intros Hr Hev Hev'. destruct ev as [i|samples cs s p|circid msg]; simpl in *; zify_bool.
  - intros H. rewrite Z.sub_0_r. split; [|done]. by eapply outbound_destroy_closed.
  - intros H. apply bind_ok in H as ([r1 o] & Ha & [= <-]). rewrite Z.sub_0_r.
    split; [|done]. by eapply allocate_closed.
  - destruct circid as [i|]; destruct msg; simpl in *; intros H; try done; ok_inv; zify_bool;
      rewrite ?Z.sub_0_r;
      try (split; [by eauto using created_closed, destroy_closed|done]).
    destruct (relay_closed _ _ _ _ _ _ _ _ Hr H) as [? Hn].
    split; [done|]. intros ?%Z.eqb_eq. auto.
Qed.

Lemma closing_closed e id n hd r r' :
  closed_with id n hd r → outbound_destroy_circ e id r = Ok r' → closed_with id 3000 hd r'.
Proof.
  intros [_ Hh]. unfold outbound_destroy_circ. destruct (env_output e); [|done]. intros [= <-].
  split; simpl; [apply lookup_insert_eq|]. rewrite handed_to_app, Hh. apply app_nil_r.
Qed.

Lemma run_closed id evs n hd r r' :
  closed_with id n hd r → Forall (λ x, peer_destroys id x.2 = false) evs → 0 ≤ n ≤ 3000 →
  chan_run evs r = Ok r' →
  ∃ n', closed_with id n' hd r' ∧ 0 ≤ n' ≤ 3000 ∧ 0 ≤ closings id evs ∧
    relays_on id evs + n' ≤ n + 3000 * closings id evs ∧
    (closings id evs = 0 → n' = n - relays_on id evs).
Proof.
  intros Hr Hevs. unfold relays_on, closings, count_events. revert n r Hr.
  induction Hevs as [|[e ev] evs Hev _ IH]; intros n r Hr Hn H; simpl in *.
  - ok_inv. exists n. split_and!; done || lia.
  - apply bind_ok in H as (r1 & H1 & H). destruct (closing_on id ev) eqn:Hc.
    + destruct ev as [i| |]; simpl in *; try done. zify_bool. subst i.
      destruct (IH 3000 r1 ltac:(by eapply closing_closed) ltac:(lia) H) as (n' & ? & ? & ? & ? & ?).
      exists n'. split_and!; done || lia.
    + destruct (event_closed _ _ _ _ _ _ _ Hr Hc Hev H1) as [Hr1 Hpos].
      destruct (relay_on id ev); [specialize (Hpos eq_refl)|rewrite Z.sub_0_r in Hr1].
      * destruct (IH _ _ Hr1 ltac:(lia) H) as (n' & ? & ? & ? & ? & ?). exists n'. split_and!; done || lia.
      * destruct (IH _ _ Hr1 Hn H) as (n' & ? & ? & ? & ? & ?). exists n'. split_and!; done || lia.
Qed.

(** C24: after we close a circuit, and until the peer acknowledges with a DESTROY, the peer can send
    at most 3000 RELAY cells on it for each time that we close it before the channel fails: each
    closing, such as the one that dropping a circuit adds to the channel's own, starts the
    allowance again.  None of these cells, nor anything else, is handed to the circuit, and its
    identifier is not given to a new circuit.  The peer's DESTROY then frees the identifier, and
    is not handed on either. *)
Theorem closed_circuit_quota (e : Env) (id : Z) (r r1 r2 : ChanReactor)
    (evs : list (Env * ChanEvent)) :
  outbound_destroy_circ e id r = Ok r1 →
  Forall (λ x, peer_destroys id x.2 = false) evs →
  chan_run evs r1 = Ok r2 →
  relays_on id evs ≤ 3000 * (1 + closings id evs) ∧
  (∃ n, cm_m (ch_circs r2) !! id = Some (DestroySent (mkHalfCirc n)) ∧ 0 ≤ n ≤ 3000 ∧
        (closings id evs = 0 → n = 3000 - relays_on id evs)) ∧
  handed_to id (ch_log r2) = handed_to id (ch_log r) ∧
  ∀ e' b, ∃ r3, handle_event e' (CellFromPeer (Some id) (MDestroy b)) r2 = Ok r3 ∧
    cm_m (ch_circs r3) !! id = None ∧ handed_to id (ch_log r3) = handed_to id (ch_log r).
Proof.
  intros H1 Hevs H2.
  assert (closed_with id 3000 (handed_to id (ch_log r)) r1) as Hr1.
  { unfold outbound_destroy_circ in H1. destruct (env_output e); ok_inv.
    split; simpl; [apply lookup_insert_eq|]. rewrite handed_to_app. apply app_nil_r. }
  destruct (run_closed _ _ _ _ _ _ Hr1 Hevs ltac:(lia) H2) as (n & [Hm Hh] & Hn & ? & ? & Hz).
  split_and!; [lia|by exists n|done|]. intros e' b. eexists. simpl.
  unfold deliver_destroy, cm_remove. rewrite Hm. split_and!; [done|apply lookup_delete_eq|done].
Qed.

(** The circuits of a channel with one open circuit, which we close; a RELAY cell follows. *)
Definition example_chan : ChanReactor :=
  mkChan (mkCircMap {[2147483650 := Open 12 13]} High 1) 0 [].
Definition example_late_cells : list (Env * ChanEvent) :=
  [ (example_env, CellFromPeer (Some 2147483650) (MRelay 1));
    (example_env, CellFromPeer (Some 2147483650) (MRelay 2)) ].

Lemma closed_circuit_quota_witness :
  ∃ r1 r2, outbound_destroy_circ example_env 2147483650 example_chan = Ok r1 ∧
    chan_run example_late_cells r1 = Ok r2 ∧
    cm_m (ch_circs r2) !! 2147483650 = Some (DestroySent (mkHalfCirc 2998)).
Proof.
  destruct (outbound_destroy_circ example_env 2147483650 example_chan) as [r1| |] eqn:H1;
    [|vm_compute in H1; discriminate..].
  destruct (chan_run example_late_cells r1) as [r2| |] eqn:H2;
    [|vm_compute in H1; injection H1 as <-; vm_compute in H2; discriminate..].
  exists r1, r2. split_and!; [done..|].
  destruct (closed_circuit_quota _ _ _ _ _ example_late_cells H1 ltac:(by repeat constructor) H2)
    as (_ & (n & Hm & _ & Hn) & _).
  by rewrite Hm, (Hn eq_refl).
Defined.

(** *** Order of deliveries *)

(** Circuit [id] has been told that it was created. *)
Definition is_created (m : CreateResponse) : Prop :=
  match m with CRDestroy _ => False | _ => True end.

Definition told_created (id : Z) (log : list Delivery) : Prop :=
  ∃ p m, ToPending id p m ∈ log ∧ is_created m.

(** Everything handed to an open circuit comes after its creation. *)
Definition created_first (log : list Delivery) : Prop :=
  ∀ l1 l2 id s m, log = l1 ++ ToCircuit id s m :: l2 → told_created id l1.

Definition order_inv (r : ChanReactor) : Prop :=
  created_first (ch_log r) ∧
  ∀ id s p, cm_m (ch_circs r) !! id = Some (Open s p) → told_created id (ch_log r).

Lemma told_created_app id l l' : told_created id l → told_created id (l ++ l').
Proof. intros (p & m & ? & ?). exists p, m. rewrite elem_of_app. auto. Qed.

Lemma created_first_snoc l d :
  created_first l → (∀ id s m, d = ToCircuit id s m → told_created id l) →
  created_first (l ++ [d]).
Proof.
  intros Hl Hd l1 l2 id s m Heq.
  destruct l2 as [|d' l2 _] using rev_ind.
  - apply app_inj_tail in Heq as [-> ->]. eauto.
  - rewrite app_comm_cons, app_assoc in Heq. apply app_inj_tail in Heq as [-> ->]. eauto.
Qed.

(** A handler that opens no circuit, and logs at most one delivery. *)
Lemma order_step r r' :
  order_inv r →
  (∀ id s p, cm_m (ch_circs r') !! id = Some (Open s p) →
             (∃ p', cm_m (ch_circs r) !! id = Some (Open s p')) ∨ told_created id (ch_log r')) →
  (ch_log r' = ch_log r ∨
   ∃ d, ch_log r' = ch_log r ++ [d] ∧
        ∀ id s m, d = ToCircuit id s m → ∃ p, cm_m (ch_circs r) !! id = Some (Open s p)) →
  order_inv r'.
Proof.
  intros [Hl Ho] Hopen Hlog. split.
  - destruct Hlog as [->|(d & -> & Hd)]; [done|]. apply created_first_snoc; [done|].
    intros id s m Heq. destruct (Hd _ _ _ Heq). eauto.
  - intros id s p [[p' H]|?]%Hopen; [|done]. apply Ho in H.
    destruct Hlog as [->|(d & -> & _)]; auto using told_created_app.
Qed.

(** Discharges the lookups of [order_step] in a changed map. *)
Ltac solve_open :=
  intros ? ? ?; simpl; rewrite ?lookup_insert, ?lookup_delete; repeat case_decide;
  intros; simplify_eq; eauto.

Lemma outbound_destroy_order e id r r' :
  order_inv r → outbound_destroy_circ e id r = Ok r' → order_inv r'.
Proof.
  intros Hr. unfold outbound_destroy_circ. destruct (env_output e); [|done]. intros [= <-].
  apply (order_step r); [done|solve_open|]. right. by eexists.
Qed.

Lemma deliver_relay_order e circid m r r' :
  order_inv r → deliver_relay e circid m r = Ok r' → order_inv r'.
Proof.
  intros Hr. unfold deliver_relay. destruct circid as [id|]; [|done].
  destruct (cm_m (ch_circs r) !! id) as [[|s p|h]|] eqn:Hid; [done| | |done].
  - destruct (env_accepts e).
    + intros [= <-]. apply (order_step r); [done|solve_open|]. right.
      eexists. split; [done|]. intros ? ? ? [= -> -> ->]. eauto.
    + apply outbound_destroy_order. apply (order_step r); [done|solve_open|by left].
  - intros H. ok_inv. apply (order_step r); [done|solve_open|by left].
Qed.

Lemma deliver_created_order e circid m r r' :
  order_inv r → (∀ b, m ≠ MDestroy b) → deliver_created e circid m r = Ok r' → order_inv r'.
Proof.
  intros Hr Hm. unfold deliver_created, advance_from_opening. destruct circid as [id|]; [|done].
  destruct (cm_m (ch_circs r) !! id) as [[cs s p| |]|] eqn:Hid; try done. simpl.
  intros H. ok_inv. destruct (env_accepts e); ok_inv.
  apply (order_step r); [done| |right; by eexists].
  intros i s' p'. simpl. destruct (decide (id = i)) as [->|Hne].
  - intros _. right. exists cs, x. rewrite elem_of_app. split; [right; by left|].
    destruct m; simplify_eq/=; [done..|]. by eapply Hm.
  - rewrite lookup_insert_ne, lookup_delete_ne by done. eauto.
Qed.

Lemma deliver_destroy_order e circid m r r' :
  order_inv r → deliver_destroy e circid m r = Ok r' → order_inv r'.
Proof.
  intros Hr. unfold deliver_destroy, cm_remove. destruct circid as [id|]; [|done].
  destruct (cm_m (ch_circs r) !! id) as [[|s p|h]|] eqn:Hid; intros H; ok_inv; try done.
  all: try destruct (env_accepts e); ok_inv; apply (order_step r); try done; try solve_open.
  - right. by eexists.
  - right. eexists. split; [done|]. intros ? ? ? [= -> -> ->]. eauto.
  - by left.
  - by left.
Qed.

Lemma handle_event_order e ev r r' :
  order_inv r → handle_event e ev r = Ok r' → order_inv r'.
Proof.
  intros Hr. destruct ev as [id|samples cs s p|circid msg]; simpl.
  - by apply outbound_destroy_order.
  - unfold allocate_circuit, add_ent. intros H. apply bind_ok in H as ([r1 o] & Ha & [= <-]).
    destruct (first_vacant _ _) as [i|] eqn:Hv; [|by simplify_eq].
    destruct (uadd _ _ _); simplify_eq/=; [|done].
    apply (order_step r); [done|solve_open|by left].
  - destruct msg; simpl; try done;
      solve [ by eauto using deliver_relay_order, deliver_destroy_order
            | by apply deliver_created_order | by intros [= <-] ].
Qed.

(** Nothing is handed to the cell queue of a circuit before the circuit was told that it was
    created: RELAY and DESTROY cells that reach a circuit's queue always come after the CREATED
    cell that opened it. *)
Theorem relay_only_after_created (now : Z) (evs : list (Env * ChanEvent)) (r : ChanReactor)
    (l1 l2 : list Delivery) (id s : Z) (m : AnyChanMsg) :
  chan_run evs (ChanReactor_new now) = Ok r →
  ch_log r = l1 ++ ToCircuit id s m :: l2 →
  ∃ p c, ToPending id p c ∈ l1 ∧ is_created c.
Proof.
  assert (order_inv (ChanReactor_new now)) as Hinit.
  { split; [intros [] ? ? ? ?; done|]. by intros id' ? ?. }
  revert Hinit. generalize (ChanReactor_new now). induction evs as [|[e ev] evs IH]; intros r0 Hr0 H.
  - simpl in H. ok_inv. intros Hlog. by eapply Hr0.
  - simpl in H. apply bind_ok in H as (r1 & H1 & H). eapply IH; [|done].
    by eapply handle_event_order.
Qed.

Lemma relay_only_after_created_witness :
  ∃ r, chan_run example_run (ChanReactor_new 5) = Ok r ∧
       ∃ p c, ToPending 2147483650 p c ∈ [ToPending 2147483650 11 (CRCreated2 0)] ∧ is_created c.
Proof.
  destruct (chan_run example_run (ChanReactor_new 5)) as [r| |] eqn:H;
    [|vm_compute in H; discriminate..].
  exists r. split; [done|].
  apply (relay_only_after_created 5 example_run r _
           [ToCircuit 2147483650 12 (MDestroy 2); DestroyToPeer 2147483650] _ 12 (MRelay 1) H).
  vm_compute in H. injection H as <-. reflexivity.
Defined.
