(* ===== verification/FlowCtrl.v ===== *)
(** * FlowCtrl: flow control of a stream

    [tor-proto/src/stream/flow_ctrl]: the window-based and the XON/XOFF-based flow control that
    the circuit reactor keeps for a stream, the checks against early or frequent XON and XOFF
    messages, and the reader that asks the reactor to resume ([xon_xoff/reader.rs]).  The watched
    rate limit is the value last written; a notification is a flag, since notifications
    coalesce. *)

From S2P Require Import Prelude Bytes Codec RelayMsg RelayCell Sendme.

(** ** Parameters *)

Record FlowCtrlParameters : Type := mkFlowParams {
  cc_xoff_client : Z;
  cc_xoff_exit : Z;
  cc_xon_rate : Z;
  cc_xon_change_pct : Z;
  cc_xon_ewma_cnt : Z }.

(** [CellCount::as_bytes] for each of the two conversion rates. *)
Definition as_bytes {E} (bytes_per_cell cells : Z) : res E Z :=
  umul u64_max cells bytes_per_cell.
Definition xoff_as_bytes {E} (cells : Z) : res E Z :=
  as_bytes (Z.of_nat PAYLOAD_MAX_SIZE_ALL) cells.
Definition xon_as_bytes {E} (cells : Z) : res E Z :=
  as_bytes (Z.of_nat PAYLOAD_MAX_SIZE_ANY) cells.

(** ** Sidechannel mitigations *)

Inductive XonXoff : Type := RecvdXon | RecvdXoff.

Record SidechannelMitigation : Type := mkMitigation {
  last_recvd_xon_xoff : option XonXoff;
  bytes_sent_total : Z;
  bytes_sent_since_recvd_last_advisory_xon : Z;
  bytes_sent_since_recvd_last_xoff : Z }.

Definition SidechannelMitigation_new : SidechannelMitigation := mkMitigation None 0 0 0.

Definition peer_xoff_limit_bytes {E} (params : FlowCtrlParameters) : res E Z :=
  client ← xoff_as_bytes (cc_xoff_client params);
  exit ← xoff_as_bytes (cc_xoff_exit params);
  Ok (Z.min client exit / 2).

Definition peer_xon_limit_bytes {E} (params : FlowCtrlParameters) : res E Z :=
  rate ← xon_as_bytes (cc_xon_rate params); Ok (rate / 2).

Definition sent_stream_data (stream_bytes : Z) (s : SidechannelMitigation) :
    SidechannelMitigation :=
  let stream_bytes := sat_cast u32_max stream_bytes in
  mkMitigation (last_recvd_xon_xoff s)
    (saturating_add u32_max (bytes_sent_total s) stream_bytes)
    (saturating_add u32_max (bytes_sent_since_recvd_last_advisory_xon s) stream_bytes)
    (saturating_add u32_max (bytes_sent_since_recvd_last_xoff s) stream_bytes).

Definition received_xon (params : FlowCtrlParameters) (s : SidechannelMitigation) :
    res ProtoError SidechannelMitigation :=
  if bytes_sent_total s =? 0 then Err (CircProto "Received XON before sending any data")
  else
    let is_advisory := match last_recvd_xon_xoff s with
                       | Some RecvdXon => true
                       | Some RecvdXoff => false
                       | None => true
                       end in
    let s := mkMitigation (Some RecvdXon) (bytes_sent_total s)
               (bytes_sent_since_recvd_last_advisory_xon s)
               (bytes_sent_since_recvd_last_xoff s) in
    if negb is_advisory then Ok s
    else
      xoff_limit ← peer_xoff_limit_bytes params;
      xon_limit ← peer_xon_limit_bytes params;
      let advisory_not_expected_before := Z.min xoff_limit xon_limit in
      if bytes_sent_total s <? advisory_not_expected_before
      then Err (CircProto "Received advisory XON too early")
      else if bytes_sent_since_recvd_last_advisory_xon s <? xon_limit
      then Err (CircProto "Received advisory XON too frequently")
      else Ok (mkMitigation (last_recvd_xon_xoff s) (bytes_sent_total s) 0
                 (bytes_sent_since_recvd_last_xoff s)).

Definition received_xoff (params : FlowCtrlParameters) (s : SidechannelMitigation) :
    res ProtoError SidechannelMitigation :=
  if bytes_sent_total s =? 0 then Err (CircProto "Received XOFF before sending any data")
  else match last_recvd_xon_xoff s with
  | Some RecvdXoff => Err (CircProto "Received consecutive XOFF messages")
  | _ =>
      limit ← peer_xoff_limit_bytes params;
      if bytes_sent_total s <? limit then Err (CircProto "Received XOFF too early")
      else if bytes_sent_since_recvd_last_xoff s <? limit
      then Err (CircProto "Received XOFF too frequently")
      else Ok (mkMitigation (Some RecvdXoff) (bytes_sent_total s)
                 (bytes_sent_since_recvd_last_advisory_xon s) 0)
  end.

(** ** Flow control hooks *)

(** [msg.decode::<M>()] for one message type: the reactor calls it on messages whose command it
    has checked. *)
Definition decode_as {A} (object : string) (proj : AnyRelayMsg → option A)
    (msg : UnparsedRelayMsg) : res ProtoError A :=
  outer ← map_err (BytesErr object) (unparsed_decode msg);
  ok_or (proj (ro_msg outer)) (BytesErr object (InvalidMessage "Expected another command")).

Definition as_sendme (m : AnyRelayMsg) : option Sendme :=
  match m with ASendme x => Some x | _ => None end.
Definition as_xon (m : AnyRelayMsg) : option Xon :=
  match m with AXon x => Some x | _ => None end.
Definition as_xoff (m : AnyRelayMsg) : option Xoff :=
  match m with AXoff x => Some x | _ => None end.

Class FlowCtrlHooks (A : Type) : Type := {
  can_send : AnyRelayMsg → A → bool;
  about_to_send : AnyRelayMsg → A → res ProtoError A;
  put_for_incoming_sendme : UnparsedRelayMsg → A → res ProtoError A;
  handle_incoming_xon : UnparsedRelayMsg → A → res ProtoError A;
  handle_incoming_xoff : UnparsedRelayMsg → A → res ProtoError A;
  maybe_send_xon : XonKbpsEwma → Z → A → res ProtoError (A * option Xon);
  maybe_send_xoff : Z → A → res ProtoError (A * option Xoff) }.

(** *** Windows *)

Record WindowFlowCtrl : Type := mkWindowFlow { wf_window : SendWindow StreamParams }.

Definition window_put_for_incoming_sendme (msg : UnparsedRelayMsg) (f : WindowFlowCtrl) :
    res ProtoError WindowFlowCtrl :=
  _ ← decode_as "failed to decode stream sendme message" as_sendme msg;
  w ← SendWindow_put (wf_window f); Ok (mkWindowFlow w).

#[export] Instance window_flow_ctrl : FlowCtrlHooks WindowFlowCtrl := {
  can_send msg f := negb (cmd_counts_towards_windows (msg_cmd msg)) || (0 <? sw_window (wf_window f));
  about_to_send msg f :=
    if cmd_counts_towards_windows (msg_cmd msg)
    then w ← SendWindow_take (wf_window f); Ok (mkWindowFlow w) else Ok f;
  put_for_incoming_sendme := window_put_for_incoming_sendme;
  handle_incoming_xon _ _ := Err (CircProto "XON messages not allowed with window flow control");
  handle_incoming_xoff _ _ := Err (CircProto "XOFF messages not allowed with window flow control");
  maybe_send_xon _ _ _ := Err (CircProto "XON messages cannot be sent with window flow control");
  maybe_send_xoff _ _ := Err (CircProto "XOFF messages cannot be sent with window flow control") }.

(** *** XON and XOFF *)

Inductive XonXoffMsg : Type := SentXon (rate : XonKbpsEwma) | SentXoff.

Record XonXoffFlowCtrl : Type := mkXonXoff {
  xx_params : FlowCtrlParameters;
  xx_rate_limit : Z;
  xx_drain_requested : bool;
  last_sent_xon_xoff : option XonXoffMsg;
  xoff_limit : Z;
  sidechannel_mitigation : option SidechannelMitigation }.

Definition StreamRateLimit_MAX : Z := u64_max.
Definition StreamRateLimit_ZERO : Z := 0.

Definition XonXoffFlowCtrl_new (params : FlowCtrlParameters) (use_sidechannel_mitigations : bool) :
    XonXoffFlowCtrl :=
  mkXonXoff params StreamRateLimit_MAX false None
    (Z.max (cc_xoff_client params) (cc_xoff_exit params))
    (if use_sidechannel_mitigations then Some SidechannelMitigation_new else None).

Definition set_mitigation (s : option SidechannelMitigation) (f : XonXoffFlowCtrl) :
    XonXoffFlowCtrl :=
  mkXonXoff (xx_params f) (xx_rate_limit f) (xx_drain_requested f) (last_sent_xon_xoff f)
    (xoff_limit f) s.

Definition set_rate (rate : Z) (f : XonXoffFlowCtrl) : XonXoffFlowCtrl :=
  mkXonXoff (xx_params f) rate (xx_drain_requested f) (last_sent_xon_xoff f)
    (xoff_limit f) (sidechannel_mitigation f).

(** [notify] on the drain rate requester. *)
Definition set_drain_requested (b : bool) (f : XonXoffFlowCtrl) : XonXoffFlowCtrl :=
  mkXonXoff (xx_params f) (xx_rate_limit f) b (last_sent_xon_xoff f) (xoff_limit f)
    (sidechannel_mitigation f).

Definition set_last_sent (m : XonXoffMsg) (f : XonXoffFlowCtrl) : XonXoffFlowCtrl :=
  mkXonXoff (xx_params f) (xx_rate_limit f) (xx_drain_requested f) (Some m) (xoff_limit f)
    (sidechannel_mitigation f).

Definition last_was_xoff (f : XonXoffFlowCtrl) : bool :=
  match last_sent_xon_xoff f with Some SentXoff => true | _ => false end.

Definition xonxoff_about_to_send (msg : AnyRelayMsg) (f : XonXoffFlowCtrl) : XonXoffFlowCtrl :=
  match sidechannel_mitigation f, msg with
  | Some s, AData d =>
      set_mitigation (Some (sent_stream_data (Z.of_nat (length (dt_body d))) s)) f
  | _, _ => f
  end.

(** Bytes per second of an XON message. *)
Definition xon_rate_limit {E} (rate : XonKbpsEwma) : res E Z :=
  match rate with
  | Limited rate_kbps => x ← umul u64_max rate_kbps 1000; udiv x 8
  | Unlimited => Ok StreamRateLimit_MAX
  end.

(** Runs a check of the mitigations, if they are enabled. *)
Definition mitigate (check : SidechannelMitigation → res ProtoError SidechannelMitigation)
    (f : XonXoffFlowCtrl) : res ProtoError XonXoffFlowCtrl :=
  match sidechannel_mitigation f with
  | Some s => s ← check s; Ok (set_mitigation (Some s) f)
  | None => Ok f
  end.

Definition xonxoff_handle_incoming_xon (msg : UnparsedRelayMsg) (f : XonXoffFlowCtrl) :
    res ProtoError XonXoffFlowCtrl :=
  xon ← decode_as "failed to decode XON message" as_xon msg;
  if negb (xon_version xon =? 0) then Err (CircProto "Unrecognized XON version")
  else
    f ← mitigate (received_xon (xx_params f)) f;
    rate ← xon_rate_limit (xon_kbps_ewma xon);
    Ok (set_rate rate f).

Definition xonxoff_handle_incoming_xoff (msg : UnparsedRelayMsg) (f : XonXoffFlowCtrl) :
    res ProtoError XonXoffFlowCtrl :=
  xoff ← decode_as "failed to decode XOFF message" as_xoff msg;
  if negb (xoff_version xoff =? 0) then Err (CircProto "Unrecognized XOFF version")
  else
    f ← mitigate (received_xoff (xx_params f)) f;
    Ok (set_rate StreamRateLimit_ZERO f).

Definition xonxoff_maybe_send_xon (rate : XonKbpsEwma) (buffer_len : Z) (f : XonXoffFlowCtrl) :
    res ProtoError (XonXoffFlowCtrl * option Xon) :=
  limit ← xoff_as_bytes (xoff_limit f);
  if limit <? buffer_len then
    _ ← debug_assert (last_was_xoff f);
    Ok (set_drain_requested true f, None)
  else Ok (set_last_sent (SentXon rate) f, Some (mkXon 0 rate)).

Definition xonxoff_maybe_send_xoff (buffer_len : Z) (f : XonXoffFlowCtrl) :
    res ProtoError (XonXoffFlowCtrl * option Xoff) :=
  if last_was_xoff f then Ok (f, None)
  else
    limit ← xoff_as_bytes (xoff_limit f);
    if buffer_len <=? limit then Ok (f, None)
    else Ok (set_drain_requested true (set_last_sent SentXoff f), Some (mkXoff 0)).

#[export] Instance xonxoff_flow_ctrl : FlowCtrlHooks XonXoffFlowCtrl := {
  can_send _ _ := true;
  about_to_send msg f := Ok (xonxoff_about_to_send msg f);
  put_for_incoming_sendme _ _ :=
    Err (CircProto "Stream level SENDME not allowed due to congestion control");
  handle_incoming_xon := xonxoff_handle_incoming_xon;
  handle_incoming_xoff := xonxoff_handle_incoming_xoff;
  maybe_send_xon := xonxoff_maybe_send_xon;
  maybe_send_xoff := xonxoff_maybe_send_xoff }.

(** *** Either of the two *)

Inductive StreamFlowCtrl : Type :=
| WindowBased (f : WindowFlowCtrl)
| XonXoffBased (f : XonXoffFlowCtrl).

Definition new_window (window : SendWindow StreamParams) : StreamFlowCtrl :=
  WindowBased (mkWindowFlow window).
Definition new_xon_xoff (params : FlowCtrlParameters) (use_sidechannel_mitigations : bool) :
    StreamFlowCtrl :=
  XonXoffBased (XonXoffFlowCtrl_new params use_sidechannel_mitigations).

(** Forwards an update to the variant. *)
Definition dispatch (w : WindowFlowCtrl → res ProtoError WindowFlowCtrl)
    (x : XonXoffFlowCtrl → res ProtoError XonXoffFlowCtrl) (f : StreamFlowCtrl) :
    res ProtoError StreamFlowCtrl :=
  match f with
  | WindowBased f => f ← w f; Ok (WindowBased f)
  | XonXoffBased f => f ← x f; Ok (XonXoffBased f)
  end.

Definition dispatch_out {B} (w : WindowFlowCtrl → res ProtoError (WindowFlowCtrl * B))
    (x : XonXoffFlowCtrl → res ProtoError (XonXoffFlowCtrl * B)) (f : StreamFlowCtrl) :
    res ProtoError (StreamFlowCtrl * B) :=
  match f with
  | WindowBased f => '(f, o) ← w f; Ok (WindowBased f, o)
  | XonXoffBased f => '(f, o) ← x f; Ok (XonXoffBased f, o)
  end.

#[export] Instance stream_flow_ctrl : FlowCtrlHooks StreamFlowCtrl := {
  can_send msg f := match f with WindowBased f => can_send msg f | XonXoffBased f => can_send msg f end;
  about_to_send msg := dispatch (about_to_send msg) (about_to_send msg);
  put_for_incoming_sendme msg := dispatch (put_for_incoming_sendme msg) (put_for_incoming_sendme msg);
  handle_incoming_xon msg := dispatch (handle_incoming_xon msg) (handle_incoming_xon msg);
  handle_incoming_xoff msg := dispatch (handle_incoming_xoff msg) (handle_incoming_xoff msg);
  maybe_send_xon rate len := dispatch_out (maybe_send_xon rate len) (maybe_send_xon rate len);
  maybe_send_xoff len := dispatch_out (maybe_send_xoff len) (maybe_send_xoff len) }.

(** ** The receiving end of a stream

    The queue of received data, the reader and the reactor: data arrives and is followed by
    [maybe_send_xoff]; a read takes data off the queue and, when an update is pending and the
    reader finds its buffers empty, sends the reactor a drain rate; the reactor handles it with
    [maybe_send_xon], at a time when more data may have arrived. *)

Record RecvStream : Type := mkRecv {
  rs_flow : XonXoffFlowCtrl;
  rs_buffered : Z;
  pending_drain_rate_update : bool;
  rs_drain_updates : nat }.

Definition RecvStream_new (params : FlowCtrlParameters) (mitigations : bool) : RecvStream :=
  mkRecv (XonXoffFlowCtrl_new params mitigations) 0 false 0.

Inductive RecvEvent : Type :=
| RecvData (stream_data_len : Z)
| PollRead (taken : Z) (is_empty : bool)
| DrainRateUpdate.

Inductive FlowMsg : Type := MsgXon (m : Xon) | MsgXoff (m : Xoff).

(** [XonXoffReader::poll_read], where [taken] bytes leave the queue. *)
Definition poll_read (taken : Z) (is_empty : bool) (s : RecvStream) : res ProtoError RecvStream :=
  let pending := xx_drain_requested (rs_flow s) || pending_drain_rate_update s in
  let flow := set_drain_requested false (rs_flow s) in
  buffered ← usub (rs_buffered s) taken;
  if pending && is_empty
  then Ok (mkRecv flow buffered false (S (rs_drain_updates s)))
  else Ok (mkRecv flow buffered pending (rs_drain_updates s)).

Definition recv_event (ev : RecvEvent) (s : RecvStream) :
    res ProtoError (RecvStream * list FlowMsg) :=
  match ev with
  | RecvData n =>
      buffered ← uadd usize_max (rs_buffered s) n;
      '(f, o) ← maybe_send_xoff buffered (rs_flow s);
      Ok (mkRecv f buffered (pending_drain_rate_update s) (rs_drain_updates s),
          match o with Some m => [MsgXoff m] | None => [] end)
  | PollRead taken is_empty => s ← poll_read taken is_empty s; Ok (s, [])
  | DrainRateUpdate =>
      match rs_drain_updates s with
      | O => Ok (s, [])
      | S k =>
          '(f, o) ← maybe_send_xon Unlimited (rs_buffered s) (rs_flow s);
          Ok (mkRecv f (rs_buffered s) (pending_drain_rate_update s) k,
              match o with Some m => [MsgXon m] | None => [] end)
      end
  end.

Fixpoint recv_run (evs : list RecvEvent) (s : RecvStream) :
    res ProtoError (RecvStream * list FlowMsg) :=
  match evs with
  | [] => Ok (s, [])
  | ev :: evs =>
      '(s, out) ← recv_event ev s;
      '(s, out') ← recv_run evs s;
      Ok (s, out ++ out')
  end.

(** ** What the two ends guarantee *)

Definition flow_params_ok (p : FlowCtrlParameters) : Prop :=
  in_uint u32_max (cc_xoff_client p) ∧ in_uint u32_max (cc_xoff_exit p) ∧
  in_uint u32_max (cc_xon_rate p).

Lemma xoff_as_bytes_ok {E} cells :
  in_uint u32_max cells → xoff_as_bytes (E:=E) cells = Ok (cells * 488).
Proof.
  unfold in_uint. intros [? ?]. unfold xoff_as_bytes, as_bytes. apply umul_ok.
  change (Z.of_nat PAYLOAD_MAX_SIZE_ALL) with 488. unfold u32_max, u64_max in *. lia.
Qed.

Lemma xon_as_bytes_ok {E} cells :
  in_uint u32_max cells → xon_as_bytes (E:=E) cells = Ok (cells * 498).
Proof.
  unfold in_uint. intros [? ?]. unfold xon_as_bytes, as_bytes. apply umul_ok.
  change (Z.of_nat PAYLOAD_MAX_SIZE_ANY) with 498. unfold u32_max, u64_max in *. lia.
Qed.

#[local] Opaque xoff_as_bytes xon_as_bytes.

(** *** Receiving *)

(** The data of each message fits the queue's counter, and a read takes what is there. *)
Fixpoint recv_valid (evs : list RecvEvent) (buffered : Z) : Prop :=
  match evs with
  | [] => True
  | RecvData n :: evs => 0 ≤ n ∧ buffered + n ≤ usize_max ∧ recv_valid evs (buffered + n)
  | PollRead taken _ :: evs => 0 ≤ taken ≤ buffered ∧ recv_valid evs (buffered - taken)
  | DrainRateUpdate :: evs => recv_valid evs buffered
  end.

(** The requests for a drain rate that are on their way: made, noticed by the reader, or answered. *)
Definition requests (s : RecvStream) : nat :=
  (if xx_drain_requested (rs_flow s) then 1 else 0) + (if pending_drain_rate_update s then 1 else 0) +
  rs_drain_updates s.

(** A full queue has been announced, and there is one request after an XOFF and none otherwise. *)
Definition recv_inv (s : RecvStream) : Prop :=
  in_uint u32_max (xoff_limit (rs_flow s)) ∧ 0 ≤ rs_buffered s ∧
  (xoff_limit (rs_flow s) * 488 < rs_buffered s → last_was_xoff (rs_flow s) = true) ∧
  requests s = (if last_was_xoff (rs_flow s) then 1 else 0)%nat.

(** XOFF and XON take turns. *)
Fixpoint alternates (last_xoff : bool) (out : list FlowMsg) : Prop :=
  match out with
  | [] => True
  | MsgXoff _ :: out => last_xoff = false ∧ alternates true out
  | MsgXon _ :: out => last_xoff = true ∧ alternates false out
  end.

(** Whether the last message is an XOFF. *)
Fixpoint ends_xoff (last_xoff : bool) (out : list FlowMsg) : bool :=
  match out with
  | [] => last_xoff
  | MsgXoff _ :: out => ends_xoff true out
  | MsgXon _ :: out => ends_xoff false out
  end.

Lemma alternates_app b l1 l2 :
  alternates b l1 → alternates (ends_xoff b l1) l2 → alternates b (l1 ++ l2).
Proof. revert b. induction l1 as [|[] l1 IH]; simpl; intros b; [done|intros []; auto..]. Qed.

Lemma ends_xoff_app b l1 l2 : ends_xoff b (l1 ++ l2) = ends_xoff (ends_xoff b l1) l2.
Proof. revert b. induction l1 as [|[]]; simpl; auto. Qed.

(** What one step, and so any number of steps, preserves. *)
Definition recv_step_ok (s : RecvStream) (r : res ProtoError (RecvStream * list FlowMsg)) : Prop :=
  ∃ s' out, r = Ok (s', out) ∧ recv_inv s' ∧ alternates (last_was_xoff (rs_flow s)) out ∧
    ends_xoff (last_was_xoff (rs_flow s)) out = last_was_xoff (rs_flow s').

Lemma recv_data_ok n s :
  recv_inv s → 0 ≤ n → rs_buffered s + n ≤ usize_max →
  recv_step_ok s (recv_event (RecvData n) s) ∧
  ∀ s' out, recv_event (RecvData n) s = Ok (s', out) → rs_buffered s' = rs_buffered s + n.
Proof.
  intros (Hlim & Hb & Hfull & Hreq) Hn Hmax. simpl. rewrite uadd_ok by lia.
  unfold xonxoff_maybe_send_xoff. rewrite xoff_as_bytes_ok by done. rewrite !ok_bind. cbn beta.
  destruct (last_was_xoff (rs_flow s)) eqn:Hlast; simpl.
  - split; [|by intros ? ? [= <- <-]]. eexists _, []. split; [done|].
    unfold recv_inv; split_and!; simpl; rewrite ?Hlast; try done; lia.
  - destruct (Z.leb_spec (rs_buffered s + n) (xoff_limit (rs_flow s) * 488)); simpl.
    + split; [|by intros ? ? [= <- <-]]. eexists _, []. split; [done|].
      unfold recv_inv; split_and!; simpl; rewrite ?Hlast; try done; lia.
    + split; [|by intros ? ? [= <- <-]]. eexists _, [_]. split; [done|].
      unfold recv_inv, requests in *; split_and!; simpl; try done; [lia|].
      destruct (xx_drain_requested (rs_flow s)), (pending_drain_rate_update s); simpl in *; lia.
Qed.

Lemma poll_read_ok taken is_empty s :
  recv_inv s → 0 ≤ taken ≤ rs_buffered s →
  recv_step_ok s (recv_event (PollRead taken is_empty) s) ∧
  ∀ s' out, recv_event (PollRead taken is_empty) s = Ok (s', out) →
            rs_buffered s' = rs_buffered s - taken.
Proof.
  intros (Hlim & Hb & Hfull & Hreq) Ht. simpl. unfold poll_read. rewrite usub_ok by lia.
  rewrite !ok_bind. cbn beta. unfold recv_step_ok, recv_inv, requests in *.
  assert (∀ b, last_was_xoff (set_drain_requested b (rs_flow s)) = last_was_xoff (rs_flow s)) as Hl by done.
  destruct (xx_drain_requested (rs_flow s)), (pending_drain_rate_update s), is_empty; simpl.
  all: split; [|by intros ? ? [= <- <-]]; eexists _, []; split; [done|]; simpl; rewrite Hl.
  all: split_and!; try done; try lia; try (intros; apply Hfull; lia).
  all: destruct (last_was_xoff (rs_flow s)); simpl in *; lia.
Qed.

Lemma drain_update_ok s :
  recv_inv s →
  recv_step_ok s (recv_event DrainRateUpdate s) ∧
  ∀ s' out, recv_event DrainRateUpdate s = Ok (s', out) → rs_buffered s' = rs_buffered s.
Proof.
  intros (Hlim & Hb & Hfull & Hreq). simpl. destruct (rs_drain_updates s) as [|k] eqn:Hk.
  - split; [|by intros ? ? [= <- <-]]. eexists _, []. split; [done|].
    unfold recv_inv; split_and!; simpl; done.
  - assert (last_was_xoff (rs_flow s) = true ∧ xx_drain_requested (rs_flow s) = false ∧
            pending_drain_rate_update s = false ∧ k = O) as (Hlast & Hd & Hp & ->).
    { unfold requests in Hreq. rewrite Hk in Hreq.
      destruct (last_was_xoff _), (xx_drain_requested _), (pending_drain_rate_update s); simpl in *;
        split_and!; done || lia. }
    unfold xonxoff_maybe_send_xon. rewrite xoff_as_bytes_ok by done. rewrite !ok_bind. cbn beta.
    unfold recv_step_ok, recv_inv, requests in *. rewrite Hlast.
    destruct (Z.ltb_spec (xoff_limit (rs_flow s) * 488) (rs_buffered s)) as [Hlt|Hge]; simpl.
    + split; [|by intros ? ? [= <- <-]]. eexists _, []. split; [done|].
      assert (last_was_xoff (set_drain_requested true (rs_flow s)) = true) as Hl by done.
      split_and!; simpl; rewrite ?Hl, ?Hp; done.
    + split; [|by intros ? ? [= <- <-]]. eexists _, [_]. split; [done|].
      split_and!; simpl; rewrite ?Hd, ?Hp; try done; lia.
Qed.

Lemma recv_run_ok evs s :
  recv_inv s → recv_valid evs (rs_buffered s) → recv_step_ok s (recv_run evs s).
Proof.
  revert s. induction evs as [|ev evs IH]; intros s Hs Hv.
  { eexists s, []. done. }
  assert (∃ s1 out1, recv_event ev s = Ok (s1, out1) ∧ recv_inv s1 ∧
            alternates (last_was_xoff (rs_flow s)) out1 ∧
            ends_xoff (last_was_xoff (rs_flow s)) out1 = last_was_xoff (rs_flow s1) ∧
            recv_valid evs (rs_buffered s1)) as (s1 & out1 & H1 & Hs1 & Ha1 & He1 & Hv1).
  { destruct ev as [n|t b|]; simpl in Hv.
    - destruct Hv as (? & ? & Hv). destruct (recv_data_ok n s) as [(s1 & o & Hev & ? & ? & ?) Hb]; try done.
      exists s1, o. split_and!; try done. by rewrite (Hb _ _ Hev).
    - destruct Hv as [? Hv]. destruct (poll_read_ok t b s) as [(s1 & o & Hev & ? & ? & ?) Hb]; try done.
      exists s1, o. split_and!; try done. by rewrite (Hb _ _ Hev).
    - destruct (drain_update_ok s) as [(s1 & o & Hev & ? & ? & ?) Hb]; try done.
      exists s1, o. split_and!; try done. by rewrite (Hb _ _ Hev). }
  destruct (IH s1 Hs1 Hv1) as (s2 & out2 & H2 & Hs2 & Ha2 & He2).
  exists s2, (out1 ++ out2). cbn [recv_run]. rewrite H1, ok_bind. cbn beta iota. rewrite H2, ok_bind.
  split_and!; try done; [apply alternates_app; [done|by rewrite He1]|].
  by rewrite ends_xoff_app, He1.
Qed.

Lemma recv_new_inv params mitigations :
  flow_params_ok params → recv_inv (RecvStream_new params mitigations).
Proof.
  unfold flow_params_ok, in_uint. intros (? & ? & ?).
  unfold recv_inv; split_and!; simpl; try done; unfold in_uint; lia.
Qed.

Lemma recv_resumes s :
  recv_inv s → last_was_xoff (rs_flow s) = true →
  ∃ s', recv_run [PollRead (rs_buffered s) true; DrainRateUpdate] s =
          Ok (s', [MsgXon (mkXon 0 Unlimited)]).
Proof.
  intros (Hlim & Hb & _ & Hreq) Hlast. unfold requests in Hreq. rewrite Hlast in Hreq. unfold in_uint in Hlim.
  cbn [recv_run recv_event]. unfold poll_read. rewrite usub_ok, Z.sub_diag by lia.
  rewrite !ok_bind. cbn beta.
  assert (∃ f, (let pending := xx_drain_requested (rs_flow s) || pending_drain_rate_update s in
      if pending && true then Ok (E:=ProtoError) (mkRecv (set_drain_requested false (rs_flow s)) 0 false (S (rs_drain_updates s)))
      else Ok (mkRecv (set_drain_requested false (rs_flow s)) 0 pending (rs_drain_updates s))) =
      Ok (mkRecv f 0 false 1) ∧ xoff_limit f = xoff_limit (rs_flow s)) as (f & Hk & Hf).
  { destruct (xx_drain_requested (rs_flow s)), (pending_drain_rate_update s), (rs_drain_updates s) as [|[]];
      simpl in *; done || lia || (eexists; split; [done|done]). }
  cbv zeta in Hk. rewrite Hk, !ok_bind. simpl. unfold xonxoff_maybe_send_xon.
  rewrite xoff_as_bytes_ok by (unfold in_uint; lia). rewrite !ok_bind. cbn beta.
  rewrite Hf. destruct (Z.ltb_spec (xoff_limit (rs_flow s) * 488) 0); [lia|]. simpl. by eexists.
Qed.

(** C20: the receiving end of a stream with XON/XOFF never fails and never gets stuck.  Whatever
    the order of incoming data, reads and drain rate updates, no assertion fails, and the messages
    sent alternate, XOFF first: no two XOFFs and no two XONs in a row.  The last message sent is an
    XOFF whenever the queue is over its limit; and after an XOFF, once the reader has emptied the
    queue, handling its update sends an XON.  The parameters are [u32]s and the queue does not
    overflow a [usize]. *)
Theorem xoff_always_resumes (params : FlowCtrlParameters) (mitigations : bool)
    (evs : list RecvEvent) :
  flow_params_ok params → recv_valid evs 0 →
  ∃ s out, recv_run evs (RecvStream_new params mitigations) = Ok (s, out) ∧
    alternates false out ∧
    (xoff_limit (rs_flow s) * 488 < rs_buffered s → ends_xoff false out = true) ∧
    (ends_xoff false out = true →
     ∃ s', recv_run [PollRead (rs_buffered s) true; DrainRateUpdate] s =
             Ok (s', [MsgXon (mkXon 0 Unlimited)])).
Proof.
  intros Hp Hv. pose proof (recv_new_inv params mitigations Hp) as Hs.
  destruct (recv_run_ok evs _ Hs Hv) as (s & out & Hrun & Hinv & Ha & He).
  change (last_was_xoff (rs_flow (RecvStream_new params mitigations))) with false in Ha, He.
  exists s, out. rewrite He. split_and!; try done; [apply Hinv|].
  by apply recv_resumes.
Qed.

Definition flow_params_example : FlowCtrlParameters := mkFlowParams 500 500 500 25 2.

(** 980 data messages, read in two halves: the queue is emptied after the first half. *)
Definition example_recv_half : list RecvEvent := replicate 490 (RecvData 498).
Definition example_recv : list RecvEvent :=
  example_recv_half ++ [PollRead 244020 true; DrainRateUpdate] ++ example_recv_half.

Lemma xoff_always_resumes_witness :
  ∃ s out, recv_run example_recv (RecvStream_new flow_params_example true) = Ok (s, out) ∧
    ∃ s', recv_run [PollRead (rs_buffered s) true; DrainRateUpdate] s =
            Ok (s', [MsgXon (mkXon 0 Unlimited)]).
Proof.
  destruct (xoff_always_resumes flow_params_example true example_recv) as (s & out & H & _ & _ & Hr).
  - repeat split; vm_compute; discriminate.
  - vm_compute. repeat split; discriminate.
  - exists s, out. split; [done|]. apply Hr. vm_compute in H. injection H as _ <-. reflexivity.
Defined.

(** *** Sending *)

Inductive PeerEvent : Type := SentData (n : Z) | PeerXon | PeerXoff.

(** The data sent, and the XOFFs and XONs received; an XON is advisory unless an XOFF is the message
    before it. *)
Record Tally : Type := mkTally {
  t_sent : Z;
  t_xoffs : Z;
  t_xons : Z;
  t_advisory : Z;
  t_last : option XonXoff }.
Definition Tally_new : Tally := mkTally 0 0 0 0 None.

Definition count_event (ev : PeerEvent) (t : Tally) : Tally :=
  match ev with
  | SentData n => mkTally (t_sent t + n) (t_xoffs t) (t_xons t) (t_advisory t) (t_last t)
  | PeerXoff => mkTally (t_sent t) (t_xoffs t + 1) (t_xons t) (t_advisory t) (Some RecvdXoff)
  | PeerXon =>
      let advisory := match t_last t with Some RecvdXoff => 0 | _ => 1 end in
      mkTally (t_sent t) (t_xoffs t) (t_xons t + 1) (t_advisory t + advisory) (Some RecvdXon)
  end.

Definition peer_event (params : FlowCtrlParameters) (ev : PeerEvent)
    (st : SidechannelMitigation * Tally) : res ProtoError (SidechannelMitigation * Tally) :=
  let '(s, t) := st in
  s ← match ev with
      | SentData n => Ok (sent_stream_data n s)
      | PeerXoff => received_xoff params s
      | PeerXon => received_xon params s
      end;
  Ok (s, count_event ev t).

Fixpoint peer_run (params : FlowCtrlParameters) (evs : list PeerEvent)
    (st : SidechannelMitigation * Tally) : res ProtoError (SidechannelMitigation * Tally) :=
  match evs with
  | [] => Ok st
  | ev :: evs => st ← peer_event params ev st; peer_run params evs st
  end.

(** The limits in bytes. *)
Definition xoff_limit_of (p : FlowCtrlParameters) : Z :=
  Z.min (cc_xoff_client p * 488) (cc_xoff_exit p * 488) / 2.
Definition xon_limit_of (p : FlowCtrlParameters) : Z := cc_xon_rate p * 498 / 2.

Lemma peer_limits_ok {E} p :
  flow_params_ok p →
  peer_xoff_limit_bytes (E:=E) p = Ok (xoff_limit_of p) ∧
  peer_xon_limit_bytes (E:=E) p = Ok (xon_limit_of p).
Proof.
  intros (? & ? & ?). unfold peer_xoff_limit_bytes, peer_xon_limit_bytes.
  by rewrite !xoff_as_bytes_ok, xon_as_bytes_ok by done.
Qed.

(** Each XOFF, and each advisory XON, was paid for with its limit in sent data, and each XOFF but
    the last has been answered by one XON. *)
Definition tally_inv (p : FlowCtrlParameters) (st : SidechannelMitigation * Tally) : Prop :=
  let '(s, t) := st in
  0 ≤ bytes_sent_total s ≤ t_sent t ∧
  0 ≤ bytes_sent_since_recvd_last_xoff s ∧
  0 ≤ bytes_sent_since_recvd_last_advisory_xon s ∧
  t_xoffs t * xoff_limit_of p + bytes_sent_since_recvd_last_xoff s ≤ t_sent t ∧
  t_advisory t * xon_limit_of p + bytes_sent_since_recvd_last_advisory_xon s ≤ t_sent t ∧
  last_recvd_xon_xoff s = t_last t ∧
  t_xons t + (match t_last t with Some RecvdXoff => 1 | _ => 0 end) = t_advisory t + t_xoffs t ∧
  0 ≤ t_advisory t ∧ 0 ≤ t_xoffs t ∧ (0 < t_xons t + t_xoffs t → 0 < t_sent t).

Lemma peer_event_inv p ev st st' :
  flow_params_ok p → match ev with SentData n => 0 ≤ n | _ => True end →
  tally_inv p st → peer_event p ev st = Ok st' → tally_inv p st'.
Proof.
  intros Hp Hev. destruct (peer_limits_ok (E:=ProtoError) p Hp) as [Hxoff Hxon].
  destruct st as [s t]. intros (Ht & Hx & Ha & Hxt & Hat & Hl & Hc & ? & ? & ?).
  destruct ev as [n| |]; simpl; rewrite <-?Hl in *.
  - intros [= <-]. simpl. unfold saturating_add, sat_cast, u32_max in *. split_and!; done || lia.
  - unfold received_xon. rewrite Hxoff, Hxon. destruct (Z.eqb_spec (bytes_sent_total s) 0); [done|].
    destruct (last_recvd_xon_xoff s) as [[]|]; simpl;
      repeat (case_match; simpl; [done|]); intros [= <-]; simpl in *; zify_bool; split_and!; done || lia.
  - unfold received_xoff. rewrite Hxoff. destruct (Z.eqb_spec (bytes_sent_total s) 0); [done|].
    destruct (last_recvd_xon_xoff s) as [[]|]; simpl; try done;
      repeat (case_match; simpl; [done|]); intros [= <-]; simpl in *; zify_bool; split_and!; done || lia.
Qed.

(** C35: a peer cannot send flow control messages that the data it received could not have
    caused.  As long as the circuit stays up, even when the 32-bit counters saturate: the XOFFs
    received times the XOFF limit, and the advisory XONs received times the XON limit, are at most
    the data sent; every other XON answers an XOFF of its own, so that all XONs together are at
    most the advisory ones and the XOFFs; there is no second XOFF before an XON; and there are
    none of these messages before any data is sent. *)
Theorem flow_messages_paid_for (params : FlowCtrlParameters) (evs : list PeerEvent)
    (s : SidechannelMitigation) (t : Tally) :
  flow_params_ok params →
  Forall (λ ev, match ev with SentData n => 0 ≤ n | _ => True end) evs →
  peer_run params evs (SidechannelMitigation_new, Tally_new) = Ok (s, t) →
  t_xoffs t * xoff_limit_of params ≤ t_sent t ∧ t_advisory t * xon_limit_of params ≤ t_sent t ∧
  t_xons t ≤ t_advisory t + t_xoffs t ≤ t_xons t + 1 ∧ (0 < t_xons t + t_xoffs t → 0 < t_sent t).
Proof.
  intros Hp Hevs Hrun.
  assert (tally_inv params (SidechannelMitigation_new, Tally_new)) as Hinit by (simpl; split_and!; done || lia).
  revert Hrun Hinit. generalize (SidechannelMitigation_new, Tally_new).
  induction Hevs as [|ev evs Hev _ IH]; intros st Hrun Hst; simpl in Hrun.
  - ok_inv. destruct Hst as (? & ? & ? & ? & ? & ? & ? & ? & ? & ?).
    destruct (t_last t) as [[]|]; split_and!; done || lia.
  - apply bind_ok in Hrun as (st1 & H1 & Hrun). eapply IH; [done|]. by eapply peer_event_inv.
Qed.

Lemma flow_messages_paid_for_witness :
  ∃ s t, peer_run flow_params_example [SentData 130000; PeerXoff; PeerXon; SentData 5]
           (SidechannelMitigation_new, Tally_new) = Ok (s, t) ∧
         t_xoffs t * xoff_limit_of flow_params_example ≤ t_sent t.
Proof.
  destruct (peer_run flow_params_example [SentData 130000; PeerXoff; PeerXon; SentData 5]
              (SidechannelMitigation_new, Tally_new)) as [[s t]| |] eqn:H;
    [|vm_compute in H; discriminate..].
  exists s, t. split; [done|].
  apply (flow_messages_paid_for flow_params_example _ s t) in H; [apply H| |].
  - repeat split; vm_compute; discriminate.
  - repeat constructor; lia.
Defined.

(** The check is stricter than that.  A receiver that gets 980 messages empties its queue
    half way and so sends XOFF, XON, XOFF; a sender with the same parameters that had sent all of
    them before the first XOFF arrived rejects the second one, although it sent enough data for
    both. *)
Theorem honest_xoff_rejected :
  (∃ s, recv_run example_recv (RecvStream_new flow_params_example true) =
          Ok (s, [MsgXoff (mkXoff 0); MsgXon (mkXon 0 Unlimited); MsgXoff (mkXoff 0)])) ∧
  peer_run flow_params_example (replicate 980 (SentData 498) ++ [PeerXoff; PeerXon; PeerXoff])
    (SidechannelMitigation_new, Tally_new) = Err (CircProto "Received XOFF too frequently").
Proof. split; [eexists; vm_compute; reflexivity|vm_compute; reflexivity]. Qed.
