(* ===== verification/PollSet.v ===== *)
(** * PollSet: streams with keys and priorities

    [tor-proto/src/util/stream_poll_set.rs] with the parts it is built from:
    [keyed_futures_unordered.rs] and [tunnel_activity.rs].  Keys and priorities are integers, as
    in the stream map.  A stream is any type with [poll_peek] and [poll_next]; a future that
    waits for a stream is the stream itself.  Wakers put keys into the notification queue between
    calls: [wake]. *)

From stdpp Require Import sorting.
From S2P Require Import Prelude.

(** ** Streams *)

Inductive Poll (A : Type) : Type := Ready (a : A) | Pending.
Arguments Ready {A}.
Arguments Pending {A}.

Class PeekableStream (St Item : Type) : Type := {
  poll_peek : St → Poll (option Item);
  poll_next : St → Poll (option Item) * St }.

(** What has been peeked is what is taken. *)
Class PeekableLaws (St Item : Type) `{!PeekableStream St Item} : Prop := {
  peek_then_next s v : poll_peek s = Ready (Some v) → (poll_next s).1 = Ready (Some v) }.

(** ** Tunnel activity *)

Inductive TunnelActivity : Type :=
| NeverUsed
| Disused (since : Z)
| InUse (n_open_streams : Z).

Definition never_used : TunnelActivity := NeverUsed.

Definition n_open_streams (a : TunnelActivity) : Z :=
  match a with NeverUsed | Disused _ => 0 | InUse n => n end.

Definition inc_streams {E} (a : TunnelActivity) : res E TunnelActivity :=
  n ← uadd usize_max (n_open_streams a) 1; Ok (InUse n).

Definition dec_streams {E} (now : Z) (a : TunnelActivity) : res E TunnelActivity :=
  match a with
  | InUse n => n ← usub n 1; Ok (if n =? 0 then Disused now else InUse n)
  | _ => Panic
  end.

Definition disused_since (a : TunnelActivity) : option Z :=
  match a with Disused since => Some since | _ => None end.

(** The derived order: variants in the order of declaration, then their fields. *)
Definition activity_le (a b : TunnelActivity) : bool :=
  match a, b with
  | NeverUsed, _ => true
  | _, NeverUsed => false
  | Disused s, Disused t => s <=? t
  | Disused _, InUse _ => true
  | InUse _, Disused _ => false
  | InUse n, InUse m => n <=? m
  end.

(** ** Keyed futures *)

Record KeyedFutures (St : Type) : Type := mkFutures {
  kf_notifications : list Z;
  kf_futures : gmap Z St }.
Arguments mkFutures {St}.
Arguments kf_notifications {St}.
Arguments kf_futures {St}.

Definition KeyedFutures_new {St} : KeyedFutures St := mkFutures [] ∅.

Definition kf_try_insert {St} (key : Z) (fut : St) (f : KeyedFutures St) :
    option (KeyedFutures St) :=
  match kf_futures f !! key with
  | Some _ => None
  | None => Some (mkFutures (kf_notifications f ++ [key]) (<[key := fut]> (kf_futures f)))
  end.

Definition kf_remove {St} (key : Z) (f : KeyedFutures St) : KeyedFutures St * option St :=
  (mkFutures (kf_notifications f) (delete key (kf_futures f)), kf_futures f !! key).

(** A waker of the future at [key] is called. *)
Definition wake {St} (key : Z) (f : KeyedFutures St) : KeyedFutures St :=
  mkFutures (kf_notifications f ++ [key]) (kf_futures f).

Section futures.
Context {St Item : Type} `{!PeekableStream St Item}.

(** The loop of [poll_next] over the keys that were notified. *)
Fixpoint poll_keys (keys : list Z) (futures : gmap Z St) :
    KeyedFutures St * Poll (option (Z * St)) :=
  match keys with
  | [] => (mkFutures [] futures, Pending)
  | key :: keys =>
      match futures !! key with
      | None => poll_keys keys futures
      | Some fut =>
          match poll_peek fut with
          | Ready _ => (mkFutures keys (delete key futures), Ready (Some (key, fut)))
          | Pending => poll_keys keys futures
          end
      end
  end.

Definition kf_poll_next (f : KeyedFutures St) : KeyedFutures St * Poll (option (Z * St)) :=
  if decide (kf_futures f = ∅) then (f, Ready None)
  else poll_keys (kf_notifications f) (kf_futures f).
End futures.

(** ** The poll set *)

Record StreamPollSet (St : Type) : Type := mkPollSet {
  priorities : gmap Z Z;
  ready_streams : gmap (Z * Z) St;
  pending_streams : KeyedFutures St;
  ps_activity : TunnelActivity }.
Arguments mkPollSet {St}.
Arguments priorities {St}.
Arguments ready_streams {St}.
Arguments pending_streams {St}.
Arguments ps_activity {St}.

Definition StreamPollSet_new {St} : StreamPollSet St :=
  mkPollSet ∅ ∅ KeyedFutures_new never_used.

Inductive KeyAlreadyInsertedError : Type := KeyAlreadyInserted.

Section pollset.
Context {St Item : Type} `{!PeekableStream St Item}.
Implicit Types (ps : StreamPollSet St).

Definition try_insert (key priority : Z) (stream : St) ps :
    res KeyAlreadyInsertedError (StreamPollSet St) :=
  match priorities ps !! key with
  | Some _ => Err KeyAlreadyInserted
  | None =>
      pending ← expect (kf_try_insert key stream (pending_streams ps));
      activity ← inc_streams (ps_activity ps);
      Ok (mkPollSet (<[key := priority]> (priorities ps)) (ready_streams ps) pending activity)
  end.

Definition ps_remove {E} (now key : Z) ps : res E (StreamPollSet St * option (Z * St)) :=
  match priorities ps !! key with
  | None => Ok (ps, None)
  | Some priority =>
      let prio := delete key (priorities ps) in
      activity ← dec_streams now (ps_activity ps);
      let '(pending, removed) := kf_remove key (pending_streams ps) in
      match removed with
      | Some stream =>
          _ ← debug_assert (bool_decide (ready_streams ps !! (priority, key) = None));
          Ok (mkPollSet prio (ready_streams ps) pending activity, Some (priority, stream))
      | None =>
          stream ← expect (ready_streams ps !! (priority, key));
          Ok (mkPollSet prio (delete (priority, key) (ready_streams ps)) pending activity,
              Some (priority, stream))
      end
  end.

(** The loop at the start of [poll_ready_iter_mut]; each round takes a notification. *)
Fixpoint poll_ready {E} (fuel : nat) ps : res E (StreamPollSet St) :=
  match kf_poll_next (pending_streams ps) with
  | (pending, Ready (Some (key, stream))) =>
      match fuel with
      | O => Panic
      | S fuel =>
          priority ← expect (priorities ps !! key);
          _ ← debug_assert (bool_decide (ready_streams ps !! (priority, key) = None));
          poll_ready fuel
            (mkPollSet (priorities ps) (<[(priority, key) := stream]> (ready_streams ps)) pending
               (ps_activity ps))
      end
  | (pending, _) => Ok (mkPollSet (priorities ps) (ready_streams ps) pending (ps_activity ps))
  end.

Definition entry_le (a b : Z * Z * St) : Prop :=
  a.1.1 < b.1.1 ∨ (a.1.1 = b.1.1 ∧ a.1.2 ≤ b.1.2).

#[global] Instance entry_le_dec a b : Decision (entry_le a b).
Proof. unfold entry_le. apply _. Defined.

(** The streams that are ready, as ((priority, key), stream) in ascending order. *)
Definition ready_iter ps : list (Z * Z * St) := merge_sort entry_le (map_to_list (ready_streams ps)).

Definition poll_ready_iter_mut {E} ps : res E (StreamPollSet St * list (Z * Z * St)) :=
  ps ← poll_ready (length (kf_notifications (pending_streams ps))) ps;
  Ok (ps, ready_iter ps).

Definition take_ready_value_and_reprioritize {E} (key new_priority : Z) ps :
    res E (StreamPollSet St * option (Z * Item)) :=
  match priorities ps !! key with
  | None => Ok (ps, None)
  | Some priority =>
      match ready_streams ps !! (priority, key) with
      | None => Ok (ps, None)
      | Some stream =>
          let ready := delete (priority, key) (ready_streams ps) in
          match poll_peek stream with
          | Ready None =>
              Ok (mkPollSet (priorities ps) ready (pending_streams ps) (ps_activity ps), None)
          | Pending =>
              pending ← expect (kf_try_insert key stream (pending_streams ps));
              Ok (mkPollSet (priorities ps) ready pending (ps_activity ps), None)
          | Ready (Some _) =>
              match poll_next stream with
              | (Ready (Some val), stream) =>
                  pending ← expect (kf_try_insert key stream (pending_streams ps));
                  Ok (mkPollSet (<[key := new_priority]> (priorities ps)) ready pending
                        (ps_activity ps), Some (priority, val))
              | _ => Panic
              end
          end
      end
  end.

Definition peek_mut (key : Z) ps : option (Poll (option Item)) :=
  match priorities ps !! key with
  | None => None
  | Some priority =>
      match ready_streams ps !! (priority, key) with
      | None => Some Pending
      | Some peekable => Some (poll_peek peekable)
      end
  end.

(** [stream] and [stream_mut]: the stream at [key]. *)
Definition stream (key : Z) ps : option St :=
  match kf_futures (pending_streams ps) !! key with
  | Some s => Some s
  | None => match priorities ps !! key with
            | None => None
            | Some priority => ready_streams ps !! (priority, key)
            end
  end.

(** The poll set after the stream at [key] is changed through [stream_mut]. *)
Definition update_stream (key : Z) (s : St) ps : StreamPollSet St :=
  match kf_futures (pending_streams ps) !! key with
  | Some _ =>
      mkPollSet (priorities ps) (ready_streams ps)
        (mkFutures (kf_notifications (pending_streams ps))
           (<[key := s]> (kf_futures (pending_streams ps)))) (ps_activity ps)
  | None =>
      match priorities ps !! key with
      | None => ps
      | Some priority =>
          mkPollSet (priorities ps)
            (alter (λ _, s) (priority, key) (ready_streams ps)) (pending_streams ps)
            (ps_activity ps)
      end
  end.

Definition ps_len ps : Z := Z.of_nat (size (priorities ps)).

Definition tunnel_activity {E} ps : res E TunnelActivity :=
  if ps_len ps =? n_open_streams (ps_activity ps) then Ok (ps_activity ps) else Panic.

Definition wake_stream (key : Z) ps : StreamPollSet St :=
  mkPollSet (priorities ps) (ready_streams ps) (wake key (pending_streams ps)) (ps_activity ps).

(** ** Invariant

    Every key has a priority, and its stream is either pending or ready under that priority; the
    activity counts the keys. *)

Definition ps_wf ps : Prop :=
  (∀ k, is_Some (kf_futures (pending_streams ps) !! k) → is_Some (priorities ps !! k)) ∧
  (∀ p k, is_Some (ready_streams ps !! (p, k)) →
     priorities ps !! k = Some p ∧ kf_futures (pending_streams ps) !! k = None) ∧
  (∀ p k, priorities ps !! k = Some p →
     is_Some (kf_futures (pending_streams ps) !! k) ∨ is_Some (ready_streams ps !! (p, k))) ∧
  n_open_streams (ps_activity ps) = Z.of_nat (size (priorities ps)).

(** What the set promises: a map from keys to priorities and streams. *)
Definition contents ps (k : Z) : option (Z * St) :=
  match priorities ps !! k with
  | None => None
  | Some p => match stream k ps with Some s => Some (p, s) | None => None end
  end.

(** *** Facts about keyed futures *)

Lemma poll_keys_spec keys (futures : gmap Z St) f r :
  poll_keys keys futures = (f, r) →
  match r with
  | Pending => kf_futures f = futures
  | Ready None => False
  | Ready (Some (k, s)) =>
      futures !! k = Some s ∧ kf_futures f = delete k futures ∧
      (length (kf_notifications f) < length keys)%nat
  end.
Proof.
  revert f r. induction keys as [|key keys IH]; simpl; intros f r; [by intros [= <- <-]|].
  assert (poll_keys keys futures = (f, r) →
    match r with
    | Pending => kf_futures f = futures
    | Ready None => False
    | Ready (Some (k, s)) =>
        futures !! k = Some s ∧ kf_futures f = delete k futures ∧
        (length (kf_notifications f) < S (length keys))%nat
    end) as Hskip.
  { intros Hq%IH. destruct r as [[[k s]|]|]; [|done..]. destruct Hq as (? & ? & ?). auto with lia. }
  destruct (futures !! key) as [fut|] eqn:Hk; [|done].
  destruct (poll_peek fut); [|done]. intros [= <- <-]. simpl. auto with lia.
Qed.

Lemma kf_poll_spec (f : KeyedFutures St) f' r :
  kf_poll_next f = (f', r) →
  match r with
  | Ready (Some (k, s)) =>
      kf_futures f !! k = Some s ∧ kf_futures f' = delete k (kf_futures f) ∧
      (length (kf_notifications f') < length (kf_notifications f))%nat
  | _ => kf_futures f' = kf_futures f
  end.
Proof.
  unfold kf_poll_next. case_decide; [by intros [= <- <-]|].
  intros Hq%poll_keys_spec. by destruct r as [[[]|]|].
Qed.

Lemma kf_insert_ok key (s : St) f :
  kf_futures f !! key = None →
  kf_try_insert key s f = Some (mkFutures (kf_notifications f ++ [key]) (<[key := s]> (kf_futures f))).
Proof. intros H. unfold kf_try_insert. by rewrite H. Qed.

(** *** The invariant in a form that is easy to use *)

(** Where the stream of a key is. *)
Lemma wf_cases ps k p :
  ps_wf ps → priorities ps !! k = Some p →
  (∃ s, kf_futures (pending_streams ps) !! k = Some s ∧ ready_streams ps !! (p, k) = None) ∨
  (∃ s, kf_futures (pending_streams ps) !! k = None ∧ ready_streams ps !! (p, k) = Some s).
Proof.
  intros (_ & Hr & Hp & _) Hk. destruct (ready_streams ps !! (p, k)) as [s|] eqn:Hs.
  - right. exists s. split; [|done]. eapply Hr. by exists s.
  - left. destruct (Hp _ _ Hk) as [[s Hf]|[s Hf]]; [eauto|congruence].
Qed.

Lemma wf_ready ps k p p' s :
  ps_wf ps → priorities ps !! k = Some p → ready_streams ps !! (p', k) = Some s → p' = p.
Proof. intros (_ & Hr & _) Hk Hs. destruct (Hr p' k); [by exists s|congruence]. Qed.

Lemma wf_absent ps k :
  ps_wf ps → priorities ps !! k = None →
  kf_futures (pending_streams ps) !! k = None ∧ ∀ p, ready_streams ps !! (p, k) = None.
Proof.
  intros (Hf & Hr & _) Hk. split.
  - apply eq_None_not_Some. intros [? ?]%Hf. congruence.
  - intros p. apply eq_None_not_Some. intros [? _]%Hr. congruence.
Qed.

Lemma contents_some ps k p :
  ps_wf ps → priorities ps !! k = Some p → ∃ s, contents ps k = Some (p, s) ∧ stream k ps = Some s.
Proof.
  intros Hwf Hk. unfold contents, stream. rewrite Hk.
  destruct (wf_cases ps k p Hwf Hk) as [(s & -> & _)|(s & -> & ->)]; eauto.
Qed.


(** *** Operations *)

Lemma new_wf : ps_wf StreamPollSet_new.
Proof.
  split_and!; simpl; [by intros k [s ?]|by intros p k [s ?]|by intros p k ?|done].
Qed.

Lemma try_insert_spec key priority s ps :
  ps_wf ps → Z.of_nat (size (priorities ps)) < usize_max →
  match priorities ps !! key with
  | Some _ => try_insert key priority s ps = Err KeyAlreadyInserted
  | None => ∃ ps', try_insert key priority s ps = Ok ps' ∧ ps_wf ps' ∧
                   priorities ps' = <[key := priority]> (priorities ps) ∧
                   contents ps' key = Some (priority, s) ∧
                   ∀ k, k ≠ key → contents ps' k = contents ps k
  end.
Proof.
  intros Hwf Hmax. unfold try_insert. destruct (priorities ps !! key) as [p|] eqn:Hk; [done|].
  destruct (wf_absent ps key Hwf Hk) as [Hfut Hready]. rewrite kf_insert_ok by done. simpl.
  unfold inc_streams. destruct Hwf as (Hf & Hr & Hp & Hn). rewrite uadd_ok by lia. simpl.
  eexists. split; [done|]. split_and!; simpl.
  - split_and!; simpl.
    + intros k. destruct (decide (k = key)) as [->|]; rewrite ?lookup_insert_eq; [by eauto|].
      rewrite !lookup_insert_ne by done. apply Hf.
    + intros p k Hs. destruct (decide (k = key)) as [->|]; [rewrite Hready in Hs; by destruct Hs|].
      rewrite !lookup_insert_ne by done. by apply Hr.
    + intros p k. destruct (decide (k = key)) as [->|]; rewrite ?lookup_insert_eq; [by eauto|].
      rewrite !lookup_insert_ne by done. apply Hp.
    + rewrite map_size_insert_None by done. lia.
  - done.
  - unfold contents, stream. simpl. by rewrite !lookup_insert_eq.
  - intros k Hne. unfold contents, stream. simpl. by rewrite !lookup_insert_ne by done.
Qed.

(** A set without the stream at [key]. *)
Lemma wf_delete key p n a ps :
  ps_wf ps → priorities ps !! key = Some p →
  n_open_streams a = Z.of_nat (size (delete key (priorities ps))) →
  let ps' := mkPollSet (delete key (priorities ps)) (delete (p, key) (ready_streams ps))
               (mkFutures n (delete key (kf_futures (pending_streams ps)))) a in
  ps_wf ps' ∧ contents ps' key = None ∧ ∀ k, k ≠ key → contents ps' k = contents ps k.
Proof.
  intros Hwf Hk Ha ps'. pose proof (λ p' s, wf_ready ps key p p' s Hwf Hk) as Huniq.
  destruct Hwf as (Hf & Hr & Hp & _). split_and!.
  - split_and!; simpl; try done.
    + intros k [s Hs]. destruct (decide (k = key)) as [->|]; [by rewrite lookup_delete_eq in Hs|].
      rewrite lookup_delete_ne in Hs by done. rewrite lookup_delete_ne by done.
      apply Hf. by exists s.
    + intros p' k [s Hs]. apply lookup_delete_Some in Hs as [Hne Hs].
      destruct (decide (k = key)) as [->|]; [apply Huniq in Hs; congruence|].
      rewrite !lookup_delete_ne by done. apply Hr. by exists s.
    + intros p' k. destruct (decide (k = key)) as [->|]; [by rewrite lookup_delete_eq|].
      rewrite !lookup_delete_ne by congruence. apply Hp.
  - unfold contents. simpl. by rewrite lookup_delete_eq.
  - intros k Hne. unfold contents, stream. simpl. rewrite !lookup_delete_ne by done.
    destruct (priorities ps !! k); [|done]. by rewrite lookup_delete_ne by congruence.
Qed.

Lemma dec_streams_ok {E} now key p ps :
  ps_wf ps → priorities ps !! key = Some p →
  ∃ a, dec_streams (E:=E) now (ps_activity ps) = Ok a ∧
       n_open_streams a = Z.of_nat (size (delete key (priorities ps))).
Proof.
  intros (_ & _ & _ & Hn) Hk.
  assert (Z.of_nat (size (priorities ps)) = Z.of_nat (size (delete key (priorities ps))) + 1) as Hsz.
  { rewrite <-(insert_delete_id (priorities ps) key p Hk) at 1.
    rewrite map_size_insert_None by apply lookup_delete_eq. lia. }
  destruct (ps_activity ps) as [| |n]; simpl in *; [lia..|]. rewrite usub_ok by lia. simpl.
  eexists. split; [done|]. destruct (Z.eqb_spec (n - 1) 0); simpl; lia.
Qed.

Lemma ps_remove_spec {E} now key ps :
  ps_wf ps →
  ∃ ps', ps_remove (E:=E) now key ps = Ok (ps', contents ps key) ∧ ps_wf ps' ∧
         priorities ps' = delete key (priorities ps) ∧
         contents ps' key = None ∧ ∀ k, k ≠ key → contents ps' k = contents ps k.
Proof.
  intros Hwf. unfold ps_remove. unfold contents at 1, stream at 1.
  destruct (priorities ps !! key) as [p|] eqn:Hk; last first.
  { exists ps. rewrite delete_id by done. split_and!; try done. unfold contents. by rewrite Hk. }
  destruct (dec_streams_ok (E:=E) now key p ps Hwf Hk) as (a & -> & Ha). rewrite ok_bind. simpl.
  destruct (wf_delete key p (kf_notifications (pending_streams ps)) a ps Hwf Hk Ha)
    as (Hwf' & Hkey & Hother).
  destruct (wf_cases ps key p Hwf Hk) as [(s & Hfut & Hready)|(s & Hfut & Hready)];
    rewrite Hfut, Hready; simpl; [rewrite (delete_id (ready_streams ps)) in Hwf', Hkey, Hother by done|];
    eexists; split_and!; done.
Qed.

(** A pending stream that has become ready. *)
Lemma wf_move k p s f ps :
  ps_wf ps → priorities ps !! k = Some p → kf_futures (pending_streams ps) !! k = Some s →
  kf_futures f = delete k (kf_futures (pending_streams ps)) →
  ps_wf (mkPollSet (priorities ps) (<[(p, k) := s]> (ready_streams ps)) f (ps_activity ps)).
Proof.
  intros (Hf & Hr & Hp & Hn) Hk Hs Heq. split_and!; simpl; rewrite ?Heq; try done.
  - intros k' [s' Hs']%lookup_delete_is_Some. by apply Hf.
  - intros p' k' Hs'. destruct (decide (k' = k)) as [->|Hne].
    + rewrite lookup_delete_eq. split; [|done].
      apply lookup_insert_is_Some in Hs' as [[= <-]|[_ Hs']]; [done|]. by apply Hr.
    + rewrite lookup_insert_ne in Hs' by congruence. rewrite lookup_delete_ne by done. by apply Hr.
  - intros p' k' Hk'. destruct (decide (k' = k)) as [->|Hne].
    + right. replace p' with p by congruence. rewrite lookup_insert_eq. eauto.
    + rewrite lookup_delete_ne, lookup_insert_ne by congruence. by apply Hp.
Qed.

Lemma contents_move k p s f ps k' :
  priorities ps !! k = Some p → kf_futures (pending_streams ps) !! k = Some s →
  kf_futures f = delete k (kf_futures (pending_streams ps)) →
  contents (mkPollSet (priorities ps) (<[(p, k) := s]> (ready_streams ps)) f (ps_activity ps)) k' =
    contents ps k'.
Proof.
  intros Hk Hs Heq. unfold contents, stream. simpl. rewrite Heq.
  destruct (decide (k' = k)) as [->|Hne].
  - by rewrite Hk, Hs, lookup_delete_eq, lookup_insert_eq.
  - rewrite lookup_delete_ne by done. destruct (priorities ps !! k') as [p'|]; [|done].
    by rewrite lookup_insert_ne by congruence.
Qed.

(** Polling moves streams between the two places, and changes nothing else. *)
Lemma poll_ready_spec {E} fuel ps :
  ps_wf ps → (length (kf_notifications (pending_streams ps)) ≤ fuel)%nat →
  ∃ ps', poll_ready (E:=E) fuel ps = Ok ps' ∧ ps_wf ps' ∧ priorities ps' = priorities ps ∧
         ∀ k, contents ps' k = contents ps k.
Proof.
  revert ps. induction fuel as [|fuel IH]; intros ps Hwf Hfuel; simpl;
    destruct (kf_poll_next (pending_streams ps)) as [f r] eqn:Hpoll;
    pose proof (kf_poll_spec _ _ _ Hpoll) as Hspec; destruct r as [[[k s]|]|];
    try (eexists; split; [done|]; split_and!;
         [unfold ps_wf; simpl; by rewrite Hspec|done
         |intros k; unfold contents, stream; simpl; by rewrite Hspec]).
  - destruct Hspec as (_ & _ & ?). lia.
  - destruct Hspec as (Hs & Hf & Hlen).
    destruct (proj1 Hwf k) as [p Hp]; [by eexists|].
    destruct (wf_cases ps k p Hwf Hp) as [(s' & Hs' & Hready)|(s' & Hs' & _)]; [|congruence].
    rewrite Hp. simpl. rewrite Hready. simpl.
    destruct (IH (mkPollSet (priorities ps) (<[(p, k) := s]> (ready_streams ps)) f (ps_activity ps)))
      as (ps' & Hrun & Hwf' & Hprio & Hcont); [|simpl; lia|].
    + by apply wf_move.
    + exists ps'. split_and!; try done. intros k'. rewrite Hcont. by apply contents_move.
Qed.

(** A ready stream that goes back to the pending ones, with another priority. *)
Lemma wf_requeue key p new s s0 n ps :
  ps_wf ps → priorities ps !! key = Some p → ready_streams ps !! (p, key) = Some s0 →
  let ps' := mkPollSet (<[key := new]> (priorities ps)) (delete (p, key) (ready_streams ps))
               (mkFutures n (<[key := s]> (kf_futures (pending_streams ps)))) (ps_activity ps) in
  ps_wf ps' ∧ contents ps' key = Some (new, s) ∧ ∀ k, k ≠ key → contents ps' k = contents ps k.
Proof.
  intros Hwf Hk Hs0 ps'. pose proof (λ p' s, wf_ready ps key p p' s Hwf Hk) as Huniq.
  destruct Hwf as (Hf & Hr & Hp & Hn). split_and!.
  - split_and!; simpl.
    + intros k. destruct (decide (k = key)) as [->|]; [rewrite !lookup_insert_eq; eauto|].
      rewrite !lookup_insert_ne by done. apply Hf.
    + intros p' k [s' Hs']. apply lookup_delete_Some in Hs' as [Hne Hs'].
      destruct (decide (k = key)) as [->|]; [apply Huniq in Hs'; congruence|].
      rewrite !lookup_insert_ne by done. apply Hr. by exists s'.
    + intros p' k. destruct (decide (k = key)) as [->|]; [rewrite !lookup_insert_eq; eauto|].
      rewrite !lookup_insert_ne by done. rewrite lookup_delete_ne by congruence. apply Hp.
    + by rewrite map_size_insert_Some by eauto.
  - unfold contents, stream. simpl. by rewrite !lookup_insert_eq.
  - intros k Hne. unfold contents, stream. simpl. rewrite !lookup_insert_ne by done.
    destruct (priorities ps !! k); [|done]. by rewrite lookup_delete_ne by congruence.
Qed.

(** The stream of [key] goes back from the ready streams to the pending ones, as [s]. *)
Definition requeued (key : Z) (s : St) ps ps' : Prop :=
  ∃ p s0, ready_streams ps !! (p, key) = Some s0 ∧
    ready_streams ps' = delete (p, key) (ready_streams ps) ∧
    pending_streams ps' = mkFutures (kf_notifications (pending_streams ps) ++ [key])
                            (<[key := s]> (kf_futures (pending_streams ps))).

Lemma take_ready_spec {E} `{!PeekableLaws St Item} key new ps :
  ps_wf ps →
  (∀ p s, contents ps key = Some (p, s) → poll_peek s ≠ Ready None) →
  ∃ ps' o, take_ready_value_and_reprioritize (E:=E) key new ps = Ok (ps', o) ∧ ps_wf ps' ∧
    match o with
    | None =>
        priorities ps' = priorities ps ∧ (∀ k, contents ps' k = contents ps k) ∧
        ((ps' = ps ∧ ∀ p, ready_streams ps !! (p, key) = None) ∨
         ∃ p s, contents ps key = Some (p, s) ∧ poll_peek s = Pending ∧ requeued key s ps ps')
    | Some (p, v) =>
        priorities ps' = <[key := new]> (priorities ps) ∧
        ∃ s, contents ps key = Some (p, s) ∧ poll_peek s = Ready (Some v) ∧
             requeued key (poll_next s).2 ps ps' ∧
             contents ps' key = Some (new, (poll_next s).2) ∧
             ∀ k, k ≠ key → contents ps' k = contents ps k
    end.
Proof.
  intros Hwf Hended. unfold take_ready_value_and_reprioritize.
  destruct (priorities ps !! key) as [p|] eqn:Hk;
    [|exists ps, None; split_and!; [done..|left; split; [done|by apply wf_absent]]].
  destruct (ready_streams ps !! (p, key)) as [s|] eqn:Hs; last first.
  { exists ps, None. split_and!; [done..|]. left. split; [done|]. intros p'.
    destruct (ready_streams ps !! (p', key)) eqn:Hp'; [|done].
    pose proof (wf_ready _ _ _ _ _ Hwf Hk Hp'). congruence. }
  assert (kf_futures (pending_streams ps) !! key = None) as Hfut.
  { eapply (proj1 (proj2 Hwf)). by exists s. }
  assert (contents ps key = Some (p, s)) as Hc.
  { unfold contents, stream. by rewrite Hk, Hfut, Hs. }
  specialize (Hended _ _ Hc). destruct (poll_peek s) as [[v|]|] eqn:Hpeek; [|done|].
  - pose proof (peek_then_next s v Hpeek) as Hnext.
    destruct (poll_next s) as [r s'] eqn:Hn. simpl in Hnext. subst r.
    rewrite kf_insert_ok by done. simpl. eexists _, (Some (p, v)). split; [done|].
    destruct (wf_requeue key p new s' s (kf_notifications (pending_streams ps) ++ [key]) ps Hwf Hk Hs)
      as (? & ? & ?). split_and!; try done. exists s. rewrite Hn. split_and!; try done. by exists p, s.
  - rewrite kf_insert_ok by done. simpl. eexists _, None. split; [done|].
    destruct (wf_requeue key p p s s (kf_notifications (pending_streams ps) ++ [key]) ps Hwf Hk Hs)
      as (Hwf' & Hkey & Hother). rewrite insert_id in Hwf', Hkey, Hother by done.
    split_and!; try done.
    + intros k. destruct (decide (k = key)) as [->|]; [congruence|auto].
    + right. exists p, s. split_and!; try done. by exists p, s.
Qed.

Lemma wake_stream_spec key ps :
  ps_wf ps → ps_wf (wake_stream key ps) ∧ ∀ k, contents (wake_stream key ps) k = contents ps k.
Proof. done. Qed.

Lemma update_stream_spec key s ps :
  ps_wf ps → is_Some (priorities ps !! key) →
  let ps' := update_stream key s ps in
  ps_wf ps' ∧ priorities ps' = priorities ps ∧
  (∀ p, priorities ps !! key = Some p → contents ps' key = Some (p, s)) ∧
  ∀ k, k ≠ key → contents ps' k = contents ps k.
Proof.
  intros Hwf [p Hk] ps'. unfold ps', update_stream.
  pose proof (wf_cases ps key p Hwf Hk) as Hcases. destruct Hwf as (Hf & Hr & Hp & Hn).
  destruct Hcases as [(s0 & Hfut & Hready)|(s0 & Hfut & Hready)]; rewrite Hfut, ?Hk.
  - split_and!; simpl; try done.
    + split_and!; simpl; try done.
      * intros k. destruct (decide (k = key)) as [->|]; [by eauto|].
        rewrite lookup_insert_ne by done. apply Hf.
      * intros p' k Hs'. destruct (Hr _ _ Hs') as [? Hnone]. split; [done|].
        destruct (decide (k = key)) as [->|]; [congruence|]. by rewrite lookup_insert_ne.
      * intros p' k Hk'. destruct (decide (k = key)) as [->|]; [rewrite lookup_insert_eq; eauto|].
        rewrite lookup_insert_ne by done. by apply Hp.
    + intros p' [= <-]. unfold contents, stream. simpl. by rewrite Hk, lookup_insert_eq.
    + intros k Hne. unfold contents, stream. simpl. by rewrite lookup_insert_ne by done.
  - split_and!; simpl; try done.
    + split_and!; simpl; try done.
      * intros p' k. rewrite lookup_alter_is_Some. apply Hr.
      * intros p' k. rewrite lookup_alter_is_Some. apply Hp.
    + intros p' [= <-]. unfold contents, stream. simpl.
      by rewrite Hk, Hfut, lookup_alter_eq, Hready.
    + intros k Hne. unfold contents, stream. simpl.
      destruct (priorities ps !! k); [|done]. by rewrite lookup_alter_ne by congruence.
Qed.

(** *** No ready stream is overlooked *)

(** Every pending stream that is ready has been notified, which is the contract of wakers. *)
Definition notified (f : KeyedFutures St) : Prop :=
  ∀ k s, kf_futures f !! k = Some s → poll_peek s ≠ Pending → k ∈ kf_notifications f.

Lemma poll_keys_notified keys (futures : gmap Z St) f r :
  notified (mkFutures keys futures) → poll_keys keys futures = (f, r) →
  notified f ∧ (r = Pending → ∀ k s, kf_futures f !! k = Some s → poll_peek s = Pending).
Proof.
  intros Hn. revert f r Hn. induction keys as [|key keys IH]; simpl; intros f r Hn.
  - intros [= <- <-]. split; [done|]. intros _ k s Hs. destruct (poll_peek s) eqn:Hpeek; [|done].
    destruct (not_elem_of_nil k). apply (Hn k s Hs). congruence.
  - assert ((∀ s, futures !! key = Some s → poll_peek s = Pending) →
            notified (mkFutures keys futures)) as Hskip.
    { intros Hkey k s Hs Hp. specialize (Hn k s Hs Hp). simpl in *.
      apply elem_of_cons in Hn as [->|?]; [|done]. by apply Hkey in Hs. }
    destruct (futures !! key) as [fut|] eqn:Hk; [|apply IH, Hskip; congruence].
    destruct (poll_peek fut) eqn:Hpeek; [|apply IH, Hskip; congruence].
    intros [= <- <-]. split; [|done]. intros k s Hs Hp. simpl in *.
    apply lookup_delete_Some in Hs as [Hne Hs]. specialize (Hn k s Hs Hp). simpl in Hn.
    by apply elem_of_cons in Hn as [->|?].
Qed.

Lemma poll_ready_notified {E} fuel ps ps' :
  notified (pending_streams ps) → poll_ready (E:=E) fuel ps = Ok ps' →
  ∀ k s, kf_futures (pending_streams ps') !! k = Some s → poll_peek s = Pending.
Proof.
  revert ps. induction fuel as [|fuel IH]; intros ps Hn; simpl;
    destruct (kf_poll_next (pending_streams ps)) as [f r] eqn:Hpoll;
    unfold kf_poll_next in Hpoll; case_decide as Hempty;
    try (injection Hpoll as <- <-; intros [= <-] k s; simpl; by rewrite Hempty, lookup_empty);
    destruct (poll_keys_notified _ _ _ _ Hn Hpoll) as [Hn' Hdone];
    pose proof (poll_keys_spec _ _ _ _ Hpoll) as Hspec;
    destruct r as [[[k s]|]|]; try done; try (intros [= <-]; by apply Hdone).
  intros H. ok_inv. by eapply IH; [|done].
Qed.

#[export] Instance entry_le_total : Total entry_le.
Proof. intros [[p k] s] [[p' k'] s']. unfold entry_le. simpl. lia. Qed.

#[export] Instance entry_le_trans : Transitive entry_le.
Proof. intros [[p k] s] [[p' k'] s'] [[p'' k''] s'']. unfold entry_le. simpl. lia. Qed.

(** [poll_ready_iter_mut] shows every stream of the set that has a message ready or has
    ended, and only streams of the set with their priorities, in ascending order of priority; it
    never panics and always has enough rounds, since each round takes a notification. *)
Theorem poll_lists_all_ready {E} ps :
  ps_wf ps → notified (pending_streams ps) →
  ∃ ps' l, poll_ready_iter_mut (E:=E) ps = Ok (ps', l) ∧ StronglySorted entry_le l ∧
    (∀ p k s, contents ps k = Some (p, s) → poll_peek s ≠ Pending → (p, k, s) ∈ l) ∧
    (∀ p k s, (p, k, s) ∈ l → contents ps k = Some (p, s)).
Proof.
  intros Hwf Hn. unfold poll_ready_iter_mut.
  destruct (poll_ready_spec (E:=E) (length (kf_notifications (pending_streams ps))) ps Hwf)
    as (ps' & Hrun & Hwf' & Hprio & Hcont); [done|].
  rewrite Hrun, ok_bind. exists ps', (ready_iter ps'). split; [done|]. unfold ready_iter.
  split_and!; [by apply (StronglySorted_merge_sort _)| |]; intros p k s.
  - intros Hc Hp. rewrite merge_sort_Permutation, elem_of_map_to_list.
    rewrite <-Hcont in Hc. unfold contents, stream in Hc.
    destruct (priorities ps' !! k) as [p'|] eqn:Hk; [|done].
    destruct (kf_futures (pending_streams ps') !! k) as [s'|] eqn:Hs'.
    + simplify_eq. destruct Hp. by eapply poll_ready_notified.
    + by destruct (ready_streams ps' !! (p', k)) eqn:?; simplify_eq.
  - rewrite merge_sort_Permutation, elem_of_map_to_list, <-Hcont. intros Hs.
    destruct (proj1 (proj2 Hwf') p k) as [Hk Hnone]; [by exists s|].
    unfold contents, stream. by rewrite Hk, Hnone, Hs.
Qed.

(** *** What polling moves *)

Definition known_ready ps (k : Z) : Prop := ∃ p s, ready_streams ps !! (p, k) = Some s.

Lemma poll_keys_moves keys (futures : gmap Z St) f r :
  poll_keys keys futures = (f, r) →
  match r with
  | Ready (Some (k, s)) =>
      k ∈ keys ∧ poll_peek s ≠ Pending ∧ (∀ k', k' ∈ kf_notifications f → k' ∈ keys) ∧
      ∀ k' s', k' ≠ k → futures !! k' = Some s' → poll_peek s' ≠ Pending → k' ∈ keys →
               k' ∈ kf_notifications f
  | _ => kf_notifications f = [] ∧
         ∀ k s, futures !! k = Some s → k ∈ keys → poll_peek s = Pending
  end.
Proof.
  revert f r. induction keys as [|key keys IH]; simpl; intros f r.
  { intros [= <- <-]. split; [done|]. by intros k s _ ?%not_elem_of_nil. }
  assert ((∀ s, futures !! key = Some s → poll_peek s = Pending) → poll_keys keys futures = (f, r) →
    match r with
    | Ready (Some (k, s)) =>
        k ∈ key :: keys ∧ poll_peek s ≠ Pending ∧ (∀ k', k' ∈ kf_notifications f → k' ∈ key :: keys) ∧
        ∀ k' s', k' ≠ k → futures !! k' = Some s' → poll_peek s' ≠ Pending → k' ∈ key :: keys →
                 k' ∈ kf_notifications f
    | _ => kf_notifications f = [] ∧
           ∀ k s, futures !! k = Some s → k ∈ key :: keys → poll_peek s = Pending
    end) as Hskip.
  { intros Hkey Hq%IH. destruct r as [[[k s]|]|]; set_solver. }
  destruct (futures !! key) as [fut|] eqn:Hk; [|by apply Hskip].
  destruct (poll_peek fut) eqn:Hpeek; [|apply Hskip; congruence].
  intros [= <- <-]. simpl. rewrite Hpeek. set_solver.
Qed.

(** Polling makes ready what was woken and has something to read or has ended, and nothing that
    stays pending is still woken. *)
Lemma poll_ready_moves {E} fuel ps ps' :
  ps_wf ps → poll_ready (E:=E) fuel ps = Ok ps' →
  (∀ k, known_ready ps' k ↔
        known_ready ps k ∨ (k ∈ kf_notifications (pending_streams ps) ∧
          ∃ s, kf_futures (pending_streams ps) !! k = Some s ∧ poll_peek s ≠ Pending)) ∧
  ∀ k s, kf_futures (pending_streams ps') !! k = Some s → k ∉ kf_notifications (pending_streams ps').
Proof.
  revert ps. induction fuel as [|fuel IH]; intros ps Hwf; simpl;
    destruct (kf_poll_next (pending_streams ps)) as [f r] eqn:Hpoll;
    pose proof (kf_poll_spec _ _ _ Hpoll) as Hspec; unfold kf_poll_next in Hpoll;
    case_decide as Hempty;
    try (injection Hpoll as <- <-; intros [= <-]; simpl; rewrite Hempty; split;
         [intros k; rewrite lookup_empty; naive_solver|intros k s; by rewrite lookup_empty]);
    apply poll_keys_moves in Hpoll; destruct r as [[[k s]|]|]; try done;
    try (destruct Hpoll as [Hnil Hall]; intros [= <-]; simpl; rewrite Hnil;
         split; [unfold known_ready; simpl; naive_solver|set_solver]).
  intros H. ok_inv. destruct Hspec as (Hs & Hf & _).
  destruct (priorities ps !! k) as [p|] eqn:Hprio; [|done].
  match goal with H : expect _ = Ok _ |- _ => injection H as <- end.
  pose proof (wf_move k p s f ps Hwf Hprio Hs Hf) as Hwf'.
  destruct (IH _ Hwf' H) as [Hready Hrest]. split; [|done]. intros k'. rewrite Hready. simpl.
  rewrite Hf. destruct Hpoll as (Hk & Hp & Hsub & Hkeep). unfold known_ready. simpl.
  destruct (decide (k' = k)) as [->|Hne].
  - split; intros _; [right; eauto|left; exists p, s; apply lookup_insert_eq].
  - setoid_rewrite lookup_delete_ne; [|done]. setoid_rewrite lookup_insert_ne; [|congruence].
    naive_solver.
Qed.

(** *** The set as a map

    What a caller sees: the streams with their priorities, which of them are known to be ready, and
    which were woken since the last poll. *)

Record PollSpec : Type := mkSpec {
  sp_map : gmap Z (Z * St);
  sp_ready : gset Z;
  sp_woken : gset Z }.

Inductive PsOp : Type :=
| OpInsert (key priority : Z) (s : St)
| OpRemove (key : Z)
| OpPoll
| OpTake (key new_priority : Z)
| OpUpdate (key : Z) (s : St)
| OpWake (key : Z).

Inductive PsOut : Type :=
| OutInserted (ok : bool)
| OutStream (o : option (Z * St))
| OutReady (l : list (Z * Z * St))
| OutItem (o : option (Z * Item))
| OutNone.

Definition ps_op {E} (now : Z) (op : PsOp) ps : res E (StreamPollSet St * PsOut) :=
  match op with
  | OpInsert key priority s =>
      match try_insert key priority s ps with
      | Ok ps => Ok (ps, OutInserted true)
      | Err _ => Ok (ps, OutInserted false)
      | Panic => Panic
      end
  | OpRemove key => '(ps, o) ← ps_remove now key ps; Ok (ps, OutStream o)
  | OpPoll => '(ps, l) ← poll_ready_iter_mut ps; Ok (ps, OutReady l)
  | OpTake key new => '(ps, o) ← take_ready_value_and_reprioritize key new ps; Ok (ps, OutItem o)
  | OpUpdate key s => Ok (update_stream key s ps, OutNone)
  | OpWake key => Ok (wake_stream key ps, OutNone)
  end.

(** The stream of [key] has an item, or has ended. *)
Definition has_event (m : gmap Z (Z * St)) (key : Z) : Prop :=
  from_option (λ x, poll_peek x.2 ≠ Pending) False (m !! key).
#[export] Instance has_event_dec m key : Decision (has_event m key).
Proof.
  unfold has_event. destruct (m !! key) as [[p s]|]; simpl; [|apply _].
  destruct (poll_peek s); [left; done|right; by intros []].
Defined.

Definition polled_ready (a : PollSpec) : gset Z :=
  sp_ready a ∪ filter (has_event (sp_map a)) (sp_woken a).

(** What each operation does to it, and what it returns. *)
Inductive map_op (a : PollSpec) : PsOp → PsOut → PollSpec → Prop :=
| map_insert key p s : sp_map a !! key = None →
    map_op a (OpInsert key p s) (OutInserted true)
      (mkSpec (<[key := (p, s)]> (sp_map a)) (sp_ready a) (sp_woken a ∪ {[key]}))
| map_insert_taken key p s : is_Some (sp_map a !! key) →
    map_op a (OpInsert key p s) (OutInserted false) a
| map_remove key :
    map_op a (OpRemove key) (OutStream (sp_map a !! key))
      (mkSpec (delete key (sp_map a)) (sp_ready a ∖ {[key]}) (sp_woken a))
| map_poll l :
    StronglySorted entry_le l → NoDup l →
    (∀ p k s, (p, k, s) ∈ l ↔ k ∈ polled_ready a ∧ sp_map a !! k = Some (p, s)) →
    map_op a OpPoll (OutReady l) (mkSpec (sp_map a) (polled_ready a) ∅)
| map_take key new p s v :
    key ∈ sp_ready a → sp_map a !! key = Some (p, s) → poll_peek s = Ready (Some v) →
    map_op a (OpTake key new) (OutItem (Some (p, v)))
      (mkSpec (<[key := (new, (poll_next s).2)]> (sp_map a)) (sp_ready a ∖ {[key]})
         (sp_woken a ∪ {[key]}))
| map_take_unready key new p s :
    key ∈ sp_ready a → sp_map a !! key = Some (p, s) → poll_peek s = Pending →
    map_op a (OpTake key new) (OutItem None)
      (mkSpec (sp_map a) (sp_ready a ∖ {[key]}) (sp_woken a ∪ {[key]}))
| map_take_none key new : key ∉ sp_ready a → map_op a (OpTake key new) (OutItem None) a
| map_update key p s0 s : sp_map a !! key = Some (p, s0) →
    map_op a (OpUpdate key s) OutNone (mkSpec (<[key := (p, s)]> (sp_map a)) (sp_ready a) (sp_woken a))
| map_wake key : map_op a (OpWake key) OutNone (mkSpec (sp_map a) (sp_ready a) (sp_woken a ∪ {[key]})).

Definition represents ps (a : PollSpec) : Prop :=
  (∀ k, contents ps k = sp_map a !! k) ∧
  (∀ k, k ∈ sp_ready a ↔ known_ready ps k) ∧
  ∀ k s, kf_futures (pending_streams ps) !! k = Some s →
         (k ∈ kf_notifications (pending_streams ps) ↔ k ∈ sp_woken a).

(** A stream is taken from only while it has not ended, a stream that is changed is in the set, and
    there is room for one more. *)
Definition ps_op_ok (op : PsOp) (a : PollSpec) : Prop :=
  match op with
  | OpInsert _ _ _ => Z.of_nat (size (sp_map a)) < usize_max
  | OpTake key _ => ∀ p s, sp_map a !! key = Some (p, s) → poll_peek s ≠ Ready None
  | OpUpdate key _ => is_Some (sp_map a !! key)
  | _ => True
  end.

Lemma represents_priority ps a k :
  ps_wf ps → represents ps a → (priorities ps !! k = None ↔ sp_map a !! k = None).
Proof.
  intros Hwf [Hm _]. rewrite <-Hm. destruct (priorities ps !! k) as [p|] eqn:Hk.
  - destruct (contents_some ps k p Hwf Hk) as (s & -> & _). split; congruence.
  - unfold contents. by rewrite Hk.
Qed.

Lemma represents_size ps a : ps_wf ps → represents ps a → size (sp_map a) = size (priorities ps).
Proof.
  intros Hwf Hr. rewrite <-!size_dom. f_equal. apply set_eq. intros k.
  rewrite !elem_of_dom, <-!not_eq_None_Some. by rewrite (represents_priority ps a).
Qed.

Lemma ready_contents ps p k s :
  ps_wf ps → (ready_streams ps !! (p, k) = Some s ↔ known_ready ps k ∧ contents ps k = Some (p, s)).
Proof.
  intros Hwf. split.
  - intros Hs. destruct (proj1 (proj2 Hwf) p k) as [Hk Hnone]; [by exists s|].
    split; [by exists p, s|]. unfold contents, stream. by rewrite Hk, Hnone, Hs.
  - intros [(p' & s' & Hs') Hc]. destruct (proj1 (proj2 Hwf) p' k) as [Hk Hnone]; [by exists s'|].
    unfold contents, stream in Hc. rewrite Hk, Hnone, Hs' in Hc. congruence.
Qed.

Lemma ready_iter_elem ps p k s :
  ps_wf ps → ((p, k, s) ∈ ready_iter ps ↔ known_ready ps k ∧ contents ps k = Some (p, s)).
Proof.
  intros Hwf. unfold ready_iter. rewrite merge_sort_Permutation, elem_of_map_to_list. by apply ready_contents.
Qed.

(** Where removing and changing a stream leave the others. *)
Lemma ps_remove_places {E} now key ps ps' o :
  ps_wf ps → ps_remove (E:=E) now key ps = Ok (ps', o) →
  (∀ k, known_ready ps' k ↔ known_ready ps k ∧ k ≠ key) ∧
  kf_futures (pending_streams ps') = delete key (kf_futures (pending_streams ps)) ∧
  kf_notifications (pending_streams ps') = kf_notifications (pending_streams ps).
Proof.
  intros Hwf. unfold ps_remove. destruct (priorities ps !! key) as [p|] eqn:Hk; last first.
  { intros [= <- _]. destruct (wf_absent ps key Hwf Hk) as [Hf Hr]. rewrite delete_id by done.
    split_and!; [|done..]. intros k. split; [|tauto]. intros (p & s & Hs). split; [by exists p, s|].
    intros ->. congruence. }
  pose proof (λ p' s, wf_ready ps key p p' s Hwf Hk) as Huniq. intros H. ok_inv. simpl in H.
  destruct (wf_cases ps key p Hwf Hk) as [(s & Hf & Hr)|(s & Hf & Hr)]; rewrite Hf in H; ok_inv; simpl.
  - split_and!; [|done..]. intros k. split; [|tauto]. intros (p' & s' & Hs'). split; [by exists p', s'|].
    intros ->. simpl in Hs'. pose proof (Huniq _ _ Hs') as ->. congruence.
  - split_and!; [|done..]. intros k. unfold known_ready. simpl. split.
    + intros (p' & s' & [Hne Hs']%lookup_delete_Some). split; [by eauto|]. intros ->.
      pose proof (Huniq _ _ Hs') as ->. congruence.
    + intros [(p' & s' & Hs') Hne]. exists p', s'. by rewrite lookup_delete_ne by congruence.
Qed.

Lemma update_stream_places key s ps :
  (∀ k, known_ready (update_stream key s ps) k ↔ known_ready ps k) ∧
  ∀ k s', kf_futures (pending_streams (update_stream key s ps)) !! k = Some s' →
    kf_notifications (pending_streams (update_stream key s ps)) = kf_notifications (pending_streams ps) ∧
    is_Some (kf_futures (pending_streams ps) !! k).
Proof.
  unfold update_stream. destruct (kf_futures (pending_streams ps) !! key) as [s0|] eqn:Hf.
  - split; [done|]. simpl. intros k s' [[<- _]|[_ Hs']]%lookup_insert_Some; split; by eauto.
  - destruct (priorities ps !! key) as [p|]; [|split; [done|eauto]]. split; [|eauto].
    intros k. unfold known_ready. simpl. split.
    + intros (p' & s' & Hs'). exists p'. apply mk_is_Some in Hs'.
      rewrite lookup_alter_is_Some in Hs'. exact Hs'.
    + intros (p' & s' & Hs'). exists p'. change (is_Some (alter (λ _, s) (p, key) (ready_streams ps) !! (p', k))).
      rewrite lookup_alter_is_Some. by eexists.
Qed.

Lemma requeue_represents key new s ps ps' a :
  ps_wf ps → represents ps a → requeued key s ps ps' →
  contents ps' key = Some (new, s) → (∀ k, k ≠ key → contents ps' k = contents ps k) →
  known_ready ps key ∧
  represents ps' (mkSpec (<[key := (new, s)]> (sp_map a)) (sp_ready a ∖ {[key]}) (sp_woken a ∪ {[key]})).
Proof.
  intros Hwf (Hm & Hr & Hw) (p & s0 & Hs0 & Hready & Hpend) Hkey Hother.
  split; [by exists p, s0|]. split_and!; simpl.
  - intros k. destruct (decide (k = key)) as [->|]; [by rewrite lookup_insert_eq|].
    rewrite lookup_insert_ne by done. rewrite <-Hm. auto.
  - intros k. rewrite elem_of_difference, Hr, elem_of_singleton. unfold known_ready. rewrite Hready. split.
    + intros [(p' & s' & Hs') Hne]. exists p', s'. by rewrite lookup_delete_ne by congruence.
    + intros (p' & s' & [Hne Hs']%lookup_delete_Some). split; [by eauto|]. intros ->.
      destruct (proj1 (proj2 Hwf) p key) as [Hk _]; [by eexists|].
      pose proof (wf_ready _ _ _ _ _ Hwf Hk Hs'). congruence.
  - intros k s'. rewrite Hpend. simpl. rewrite elem_of_app, list_elem_of_singleton, elem_of_union, elem_of_singleton.
    intros [[<- _]|[? Hs']]%lookup_insert_Some; [tauto|]. by rewrite (Hw _ _ Hs').
Qed.
End pollset.
Arguments PollSpec : clear implicits.
Arguments PsOp : clear implicits.
Arguments PsOut : clear implicits.

Section refinement.
Context {St Item : Type} `{!PeekableStream St Item} `{!PeekableLaws St Item} {E : Type}.
Implicit Types (ps : StreamPollSet St) (a : PollSpec St).

Definition refines (now : Z) (op : PsOp St) ps a : Prop :=
  ∃ ps' out a', ps_op (E:=E) now op ps = Ok (ps', out) ∧ map_op a op out a' ∧
                ps_wf ps' ∧ represents ps' a'.

Lemma insert_refines now key p s ps a :
  ps_wf ps → represents ps a → ps_op_ok (OpInsert key p s) a → refines now (OpInsert key p s) ps a.
Proof.
  intros Hwf Hrep Hop. pose proof Hrep as (Hm & Hr & Hw). simpl in Hop.
  rewrite (represents_size ps a) in Hop by done.
  pose proof (try_insert_spec key p s ps Hwf Hop) as Hins. unfold refines, ps_op.
  destruct (priorities ps !! key) as [p0|] eqn:Hk.
  - rewrite Hins. eexists ps, _, a. split_and!; try done. apply map_insert_taken.
    rewrite <-Hm. destruct (contents_some ps key p0 Hwf Hk) as (? & -> & _). eauto.
  - destruct Hins as (ps' & Hins & Hwf' & _ & Hkey & Hother). rewrite Hins.
    eexists ps', _, _. split_and!; [done|apply map_insert; by apply (represents_priority ps)|done|].
    unfold try_insert in Hins. rewrite Hk in Hins. ok_inv.
    match goal with H : expect _ = Ok ?x |- _ => rename H into Hx; rename x into f end.
    unfold kf_try_insert in Hx. rewrite (proj1 (wf_absent ps key Hwf Hk)) in Hx. injection Hx as <-.
    split_and!; simpl.
    + intros k. destruct (decide (k = key)) as [->|]; [by rewrite lookup_insert_eq|].
      rewrite lookup_insert_ne by done. rewrite <-Hm. auto.
    + done.
    + intros k s'. rewrite elem_of_app, list_elem_of_singleton, elem_of_union, elem_of_singleton.
      intros [[<- _]|[? Hs']]%lookup_insert_Some; [tauto|]. by rewrite (Hw _ _ Hs').
Qed.

Lemma remove_refines now key ps a :
  ps_wf ps → represents ps a → refines now (OpRemove key) ps a.
Proof.
  intros Hwf (Hm & Hr & Hw).
  destruct (ps_remove_spec (E:=E) now key ps Hwf) as (ps' & Hrm & Hwf' & Hprio & Hkey & Hother).
  unfold refines, ps_op. rewrite Hrm. simpl. rewrite Hm.
  eexists ps', _, _. split_and!; [done|apply map_remove|done|].
  destruct (ps_remove_places (E:=E) now key ps ps' _ Hwf Hrm) as (Hready & Hfut & Hnote).
  split_and!; simpl.
  - intros k. destruct (decide (k = key)) as [->|]; [by rewrite lookup_delete_eq|].
    rewrite lookup_delete_ne by done. rewrite <-Hm. auto.
  - intros k. by rewrite elem_of_difference, Hr, elem_of_singleton, Hready.
  - intros k s. rewrite Hfut, Hnote. intros [_ Hs]%lookup_delete_Some. by apply (Hw k s).
Qed.

Lemma poll_refines now ps a : ps_wf ps → represents ps a → refines now OpPoll ps a.
Proof.
  intros Hwf (Hm & Hr & Hw). unfold refines, ps_op, poll_ready_iter_mut.
  destruct (poll_ready_spec (E:=E) (length (kf_notifications (pending_streams ps))) ps Hwf)
    as (ps' & Hpoll & Hwf' & _ & Hcont); [done|]. rewrite Hpoll. simpl.
  destruct (poll_ready_moves _ _ _ Hwf Hpoll) as [Hready Hrest].
  assert (∀ k, k ∈ polled_ready a ↔ known_ready ps' k) as Hp.
  { intros k. unfold polled_ready, has_event. rewrite elem_of_union, elem_of_filter, Hr, Hready, <-Hm. split.
    - intros [?|[Hev Hk]]; [by left|].
      destruct (contents ps k) as [[p s]|] eqn:Hc; [|done]. simpl in Hev. unfold contents in Hc.
      destruct (priorities ps !! k) as [p'|] eqn:Hk'; [|done].
      destruct (wf_cases ps k p' Hwf Hk') as [(s' & Hs' & _)|(s' & _ & Hs')]; [right|left; by exists p', s'].
      unfold stream in Hc. rewrite Hs' in Hc. injection Hc as <- <-.
      split; [by apply (Hw k s')|by exists s'].
    - intros [?|[Hk (s & Hs & Hev)]]; [by left|]. right. split; [|by apply (Hw k s)].
      destruct (proj1 Hwf k) as [p Hk']; [by eexists|]. unfold contents, stream. by rewrite Hk', Hs. }
  eexists ps', _, _. split_and!; [done|apply map_poll|done|].
  - apply (StronglySorted_merge_sort _).
  - unfold ready_iter. rewrite merge_sort_Permutation. apply NoDup_map_to_list.
  - intros p k s. rewrite Hp, <-Hm, <-Hcont. by apply ready_iter_elem.
  - split_and!; simpl; [intros k; by rewrite Hcont|done|]. intros k s Hs.
    split; [intros Hk; by destruct (Hrest k s Hs)|set_solver].
Qed.

Lemma take_refines now key new ps a :
  ps_wf ps → represents ps a → ps_op_ok (OpTake key new) a → refines now (OpTake key new) ps a.
Proof.
  intros Hwf Hrep Hop. pose proof Hrep as (Hm & Hr & Hw). unfold refines, ps_op.
  destruct (take_ready_spec (E:=E) key new ps Hwf) as (ps' & o & -> & Hwf' & Ho).
  { intros p s. rewrite Hm. apply Hop. }
  simpl. destruct o as [[p v]|].
  - destruct Ho as (_ & s & Hc & Hpeek & Hq & Hkey & Hother). rewrite Hm in Hc.
    destruct (requeue_represents key new _ ps ps' a Hwf Hrep Hq Hkey Hother) as [Hready Hrep'].
    eexists ps', _, _. split_and!; [done|apply map_take; [by apply Hr|done|done]|done|done].
  - destruct Ho as (_ & Hcont & [[-> Hnone]|(p & s & Hc & Hpeek & Hq)]).
    + eexists ps, _, a. split_and!; [done|apply map_take_none|done|done].
      rewrite Hr. intros (p & s & Hs). congruence.
    + destruct (requeue_represents key p s ps ps' a Hwf Hrep Hq) as [Hready Hrep']; [by rewrite Hcont|auto|].
      rewrite Hm in Hc. rewrite insert_id in Hrep' by done.
      eexists ps', _, _. split_and!; [done|eapply map_take_unready; [by apply Hr|done|done]|done|done].
Qed.

Lemma update_refines now key s ps a :
  ps_wf ps → represents ps a → ps_op_ok (OpUpdate key s) a → refines now (OpUpdate key s) ps a.
Proof.
  intros Hwf (Hm & Hr & Hw) [[p s0] Hk]. unfold refines, ps_op. rewrite <-Hm in Hk.
  assert (priorities ps !! key = Some p) as Hp.
  { unfold contents in Hk. destruct (priorities ps !! key); [|done]. by destruct (stream key ps); simplify_eq. }
  destruct (update_stream_spec key s ps Hwf) as (Hwf' & _ & Hkey & Hother); [by eexists|].
  eexists _, _, _. split_and!; [done|eapply map_update; by rewrite <-Hm|done|].
  destruct (update_stream_places key s ps) as [Hready Hnote]. split_and!; simpl.
  - intros k. destruct (decide (k = key)) as [->|]; [rewrite lookup_insert_eq; auto|].
    rewrite lookup_insert_ne by done. rewrite <-Hm. auto.
  - intros k. by rewrite Hr, Hready.
  - intros k s' Hs'. apply Hnote in Hs' as [-> [s'' Hs'']]. by apply (Hw k s'').
Qed.

(** C17: a poll set implements a map from keys to priorities and streams, with the keys that are
    known to be ready and those that were woken.  In every well-formed state each operation runs
    without panicking, keeps the set well formed, and does to the map what its specification
    says, wherever the set keeps the streams in between: a poll shows exactly the streams that
    were ready or were woken with an item or an end, in order of priority; a take gives the item
    of a stream that is ready, sets its priority and wakes it, and gives nothing exactly when
    the stream is not ready.  A stream that has ended must not be taken from (see
    [take_from_ended_stream_corrupts]), and a stream is inserted only while fewer than
    [usize::MAX] are in the set. *)
Theorem pollset_refines_map (now : Z) (op : PsOp St) ps a :
  ps_wf ps → represents ps a → ps_op_ok op a →
  ∃ ps' out a', ps_op (E:=E) now op ps = Ok (ps', out) ∧ map_op a op out a' ∧
                ps_wf ps' ∧ represents ps' a'.
Proof.
  intros Hwf Hrep Hop. destruct op as [key p s|key| |key new|key s|key].
  - by apply insert_refines.
  - by apply remove_refines.
  - by apply poll_refines.
  - by apply take_refines.
  - by apply update_refines.
  - eexists _, _, _. split_and!; [done|apply map_wake|done|]. destruct Hrep as (Hm & Hr & Hw).
    split_and!; [done..|]. simpl. intros k s Hs.
    by rewrite elem_of_app, list_elem_of_singleton, elem_of_union, elem_of_singleton, (Hw k s Hs).
Qed.
End refinement.

(** ** Example streams: what has been written, and whether the writer is gone *)

Record Pipe : Type := mkPipe { pipe_items : list Z; pipe_closed : bool }.

#[export] Instance pipe_stream : PeekableStream Pipe Z := {
  poll_peek s := match pipe_items s with
                 | v :: _ => Ready (Some v)
                 | [] => if pipe_closed s then Ready None else Pending
                 end;
  poll_next s := match pipe_items s with
                 | v :: l => (Ready (Some v), mkPipe l (pipe_closed s))
                 | [] => (if pipe_closed s then Ready None else Pending, s)
                 end }.

#[export] Instance pipe_laws : PeekableLaws Pipe Z.
Proof. split. intros [[|v l] c] w; simpl; [by destruct c|by intros [= <-]]. Qed.

(** Two streams; the second has nothing to read. *)
Definition example_set : StreamPollSet Pipe :=
  mkPollSet {[1 := 5; 2 := 3]} ∅ (mkFutures [1; 2] {[1 := mkPipe [7] false; 2 := mkPipe [] false]})
    (InUse 2).

Lemma example_set_wf : ps_wf example_set.
Proof.
  split_and!; simpl.
  - intros k [s [[<- _]|[_ [<- _]%lookup_singleton_Some]]%lookup_insert_Some]; by eexists.
  - intros p k [s Hs]. by rewrite lookup_empty in Hs.
  - intros p k [[<- _]|[_ [<- _]%lookup_singleton_Some]]%lookup_insert_Some; left; by eexists.
  - done.
Qed.

Lemma poll_lists_all_ready_witness :
  ∃ ps' l, poll_ready_iter_mut (E:=KeyAlreadyInsertedError) example_set = Ok (ps', l) ∧
           (5, 1, mkPipe [7] false) ∈ l.
Proof.
  destruct (poll_lists_all_ready (E:=KeyAlreadyInsertedError) example_set example_set_wf)
    as (ps' & l & Hrun & _ & Hl & _).
  - intros k s Hs _. simpl in *.
    apply lookup_insert_Some in Hs as [[<- _]|[_ [<- _]%lookup_singleton_Some]];
      rewrite !elem_of_cons; auto.
  - exists ps', l. split; [done|]. by apply Hl.
Defined.

Lemma pollset_refines_map_witness :
  ∃ ps' l, ps_op (E:=KeyAlreadyInsertedError) 9 OpPoll example_set = Ok (ps', OutReady l) ∧
           ps_wf ps' ∧ (5, 1, mkPipe [7] false) ∈ l ∧ (3, 2, mkPipe [] false) ∉ l.
Proof.
  destruct (pollset_refines_map (E:=KeyAlreadyInsertedError) 9 OpPoll example_set
              (mkSpec {[1 := (5, mkPipe [7] false); 2 := (3, mkPipe [] false)]} ∅ {[1; 2]}) example_set_wf)
    as (ps' & out & a' & Hrun & Hop & Hwf & _).
  - split_and!.
    + intros k. destruct (decide (k = 1)) as [->|]; [done|]. destruct (decide (k = 2)) as [->|]; [done|].
      unfold contents. simpl. by rewrite !lookup_insert_ne, !lookup_singleton_ne by done.
    + intros k. split; [set_solver|]. intros (p & s & Hs). simpl in Hs; by rewrite lookup_empty in Hs.
    + intros k s _. simpl. set_solver.
  - done.
  - inversion Hop as [| | |l _ _ Hl| | | | |]; subst. exists ps', l. split_and!; [done..| |]; rewrite Hl.
    + split; [|done]. apply elem_of_union_r, elem_of_filter. split; [by vm_compute|set_solver].
    + unfold polled_ready. rewrite elem_of_union, elem_of_filter. intros [[Hx|[Hx _]] _]; [set_solver|by destruct Hx].
Defined.

(** Taking from a stream that has ended does change the set, although it is documented not
    to: the stream is dropped while its key keeps a priority, and removing the key panics. *)
Theorem take_from_ended_stream_corrupts :
  let ps := mkPollSet {[1 := 5]} {[(5, 1) := mkPipe [] true]} KeyedFutures_new (InUse 1) in
  ps_wf ps ∧
  ∃ ps', take_ready_value_and_reprioritize (E:=KeyAlreadyInsertedError) 1 8 ps = Ok (ps', None) ∧
         stream 1 ps = Some (mkPipe [] true) ∧ stream 1 ps' = None ∧
         ps_remove (E:=KeyAlreadyInsertedError) 9 1 ps' = Panic.
Proof.
  intros ps. split; [|by eexists; split_and!; vm_compute].
  split_and!; simpl.
  - intros k [s Hs]. by rewrite lookup_empty in Hs.
  - intros p k [s [[= <- <-] _]%lookup_singleton_Some]. done.
  - intros p k [<- <-]%lookup_singleton_Some. right. by eexists.
  - done.
Qed.
