(* ===== verification/StreamMap.v ===== *)
(** * StreamMap: the streams of a circuit hop

    [tor-proto/src/streammap.rs] and [streammap/halfstream.rs], with the delivery of messages to
    streams ([CircHopOutbound::handle_msg] of [circuit/circhop.rs]) and the command checker of
    outgoing data streams.  The queue that a stream reads from is its list of messages and
    whether the local sender is gone; the sink towards the stream's reader is the list of messages
    sent to it, until the reader is gone; it is unbounded, as with the feature [flowctl-cc], and so
    never full.  A SENDME always wakes its stream, where the code does so
    only if the stream has waited for it.  An error makes the caller close the circuit. *)

From S2P Require Import Prelude Bytes Codec RelayMsg RelayCell Sendme FlowCtrl PollSet.

(** ** Command checkers *)

Inductive StreamStatus : Type := StatusOpen | StatusClosed.

Class CmdChecker (C : Type) : Type := {
  check_msg : UnparsedRelayMsg → C → res ProtoError (C * StreamStatus);
  consume_checked_msg : UnparsedRelayMsg → C → res ProtoError C }.

Record OutboundDataCmdChecker : Type := mkDataChecker { expecting_connected : bool }.

Definition as_data_stream_msg (m : AnyRelayMsg) : option AnyRelayMsg :=
  match m with AData _ | AEnd _ | AConnected _ => Some m | _ => None end.

Definition data_check_msg (msg : UnparsedRelayMsg) (c : OutboundDataCmdChecker) :
    res ProtoError (OutboundDataCmdChecker * StreamStatus) :=
  cmd ← unparsed_cmd msg;
  if cmd =? RelayCmd.CONNECTED then
    if negb (expecting_connected c) then Err (StreamProto "Received CONNECTED twice on a stream.")
    else Ok (mkDataChecker false, StatusOpen)
  else if cmd =? RelayCmd.DATA then
    if negb (expecting_connected c) then Ok (c, StatusOpen)
    else Err (StreamProto "Received DATA before CONNECTED on a stream")
  else if cmd =? RelayCmd.END then Ok (c, StatusClosed)
  else Err (StreamProto "Unexpected message on a data stream!").

#[export] Instance outbound_data_checker : CmdChecker OutboundDataCmdChecker := {
  check_msg := data_check_msg;
  consume_checked_msg msg c :=
    _ ← decode_as "cell on half-closed stream" as_data_stream_msg msg; Ok c }.

(** ** Streams *)

Record OpenStreamEnt (C : Type) : Type := mkOpenEnt {
  oe_sink : option (list UnparsedRelayMsg);
  oe_dropped : Z;
  oe_checker : C;
  oe_flow : StreamFlowCtrl;
  oe_rx : list AnyRelayMsg;
  oe_rx_closed : bool }.
Arguments mkOpenEnt {C}.
Arguments oe_sink {C}.
Arguments oe_dropped {C}.
Arguments oe_checker {C}.
Arguments oe_flow {C}.
Arguments oe_rx {C}.
Arguments oe_rx_closed {C}.

Definition set_flow {C} (f : StreamFlowCtrl) (e : OpenStreamEnt C) : OpenStreamEnt C :=
  mkOpenEnt (oe_sink e) (oe_dropped e) (oe_checker e) f (oe_rx e) (oe_rx_closed e).

(** [poll_peek_mut] of [OpenStreamEntStream]: a message that flow control holds back is not
    ready. *)
Definition ent_poll_peek {C} (e : OpenStreamEnt C) : Poll (option AnyRelayMsg) :=
  match oe_rx e with
  | m :: _ => if can_send m (oe_flow e) then Ready (Some m) else Pending
  | [] => if oe_rx_closed e then Ready None else Pending
  end.

Definition ent_poll_next {C} (e : OpenStreamEnt C) :
    Poll (option AnyRelayMsg) * OpenStreamEnt C :=
  match ent_poll_peek e with
  | Pending => (Pending, e)
  | Ready _ =>
      match oe_rx e with
      | m :: rx =>
          (Ready (Some m), mkOpenEnt (oe_sink e) (oe_dropped e) (oe_checker e)
                             (oe_flow e) rx (oe_rx_closed e))
      | [] => (Ready None, e)
      end
  end.

#[export] Instance open_stream {C} : PeekableStream (OpenStreamEnt C) AnyRelayMsg := {
  poll_peek := ent_poll_peek; poll_next := ent_poll_next }.

#[export] Instance open_stream_laws {C} : PeekableLaws (OpenStreamEnt C) AnyRelayMsg.
Proof.
  split. simpl. unfold ent_poll_next, ent_poll_peek. intros e v. destruct (oe_rx e) as [|m rx].
  - by destruct (oe_rx_closed e).
  - destruct (can_send m (oe_flow e)); [by intros [= <-]|done].
Qed.

(** ** Half-closed streams *)

Record HalfStream (C : Type) : Type := mkHalf {
  hs_flow : StreamFlowCtrl;
  hs_recvw : RecvWindow StreamParams;
  hs_checker : C }.
Arguments mkHalf {C}.
Arguments hs_flow {C}.
Arguments hs_recvw {C}.
Arguments hs_checker {C}.

Definition half_handle_msg {C} `{!CmdChecker C} (msg : UnparsedRelayMsg) (h : HalfStream C) :
    res ProtoError (HalfStream C * StreamStatus) :=
  cmd ← unparsed_cmd msg;
  if cmd =? RelayCmd.SENDME then
    f ← put_for_incoming_sendme msg (hs_flow h);
    Ok (mkHalf f (hs_recvw h) (hs_checker h), StatusOpen)
  else if cmd =? RelayCmd.XON then
    f ← handle_incoming_xon msg (hs_flow h);
    Ok (mkHalf f (hs_recvw h) (hs_checker h), StatusOpen)
  else if cmd =? RelayCmd.XOFF then
    f ← handle_incoming_xoff msg (hs_flow h);
    Ok (mkHalf f (hs_recvw h) (hs_checker h), StatusOpen)
  else
    w ← (if cmd_counts_towards_windows cmd
         then '(w, _) ← RecvWindow_take (hs_recvw h); Ok w else Ok (hs_recvw h));
    '(c, status) ← check_msg msg (hs_checker h);
    c ← consume_checked_msg msg c;
    Ok (mkHalf (hs_flow h) w c, status).

Record EndSentStreamEnt (C : Type) : Type := mkEndSent {
  half_stream : HalfStream C;
  explicitly_dropped : bool;
  expiry : Z }.
Arguments mkEndSent {C}.
Arguments half_stream {C}.
Arguments explicitly_dropped {C}.
Arguments expiry {C}.

Inductive ClosedStreamEnt (C : Type) : Type :=
| EndReceived
| EndSent (e : EndSentStreamEnt C).
Arguments EndReceived {C}.
Arguments EndSent {C}.

(** [StreamEntMut]: what [get_mut] returns. *)
Inductive StreamEnt (C : Type) : Type :=
| EntOpen (e : OpenStreamEnt C)
| EntEndReceived
| EntEndSent (e : EndSentStreamEnt C).
Arguments EntOpen {C}.
Arguments EntEndReceived {C}.
Arguments EntEndSent {C}.

Inductive ShouldSendEnd : Type := Send | DontSend.
Inductive TerminateReason : Type := StreamTargetClosed | ExplicitEnd.

Definition RECV_WINDOW_INIT : Z := 500.

(** ** The map *)

Record StreamMap (C : Type) : Type := mkStreamMap {
  open_streams : StreamPollSet (OpenStreamEnt C);
  closed_streams : gmap Z (ClosedStreamEnt C);
  next_stream_id : Z;
  next_priority : Z }.
Arguments mkStreamMap {C}.
Arguments open_streams {C}.
Arguments closed_streams {C}.
Arguments next_stream_id {C}.
Arguments next_priority {C}.

Definition wrapping_next_stream_id (id : Z) : Z :=
  match checked_add u16_max id 1 with Some n => n | None => 1 end.

(** [first] is the random nonzero identifier to start from. *)
Definition StreamMap_new {C} (first : Z) : StreamMap C :=
  mkStreamMap StreamPollSet_new ∅ first 0.

Section streammap.
Context {C : Type} `{!CmdChecker C}.
Implicit Types (sm : StreamMap C).

Definition set_open (ps : StreamPollSet (OpenStreamEnt C)) sm : StreamMap C :=
  mkStreamMap ps (closed_streams sm) (next_stream_id sm) (next_priority sm).
Definition set_closed (m : gmap Z (ClosedStreamEnt C)) sm : StreamMap C :=
  mkStreamMap (open_streams sm) m (next_stream_id sm) (next_priority sm).
Definition set_next_id (id : Z) sm : StreamMap C :=
  mkStreamMap (open_streams sm) (closed_streams sm) id (next_priority sm).

Definition sm_n_open_streams sm : Z := ps_len (open_streams sm).

Definition take_next_priority {E} sm : res E (StreamMap C * Z) :=
  let rv := next_priority sm in
  n ← uadd u64_max rv 1;
  Ok (mkStreamMap (open_streams sm) (closed_streams sm) (next_stream_id sm) n, rv).

Definition new_ent (flow_ctrl : StreamFlowCtrl) (cmd_checker : C) : OpenStreamEnt C :=
  mkOpenEnt (Some []) 0 cmd_checker flow_ctrl [] false.

Fixpoint add_ent_loop (fuel : nat) (priority : Z) (ent : OpenStreamEnt C) sm :
    StreamMap C * res ProtoError Z :=
  match fuel with
  | O => (sm, Err IdRangeFull)
  | S fuel =>
      let id := next_stream_id sm in
      let sm := set_next_id (wrapping_next_stream_id id) sm in
      match try_insert id priority ent (open_streams sm) with
      | Ok ps => (set_open ps sm, Ok id)
      | Err KeyAlreadyInserted => add_ent_loop fuel priority ent sm
      | Panic => (sm, Panic)
      end
  end.

(** How often an identifier is tried. *)
Definition N_ID_ATTEMPTS : nat := Z.to_nat 65536.

(** The map afterwards, and the allocated identifier. *)
Definition sm_add_ent (flow_ctrl : StreamFlowCtrl) (cmd_checker : C) sm :
    StreamMap C * res ProtoError Z :=
  match take_next_priority (E:=ProtoError) sm with
  | Ok (sm, priority) => add_ent_loop N_ID_ATTEMPTS priority (new_ent flow_ctrl cmd_checker) sm
  | _ => (sm, Panic)
  end.

Definition add_ent_with_id (flow_ctrl : StreamFlowCtrl) (id : Z) (cmd_checker : C) sm :
    StreamMap C * res ProtoError unit :=
  match take_next_priority (E:=ProtoError) sm with
  | Ok (sm, priority) =>
      match try_insert id priority (new_ent flow_ctrl cmd_checker) (open_streams sm) with
      | Ok ps => (set_open ps sm, Ok tt)
      | Err KeyAlreadyInserted => (sm, Err (IdUnavailable id))
      | Panic => (sm, Panic)
      end
  | _ => (sm, Panic)
  end.

Definition get_mut (id : Z) sm : option (StreamEnt C) :=
  match stream id (open_streams sm) with
  | Some e => Some (EntOpen e)
  | None =>
      match closed_streams sm !! id with
      | Some EndReceived => Some EntEndReceived
      | Some (EndSent e) => Some (EntEndSent e)
      | None => None
      end
  end.

Definition ending_msg_received (now id : Z) sm : res ProtoError (StreamMap C) :=
  '(ps, removed) ← ps_remove now id (open_streams sm);
  match removed with
  | Some _ =>
      _ ← debug_assert (bool_decide (closed_streams sm !! id = None));
      Ok (set_open ps (set_closed (<[id := EndReceived]> (closed_streams sm)) sm))
  | None =>
      match closed_streams sm !! id with
      | None => Err (CircProto "Received END cell on nonexistent stream")
      | Some EndReceived => Err (CircProto "Received two END cells on same stream")
      | Some (EndSent _) => Ok (set_closed (delete id (closed_streams sm)) sm)
      end
  end.

(** The map afterwards, and whether an END ought to be sent. *)
Definition terminate (now id : Z) (why : TerminateReason) (expiry : Z) sm :
    StreamMap C * res ProtoError ShouldSendEnd :=
  match ps_remove (E:=ProtoError) now id (open_streams sm) with
  | Ok (ps, Some (_, ent)) =>
      let sm := set_open ps sm in
      match decrement_n (oe_dropped ent) (RecvWindow_new RECV_WINDOW_INIT) with
      | Ok recv_window =>
          let half := mkHalf (oe_flow ent) recv_window (oe_checker ent) in
          let dropped := match why with StreamTargetClosed => true | ExplicitEnd => false end in
          (set_closed (<[id := EndSent (mkEndSent half dropped expiry)]> (closed_streams sm)) sm,
           _ ← debug_assert (bool_decide (closed_streams sm !! id = None)); Ok Send)
      | Err e => (sm, Err e)
      | Panic => (sm, Panic)
      end
  | Ok (_, None) =>
      match closed_streams sm !! id with
      | None => (sm, Err (Internal "Somehow we terminated a nonexistent stream?"))
      | Some ent =>
          (set_closed (delete id (closed_streams sm)) sm,
           match ent with
           | EndReceived => Ok DontSend
           | EndSent e =>
               match explicitly_dropped e, why with
               | false, StreamTargetClosed => Ok DontSend
               | true, StreamTargetClosed =>
                   Err (Internal "Tried to close an already closed stream.")
               | _, ExplicitEnd => Err (Internal "Tried to end an already closed stream.")
               end
           end)
      end
  | _ => (sm, Panic)
  end.

(** [unobtrusive_peek] of a stream. *)
Definition unobtrusive_peek (e : OpenStreamEnt C) : option AnyRelayMsg :=
  match oe_rx e with
  | m :: _ => if can_send m (oe_flow e) then Some m else None
  | [] => None
  end.

Definition poll_ready_streams_iter {E} sm :
    res E (StreamMap C * list (Z * option AnyRelayMsg)) :=
  '(ps, l) ← poll_ready_iter_mut (open_streams sm);
  Ok (set_open ps sm, map (λ '(_, sid, ent), (sid, unobtrusive_peek ent)) l).

Definition take_ready_msg {E} (sid : Z) sm : res E (StreamMap C * option AnyRelayMsg) :=
  '(sm, new_priority) ← take_next_priority sm;
  '(ps, o) ← take_ready_value_and_reprioritize sid new_priority (open_streams sm);
  Ok (set_open ps sm, match o with Some (_, val) => Some val | None => None end).

Definition half_expired (now : Z) (ent : ClosedStreamEnt C) : bool :=
  match ent with EndReceived => false | EndSent e => expiry e <=? now end.

Definition remove_expired_halfstreams (now : Z) sm : StreamMap C :=
  set_closed (filter (λ x, half_expired now x.2 = false) (closed_streams sm)) sm.

(** ** Delivering messages *)

(** The entry after the message, whether the stream's flow control was opened, and whether the
    message closes the stream. *)
Definition deliver_msg_to_stream (ent : OpenStreamEnt C) (cell_counts_toward_windows : bool)
    (msg : UnparsedRelayMsg) : res ProtoError (OpenStreamEnt C * bool * bool) :=
  cmd ← unparsed_cmd msg;
  if cmd =? RelayCmd.SENDME then
    f ← put_for_incoming_sendme msg (oe_flow ent); Ok (set_flow f ent, true, false)
  else if cmd =? RelayCmd.XON then
    f ← handle_incoming_xon msg (oe_flow ent); Ok (set_flow f ent, false, false)
  else if cmd =? RelayCmd.XOFF then
    f ← handle_incoming_xoff msg (oe_flow ent); Ok (set_flow f ent, false, false)
  else
    '(c, status) ← check_msg msg (oe_checker ent);
    '(sink, dropped) ←
      match oe_sink ent with
      | Some q => Ok (Some (q ++ [msg]), oe_dropped ent)
      | None =>
          if cell_counts_toward_windows : bool
          then n ← uadd u16_max (oe_dropped ent) 1; Ok (None, n)
          else Ok (None, oe_dropped ent)
      end;
    Ok (mkOpenEnt sink dropped c (oe_flow ent) (oe_rx ent) (oe_rx_closed ent),
        false, match status with StatusClosed => true | StatusOpen => false end).

Definition opens_stream (cmd : Z) : bool :=
  one_of cmd [RelayCmd.BEGIN; RelayCmd.BEGIN_DIR; RelayCmd.RESOLVE].

(** The map afterwards, and whether the message is a stream request for the caller to handle.
    [violation] is the error for a message that no stream wants. *)
Definition handle_msg (violation : Z → ProtoError) (cell_counts_toward_windows : bool)
    (streamid : Z) (msg : UnparsedRelayMsg) (now : Z) sm :
    res ProtoError (StreamMap C * bool) :=
  match get_mut streamid sm with
  | Some (EntOpen ent) =>
      '(ent, woken, closes) ← deliver_msg_to_stream ent cell_counts_toward_windows msg;
      let ps := update_stream streamid ent (open_streams sm) in
      let sm := set_open (if woken : bool then wake_stream streamid ps else ps) sm in
      sm ← (if closes : bool then ending_msg_received now streamid sm else Ok sm);
      Ok (sm, false)
  | Some (EntEndSent e) =>
      if expiry e <=? now then Err (violation streamid)
      else
        cmd ← unparsed_cmd msg;
        if opens_stream cmd then
          sm ← ending_msg_received now streamid sm; Ok (sm, true)
        else
          '(half, status) ← half_handle_msg msg (half_stream e);
          let ent := EndSent (mkEndSent half (explicitly_dropped e) (expiry e)) in
          let sm := set_closed (<[streamid := ent]> (closed_streams sm)) sm in
          match status with
          | StatusOpen => Ok (sm, false)
          | StatusClosed => sm ← ending_msg_received now streamid sm; Ok (sm, false)
          end
  | None =>
      cmd ← unparsed_cmd msg;
      if opens_stream cmd then Ok (sm, true) else Err (violation streamid)
  | Some EntEndReceived => Err (violation streamid)
  end.

Definition about_to_send_on (stream_id : Z) (msg : AnyRelayMsg) sm :
    res ProtoError (StreamMap C) :=
  match get_mut stream_id sm with
  | Some (EntOpen ent) =>
      f ← about_to_send msg (oe_flow ent);
      Ok (set_open (update_stream stream_id (set_flow f ent) (open_streams sm)) sm)
  | _ => Err (CircProto "tried to send a relay cell on non-open stream")
  end.

(** ** Invariant

    An identifier is open or closed, not both; priorities are distinct and below the next one. *)

Definition sm_wf sm : Prop :=
  ps_wf (open_streams sm) ∧
  (∀ k, is_Some (priorities (open_streams sm) !! k) →
     1 ≤ k ≤ u16_max ∧ closed_streams sm !! k = None) ∧
  (∀ k p, priorities (open_streams sm) !! k = Some p → 0 ≤ p < next_priority sm) ∧
  (∀ k1 k2 p, priorities (open_streams sm) !! k1 = Some p →
     priorities (open_streams sm) !! k2 = Some p → k1 = k2) ∧
  1 ≤ next_stream_id sm ≤ u16_max ∧ 0 ≤ next_priority sm.

Lemma sm_open_bounded sm : sm_wf sm → ps_len (open_streams sm) < usize_max.
Proof.
  intros (_ & Hk & _). unfold ps_len.
  assert (Z.of_nat (size (priorities (open_streams sm))) ≤ u16_max); [|by eapply Z.le_lt_trans].
  apply size_bounded; [done|]. intros k p Hp. apply Hk. by eexists.
Qed.

Lemma sm_new_wf first : 1 ≤ first ≤ u16_max → sm_wf (StreamMap_new first).
Proof.
  intros. split_and!; simpl; try lia; [apply new_wf|..].
  - intros k [p Hp]. by rewrite lookup_empty in Hp.
  - intros k p Hp. by rewrite lookup_empty in Hp.
  - intros k1 k2 p Hp. by rewrite lookup_empty in Hp.
Qed.

(** *** Allocating identifiers *)

Lemma wrapping_next id :
  1 ≤ id ≤ u16_max → wrapping_next_stream_id id = 1 + id mod 65535.
Proof.
  intros. unfold wrapping_next_stream_id, checked_add, u16_max in *.
  destruct (Z.leb_spec (id + 1) 65535).
  - rewrite Z.mod_small by lia. lia.
  - replace id with 65535 by lia. done.
Qed.

(** The identifier that is tried after [n] others. *)
Definition nth_id (id n : Z) : Z := 1 + (id - 1 + n) mod 65535.

Lemma nth_id_next id n :
  1 ≤ id ≤ u16_max → nth_id (wrapping_next_stream_id id) n = nth_id id (n + 1).
Proof.
  intros. rewrite wrapping_next by done. unfold nth_id.
  replace (1 + id mod 65535 - 1 + n) with (id mod 65535 + n) by lia.
  rewrite Z.add_mod_idemp_l by done. f_equal. f_equal. lia.
Qed.

Lemma wrapping_next_range id : 1 ≤ id ≤ u16_max → 1 ≤ wrapping_next_stream_id id ≤ u16_max.
Proof.
  intros. rewrite wrapping_next by done. pose proof (Z.mod_pos_bound id 65535 ltac:(lia)).
  unfold u16_max. lia.
Qed.

(** Every identifier is tried within 65535 attempts. *)
Lemma nth_id_covers id target :
  1 ≤ id ≤ u16_max → 1 ≤ target ≤ u16_max → ∃ n, 0 ≤ n < 65535 ∧ nth_id id n = target.
Proof.
  intros Hid Ht. exists ((target - id) mod 65535). split; [by apply Z.mod_pos_bound|].
  unfold nth_id, u16_max in *. rewrite Z.add_mod_idemp_r by done.
  replace (id - 1 + (target - id)) with (target - 1) by lia. rewrite Z.mod_small by lia. lia.
Qed.

Lemma add_ent_loop_spec fuel priority ent sm :
  ps_wf (open_streams sm) → ps_len (open_streams sm) < usize_max →
  1 ≤ next_stream_id sm ≤ u16_max →
  match add_ent_loop fuel priority ent sm with
  | (sm', Ok id) =>
      1 ≤ id ≤ u16_max ∧ 1 ≤ next_stream_id sm' ≤ u16_max ∧
      priorities (open_streams sm) !! id = None ∧
      closed_streams sm' = closed_streams sm ∧ next_priority sm' = next_priority sm ∧
      ps_wf (open_streams sm') ∧
      priorities (open_streams sm') = <[id := priority]> (priorities (open_streams sm)) ∧
      contents (open_streams sm') id = Some (priority, ent) ∧
      ∀ k, k ≠ id → contents (open_streams sm') k = contents (open_streams sm) k
  | (sm', Err e) =>
      e = IdRangeFull ∧ open_streams sm' = open_streams sm ∧
      closed_streams sm' = closed_streams sm ∧ next_priority sm' = next_priority sm ∧
      1 ≤ next_stream_id sm' ≤ u16_max ∧
      ∀ n, 0 ≤ n < Z.of_nat fuel →
           is_Some (priorities (open_streams sm) !! nth_id (next_stream_id sm) n)
  | (_, Panic) => False
  end.
Proof.
  revert sm. induction fuel as [|fuel IH]; intros sm Hwf Hlen Hid; cbn [add_ent_loop].
  { split_and!; try done; lia. }
  pose proof (try_insert_spec (next_stream_id sm) priority ent (open_streams sm) Hwf Hlen) as Hins.
  cbn [open_streams set_next_id].
  destruct (priorities (open_streams sm) !! next_stream_id sm) as [p|] eqn:Hp.
  - rewrite Hins.
    specialize (IH (set_next_id (wrapping_next_stream_id (next_stream_id sm)) sm) Hwf Hlen
                  (wrapping_next_range _ Hid)).
    destruct (add_ent_loop _ _ _ _) as [sm' [id|e|]]; [done| |done].
    destruct IH as (? & ? & ? & ? & ? & Hall). split_and!; try done; try lia.
    intros n Hn. destruct (decide (n = 0)) as [->|].
    + unfold nth_id. rewrite Z.add_0_r, Z.mod_small by (unfold u16_max in *; lia).
      replace (1 + (next_stream_id sm - 1)) with (next_stream_id sm) by lia. by eexists.
    + specialize (Hall (n - 1) ltac:(lia)). simpl in Hall.
      rewrite nth_id_next in Hall by done. by rewrite Z.sub_add in Hall.
  - destruct Hins as (ps' & -> & Hwf' & Hprio & Hkey & Hother).
    pose proof (wrapping_next_range _ Hid). split_and!; try done; simpl; lia.
Qed.

(** Allocating a stream identifier succeeds whenever one of the 65535 identifiers is not
    open, however far it is from the next one to try; the identifier was not open, and opening it
    changes no other stream.  It never panics. *)
Theorem sm_add_ent_total (flow_ctrl : StreamFlowCtrl) (checker : C) sm :
  sm_wf sm → next_priority sm < u64_max →
  match sm_add_ent flow_ctrl checker sm with
  | (sm', Ok id) =>
      1 ≤ id ≤ u16_max ∧ contents (open_streams sm) id = None ∧
      contents (open_streams sm') id = Some (next_priority sm, new_ent flow_ctrl checker) ∧
      (∀ k, k ≠ id → contents (open_streams sm') k = contents (open_streams sm) k) ∧
      closed_streams sm' = closed_streams sm
  | (sm', Err e) =>
      e = IdRangeFull ∧ ∀ id, 1 ≤ id ≤ u16_max → is_Some (contents (open_streams sm) id)
  | (_, Panic) => False
  end.
Proof.
  intros Hsm Hmax. pose proof (sm_open_bounded sm Hsm) as Hlen.
  destruct Hsm as (Hwf & _ & _ & _ & Hid & _).
  unfold sm_add_ent, take_next_priority. rewrite uadd_ok by lia. rewrite ok_bind.
  pose proof (add_ent_loop_spec N_ID_ATTEMPTS (next_priority sm) (new_ent flow_ctrl checker)
    (mkStreamMap (open_streams sm) (closed_streams sm) (next_stream_id sm) (next_priority sm + 1))
    Hwf Hlen Hid) as Hloop.
  destruct (add_ent_loop _ _ _ _) as [sm' [id|e|]]; [| |done].
  - destruct Hloop as (? & _ & Hfree & ? & _ & _ & _ & ? & ?). split_and!; try done; try lia.
    unfold contents. simpl in Hfree. by rewrite Hfree.
  - destruct Hloop as (-> & _ & _ & _ & _ & Hall). split; [done|]. intros id Hrange.
    destruct (nth_id_covers (next_stream_id sm) id Hid Hrange) as (n & Hn & <-).
    destruct (Hall n) as [p Hp]; [unfold N_ID_ATTEMPTS; lia|]. simpl in Hp.
    destruct (contents_some (open_streams sm) _ p Hwf Hp) as (s & -> & _). by eexists.
Qed.

(** *** The states of a stream *)

Inductive StreamView : Type := VIdle | VOpen | VEndSent | VEndReceived.

Definition view sm (id : Z) : StreamView :=
  match priorities (open_streams sm) !! id with
  | Some _ => VOpen
  | None => match closed_streams sm !! id with
            | None => VIdle
            | Some EndReceived => VEndReceived
            | Some (EndSent _) => VEndSent
            end
  end.

(** What the map holds for an identifier: an open stream, a closed one, or, once the identifiers
    have wrapped around, both. *)
Definition state sm (id : Z) : option (OpenStreamEnt C) * option (ClosedStreamEnt C) :=
  (snd <$> contents (open_streams sm) id, closed_streams sm !! id).

Inductive StreamEvent : Type :=
| EvAdd (flow_ctrl : StreamFlowCtrl) (checker : C)
| EvAddWithId (flow_ctrl : StreamFlowCtrl) (id : Z) (checker : C)
| EvEnding (now id : Z)
| EvTerminate (now id : Z) (why : TerminateReason) (expiry : Z)
| EvPollReady
| EvTakeReady (id : Z)
| EvExpire (now : Z).

(** What the operations return. *)
Inductive EventReply : Type :=
| Done
| NewId (id : Z)
| EndWanted (s : ShouldSendEnd)
| Listed (l : list (Z * option AnyRelayMsg))
| Took (msg : option AnyRelayMsg).

(** An operation that fails changes nothing. *)
Definition or_keep {A} sm (x : res ProtoError (StreamMap C * A)) : StreamMap C * res ProtoError A :=
  match x with Ok (sm, a) => (sm, Ok a) | Err e => (sm, Err e) | Panic => (sm, Panic) end.

(** The map after an event, and what the operation returns. *)
Definition stream_event (ev : StreamEvent) sm : StreamMap C * res ProtoError EventReply :=
  match ev with
  | EvAdd f c => let '(sm, r) := sm_add_ent f c sm in (sm, id ← r; Ok (NewId id))
  | EvAddWithId f id c => let '(sm, r) := add_ent_with_id f id c sm in (sm, _ ← r; Ok Done)
  | EvEnding now id => or_keep sm (sm ← ending_msg_received now id sm; Ok (sm, Done))
  | EvTerminate now id why expiry =>
      let '(sm, r) := terminate now id why expiry sm in (sm, s ← r; Ok (EndWanted s))
  | EvPollReady => or_keep sm ('(sm, l) ← poll_ready_streams_iter sm; Ok (sm, Listed l))
  | EvTakeReady id => or_keep sm ('(sm, m) ← take_ready_msg id sm; Ok (sm, Took m))
  | EvExpire now => (remove_expired_halfstreams now sm, Ok Done)
  end.

(** The streams that an event is about. *)
Definition concerns (ev : StreamEvent) (r : res ProtoError EventReply) (id : Z) : Prop :=
  match ev with
  | EvAdd _ _ => r = Ok (NewId id) ∨ (r = Err IdRangeFull ∧ 1 ≤ id ≤ u16_max)
  | EvAddWithId _ k _ | EvEnding _ k | EvTerminate _ k _ _ | EvTakeReady k => id = k
  | EvPollReady => False
  | EvExpire _ => True
  end.

(** The stream after our END: what the peer may still send, within the rest of the window. *)
Definition after_end (why : TerminateReason) (expiry : Z) (e : OpenStreamEnt C) : EndSentStreamEnt C :=
  mkEndSent (mkHalf (oe_flow e) (mkRecvWindow (RECV_WINDOW_INIT - oe_dropped e)) (oe_checker e))
    (match why with StreamTargetClosed => true | ExplicitEnd => false end) expiry.

(** How an event with its result changes the state of the stream [id]. *)
Inductive stream_step (id : Z) : StreamEvent → res ProtoError EventReply →
    option (OpenStreamEnt C) * option (ClosedStreamEnt C) →
    option (OpenStreamEnt C) * option (ClosedStreamEnt C) → Prop :=
| ss_other ev r v : ¬ concerns ev r id → stream_step id ev r v v
| ss_opened f c v : stream_step id (EvAdd f c) (Ok (NewId id)) (None, v) (Some (new_ent f c), v)
| ss_full f c e v : stream_step id (EvAdd f c) (Err IdRangeFull) (Some e, v) (Some e, v)
| ss_opened_id f c v : stream_step id (EvAddWithId f id c) (Ok Done) (None, v) (Some (new_ent f c), v)
| ss_in_use f c e v : stream_step id (EvAddWithId f id c) (Err (IdUnavailable id)) (Some e, v) (Some e, v)
| ss_end_open now e : stream_step id (EvEnding now id) (Ok Done) (Some e, None) (None, Some EndReceived)
| ss_end_sent now h : stream_step id (EvEnding now id) (Ok Done) (None, Some (EndSent h)) (None, None)
| ss_end_idle now :
    stream_step id (EvEnding now id) (Err (CircProto "Received END cell on nonexistent stream"))
      (None, None) (None, None)
| ss_end_twice now :
    stream_step id (EvEnding now id) (Err (CircProto "Received two END cells on same stream"))
      (None, Some EndReceived) (None, Some EndReceived)
| ss_end_clash now e c v : stream_step id (EvEnding now id) Panic (Some e, Some c) v
| ss_term_open now why expiry e : oe_dropped e ≤ RECV_WINDOW_INIT →
    stream_step id (EvTerminate now id why expiry) (Ok (EndWanted Send))
      (Some e, None) (None, Some (EndSent (after_end why expiry e)))
| ss_term_clash now why expiry e c v : oe_dropped e ≤ RECV_WINDOW_INIT →
    stream_step id (EvTerminate now id why expiry) Panic (Some e, Some c) v
| ss_term_overrun now why expiry e v : RECV_WINDOW_INIT < oe_dropped e →
    stream_step id (EvTerminate now id why expiry) (Err (CircProto "Received too many cells on a stream"))
      (Some e, v) (None, v)
| ss_term_idle now why expiry :
    stream_step id (EvTerminate now id why expiry)
      (Err (Internal "Somehow we terminated a nonexistent stream?")) (None, None) (None, None)
| ss_term_received now why expiry :
    stream_step id (EvTerminate now id why expiry) (Ok (EndWanted DontSend))
      (None, Some EndReceived) (None, None)
| ss_term_dropped now expiry h : explicitly_dropped h = false →
    stream_step id (EvTerminate now id StreamTargetClosed expiry) (Ok (EndWanted DontSend))
      (None, Some (EndSent h)) (None, None)
| ss_term_again now expiry h : explicitly_dropped h = true →
    stream_step id (EvTerminate now id StreamTargetClosed expiry)
      (Err (Internal "Tried to close an already closed stream.")) (None, Some (EndSent h)) (None, None)
| ss_term_ended now expiry h :
    stream_step id (EvTerminate now id ExplicitEnd expiry)
      (Err (Internal "Tried to end an already closed stream.")) (None, Some (EndSent h)) (None, None)
| ss_took m e v : ent_poll_peek e = Ready (Some m) →
    stream_step id (EvTakeReady id) (Ok (Took (Some m))) (Some e, v) (Some (ent_poll_next e).2, v)
| ss_took_none v : stream_step id (EvTakeReady id) (Ok (Took None)) v v
| ss_expired now h v : expiry h ≤ now →
    stream_step id (EvExpire now) (Ok Done) (v, Some (EndSent h)) (v, None)
| ss_not_expired now v : from_option (half_expired now) false v.2 = false →
    stream_step id (EvExpire now) (Ok Done) v v.

(** What the callers take care of: identifiers are not zero, a stream is read from only before it
    has ended, and the priorities do not run out. *)
Definition stream_event_ok (ev : StreamEvent) sm : Prop :=
  match ev with
  | EvAdd _ _ => next_priority sm < u64_max
  | EvAddWithId _ id _ => next_priority sm < u64_max ∧ 1 ≤ id ≤ u16_max
  | EvTakeReady id => next_priority sm < u64_max ∧
                      ∀ p s, contents (open_streams sm) id = Some (p, s) → poll_peek s ≠ Ready None
  | _ => True
  end.

(** The invariant without the condition that no identifier is open and closed at once. *)
Definition sm_base sm : Prop :=
  ps_wf (open_streams sm) ∧
  (∀ k p, priorities (open_streams sm) !! k = Some p → 1 ≤ k ≤ u16_max ∧ 0 ≤ p < next_priority sm) ∧
  (∀ k1 k2 p, priorities (open_streams sm) !! k1 = Some p →
     priorities (open_streams sm) !! k2 = Some p → k1 = k2) ∧
  1 ≤ next_stream_id sm ≤ u16_max ∧ 0 ≤ next_priority sm.

Lemma open_removed sm id :
  ps_wf (open_streams sm) →
  (is_Some (contents (open_streams sm) id) ↔ is_Some (priorities (open_streams sm) !! id)).
Proof.
  intros Hwf. split.
  - intros [x Hx]. unfold contents in Hx. destruct (priorities _ !! id); [by eexists|done].
  - intros [p Hp]. destruct (contents_some _ _ _ Hwf Hp) as (s & -> & _). by eexists.
Qed.

Lemma state_view sm id :
  ps_wf (open_streams sm) →
  view sm id = match state sm id with
               | (Some _, _) => VOpen
               | (None, None) => VIdle
               | (None, Some EndReceived) => VEndReceived
               | (None, Some (EndSent _)) => VEndSent
               end.
Proof.
  intros Hwf. unfold view, state. destruct (priorities (open_streams sm) !! id) as [p|] eqn:Hp.
  - by destruct (contents_some _ _ _ Hwf Hp) as (s & -> & _).
  - unfold contents. rewrite Hp. by destruct (closed_streams sm !! id) as [[]|].
Qed.

(** An identifier that is open and closed at once. *)
Definition clash sm (id : Z) : Prop := is_Some (state sm id).1 ∧ is_Some (state sm id).2.

Lemma sm_wf_base sm : sm_wf sm ↔ sm_base sm ∧ ∀ id, ¬ clash sm id.
Proof.
  unfold clash, state. simpl. split.
  - intros (? & Hk & Hp & ? & ? & ?). split.
    + split_and!; try done; try lia. intros k p Hkp. split; [apply Hk; by eexists|by eapply Hp].
    + intros id [[e ([p e'] & Hc & _)%fmap_Some] [c Hcl]].
      destruct (Hk id) as [_ ?]; [apply open_removed; [done|by eexists]|congruence].
  - intros [(? & Hk & ? & ? & ?) Hno]. split_and!; try done; try lia.
    + intros k Hkp. split; [destruct Hkp as [p Hkp]; by apply (Hk k p)|].
      destruct (closed_streams sm !! k) eqn:Hcl; [|done]. destruct (Hno k). rewrite Hcl.
      split; [apply fmap_is_Some, open_removed; done|done].
    + intros k p Hkp. by apply (Hk k p).
Qed.

Lemma sm_base_bounded sm : sm_base sm → ps_len (open_streams sm) < usize_max.
Proof.
  intros (_ & Hk & _). unfold ps_len.
  assert (Z.of_nat (size (priorities (open_streams sm))) ≤ u16_max); [|by eapply Z.le_lt_trans].
  apply size_bounded; [done|]. intros k p Hp. by apply (Hk k p).
Qed.

(** No open stream gets a priority but a new one. *)
Definition prio_kept sm sm' : Prop :=
  ∀ k p, priorities (open_streams sm') !! k = Some p →
         priorities (open_streams sm) !! k = Some p ∨ next_priority sm ≤ p.

Definition event_result (ev : StreamEvent) sm (x : StreamMap C * res ProtoError EventReply) : Prop :=
  (∀ id, stream_step id ev x.2 (state sm id) (state x.1 id)) ∧
  (x.2 = Panic → ∃ id, clash sm id) ∧ (x.2 ≠ Panic → sm_base x.1 ∧ prio_kept sm x.1).

(** No new open streams. *)
Lemma base_shrink ps closed next n sm :
  sm_base sm → ps_wf ps → 1 ≤ next ≤ u16_max → next_priority sm ≤ n →
  (∀ k p, priorities ps !! k = Some p → priorities (open_streams sm) !! k = Some p) →
  let sm' := mkStreamMap ps closed next n in sm_base sm' ∧ prio_kept sm sm'.
Proof.
  intros (_ & Hk & Hinj & _ & Hn) Hwf Hnext Hle Hsub sm'.
  split; [|intros k p ?%Hsub; by left]. split_and!; simpl; try done; try lia.
  - intros k p []%Hsub%Hk. split; lia.
  - intros k1 k2 p H1%Hsub H2%Hsub. by eapply Hinj.
Qed.

(** One stream that gets the next priority. *)
Lemma base_insert ps id closed next sm :
  sm_base sm → ps_wf ps → priorities ps = <[id := next_priority sm]> (priorities (open_streams sm)) →
  1 ≤ id ≤ u16_max → 1 ≤ next ≤ u16_max →
  let sm' := mkStreamMap ps closed next (next_priority sm + 1) in sm_base sm' ∧ prio_kept sm sm'.
Proof.
  intros (_ & Hk & Hinj & _ & Hn) Hwf Heq Hrange Hnext sm'.
  assert (∀ k p, priorities ps !! k = Some p →
    (k = id ∧ p = next_priority sm) ∨ (k ≠ id ∧ priorities (open_streams sm) !! k = Some p)) as Hcases.
  { intros k p. rewrite Heq, lookup_insert_Some. intros [[<- <-]|[? ?]]; auto. }
  split; [|intros k p [[_ ->]|[_ ?]]%Hcases; [right; lia|by left]].
  split_and!; simpl; try done; try lia.
  - intros k p [[-> ->]|[_ []%Hk]]%Hcases; split; lia.
  - intros k1 k2 p [[-> ->]|[? H1]]%Hcases [[-> Hx]|[? H2]]%Hcases; try done.
    + apply Hk in H2. lia.
    + subst. apply Hk in H1. lia.
    + by eapply Hinj.
Qed.

Lemma sm_wf_shrink ps closed sm :
  sm_wf sm → ps_wf ps →
  (∀ k p, priorities ps !! k = Some p →
     priorities (open_streams sm) !! k = Some p ∧ closed !! k = None) →
  sm_wf (mkStreamMap ps closed (next_stream_id sm) (next_priority sm)).
Proof.
  intros [Hb _]%sm_wf_base Hwf Hsub. apply sm_wf_base. split.
  - pose proof Hb as (_ & _ & _ & ? & _). apply (base_shrink ps closed _ _ sm); try done.
    intros k p Hp. by apply Hsub.
  - intros id [[e ([p e'] & Hc & _)%fmap_Some] Hcl]. simpl in *.
    destruct (proj1 (open_removed (mkStreamMap ps closed 0 0) id Hwf)) as [q Hq]; [by eexists|].
    destruct (Hsub id q Hq) as [_ Hn]. rewrite Hn in Hcl. by destruct Hcl.
Qed.

Lemma add_ent_step f c sm :
  sm_base sm → stream_event_ok (EvAdd f c) sm → event_result (EvAdd f c) sm (stream_event (EvAdd f c) sm).
Proof.
  intros Hsm Hmax. pose proof (sm_base_bounded sm Hsm) as Hlen. simpl in Hmax. unfold stream_event.
  pose proof Hsm as (Hwf & _ & _ & Hid & Hn).
  unfold sm_add_ent, take_next_priority. rewrite uadd_ok, ok_bind by lia.
  pose proof (add_ent_loop_spec N_ID_ATTEMPTS (next_priority sm) (new_ent f c)
    (mkStreamMap (open_streams sm) (closed_streams sm) (next_stream_id sm) (next_priority sm + 1))
    Hwf Hlen Hid) as Hloop.
  destruct (add_ent_loop _ _ _ _) as [[ps' cl' nid' np'] [id|e|]]; simpl in *; [| |done].
  - destruct Hloop as (Hid' & Hnext & Hfree & -> & -> & Hwf' & Hprio & Hkey & Hother).
    split_and!; [|done|intros _; by eapply base_insert]. intros k. unfold state. simpl.
    destruct (decide (k = id)) as [->|].
    + rewrite Hkey. unfold contents. rewrite Hfree. apply ss_opened.
    + rewrite Hother by done. apply ss_other. simpl. naive_solver.
  - destruct Hloop as (-> & -> & -> & -> & Hnext & Hall).
    split_and!; [|done|intros _; apply (base_shrink _ _ _ _ sm); try done; lia].
    intros k. destruct (decide (1 ≤ k ≤ u16_max)) as [Hk|]; [|apply ss_other; simpl; naive_solver].
    destruct (nth_id_covers (next_stream_id sm) k Hid Hk) as (n & Hn' & <-).
    destruct (Hall n) as [p Hp]; [unfold N_ID_ATTEMPTS; lia|]. unfold state. simpl.
    destruct (contents_some _ _ p Hwf Hp) as (s & -> & _). apply ss_full.
Qed.

Lemma add_ent_with_id_step f id c sm :
  sm_base sm → stream_event_ok (EvAddWithId f id c) sm →
  event_result (EvAddWithId f id c) sm (stream_event (EvAddWithId f id c) sm).
Proof.
  intros Hsm (Hmax & Hid). pose proof (sm_base_bounded sm Hsm) as Hlen. unfold stream_event.
  pose proof Hsm as (Hwf & _ & _ & Hnext & Hn).
  unfold add_ent_with_id, take_next_priority. rewrite uadd_ok, ok_bind by lia. simpl.
  pose proof (try_insert_spec id (next_priority sm) (new_ent f c) (open_streams sm) Hwf Hlen) as Hins.
  destruct (priorities (open_streams sm) !! id) as [p|] eqn:Hp.
  - rewrite Hins. split_and!; [|done|intros _; apply (base_shrink _ _ _ _ sm); try done; lia].
    intros k. destruct (decide (k = id)) as [->|]; [|by apply ss_other]. unfold state. simpl.
    destruct (contents_some _ _ p Hwf Hp) as (s & -> & _). apply ss_in_use.
  - destruct Hins as (ps' & -> & Hwf' & Hprio & Hkey & Hother).
    split_and!; [|done|intros _; by eapply base_insert]. intros k. unfold state. simpl.
    destruct (decide (k = id)) as [->|].
    + rewrite Hkey. unfold contents. rewrite Hp. apply ss_opened_id.
    + rewrite Hother by done. by apply ss_other.
Qed.

(** The stream [id] is taken out of the open ones. *)
Lemma removed_state now id sm :
  sm_base sm →
  ∃ ps', ps_remove (E:=ProtoError) now id (open_streams sm) = Ok (ps', contents (open_streams sm) id) ∧
    ps_wf ps' ∧ (∀ k p, priorities ps' !! k = Some p → priorities (open_streams sm) !! k = Some p) ∧
    contents ps' id = None ∧ ∀ k, k ≠ id → contents ps' k = contents (open_streams sm) k.
Proof.
  intros (Hwf & _). destruct (ps_remove_spec (E:=ProtoError) now id (open_streams sm) Hwf)
    as (ps' & Hrm & Hwf' & Hprio & Hkey & Hother). exists ps'. split_and!; try done.
  intros k p. rewrite Hprio. by intros [_ ?]%lookup_delete_Some.
Qed.

(** The open streams are [ps'], and the closed ones differ at [id] at most. *)
Lemma base_closed ps' closed sm :
  sm_base sm → ps_wf ps' →
  (∀ k p, priorities ps' !! k = Some p → priorities (open_streams sm) !! k = Some p) →
  let sm' := mkStreamMap ps' closed (next_stream_id sm) (next_priority sm) in
  sm_base sm' ∧ prio_kept sm sm'.
Proof. intros Hsm Hwf Hsub. pose proof Hsm as (_ & _ & _ & ? & _). by apply base_shrink. Qed.

Lemma base_forget id sm :
  sm_base sm → let sm' := set_closed (delete id (closed_streams sm)) sm in sm_base sm' ∧ prio_kept sm sm'.
Proof. intros Hsm. by apply (base_closed (open_streams sm) _ sm); [|apply Hsm|]. Qed.

(** Events about one stream: it suffices to look at that stream. *)
Lemma one_stream ev id sm x :
  (∀ r k, k ≠ id → ¬ concerns ev r k) →
  (∀ k, k ≠ id → state x.1 k = state sm k) →
  stream_step id ev x.2 (state sm id) (state x.1 id) →
  ∀ k, stream_step k ev x.2 (state sm k) (state x.1 k).
Proof.
  intros Hev Hother Hid k. destruct (decide (k = id)) as [->|Hne]; [done|].
  rewrite Hother by done. by apply ss_other, Hev.
Qed.

Lemma ending_step now id sm :
  sm_base sm → event_result (EvEnding now id) sm (stream_event (EvEnding now id) sm).
Proof.
  intros Hsm. unfold stream_event, ending_msg_received.
  destruct (removed_state now id sm Hsm) as (ps' & -> & Hwf' & Hsub & Hkey & Hother). rewrite ok_bind.
  destruct (contents (open_streams sm) id) as [[p e]|] eqn:Hc;
    [destruct (closed_streams sm !! id) as [c|] eqn:Hcl
    |destruct (closed_streams sm !! id) as [[|h]|] eqn:Hcl]; simpl.
  - split_and!; [apply (one_stream _ id); [done|done|]|intros _; exists id|done];
      unfold clash, state; simpl; rewrite Hc, Hcl; simpl; [apply ss_end_clash|by eauto].
  - split_and!; [apply (one_stream _ id); [done| |]|done|intros _; by apply (base_closed ps' _ sm)].
    + intros k Hne. unfold state. simpl. by rewrite Hother, lookup_insert_ne by done.
    + unfold state. simpl. rewrite Hc, Hcl, Hkey, lookup_insert_eq. apply ss_end_open.
  - split_and!; [apply (one_stream _ id); [done|done|]|done|intros _; split; [done|by left]].
    unfold state. simpl. rewrite Hc, Hcl. apply ss_end_twice.
  - split_and!; [apply (one_stream _ id); [done| |]|done|intros _; by apply base_forget].
    + intros k Hne. unfold state. simpl. by rewrite lookup_delete_ne by done.
    + unfold state. simpl. rewrite Hc, Hcl, lookup_delete_eq. apply ss_end_sent.
  - split_and!; [apply (one_stream _ id); [done|done|]|done|intros _; split; [done|by left]].
    unfold state. simpl. rewrite Hc, Hcl. apply ss_end_idle.
Qed.

Lemma terminate_open_step now id why expiry p e sm :
  sm_base sm → contents (open_streams sm) id = Some (p, e) →
  event_result (EvTerminate now id why expiry) sm (stream_event (EvTerminate now id why expiry) sm).
Proof.
  intros Hsm Hc. unfold stream_event, terminate.
  destruct (removed_state now id sm Hsm) as (ps' & -> & Hwf' & Hsub & Hkey & Hother). rewrite Hc.
  unfold decrement_n, checked_sub. simpl rw_window.
  destruct (Z.leb_spec (oe_dropped e) RECV_WINDOW_INIT); simpl.
  - destruct (closed_streams sm !! id) as [c|] eqn:Hcl; simpl.
    + split_and!; [apply (one_stream _ id); [done| |]|intros _; exists id|done].
      * intros k Hne. unfold state. simpl. by rewrite Hother, lookup_insert_ne by done.
      * unfold state. simpl. rewrite Hc, Hcl. by apply ss_term_clash.
      * unfold clash, state. simpl. rewrite Hc, Hcl. by eauto.
    + split_and!; [apply (one_stream _ id); [done| |]|done|intros _; by apply (base_closed ps' _ sm)].
      * intros k Hne. unfold state. simpl. by rewrite Hother, lookup_insert_ne by done.
      * unfold state. simpl. rewrite Hc, Hcl, Hkey, lookup_insert_eq. by apply ss_term_open.
  - split_and!; [apply (one_stream _ id); [done| |]|done|intros _; by apply (base_closed ps' _ sm)].
    + intros k Hne. unfold state. simpl. by rewrite Hother by done.
    + unfold state. simpl. rewrite Hc, Hkey. by apply ss_term_overrun.
Qed.

Lemma terminate_step now id why expiry sm :
  sm_base sm →
  event_result (EvTerminate now id why expiry) sm (stream_event (EvTerminate now id why expiry) sm).
Proof.
  intros Hsm. destruct (contents (open_streams sm) id) as [[p e]|] eqn:Hc;
    [by eapply terminate_open_step|]. unfold stream_event, terminate.
  destruct (removed_state now id sm Hsm) as (ps' & -> & _). rewrite Hc.
  destruct (closed_streams sm !! id) as [c|] eqn:Hcl; last first.
  { split_and!; [apply (one_stream _ id); [done|done|]|done|intros _; split; [done|by left]].
    unfold state. simpl. rewrite Hc, Hcl. apply ss_term_idle. }
  assert (∀ k, k ≠ id → state (set_closed (delete id (closed_streams sm)) sm) k = state sm k) as Hother.
  { intros k Hne. unfold state. simpl. by rewrite lookup_delete_ne by done. }
  assert (state (set_closed (delete id (closed_streams sm)) sm) id = (None, None)) as Hid.
  { unfold state. simpl. by rewrite Hc, lookup_delete_eq. }
  assert (state sm id = (None, Some c)) as Hst by (unfold state; by rewrite Hc, Hcl).
  pose proof (base_forget id sm Hsm) as Hb.
  destruct c as [|h]; [|destruct (explicitly_dropped h) eqn:Hd, why];
    (split_and!; [apply (one_stream _ id); [done|done|simpl; rewrite Hid, Hst]|done|by intros _]);
    by constructor.
Qed.

Lemma poll_ready_step sm : sm_base sm → event_result EvPollReady sm (stream_event EvPollReady sm).
Proof.
  intros Hsm. unfold stream_event, poll_ready_streams_iter, poll_ready_iter_mut.
  destruct (poll_ready_spec (E:=ProtoError)
    (length (kf_notifications (pending_streams (open_streams sm)))) (open_streams sm) (proj1 Hsm))
    as (ps' & -> & Hwf' & Hprio & Hcont); [done|]. simpl.
  split_and!; [|done|intros _; apply (base_closed ps' _ sm); [done..|by rewrite Hprio]].
  intros k. unfold state. simpl. rewrite Hcont. apply ss_other; by intros [].
Qed.

(** Taking a message gives the stream the next priority. *)
Lemma take_ready_prio id sm :
  sm_base sm → stream_event_ok (EvTakeReady id) sm →
  ∃ sm' o, take_ready_msg (E:=ProtoError) id sm = Ok (sm', o) ∧
           event_result (EvTakeReady id) sm (sm', Ok (Took o)) ∧
           (is_Some o → priorities (open_streams sm') !! id = Some (next_priority sm)) ∧
           ∀ k, k ≠ id → priorities (open_streams sm') !! k = priorities (open_streams sm) !! k.
Proof.
  intros Hsm [Hmax Hended]. pose proof Hsm as (Hwf & Hk & _ & Hnext & Hn).
  unfold take_ready_msg, take_next_priority. rewrite uadd_ok, ok_bind by lia. simpl.
  destruct (take_ready_spec (E:=ProtoError) id (next_priority sm) (open_streams sm) Hwf Hended)
    as (ps' & o & -> & Hwf' & Ho). simpl. eexists _, _. split; [done|]. destruct o as [[p v]|].
  - destruct Ho as (Hprio & e & Hc & Hpeek & _ & Hkey & Hother).
    destruct (proj1 (open_removed sm id Hwf)) as [q Hq]; [by eexists|].
    split; [|split; [intros _; simpl; by rewrite Hprio, lookup_insert_eq|
      intros k ?; simpl; by rewrite Hprio, lookup_insert_ne]].
    split_and!; [apply (one_stream _ id); [done| |]|done|intros _].
    + intros k Hne. unfold state. simpl. by rewrite Hother.
    + unfold state. simpl. rewrite Hc, Hkey. by apply ss_took.
    + apply (base_insert ps' id _ _ sm); try done. by apply (Hk id q).
  - destruct Ho as (Hprio & Hcont & _).
    split; [|split; [by intros [? ?]|intros k _; simpl; by rewrite Hprio]].
    split_and!; [apply (one_stream _ id); [done| |]|done|intros _].
    + intros k Hne. unfold state. simpl. by rewrite Hcont.
    + unfold state. simpl. rewrite Hcont. apply ss_took_none.
    + apply (base_shrink ps' _ _ _ sm); [done|done|done|simpl; lia|by rewrite Hprio].
Qed.

Lemma expire_step now sm : sm_base sm → event_result (EvExpire now) sm (stream_event (EvExpire now) sm).
Proof.
  intros Hsm. split_and!; [|done|intros _; by apply (base_closed (open_streams sm) _ sm); [|apply Hsm|]].
  intros k. unfold state. simpl. rewrite map_lookup_filter.
  destruct (closed_streams sm !! k) as [c|] eqn:Hcl; simpl; [|by apply ss_not_expired].
  destruct (half_expired now c) eqn:Hc; simpl.
  - destruct c as [|h]; [done|]. apply ss_expired. simpl in Hc. zify_bool. lia.
  - by apply ss_not_expired.
Qed.

Lemma stream_event_step ev sm :
  sm_base sm → stream_event_ok ev sm → event_result ev sm (stream_event ev sm).
Proof.
  intros Hsm Hok. destruct ev as [f c|f id c|now id|now id why expiry| |id|now].
  - by apply add_ent_step.
  - by apply add_ent_with_id_step.
  - by apply ending_step.
  - by apply terminate_step.
  - by apply poll_ready_step.
  - destruct (take_ready_prio id sm Hsm Hok) as (sm' & o & Heq & H & _). unfold stream_event. by rewrite Heq.
  - by apply expire_step.
Qed.

(** The identifier that an event opens. *)
Definition opens (ev : StreamEvent) (r : res ProtoError EventReply) (id : Z) : Prop :=
  match ev with
  | EvAdd _ _ => r = Ok (NewId id)
  | EvAddWithId _ k _ => r = Ok Done ∧ id = k
  | _ => False
  end.

Lemma step_no_clash id ev r v v' :
  stream_step id ev r v v' → r ≠ Panic → (opens ev r id → v.2 = None) →
  ¬ (is_Some v.1 ∧ is_Some v.2) → ¬ (is_Some v'.1 ∧ is_Some v'.2).
Proof.
  intros Hstep Hr Hfree Hno [H1 H2]. destruct Hstep; simpl in *; try done;
    try (by destruct Hno; eauto); try (by destruct H1); try (by destruct H2).
  - rewrite (Hfree eq_refl) in H2. by destruct H2.
  - rewrite (Hfree (conj eq_refl eq_refl)) in H2. by destruct H2.
Qed.

Lemma step_wf ev sm :
  sm_wf sm → stream_event_ok ev sm →
  (∀ id, opens ev (stream_event ev sm).2 id → closed_streams sm !! id = None) →
  (stream_event ev sm).2 ≠ Panic ∧ sm_wf (stream_event ev sm).1.
Proof.
  intros [Hb Hno]%sm_wf_base Hok Hfree. destruct (stream_event_step ev sm Hb Hok) as (Hs & Hp & Hk).
  assert ((stream_event ev sm).2 ≠ Panic) as Hr by (intros [id ?]%Hp; by destruct (Hno id)).
  split; [done|]. apply sm_wf_base. split; [by apply Hk|]. intros id.
  apply (step_no_clash id ev (stream_event ev sm).2 (state sm id)); [apply Hs|done|apply Hfree|apply Hno].
Qed.





(** *** Fairness *)

Definition prio sm (id : Z) : option Z := priorities (open_streams sm) !! id.

(** The streams that are served before [sid]. *)
Definition ahead sm (sid : Z) : gmap Z Z :=
  filter (λ x, x.2 < default 0 (prio sm sid)) (priorities (open_streams sm)).

Lemma ahead_lookup sm sid p k q :
  prio sm sid = Some p → (ahead sm sid !! k = Some q ↔ prio sm k = Some q ∧ q < p).
Proof.
  intros Hp. unfold ahead. rewrite map_lookup_filter_Some, Hp. done.
Qed.

Lemma ahead_mono sm sm' sid p :
  sm_base sm → prio_kept sm sm' → prio sm sid = Some p → prio sm' sid = Some p →
  ahead sm' sid ⊆ ahead sm sid.
Proof.
  intros (_ & Hlt & _) Hkept Hp Hp'. apply map_subseteq_spec. intros k q.
  rewrite !ahead_lookup by done. intros [Hk Hq]. split; [|done].
  destruct (Hkept k q Hk) as [?|?]; [done|]. apply Hlt in Hp. lia.
Qed.

(** [served sid sm n sm']: a run of events from [sm] to [sm'] in which [sid] stays open and is not
    itself taken from, and a message is taken [n] times from a stream that came before it. *)
Inductive served (sid : Z) : StreamMap C → nat → StreamMap C → Prop :=
| served_nil sm : served sid sm 0 sm
| served_take id sm sm1 m n sm' :
    stream_event_ok (EvTakeReady id) sm → is_Some (ahead sm sid !! id) →
    take_ready_msg (E:=ProtoError) id sm = Ok (sm1, Some m) →
    served sid sm1 n sm' → served sid sm (S n) sm'
| served_event ev sm sm1 r n sm' :
    stream_event_ok ev sm → stream_event ev sm = (sm1, r) → r ≠ Panic → prio sm1 sid = prio sm sid →
    served sid sm1 n sm' → served sid sm n sm'.

Lemma take_ready_ahead id sid sm sm1 m p :
  sm_base sm → stream_event_ok (EvTakeReady id) sm → prio sm sid = Some p →
  is_Some (ahead sm sid !! id) → take_ready_msg (E:=ProtoError) id sm = Ok (sm1, Some m) →
  sm_base sm1 ∧ prio sm1 sid = Some p ∧ ahead sm1 sid ⊂ ahead sm sid.
Proof.
  intros Hsm Hok Hp [q Hq] Htake.
  destruct (take_ready_prio id sm Hsm Hok) as (sm' & o & Heq & (_ & _ & Hk) & Hnew & Hother).
  rewrite Htake in Heq. injection Heq as <- <-. destruct Hk as [Hwf Hkept]; [done|]. specialize (Hnew ltac:(by eexists)).
  apply (ahead_lookup sm sid p) in Hq as [Hid Hlt]; [|done].
  assert (prio sm1 sid = Some p) as Hp1.
  { unfold prio in *. rewrite Hother; [done|]. intros ->. rewrite Hp in Hid. simplify_eq. lia. }
  split_and!; [done..|]. apply map_subset_alt. split; [by eapply ahead_mono|]. exists id.
  split; [apply eq_None_not_Some; intros [r Hr]|exists q; by apply (ahead_lookup sm sid p)].
  apply (ahead_lookup sm1 sid p) in Hr as [Hr ?]; [|done]. unfold prio in *. rewrite Hnew in Hr.
  destruct Hsm as (_ & Hbelow & _). apply Hbelow in Hp. simplify_eq. lia.
Qed.

(** C21: no stream is starved: whatever streams are opened, closed and read from meanwhile, at
    most as many messages are taken from the streams that come before an open stream as there
    are such streams, before it is that stream's turn. *)
Theorem no_starvation sid p n sm sm' :
  sm_wf sm → prio sm sid = Some p → served sid sm n sm' →
  (n ≤ size (ahead sm sid) < size (priorities (open_streams sm)))%nat.
Proof.
  intros Hsm Hp Hrun. split; last first.
  { apply map_subset_size, map_subset_alt. split; [apply map_filter_subseteq|]. exists sid.
    split; [|by eexists]. apply eq_None_not_Some. intros [q Hq].
    apply (ahead_lookup sm sid p) in Hq as [Hq ?]; [|done]. rewrite Hp in Hq. simplify_eq. lia. }
  apply sm_wf_base in Hsm as [Hsm _].
  induction Hrun as [|id sm sm1 m n sm' Hok Hahead Htake _ IH|ev sm sm1 r n sm' Hok Hev Hr Hsame _ IH].
  - lia.
  - destruct (take_ready_ahead id sid sm sm1 m p Hsm Hok Hp Hahead Htake) as (Hwf & Hp1 & Hsub).
    apply map_subset_size in Hsub. specialize (IH Hwf Hp1). lia.
  - destruct (stream_event_step ev sm Hsm Hok) as (_ & _ & Hk). rewrite Hev in Hk.
    destruct (Hk Hr) as [Hwf Hkept]. rewrite Hp in Hsame. specialize (IH Hwf Hsame).
    pose proof (map_subseteq_size _ _ (ahead_mono sm sm1 sid p Hsm Hkept Hp Hsame)). lia.
Qed.

(** *** Messages for a stream *)

(** What an END does to the other streams. *)
Lemma ending_frame now id sm sm' k :
  sm_wf sm → ending_msg_received now id sm = Ok sm' → k ≠ id →
  contents (open_streams sm') k = contents (open_streams sm) k ∧
  closed_streams sm' !! k = closed_streams sm !! k.
Proof.
  intros Hsm Hend Hne. unfold ending_msg_received in Hend.
  destruct (ps_remove_spec (E:=ProtoError) now id (open_streams sm) (proj1 Hsm))
    as (ps' & Hrm & _ & _ & _ & Hother). rewrite Hrm, ok_bind in Hend.
  destruct (contents (open_streams sm) id) as [[p s]|].
  - destruct (bool_decide _); simpl in Hend; [|done]. injection Hend as <-. simpl.
    rewrite lookup_insert_ne by done. auto.
  - destruct (closed_streams sm !! id) as [[|e]|]; [done| |done]. injection Hend as <-. simpl.
    by rewrite lookup_delete_ne.
Qed.

Definition other_streams_same (id : Z) sm sm' : Prop :=
  ∀ k, k ≠ id → contents (open_streams sm') k = contents (open_streams sm) k ∧
                closed_streams sm' !! k = closed_streams sm !! k.

(** What a message does to the stream it is for. *)
Inductive msg_step : StreamView → StreamView → Prop :=
| msg_same v : v ≠ VIdle → v ≠ VEndReceived → msg_step v v
| msg_request : msg_step VIdle VIdle
| msg_end_open : msg_step VOpen VEndReceived
| msg_end_sent : msg_step VEndSent VIdle.

Lemma ending_msg_step now id sm sm' :
  sm_wf sm → ending_msg_received now id sm = Ok sm' →
  sm_wf sm' ∧ other_streams_same id sm sm' ∧
  ((view sm id = VOpen ∧ view sm' id = VEndReceived) ∨ (view sm id = VEndSent ∧ view sm' id = VIdle)).
Proof.
  intros Hsm Hend. assert (stream_event (EvEnding now id) sm = (sm', Ok Done)) as Hev
    by (unfold stream_event; by rewrite Hend).
  destruct (step_wf (EvEnding now id) sm Hsm I) as [_ Hwf]; [by intros k []|].
  pose proof (proj1 (ending_step now id sm (proj1 (proj1 (sm_wf_base sm) Hsm))) id) as Hstep.
  rewrite Hev in Hwf, Hstep. simpl in Hwf, Hstep. split_and!; [done|by intros k; eapply ending_frame|].
  rewrite !state_view by apply Hsm || apply Hwf.
  revert Hstep. generalize (state sm id), (state sm' id). intros v v' Hstep.
  inversion Hstep as [? ? ? Hno| | | | | | | | | | | | | | | | | | | | |]; subst; [by destruct Hno|by left|by right].
Qed.

Lemma update_open_wf id e w sm :
  sm_wf sm → view sm id = VOpen →
  let ps := update_stream id e (open_streams sm) in
  let sm' := set_open (if w : bool then wake_stream id ps else ps) sm in
  sm_wf sm' ∧ other_streams_same id sm sm' ∧ ∀ k, view sm' k = view sm k.
Proof.
  intros Hsm Hopen ps sm'. assert (is_Some (prio sm id)) as Hp.
  { unfold view in Hopen. unfold prio. destruct (priorities _ !! id); [by eexists|].
    by destruct (closed_streams sm !! id) as [[]|]. }
  destruct (update_stream_spec id e (open_streams sm) (proj1 Hsm) Hp) as (Hwf & Hprio & _ & Hother).
  assert (priorities (open_streams sm') = priorities (open_streams sm)) as Hsame by by destruct w.
  split_and!.
  - apply (sm_wf_shrink (open_streams sm') _ sm); [done|by destruct w|]. rewrite Hsame.
    intros k q Hq. split; [done|]. apply Hsm. by eexists.
  - intros k Hne. split; [|done]. rewrite <- (Hother k Hne). by destruct w.
  - intros k. unfold view. rewrite Hsame. done.
Qed.

Lemma update_half_wf id e sm :
  sm_wf sm → view sm id = VEndSent →
  let sm' := set_closed (<[id := EndSent e]> (closed_streams sm)) sm in
  sm_wf sm' ∧ other_streams_same id sm sm' ∧ ∀ k, view sm' k = view sm k.
Proof.
  intros Hsm Hsent sm'.
  assert (prio sm id = None ∧ ∃ e', closed_streams sm !! id = Some (EndSent e')) as [Hp [e' He]].
  { unfold view in Hsent. unfold prio. destruct (priorities _ !! id); [done|].
    destruct (closed_streams sm !! id) as [[|e']|]; [done|by eauto|done]. }
  split_and!.
  - apply (sm_wf_shrink (open_streams sm) _ sm); [done|apply Hsm|]. intros k q Hq. split; [done|].
    rewrite lookup_insert_ne; [apply Hsm; by eexists|]. intros <-. unfold prio in Hp. congruence.
  - intros k Hne. simpl. by rewrite lookup_insert_ne.
  - intros k. unfold view. simpl. destruct (decide (k = id)) as [->|].
    + by rewrite lookup_insert_eq, He.
    + by rewrite lookup_insert_ne.
Qed.

Lemma get_mut_view id sm :
  sm_wf sm →
  view sm id = match get_mut id sm with
               | Some (EntOpen _) => VOpen
               | Some EntEndReceived => VEndReceived
               | Some (EntEndSent _) => VEndSent
               | None => VIdle
               end.
Proof.
  intros Hsm. unfold view, get_mut.
  destruct (priorities (open_streams sm) !! id) as [p|] eqn:Hp.
  - by destruct (contents_some _ _ _ (proj1 Hsm) Hp) as (s & _ & ->).
  - assert (stream id (open_streams sm) = None) as ->; [|by destruct (closed_streams sm !! id) as [[]|]].
    unfold stream. rewrite Hp. destruct (proj1 Hsm) as (Hf & _).
    destruct (kf_futures _ !! id) eqn:Hfut; [|done]. destruct (Hf id); [by eexists|congruence].
Qed.

Lemma handle_msg_expiry violation counts id msg now sm x e :
  sm_wf sm → handle_msg violation counts id msg now sm = Ok x →
  closed_streams sm !! id = Some (EndSent e) → now < expiry e.
Proof.
  intros Hsm Hmsg He. pose proof (get_mut_view id sm Hsm) as Hview. unfold view, get_mut in *.
  destruct (priorities (open_streams sm) !! id) as [p|] eqn:Hp.
  { destruct Hsm as (_ & Hk & _). destruct (Hk id); [by eexists|congruence]. }
  unfold handle_msg, get_mut in Hmsg. rewrite He in *. destruct (stream id (open_streams sm)); [done|].
  destruct (Z.leb_spec (expiry e) now); [done|lia].
Qed.

Lemma handle_msg_step violation counts id msg now sm sm' request :
  sm_wf sm → handle_msg violation counts id msg now sm = Ok (sm', request) →
  sm_wf sm' ∧ other_streams_same id sm sm' ∧ msg_step (view sm id) (view sm' id) ∧
  (request = true →
     view sm' id = VIdle ∧ ∃ cmd, unparsed_cmd (E:=ProtoError) msg = Ok cmd ∧ opens_stream cmd = true) ∧
  (view sm id = VIdle → request = true ∧ sm' = sm).
Proof.
  intros Hsm Hmsg. pose proof (get_mut_view id sm Hsm) as Hview. unfold handle_msg in Hmsg.
  destruct (get_mut id sm) as [[e| |e]|]; [|done| |]; rewrite Hview.
  - apply bind_ok in Hmsg as ([[ent w] closes] & _ & Hmsg).
    destruct (update_open_wf id ent w sm Hsm Hview) as (Hwf1 & Hother1 & Hv1).
    destruct closes; [apply bind_ok in Hmsg as (sm2 & Hend & [= <- <-])|injection Hmsg as <- <-].
    + destruct (ending_msg_step _ _ _ _ Hwf1 Hend) as (Hwf2 & Hother2 & [[_ Hv2]|[Hv2 _]]);
        [|rewrite Hv1 in Hv2; congruence].
      split_and!; [done| |rewrite Hv2; constructor|done..]. intros k Hne.
      destruct (Hother1 k Hne) as [<- <-]. by apply Hother2.
    + rewrite Hv1, Hview. split_and!; try done; by constructor.
  - destruct (expiry e <=? now); [done|]. apply bind_ok in Hmsg as (cmd & Hcmd & Hmsg).
    destruct (opens_stream cmd) eqn:Hopens.
    { apply bind_ok in Hmsg as (sm2 & Hend & [= <- <-]).
      destruct (ending_msg_step _ _ _ _ Hsm Hend) as (? & ? & [[? _]|[_ Hv2]]); [congruence|].
      rewrite Hv2. split_and!; try done; [constructor|by eauto]. }
    apply bind_ok in Hmsg as ([half status] & _ & Hmsg).
    destruct (update_half_wf id (mkEndSent half (explicitly_dropped e) (expiry e)) sm Hsm Hview)
      as (Hwf1 & Hother1 & Hv1).
    destruct status; [injection Hmsg as <- <-|apply bind_ok in Hmsg as (sm2 & Hend & [= <- <-])].
    + rewrite Hv1, Hview. split_and!; try done; by constructor.
    + destruct (ending_msg_step _ _ _ _ Hwf1 Hend) as (? & Hother2 & [[Hv2 _]|[_ Hv2]]);
        [rewrite Hv1 in Hv2; congruence|].
      rewrite Hv2. split_and!; [done| |constructor|done..]. intros k Hne.
      destruct (Hother1 k Hne) as [<- <-]. by apply Hother2.
  - apply bind_ok in Hmsg as (cmd & Hcmd & Hmsg). destruct (opens_stream cmd) eqn:Hopens; [|done].
    injection Hmsg as <- <-. rewrite Hview. split_and!; try done; [apply msg_request|by eauto].
Qed.

(** C34: a message reaches only the stream it names: every other stream, open or closed, is as
    before.  A message is accepted only on an open stream or on one whose END the peer may not
    have seen, which it leaves as it is or ends; and a message is handed back as a stream request
    exactly when it is one, for an identifier that is then free.  On a stream that we have ended it
    is accepted only before the stream expires. *)
Theorem handle_msg_isolated violation counts id msg now sm sm' request :
  sm_wf sm → handle_msg violation counts id msg now sm = Ok (sm', request) →
  sm_wf sm' ∧ other_streams_same id sm sm' ∧ msg_step (view sm id) (view sm' id) ∧
  (request = true →
     view sm' id = VIdle ∧ ∃ cmd, unparsed_cmd (E:=ProtoError) msg = Ok cmd ∧ opens_stream cmd = true) ∧
  (view sm id = VIdle → request = true ∧ sm' = sm) ∧
  (∀ e, closed_streams sm !! id = Some (EndSent e) → now < expiry e).
Proof.
  intros Hsm Hmsg. destruct (handle_msg_step _ _ _ _ _ _ _ _ Hsm Hmsg) as (? & ? & ? & ? & ?).
  split_and!; [done..|]. intros e. by eapply handle_msg_expiry.
Qed.

(** *** What a half-closed stream accepts *)

(** A half-closed stream after the messages, and those it accepted: all of them, or those up to
    the one that ends it. *)
Fixpoint half_run (msgs : list UnparsedRelayMsg) (h : HalfStream C) :
    res ProtoError (HalfStream C * list UnparsedRelayMsg) :=
  match msgs with
  | [] => Ok (h, [])
  | msg :: msgs =>
      '(h, status) ← half_handle_msg msg h;
      match status with
      | StatusOpen => '(h, accepted) ← half_run msgs h; Ok (h, msg :: accepted)
      | StatusClosed => Ok (h, [msg])
      end
  end.

Definition is_data (msg : UnparsedRelayMsg) : bool :=
  match unparsed_cmd (E:=ProtoError) msg with
  | Ok cmd => cmd_counts_towards_windows cmd
  | _ => false
  end.

Definition window_cells (msgs : list UnparsedRelayMsg) : Z := Z.of_nat (length (filter is_data msgs)).

Definition data_cost (msg : UnparsedRelayMsg) : Z := if is_data msg then 1 else 0.

Lemma window_cells_cons msg msgs : window_cells (msg :: msgs) = data_cost msg + window_cells msgs.
Proof.
  unfold window_cells, data_cost. rewrite filter_cons. destruct (is_data msg); simpl; lia.
Qed.

Lemma RecvWindow_take_inv (w w' : RecvWindow StreamParams) b :
  RecvWindow_take w = Ok (w', b) → rw_window w' = rw_window w - 1 ∧ 0 ≤ rw_window w'.
Proof.
  unfold RecvWindow_take, checked_sub. destruct (Z.leb_spec 1 (rw_window w)); [|done].
  intros [= <- _]. simpl. lia.
Qed.

Lemma half_handle_window msg h h' status :
  half_handle_msg msg h = Ok (h', status) →
  rw_window (hs_recvw h') = rw_window (hs_recvw h) - data_cost msg ∧
  (0 ≤ rw_window (hs_recvw h) → 0 ≤ rw_window (hs_recvw h')).
Proof.
  unfold half_handle_msg, data_cost, is_data. intros Hh. apply bind_ok in Hh as (cmd & -> & Hh).
  unfold cmd_counts_towards_windows in *.
  repeat match type of Hh with
  | (if cmd =? ?c then _ else _) = _ =>
      destruct (Z.eqb_spec cmd c) as [Hc|_]; [rewrite Hc; apply bind_ok in Hh as (? & _ & [= <- _]);
        split; [symmetry; apply Z.sub_0_r|done]|]
  end.
  apply bind_ok in Hh as (w & Hw & Hh). apply bind_ok in Hh as ([c st] & _ & Hh).
  apply bind_ok in Hh as (c' & _ & [= <- _]). simpl.
  destruct (cmd =? RelayCmd.DATA); [|injection Hw as <-; lia].
  apply bind_ok in Hw as ([w' b] & [Heq ?]%RecvWindow_take_inv & [= <-]). lia.
Qed.

Lemma half_run_window msgs h h' accepted :
  half_run msgs h = Ok (h', accepted) → 0 ≤ rw_window (hs_recvw h) →
  0 ≤ rw_window (hs_recvw h') ∧
  rw_window (hs_recvw h') = rw_window (hs_recvw h) - window_cells accepted.
Proof.
  revert h accepted. induction msgs as [|msg msgs IH]; intros h accepted Hrun Hw; simpl in Hrun.
  { injection Hrun as <- <-. unfold window_cells. simpl. lia. }
  apply bind_ok in Hrun as ([h1 status] & Hh & Hrun).
  apply half_handle_window in Hh as [Heq Hpos]. specialize (Hpos Hw).
  destruct status.
  - apply bind_ok in Hrun as ([h2 acc] & Hrun & [= <- <-]).
    destruct (IH h1 acc Hrun Hpos). rewrite window_cells_cons. lia.
  - injection Hrun as <- <-. rewrite window_cells_cons. unfold window_cells. simpl. lia.
Qed.

(** C28: closing an open stream works exactly when at most a window of 500 of its cells were
    dropped because its user was gone, and from then on the peer can get at most the rest of
    that window of data cells accepted: it cannot go on sending on a stream that we have ended.
    If more were dropped, closing is an error and the identifier is free at once. *)
Theorem half_closed_stream_quota now id why expiry p ent sm :
  sm_wf sm → contents (open_streams sm) id = Some (p, ent) →
  if RECV_WINDOW_INIT <? oe_dropped ent then
    ∃ sm', terminate now id why expiry sm = (sm', Err (CircProto "Received too many cells on a stream")) ∧
      view sm' id = VIdle
  else
    ∃ sm' e, terminate now id why expiry sm = (sm', Ok Send) ∧
      closed_streams sm' !! id = Some (EndSent e) ∧
      ∀ msgs h' accepted, half_run msgs (half_stream e) = Ok (h', accepted) →
        window_cells accepted ≤ RECV_WINDOW_INIT - oe_dropped ent.
Proof.
  intros Hsm Hc. unfold terminate.
  destruct (ps_remove_spec (E:=ProtoError) now id (open_streams sm) (proj1 Hsm)) as (ps' & -> & _ & Hprio & _).
  assert (closed_streams sm !! id = None) as Hcl by (apply Hsm, open_removed; [apply Hsm|by eexists]).
  rewrite Hc. unfold decrement_n, checked_sub. simpl rw_window.
  destruct (Z.ltb_spec RECV_WINDOW_INIT (oe_dropped ent)).
  - rewrite (proj2 (Z.leb_gt _ _)) by lia. eexists. split; [done|]. unfold view. simpl.
    by rewrite Hprio, lookup_delete_eq, Hcl.
  - rewrite (proj2 (Z.leb_le _ _)) by lia. simpl. rewrite Hcl.
    eexists _, _. split_and!; [done|apply lookup_insert_eq|]. simpl. intros msgs h' accepted Hrun.
    apply half_run_window in Hrun; simpl in *; lia.
Qed.
End streammap.
Arguments StreamEvent : clear implicits.

(** ** Data streams

    What the reader of an outgoing data stream gets. *)

(** The entry after the messages, up to the one that closes the stream. *)
Fixpoint deliver_run {C} `{!CmdChecker C} (msgs : list UnparsedRelayMsg) (ent : OpenStreamEnt C) :
    res ProtoError (OpenStreamEnt C * bool) :=
  match msgs with
  | [] => Ok (ent, false)
  | msg :: msgs =>
      '(ent, _, closes) ← deliver_msg_to_stream ent true msg;
      if closes : bool then Ok (ent, true) else deliver_run msgs ent
  end.

Definition msg_cmds (q : list UnparsedRelayMsg) : list (res ProtoError Z) := map unparsed_cmd q.

(** CONNECTED comes first and once, then DATA; an END closes the stream. *)
Definition data_grammar (expecting closed : bool) (cmds : list (res ProtoError Z)) : Prop :=
  ∃ n, cmds = (if expecting then [] else Ok RelayCmd.CONNECTED :: replicate n (Ok RelayCmd.DATA)) ++
              (if closed then [Ok RelayCmd.END] else []).

Lemma deliver_grammar msg ent ent' w closes q :
  oe_sink ent = Some q → data_grammar (expecting_connected (oe_checker ent)) false (msg_cmds q) →
  deliver_msg_to_stream ent true msg = Ok (ent', w, closes) →
  ∃ q', oe_sink ent' = Some q' ∧
        data_grammar (expecting_connected (oe_checker ent')) closes (msg_cmds q').
Proof.
  intros Hq [n Hn] Hd. unfold deliver_msg_to_stream in Hd. apply bind_ok in Hd as (cmd & Hcmd & Hd).
  do 3 (case_match; [apply bind_ok in Hd as (? & _ & [= <- _ <-]); 
    exists q; split; [done|by exists n]|]).
  apply bind_ok in Hd as ([c status] & Hcheck & Hd). rewrite Hq in Hd. simpl in Hd.
  injection Hd as <- _ <-. exists (q ++ [msg]). split; [done|]. simpl.
  unfold msg_cmds in *. rewrite map_app, Hn, app_nil_r. simpl. rewrite Hcmd.
  simpl in Hcheck. unfold data_check_msg in Hcheck. rewrite Hcmd, ok_bind in Hcheck.
  destruct (expecting_connected (oe_checker ent)) eqn:Hexp; simpl in *.
  all: destruct (Z.eqb_spec cmd RelayCmd.CONNECTED) as [->|_];
    [|destruct (Z.eqb_spec cmd RelayCmd.DATA) as [->|_];
      [|destruct (Z.eqb_spec cmd RelayCmd.END) as [->|_]]]; try done; injection Hcheck as <- <-.
  - by exists 0%nat.
  - exists 0%nat. by rewrite Hexp.
  - exists (S n). rewrite Hexp, app_nil_r. simpl. f_equal. rewrite <- replicate_cons_app. done.
  - exists n. by rewrite Hexp.
Qed.

Lemma deliver_run_grammar msgs ent ent' closed q :
  oe_sink ent = Some q → data_grammar (expecting_connected (oe_checker ent)) false (msg_cmds q) →
  deliver_run msgs ent = Ok (ent', closed) →
  ∃ q', oe_sink ent' = Some q' ∧
        data_grammar (expecting_connected (oe_checker ent')) closed (msg_cmds q').
Proof.
  revert ent q. induction msgs as [|msg msgs IH]; intros ent q Hq Hg Hrun; simpl in Hrun.
  { injection Hrun as <- <-. by eauto. }
  apply bind_ok in Hrun as ([[ent1 w] closes] & Hd & Hrun).
  destruct (deliver_grammar _ _ _ _ _ _ Hq Hg Hd) as (q1 & Hq1 & Hg1).
  destruct closes; [injection Hrun as <- <-; by eauto|]. by eapply IH.
Qed.

(** Whatever the peer sends on an outgoing data stream, the messages that reach its reader are
    CONNECTED, then any number of DATA, with at most one END, last; window updates and flow
    control never reach it. *)
Theorem data_stream_grammar msgs flow_ctrl ent' closed :
  deliver_run msgs (new_ent flow_ctrl (mkDataChecker true)) = Ok (ent', closed) →
  ∃ q, oe_sink ent' = Some q ∧
       data_grammar (expecting_connected (oe_checker ent')) closed (msg_cmds q).
Proof. apply (deliver_run_grammar msgs (new_ent flow_ctrl (mkDataChecker true)) ent' closed []); [done|by exists 0%nat]. Qed.

(** ** A circuit with two streams

    Streams 5 and 6 are open, in that order; stream 5 has a message to send. *)

Definition demo_flow : StreamFlowCtrl := new_window (mkSendWindow 500).
Definition demo_ent : OpenStreamEnt OutboundDataCmdChecker :=
  mkOpenEnt (Some []) 0 (mkDataChecker true) demo_flow [AData (mkData [104; 105])] false.

Definition demo_step (ev : StreamEvent OutboundDataCmdChecker) sm := (stream_event ev sm).1.
Definition demo_two : StreamMap OutboundDataCmdChecker :=
  demo_step (EvAddWithId demo_flow 6 (mkDataChecker true))
    (demo_step (EvAddWithId demo_flow 5 (mkDataChecker true)) (StreamMap_new 5)).
Definition demo_ready : StreamMap OutboundDataCmdChecker :=
  demo_step EvPollReady
    (set_open (wake_stream 5 (update_stream 5 demo_ent (open_streams demo_two))) demo_two).

(** A message with the command [cmd] and no body. *)
Definition demo_msg (cmd : Z) : UnparsedRelayMsg := UV0 (cmd :: replicate 508 0).

Lemma demo_two_wf : sm_wf demo_two.
Proof.
  apply step_wf; [|by vm_compute|by vm_compute]. apply step_wf; [|by vm_compute|by vm_compute].
  by apply sm_new_wf.
Qed.

Lemma demo_ready_wf : sm_wf demo_ready.
Proof.
  apply step_wf; [|done|by vm_compute]. by apply (update_open_wf 5 demo_ent true demo_two demo_two_wf).
Qed.

Lemma sm_add_ent_total_witness :
  ∃ sm', sm_add_ent demo_flow (mkDataChecker true) demo_two = (sm', Ok 7) ∧
         contents (open_streams sm') 7 = Some (2, new_ent demo_flow (mkDataChecker true)).
Proof.
  pose proof (sm_add_ent_total demo_flow (mkDataChecker true) demo_two demo_two_wf eq_refl) as H.
  destruct (sm_add_ent demo_flow (mkDataChecker true) demo_two) as [sm' r] eqn:Heq.
  assert (r = Ok 7) as -> by (rewrite <- (f_equal snd Heq : _ = r); vm_compute; reflexivity).
  exists sm'. split; [done|]. by apply H.
Defined.

Definition demo_end : StreamEvent OutboundDataCmdChecker := EvTerminate 0 5 ExplicitEnd 10.


Lemma no_starvation_witness :
  (1 ≤ size (ahead demo_ready 6) < size (priorities (open_streams demo_ready)))%nat.
Proof.
  destruct (take_ready_msg (E:=ProtoError) 5 demo_ready) as [[sm' [m|]]|e|] eqn:Htake;
    [|vm_compute in Htake; discriminate Htake..].
  eapply (no_starvation 6 1 1 demo_ready sm'); [apply demo_ready_wf|vm_compute; reflexivity|].
  eapply (served_take 6 5); [|exists 0; vm_compute; reflexivity|exact Htake|constructor].
  split; [vm_compute; reflexivity|]. intros p s Hs. vm_compute in Hs. injection Hs as _ <-.
  vm_compute. discriminate.
Defined.

Lemma handle_msg_isolated_witness :
  ∃ sm', handle_msg IdUnavailable false 5 (demo_msg RelayCmd.END) 0 demo_ready = Ok (sm', false) ∧
         sm_wf sm' ∧ other_streams_same 5 demo_ready sm'.
Proof.
  destruct (handle_msg IdUnavailable false 5 (demo_msg RelayCmd.END) 0 demo_ready) as [[sm' b]|e|] eqn:Heq;
    [|vm_compute in Heq; discriminate Heq..].
  destruct (handle_msg_isolated IdUnavailable false 5 (demo_msg RelayCmd.END) 0 demo_ready sm' b
    demo_ready_wf Heq) as (Hwf & Hother & _).
  assert (b = false) as ->.
  { assert (handle_msg IdUnavailable false 5 (demo_msg RelayCmd.END) 0 demo_ready ≫=
      (λ x, Ok x.2) = Ok false) as Hb by (vm_compute; reflexivity).
    rewrite Heq in Hb. by injection Hb. }
  by exists sm'.
Defined.

Lemma half_closed_stream_quota_witness :
  ∃ sm' e, terminate 0 5 ExplicitEnd 10 demo_ready = (sm', Ok Send) ∧
    closed_streams sm' !! 5 = Some (EndSent e) ∧
    ∀ msgs h' accepted, half_run msgs (half_stream e) = Ok (h', accepted) → window_cells accepted ≤ 500.
Proof.
  apply (half_closed_stream_quota 0 5 ExplicitEnd 10 0 demo_ent demo_ready demo_ready_wf).
  vm_compute; reflexivity.
Defined.

Lemma data_stream_grammar_witness :
  ∃ ent' q, deliver_run (map demo_msg [RelayCmd.CONNECTED; RelayCmd.DATA; RelayCmd.END])
              (new_ent demo_flow (mkDataChecker true)) = Ok (ent', true) ∧
            oe_sink ent' = Some q ∧ data_grammar (expecting_connected (oe_checker ent')) true (msg_cmds q).
Proof.
  destruct (deliver_run (map demo_msg [RelayCmd.CONNECTED; RelayCmd.DATA; RelayCmd.END])
    (new_ent demo_flow (mkDataChecker true))) as [[ent' b]|e|] eqn:Heq;
    [|vm_compute in Heq; discriminate Heq..].
  assert (b = true) as -> by (vm_compute in Heq; by injection Heq).
  destruct (data_stream_grammar _ _ _ _ Heq) as (q & Hq & Hg). by exists ent', q.
Defined.

(** *** Identifiers that are half-closed *)

(** Stream 5 is ended but not yet forgotten, and the identifiers come round to 5 again. *)
Definition demo_wrapped : StreamMap OutboundDataCmdChecker :=
  set_next_id 5 (demo_step demo_end demo_ready).

(** Allocation checks the open streams only, so once the identifiers have wrapped around, a
    stream can be opened under an identifier that is still half-closed; the map is then no longer
    well formed, and the peer's END for it fails an assertion. *)
Theorem add_ent_reuses_closed_id :
  sm_wf demo_wrapped ∧
  ∃ sm', sm_add_ent demo_flow (mkDataChecker true) demo_wrapped = (sm', Ok 5) ∧ ¬ sm_wf sm' ∧
         ending_msg_received 0 5 sm' = Panic.
Proof.
  split.
  { destruct (step_wf demo_end demo_ready demo_ready_wf I) as [_ (? & ? & ? & ? & ? & ?)]; [by intros ? []|].
    unfold demo_wrapped. by split_and!. }
  destruct (sm_add_ent demo_flow (mkDataChecker true) demo_wrapped) as [sm' r] eqn:Heq.
  vm_compute in Heq. injection Heq as <- <-. eexists. split_and!; [done| |vm_compute; reflexivity].
  intros (_ & Hk & _). destruct (Hk 5) as [_ Hc]; [exists 2; vm_compute; reflexivity|].
  vm_compute in Hc. done.
Qed.
