(* ===== verification/ConfluxMsg.v ===== *)
(** * ConfluxMsg: conflux message handlers

    [tor-proto/src/conflux.rs], [conflux/msghandler.rs] and the client's handler
    [client/reactor/conflux/msghandler.rs]: the handshake on one leg of a multi-path circuit, the
    sequence numbers of the leg, and the decision whether a message is delivered or buffered.
    The trait [AbstractConfluxMsgHandler] is a type class with the client's handler as its
    instance.  The sequence number of the last delivered message is shared by the legs of a set
    through an atomic; here it is an argument, and the set holds it.  Times are in nanoseconds. *)

From S2P Require Import Prelude Bytes Codec RelayMsg RelayCell Sendme Cwnd FlowCtrl.

(** The commands that are multiplexed over the legs; every other one belongs to its circuit. *)
Definition cmd_counts_towards_seqno (cmd : Z) : bool :=
  one_of cmd [RelayCmd.BEGIN; RelayCmd.DATA; RelayCmd.END; RelayCmd.CONNECTED;
              RelayCmd.RESOLVE; RelayCmd.RESOLVED; RelayCmd.XOFF; RelayCmd.XON].

(** ** Data *)

Inductive ConfluxStatus : Type := StUnlinked | StPending | StLinked.

#[export] Instance ConfluxStatus_eq_dec : EqDecision ConfluxStatus.
Proof. solve_decision. Defined.

Inductive RemoveLegReason : Type :=
| ConfluxHandshakeTimeout
| ConfluxHandshakeErr (e : ProtoError)
| ChannelClosed.

Inductive ConfluxCmd : Type :=
| RemoveLeg (reason : RemoveLegReason)
| HandshakeComplete (hop : nat) (early : bool) (cell : RelayMsgOuter).

Record OooRelayMsg : Type := mkOoo {
  oo_seqno : Z;
  oo_hopnum : nat;
  oo_cell_counts_towards_windows : bool;
  oo_streamid : Z;
  oo_msg : UnparsedRelayMsg }.

Inductive ConfluxAction : Type :=
| Deliver (msg : UnparsedRelayMsg)
| Enqueue (msg : OooRelayMsg).

(** ** The handler interface *)

Class AbstractConfluxMsgHandler (H : Type) : Type := {
  validate_source_hop : UnparsedRelayMsg → nat → H → res ProtoError unit;
  handle_conflux : Z → Z → UnparsedRelayMsg → nat → H → res ProtoError (H * option ConfluxCmd);
  status : H → ConfluxStatus;
  note_link_sent : Z → H → res ProtoError H;
  handshake_timeout : H → res ProtoError (option Z);
  init_rtt : H → option Z;
  last_seq_recv : H → Z;
  last_seq_sent : H → Z;
  set_last_seq_sent : Z → H → H;
  inc_last_seq_recv : H → res ProtoError H;
  inc_last_seq_sent : H → res ProtoError H;
}.

Section msg_handler.
Context {H : Type} `{!AbstractConfluxMsgHandler H}.
Implicit Types h : H.

(** The errors of the inner handler become a request to remove the leg. *)
Definition handle_conflux_msg (now lsd : Z) (msg : UnparsedRelayMsg) (hop : nat) h :
    res ProtoError (H * option ConfluxCmd) :=
  match (_ ← validate_source_hop msg hop h; handle_conflux now lsd msg hop h) with
  | Ok x => Ok x
  | Err e => Ok (h, Some (RemoveLeg (ConfluxHandshakeErr e)))
  | Panic => Panic
  end.

Definition is_msg_in_order (lsd : Z) h : res ProtoError bool :=
  next ← uadd u64_max lsd 1;
  match last_seq_recv h ?= next with
  | Lt => Err (Internal "Got a conflux cell with a sequence number less than the last delivered")
  | Eq => Ok true
  | Gt => Ok false
  end.

Definition prepare_ooo_entry (hopnum : nat) (cell_counts_towards_windows : bool) (streamid : Z)
    (msg : UnparsedRelayMsg) h : OooRelayMsg :=
  mkOoo (last_seq_recv h) hopnum cell_counts_towards_windows streamid msg.

Definition action_for_msg (hopnum : nat) (cell_counts_towards_windows : bool) (streamid : Z)
    (msg : UnparsedRelayMsg) (lsd : Z) h : res ProtoError (H * ConfluxAction) :=
  cmd ← unparsed_cmd msg;
  if negb (cmd_counts_towards_seqno cmd) then Ok (h, Deliver msg)
  else
    h ← inc_last_seq_recv h;
    in_order ← is_msg_in_order lsd h;
    if in_order : bool then Ok (h, Deliver msg)
    else Ok (h, Enqueue (prepare_ooo_entry hopnum cell_counts_towards_windows streamid msg h)).

(** The shared number after a message was handed to its stream; [fetch_add] wraps. *)
Definition inc_last_seq_delivered (msg : UnparsedRelayMsg) (lsd : Z) : res ProtoError Z :=
  cmd ← unparsed_cmd msg;
  Ok (if cmd_counts_towards_seqno cmd then wrap u64_max (lsd + 1) else lsd).

Definition note_cell_sent (cmd : Z) h : res ProtoError H :=
  if cmd_counts_towards_seqno cmd then inc_last_seq_sent h else Ok h.
End msg_handler.

(** ** The client's handler *)

Inductive ConfluxState : Type := Unlinked | AwaitingLink (nonce : list Z) | Linked.

#[export] Instance ConfluxState_eq_dec : EqDecision ConfluxState.
Proof. solve_decision. Defined.

Record ClientConfluxMsgHandler : Type := mkHandler {
  ch_state : ConfluxState;
  ch_nonce : list Z;
  ch_join_point : nat;
  ch_init_rtt : option Z;
  ch_link_sent : option Z;
  ch_last_seq_recv : Z;
  ch_last_seq_sent : Z;
  ch_have_seen_switch : bool;
  ch_cells_since_switch : Z;
  ch_cwnd_params : CongestionWindowParams }.

Definition ClientConfluxMsgHandler_new (join_point : nat) (nonce : list Z)
    (cwnd_params : CongestionWindowParams) : ClientConfluxMsgHandler :=
  mkHandler Unlinked nonce join_point None None 0 0 false 0 cwnd_params.

Section client.
Implicit Types h : ClientConfluxMsgHandler.

Definition set_state (state : ConfluxState) (init_rtt link_sent : option Z) h :=
  mkHandler state (ch_nonce h) (ch_join_point h) init_rtt link_sent (ch_last_seq_recv h)
    (ch_last_seq_sent h) (ch_have_seen_switch h) (ch_cells_since_switch h) (ch_cwnd_params h).

Definition set_recv (seq : Z) (seen : bool) (cells : Z) h :=
  mkHandler (ch_state h) (ch_nonce h) (ch_join_point h) (ch_init_rtt h) (ch_link_sent h) seq
    (ch_last_seq_sent h) seen cells (ch_cwnd_params h).

Definition set_sent (n : Z) h :=
  mkHandler (ch_state h) (ch_nonce h) (ch_join_point h) (ch_init_rtt h) (ch_link_sent h)
    (ch_last_seq_recv h) n (ch_have_seen_switch h) (ch_cells_since_switch h) (ch_cwnd_params h).

Definition client_validate_source_hop (msg : UnparsedRelayMsg) (hop : nat) h : res ProtoError unit :=
  if negb (hop =? ch_join_point h)%nat
  then Err (CircProto "Received cell from unexpected hop on client conflux circuit")
  else Ok tt.

Definition client_status h : ConfluxStatus :=
  match ch_state h with
  | Unlinked => StUnlinked
  | AwaitingLink _ => StPending
  | Linked => StLinked
  end.

Definition client_note_link_sent (ts : Z) h : res ProtoError ClientConfluxMsgHandler :=
  match ch_state h with
  | Unlinked => Ok (set_state (AwaitingLink (ch_nonce h)) (ch_init_rtt h) (Some ts) h)
  | AwaitingLink _ | Linked => Err (Internal "Sent duplicate LINK cell?!")
  end.

Definition LINK_TIMEOUT : Z := 60 * 1000000000.

Definition client_handshake_timeout h : res ProtoError (option Z) :=
  match ch_state h with
  | AwaitingLink _ =>
      _ ← debug_assert (bool_decide (is_Some (ch_link_sent h)));
      Ok ((λ t, t + LINK_TIMEOUT) <$> ch_link_sent h)
  | _ => Ok None
  end.

Definition unsupported_client_cell {A} : res ProtoError A :=
  Err (CircProto "Unexpected cell on client circuit").

Definition as_linked (m : AnyRelayMsg) : option Link :=
  match m with AConfluxLinked x => Some x | _ => None end.
Definition as_switch (m : AnyRelayMsg) : option ConfluxSwitch :=
  match m with AConfluxSwitch x => Some x | _ => None end.

(** [now.duration_since(link_sent)], or the longest duration when the clock went back. *)
Definition link_rtt (now link_sent : Z) : Z :=
  if link_sent <=? now then now - link_sent else u64_max * 1000000000.

Definition handle_conflux_linked (now : Z) (msg : UnparsedRelayMsg) (hop : nat) h :
    res ProtoError (ClientConfluxMsgHandler * option ConfluxCmd) :=
  link_sent ← ok_or (ch_link_sent h)
    (CircProto "Received CONFLUX_LINKED cell before sending CONFLUX_LINK?!");
  expected_nonce ←
    match ch_state h with
    | Unlinked => Err (CircProto "Received CONFLUX_LINKED cell before sending CONFLUX_LINK?!")
    | AwaitingLink expected_nonce => Ok expected_nonce
    | Linked => Err (CircProto "Received CONFLUX_LINKED on already linked circuit")
    end;
  linked ← decode_as "linked message" as_linked msg;
  let linked_nonce := lp_nonce (lk_payload linked) in
  if bool_decide (expected_nonce = linked_nonce) then
    let h := set_state Linked (Some (link_rtt now link_sent)) (ch_link_sent h) h in
    let cell := mkOuter None AConfluxLinkedAck in
    Ok (h, Some (HandshakeComplete hop false cell))
  else Err (CircProto "Received CONFLUX_LINKED cell with mismatched nonce").

Definition validate_switch_seqno (lsd rel_seqno : Z) h : res ProtoError unit :=
  if rel_seqno =? 0 then Err (CircProto "Received SWITCH cell with seqno = 0")
  else
    let no_data := lsd =? 0 in
    let is_first_switch := negb (ch_have_seen_switch h) in
    if no_data && is_first_switch && (cwnd_init (ch_cwnd_params h) <? rel_seqno)
    then Err (CircProto "SWITCH cell seqno exceeds initial cwnd")
    else Ok tt.

Definition handle_conflux_switch (lsd : Z) (msg : UnparsedRelayMsg) h :
    res ProtoError (ClientConfluxMsgHandler * option ConfluxCmd) :=
  if negb (bool_decide (ch_state h = Linked))
  then Err (CircProto "Received CONFLUX_SWITCH on unlinked circuit?!")
  else if ch_have_seen_switch h && (ch_cells_since_switch h =? 0)
  then Err (CircProto "Received consecutive SWITCH cells on circuit?!")
  else
    switch ← decode_as "switch message" as_switch msg;
    let rel_seqno := sw_seqno switch in
    _ ← validate_switch_seqno lsd rel_seqno h;
    seq ← uadd u64_max (ch_last_seq_recv h) rel_seqno;
    Ok (set_recv seq true 0 h, None).

Definition client_handle_msg (now lsd : Z) (msg : UnparsedRelayMsg) (hop : nat) h :
    res ProtoError (ClientConfluxMsgHandler * option ConfluxCmd) :=
  cmd ← unparsed_cmd msg;
  if cmd =? RelayCmd.CONFLUX_LINK then unsupported_client_cell
  else if cmd =? RelayCmd.CONFLUX_LINKED then handle_conflux_linked now msg hop h
  else if cmd =? RelayCmd.CONFLUX_LINKED_ACK then unsupported_client_cell
  else if cmd =? RelayCmd.CONFLUX_SWITCH then handle_conflux_switch lsd msg h
  else Err (Internal "received non-conflux cell in conflux handler?!").

Definition client_inc_last_seq_recv h : res ProtoError ClientConfluxMsgHandler :=
  seq ← uadd u64_max (ch_last_seq_recv h) 1;
  cells ← uadd usize_max (ch_cells_since_switch h) 1;
  Ok (set_recv seq (ch_have_seen_switch h) cells h).

Definition client_inc_last_seq_sent h : res ProtoError ClientConfluxMsgHandler :=
  seq ← uadd u64_max (ch_last_seq_sent h) 1; Ok (set_sent seq h).
End client.

#[export] Instance client_conflux_handler : AbstractConfluxMsgHandler ClientConfluxMsgHandler := {
  validate_source_hop := client_validate_source_hop;
  handle_conflux := client_handle_msg;
  status := client_status;
  note_link_sent := client_note_link_sent;
  handshake_timeout := client_handshake_timeout;
  init_rtt := ch_init_rtt;
  last_seq_recv := ch_last_seq_recv;
  last_seq_sent := ch_last_seq_sent;
  set_last_seq_sent := set_sent;
  inc_last_seq_recv := client_inc_last_seq_recv;
  inc_last_seq_sent := client_inc_last_seq_sent;
}.
