(* ===== verification/HopSettings.v ===== *)
(** * HopSettings: negotiating the settings of a hop

    The first half of [tor-proto/src/circuit/circhop.rs], the relay cryptography protocols of
    [client/circuit/handshake.rs] and the client's handling of the extensions that a relay answers
    with ([client/reactor/circuit/extender.rs]), in a build with the features [flowctl-cc],
    [counter-galois-onion] and [hs-common]; and the limits on the number of cells of a hop. *)

From S2P Require Import Prelude Bytes Protover ExtList RelayMsg RelayCell Sendme RelayCrypt Cwnd.
From S2P Require Import FlowCtrl.

(** ** Named capabilities (tor-protover/src/named.rs) *)

(** The kinds are the positions in the list of known protocols. *)
Definition FLOWCTRL_CC : NamedSubver := mkNamed 11 2.
Definition RELAY_NEGOTIATE_SUBPROTO : NamedSubver := mkNamed 2 5.
Definition RELAY_CRYPT_CGO : NamedSubver := mkNamed 2 6.

(** ** Settings *)

Inductive HopNegotiationType : Type := NegNone | NegHsV3 | NegFull.

#[export] Instance HopNegotiationType_eq_dec : EqDecision HopNegotiationType.
Proof. solve_decision. Defined.

Inductive RelayCryptLayerProtocol : Type :=
| ProtoTor1 (f : RelayCellFormat)
| ProtoHsV3 (f : RelayCellFormat)
| ProtoCgo.

Definition relay_cell_format_of (p : RelayCryptLayerProtocol) : RelayCellFormat :=
  match p with ProtoTor1 v => v | ProtoHsV3 v => v | ProtoCgo => FV1 end.

Record CircParameters : Type := mkCircParams {
  extend_by_ed25519_id : bool;
  cp_ccontrol : CongestionControlParams;
  cp_flow_ctrl : FlowCtrlParameters;
  cp_n_incoming_cells_permitted : option Z;
  cp_n_outgoing_cells_permitted : option Z }.

Definition CircParameters_new (by_ed : bool) (ccontrol : CongestionControlParams)
    (flow_ctrl : FlowCtrlParameters) : CircParameters :=
  mkCircParams by_ed ccontrol flow_ctrl None None.

Record HopSettings : Type := mkSettings {
  hs_ccontrol : CongestionControlParams;
  hs_flow_ctrl_params : FlowCtrlParameters;
  hs_n_incoming_cells_permitted : option Z;
  hs_n_outgoing_cells_permitted : option Z;
  relay_crypt_protocol : RelayCryptLayerProtocol }.

Definition from_params_and_caps (hoptype : HopNegotiationType) (params : CircParameters)
    (caps : Protocols) : res ProtoError HopSettings :=
  let ccontrol := cp_ccontrol params in
  let ccontrol :=
    match cc_alg ccontrol with
    | AlgFixedWindow _ => ccontrol
    | AlgVegas _ =>
        if negb (supports_named_subver caps FLOWCTRL_CC) then use_fallback_alg ccontrol
        else ccontrol
    end in
  let ccontrol :=
    match hoptype with
    | NegNone => use_fallback_alg ccontrol
    | NegHsV3 => use_fallback_alg ccontrol
    | NegFull => ccontrol
    end in
  let protocol :=
    match hoptype with
    | NegNone => ProtoTor1 FV0
    | NegHsV3 => ProtoHsV3 FV0
    | NegFull =>
        if compatible_with_cgo (cc_alg ccontrol)
           && supports_named_subver caps RELAY_NEGOTIATE_SUBPROTO
           && supports_named_subver caps RELAY_CRYPT_CGO
        then ProtoCgo else ProtoTor1 FV0
    end in
  Ok (mkSettings ccontrol (cp_flow_ctrl params) (cp_n_incoming_cells_permitted params)
        (cp_n_outgoing_cells_permitted params) protocol).

Definition circuit_request_extensions (s : HopSettings) : res ProtoError (list CircRequestExt) :=
  let cc_extension_set := is_enabled (hs_ccontrol s) in
  let client_extensions := if cc_extension_set then [CcRequest] else [] in
  required_protocol_capabilities ←
    match relay_crypt_protocol s with
    | ProtoCgo =>
        if negb cc_extension_set then Err (Internal "Tried to negotiate CGO without CC.")
        else Ok [RELAY_CRYPT_CGO]
    | _ => Ok []
    end;
  match required_protocol_capabilities with
  | [] => Ok client_extensions
  | caps =>
      Ok (client_extensions ++
            [SubprotocolRequest (SubprotocolRequest_from (NumberedSubver_from <$> caps))])
  end.

(** [settings.ccontrol.cwnd_params_mut().set_sendme_inc(inc)]. *)
Definition settings_set_sendme_inc (inc : Z) (s : HopSettings) : HopSettings :=
  let cc := hs_ccontrol s in
  mkSettings
    (mkCCParams (cc_alg cc) (fixed_window_params cc) (set_sendme_inc inc (cwnd_params cc)) (rtt_params cc))
    (hs_flow_ctrl_params s) (hs_n_incoming_cells_permitted s) (hs_n_outgoing_cells_permitted s)
    (relay_crypt_protocol s).

(** [NtorV3Client::handle_server_aux_data]; the handshakes without extensions do nothing. *)
Fixpoint handle_server_aux_data (data : list CircResponseExt) (settings : HopSettings) :
    res ProtoError HopSettings :=
  match data with
  | [] => Ok settings
  | CcResponse sendme_inc :: data =>
      if negb (is_enabled (hs_ccontrol settings))
      then Err (HandshakeProto "Received unexpected ntorv3 CC ack extension")
      else if negb (is_sendme_inc_valid sendme_inc (hs_ccontrol settings))
      then Err (HandshakeProto "Received invalid sendme increment in CC ntorv3 extension")
      else handle_server_aux_data data (settings_set_sendme_inc sendme_inc settings)
  | RespUnrecognized _ _ :: _ => Err (HandshakeProto "Received unexpected ntorv3 extension")
  end.

(** ** The layers of a hop *)

Section layers.
Context {SC D SC' D' BC UH : Type}.
Context `{!StreamCipher SC, !Digest D, !StreamCipher SC', !Digest D', !BlkCipher BC, !UniversalHash UH}.

(** [expand] is the key generator that the handshake has produced. *)
Definition construct_client_layers (role : HandshakeRole) (expand : nat → res ProtoError (list Z))
    (p : RelayCryptLayerProtocol) : res ProtoError (BoxedClientLayer SC D SC' D' BC UH) :=
  match p with
  | ProtoTor1 FV0 => construct_tor1 expand role
  | ProtoTor1 _ => Err (Internal "protocol not implemented")
  | ProtoHsV3 FV0 => construct_hsv3 expand role
  | ProtoHsV3 _ => Err (Internal "protocol not implemented")
  | ProtoCgo => construct_cgo expand role
  end.
End layers.

(** ** Limits on cells *)

(** A limit is stored as the number of cells that are still permitted, plus one; it is never
    zero. *)
Definition cvt {E} (limit : Z) : res E Z :=
  let n := saturating_add u32_max limit 1 in
  if n =? 0 then Panic else Ok n.

Definition try_decrement_cell_limit {E} (e : E) (val : option Z) : res E (option Z) :=
  match val with
  | Some z =>
      if z =? 1 then Err e
      else
        n ← usub z 1;
        if n =? 0 then Panic else Ok (Some n)
  | None => Ok None
  end.

Definition cvt_opt {E} (limit : option Z) : res E (option Z) :=
  match limit with Some l => n ← cvt l; Ok (Some n) | None => Ok None end.

(** ** Theorems *)

(** What the negotiated extensions ask for, in terms of the settings. *)
Lemma circuit_request_extensions_eq s :
  (relay_crypt_protocol s = ProtoCgo → is_enabled (hs_ccontrol s) = true) →
  circuit_request_extensions s =
    Ok ((if is_enabled (hs_ccontrol s) then [CcRequest] else []) ++
        match relay_crypt_protocol s with
        | ProtoCgo => [SubprotocolRequest [mkNumbered 2 6]]
        | _ => []
        end).
Proof.
  intros H. unfold circuit_request_extensions.
  destruct (relay_crypt_protocol s); simpl; rewrite ?app_nil_r; [done..|]. by rewrite H.
Qed.

Lemma from_params_and_caps_spec hoptype params caps s :
  from_params_and_caps hoptype params caps = Ok s →
  (is_enabled (hs_ccontrol s) = true ↔
     hoptype = NegFull ∧ is_enabled (cp_ccontrol params) = true ∧
     supports_named_subver caps FLOWCTRL_CC = true) ∧
  (relay_crypt_protocol s = ProtoCgo ↔
     is_enabled (hs_ccontrol s) = true ∧
     supports_named_subver caps RELAY_NEGOTIATE_SUBPROTO = true ∧
     supports_named_subver caps RELAY_CRYPT_CGO = true) ∧
  (relay_crypt_protocol s ≠ ProtoCgo → relay_cell_format_of (relay_crypt_protocol s) = FV0).
Proof.
  unfold from_params_and_caps. intros [= <-]. simpl.
  unfold is_enabled, use_fallback_alg.
  destruct hoptype; simpl; destruct (cc_alg (cp_ccontrol params)) eqn:Ha; simpl;
    rewrite ?Ha; simpl;
    destruct (supports_named_subver caps FLOWCTRL_CC) eqn:H1; simpl; rewrite ?Ha; simpl;
    destruct (supports_named_subver caps RELAY_NEGOTIATE_SUBPROTO) eqn:H2; simpl;
    destruct (supports_named_subver caps RELAY_CRYPT_CGO) eqn:H3; simpl;
    intuition congruence.
Qed.

Lemma request_extensions_roundtrip (s : HopSettings) exts :
  circuit_request_extensions s = Ok exts →
  ∃ bs, write_many_onto exts [] = Ok bs ∧ ext_decode bs = Ok exts.
Proof.
  unfold circuit_request_extensions. intros H.
  destruct (is_enabled (hs_ccontrol s)), (relay_crypt_protocol s); simpl in H; ok_inv;
    (eexists; split; [reflexivity|]; vm_compute; reflexivity).
Qed.

(** C36: Negotiating a hop.  For every kind of handshake, every set of parameters and every list of
    capabilities the settings are defined and so are the extensions to send, and a relay that
    decodes the extensions reads those that were meant.  Congestion control is requested exactly
    when it was chosen, which a relay without the capability, or a handshake without extensions,
    rules out.  CGO is chosen exactly when the handshake can carry it, congestion control is
    chosen, and the relay lists both CGO and the extension that demands capabilities; then CGO is
    demanded.  Capabilities are only demanded of a relay that lists them and the extension, together
    with congestion control; and the cell format is the new one exactly with CGO. *)
Theorem hop_negotiation hoptype params caps :
  ∃ s exts bs,
    from_params_and_caps hoptype params caps = Ok s ∧
    circuit_request_extensions s = Ok exts ∧
    write_many_onto exts [] = Ok bs ∧ ext_decode bs = Ok exts ∧
    (CcRequest ∈ exts ↔ is_enabled (hs_ccontrol s) = true) ∧
    (CcRequest ∈ exts ↔
       hoptype = NegFull ∧ is_enabled (cp_ccontrol params) = true ∧
       supports_named_subver caps FLOWCTRL_CC = true) ∧
    (relay_crypt_protocol s = ProtoCgo ↔
       hoptype = NegFull ∧ is_enabled (cp_ccontrol params) = true ∧
       supports_named_subver caps FLOWCTRL_CC = true ∧
       supports_named_subver caps RELAY_NEGOTIATE_SUBPROTO = true ∧
       supports_named_subver caps RELAY_CRYPT_CGO = true) ∧
    (∀ l, SubprotocolRequest l ∈ exts →
       contains_only caps l = true ∧ CcRequest ∈ exts ∧
       supports_named_subver caps RELAY_NEGOTIATE_SUBPROTO = true) ∧
    (relay_cell_format_of (relay_crypt_protocol s) = FV1 ↔ relay_crypt_protocol s = ProtoCgo) ∧
    (relay_crypt_protocol s = ProtoCgo → SubprotocolRequest [NumberedSubver_from RELAY_CRYPT_CGO] ∈ exts).
Proof.
  destruct (from_params_and_caps hoptype params caps) as [s|e|] eqn:Hs; [|done..].
  pose proof (from_params_and_caps_spec _ _ _ _ Hs) as (Hcc & Hcgo & Hf).
  pose proof (circuit_request_extensions_eq s) as He.
  specialize (He ltac:(intros H; by apply Hcgo in H as [? _])).
  destruct (request_extensions_roundtrip s _ He) as (bs & Hw & Hd).
  eexists s, _, bs. split; [done|]. split; [exact He|]. split; [done|]. split; [done|].
  assert (CcRequest ∈ (if is_enabled (hs_ccontrol s) then [CcRequest] else []) ++
            match relay_crypt_protocol s with
            | ProtoCgo => [SubprotocolRequest [mkNumbered 2 6]] | _ => [] end
          ↔ is_enabled (hs_ccontrol s) = true) as Hin.
  { rewrite elem_of_app. destruct (is_enabled (hs_ccontrol s)), (relay_crypt_protocol s);
      rewrite ?list_elem_of_singleton, ?elem_of_nil; intuition congruence. }
  split; [done|]. split; [by rewrite Hin|]. split; [rewrite Hcgo, Hcc; tauto|]. split.
  - intros l Hl. rewrite Hin. apply elem_of_app in Hl as [Hl|Hl].
    + destruct (is_enabled (hs_ccontrol s)); [by apply list_elem_of_singleton in Hl|by apply elem_of_nil in Hl].
    + destruct (relay_crypt_protocol s) eqn:Hp; [by apply elem_of_nil in Hl..|].
      apply list_elem_of_singleton in Hl as [= ->]. destruct (proj1 Hcgo eq_refl) as (Hen & Hn & Hc).
      split; [|done]. simpl. unfold supports_numbered_subver. simpl.
      change (supports_known_subver caps (Z.to_nat 2) 6) with (supports_named_subver caps RELAY_CRYPT_CGO).
      by rewrite Hc.
  - split; [|intros ->; apply elem_of_app; right; by apply list_elem_of_singleton].
    split; [|by intros ->]. intros HF. destruct (relay_crypt_protocol s) eqn:Hp; [| |done].
    1, 2: rewrite Hf in HF; done.
Qed.

(** An answer to a request for congestion control: the increment must be within one of ours. *)
Lemma handle_cc_response inc s :
  is_enabled (hs_ccontrol s) = true → 0 < inc →
  cp_sendme_inc (cwnd_params (hs_ccontrol s)) < u32_max →
  handle_server_aux_data [CcResponse inc] s =
    if Z.abs (inc - cp_sendme_inc (cwnd_params (hs_ccontrol s))) <=? 1
    then Ok (settings_set_sendme_inc inc s)
    else Err (HandshakeProto "Received invalid sendme increment in CC ntorv3 extension").
Proof.
  intros He Hi Hm. simpl. rewrite He. simpl. unfold is_sendme_inc_valid, saturating_add, saturating_sub.
  rewrite (proj2 (Z.eqb_neq inc 0)) by lia.
  set (c := cp_sendme_inc _) in *.
  destruct (Z.ltb_spec (Z.min (c + 1) u32_max) inc), (Z.ltb_spec inc (Z.max (c - 1) 0)),
    (Z.leb_spec (Z.abs (inc - c)) 1); simpl; try lia; done.
Qed.

(** A relay can move the SENDME increment anywhere, one step per extension: the check compares
    each acknowledgement with the increment that the previous one has set, and further
    acknowledgements are not ignored, although the format requires that of a repeated
    extension. *)
Theorem sendme_inc_drifts (n : nat) s :
  is_enabled (hs_ccontrol s) = true →
  0 ≤ cp_sendme_inc (cwnd_params (hs_ccontrol s)) →
  cp_sendme_inc (cwnd_params (hs_ccontrol s)) + Z.of_nat n ≤ u8_max →
  ∃ s', handle_server_aux_data
          (map (λ i, CcResponse (cp_sendme_inc (cwnd_params (hs_ccontrol s)) + 1 + Z.of_nat i)) (seq 0 n)) s = Ok s' ∧
        cp_sendme_inc (cwnd_params (hs_ccontrol s')) =
          cp_sendme_inc (cwnd_params (hs_ccontrol s)) + Z.of_nat n.
Proof.
  revert s. induction n as [|n IH]; intros s He H0 Hb.
  { exists s. split; [done|]. lia. }
  set (c := cp_sendme_inc (cwnd_params (hs_ccontrol s))) in *.
  set (s1 := settings_set_sendme_inc (c + 1) s).
  assert (handle_server_aux_data [CcResponse (c + 1)] s = Ok s1) as H1.
  { rewrite handle_cc_response; fold c; [|done|lia|unfold u8_max, u32_max in *; lia].
    by rewrite (proj2 (Z.leb_le _ _)) by lia. }
  destruct (IH s1) as (s' & Hs' & Hc'); [done|simpl; lia|simpl; lia|].
  exists s'. split; [|rewrite Hc'; simpl; lia].
  assert (map (λ i, CcResponse (c + 1 + Z.of_nat i)) (seq 0 (S n)) =
          CcResponse (c + 1) :: map (λ i, CcResponse (c + 1 + 1 + Z.of_nat i)) (seq 0 n)) as ->.
  { simpl. rewrite Z.add_0_r. f_equal. rewrite <-seq_shift, map_map. apply map_ext. intros i.
    f_equal. lia. }
  simpl in H1 |- *. rewrite He in *. simpl in *. destruct (is_sendme_inc_valid _ _); [|done].
  exact Hs'.
Qed.

(** ** Limits on cells are exact *)

Fixpoint decrement_times (k : nat) (val : option Z) : res ProtoError (option Z) :=
  match k with
  | O => Ok val
  | S k => v ← try_decrement_cell_limit ExcessOutboundCells val; decrement_times k v
  end.

(** A limit of [n] lets exactly [n] cells through. *)
Lemma cell_limit_exact n :
  0 ≤ n < u32_max →
  ∃ v, cvt_opt (E:=ProtoError) (Some n) = Ok v ∧
       (∀ k, Z.of_nat k ≤ n → is_ok (decrement_times k v) = true) ∧
       decrement_times (S (Z.to_nat n)) v = Err ExcessOutboundCells.
Proof.
  intros Hn. exists (Some (n + 1)). unfold cvt_opt, cvt, saturating_add.
  rewrite Z.min_l, (proj2 (Z.eqb_neq _ _)) by lia. split; [done|].
  assert (∀ k m, Z.of_nat k ≤ m →
    decrement_times k (Some (m + 1)) = Ok (Some (m + 1 - Z.of_nat k))) as H.
  { induction k as [|k IH]; intros m Hk; simpl; [by rewrite Z.sub_0_r|].
    rewrite (proj2 (Z.eqb_neq _ _)) by lia. rewrite usub_ok by lia. simpl.
    rewrite (proj2 (Z.eqb_neq _ _)) by lia. simpl. replace (m + 1 - 1) with (m - 1 + 1) by lia.
    rewrite IH by lia. do 2 f_equal. lia. }
  split; [intros k Hk; by rewrite H|].
  assert (∀ k v, decrement_times (S k) v = (v ← decrement_times k v; try_decrement_cell_limit ExcessOutboundCells v)) as Hsnoc.
  { induction k as [|k IH]; intros v; [simpl; by destruct (try_decrement_cell_limit _ _)|].
    change (decrement_times (S (S k)) v)
      with (v ← try_decrement_cell_limit ExcessOutboundCells v; decrement_times (S k) v).
    simpl. destruct (try_decrement_cell_limit _ v) as [v'|?|]; simpl; [|done..]. apply IH. }
  rewrite Hsnoc, H by lia. simpl. rewrite Z2Nat.id by lia. by replace (n + 1 - n) with 1 by lia.
Qed.

(** ** Witnesses *)

Definition settings_example : HopSettings :=
  mkSettings
    (mkCCParams (AlgVegas (mkVegasParams (mkVegasQueueParams 3 4 5 3 600) 5000 4 25 1))
       (mkFixedWindowParams 1000 100 1000)
       (mkCwndParams 124 100 1 31 124 2147483647 31)
       (mkRttParams 50 10 2 100))
    (mkFlowParams 500 500 500 25 2) None None ProtoCgo.

Lemma sendme_inc_drifts_witness :
  ∃ s', handle_server_aux_data
          (map (λ i, CcResponse (31 + 1 + Z.of_nat i)) (seq 0 200)) settings_example = Ok s' ∧
        cp_sendme_inc (cwnd_params (hs_ccontrol s')) = 231.
Proof. apply (sendme_inc_drifts 200 settings_example); vm_compute; congruence. Defined.
