(* ===== verification/CircHop.v ===== *)
(** * CircHop: the hops of a client circuit

    The second half of [tor-proto/src/circuit/circhop.rs] and [client/reactor/circuit/circhop.rs]:
    what the reactor keeps for a hop, and the hops of a circuit; with the command checkers of
    [client/stream/resolve.rs] and [stream/incoming.rs].  The stream map of a hop is shared by
    the legs of a conflux tunnel through an [Arc]: a hop holds the location of its map in the
    store of stream maps, which every operation threads.  Congestion control is the boxed
    algorithm, a sum of the two.  The number of bytes in a stream's queue is an argument of the
    operations that ask for it. *)

From S2P Require Import Prelude Bytes Codec RelayMsg RelayCell Sendme Cwnd Rtt Vegas Congestion.
From S2P Require Import FlowCtrl PollSet StreamMap ConfluxMsg HopSettings.

(** ** Boxed command checkers *)

Inductive AnyCmdChecker : Type :=
| OutboundData (c : OutboundDataCmdChecker)
| InboundData
| ResolveCheck
| Incoming (allow_commands : list Z).

Definition inbound_data_check_msg (msg : UnparsedRelayMsg) : res ProtoError StreamStatus :=
  cmd ← unparsed_cmd msg;
  if cmd =? RelayCmd.DATA then Ok StatusOpen
  else if cmd =? RelayCmd.END then Ok StatusClosed
  else Err (StreamProto "Unexpected message on an incoming data stream!").

Definition resolve_check_msg (msg : UnparsedRelayMsg) : res ProtoError StreamStatus :=
  cmd ← unparsed_cmd msg;
  if cmd =? RelayCmd.RESOLVED then Ok StatusClosed
  else if cmd =? RelayCmd.END then Ok StatusClosed
  else Err (StreamProto "Unexpected message on resolve stream").

Definition incoming_check_msg (allow_commands : list Z) (msg : UnparsedRelayMsg) :
    res ProtoError StreamStatus :=
  cmd ← unparsed_cmd msg;
  if one_of cmd allow_commands then Ok StatusOpen
  else Err (StreamProto "Unexpected message on incoming stream").

Definition as_incoming_data_msg (m : AnyRelayMsg) : option AnyRelayMsg :=
  match m with AData _ | AEnd _ => Some m | _ => None end.
Definition as_resolve_response (m : AnyRelayMsg) : option AnyRelayMsg :=
  match m with AEnd _ | AResolved _ => Some m | _ => None end.
Definition as_incoming_request (m : AnyRelayMsg) : option AnyRelayMsg :=
  match m with ABegin _ | ABeginDir | AResolve _ => Some m | _ => None end.

#[export] Instance any_cmd_checker : CmdChecker AnyCmdChecker := {
  check_msg msg c :=
    match c with
    | OutboundData d => '(d, s) ← check_msg msg d; Ok (OutboundData d, s)
    | InboundData => s ← inbound_data_check_msg msg; Ok (c, s)
    | ResolveCheck => s ← resolve_check_msg msg; Ok (c, s)
    | Incoming allow => s ← incoming_check_msg allow msg; Ok (c, s)
    end;
  consume_checked_msg msg c :=
    match c with
    | OutboundData d => d ← consume_checked_msg msg d; Ok (OutboundData d)
    | InboundData => _ ← decode_as "cell on half-closed stream" as_incoming_data_msg msg; Ok c
    | ResolveCheck => _ ← decode_as "message on resolve stream." as_resolve_response msg; Ok c
    | Incoming _ => _ ← decode_as "invalid message on incoming stream" as_incoming_request msg; Ok c
    end }.

(** ** Boxed congestion control *)

Definition AnyAlgorithm : Type := FixedWindow + Vegas.

Definition map_alg {B} (f : FixedWindow → res ProtoError (FixedWindow * B))
    (g : Vegas → res ProtoError (Vegas * B)) (a : AnyAlgorithm) : res ProtoError (AnyAlgorithm * B) :=
  match a with
  | inl x => '(x, b) ← f x; Ok (inl x, b)
  | inr y => '(y, b) ← g y; Ok (inr y, b)
  end.

Definition map_alg_ (f : FixedWindow → res ProtoError FixedWindow)
    (g : Vegas → res ProtoError Vegas) (a : AnyAlgorithm) : res ProtoError AnyAlgorithm :=
  match a with inl x => x ← f x; Ok (inl x) | inr y => y ← g y; Ok (inr y) end.

#[export] Instance any_algorithm : CongestionControlAlgorithm AnyAlgorithm := {
  uses_stream_sendme a := match a with inl x => uses_stream_sendme x | inr y => uses_stream_sendme y end;
  uses_xon_xoff a := match a with inl x => uses_xon_xoff x | inr y => uses_xon_xoff y end;
  is_next_cell_sendme a := match a with inl x => is_next_cell_sendme x | inr y => is_next_cell_sendme y end;
  Congestion.can_send a := match a with inl x => Congestion.can_send x | inr y => Congestion.can_send y end;
  alg_cwnd a := match a with inl x => alg_cwnd x | inr y => alg_cwnd y end;
  data_received := map_alg data_received data_received;
  data_sent := map_alg_ data_sent data_sent;
  sendme_received state rtt signals :=
    map_alg (sendme_received state rtt signals) (sendme_received state rtt signals);
  sendme_sent := map_alg_ sendme_sent sendme_sent;
  inflight a := match a with inl x => inflight x | inr y => inflight y end;
  algorithm a := match a with inl x => algorithm x | inr y => algorithm y end }.

Definition HopCC : Type := CongestionControl AnyAlgorithm.

Definition box_cc (c : CongestionControl FixedWindow + CongestionControl Vegas) : HopCC :=
  match c with
  | inl c => mkCC (cc_state c) (cc_sendme_validator c) (cc_rtt c) (inl (cc_algorithm c))
  | inr c => mkCC (cc_state c) (cc_sendme_validator c) (cc_rtt c) (inr (cc_algorithm c))
  end.

(** ** Commands *)

Record SendRelayCell : Type := mkSend {
  sr_hop : option nat;
  sr_early : bool;
  sr_cell : RelayMsgOuter }.

Inductive CloseStreamBehavior : Type := SendNothing | SendEnd (end_message : End').

Definition CloseStreamBehavior_default : CloseStreamBehavior := SendEnd End_new_misc.

Inductive CircuitCmd : Type :=
| CmdSend (c : SendRelayCell)
| CmdHandleSendMe (hop : nat) (sendme : Sendme)
| CmdCloseStream (hop : nat) (sid : Z) (behav : CloseStreamBehavior) (reason : TerminateReason)
| CmdConflux (c : ConfluxCmd)
| CmdCleanShutdown
| CmdEnqueue (m : OooRelayMsg).

(** ** The store of stream maps *)

Definition Streams : Type := gmap nat (StreamMap AnyCmdChecker).

Definition lock (loc : nat) (st : Streams) : res ProtoError (StreamMap AnyCmdChecker) :=
  expect (st !! loc).

(** Runs an operation on the map at [loc]. *)
Definition with_map {A} (loc : nat)
    (f : StreamMap AnyCmdChecker → res ProtoError (StreamMap AnyCmdChecker * A)) (st : Streams) :
    res ProtoError (Streams * A) :=
  sm ← lock loc st;
  '(sm, a) ← f sm;
  Ok (<[loc := sm]> st, a).

(** ** Hops *)

Record CircHopInbound : Type := mkInbound {
  ib_decoder : RelayCellFormat;
  ib_n_cells_permitted : option Z }.

Record CircHopOutbound : Type := mkOutbound {
  ob_ccontrol : HopCC;
  ob_map : nat;
  ob_relay_format : RelayCellFormat;
  ob_flow_ctrl_params : FlowCtrlParameters;
  ob_n_cells_permitted : option Z }.

Record CircHop : Type := mkHop {
  hp_hop_num : nat;
  hp_inbound : CircHopInbound;
  hp_outbound : CircHopOutbound }.

Definition CircHopInbound_new (decoder : RelayCellFormat) (settings : HopSettings) :
    res ProtoError CircHopInbound :=
  n ← cvt_opt (hs_n_incoming_cells_permitted settings); Ok (mkInbound decoder n).

(** [map] is the location of the new, empty stream map. *)
Definition CircHopOutbound_new (ccontrol : HopCC) (map : nat) (relay_format : RelayCellFormat)
    (flow_ctrl_params : FlowCtrlParameters) (settings : HopSettings) : res ProtoError CircHopOutbound :=
  n ← cvt_opt (hs_n_outgoing_cells_permitted settings);
  Ok (mkOutbound ccontrol map relay_format flow_ctrl_params n).

Definition CircHop_new (hop_num map : nat) (settings : HopSettings) : res ProtoError CircHop :=
  let relay_format := relay_cell_format_of (relay_crypt_protocol settings) in
  ccontrol ← CongestionControl_new (hs_ccontrol settings);
  inbound ← CircHopInbound_new relay_format settings;
  outbound ← CircHopOutbound_new (box_cc ccontrol) map relay_format (hs_flow_ctrl_params settings) settings;
  Ok (mkHop hop_num inbound outbound).

Section hop.
Implicit Types (h : CircHop) (o : CircHopOutbound) (st : Streams).

Definition set_inbound (i : CircHopInbound) h : CircHop := mkHop (hp_hop_num h) i (hp_outbound h).
Definition set_outbound o h : CircHop := mkHop (hp_hop_num h) (hp_inbound h) o.

Definition ccontrol h : HopCC := ob_ccontrol (hp_outbound h).
Definition set_ccontrol (c : HopCC) h : CircHop :=
  let o := hp_outbound h in
  set_outbound (mkOutbound c (ob_map o) (ob_relay_format o) (ob_flow_ctrl_params o) (ob_n_cells_permitted o)) h.

Definition hop_decode (cell : list Z) h : RelayCellDecoderResult :=
  decoder_decode (ib_decoder (hp_inbound h)) cell.

Definition decrement_inbound_cell_limit h : res ProtoError CircHop :=
  let i := hp_inbound h in
  n ← try_decrement_cell_limit ExcessInboundCells (ib_n_cells_permitted i);
  Ok (set_inbound (mkInbound (ib_decoder i) n) h).

Definition decrement_outbound_cell_limit h : res ProtoError CircHop :=
  let o := hp_outbound h in
  n ← try_decrement_cell_limit ExcessOutboundCells (ob_n_cells_permitted o);
  Ok (set_outbound (mkOutbound (ob_ccontrol o) (ob_map o) (ob_relay_format o) (ob_flow_ctrl_params o) n) h).

Definition SEND_WINDOW_INIT : Z := 500.

Definition build_flow_ctrl h : StreamFlowCtrl :=
  if uses_stream_sendme (cc_algorithm (ccontrol h))
  then new_window (SendWindow_new SEND_WINDOW_INIT)
  else
    let use_sidechannel_mitigations := true in
    new_xon_xoff (ob_flow_ctrl_params (hp_outbound h)) use_sidechannel_mitigations.

(** The store afterwards, and the cell to send with the identifier of the stream. *)
Definition hop_begin_stream (message : AnyRelayMsg) (cmd_checker : AnyCmdChecker) h st :
    res ProtoError (Streams * res ProtoError (SendRelayCell * Z)) :=
  let flow_ctrl := build_flow_ctrl h in
  sm ← lock (ob_map (hp_outbound h)) st;
  let '(sm, r) := sm_add_ent flow_ctrl cmd_checker sm in
  let st := <[ob_map (hp_outbound h) := sm]> st in
  match r with
  | Ok r => Ok (st, Ok (mkSend (Some (hp_hop_num h)) false (mkOuter (Some r) message), r))
  | Err e => Ok (st, Err e)
  | Panic => Panic
  end.

(** The store afterwards, and the END cell to send, if any. *)
Definition hop_close_stream (now id : Z) (message : CloseStreamBehavior) (why : TerminateReason)
    (expiry : Z) h st : res ProtoError (Streams * res ProtoError (option SendRelayCell)) :=
  sm ← lock (ob_map (hp_outbound h)) st;
  let '(sm, should_send_end) := terminate now id why expiry sm in
  let st := <[ob_map (hp_outbound h) := sm]> st in
  match should_send_end with
  | Ok Send =>
      match message with
      | SendEnd end_message =>
          Ok (st, Ok (Some (mkSend (Some (hp_hop_num h)) false (mkOuter (Some id) (AEnd end_message)))))
      | SendNothing => Ok (st, Ok None)
      end
  | Ok DontSend => Ok (st, Ok None)
  | Err e => Ok (st, Err e)
  | Panic => Panic
  end.

(** Runs an operation of flow control on an open stream; nothing if the stream went away. *)
Definition with_flow {A} (id : Z) (f : StreamFlowCtrl → res ProtoError (StreamFlowCtrl * option A))
    (sm : StreamMap AnyCmdChecker) : res ProtoError (StreamMap AnyCmdChecker * option A) :=
  match get_mut id sm with
  | Some (EntOpen ent) =>
      '(flow, a) ← f (oe_flow ent);
      Ok (set_open (update_stream id (set_flow flow ent) (open_streams sm)) sm, a)
  | _ => Ok (sm, None)
  end.

(** [buffered] is the number of bytes in the queue of the stream. *)
Definition hop_maybe_send_xon (rate : XonKbpsEwma) (id buffered : Z) h st :
    res ProtoError (Streams * option Xon) :=
  if negb (uses_xon_xoff (cc_algorithm (ccontrol h))) then Ok (st, None)
  else with_map (ob_map (hp_outbound h)) (with_flow id (maybe_send_xon rate buffered)) st.

Definition hop_maybe_send_xoff (id buffered : Z) h st : res ProtoError (Streams * option Xoff) :=
  if negb (uses_xon_xoff (cc_algorithm (ccontrol h))) then Ok (st, None)
  else with_map (ob_map (hp_outbound h)) (with_flow id (maybe_send_xoff buffered)) st.

Definition hop_about_to_send (stream_id : Z) (msg : AnyRelayMsg) h st : res ProtoError Streams :=
  '(st, _) ← with_map (ob_map (hp_outbound h)) (λ sm, sm ← about_to_send_on stream_id msg sm; Ok (sm, tt)) st;
  Ok st.

Definition hop_add_ent_with_id (stream_id : Z) (cmd_checker : AnyCmdChecker) h st : res ProtoError Streams :=
  '(st, _) ← with_map (ob_map (hp_outbound h))
    (λ sm, let '(sm, r) := StreamMap.add_ent_with_id (build_flow_ctrl h) stream_id cmd_checker sm in
           _ ← r; Ok (sm, tt)) st;
  Ok st.

Definition hop_ending_msg_received (now stream_id : Z) h st : res ProtoError Streams :=
  '(st, _) ← with_map (ob_map (hp_outbound h))
    (λ sm, sm ← ending_msg_received now stream_id sm; Ok (sm, tt)) st;
  Ok st.

(** Whether the message is a stream request for the caller to handle. *)
Definition hop_handle_msg (cell_counts_toward_windows : bool) (streamid : Z) (msg : UnparsedRelayMsg)
    (now : Z) h st : res ProtoError (Streams * bool) :=
  with_map (ob_map (hp_outbound h))
    (StreamMap.handle_msg UnknownStream cell_counts_toward_windows streamid msg now) st.

Definition hop_n_open_streams h st : res ProtoError Z :=
  sm ← lock (ob_map (hp_outbound h)) st; Ok (sm_n_open_streams sm).

Definition set_stream_map (map : nat) h st : res ProtoError CircHop :=
  n ← hop_n_open_streams h st;
  if negb (n =? 0) then Err (Internal "Tried to discard existing open streams?!")
  else
    let o := hp_outbound h in
    Ok (set_outbound (mkOutbound (ob_ccontrol o) map (ob_relay_format o) (ob_flow_ctrl_params o)
                        (ob_n_cells_permitted o)) h).

(** One future of [ready_streams_iterator]: the command for the first ready stream of a hop. *)
Definition poll_hop (hop_num : nat) h st : res ProtoError (Streams * option CircuitCmd) :=
  with_map (ob_map (hp_outbound h)) (λ sm,
    '(sm, ready) ← poll_ready_streams_iter sm;
    match ready with
    | [] => Ok (sm, None)
    | (sid, None) :: _ =>
        Ok (sm, Some (CmdCloseStream hop_num sid CloseStreamBehavior_default StreamTargetClosed))
    | (sid, Some _) :: _ =>
        '(sm, msg) ← take_ready_msg sid sm;
        msg ← expect msg;
        match get_mut sid sm with
        | Some (EntOpen s) =>
            _ ← debug_assert (can_send msg (oe_flow s));
            Ok (sm, Some (CmdSend (mkSend (Some hop_num) false (mkOuter (Some sid) msg))))
        | _ => Panic
        end
    end) st.
End hop.

(** ** The hops of a circuit *)

Definition CircHopList : Type := list CircHop.

(** The hops whose streams [ready_streams_iterator] polls. *)
Definition ready_hops (exclude : option nat) (hops : CircHopList) : list (nat * CircHop) :=
  filter (λ '(i, h), exclude ≠ Some i ∧ Congestion.can_send (cc_algorithm (ccontrol h)) = true)
    (zip (seq 0 (length hops)) hops).

Fixpoint hops_remove_expired (now : Z) (hops : CircHopList) (st : Streams) : res ProtoError Streams :=
  match hops with
  | [] => Ok st
  | h :: hops =>
      '(st, _) ← with_map (ob_map (hp_outbound h)) (λ sm, Ok (remove_expired_halfstreams now sm, tt)) st;
      hops_remove_expired now hops st
  end.

Fixpoint hops_has_streams (hops : CircHopList) (st : Streams) : res ProtoError bool :=
  match hops with
  | [] => Ok false
  | h :: hops =>
      n ← hop_n_open_streams h st;
      if 0 <? n then Ok true else hops_has_streams hops st
  end.

Fixpoint hops_n_open_streams (hops : CircHopList) (st : Streams) : res ProtoError Z :=
  match hops with
  | [] => Ok 0
  | h :: hops =>
      n ← hop_n_open_streams h st;
      rest ← hops_n_open_streams hops st;
      uadd usize_max n rest
  end.
