(* ===== verification/StateM.v ===== *)
(** * StateM: operations on a shared state that can fail

    The reactor's operations mutate their object and return a [Result].  [ST S E A] keeps the
    state also when an operation fails, because some callers go on after an error. *)

From S2P Require Import Prelude.

Definition ST (S E A : Type) : Type := S → S * res E A.

#[export] Instance ST_mret S E : MRet (ST S E) := λ A a s, (s, Ok a).
#[export] Instance ST_mbind S E : MBind (ST S E) := λ A B f m s,
  match m s with
  | (s, Ok a) => f a s
  | (s, Err e) => (s, Err e)
  | (s, Panic) => (s, Panic)
  end.

Section operations.
Context {S E : Type}.

Definition lift {A} (r : res E A) : ST S E A := λ s, (s, r).
Definition fail {A} (e : E) : ST S E A := lift (Err e).
Definition gets {A} (f : S → A) : ST S E A := λ s, (s, Ok (f s)).
Definition modify (f : S → S) : ST S E unit := λ s, (f s, Ok tt).

(** The result of an operation as a value; a panic is not caught. *)
Definition catch {E' A} (m : ST S E A) : ST S E' (res E A) := λ s,
  match m s with
  | (s, Panic) => (s, Panic)
  | (s, r) => (s, Ok r)
  end.

Definition with_err {E' A} (f : E → E') (m : ST S E A) : ST S E' A := λ s,
  let '(s, r) := m s in (s, map_err f r).

(** An operation on a part of the state. *)
Definition zoom {T A} (get : S → T) (put : T → S → S) (m : ST T E A) : ST S E A := λ s,
  let '(t, r) := m (get s) in (put t s, r).

(** An operation that updates a part of the state only when it succeeds. *)
Definition zoom_res {T A} (get : S → T) (put : T → S → S) (f : T → res E (T * A)) : ST S E A := λ s,
  match f (get s) with
  | Ok (t, a) => (put t s, Ok a)
  | Err e => (s, Err e)
  | Panic => (s, Panic)
  end.

Fixpoint for_each {A} (f : A → ST S E unit) (l : list A) : ST S E unit :=
  match l with
  | [] => mret tt
  | x :: l => _ ← f x; for_each f l
  end.
End operations.

(** ** Reasoning about successful runs *)

Section laws.
Context {S E : Type}.
Implicit Types s : S.

Lemma st_bind_ok {A B} (m : ST S E A) (f : A → ST S E B) s s' b :
  (m ≫= f) s = (s', Ok b) ↔ ∃ s1 a, m s = (s1, Ok a) ∧ f a s1 = (s', Ok b).
Proof.
  unfold mbind, ST_mbind. destruct (m s) as [s1 [a|e|]]; split.
  - eauto.
  - by intros (? & ? & [= <- <-] & ?).
  - done.
  - by intros (? & ? & ? & ?).
  - done.
  - by intros (? & ? & ? & ?).
Qed.

Lemma st_bind_run {A B} (m : ST S E A) (f : A → ST S E B) s s' a :
  m s = (s', Ok a) → (m ≫= f) s = f a s'.
Proof. unfold mbind, ST_mbind. by intros ->. Qed.

Lemma st_bind_err {A B} (m : ST S E A) (f : A → ST S E B) s s' e :
  m s = (s', Err e) → (m ≫= f) s = (s', Err e).
Proof. unfold mbind, ST_mbind. by intros ->. Qed.

Lemma st_ret_ok {A} (a b : A) s s' : (mret a : ST S E A) s = (s', Ok b) ↔ s' = s ∧ b = a.
Proof. unfold mret, ST_mret. intuition congruence. Qed.

Lemma st_lift_ok {A} (r : res E A) s s' b : lift r s = (s', Ok b) ↔ s' = s ∧ r = Ok b.
Proof. unfold lift. intuition congruence. Qed.

Lemma st_fail_ok {A} (e : E) s s' (b : A) : fail e s = (s', Ok b) ↔ False.
Proof. unfold fail, lift. intuition congruence. Qed.

Lemma st_gets_ok {A} (f : S → A) s s' b : gets (E:=E) f s = (s', Ok b) ↔ s' = s ∧ b = f s.
Proof. unfold gets. intuition congruence. Qed.

Lemma st_modify_ok (f : S → S) s s' u : modify (E:=E) f s = (s', Ok u) ↔ s' = f s.
Proof. unfold modify. destruct u. intuition congruence. Qed.

Lemma st_zoom_res_ok {T A} (get : S → T) put (f : T → res E (T * A)) s s' a :
  zoom_res get put f s = (s', Ok a) ↔ ∃ t, f (get s) = Ok (t, a) ∧ s' = put t s.
Proof.
  unfold zoom_res. destruct (f (get s)) as [[t b]|e|]; split.
  - intros [= <- <-]. eauto.
  - by intros (? & [= <- <-] & ->).
  - done.
  - by intros (? & ? & ?).
  - done.
  - by intros (? & ? & ?).
Qed.

Lemma st_zoom_ok {T A} (get : S → T) put (m : ST T E A) s s' a :
  zoom get put m s = (s', Ok a) ↔ ∃ t, m (get s) = (t, Ok a) ∧ s' = put t s.
Proof.
  unfold zoom. destruct (m (get s)) as [t r]. split; [intros [= <- ->]; eauto|].
  by intros (? & [= <- ->] & ->).
Qed.
End laws.

(** Takes a successful run apart. *)
Ltac st_inv :=
  repeat match goal with
  | H : (_ ≫= _) _ = (_, Ok _) |- _ => apply st_bind_ok in H as (? & ? & ? & H)
  | H : mret _ _ = (_, Ok _) |- _ => apply st_ret_ok in H as [-> H]; first [subst | clear H]
  | H : lift _ _ = (_, Ok _) |- _ => apply st_lift_ok in H as [-> H]
  | H : fail _ _ = (_, Ok _) |- _ => apply st_fail_ok in H as []
  | H : gets _ _ = (_, Ok _) |- _ => apply st_gets_ok in H as [-> ->]
  | H : modify _ _ = (_, Ok _) |- _ => apply st_modify_ok in H as ->
  | H : zoom_res _ _ _ _ = (_, Ok _) |- _ => apply st_zoom_res_ok in H as (? & H & ->)
  | H : zoom _ _ _ _ = (_, Ok _) |- _ => apply st_zoom_ok in H as (? & H & ->)
  end.

(** ** Operations that keep a relation to the state they started from, however they end *)

Class Keeps {S E A} (R : relation S) (m : ST S E A) : Prop := keeps s : R s (m s).1.

Section keeps.
Context {S E : Type} {R : relation S} {PO : PreOrder R}.

#[export] Instance keeps_lift {A} (r : res E A) : Keeps R (lift r).
Proof. intros s. reflexivity. Qed.
#[export] Instance keeps_ret {A} (a : A) : Keeps (E:=E) R (mret a).
Proof. intros s. reflexivity. Qed.
#[export] Instance keeps_fail {A} (e : E) : Keeps (A:=A) R (fail e).
Proof. intros s. reflexivity. Qed.
#[export] Instance keeps_gets {A} (f : S → A) : Keeps (E:=E) R (gets f).
Proof. intros s. reflexivity. Qed.
#[export] Instance keeps_bind {A B} (m : ST S E A) (f : A → ST S E B) :
  Keeps R m → (∀ a, Keeps R (f a)) → Keeps R (m ≫= f).
Proof.
  intros Hm Hf s. unfold mbind, ST_mbind. specialize (Hm s).
  destruct (m s) as [s1 [a|e|]]; simpl in *; [|done..]. etrans; [done|apply Hf].
Qed.
#[export] Instance keeps_if {A} (b : bool) (m n : ST S E A) :
  Keeps R m → Keeps R n → Keeps R (if b then m else n).
Proof. by destruct b. Qed.
#[export] Instance keeps_catch {E' A} (m : ST S E A) : Keeps R m → Keeps (E:=E') R (catch m).
Proof. intros Hm s. unfold catch. specialize (Hm s). by destruct (m s) as [s' [a|e|]]. Qed.
#[export] Instance keeps_with_err {E' A} (f : E → E') (m : ST S E A) : Keeps R m → Keeps R (with_err f m).
Proof. intros Hm s. unfold with_err. specialize (Hm s). by destruct (m s). Qed.

Lemma keeps_modify (f : S → S) : (∀ s, R s (f s)) → Keeps (E:=E) R (modify f).
Proof. intros Hf s. apply Hf. Qed.
Lemma keeps_zoom_res {T A} (get : S → T) put (f : T → res E (T * A)) :
  (∀ t s, R s (put t s)) → Keeps R (zoom_res get put f).
Proof. intros Hp s. unfold zoom_res. destruct (f (get s)) as [[t a]|e|]; simpl; [apply Hp|done..]. Qed.

Lemma keeps_ok {A} (m : ST S E A) `{!Keeps R m} s s' x : m s = (s', x) → R s s'.
Proof. intros H. pose proof (keeps (m:=m) s) as Hk. by rewrite H in Hk. Qed.
End keeps.

(** Composes the relations that the successful steps of a run keep. *)
Ltac keeps_chain :=
  repeat match goal with
  | H : _ ?s = (?s', Ok _) |- ?R _ ?s' => apply (keeps_ok (R:=R)) in H; [etrans; [|exact H]|apply _]
  end; try reflexivity.

(** Takes an operation apart into operations that are known to keep the relation; [tac] is for
    the operations of a development that wrap others. *)
Ltac keeps_tac_with tac :=
  repeat first
    [ apply _
    | tac
    | apply keeps_bind; [|intros ?]
    | apply keeps_if
    | progress cbv zeta
    | apply keeps_modify; by intros ?
    | case_match ].
