(* ===== verification/Circuit.v ===== *)
(** * Circuit: a client circuit

    [client/reactor/circuit.rs], in a build with the features [conflux], [hs-service],
    [send-control-msg] and [flowctl-cc] and without [circ-padding].  A circuit is a record; what it
    shares with the other legs of its tunnel and with the reactor (the stream maps, the number of
    the last delivered message, the cell handlers) is threaded beside it, with the source of
    randomness.  The cells handed to the channel are kept in the order in which they were sent;
    the identifiers that are only logged and the memory accounts are left out.  The layers of
    encryption, the relays' identities, the installed meta-cell handler and the filter of incoming
    streams are the section's parameters. *)

From S2P Require Import Prelude StateM Bytes Codec RelayMsg RelayCell Sendme RelayCrypt Cwnd Rtt.
From S2P Require Import Vegas Congestion FlowCtrl PollSet StreamMap ConfluxMsg HopSettings.
From S2P Require Import CircHop ChanCell.

Inductive HopDetail (P : Type) : Type := Relay (target : P) | Virtual.
Arguments Relay {P}.
Arguments Virtual {P}.

Inductive HopLocation : Type := LocHop (leg hop : nat) | LocJoinPoint.

#[export] Instance HopLocation_eq_dec : EqDecision HopLocation.
Proof. solve_decision. Defined.

Definition location_hop_num (l : HopLocation) : option nat :=
  match l with LocHop _ hop => Some hop | LocJoinPoint => None end.

(** ** Data *)

(** [ci_sent] are the cells handed to the channel. *)
Record Circuit (Lo Li P : Type) : Type := mkCircuit {
  ci_unique_id : nat;
  ci_crypto_in : list Li;
  ci_crypto_out : list Lo;
  ci_hops : CircHopList;
  ci_path : list (HopDetail P);
  ci_binding : list (option (list Z));
  ci_conflux_handler : option ClientConfluxMsgHandler;
  ci_sent : list (Z * list Z) }.
Arguments mkCircuit {Lo Li P}.
Arguments ci_unique_id {Lo Li P}.
Arguments ci_crypto_in {Lo Li P}.
Arguments ci_crypto_out {Lo Li P}.
Arguments ci_hops {Lo Li P}.
Arguments ci_path {Lo Li P}.
Arguments ci_binding {Lo Li P}.
Arguments ci_conflux_handler {Lo Li P}.
Arguments ci_sent {Lo Li P}.

Inductive MetaCellDisposition : Type := Consumed | ConversationFinished | CloseCirc.

(** The handler may change the circuit.  When it adds a hop it adds a stream map, which starts at
    the identifier that is its first argument. *)
Class MetaCellHandler (MH Lo Li P : Type) : Type := {
  expected_hop : MH → HopLocation;
  meta_handle_msg : Z → UnparsedRelayMsg → MH → Circuit Lo Li P → Streams →
    res ProtoError (MH * Circuit Lo Li P * Streams * MetaCellDisposition);
}.

Inductive IncomingStreamRequestDisposition : Type :=
| Accept
| CloseCircuit
| RejectRequest (end_message : End').

(** The filter sees the request and the number of open streams of the circuit. *)
Class IncomingStreamRequestFilter (F : Type) : Type :=
  disposition : Begin → Z → F → res ProtoError (F * IncomingStreamRequestDisposition).

Inductive SendOutcome : Type := Sent | Full | Disconnected.

Record StreamReqInfo : Type := mkReqInfo {
  ri_req : Begin;
  ri_stream_id : Z;
  ri_hop : HopLocation;
  ri_relay_cell_format : RelayCellFormat }.

(** [ih_queue] is what the queue of accepted requests does with the next one. *)
Record IncomingStreamRequestHandler (F : Type) : Type := mkIncoming {
  ih_accepted : list StreamReqInfo;
  ih_queue : SendOutcome;
  ih_cmd_checker : AnyCmdChecker;
  ih_hop_num : option nat;
  ih_filter : F }.
Arguments mkIncoming {F}.
Arguments ih_accepted {F}.
Arguments ih_queue {F}.
Arguments ih_cmd_checker {F}.
Arguments ih_hop_num {F}.
Arguments ih_filter {F}.

Record CellHandlers (MH F : Type) : Type := mkHandlers {
  meta_handler : option MH;
  incoming_stream_req_handler : option (IncomingStreamRequestHandler F) }.
Arguments mkHandlers {MH F}.
Arguments meta_handler {MH F}.
Arguments incoming_stream_req_handler {MH F}.

(** What happened on the legs of a multi-path tunnel: the multiplexed messages that arrived, with
    the numbers their legs gave them; those handed to the streams; and the cells sent, with leg and
    hop.  These are history variables, which no operation reads. *)
Record History : Type := mkHistory {
  hi_numbered : list (Z * UnparsedRelayMsg);
  hi_delivered : list UnparsedRelayMsg;
  hi_out : list (nat * nat * RelayMsgOuter) }.

(** Whether a message takes part in the numbering. *)
Definition counts (msg : UnparsedRelayMsg) : bool :=
  match unparsed_cmd (E:=ProtoError) msg with
  | Ok cmd => cmd_counts_towards_seqno cmd
  | _ => false
  end.

Definition log_numbered (seqno : Z) (msg : UnparsedRelayMsg) (hi : History) : History :=
  if counts msg then mkHistory (hi_numbered hi ++ [(seqno, msg)]) (hi_delivered hi) (hi_out hi) else hi.
Definition log_delivered (msg : UnparsedRelayMsg) (hi : History) : History :=
  if counts msg then mkHistory (hi_numbered hi) (hi_delivered hi ++ [msg]) (hi_out hi) else hi.
Definition log_out (leg hop : nat) (cell : RelayMsgOuter) (hi : History) : History :=
  mkHistory (hi_numbered hi) (hi_delivered hi) (hi_out hi ++ [(leg, hop, cell)]).

(** What the legs of a tunnel share.  [sh_rng k n] is the [k]-th draw of [n] random bytes. *)
Record Shared (MH F : Type) : Type := mkShared {
  sh_streams : Streams;
  sh_last_seq_delivered : Z;
  sh_history : History;
  sh_handlers : CellHandlers MH F;
  sh_rng : nat → nat → list Z;
  sh_draws : nat }.
Arguments mkShared {MH F}.
Arguments sh_streams {MH F}.
Arguments sh_last_seq_delivered {MH F}.
Arguments sh_history {MH F}.
Arguments sh_handlers {MH F}.
Arguments sh_rng {MH F}.
Arguments sh_draws {MH F}.

(** What an operation observes: the clock, the number of bytes in the queue of each stream, and
    the random identifier at which a new stream map starts. *)
Record Env : Type := mkEnv { ev_now : Z; ev_buffered : Z → Z; ev_first_stream_id : Z }.

Section circuit.
Context {Lo Li P MH F : Type}.
Context `{!OutboundClientLayer Lo, !InboundClientLayer Li, !MetaCellHandler MH Lo Li P}.
Context `{!IncomingStreamRequestFilter F}.

Definition World : Type := Circuit Lo Li P * Shared MH F.
Definition M : Type → Type := ST World ProtoError.

Implicit Types (c : Circuit Lo Li P) (sh : Shared MH F) (w : World).

(** ** Access to the parts of the state *)

Definition set_crypto_in (ls : list Li) c : Circuit Lo Li P :=
  mkCircuit (ci_unique_id c) ls (ci_crypto_out c) (ci_hops c) (ci_path c) (ci_binding c)
    (ci_conflux_handler c) (ci_sent c).
Definition set_crypto_out (ls : list Lo) c : Circuit Lo Li P :=
  mkCircuit (ci_unique_id c) (ci_crypto_in c) ls (ci_hops c) (ci_path c) (ci_binding c)
    (ci_conflux_handler c) (ci_sent c).
Definition set_hops (hops : CircHopList) c : Circuit Lo Li P :=
  mkCircuit (ci_unique_id c) (ci_crypto_in c) (ci_crypto_out c) hops (ci_path c) (ci_binding c)
    (ci_conflux_handler c) (ci_sent c).
Definition set_conflux_handler (h : option ClientConfluxMsgHandler) c : Circuit Lo Li P :=
  mkCircuit (ci_unique_id c) (ci_crypto_in c) (ci_crypto_out c) (ci_hops c) (ci_path c) (ci_binding c)
    h (ci_sent c).
Definition push_sent (msg : Z * list Z) c : Circuit Lo Li P :=
  mkCircuit (ci_unique_id c) (ci_crypto_in c) (ci_crypto_out c) (ci_hops c) (ci_path c) (ci_binding c)
    (ci_conflux_handler c) (ci_sent c ++ [msg]).

Definition set_streams (st : Streams) sh : Shared MH F :=
  mkShared st (sh_last_seq_delivered sh) (sh_history sh) (sh_handlers sh) (sh_rng sh) (sh_draws sh).
Definition set_lsd (n : Z) sh : Shared MH F :=
  mkShared (sh_streams sh) n (sh_history sh) (sh_handlers sh) (sh_rng sh) (sh_draws sh).
Definition set_handlers (hs : CellHandlers MH F) sh : Shared MH F :=
  mkShared (sh_streams sh) (sh_last_seq_delivered sh) (sh_history sh) hs (sh_rng sh) (sh_draws sh).

Definition set_history (hi : History) sh : Shared MH F :=
  mkShared (sh_streams sh) (sh_last_seq_delivered sh) hi (sh_handlers sh) (sh_rng sh) (sh_draws sh).

Definition set_meta (h : option MH) sh : Shared MH F :=
  set_handlers (mkHandlers h (incoming_stream_req_handler (sh_handlers sh))) sh.
Definition set_incoming (h : IncomingStreamRequestHandler F) sh : Shared MH F :=
  set_handlers (mkHandlers (meta_handler (sh_handlers sh)) (Some h)) sh.

Definition draw : M (nat → list Z) := λ w,
  let '(c, sh) := w in
  ((c, mkShared (sh_streams sh) (sh_last_seq_delivered sh) (sh_history sh) (sh_handlers sh) (sh_rng sh)
         (S (sh_draws sh))), Ok (sh_rng sh (sh_draws sh))).

(** An operation on a hop and the stream maps; [e] when there is no such hop. *)
Definition with_hop {A} (e : ProtoError) (hop : nat)
    (f : CircHop → Streams → res ProtoError (CircHop * Streams * A)) : M A := λ w,
  let '(c, sh) := w in
  match ci_hops c !! hop with
  | None => (w, Err e)
  | Some h =>
      match f h (sh_streams sh) with
      | Ok (h, st, a) => ((set_hops (<[hop := h]> (ci_hops c)) c, set_streams st sh), Ok a)
      | Err e => (w, Err e)
      | Panic => (w, Panic)
      end
  end.

Definition get_hop (e : ProtoError) (hop : nat) : M CircHop :=
  with_hop e hop (λ h st, Ok (h, st, h)).

Definition update_hop (e : ProtoError) (hop : nat) (f : CircHop → res ProtoError CircHop) : M unit :=
  with_hop e hop (λ h st, h ← f h; Ok (h, st, tt)).

Definition update_streams {A} (e : ProtoError) (hop : nat)
    (f : CircHop → Streams → res ProtoError (Streams * A)) : M A :=
  with_hop e hop (λ h st, '(st, a) ← f h st; Ok (h, st, a)).

(** An operation on the congestion control of a hop. *)
Definition with_cc {A} (f : HopCC → res ProtoError (HopCC * A)) (h : CircHop) (st : Streams) :
    res ProtoError (CircHop * Streams * A) :=
  '(cc, a) ← f (ccontrol h); Ok (set_ccontrol cc h, st, a).

(** ** Conflux accessors *)

Definition conflux_status c : option ConfluxStatus := status <$> ci_conflux_handler c.

Definition is_conflux_pending c : bool :=
  match conflux_status c with
  | None => false
  | Some s => negb (bool_decide (s = StLinked))
  end.

Definition conflux_hs_timeout c : res ProtoError (option Z) :=
  match ci_conflux_handler c with
  | None => Ok None
  | Some h => handshake_timeout h
  end.

Definition circ_init_rtt c : option Z := ci_conflux_handler c ≫= init_rtt.

Definition circ_last_seq_sent c : res ProtoError Z :=
  h ← ok_or (ci_conflux_handler c) (Internal "tried to get last_seq_sent of non-conflux circ");
  Ok (last_seq_sent h).

Definition circ_set_last_seq_sent (n : Z) c : res ProtoError (Circuit Lo Li P) :=
  h ← ok_or (ci_conflux_handler c) (Internal "tried to get last_seq_sent of non-conflux circ");
  Ok (set_conflux_handler (Some (set_last_seq_sent n h)) c).

Definition circ_last_seq_recv c : res ProtoError Z :=
  h ← ok_or (ci_conflux_handler c) (Internal "tried to get last_seq_recv of non-conflux circ");
  Ok (last_seq_recv h).

Definition add_to_conflux_tunnel (conflux_handler : ClientConfluxMsgHandler) c : Circuit Lo Li P :=
  set_conflux_handler (Some conflux_handler) c.

(** The operation of the conflux handler of the circuit, if it has one. *)
Definition if_conflux (f : ClientConfluxMsgHandler → res ProtoError ClientConfluxMsgHandler) : M unit :=
  λ w, let '(c, sh) := w in
  match ci_conflux_handler c with
  | None => (w, Ok tt)
  | Some h =>
      match f h with
      | Ok h => ((set_conflux_handler (Some h) c, sh), Ok tt)
      | Err e => (w, Err e)
      | Panic => (w, Panic)
      end
  end.

(** ** Hops *)

Definition num_hops c : res ProtoError Z :=
  let n := Z.of_nat (length (ci_hops c)) in
  expect (if n <=? u8_max then Some n else None).

Definition has_hops c : bool := negb (bool_decide (ci_hops c = [])).

Definition last_hop_num c : res ProtoError (option nat) :=
  n ← num_hops c;
  if n =? 0 then Ok None else Ok (Some (Z.to_nat (n - 1))).

Definition circ_uses_stream_sendme (hop : nat) c : option bool :=
  (λ h, uses_stream_sendme (cc_algorithm (ccontrol h))) <$> ci_hops c !! hop.

Definition has_streams c (st : Streams) : res ProtoError bool := hops_has_streams (ci_hops c) st.

(** The new hop's stream map starts at [first] and is put at a location not used so far. *)
Definition add_hop (first : Z) (peer_id : HopDetail P) (fwd : Lo) (rev : Li) (binding : option (list Z))
    (settings : HopSettings) c (st : Streams) : res ProtoError (Circuit Lo Li P * Streams) :=
  let hop_num := length (ci_hops c) in
  n ← num_hops c;
  _ ← debug_assert (Z.of_nat hop_num =? n);
  if (hop_num =? 255)%nat
  then Err (Internal "cannot add more hops to a circuit with `u8::MAX` hops")
  else
    let map := fresh (dom st) in
    hop ← CircHop_new hop_num map settings;
    crypto_in ← add_layer rev (ci_crypto_in c);
    crypto_out ← add_layer fwd (ci_crypto_out c);
    Ok (mkCircuit (ci_unique_id c) crypto_in crypto_out (ci_hops c ++ [hop]) (ci_path c ++ [peer_id])
          (ci_binding c ++ [binding]) (ci_conflux_handler c) (ci_sent c),
        <[map := StreamMap_new first]> st).

Definition binding_key (hop : nat) c : option (list Z) :=
  match ci_binding c !! hop with Some (Some b) => Some b | _ => None end.

(** ** Sending *)

Definition encode_relay_cell (relay_format : RelayCellFormat) (hop : nat) (early : bool)
    (msg : RelayMsgOuter) : M (Z * list Z * SendmeTag) :=
  rng ← draw;
  body ← lift (map_err (CellEncodeErr "relay cell body") (encode relay_format rng msg));
  let cmd := if early : bool then ChanCmd.RELAY_EARLY else ChanCmd.RELAY in
  '(body, tag) ←
    zoom_res (λ w, ci_crypto_out w.1) (λ ls w, (set_crypto_out ls w.1, w.2))
      (λ ls, '(ls, body, tag) ← crypt_encrypt cmd body hop ls; Ok (ls, (body, tag)));
  mret (cmd, body, tag).

(** The sender of the channel takes any number of cells. *)
Definition send_msg (msg : Z * list Z) : M unit := modify (λ w, (push_sent msg w.1, w.2)).

(** Tells the conflux handler, if there is one. *)
Definition note_sent (hop : nat) (cell : RelayMsgOuter) : M unit := λ w,
  let '(c, sh) := w in
  match ci_conflux_handler c with
  | None => (w, Ok tt)
  | Some h =>
      match note_cell_sent (msg_cmd (ro_msg cell)) h with
      | Ok h => ((set_conflux_handler (Some h) c,
                  set_history (log_out (ci_unique_id c) hop cell (sh_history sh)) sh), Ok tt)
      | Err e => (w, Err e)
      | Panic => (w, Panic)
      end
  end.

Definition send_relay_cell (now : Z) (msg : SendRelayCell) : M unit :=
  let cell := sr_cell msg in
  let cmd := msg_cmd (ro_msg cell) in
  let is_conflux_link := cmd =? RelayCmd.CONFLUX_LINK in
  pending ← gets (λ w, is_conflux_pending w.1);
  if negb is_conflux_link && pending then fail (Internal "tried to send cell on unlinked circuit")
  else
    let c_t_w := cmd_counts_towards_windows cmd in
    hop ← lift (expect (sr_hop msg));
    _ ← update_hop NoSuchHop hop decrement_outbound_cell_limit;
    _ ← match c_t_w, ro_streamid cell with
        | true, Some stream_id =>
            update_streams NoSuchHop hop
              (λ h st, st ← hop_about_to_send stream_id (ro_msg cell) h st; Ok (st, tt))
        | _, _ => mret tt
        end;
    circhop ← get_hop NoSuchHop hop;
    '(cmd', body, tag) ←
      encode_relay_cell (ob_relay_format (hp_outbound circhop)) hop (sr_early msg) cell;
    _ ← (if c_t_w
         then with_hop NoSuchHop hop (with_cc (λ cc, cc ← note_data_sent now tag cc; Ok (cc, tt)))
         else mret tt);
    _ ← send_msg (cmd', body);
    note_sent hop cell.

Definition begin_conflux_link (hop : nat) (cell : RelayMsgOuter) (now : Z) : M unit :=
  h ← gets (λ w, ci_conflux_handler w.1);
  match h with
  | None => fail (Internal "tried to send LINK cell before installing a ConfluxMsgHandler?!")
  | Some _ =>
      _ ← send_relay_cell now (mkSend (Some hop) false cell);
      h ← gets (λ w, ci_conflux_handler w.1);
      match h with
      | None => fail (Internal "ConfluxMsgHandler disappeared?!")
      | Some _ => if_conflux (note_link_sent now)
      end
  end.

(** ** Streams *)

Definition begin_stream (hop_num : nat) (message : AnyRelayMsg) (cmd_checker : AnyCmdChecker) :
    M (res ProtoError (SendRelayCell * Z)) :=
  update_streams (Internal "Attempting to send a BEGIN cell to an unknown hop") hop_num
    (hop_begin_stream message cmd_checker).

Definition close_stream (now : Z) (hop_num : nat) (sid : Z) (behav : CloseStreamBehavior)
    (reason : TerminateReason) (expiry : Z) : M unit :=
  c ← gets fst;
  match ci_hops c !! hop_num with
  | None => mret tt
  | Some _ =>
      r ← update_streams NoSuchHop hop_num (hop_close_stream now sid behav reason expiry);
      cell ← lift r;
      match cell with
      | Some cell => send_relay_cell now cell
      | None => mret tt
      end
  end.

(** ** Receiving *)

Definition decode_relay_cell (cmd : Z) (body : list Z) :
    M (nat * SendmeTag * RelayCellDecoderResult) :=
  '(body, (hopnum, tag)) ←
    zoom_res (λ w, ci_crypto_in w.1) (λ ls w, (set_crypto_in ls w.1, w.2))
      (λ ls, '(ls, body, r) ← crypt_decrypt cmd body ls; Ok (ls, (body, r)));
  h ← get_hop (Internal "Trying to decode cell from nonexistent hop") hopnum;
  mret (hopnum, tag, hop_decode body h).

Definition msg_streamid (msg : UnparsedRelayMsg) : res ProtoError (option Z) :=
  cmd ← unparsed_cmd msg;
  streamid ← unparsed_stream_id msg;
  if negb (accepts_streamid_val cmd streamid) then Err (CircProto "Invalid stream ID for relay command")
  else Ok streamid.

Definition as_begin (m : AnyRelayMsg) : option Begin :=
  match m with ABegin b => Some b | _ => None end.
Definition as_truncated (m : AnyRelayMsg) : option Truncated' :=
  match m with ATruncated t => Some t | _ => None end.

Definition handle_incoming_stream_request (env : Env) (msg : UnparsedRelayMsg) (stream_id : Z)
    (hop_num leg : nat) : M (option CircuitCmd) :=
  handlers ← gets (λ w, sh_handlers w.2);
  match incoming_stream_req_handler handlers with
  | None => fail (CircProto "Cannot handle BEGIN cells on this circuit")
  | Some handler =>
      expected_hop_num ← lift (ok_or (ih_hop_num handler) (Internal "Handler HopNum is None in client impl?!"));
      if negb (hop_num =? expected_hop_num)%nat
      then fail (CircProto "Expecting incoming streams from another hop")
      else
        '(checker, stat) ← lift (check_msg msg (ih_cmd_checker handler));
        let handler := mkIncoming (ih_accepted handler) (ih_queue handler) checker (ih_hop_num handler)
                         (ih_filter handler) in
        _ ← modify (λ w, (w.1, set_incoming handler w.2));
        _ ← get_hop CircuitClosed hop_num;
        if (match stat with StatusClosed => true | StatusOpen => false end) then
          _ ← update_streams CircuitClosed hop_num
                (λ h st, st ← hop_ending_msg_received (ev_now env) stream_id h st; Ok (st, tt));
          mret None
        else
          req ← lift (decode_as "Invalid Begin message" as_begin msg);
          c ← gets fst;
          st ← gets (λ w, sh_streams w.2);
          n_open_streams ← lift (hops_n_open_streams (ci_hops c) st);
          '(filter, disp) ← lift (disposition req n_open_streams (ih_filter handler));
          let handler := mkIncoming (ih_accepted handler) (ih_queue handler) checker (ih_hop_num handler)
                           filter in
          _ ← modify (λ w, (w.1, set_incoming handler w.2));
          match disp with
          | CloseCircuit => mret (Some CmdCleanShutdown)
          | RejectRequest end_message =>
              mret (Some (CmdSend (mkSend (Some hop_num) false (mkOuter (Some stream_id) (AEnd end_message)))))
          | Accept =>
              hop ← get_hop CircuitClosed hop_num;
              _ ← update_streams CircuitClosed hop_num
                    (λ h st, st ← hop_add_ent_with_id stream_id InboundData h st; Ok (st, tt));
              let info := mkReqInfo req stream_id (LocHop leg hop_num)
                            (ob_relay_format (hp_outbound hop)) in
              match ih_queue handler with
              | Sent =>
                  _ ← modify (λ w, (w.1, set_incoming (mkIncoming (ih_accepted handler ++ [info]) Sent
                                            checker (ih_hop_num handler) filter) w.2));
                  mret None
              | Full =>
                  mret (Some (CmdSend (mkSend (Some hop_num) false
                    (mkOuter (Some stream_id) (AEnd (End_new_with_reason EndReason.RESOURCELIMIT))))))
              | Disconnected => fail CircuitClosed
              end
          end
  end.

Definition note_delivered (msg : UnparsedRelayMsg) : M unit := λ w,
  let '(c, sh) := w in
  match ci_conflux_handler c with
  | None => (w, Ok tt)
  | Some _ =>
      match inc_last_seq_delivered msg (sh_last_seq_delivered sh) with
      | Ok n => ((c, set_history (log_delivered msg (sh_history sh)) (set_lsd n sh)), Ok tt)
      | Err e => (w, Err e)
      | Panic => (w, Panic)
      end
  end.

Definition handle_in_order_relay_msg (env : Env) (hopnum leg : nat) (cell_counts_toward_windows : bool)
    (streamid : Z) (msg : UnparsedRelayMsg) : M (option CircuitCmd) :=
  _ ← note_delivered msg;
  path ← gets (λ w, ci_path w.1);
  let nonexistent_hop_err := CircProto "Cell from nonexistent hop!" in
  _ ← get_hop nonexistent_hop_err hopnum;
  _ ← lift (ok_or (path !! hopnum) nonexistent_hop_err);
  is_request ← update_streams nonexistent_hop_err hopnum
                 (hop_handle_msg cell_counts_toward_windows streamid msg (ev_now env));
  if is_request : bool then handle_incoming_stream_request env msg streamid hopnum leg
  else
    xoff ← update_streams nonexistent_hop_err hopnum
             (hop_maybe_send_xoff streamid (ev_buffered env streamid));
    match xoff with
    | Some cell =>
        mret (Some (CmdSend (mkSend (Some hopnum) false (mkOuter (Some streamid) (AXoff cell)))))
    | None => mret None
    end.

(** The command of the conflux handler; the error is that of a circuit without one. *)
Definition circ_handle_conflux_msg (env : Env) (hop : nat) (msg : UnparsedRelayMsg) :
    M (option ConfluxCmd) := λ w,
  let '(c, sh) := w in
  match ci_conflux_handler c with
  | None => (w, Err (CircProto "Received conflux cell on non-conflux client circuit?!"))
  | Some h =>
      match handle_conflux_msg (ev_now env) (sh_last_seq_delivered sh) msg hop h with
      | Ok (h, cmd) => ((set_conflux_handler (Some h) c, sh), Ok cmd)
      | Err e => (w, Err e)
      | Panic => (w, Panic)
      end
  end.

Definition run_meta_handler (env : Env) (handler : MH) (msg : UnparsedRelayMsg) : M (option CircuitCmd) := λ w,
  let '(c, sh) := w in
  match meta_handle_msg (ev_first_stream_id env) msg handler c (sh_streams sh) with
  | Ok (handler, c, st, disp) =>
      let sh := set_streams st sh in
      match disp with
      | Consumed => ((c, set_meta (Some handler) sh), Ok None)
      | ConversationFinished => ((c, sh), Ok None)
      | CloseCirc => ((c, sh), Ok (Some CmdCleanShutdown))
      end
  | Err e => (w, Err e)
  | Panic => (w, Panic)
  end.

Definition handle_meta_cell (env : Env) (hopnum : nat) (msg : UnparsedRelayMsg) : M (option CircuitCmd) :=
  cmd ← lift (unparsed_cmd msg);
  if cmd =? RelayCmd.SENDME then
    sendme ← lift (decode_as "sendme message" as_sendme msg);
    mret (Some (CmdHandleSendMe hopnum sendme))
  else if cmd =? RelayCmd.TRUNCATED then
    _ ← lift (decode_as "truncated message" as_truncated msg);
    mret (Some CmdCleanShutdown)
  else if cmd =? RelayCmd.DROP then fail (ExcessPadding hopnum)
  else if one_of cmd [RelayCmd.CONFLUX_LINK; RelayCmd.CONFLUX_LINKED; RelayCmd.CONFLUX_LINKED_ACK;
                      RelayCmd.CONFLUX_SWITCH] then
    cmd ← circ_handle_conflux_msg env hopnum msg;
    mret (CmdConflux <$> cmd)
  else
    c ← gets fst;
    if is_conflux_pending c then fail (CircProto "Received unexpected cell on unlinked circuit")
    else
      handlers ← gets (λ w, sh_handlers w.2);
      match meta_handler handlers with
      | Some handler =>
          if decide (expected_hop handler = LocHop (ci_unique_id c) hopnum) then
            _ ← modify (λ w, (w.1, set_meta None w.2));
            run_meta_handler env handler msg
          else lift unsupported_client_cell
      | None => lift unsupported_client_cell
      end.

(** What to do with a message; a circuit outside a conflux tunnel delivers it. *)
Definition conflux_action (hopnum : nat) (cell_counts_toward_windows : bool) (streamid : Z)
    (msg : UnparsedRelayMsg) : M ConfluxAction := λ w,
  let '(c, sh) := w in
  match ci_conflux_handler c with
  | None => (w, Ok (Deliver msg))
  | Some h =>
      match action_for_msg hopnum cell_counts_toward_windows streamid msg
              (sh_last_seq_delivered sh) h with
      | Ok (h, action) =>
          ((set_conflux_handler (Some h) c,
            set_history (log_numbered (last_seq_recv h) msg (sh_history sh)) sh), Ok action)
      | Err e => (w, Err e)
      | Panic => (w, Panic)
      end
  end.

Definition handle_relay_msg (env : Env) (hopnum leg : nat) (cell_counts_toward_windows : bool)
    (msg : UnparsedRelayMsg) : M (option CircuitCmd) :=
  streamid ← lift (msg_streamid msg);
  match streamid with
  | None => handle_meta_cell env hopnum msg
  | Some streamid =>
      action ← conflux_action hopnum cell_counts_toward_windows streamid msg;
      match action with
      | Deliver msg => handle_in_order_relay_msg env hopnum leg cell_counts_toward_windows streamid msg
      | Enqueue msg => mret (Some (CmdEnqueue msg))
      end
  end.

(** The commands for the messages of a cell; a clean shutdown drops the rest. *)
Fixpoint handle_relay_msgs (env : Env) (hopnum leg : nat) (c_t_w : bool) (msgs : list UnparsedRelayMsg)
    (circ_cmds : list CircuitCmd) : M (list CircuitCmd) :=
  match msgs with
  | [] => mret circ_cmds
  | msg :: msgs =>
      msg_status ← handle_relay_msg env hopnum leg c_t_w msg;
      match msg_status with
      | None => handle_relay_msgs env hopnum leg c_t_w msgs circ_cmds
      | Some CmdCleanShutdown => mret (circ_cmds ++ [CmdCleanShutdown])
      | Some cmd => handle_relay_msgs env hopnum leg c_t_w msgs (circ_cmds ++ [cmd])
      end
  end.

Fixpoint any_counts_towards_windows (msgs : list UnparsedRelayMsg) : res ProtoError bool :=
  match msgs with
  | [] => Ok false
  | msg :: msgs =>
      cmd ← unparsed_cmd msg;
      if cmd_counts_towards_windows cmd then Ok true else any_counts_towards_windows msgs
  end.

Definition handle_relay_cell (env : Env) (leg : nat) (cmd : Z) (body : list Z) : M (list CircuitCmd) :=
  '(hopnum, tag, decode_res) ← decode_relay_cell cmd body;
  padding ← lift (is_padding decode_res);
  _ ← (if padding : bool then fail (ExcessPadding hopnum) else mret tt);
  _ ← update_hop (Internal "nonexistent hop") hopnum decrement_inbound_cell_limit;
  c_t_w ← lift (any_counts_towards_windows (dr_msgs decode_res));
  send_circ_sendme ←
    (if c_t_w : bool
     then with_hop (CircProto "Sendme from nonexistent hop") hopnum (with_cc note_data_received)
     else mret false);
  circ_cmds ←
    (if send_circ_sendme : bool then
       let cell := mkOuter None (ASendme (mkSendme (Some tag))) in
       _ ← with_hop (Internal "Trying to send SENDME to nonexistent hop") hopnum
             (with_cc (λ cc, cc ← note_sendme_sent cc; Ok (cc, tt)));
       mret [CmdSend (mkSend (Some hopnum) false cell)]
     else mret []);
  handle_relay_msgs env hopnum leg c_t_w (dr_msgs decode_res) circ_cmds.

(** [ClientCircChanMsg]: what the channel delivers to a client circuit. *)
Inductive ClientCircChanMsg : Type := ChRelay (body : list Z) | ChDestroy (reason : Z).

Definition handle_destroy_cell : CircuitCmd := CmdCleanShutdown.

Definition handle_cell (env : Env) (leg : nat) (cell : ClientCircChanMsg) : M (list CircuitCmd) :=
  match cell with
  | ChRelay body => handle_relay_cell env leg ChanCmd.RELAY body
  | ChDestroy _ => mret [handle_destroy_cell]
  end.

Definition handle_sendme (now : Z) (hopnum : nat) (msg : Sendme) (signals : CongestionSignals) : M unit :=
  _ ← get_hop (CircProto "Couldn't find hop") hopnum;
  tag ← lift (ok_or (sm_tag msg) (CircProto "missing tag on circuit sendme"));
  with_hop (CircProto "Couldn't find hop") hopnum
    (with_cc (λ cc, cc ← note_sendme_received now tag signals cc; Ok (cc, tt))).
End circuit.
