(* ===== verification/CircuitFrame.v ===== *)
(** * CircuitFrame: what the operations of a circuit leave alone

    Most operations of a circuit change its cryptographic state, its hops and its streams and have
    nothing to do with its place in a multi-path tunnel.  For every relation on the state that such
    changes keep, the operations built from them keep it when the few that touch the conflux state
    do.  The numbering of received messages and that of sent ones are two such relations. *)

From S2P Require Import Prelude StateM Bytes Codec RelayMsg RelayCell Sendme RelayCrypt Cwnd Rtt.
From S2P Require Import Vegas Congestion FlowCtrl PollSet StreamMap ConfluxMsg HopSettings.
From S2P Require Import CircHop Circuit.

(** A handler of meta-cells leaves the identity of the circuit and its conflux state alone. *)
Class MetaFrame (MH Lo Li P : Type) `{!MetaCellHandler MH Lo Li P} : Prop :=
  meta_frame first msg (mh mh' : MH) (c c' : Circuit Lo Li P) st st' d :
    meta_handle_msg first msg mh c st = Ok (mh', c', st', d) →
    ci_unique_id c' = ci_unique_id c ∧ ci_conflux_handler c' = ci_conflux_handler c.

Section circuit_frame.
Context {Lo Li P MH F : Type}.
Context `{!OutboundClientLayer Lo, !InboundClientLayer Li, !MetaCellHandler MH Lo Li P}.
Context `{!MetaFrame MH Lo Li P, !IncomingStreamRequestFilter F}.
#[local] Abbreviation W := (World (Lo:=Lo) (Li:=Li) (P:=P) (MH:=MH) (F:=F)).
#[local] Abbreviation CM := (M (Lo:=Lo) (Li:=Li) (P:=P) (MH:=MH) (F:=F)).

(** A change that has nothing to do with the tunnel. *)
Definition quiet (w w' : W) : Prop :=
  ci_unique_id w'.1 = ci_unique_id w.1 ∧ ci_conflux_handler w'.1 = ci_conflux_handler w.1 ∧
  sh_last_seq_delivered w'.2 = sh_last_seq_delivered w.2 ∧ sh_history w'.2 = sh_history w.2.

Class Quiet (R : relation W) : Prop := {
  #[global] quiet_preorder :: PreOrder R;
  quiet_sub w w' : quiet w w' → R w w' }.

Context {R : relation W} `{!Quiet R}.
#[local] Abbreviation Frame m := (Keeps R m).

Lemma frame_modify (f : W → W) : (∀ w, quiet w (f w)) → Keeps (E:=ProtoError) R (modify f).
Proof. intros Hf w. apply quiet_sub, Hf. Qed.

#[export] Instance frame_draw : Frame draw.
Proof. intros [c sh]. by apply quiet_sub. Qed.

#[export] Instance frame_with_hop {A} e hop (f : CircHop → Streams → res ProtoError (CircHop * Streams * A)) :
  Frame (with_hop e hop f).
Proof.
  intros [c sh]. unfold with_hop. apply quiet_sub. destruct (ci_hops c !! hop); [|done].
  by destruct (f _ _) as [[[??]?]|?|].
Qed.

#[export] Instance frame_encode fmt hop early msg : Frame (encode_relay_cell fmt hop early msg).
Proof.
  unfold encode_relay_cell. apply keeps_bind; [apply _|intros rng]. apply keeps_bind; [apply _|intros body].
  apply keeps_bind; [apply keeps_zoom_res; intros ls [c sh]; by apply quiet_sub|intros [??]]. apply _.
Qed.

#[export] Instance frame_send_msg msg : Frame (send_msg msg).
Proof. by apply frame_modify. Qed.

#[export] Instance frame_send_relay_cell now msg :
  (∀ hop, Frame (note_sent hop (sr_cell msg))) → Frame (send_relay_cell now msg).
Proof.
  intros Hsent. unfold send_relay_cell. cbv zeta. apply keeps_bind; [apply _|intros pending].
  apply keeps_if; [apply _|].
  apply keeps_bind; [apply _|intros hop]. apply keeps_bind; [apply _|intros []].
  apply keeps_bind; [repeat case_match; apply _|intros []].
  apply keeps_bind; [apply _|intros circhop]. apply keeps_bind; [apply _|intros [[cmd body] tag]].
  apply _.
Qed.

#[export] Instance frame_begin_conflux_link hop cell now :
  (∀ hop, Frame (note_sent hop cell)) → Frame (if_conflux (note_link_sent now)) →
  Frame (begin_conflux_link hop cell now).
Proof.
  intros ??. unfold begin_conflux_link. apply keeps_bind; [apply _|intros [h|]]; [|apply _].
  apply keeps_bind; [apply _|intros []]. apply keeps_bind; [apply _|intros [h'|]]; apply _.
Qed.

#[export] Instance frame_begin_stream hop_num message checker : Frame (begin_stream hop_num message checker).
Proof. apply frame_with_hop. Qed.

#[export] Instance frame_close_stream now hop_num sid behav reason expiry :
  (∀ hop cell, Frame (note_sent hop cell)) → Frame (close_stream now hop_num sid behav reason expiry).
Proof.
  intros Hsent. unfold close_stream. apply keeps_bind; [apply _|intros c].
  destruct (ci_hops c !! hop_num); [|apply _].
  apply keeps_bind; [apply _|intros x]. apply keeps_bind; [apply _|intros [cell|]]; apply _.
Qed.

#[export] Instance frame_decode cmd body : Frame (decode_relay_cell cmd body).
Proof.
  unfold decode_relay_cell.
  apply keeps_bind; [apply keeps_zoom_res; intros ls [c sh]; by apply quiet_sub|].
  intros [b [hopnum tag]]. apply _.
Qed.

#[export] Instance frame_incoming env msg stream_id hop_num leg :
  Frame (handle_incoming_stream_request env msg stream_id hop_num leg).
Proof.
  unfold handle_incoming_stream_request. apply keeps_bind; [apply _|intros hs].
  destruct (incoming_stream_req_handler hs); [|apply _].
  apply keeps_bind; [apply _|intros e]. apply keeps_if; [apply _|].
  apply keeps_bind; [apply _|intros [checker stat]]. cbv zeta.
  apply keeps_bind; [by apply frame_modify|intros []]. apply keeps_bind; [apply _|intros hop].
  apply keeps_if; [apply _|]. do 4 (apply keeps_bind; [apply _|intros ?]).
  apply keeps_bind; [apply _|intros [filter disp]]. apply keeps_bind; [by apply frame_modify|intros []].
  destruct disp; [|apply _..]. do 2 (apply keeps_bind; [apply _|intros ?]).
  destruct (ih_queue _); [|apply _..]. apply keeps_bind; [by apply frame_modify|apply _].
Qed.

#[export] Instance frame_run_meta env handler msg : Frame (run_meta_handler env handler msg).
Proof.
  intros [c sh]. apply quiet_sub. unfold run_meta_handler.
  destruct (meta_handle_msg _ _ _ _ _) as [[[[mh c'] st'] d]|e|] eqn:Hm; [|done..].
  apply meta_frame in Hm as [Hid Hc]. by destruct d.
Qed.

#[export] Instance frame_meta_cell env hopnum msg :
  Frame (circ_handle_conflux_msg env hopnum msg) → Frame (handle_meta_cell env hopnum msg).
Proof.
  intros Hc. unfold handle_meta_cell. apply keeps_bind; [apply _|intros cmd].
  do 4 (apply keeps_if; [apply _|]). apply keeps_bind; [apply _|intros c]. apply keeps_if; [apply _|].
  apply keeps_bind; [apply _|intros hs]. destruct (meta_handler hs); [|apply _].
  case_decide; [|apply _]. apply keeps_bind; [by apply frame_modify|apply _].
Qed.

#[export] Instance frame_sendme now hopnum msg signals : Frame (handle_sendme now hopnum msg signals).
Proof. unfold handle_sendme. apply _. Qed.

(** ** Receiving *)

(** The rest of [handle_in_order_relay_msg], after the number is counted. *)
Definition handle_counted (env : Env) (hopnum leg : nat) (ctw : bool) (sid : Z) (msg : UnparsedRelayMsg) :
    CM (option CircuitCmd) :=
  path ← gets (λ w, ci_path w.1);
  let nonexistent_hop_err := CircProto "Cell from nonexistent hop!" in
  _ ← get_hop nonexistent_hop_err hopnum;
  _ ← lift (ok_or (path !! hopnum) nonexistent_hop_err);
  is_request ← update_streams nonexistent_hop_err hopnum (hop_handle_msg ctw sid msg (ev_now env));
  if is_request : bool then handle_incoming_stream_request env msg sid hopnum leg
  else
    xoff ← update_streams nonexistent_hop_err hopnum (hop_maybe_send_xoff sid (ev_buffered env sid));
    match xoff with
    | Some cell => mret (Some (CmdSend (mkSend (Some hopnum) false (mkOuter (Some sid) (AXoff cell)))))
    | None => mret None
    end.

#[export] Instance frame_handle_counted env hopnum leg ctw sid msg :
  Frame (handle_counted env hopnum leg ctw sid msg).
Proof.
  unfold handle_counted. cbv zeta. do 4 (apply keeps_bind; [apply _|intros ?]). apply keeps_if; [apply _|].
  apply keeps_bind; [apply _|intros [x|]]; apply _.
Qed.

#[export] Instance frame_in_order env hopnum leg ctw sid msg :
  Frame (note_delivered msg) → Frame (handle_in_order_relay_msg env hopnum leg ctw sid msg).
Proof. intros Hd. apply keeps_bind; [done|intros []]. apply frame_handle_counted. Qed.

#[export] Instance frame_relay_msg env hopnum leg ctw msg :
  (∀ msg, Frame (note_delivered msg)) → (∀ sid, Frame (conflux_action hopnum ctw sid msg)) →
  Frame (circ_handle_conflux_msg env hopnum msg) → Frame (handle_relay_msg env hopnum leg ctw msg).
Proof.
  intros ???. unfold handle_relay_msg. apply keeps_bind; [apply _|intros [sid|]]; [|apply _].
  apply keeps_bind; [apply _|intros [m|m]]; apply _.
Qed.

#[export] Instance frame_relay_msgs env hopnum leg ctw msgs cmds :
  (∀ msg, Frame (handle_relay_msg env hopnum leg ctw msg)) →
  Frame (handle_relay_msgs env hopnum leg ctw msgs cmds).
Proof.
  intros Hm. revert cmds. induction msgs as [|msg msgs IH]; intros cmds; simpl; [apply _|].
  apply keeps_bind; [apply _|intros [cmd|]]; [|apply _]. destruct cmd; apply _.
Qed.

#[export] Instance frame_cell env leg cell :
  (∀ hopnum ctw msg, Frame (handle_relay_msg env hopnum leg ctw msg)) → Frame (handle_cell env leg cell).
Proof.
  intros Hm. destruct cell as [body|]; [|apply _]. simpl. unfold handle_relay_cell.
  apply keeps_bind; [apply _|intros [[hopnum tag] res]].
  do 6 (apply keeps_bind; [apply _|intros ?]). apply _.
Qed.
End circuit_frame.

Lemma in_order_eq {Lo Li P MH F} `{!MetaCellHandler MH Lo Li P, !IncomingStreamRequestFilter F}
    env hopnum leg ctw sid msg (w : World (Lo:=Lo) (Li:=Li) (P:=P) (MH:=MH) (F:=F)) :
  handle_in_order_relay_msg env hopnum leg ctw sid msg w =
  (note_delivered msg ≫= λ _, handle_counted env hopnum leg ctw sid msg) w.
Proof. done. Qed.
