(* ===== verification/ConfluxSet.v ===== *)
(** * ConfluxSet: the circuits of a tunnel

    [client/reactor/conflux.rs]: a set of circuits, one of which is the primary leg that the
    client sends on; the join point whose streams are multiplexed over the legs; adding, linking
    and removing legs, and choosing the primary.  The number of the last delivered message, which
    the source keeps here in an atomic, is part of the state the legs share. *)

From S2P Require Import Prelude StateM Bytes Codec RelayMsg RelayCell Sendme RelayCrypt Cwnd Rtt.
From S2P Require Import Vegas Congestion FlowCtrl PollSet StreamMap ConfluxMsg HopSettings.
From S2P Require Import CircHop Circuit.

(** ** Relay identities (tor-linkspec/src/traits.rs) *)

Class HasRelayIds (P : Type) : Type := {
  ed_identity : P → option (list Z);
  rsa_identity : P → option (list Z);
}.

Definition same_relay_ids {P} `{!HasRelayIds P} (a b : P) : bool :=
  bool_decide (ed_identity a = ed_identity b) && bool_decide (rsa_identity a = rsa_identity b).

(** ** Data *)

Record JoinPoint (P : Type) : Type := mkJoinPoint {
  jp_hop : nat;
  jp_detail : HopDetail P;
  jp_streams : nat }.
Arguments mkJoinPoint {P}.
Arguments jp_hop {P}.
Arguments jp_detail {P}.
Arguments jp_streams {P}.

Record ConfluxSet (Lo Li P : Type) : Type := mkSet {
  cs_legs : list (Circuit Lo Li P);
  cs_primary_id : nat;
  cs_join_point : option (JoinPoint P);
  cs_nonce : list Z;
  cs_desired_ux : Z;
  cs_selected_init_primary : bool }.
Arguments mkSet {Lo Li P}.
Arguments cs_legs {Lo Li P}.
Arguments cs_primary_id {Lo Li P}.
Arguments cs_join_point {Lo Li P}.
Arguments cs_nonce {Lo Li P}.
Arguments cs_desired_ux {Lo Li P}.
Arguments cs_selected_init_primary {Lo Li P}.

Inductive ReactorError : Type := Shutdown | ReactorErr (e : ProtoError).

Section set.
Context {Lo Li P MH F : Type}.
Context `{!OutboundClientLayer Lo, !InboundClientLayer Li, !MetaCellHandler MH Lo Li P}.
Context `{!IncomingStreamRequestFilter F, !HasRelayIds P}.

Definition Tunnel : Type := ConfluxSet Lo Li P * Shared MH F.
Definition T : Type → Type := ST Tunnel ProtoError.

Implicit Types (s : ConfluxSet Lo Li P) (c : Circuit Lo Li P) (sh : Shared MH F).

Definition ConfluxSet_new (nonce : list Z) (circuit_leg : Circuit Lo Li P) : ConfluxSet Lo Li P :=
  mkSet [circuit_leg] (ci_unique_id circuit_leg) None nonce V1DesiredUx.NO_OPINION false.

Definition set_legs (legs : list (Circuit Lo Li P)) s : ConfluxSet Lo Li P :=
  mkSet legs (cs_primary_id s) (cs_join_point s) (cs_nonce s) (cs_desired_ux s) (cs_selected_init_primary s).
Definition set_primary (id : nat) s : ConfluxSet Lo Li P :=
  mkSet (cs_legs s) id (cs_join_point s) (cs_nonce s) (cs_desired_ux s) (cs_selected_init_primary s).
Definition set_init_primary (id : nat) s : ConfluxSet Lo Li P :=
  mkSet (cs_legs s) id (cs_join_point s) (cs_nonce s) (cs_desired_ux s) true.
Definition set_join_point (jp : option (JoinPoint P)) s : ConfluxSet Lo Li P :=
  mkSet (cs_legs s) (cs_primary_id s) jp (cs_nonce s) (cs_desired_ux s) (cs_selected_init_primary s).

(** ** Legs *)

Fixpoint position (id : nat) (legs : list (Circuit Lo Li P)) : option nat :=
  match legs with
  | [] => None
  | c :: legs => if (ci_unique_id c =? id)%nat then Some O else S <$> position id legs
  end.

Definition leg (id : nat) s : option (Circuit Lo Li P) :=
  i ← position id (cs_legs s); cs_legs s !! i.

(** An operation on the leg with this identifier; [e] when there is none. *)
Definition on_leg {A} (e : ProtoError) (id : nat) (m : M A) : T A := λ t,
  let '(s, sh) := t in
  match position id (cs_legs s) with
  | None => (t, Err e)
  | Some i =>
      match cs_legs s !! i with
      | None => (t, Panic)
      | Some c =>
          let '((c, sh), r) := m (c, sh) in
          ((set_legs (<[i := c]> (cs_legs s)) s, sh), r)
      end
  end.

Definition get_leg (e : ProtoError) (id : nat) : T (Circuit Lo Li P) :=
  s ← gets fst; lift (ok_or (leg id s) e).

(** The only leg. *)
Definition single_leg s : res ProtoError (Circuit Lo Li P) :=
  match cs_legs s with
  | [c] => Ok c
  | _ => Err (Internal "not a single leg conflux set")
  end.

(** The primary leg; an error before any leg is available. *)
Definition on_primary {A} (m : M A) : T A :=
  s ← gets fst;
  match cs_legs s with
  | [] => fail (Internal "tried to get circuit leg before creating it?!")
  | _ => on_leg (Internal "conflux set is empty?!") (cs_primary_id s) m
  end.

Definition remove_unchecked (id : nat) s : res ProtoError (Circuit Lo Li P * ConfluxSet Lo Li P) :=
  i ← ok_or (position id (cs_legs s)) (Internal "leg not found in conflux set");
  c ← expect (cs_legs s !! i);
  Ok (c, set_legs (take i (cs_legs s) ++ drop (S i) (cs_legs s)) s).

Definition take_single_leg s : res ProtoError (Circuit Lo Li P * ConfluxSet Lo Li P) :=
  c ← single_leg s;
  _ ← debug_assert (ci_unique_id c =? cs_primary_id s)%nat;
  remove_unchecked (ci_unique_id c) s.

(** [filter_map(|leg| leg.last_seq_recv().ok()).max()] and the same for the number sent. *)
Definition max_opt (l : list Z) : option Z :=
  match l with [] => None | x :: l => Some (foldl Z.max x l) end.

Definition max_last_seq_recv s : option Z :=
  max_opt (omap (λ c, last_seq_recv <$> ci_conflux_handler c) (cs_legs s)).
Definition max_last_seq_sent s : option Z :=
  max_opt (omap (λ c, last_seq_sent <$> ci_conflux_handler c) (cs_legs s)).

Definition join_point_hop s c : res ProtoError CircHop :=
  join_point ← ok_or (cs_join_point s) (Internal "No join point on conflux tunnel?!");
  ok_or (ci_hops c !! jp_hop join_point) (Internal "Conflux join point disappeared?!").

Definition exceeds (x : Z) (o : option Z) : bool :=
  match o with Some m => m <? x | None => false end.

(** What happens to the set when the circuit [c] was removed from it. *)
Definition remove_conflux s c : res ReactorError unit :=
  match conflux_status c with
  | None => Err (ReactorErr (Internal "Found non-conflux circuit in conflux set?!"))
  | Some StUnlinked => Ok tt
  | Some (StPending | StLinked) =>
      circ_last_seq_recv ← map_err ReactorErr (circ_last_seq_recv c);
      circ_last_seq_sent ← map_err ReactorErr (circ_last_seq_sent c);
      if exceeds circ_last_seq_recv (max_last_seq_recv s) then Err Shutdown
      else if exceeds circ_last_seq_sent (max_last_seq_sent s) then Err Shutdown
      else
        hop ← map_err ReactorErr (join_point_hop s c);
        match inflight (cc_algorithm (ccontrol hop)), alg_cwnd (cc_algorithm (ccontrol hop)) with
        | Some inflight, Some cwnd =>
            if cp_sendme_inc (cw_params cwnd) <=? inflight then Err Shutdown else Ok tt
        | _, _ => Err (ReactorErr (Internal
                    "Congestion control algorithm doesn't track inflight cells or cwnd?!"))
        end
  end.

Definition remove (id : nat) s : ConfluxSet Lo Li P * res ReactorError (Circuit Lo Li P) :=
  match remove_unchecked id s with
  | Ok (c, s) =>
      (s, match cs_legs s with
          | [] => Err Shutdown
          | _ =>
              if (id =? cs_primary_id s)%nat then Err Shutdown
              else _ ← remove_conflux s c; Ok c
          end)
  | Err e => (s, Err (ReactorErr e))
  | Panic => (s, Panic)
  end.

(** ** Adding legs *)

Definition hops_eq (h1 h2 : HopDetail P) : res ProtoError bool :=
  match h1, h2 with
  | Relay t1, Relay t2 => Ok (same_relay_ids t1 t2)
  | Virtual, Virtual => Err (Internal "onion service conflux not supported")
  | _, _ => Ok false
  end.

Definition is_vegas (a : Algorithm) : bool :=
  match a with AlgVegas _ => true | AlgFixedWindow _ => false end.

Definition leg_is_valid (join_point : JoinPoint P) (st : Streams) c : res ProtoError bool :=
  match last (ci_path c) with
  | None => Ok false
  | Some last_hop =>
      n ← last_hop_num c;
      match n with
      | None => Ok false
      | Some last_hop_num =>
          circhop ← ok_or (ci_hops c !! last_hop_num) (Internal "hop disappeared?!");
          if negb (is_vegas (algorithm (cc_algorithm (ccontrol circhop)))) then Ok false
          else if negb (last_hop_num =? jp_hop join_point)%nat then Ok false
          else
            eq ← hops_eq last_hop (jp_detail join_point);
            if negb eq then Ok false
            else
              streams ← has_streams c st;
              if streams : bool then Ok false
              else Ok (match conflux_status c with None => true | Some _ => false end)
      end
  end.

Fixpoint legs_valid (join_point : JoinPoint P) (st : Streams) (legs : list (Circuit Lo Li P)) :
    res ProtoError unit :=
  match legs with
  | [] => Ok tt
  | c :: legs =>
      valid ← leg_is_valid join_point st c;
      if valid : bool then legs_valid join_point st legs
      else Err (Internal "one more more conflux circuits are invalid")
  end.

(** The last hop of the first leg as a join point. *)
Definition new_join_point s : res ProtoError (JoinPoint P) :=
  let e := Internal "asked to join circuit with no hops" in
  first_leg ← ok_or (head (cs_legs s)) e;
  n ← last_hop_num first_leg;
  hop_num ← ok_or n e;
  detail ← ok_or (last (ci_path first_leg)) e;
  hop ← ok_or (ci_hops first_leg !! hop_num) e;
  Ok (mkJoinPoint hop_num detail (ob_map (hp_outbound hop))).

Definition cwnd_params s : res ProtoError CongestionWindowParams :=
  primary_leg ← ok_or (leg (cs_primary_id s) s) (Internal "no primary leg?!");
  join_point ← join_point_hop s primary_leg;
  cwnd ← ok_or (alg_cwnd (cc_algorithm (ccontrol join_point)))
           (Internal "congestion control algorithm does not track the cwnd?!");
  Ok (cw_params cwnd).

(** Installs a conflux handler on a circuit that has none, and shares the join point's streams. *)
Definition install_handler (join_point : JoinPoint P) (nonce : list Z)
    (params : CongestionWindowParams) (st : Streams) c : Circuit Lo Li P * res ProtoError unit :=
  match conflux_status c with
  | Some _ => (c, Ok tt)
  | None =>
      let c := add_to_conflux_tunnel (ClientConfluxMsgHandler_new (jp_hop join_point) nonce params) c in
      match ci_hops c !! jp_hop join_point with
      | None => (c, Err (Internal "asked to join circuit with no hops"))
      | Some last_hop =>
          match set_stream_map (jp_streams join_point) last_hop st with
          | Ok last_hop => (set_hops (<[jp_hop join_point := last_hop]> (ci_hops c)) c, Ok tt)
          | Err e => (c, Err e)
          | Panic => (c, Panic)
          end
      end
  end.

Fixpoint install_handlers (join_point : JoinPoint P) (nonce : list Z)
    (params : CongestionWindowParams) (st : Streams) (legs : list (Circuit Lo Li P)) :
    list (Circuit Lo Li P) * res ProtoError unit :=
  match legs with
  | [] => ([], Ok tt)
  | c :: legs =>
      match install_handler join_point nonce params st c with
      | (c, Ok _) =>
          let '(legs, r) := install_handlers join_point nonce params st legs in (c :: legs, r)
      | (c, r) => (c :: legs, r)
      end
  end.

Definition install_all (join_point : JoinPoint P) (params : CongestionWindowParams) : T unit := λ t,
  let '(s, sh) := t in
  let '(legs, r) := install_handlers join_point (cs_nonce s) params (sh_streams sh) (cs_legs s) in
  ((set_legs legs s, sh), r).

(** The join point is taken out of the set, and put back only once the legs are valid. *)
Definition add_legs (legs : list (Circuit Lo Li P)) : T unit :=
  match legs with
  | [] => fail (Internal "asked to add empty leg list to conflux set")
  | _ =>
      s ← gets fst;
      st ← gets (λ t, sh_streams t.2);
      _ ← modify (λ t, (set_join_point None t.1, t.2));
      join_point ← lift (match cs_join_point s with
                         | Some p => Ok p
                         | None => new_join_point s
                         end);
      _ ← lift (legs_valid join_point st legs);
      _ ← modify (λ t, (set_legs (cs_legs t.1 ++ legs) (set_join_point (Some join_point) t.1), t.2));
      s ← gets fst;
      params ← lift (cwnd_params s);
      install_all join_point params
  end.

(** ** The primary leg *)

(** [min_by_key]: the first of the legs with the least initial round trip time. *)
Fixpoint min_init_rtt (legs : list (Circuit Lo Li P)) : option (nat * Z) :=
  match legs with
  | [] => None
  | c :: legs =>
      match circ_init_rtt c, min_init_rtt legs with
      | None, best => best
      | Some rtt, Some (id, r) => if r <? rtt then Some (id, r) else Some (ci_unique_id c, rtt)
      | Some rtt, None => Some (ci_unique_id c, rtt)
      end
  end.

Definition maybe_select_init_primary s : ConfluxSet Lo Li P :=
  match min_init_rtt (cs_legs s) with
  | Some (best, _) => set_init_primary best s
  | None => s
  end.

Definition should_update_primary_leg s : ConfluxSet Lo Li P * bool :=
  if negb (cs_selected_init_primary s) then (maybe_select_init_primary s, false)
  else (s, negb (length (cs_legs s) <? 2)%nat).

Definition update_primary_due : T bool := λ t,
  let '(s, b) := should_update_primary_leg t.1 in ((s, t.2), Ok b).

Definition leg_rtt_usec c (h : CircHop) : option Z :=
  match ewma_rtt_usec (cc_rtt (ccontrol h)) with
  | Some rtt => Some rtt
  | None => usec_u32 <$> circ_init_rtt c
  end.

Fixpoint select_min_rtt (check_can_send : bool) s (legs : list (Circuit Lo Li P))
    (best : option (nat * Z)) : res ProtoError (option nat) :=
  match legs with
  | [] => Ok (fst <$> best)
  | c :: legs =>
      join_point ← join_point_hop s c;
      if check_can_send && negb (Congestion.can_send (cc_algorithm (ccontrol join_point)))
      then select_min_rtt check_can_send s legs best
      else
        ewma_rtt ← ok_or (leg_rtt_usec c join_point)
          (Internal "attempted to select primary leg before handshake completed?!");
        select_min_rtt check_can_send s legs
          (match best with
           | None => Some (ci_unique_id c, ewma_rtt)
           | Some (b, r) => if r <=? ewma_rtt then Some (b, r) else Some (ci_unique_id c, ewma_rtt)
           end)
  end.

Definition select_primary_leg_min_rtt (check_can_send : bool) s : res ProtoError (option nat) :=
  select_min_rtt check_can_send s (cs_legs s) None.

Definition select_primary_leg s : res ProtoError (option nat) :=
  if cs_desired_ux s =? V1DesiredUx.HIGH_THROUGHPUT then select_primary_leg_min_rtt true s
  else select_primary_leg_min_rtt false s.

Definition primary_last_seq_sent : T Z := on_primary (c ← gets fst; lift (circ_last_seq_sent c)).

Definition maybe_update_primary_leg : T (option SendRelayCell) :=
  s ← gets fst;
  match cs_join_point s with
  | None => mret None
  | Some join_point =>
      update ← update_primary_due;
      if negb update then mret None
      else
        s ← gets fst;
        new ← lift (select_primary_leg s);
        match new with
        | None => mret None
        | Some new_primary_id =>
            if (cs_primary_id s =? new_primary_id)%nat then mret None
            else
              prev_last_seq_sent ← primary_last_seq_sent;
              _ ← modify (λ t, (set_primary new_primary_id t.1, t.2));
              new_last_seq_sent ← primary_last_seq_sent;
              delta ← lift (usub prev_last_seq_sent new_last_seq_sent);
              seqno_delta ← lift (ok_or (if delta <=? u32_max then Some delta else None)
                (Internal "Seqno delta for switch does not fit in u32?!"));
              _ ← on_primary (zoom_res fst (λ c w, (c, w.2))
                    (λ c, c ← circ_set_last_seq_sent prev_last_seq_sent c; Ok (c, tt)));
              mret (Some (mkSend (Some (jp_hop join_point)) false
                            (mkOuter None (AConfluxSwitch (mkConfluxSwitch seqno_delta)))))
        end
  end.

(** ** Polling *)

Definition is_join_point_blocked_on_cc (join_hop : nat) c : res ProtoError bool :=
  join_circhop ← ok_or (ci_hops c !! join_hop) (Internal "Join point hop not found on circuit");
  Ok (negb (Congestion.can_send (cc_algorithm (ccontrol join_circhop)))).

Definition primary_join_point s : option (nat * nat) :=
  (λ jp, (cs_primary_id s, jp_hop jp)) <$> cs_join_point s.

Fixpoint all_blocked_on_cc (join_hop : nat) (legs : list (Circuit Lo Li P)) : res ProtoError bool :=
  match legs with
  | [] => Ok true
  | c :: legs =>
      blocked ← is_join_point_blocked_on_cc join_hop c;
      if blocked : bool then all_blocked_on_cc join_hop legs else Ok false
  end.

Definition should_skip_join_point s : res ProtoError bool :=
  match primary_join_point s with
  | None => Ok false
  | Some (_, join_hop) =>
      primary ← ok_or (leg (cs_primary_id s) s) (Internal "primary leg disappeared?!");
      primary_blocked_on_cc ← is_join_point_blocked_on_cc join_hop primary;
      if negb primary_blocked_on_cc then Ok false
      else if negb (cs_desired_ux s =? V1DesiredUx.HIGH_THROUGHPUT) then Ok true
      else all_blocked_on_cc join_hop (cs_legs s)
  end.

(** ** Sending *)

Definition send_relay_cell_on_leg (now : Z) (msg : SendRelayCell) (leg : option nat) : T unit :=
  s ← gets fst;
  leg ← match cs_join_point s with
        | Some join_point =>
            hop ← lift (expect (sr_hop msg));
            if cmd_counts_towards_seqno (msg_cmd (ro_msg (sr_cell msg))) then
              if negb (hop =? jp_hop join_point)%nat then mret leg
              else
                switch_cell ← maybe_update_primary_leg;
                _ ← match switch_cell with
                    | Some switch_cell => on_primary (send_relay_cell now switch_cell)
                    | None => mret tt
                    end;
                s ← gets fst;
                mret (Some (cs_primary_id s))
            else mret leg
        | None => mret leg
        end;
  s ← gets fst;
  on_leg (Internal "leg disappeared?!") (default (cs_primary_id s) leg) (send_relay_cell now msg).

(** Sends a LINK cell down each unlinked leg, given by position. *)
Fixpoint link_legs (now : Z) (join_point : nat) (i : nat) (n : nat) : T unit :=
  match n with
  | O => mret tt
  | S n =>
      s ← gets fst;
      _ ← match cs_legs s !! i with
          | None => mret tt
          | Some c =>
              match conflux_status c with
              | Some StUnlinked =>
                  let link := Link_new (V1LinkPayload_new (cs_nonce s) (cs_desired_ux s)) in
                  on_leg (Internal "leg disappeared?!") (ci_unique_id c)
                    (begin_conflux_link join_point (mkOuter None (AConfluxLink link)) now)
              | _ => mret tt
              end
          end;
      link_legs now join_point (S i) n
  end.

Definition link_circuits (now : Z) : T unit :=
  s ← gets fst;
  '(_, join_point) ← lift (ok_or (primary_join_point s) (Internal "no join point when trying to send LINK"));
  link_legs now join_point 0 (length (cs_legs s)).

Definition num_unlinked s : nat :=
  length (filter (λ c, conflux_status c = None ∨ conflux_status c = Some StUnlinked) (cs_legs s)).

Definition is_seqno_in_order (seq_recv : Z) sh : res ProtoError bool :=
  next ← uadd u64_max (sh_last_seq_delivered sh) 1; Ok (seq_recv =? next).

Definition set_uses_stream_sendme (id hop : nat) s : option bool :=
  c ← leg id s; circ_uses_stream_sendme hop c.
End set.
