(* ===== verification/Reactor.v ===== *)
(** * Reactor: the tunnel reactor

    [client/reactor.rs] and [client/reactor/control.rs]: the events of a tunnel's circuits, the
    control messages of its users, the commands they become, and the buffer of messages that
    arrived out of order on a multi-path tunnel.  One call of [run_once] is given what its
    [select_biased!] and the futures of the legs would produce; the events of the legs' streams are
    computed from the stream maps.  Starting a hop's handshake is an interface ([CircuitBuilder]).
    A reply to a user is an entry of [rx_replies], under the number that stands for its channel. *)

From S2P Require Import Prelude StateM Bytes Codec RelayMsg RelayCell Sendme RelayCrypt Cwnd Rtt.
From S2P Require Import Vegas Congestion FlowCtrl PollSet StreamMap ConfluxMsg HopSettings.
From S2P Require Import CircHop Circuit ConfluxSet.

(** ** Data *)

Inductive TargetHop : Type := AtHop (l : HopLocation) | LastHop.

Inductive ConfluxHandshakeError : Type :=
| HsTimeout
| HsLink (e : ProtoError)
| HsChannelClosed.

Record ConfluxHandshakeCtx : Type := mkCtx {
  hc_answer : nat;
  hc_num_legs : nat;
  hc_results : list (res ConfluxHandshakeError unit) }.

Record ConfluxHeapEntry : Type := mkEntry { he_leg_id : nat; he_msg : OooRelayMsg }.

Inductive Reply : Type :=
| RepDone
| RepStream (stream_id : Z) (hop : HopLocation) (format : RelayCellFormat)
| RepLinked (results : list (res ConfluxHandshakeError unit))
| RepHop (hop : HopLocation)
| RepSkew (skew : Z)
| RepBinding (key : option (list Z)).

Inductive FlowCtrlMsg : Type := FlowSendme | FlowXon (rate : XonKbpsEwma).

Inductive RunOnceCmdInner (Lo Li P MH : Type) : Type :=
| RSend (leg : nat) (cell : SendRelayCell) (done : option nat)
| RSendMsgAndInstallHandler (msg : option RelayMsgOuter) (handler : option MH) (done : nat)
| RHandleSendMe (leg hop : nat) (sendme : Sendme)
| RBeginStream (cell : res ProtoError (SendRelayCell * Z)) (hop : HopLocation) (leg done : nat)
| RMaybeSendXon (rate : XonKbpsEwma) (stream_id : Z) (hop : HopLocation)
| RCloseStream (hop : HopLocation) (sid : Z) (behav : CloseStreamBehavior) (reason : TerminateReason)
    (done : option nat)
| RFirstHopClockSkew (answer : nat)
| RRemoveLeg (leg : nat) (reason : RemoveLegReason)
| RConfluxHandshakeComplete (leg : nat) (cell : SendRelayCell)
| RLink (circuits : list (Circuit Lo Li P)) (answer : nat)
| REnqueue (leg : nat) (msg : OooRelayMsg)
| RCleanShutdown.
Arguments RSend {Lo Li P MH}.
Arguments RSendMsgAndInstallHandler {Lo Li P MH}.
Arguments RHandleSendMe {Lo Li P MH}.
Arguments RBeginStream {Lo Li P MH}.
Arguments RMaybeSendXon {Lo Li P MH}.
Arguments RCloseStream {Lo Li P MH}.
Arguments RFirstHopClockSkew {Lo Li P MH}.
Arguments RRemoveLeg {Lo Li P MH}.
Arguments RConfluxHandshakeComplete {Lo Li P MH}.
Arguments RLink {Lo Li P MH}.
Arguments REnqueue {Lo Li P MH}.
Arguments RCleanShutdown {Lo Li P MH}.

(** The messages that a user sends to the reactor.  [X] is what a request to extend carries. *)
Inductive CtrlMsg (Lo Li P MH X : Type) : Type :=
| CtlCreate (req : X) (done : nat)
| CtlExtend (req : X) (done : nat)
| CtlBeginStream (hop : TargetHop) (message : AnyRelayMsg) (cmd_checker : AnyCmdChecker) (done : nat)
| CtlClosePendingStream (hop : HopLocation) (stream_id : Z) (message : CloseStreamBehavior) (done : nat)
| CtlSendMsg (hop : TargetHop) (msg : AnyRelayMsg) (sender : nat)
| CtlSendMsgAndInstallHandler (msg : option RelayMsgOuter) (handler : option MH) (sender : nat)
| CtlFlowCtrlUpdate (msg : FlowCtrlMsg) (stream_id : Z) (hop : HopLocation)
| CtlFirstHopClockSkew (answer : nat)
| CtlLinkCircuits (circuits : list (Circuit Lo Li P)) (answer : nat).
Arguments CtlCreate {Lo Li P MH X}.
Arguments CtlExtend {Lo Li P MH X}.
Arguments CtlBeginStream {Lo Li P MH X}.
Arguments CtlClosePendingStream {Lo Li P MH X}.
Arguments CtlSendMsg {Lo Li P MH X}.
Arguments CtlSendMsgAndInstallHandler {Lo Li P MH X}.
Arguments CtlFlowCtrlUpdate {Lo Li P MH X}.
Arguments CtlFirstHopClockSkew {Lo Li P MH X}.
Arguments CtlLinkCircuits {Lo Li P MH X}.

Inductive CtrlCmd (Lo Li F : Type) : Type :=
| CmdShutdown
| CmdExtendVirtual (outbound : Lo) (inbound : Li) (binding : option (list Z)) (settings : HopSettings)
    (done : nat)
| CmdResolveTargetHop (hop : TargetHop) (done : nat)
| CmdAwaitStreamRequest (cmd_checker : AnyCmdChecker) (hop : TargetHop) (filter : F) (done : nat)
| CmdGetBindingKey (hop : TargetHop) (done : nat)
| CmdShutdownAndReturnCircuit (answer : nat).
Arguments CmdShutdown {Lo Li F}.
Arguments CmdExtendVirtual {Lo Li F}.
Arguments CmdResolveTargetHop {Lo Li F}.
Arguments CmdAwaitStreamRequest {Lo Li F}.
Arguments CmdGetBindingKey {Lo Li F}.
Arguments CmdShutdownAndReturnCircuit {Lo Li F}.

Inductive CircuitEvent (Lo Li P MH X : Type) : Type :=
| EvRunCmd (leg : nat) (cmd : CircuitCmd)
| EvHandleControl (msg : CtrlMsg Lo Li P MH X)
| EvHandleCell (leg : nat) (cell : ClientCircChanMsg)
| EvRemoveLeg (leg : nat) (reason : RemoveLegReason)
| EvProtoViolation (err : ProtoError).
Arguments EvRunCmd {Lo Li P MH X}.
Arguments EvHandleControl {Lo Li P MH X}.
Arguments EvHandleCell {Lo Li P MH X}.
Arguments EvRemoveLeg {Lo Li P MH X}.
Arguments EvProtoViolation {Lo Li P MH X}.

Record Reactor (Lo Li P MH F : Type) : Type := mkReactor {
  rx_circuits : ConfluxSet Lo Li P;
  rx_shared : Shared MH F;
  rx_conflux_hs_ctx : option ConfluxHandshakeCtx;
  rx_ooo_msgs : list ConfluxHeapEntry;
  rx_replies : list (nat * res ProtoError Reply) }.
Arguments mkReactor {Lo Li P MH F}.
Arguments rx_circuits {Lo Li P MH F}.
Arguments rx_shared {Lo Li P MH F}.
Arguments rx_conflux_hs_ctx {Lo Li P MH F}.
Arguments rx_ooo_msgs {Lo Li P MH F}.
Arguments rx_replies {Lo Li P MH F}.

(** What the reactor observes: besides [Env], the congestion of the channel of each leg, the
    estimated time to build a circuit of some length, whether the user who asked to link circuits
    still listens, and the clock skew that the first relay reported. *)
Record REnv : Type := mkREnv {
  re_env : Env;
  re_signals : nat → CongestionSignals;
  re_cbt : nat → Z;
  re_answer_open : bool;
  re_clock_skew : Z }.

(** The handshakes: creating the first hop, whose stream map starts at the given identifier, and
    beginning to extend, with the handler of the answer and the cell to send. *)
Class CircuitBuilder (X MH Lo Li P : Type) : Type := {
  create_first_hop : X → Z → (nat → list Z) → Circuit Lo Li P → Streams →
    Circuit Lo Li P * Streams * res ProtoError unit;
  extend_begin : X → (nat → list Z) → Circuit Lo Li P → res ProtoError (MH * SendRelayCell);
}.

Section reactor.
Context {Lo Li P MH F X : Type}.
Context `{!OutboundClientLayer Lo, !InboundClientLayer Li, !MetaCellHandler MH Lo Li P}.
Context `{!IncomingStreamRequestFilter F, !HasRelayIds P, !CircuitBuilder X MH Lo Li P}.

Definition Rx : Type := Reactor Lo Li P MH F.
Definition R (A : Type) : Type := ST Rx ReactorError A.
#[local] Abbreviation RCmd := (RunOnceCmdInner Lo Li P MH).
#[local] Abbreviation Control := (CtrlMsg Lo Li P MH X).
#[local] Abbreviation Event := (CircuitEvent Lo Li P MH X).

Implicit Types (r : Rx).

(** ** Access to the parts *)

Definition tunnel_of r : Tunnel (Lo:=Lo) (Li:=Li) (P:=P) (MH:=MH) (F:=F) := (rx_circuits r, rx_shared r).
Definition set_tunnel (t : Tunnel (Lo:=Lo) (Li:=Li) (P:=P) (MH:=MH) (F:=F)) r : Rx :=
  mkReactor t.1 t.2 (rx_conflux_hs_ctx r) (rx_ooo_msgs r) (rx_replies r).
Definition set_ctx (c : option ConfluxHandshakeCtx) r : Rx :=
  mkReactor (rx_circuits r) (rx_shared r) c (rx_ooo_msgs r) (rx_replies r).
Definition set_ooo (l : list ConfluxHeapEntry) r : Rx :=
  mkReactor (rx_circuits r) (rx_shared r) (rx_conflux_hs_ctx r) l (rx_replies r).

(** An operation of the tunnel's circuits. *)
Definition in_tunnel {A} (m : T (Lo:=Lo) (Li:=Li) (P:=P) (MH:=MH) (F:=F) A) : R A :=
  with_err ReactorErr (zoom tunnel_of set_tunnel m).

Definition reply (done : nat) (x : res ProtoError Reply) : R unit :=
  modify (λ r, mkReactor (rx_circuits r) (rx_shared r) (rx_conflux_hs_ctx r) (rx_ooo_msgs r)
                 (rx_replies r ++ [(done, x)])).

Definition reply_opt (done : option nat) (x : res ProtoError Reply) : R unit :=
  match done with Some d => reply d x | None => mret tt end.

Definition rerr {A} (e : ProtoError) : R A := fail (ReactorErr e).

(** The result of an operation, reported to the user and then returned. *)
Definition report {A} (done : option nat) (f : A → Reply) (m : R A) : R A :=
  res ← catch m;
  match res with
  | Ok a => _ ← reply_opt done (Ok (f a)); mret a
  | Err (ReactorErr e) => _ ← reply_opt done (Err e); rerr e
  | Err Shutdown => fail Shutdown
  | Panic => lift Panic
  end.

(** ** Positions in the tunnel *)

Definition resolve_target_hop (hop : TargetHop) r : res ProtoError (option HopLocation) :=
  match hop with
  | AtHop l => Ok (Some l)
  | LastHop =>
      match cs_legs (rx_circuits r) with
      | [c] =>
          n ← last_hop_num c;
          Ok (option_map (LocHop (ci_unique_id c)) n)
      | [] => Ok None
      | _ => Ok (Some LocJoinPoint)
      end
  end.

Definition resolve_hop_location (hop : HopLocation) r : option (nat * nat) :=
  match hop with
  | LocHop leg_id hop_num => Some (leg_id, hop_num)
  | LocJoinPoint => primary_join_point (rx_circuits r)
  end.

Definition target_hop_to_hopnum_id (hop : TargetHop) r : res ProtoError (option (nat * nat)) :=
  l ← resolve_target_hop hop r;
  Ok (match l with Some l => resolve_hop_location l r | None => None end).

(** ** Handlers *)

Definition set_meta_handler (handler : MH) : R unit :=
  r ← gets id;
  match meta_handler (sh_handlers (rx_shared r)) with
  | None => modify (λ r, set_tunnel (rx_circuits r, set_meta (Some handler) (rx_shared r)) r)
  | Some _ => rerr (Internal "Tried to install a meta-cell handler before the old one was gone.")
  end.

Definition set_incoming_stream_req_handler (handler : IncomingStreamRequestHandler F) : R unit :=
  r ← gets id;
  match incoming_stream_req_handler (sh_handlers (rx_shared r)) with
  | None => modify (λ r, set_tunnel (rx_circuits r, set_incoming handler (rx_shared r)) r)
  | Some _ => rerr (Internal "Tried to install a BEGIN cell handler before the old one was gone.")
  end.

Definition prepare_msg_and_install_handler (msg : option RelayMsgOuter) (handler : option MH) :
    R (option SendRelayCell) :=
  r ← gets id;
  cell ← lift (map_err ReactorErr
    match msg with
    | None => Ok None
    | Some msg =>
        h ← ok_or (match handler with Some h => Some h | None => meta_handler (sh_handlers (rx_shared r)) end)
              (Internal "tried to use an ended Conversation");
        hop ← ok_or (location_hop_num (expected_hop h))
                (Internal "MsgHandler doesn't have a precise HopLocation");
        Ok (Some (mkSend (Some hop) false msg))
    end);
  _ ← match handler with Some h => set_meta_handler h | None => mret tt end;
  mret cell.

(** ** The conflux handshake *)

Definition send_conflux_outcome (renv : REnv) (tx : nat) (x : res ProtoError Reply) : R unit :=
  if re_answer_open renv then reply tx x else fail Shutdown.

Definition note_conflux_handshake_result (renv : REnv) (res : res ConfluxHandshakeError unit)
    (reactor_is_closing : bool) : R unit :=
  r ← gets id;
  match rx_conflux_hs_ctx r with
  | None => rerr (Internal "no conflux handshake context")
  | Some ctx =>
      let results := hc_results ctx ++ [res] in
      let tunnel_complete := (length results =? hc_num_legs ctx)%nat in
      if tunnel_complete || reactor_is_closing then
        _ ← modify (set_ctx None);
        send_conflux_outcome renv (hc_answer ctx) (Ok (RepLinked results))
      else modify (set_ctx (Some (mkCtx (hc_answer ctx) (hc_num_legs ctx) results)))
  end.

Definition handle_link_circuits (renv : REnv) (circuits : list (Circuit Lo Li P)) (answer : nat) : R unit :=
  r ← gets id;
  match rx_conflux_hs_ctx r with
  | Some _ => send_conflux_outcome renv answer (Err (Internal "conflux linking already in progress"))
  | None =>
      let num_legs := (length circuits + num_unlinked (rx_circuits r))%nat in
      res ← catch (zoom tunnel_of set_tunnel
                     (_ ← add_legs circuits; link_circuits (ev_now (re_env renv))));
      match res with
      | Err e => send_conflux_outcome renv answer (Err e)
      | _ => modify (set_ctx (Some (mkCtx answer num_legs [])))
      end
  end.

(** ** Running commands *)

(** When the half-closed stream expires: twice the build timeout, or the longest round trip. *)
Definition close_expiry (renv : REnv) (c : Circuit Lo Li P) (hop_num : nat) (h : CircHop) : Z :=
  let max_rtt := match max_rtt_usec (cc_rtt (ccontrol h)) with
                 | Some rtt => rtt * 1000000
                 | None => 0
                 end in
  ev_now (re_env renv) + Z.max max_rtt (2 * re_cbt renv (hop_num + 1)).

Definition run_close_stream (renv : REnv) (hop : HopLocation) (sid : Z) (behav : CloseStreamBehavior)
    (reason : TerminateReason) (done : option nat) : R unit :=
  r ← gets id;
  match resolve_hop_location hop r ≫= (λ '(leg_id, hop_num), (λ c, (c, hop_num)) <$> leg leg_id (rx_circuits r)) with
  | None => reply_opt done (Err (Internal "Could not resolve hop"))
  | Some (c, hop_num) =>
      match ci_hops c !! hop_num with
      | None => rerr (Internal "the hop we resolved disappeared?!")
      | Some h =>
          res ← catch (in_tunnel (on_leg (Internal "No leg for id") (ci_unique_id c)
                  (close_stream (ev_now (re_env renv)) hop_num sid behav reason (close_expiry renv c hop_num h))));
          reply_opt done (match res with
                          | Ok _ => Ok RepDone
                          | Err (ReactorErr e) => Err e
                          | _ => Err (Internal "shutdown")
                          end)
      end
  end.

(** The XON message goes out on the leg directly. *)
Definition send_xon_on_hop (now : Z) (rate : XonKbpsEwma) (stream_id buffered : Z) (hop_num : nat) :
    M (Lo:=Lo) (Li:=Li) (P:=P) (MH:=MH) (F:=F) unit :=
  msg ← update_streams NoSuchHop hop_num (hop_maybe_send_xon rate stream_id buffered);
  match msg with
  | None => mret tt
  | Some msg => send_relay_cell now (mkSend (Some hop_num) false (mkOuter (Some stream_id) (AXon msg)))
  end.

Definition run_maybe_send_xon (renv : REnv) (rate : XonKbpsEwma) (stream_id : Z) (hop : HopLocation) : R unit :=
  r ← gets id;
  match resolve_hop_location hop r with
  | None => rerr (Internal "Could not send an XON message to a join point on a tunnel without a join point")
  | Some (leg_id, hop_num) =>
      match leg leg_id (rx_circuits r) with
      | None => mret tt
      | Some c =>
          match ci_hops c !! hop_num with
          | None => mret tt
          | Some _ =>
              in_tunnel (on_leg (Internal "leg disappeared?!") leg_id
                (send_xon_on_hop (ev_now (re_env renv)) rate stream_id
                   (ev_buffered (re_env renv) stream_id) hop_num))
          end
      end
  end.

Definition remove_from_set (leg : nat) : R (Circuit Lo Li P) := λ r,
  let '(s, x) := remove leg (rx_circuits r) in (set_tunnel (s, rx_shared r) r, x).

Definition run_remove_leg (renv : REnv) (leg : nat) (reason : RemoveLegReason) : R unit :=
  circ ← remove_from_set leg;
  if is_conflux_pending circ then
    let '(error, proto_violation) :=
      match reason with
      | ConfluxHandshakeTimeout => (HsTimeout, None)
      | ConfluxHandshakeErr e => (HsLink e, Some e)
      | ChannelClosed => (HsChannelClosed, None)
      end in
    _ ← note_conflux_handshake_result renv (Err error)
          (match proto_violation with Some _ => true | None => false end);
    match proto_violation with
    | Some e => rerr e
    | None => mret tt
    end
  else mret tt.

Definition run_begin_stream (renv : REnv) (cell : res ProtoError (SendRelayCell * Z)) (hop : HopLocation)
    (leg_id done : nat) : R unit :=
  match cell with
  | Ok (cell, stream_id) =>
      r ← gets id;
      c ← lift (map_err ReactorErr (ok_or (leg leg_id (rx_circuits r)) (Internal "leg disappeared?!")));
      cell_hop ← lift (expect (sr_hop cell));
      h ← lift (map_err ReactorErr (ok_or (ci_hops c !! cell_hop) NoSuchHop));
      report (Some done) (λ _, RepStream stream_id hop (ob_relay_format (hp_outbound h)))
        (in_tunnel (send_relay_cell_on_leg (ev_now (re_env renv)) cell (Some leg_id)))
  | Err e => _ ← reply done (Err e); rerr e
  | Panic => lift Panic
  end.

Definition handle_single_run_once_cmd (renv : REnv) (cmd : RCmd) : R unit :=
  let now := ev_now (re_env renv) in
  match cmd with
  | RSend leg cell done =>
      report done (λ _, RepDone) (in_tunnel (send_relay_cell_on_leg now cell (Some leg)))
  | RSendMsgAndInstallHandler msg handler done =>
      report (Some done) (λ _, RepDone)
        (cell ← prepare_msg_and_install_handler msg handler;
         match cell with
         | Some cell => in_tunnel (send_relay_cell_on_leg now cell None)
         | None => mret tt
         end)
  | RBeginStream cell hop leg done => run_begin_stream renv cell hop leg done
  | RCloseStream hop sid behav reason done => run_close_stream renv hop sid behav reason done
  | RMaybeSendXon rate stream_id hop => run_maybe_send_xon renv rate stream_id hop
  | RHandleSendMe leg hop sendme =>
      in_tunnel (on_leg (Internal "leg disappeared?!") leg (handle_sendme now hop sendme (re_signals renv leg)))
  | RFirstHopClockSkew answer =>
      r ← gets id;
      reply answer (_ ← single_leg (rx_circuits r); Ok (RepSkew (re_clock_skew renv)))
  | RCleanShutdown => fail Shutdown
  | RRemoveLeg leg reason => run_remove_leg renv leg reason
  | RConfluxHandshakeComplete leg cell =>
      _ ← note_conflux_handshake_result renv (Ok tt) false;
      in_tunnel (send_relay_cell_on_leg now cell (Some leg))
  | RLink circuits answer => handle_link_circuits renv circuits answer
  | REnqueue leg msg => modify (λ r, set_ooo (mkEntry leg msg :: rx_ooo_msgs r) r)
  end.

Definition from_circuit_cmd (leg : nat) (cmd : CircuitCmd) : RCmd :=
  match cmd with
  | CmdSend cell => RSend leg cell None
  | CmdHandleSendMe hop sendme => RHandleSendMe leg hop sendme
  | CmdCloseStream hop sid behav reason => RCloseStream (LocHop leg hop) sid behav reason None
  | CmdConflux (RemoveLeg reason) => RRemoveLeg leg reason
  | CmdConflux (HandshakeComplete hop early cell) =>
      RConfluxHandshakeComplete leg (mkSend (Some hop) early cell)
  | CmdEnqueue msg => REnqueue leg msg
  | CmdCleanShutdown => RCleanShutdown
  end.

(** ** Messages that arrived out of order *)

(** The entry with the least sequence number, and the others. *)
Fixpoint pop_min (l : list ConfluxHeapEntry) : option (ConfluxHeapEntry * list ConfluxHeapEntry) :=
  match l with
  | [] => None
  | e :: l =>
      match pop_min l with
      | None => Some (e, [])
      | Some (m, rest) =>
          if oo_seqno (he_msg m) <? oo_seqno (he_msg e) then Some (m, e :: rest) else Some (e, m :: rest)
      end
  end.

(** The loop pops one entry per iteration, so that the length of the buffer is enough fuel: nothing
    in the body adds to the buffer. *)
Fixpoint dequeue_loop (renv : REnv) (fuel : nat) : R unit :=
  match fuel with
  | O => mret tt
  | S fuel =>
      r ← gets id;
      match pop_min (rx_ooo_msgs r) with
      | None => mret tt
      | Some (entry, rest) =>
          should_pop ← lift (map_err ReactorErr (is_seqno_in_order (oo_seqno (he_msg entry)) (rx_shared r)));
          if negb should_pop then mret tt
          else
            _ ← modify (set_ooo rest);
            let msg := he_msg entry in
            cmd ← in_tunnel (on_leg (Internal "the circuit leg we just had disappeared?!") (he_leg_id entry)
                    (handle_in_order_relay_msg (re_env renv) (oo_hopnum msg) (he_leg_id entry)
                       (oo_cell_counts_towards_windows msg) (oo_streamid msg) (oo_msg msg)));
            _ ← match cmd with
                | Some cmd => handle_single_run_once_cmd renv (from_circuit_cmd (he_leg_id entry) cmd)
                | None => mret tt
                end;
            dequeue_loop renv fuel
      end
  end.

Definition try_dequeue_ooo_msgs (renv : REnv) : R unit :=
  n ← gets (λ r, length (rx_ooo_msgs r)); dequeue_loop renv (S n).

(** ** Control messages *)

Definition begin_on_leg (leg_id hop_num : nat) (message : AnyRelayMsg) (cmd_checker : AnyCmdChecker) :
    R (res ProtoError (SendRelayCell * Z)) :=
  in_tunnel (on_leg (Internal "Circuit leg does not exist") leg_id (begin_stream hop_num message cmd_checker)).

Definition control_begin_stream (hop : TargetHop) (message : AnyRelayMsg) (cmd_checker : AnyCmdChecker)
    (done : nat) : R (option RCmd) :=
  r ← gets id;
  l ← lift (map_err ReactorErr (resolve_target_hop hop r));
  match l with
  | None => _ ← reply done (Err (Internal "Could not resolve hop")); mret None
  | Some hop_location =>
      match resolve_hop_location hop_location r with
      | None => _ ← reply done (Err (Internal "Could not resolve hop")); mret None
      | Some (leg_id, hop_num) =>
          match leg leg_id (rx_circuits r) with
          | None => _ ← reply done (Err (Internal "Circuit leg does not exist")); mret None
          | Some _ =>
              cell ← begin_on_leg leg_id hop_num message cmd_checker;
              mret (Some (RBeginStream cell hop_location leg_id done))
          end
      end
  end.

Definition control_sendme (stream_id : Z) (hop : HopLocation) : R (option RCmd) :=
  r ← gets id;
  match resolve_hop_location hop r with
  | None => rerr (Internal "Could not send a stream-level SENDME to a join point on a tunnel without a join point")
  | Some (leg_id, hop_num) =>
      match set_uses_stream_sendme leg_id hop_num (rx_circuits r) with
      | None | Some false => mret None
      | Some true =>
          mret (Some (RSend leg_id
            (mkSend (Some hop_num) false (mkOuter (Some stream_id) (ASendme (mkSendme None)))) None))
      end
  end.

(** The next draw of random bytes. *)
Definition rx_draw : R (nat → list Z) := λ r,
  let sh := rx_shared r in
  (set_tunnel (rx_circuits r, mkShared (sh_streams sh) (sh_last_seq_delivered sh) (sh_history sh)
     (sh_handlers sh) (sh_rng sh) (S (sh_draws sh))) r, Ok (sh_rng sh (sh_draws sh))).

(** The answer to the user is the extender's to give, and is not recorded. *)
Definition control_extend (req : X) (done : nat) : R (option RCmd) :=
  r ← gets id;
  match cs_legs (rx_circuits r) with
  | [c] =>
      rng ← rx_draw;
      '(extender, cell) ← lift (map_err ReactorErr (extend_begin req rng c));
      _ ← set_meta_handler extender;
      mret (Some (RSend (ci_unique_id c) cell None))
  | _ => _ ← reply done (Err (Internal "cannot extend multipath tunnel")); mret None
  end.

Definition control_handle_msg (msg : Control) : R (option RCmd) :=
  match msg with
  | CtlCreate _ done =>
      r ← gets id;
      match cs_legs (rx_circuits r) with
      | [c] =>
          _ ← lift (debug_assert (has_hops c));
          _ ← reply done (Err (Internal "cannot create first hop twice")); mret None
      | _ => _ ← reply done (Err (Internal "cannot create first hop on multipath tunnel")); mret None
      end
  | CtlExtend req done => control_extend req done
  | CtlBeginStream hop message cmd_checker done => control_begin_stream hop message cmd_checker done
  | CtlClosePendingStream hop stream_id message done =>
      mret (Some (RCloseStream hop stream_id message ExplicitEnd (Some done)))
  | CtlFlowCtrlUpdate FlowSendme stream_id hop => control_sendme stream_id hop
  | CtlFlowCtrlUpdate (FlowXon rate) stream_id hop => mret (Some (RMaybeSendXon rate stream_id hop))
  | CtlSendMsg hop msg sender =>
      r ← gets id;
      l ← lift (map_err ReactorErr (target_hop_to_hopnum_id hop r));
      match l with
      | None => _ ← reply sender (Err (Internal "Unknown hop")); mret None
      | Some (leg_id, hop_num) =>
          mret (Some (RSend leg_id (mkSend (Some hop_num) false (mkOuter None msg)) (Some sender)))
      end
  | CtlSendMsgAndInstallHandler msg handler sender =>
      mret (Some (RSendMsgAndInstallHandler msg handler sender))
  | CtlFirstHopClockSkew answer => mret (Some (RFirstHopClockSkew answer))
  | CtlLinkCircuits circuits answer => mret (Some (RLink circuits answer))
  end.

Definition handle_cmd (renv : REnv) (msg : CtrlCmd Lo Li F) : R unit :=
  match msg with
  | CmdShutdown => fail Shutdown
  | CmdExtendVirtual outbound inbound binding settings done =>
      r ← gets id;
      match cs_legs (rx_circuits r) with
      | [c] =>
          _ ← in_tunnel (on_leg (Internal "leg disappeared?!") (ci_unique_id c)
                (zoom_res (λ w, (w.1, sh_streams w.2)) (λ x w, (x.1, set_streams x.2 w.2))
                   (λ x, x ← add_hop (ev_first_stream_id (re_env renv)) Virtual outbound inbound binding settings x.1 x.2;
                         Ok (x, tt))));
          reply done (Ok RepDone)
      | _ => reply done (Err (Internal "cannot extend multipath tunnel"))
      end
  | CmdResolveTargetHop hop done =>
      r ← gets id;
      l ← lift (map_err ReactorErr (resolve_target_hop hop r));
      reply done (l ← ok_or l NoSuchHop; Ok (RepHop l))
  | CmdAwaitStreamRequest cmd_checker hop filter done =>
      r ← gets id;
      l ← lift (map_err ReactorErr (target_hop_to_hopnum_id hop r));
      match l with
      | None => reply done (Err NoSuchHop)
      | Some (_, hop_num) =>
          ret ← catch (set_incoming_stream_req_handler (mkIncoming [] Sent cmd_checker (Some hop_num) filter));
          reply done (match ret with
                      | Ok _ => Ok RepDone
                      | Err (ReactorErr e) => Err e
                      | _ => Err (Internal "shutdown")
                      end)
      end
  | CmdGetBindingKey hop done =>
      r ← gets id;
      l ← lift (map_err ReactorErr (target_hop_to_hopnum_id hop r));
      match l with
      | None => reply done (Err (Internal "Unknown TargetHop when getting binding key"))
      | Some (leg_id, hop_num) =>
          match leg leg_id (rx_circuits r) with
          | None => reply done (Err (Internal "Unknown circuit id when getting binding key"))
          | Some c => reply done (Ok (RepBinding (binding_key hop_num c)))
          end
      end
  | CmdShutdownAndReturnCircuit answer =>
      r ← gets id;
      match take_single_leg (rx_circuits r) with
      | Ok (_, s) =>
          _ ← modify (λ r, set_tunnel (s, rx_shared r) r);
          _ ← reply answer (Ok RepDone);
          fail Shutdown
      | Err e => _ ← reply answer (Err e); fail Shutdown
      | Panic => lift Panic
      end
  end.

(** ** One iteration of the reactor *)

Fixpoint run_cmds (renv : REnv) (cmds : list RCmd) : R unit :=
  match cmds with
  | [] => mret tt
  | cmd :: cmds => _ ← handle_single_run_once_cmd renv cmd; run_cmds renv cmds
  end.

Definition run_event (renv : REnv) (ev : Event) : R unit :=
  match ev with
  | EvRunCmd leg cmd => run_cmds renv [from_circuit_cmd leg cmd]
  | EvHandleControl msg =>
      cmd ← control_handle_msg msg;
      match cmd with Some cmd => run_cmds renv [cmd] | None => mret tt end
  | EvHandleCell leg cell =>
      cmds ← in_tunnel (on_leg (Internal "the circuit leg we just had disappeared?!") leg
               (handle_cell (re_env renv) leg cell));
      run_cmds renv (map (from_circuit_cmd leg) cmds)
  | EvRemoveLeg leg reason => run_cmds renv [RRemoveLeg leg reason]
  | EvProtoViolation err => rerr err
  end.

Definition order_within_batch (ev : Event) : Z :=
  match ev with EvProtoViolation _ => 0 | _ => 2 end.

(** [sort_by_key] is stable, and there are two keys: violations come first. *)
Definition sort_events (evs : list Event) : list Event :=
  filter (λ ev, order_within_batch ev = 0) evs ++ filter (λ ev, order_within_batch ev ≠ 0) evs.

Fixpoint run_events (renv : REnv) (evs : list Event) : R unit :=
  match evs with
  | [] => mret tt
  | ev :: evs => _ ← run_event renv ev; run_events renv evs
  end.

(** What the futures of a leg find: the conflux handshake timed out; the message the channel
    delivered ([None] when it closed); whether the channel takes cells, and then which of the
    hops whose streams may be polled is polled first. *)
Record LegReady : Type := mkReady {
  lr_timed_out : bool;
  lr_input : option (option (res ProtoError ClientCircChanMsg));
  lr_poll : option nat }.

(** [ready_streams.next()]: polls the hops in the given order until one has a ready stream. *)
Fixpoint poll_hops (hops : list (nat * CircHop)) (st : Streams) : res ProtoError (Streams * option CircuitCmd) :=
  match hops with
  | [] => Ok (st, None)
  | (i, h) :: hops =>
      '(st, cmd) ← poll_hop i h st;
      match cmd with Some cmd => Ok (st, Some cmd) | None => poll_hops hops st end
  end.

Definition rotate {A} (n : nat) (l : list A) : list A := drop n l ++ take n l.

Definition leg_events (now : Z) (exclude : option nat) (ready : LegReady) (c : Circuit Lo Li P)
    (st : Streams) : res ProtoError (Streams * list Event) :=
  st ← hops_remove_expired now (ci_hops c) st;
  timeout ← conflux_hs_timeout c;
  let id := ci_unique_id c in
  if match timeout with Some _ => lr_timed_out ready | None => false end
  then Ok (st, [EvRemoveLeg id ConfluxHandshakeTimeout])
  else
    let input := match lr_input ready with
                 | None => []
                 | Some None => [EvRemoveLeg id ChannelClosed]
                 | Some (Some (Ok cell)) => [EvHandleCell id cell]
                 | Some (Some (Err e)) => [EvProtoViolation e]
                 | Some (Some Panic) => []
                 end in
    '(st, cmd) ← match lr_poll ready with
                 | None => Ok (st, None)
                 | Some n => poll_hops (rotate n (ready_hops exclude (ci_hops c))) st
                 end;
    Ok (st, input ++ match cmd with Some cmd => [EvRunCmd id cmd] | None => [] end).

(** The join point is polled on the first leg only, and not at all when it has to be skipped. *)
Fixpoint legs_events (now : Z) (join_point : option nat) (poll_join_point : bool)
    (ready : list LegReady) (legs : list (Circuit Lo Li P)) (st : Streams) :
    res ProtoError (Streams * list Event) :=
  match legs, ready with
  | c :: legs, rd :: ready =>
      let exclude := if poll_join_point then None else join_point in
      '(st, evs) ← leg_events now exclude rd c st;
      '(st, rest) ← legs_events now join_point false ready legs st;
      Ok (st, evs ++ rest)
  | _, _ => Ok (st, [])
  end.

Definition next_circ_event (renv : REnv) (ready : list LegReady) : R (list Event) :=
  r ← gets id;
  let s := rx_circuits r in
  skip ← lift (map_err ReactorErr (should_skip_join_point s));
  '(st, evs) ← lift (map_err ReactorErr
    (legs_events (ev_now (re_env renv)) (snd <$> primary_join_point s) (negb skip) ready (cs_legs s)
       (sh_streams (rx_shared r))));
  _ ← modify (λ r, set_tunnel (rx_circuits r, set_streams st (rx_shared r)) r);
  mret evs.

(** What [select_biased!] picks; [None] is a closed channel. *)
Inductive Input : Type :=
| InCommand (cmd : option (CtrlCmd Lo Li F))
| InControl (msg : option Control)
| InCircuits (ready : list LegReady).

Definition create_on_leg (renv : REnv) (req : X) (rng : nat → list Z) : M (MH:=MH) (F:=F) unit := λ w,
  let '(c, st, x) := create_first_hop req (ev_first_stream_id (re_env renv)) rng w.1 (sh_streams w.2) in
  ((c, set_streams st w.2), x).

Definition wait_for_create (renv : REnv) (c : Circuit Lo Li P) (input : Input) : R unit :=
  match input with
  | InCommand (Some CmdShutdown) => fail Shutdown
  | InCommand (Some _) => rerr (CircProto "Unexpected control on client circuit")
  | InControl (Some (CtlCreate req done)) =>
      rng ← rx_draw;
      ret ← catch (zoom tunnel_of set_tunnel
              (on_leg (Internal "leg disappeared?!") (ci_unique_id c) (create_on_leg renv req rng)));
      reply done (_ ← ret; Ok RepDone)
  | InControl (Some _) => rerr (CircProto "Unexpected cell on client circuit")
  | InCommand None | InControl None => fail Shutdown
  | InCircuits _ => mret tt
  end.

(** While the only leg has no hops, the reactor does nothing but wait for the first one. *)
Definition waiting_for_create (s : ConfluxSet Lo Li P) : option (Circuit Lo Li P) :=
  match cs_legs s with
  | [c] => if has_hops c then None else Some c
  | _ => None
  end.

Definition run_once (renv : REnv) (input : Input) : R unit :=
  r ← gets id;
  match cs_legs (rx_circuits r) with
  | [] => fail Shutdown
  | _ =>
      match waiting_for_create (rx_circuits r) with
      | Some c => wait_for_create renv c input
      | None =>
          _ ← try_dequeue_ooo_msgs renv;
          match input with
          | InCommand None | InControl None => fail Shutdown
          | InCommand (Some cmd) => handle_cmd renv cmd
          | InControl (Some msg) => run_events renv [EvHandleControl msg]
          | InCircuits ready =>
              evs ← next_circ_event renv ready;
              run_events renv (sort_events evs)
          end
      end
  end.
End reactor.
