(* ===== verification/Scenario.v ===== *)
(** * Scenario: a concrete tunnel

    A two-leg tunnel with stand-ins for what is outside the model (relay cryptography that leaves
    cells as they are, a relay identity that is a number, no meta-cell handler), and the inputs of a
    run of the reactor on it.  The theorems on tunnels are applied to it. *)

From S2P Require Import Prelude StateM Bytes Codec RelayMsg RelayCell Sendme RelayCrypt Cwnd Rtt.
From S2P Require Import Vegas Congestion FlowCtrl PollSet StreamMap ConfluxMsg HopSettings.
From S2P Require Import CircHop Circuit ConfluxSet Reactor.

(** ** Stand-ins *)

Inductive PlainLayer : Type := plain_layer.
Inductive NoHandler : Type := .
Inductive AcceptAll : Type := accept_all.
Inductive RelayNo : Type := relay_no (n : Z).

Definition plain_tag : SendmeTag := SendmeTag_from16 (replicate 16 7).

#[export] Instance plain_out : OutboundClientLayer PlainLayer := {
  originate_for _ body l := Ok (l, body, plain_tag);
  encrypt_outbound _ body l := Ok (l, body) }.
#[export] Instance plain_in : InboundClientLayer PlainLayer :=
  λ _ body l, Ok (l, body, Some plain_tag).
#[export] Instance relay_no_ids : HasRelayIds RelayNo := {
  ed_identity r := let '(relay_no n) := r in Some [n];
  rsa_identity _ := None }.
#[export] Instance no_handler : MetaCellHandler NoHandler PlainLayer PlainLayer RelayNo := {
  expected_hop h := match h with end;
  meta_handle_msg _ _ h _ _ := match h with end }.
#[export] Instance accept_all_filter : IncomingStreamRequestFilter AcceptAll := λ _ _ f, Ok (f, Accept).
#[export] Instance no_builder : CircuitBuilder NoHandler NoHandler PlainLayer PlainLayer RelayNo := {
  create_first_hop x _ _ _ _ := match x with end;
  extend_begin x _ _ := match x with end }.

(** ** The tunnel *)

Definition hops_of (map : nat) : list CircHop :=
  match CircHop_new 0 map settings_example with Ok h => [h] | _ => [] end.

(** A circuit whose one hop is the relay 7. *)
Definition circuit_of (id map : nat) : Circuit PlainLayer PlainLayer RelayNo :=
  mkCircuit id [plain_layer] [plain_layer] (hops_of map) [Relay (relay_no 7)] [None] None [].

Definition nonce_of : list Z := replicate 32 9.

Definition reactor0 : Reactor PlainLayer PlainLayer RelayNo NoHandler AcceptAll :=
  mkReactor (ConfluxSet_new nonce_of (circuit_of 1 0))
    (mkShared (<[0%nat := StreamMap_new 100]> (<[1%nat := StreamMap_new 200]> {[2%nat := StreamMap_new 300]})) 0 (mkHistory [] [] [])
       (mkHandlers None None) (λ _ n, replicate n 1) 0)
    None [] [].

(** ** A run *)

Definition renv_at (now : Z) : REnv :=
  mkREnv (mkEnv now (λ _, 0) 300) (λ _, mkSignals false 0) (λ _, 1000000000) true 0.

Definition cell_of (sid : option Z) (msg : AnyRelayMsg) : list Z :=
  match encode FV1 (λ n, replicate n 1) (mkOuter sid msg) with Ok body => body | _ => [] end.

Definition TunnelInput : Type :=
  Input (Lo:=PlainLayer) (Li:=PlainLayer) (P:=RelayNo) (MH:=NoHandler) (F:=AcceptAll) (X:=NoHandler).

(** A cell arrives on the first leg, or on the second. *)
Definition ready_with (cell : option (list Z)) : LegReady :=
  mkReady false ((λ b, Some (Ok (ChRelay b))) <$> cell) None.
Definition arrives (leg1 leg2 : option (list Z)) : TunnelInput :=
  InCircuits [ready_with leg1; ready_with leg2].

Definition linked : list Z := cell_of None (AConfluxLinked (Link_new (V1LinkPayload_new nonce_of 0))).
Definition switch (n : Z) : list Z := cell_of None (AConfluxSwitch (mkConfluxSwitch n)).
Definition connected : list Z := cell_of (Some 100) (AConnected (mkConnected None)).
Definition data (b : Z) : list Z := cell_of (Some 100) (AData (mkData [b])).

(** The user links a second circuit, both legs complete the handshake, and a stream is opened. *)
Definition opening : list (Z * TunnelInput) :=
  [(1000, InControl (Some (CtlLinkCircuits [circuit_of 2 1] 1)));
   (2000, arrives (Some linked) (Some linked));
   (3000, InControl (Some (CtlBeginStream LastHop (ABegin (mkBegin [104; 105] 80 0))
             (OutboundData (mkDataChecker true)) 2)))].

(** The relay answers on the first leg, and sends two messages, the second one over the second
    leg, where it arrives before the first one. *)
Definition out_of_order : list (Z * TunnelInput) :=
  [(4000, arrives (Some connected) None);
   (5000, arrives None (Some (switch 2)));
   (6000, arrives None (Some (data 22)));
   (7000, arrives (Some (data 21)) None)].

Definition run_inputs (inputs : list (Z * TunnelInput)) : R (Lo:=PlainLayer) (Li:=PlainLayer) unit :=
  for_each (λ '(now, input), run_once (renv_at now) input) inputs.
