(* ===== verification/ConfluxOrder.v ===== *)
(** * ConfluxOrder: multi-path tunnels deliver in order

    The receiving side of a multi-path tunnel, over whole iterations of the reactor: whatever the
    legs deliver and the users ask for, the multiplexed messages are handed to the streams in the
    order of their sequence numbers, each once, and the rest is in the reactor's buffer. *)

From S2P Require Import Prelude StateM Bytes Codec RelayMsg RelayCell Sendme RelayCrypt Cwnd Rtt.
From S2P Require Import Vegas Congestion FlowCtrl PollSet StreamMap ConfluxMsg HopSettings.
From S2P Require Import CircHop Circuit CircuitFrame ConfluxSet Reactor Scenario.

(** The part of the shared state that the receiving side is about. *)
Definition recv_part {MH F} (sh : Shared MH F) : Z * list (Z * UnparsedRelayMsg) * list UnparsedRelayMsg :=
  (sh_last_seq_delivered sh, hi_numbered (sh_history sh), hi_delivered (sh_history sh)).

Arguments recv_part : simpl never.

Definition numbered {MH F} (sh : Shared MH F) : list (Z * UnparsedRelayMsg) := hi_numbered (sh_history sh).

(** A circuit keeps its identity, and stays in a conflux tunnel when it is in one. *)
Definition leg_le {Lo Li P} (c c' : Circuit Lo Li P) : Prop :=
  ci_unique_id c' = ci_unique_id c ∧ (is_Some (ci_conflux_handler c) → is_Some (ci_conflux_handler c')).

#[export] Instance leg_le_preorder Lo Li P : PreOrder (@leg_le Lo Li P).
Proof. split; [done|]. intros c1 c2 c3 [H1 H2] [H3 H4]. split; [congruence|auto]. Qed.

Lemma Forall2_insert_leg {Lo Li P} (legs : list (Circuit Lo Li P)) i c c' :
  legs !! i = Some c → leg_le c c' → Forall2 leg_le legs (<[i := c']> legs).
Proof.
  intros Hc Hle. apply Forall2_same_length_lookup. split; [by rewrite length_insert|].
  intros j x y Hx Hy. destruct (decide (i = j)) as [->|Hne].
  - rewrite list_lookup_insert_eq in Hy by (by eapply lookup_lt_Some). by simplify_eq.
  - rewrite list_lookup_insert_ne in Hy by done. by simplify_eq.
Qed.

Section circuit_frame.
Context {Lo Li P MH F : Type}.
Context `{!OutboundClientLayer Lo, !InboundClientLayer Li, !MetaCellHandler MH Lo Li P}.
Context `{!MetaFrame MH Lo Li P, !IncomingStreamRequestFilter F}.
#[local] Abbreviation W := (World (Lo:=Lo) (Li:=Li) (P:=P) (MH:=MH) (F:=F)).
#[local] Abbreviation CM := (M (Lo:=Lo) (Li:=Li) (P:=P) (MH:=MH) (F:=F)).

Definition kept (w w' : W) : Prop := leg_le w.1 w'.1 ∧ recv_part w'.2 = recv_part w.2.

#[export] Instance kept_preorder : PreOrder kept.
Proof.
  split; [done|]. intros w1 w2 w3 [H1 H2] [H3 H4]. split; [by etrans|congruence].
Qed.

#[export] Instance kept_quiet : Quiet kept.
Proof.
  split; [apply _|]. intros w w' (Hid & Hc & Hl & Hh). split; [split; [done|by rewrite Hc]|].
  unfold recv_part. by rewrite Hl, Hh.
Qed.

#[export] Instance kept_if_conflux f : Keeps kept (if_conflux f : CM unit).
Proof.
  intros [c sh]. unfold if_conflux. destruct (ci_conflux_handler c) as [h|] eqn:Hh; [|done].
  by destruct (f h).
Qed.

#[export] Instance kept_note_sent hop cell : Keeps kept (note_sent hop cell).
Proof.
  intros [c sh]. unfold note_sent. destruct (ci_conflux_handler c) as [h|] eqn:Hh; [|done].
  by destruct (note_cell_sent _ h).
Qed.

#[export] Instance kept_conflux_msg env hop msg : Keeps kept (circ_handle_conflux_msg env hop msg).
Proof.
  intros [c sh]. unfold circ_handle_conflux_msg. destruct (ci_conflux_handler c) as [h|] eqn:Hh; [|done].
  by destruct (handle_conflux_msg _ _ _ _ _) as [[h' cmd]|e|].
Qed.
End circuit_frame.

(** ** Receiving on a circuit *)

(** The [i]-th message delivered has number [i + 1]. *)
Definition delivered_pairs (l : list UnparsedRelayMsg) : list (Z * UnparsedRelayMsg) :=
  imap (λ i m, (Z.of_nat i + 1, m)) l.

Lemma elem_of_pairs n m l :
  (n, m) ∈ delivered_pairs l ↔ ∃ i, l !! i = Some m ∧ n = Z.of_nat i + 1.
Proof.
  unfold delivered_pairs. rewrite elem_of_lookup_imap. split.
  - intros (i & y & [= -> ->] & Hy). eauto.
  - intros (i & Hi & ->). eauto.
Qed.

Lemma pairs_fst l : (delivered_pairs l).*1 = (λ i, Z.of_nat i + 1) <$> seq 0 (length l).
Proof.
  unfold delivered_pairs. rewrite fmap_imap. apply list_eq. intros i. rewrite list_lookup_imap, list_lookup_fmap.
  destruct (l !! i) eqn:Hi; simpl.
  - apply lookup_lt_Some in Hi. rewrite lookup_seq_lt by done. done.
  - apply lookup_ge_None in Hi. by rewrite lookup_seq_ge.
Qed.

Lemma pairs_length l : length (delivered_pairs l) = length l.
Proof. apply length_imap. Qed.

(** When all the messages of a sequence have arrived and the first of those that wait is not due,
    none waits, and they were delivered in their order. *)
Lemma pairs_complete msgs d waiting :
  delivered_pairs msgs ≡ₚ delivered_pairs d ++ waiting →
  (waiting ≠ [] → ∃ q, q ∈ waiting ∧ (∀ q', q' ∈ waiting → q.1 ≤ q'.1) ∧ q.1 ≠ Z.of_nat (length d) + 1) →
  waiting = [] ∧ msgs = d.
Proof.
  intros Hp Hmin.
  assert (∀ i m, d !! i = Some m → msgs !! i = Some m) as Hd.
  { intros i m Hi. assert ((Z.of_nat i + 1, m) ∈ delivered_pairs msgs) as Hin.
    { rewrite Hp. apply elem_of_app. left. apply elem_of_pairs. eauto. }
    apply elem_of_pairs in Hin as (j & Hj & Heq). by replace i with j by lia. }
  assert (length d ≤ length msgs)%nat as Hle.
  { apply Permutation_length in Hp. rewrite length_app, !pairs_length in Hp. lia. }
  assert (length msgs = length d) as Hlen.
  { destruct (decide (length msgs = length d)) as [|Hne]; [done|exfalso].
    destruct (lookup_lt_is_Some_2 msgs (length d)) as [m Hm]; [lia|].
    assert ((Z.of_nat (length d) + 1, m) ∈ waiting) as Hw.
    { assert ((Z.of_nat (length d) + 1, m) ∈ delivered_pairs msgs) as Hin by (apply elem_of_pairs; eauto).
      rewrite Hp in Hin. apply elem_of_app in Hin as [Hin|]; [|done].
      apply elem_of_pairs in Hin as (j & Hj%lookup_lt_Some & Heq). lia. }
    destruct Hmin as ([n x] & Hq & Hall & Hne'); [by intros ->; apply not_elem_of_nil in Hw|].
    pose proof (Hall _ Hw) as Hn. simpl in *.
    assert (NoDup (delivered_pairs d ++ waiting).*1) as Hnd.
    { rewrite <-Hp, pairs_fst. apply NoDup_fmap_2_strong; [intros; lia|apply NoDup_seq]. }
    assert ((n, x) ∈ delivered_pairs msgs) as Hin by (rewrite Hp; apply elem_of_app; by right).
    apply elem_of_pairs in Hin as (j & Hj & ->).
    rewrite fmap_app in Hnd. apply NoDup_app in Hnd as (_ & Hdis & _).
    apply (Hdis (Z.of_nat j + 1)); [|apply list_elem_of_fmap; by exists (Z.of_nat j + 1, x)].
    rewrite pairs_fst. apply list_elem_of_fmap. exists j. split; [done|]. apply elem_of_seq. lia. }
  split; [|apply list_eq_same_length with (length d); [done..|]].
  - apply nil_length_inv. apply Permutation_length in Hp. rewrite length_app, !pairs_length in Hp. lia.
  - intros i x y _ Hx Hy. rewrite (Hd _ _ Hy) in Hx. congruence.
Qed.

(** What has arrived is what was delivered, numbered from one without a gap, and what waits. *)
Definition accounted (part : Z * list (Z * UnparsedRelayMsg) * list UnparsedRelayMsg)
    (waiting : list (Z * UnparsedRelayMsg)) : Prop :=
  let '(lsd, numbered, delivered) := part in
  lsd = Z.of_nat (length delivered) ∧ lsd ≤ u64_max ∧
  numbered ≡ₚ delivered_pairs delivered ++ waiting ∧ Forall (λ q, counts q.2 = true) waiting.

Arguments accounted : simpl never.

(** The messages that the commands of a circuit ask the reactor to buffer. *)
Definition to_buffer (cmd : CircuitCmd) : list (Z * UnparsedRelayMsg) :=
  match cmd with CmdEnqueue m => [(oo_seqno m, oo_msg m)] | _ => [] end.

Definition buffers (cmds : list CircuitCmd) : list (Z * UnparsedRelayMsg) := cmds ≫= to_buffer.

Definition opt_buffer (cmd : option CircuitCmd) : list (Z * UnparsedRelayMsg) :=
  match cmd with Some cmd => to_buffer cmd | None => [] end.

(** What handling a message in order can ask for. *)
Definition plain_cmd (cmd : option CircuitCmd) : Prop :=
  match cmd with None | Some (CmdSend _) | Some CmdCleanShutdown => True | _ => False end.

Lemma plain_no_buffer cmd : plain_cmd cmd → opt_buffer cmd = [].
Proof. by destruct cmd as [[]|]. Qed.

Lemma counts_cmd msg cmd :
  unparsed_cmd (E:=ProtoError) msg = Ok cmd → counts msg = cmd_counts_towards_seqno cmd.
Proof. unfold counts. by intros ->. Qed.

Lemma inc_delivered_ok msg lsd n :
  inc_last_seq_delivered msg lsd = Ok n →
  n = if counts msg then wrap u64_max (lsd + 1) else lsd.
Proof.
  unfold inc_last_seq_delivered. intros (cmd & Hc & Hn)%bind_ok.
  rewrite (counts_cmd _ _ Hc). by injection Hn as <-.
Qed.

Lemma is_msg_in_order_ok lsd (h : ClientConfluxMsgHandler) b :
  is_msg_in_order lsd h = Ok b →
  lsd + 1 ≤ u64_max ∧ (b = true ∧ last_seq_recv h = lsd + 1 ∨ b = false ∧ lsd + 1 < last_seq_recv h).
Proof.
  unfold is_msg_in_order. intros (next & Hn & Hb)%bind_ok. apply uadd_inv in Hn as [-> Hle].
  split; [done|]. destruct (Z.compare_spec (last_seq_recv h) (lsd + 1)); simplify_eq; lia || auto.
Qed.

(** A message in order is the next one; any other message of the numbering waits for its turn. *)
Lemma action_for_msg_ok hop ctw sid msg lsd (h h' : ClientConfluxMsgHandler) act :
  action_for_msg hop ctw sid msg lsd h = Ok (h', act) →
  counts msg = false ∧ h' = h ∧ act = Deliver msg ∨
  counts msg = true ∧ lsd + 1 ≤ u64_max ∧ last_seq_recv h' = last_seq_recv h + 1 ∧
    (act = Deliver msg ∧ last_seq_recv h' = lsd + 1 ∨
     act = Enqueue (mkOoo (last_seq_recv h') hop ctw sid msg) ∧ lsd + 1 < last_seq_recv h').
Proof.
  unfold action_for_msg. intros (cmd & Hc & Ha)%bind_ok. rewrite (counts_cmd _ _ Hc).
  destruct (cmd_counts_towards_seqno cmd); simpl in Ha; [right|left; naive_solver].
  apply bind_ok in Ha as (h1 & Hi & Ha). apply bind_ok in Ha as (b & Hb & Ha).
  unfold inc_last_seq_recv in Hi. simpl in Hi. unfold client_inc_last_seq_recv in Hi.
  apply bind_ok in Hi as (seq & Hseq & Hi). apply bind_ok in Hi as (n & _ & Hi).
  apply uadd_inv in Hseq as [-> _]. injection Hi as <-.
  apply is_msg_in_order_ok in Hb as [Hmax Hor].
  destruct Hor as [[-> Hs]|[-> Hs]]; injection Ha as <- <-; auto 10.
Qed.

Lemma delivered_pairs_snoc l m :
  delivered_pairs (l ++ [m]) = delivered_pairs l ++ [(Z.of_nat (length l) + 1, m)].
Proof. unfold delivered_pairs. rewrite imap_app. simpl. by rewrite Nat.add_0_r. Qed.

(** Delivering the message whose turn it is. *)
Lemma accounted_deliver lsd numbered delivered msg waiting :
  accounted (lsd, numbered, delivered) ((lsd + 1, msg) :: waiting) → lsd + 1 ≤ u64_max →
  accounted (wrap u64_max (lsd + 1), numbered, delivered ++ [msg]) waiting.
Proof.
  intros (-> & _ & Hp & [_ Hw]%Forall_cons) Hmax. unfold accounted.
  rewrite length_app. simpl. unfold wrap. rewrite Z.mod_small by lia.
  split_and!; [lia|lia| |done]. rewrite Hp, delivered_pairs_snoc. by rewrite <-app_assoc.
Qed.

Lemma accounted_perm part w w' : w ≡ₚ w' → accounted part w → accounted part w'.
Proof.
  destruct part as [[lsd n] d]. intros Hw (H1 & H2 & H3 & H4). split_and!; [done..| |].
  - by rewrite <-Hw.
  - by rewrite <-Hw.
Qed.

Section circuit_recv.
Context {Lo Li P MH F : Type}.
Context `{!OutboundClientLayer Lo, !InboundClientLayer Li, !MetaCellHandler MH Lo Li P}.
Context `{!MetaFrame MH Lo Li P, !IncomingStreamRequestFilter F}.
#[local] Abbreviation W := (World (Lo:=Lo) (Li:=Li) (P:=P) (MH:=MH) (F:=F)).
#[local] Abbreviation CM := (M (Lo:=Lo) (Li:=Li) (P:=P) (MH:=MH) (F:=F)).
Implicit Types w : W.
#[local] Arguments note_delivered : simpl never.
#[local] Arguments conflux_action : simpl never.

Lemma incoming_plain env msg sid hop leg w w' cmd :
  handle_incoming_stream_request env msg sid hop leg w = (w', Ok cmd) → plain_cmd cmd.
Proof.
  unfold handle_incoming_stream_request. intros H. st_inv.
  destruct (incoming_stream_req_handler _); [|by st_inv]. st_inv.
  destruct (negb _); [by st_inv|]. st_inv. case_match. cbv zeta in H. st_inv.
  destruct (match _ with StatusOpen => _ | _ => _ end); [by st_inv|]. st_inv. case_match. st_inv.
  case_match; st_inv; try done. case_match; by st_inv.
Qed.

Lemma counted_plain env hopnum leg ctw sid msg w w' cmd :
  handle_counted env hopnum leg ctw sid msg w = (w', Ok cmd) → plain_cmd cmd.
Proof.
  unfold handle_counted. cbv zeta. intros H. st_inv. case_match; [by eapply incoming_plain|].
  st_inv. case_match; by st_inv.
Qed.

(** Handling a message in order: the numbering advances exactly when the message counts. *)
Lemma in_order_ok env hopnum leg ctw sid msg w w' cmd waiting :
  handle_in_order_relay_msg env hopnum leg ctw sid msg w = (w', Ok cmd) →
  is_Some (ci_conflux_handler w.1) →
  accounted (recv_part w.2)
    (if counts msg then (sh_last_seq_delivered w.2 + 1, msg) :: waiting else waiting) →
  (counts msg = true → sh_last_seq_delivered w.2 + 1 ≤ u64_max) →
  leg_le w.1 w'.1 ∧ plain_cmd cmd ∧ accounted (recv_part w'.2) waiting ∧ numbered w'.2 = numbered w.2.
Proof.
  rewrite in_order_eq. destruct w as [c sh]. intros H [h Hh] Hacc Hmax. st_inv. simpl in *.
  match goal with H : note_delivered _ _ = _ |- _ => rename H into Hn end.
  unfold note_delivered in Hn. rewrite Hh in Hn.
  destruct (inc_last_seq_delivered _ _) as [n|e|] eqn:Hi; [|done..]. apply inc_delivered_ok in Hi.
  injection Hn as <-. pose proof (keeps_ok (R:=kept) _ _ _ _ H) as [Hle Hpart]. simpl in Hle, Hpart.
  split; [done|]. split; [by eapply counted_plain|]. rewrite Hpart. unfold recv_part in *. simpl.
  unfold numbered, log_delivered in *. injection Hpart as _ -> _. subst n.
  destruct (counts msg); [|done]. split; [apply accounted_deliver; auto|done].
Qed.

(** A circuit that is not in a conflux tunnel numbers nothing. *)
Lemma in_order_plain env hopnum leg ctw sid msg w w' cmd :
  handle_in_order_relay_msg env hopnum leg ctw sid msg w = (w', Ok cmd) →
  ci_conflux_handler w.1 = None →
  leg_le w.1 w'.1 ∧ plain_cmd cmd ∧ recv_part w'.2 = recv_part w.2.
Proof.
  rewrite in_order_eq. destruct w as [c sh]. intros H Hh. st_inv. simpl in *.
  match goal with H : note_delivered _ _ = _ |- _ => rename H into Hn end.
  unfold note_delivered in Hn. rewrite Hh in Hn. injection Hn as <-.
  pose proof (keeps_ok (R:=kept) _ _ _ _ H) as [Hle Hpart]. split_and!; [done|by eapply counted_plain|done].
Qed.

Lemma meta_no_buffer env hopnum msg w w' cmd :
  handle_meta_cell env hopnum msg w = (w', Ok cmd) → opt_buffer cmd = [].
Proof.
  unfold handle_meta_cell. intros H. st_inv.
  case_match; [by st_inv|]. case_match; [by st_inv|]. case_match; [by st_inv|].
  case_match; [st_inv; by destruct x1|]. st_inv. case_match; [by st_inv|]. st_inv.
  case_match; [|by st_inv]. case_decide; [|by st_inv]. st_inv. unfold run_meta_handler in H.
  repeat case_match; by simplify_eq.
Qed.

(** One message: what has arrived stays accounted for, with the message to buffer, if any. *)
Lemma relay_msg_ok env hopnum leg ctw msg w w' cmd waiting :
  handle_relay_msg env hopnum leg ctw msg w = (w', Ok cmd) →
  accounted (recv_part w.2) waiting →
  leg_le w.1 w'.1 ∧ accounted (recv_part w'.2) (waiting ++ opt_buffer cmd) ∧
  (opt_buffer cmd ≠ [] → is_Some (ci_conflux_handler w'.1)).
Proof.
  unfold handle_relay_msg. intros H Hacc. st_inv. case_match; st_inv; last first.
  { pose proof (keeps_ok (R:=kept) _ _ _ _ H) as [Hle ->]. rewrite (meta_no_buffer _ _ _ _ _ _ H), app_nil_r. done. }
  match goal with H : conflux_action _ _ _ _ _ = _ |- _ => rename H into Ha end.
  destruct w as [c sh]. unfold conflux_action in Ha. simpl in *.
  destruct (ci_conflux_handler c) as [h|] eqn:Hh; last first.
  { injection Ha as <- <-. apply in_order_plain in H as (Hle & Hb%plain_no_buffer & ->); [|done].
    by rewrite Hb, app_nil_r. }
  destruct (action_for_msg _ _ _ _ _ _) as [[h' act]|e|] eqn:Hact; [|done..]. injection Ha as <- <-.
  apply action_for_msg_ok in Hact as [(Hc & -> & ->)|(Hc & Hmax & Hseq & Hor)].
  - destruct (in_order_ok _ _ _ _ _ _ _ _ _ waiting H) as (Hle & Hb%plain_no_buffer & Hacc' & _); simpl; [eauto| |by rewrite Hc|].
    { unfold recv_part, log_numbered. rewrite Hc. exact Hacc. }
    rewrite Hb, app_nil_r. destruct Hle as [Hl1 Hl2]. split; [split; [done|auto]|done].
  - destruct Hor as [[-> Hs]|[-> Hs]].
    + destruct (in_order_ok _ _ _ _ _ _ _ _ _ waiting H) as (Hle & Hb%plain_no_buffer & Hacc' & _); simpl; [eauto| |by intros _|].
      { unfold recv_part, log_numbered. rewrite Hc. simpl. destruct Hacc as (Ha1 & Ha2 & Ha3 & Ha4).
        rewrite <-Hs. split_and!; [done..| |by constructor].
        rewrite Ha3, <-app_assoc. f_equiv. by rewrite <-Permutation_cons_append. }
      rewrite Hb, app_nil_r. destruct Hle as [Hl1 Hl2]. split; [split; [done|auto]|done].
    + st_inv. simpl. split; [split; [done|by eauto]|]. split; [|eauto].
      unfold log_numbered, recv_part. rewrite Hc. simpl. destruct Hacc as (Ha1 & Ha2 & Ha3 & Ha4).
      split_and!; [done..| |apply Forall_app; by split; [|apply Forall_singleton]].
      by rewrite Ha3, <-app_assoc.
Qed.

Lemma buffers_snoc cmds cmd : buffers (cmds ++ [cmd]) = buffers cmds ++ to_buffer cmd.
Proof. unfold buffers. rewrite bind_app. simpl. by rewrite app_nil_r. Qed.

Lemma relay_msgs_ok env hopnum leg ctw msgs cmds w w' cmds' waiting :
  handle_relay_msgs env hopnum leg ctw msgs cmds w = (w', Ok cmds') →
  accounted (recv_part w.2) (waiting ++ buffers cmds) →
  (buffers cmds ≠ [] → is_Some (ci_conflux_handler w.1)) →
  leg_le w.1 w'.1 ∧ accounted (recv_part w'.2) (waiting ++ buffers cmds') ∧
  (buffers cmds' ≠ [] → is_Some (ci_conflux_handler w'.1)).
Proof.
  revert w cmds. induction msgs as [|msg msgs IH]; intros w cmds H Hacc Hleg; simpl in H; st_inv; [done|].
  match goal with H : handle_relay_msg _ _ _ _ _ _ = _ |- _ => rename H into Hm end.
  destruct (relay_msg_ok _ _ _ _ _ _ _ _ _ Hm Hacc) as ([Hid Hle] & Hacc1 & Hb).
  assert (∀ cmd, x0 = Some cmd →
    accounted (recv_part x.2) (waiting ++ buffers (cmds ++ [cmd])) ∧
    (buffers (cmds ++ [cmd]) ≠ [] → is_Some (ci_conflux_handler x.1))) as Hcmd.
  { intros cmd ->. rewrite buffers_snoc. rewrite <-app_assoc in Hacc1.
    split; [done|]. intros Hne. destruct (to_buffer cmd) eqn:He; [|apply Hb; simpl; by rewrite He].
    apply Hle, Hleg. intros Hn. by rewrite Hn in Hne. }
  destruct x0 as [cmd|]; simpl in Hacc1.
  - destruct (Hcmd cmd eq_refl) as [Hacc2 Hb2].
    destruct cmd; try (destruct (IH _ _ H Hacc2 Hb2) as ([??] & ? & ?); split; [split; [congruence|auto]|done]).
    st_inv. split; [by split|done].
  - rewrite app_nil_r in Hacc1.
    destruct (IH _ _ H Hacc1) as ([??] & ? & ?); [auto|]. split; [split; [congruence|auto]|done].
Qed.

Lemma relay_cell_ok env leg cell w w' cmds waiting :
  handle_cell env leg cell w = (w', Ok cmds) → accounted (recv_part w.2) waiting →
  leg_le w.1 w'.1 ∧ accounted (recv_part w'.2) (waiting ++ buffers cmds) ∧
  (buffers cmds ≠ [] → is_Some (ci_conflux_handler w'.1)).
Proof.
  destruct cell as [body|reason]; simpl; intros H Hacc; last first.
  { st_inv. simpl. by rewrite app_nil_r. }
  unfold handle_relay_cell in H. st_inv. case_match. case_match. st_inv.
  match goal with H : handle_relay_msgs _ _ _ _ _ _ _ = _ |- _ => rename H into Hm end.
  match type of Hm with _ ?cmds0 ?w1 = _ =>
    assert (kept w w1 ∧ buffers cmds0 = []) as [[[Hid Hle] Hpart] Hnil] end.
  { clear Hm. split; [|destruct x10; by st_inv].
    keeps_chain. }
  destruct (relay_msgs_ok _ _ _ _ _ _ _ _ _ waiting Hm) as ([Hid' Hle'] & Hacc' & Hb).
  { rewrite Hnil, app_nil_r. by rewrite Hpart. }
  { by rewrite Hnil. }
  split; [split; [congruence|auto]|done].
Qed.
End circuit_recv.

(** ** The tunnel and the reactor around it *)

Section reactor_frame.
Context {Lo Li P MH F X : Type}.
Context `{!OutboundClientLayer Lo, !InboundClientLayer Li, !MetaCellHandler MH Lo Li P}.
Context `{!MetaFrame MH Lo Li P, !IncomingStreamRequestFilter F, !HasRelayIds P}.
Context `{!CircuitBuilder X MH Lo Li P}.
#[local] Abbreviation CM := (M (Lo:=Lo) (Li:=Li) (P:=P) (MH:=MH) (F:=F)).
#[local] Abbreviation Tun := (Tunnel (Lo:=Lo) (Li:=Li) (P:=P) (MH:=MH) (F:=F)).
#[local] Abbreviation TM := (T (Lo:=Lo) (Li:=Li) (P:=P) (MH:=MH) (F:=F)).
#[local] Abbreviation RX := (Reactor Lo Li P MH F).
#[local] Abbreviation RM := (R (Lo:=Lo) (Li:=Li) (P:=P) (MH:=MH) (F:=F)).

Definition kept_t (t t' : Tun) : Prop :=
  Forall2 leg_le (cs_legs t.1) (cs_legs t'.1) ∧ recv_part t'.2 = recv_part t.2.

#[export] Instance kept_t_preorder : PreOrder kept_t.
Proof.
  split; [by intros t|]. intros t1 t2 t3 [H1 H2] [H3 H4]. split; [by etrans|congruence].
Qed.

#[export] Instance keeps_on_leg {A} e id (m : CM A) : Keeps kept m → Keeps kept_t (on_leg e id m).
Proof.
  intros Hm [s sh]. unfold on_leg. destruct (position id (cs_legs s)) as [i|]; [|done].
  destruct (cs_legs s !! i) as [c|] eqn:Hc; [|done]. specialize (Hm (c, sh)).
  destruct (m (c, sh)) as [[c' sh'] r]. destruct Hm as [Hle Hp]. split; [|done].
  by eapply Forall2_insert_leg.
Qed.

#[export] Instance keeps_on_primary {A} (m : CM A) : Keeps kept m → Keeps kept_t (on_primary m).
Proof.
  intros Hm. unfold on_primary. apply keeps_bind; [apply _|intros s]. destruct (cs_legs s); apply _.
Qed.

#[export] Instance keeps_primary_seq : Keeps kept_t primary_last_seq_sent.
Proof. unfold primary_last_seq_sent. apply _. Qed.

#[export] Instance keeps_due : Keeps kept_t update_primary_due.
Proof.
  intros [s sh]. unfold update_primary_due, should_update_primary_leg, maybe_select_init_primary. simpl.
  destruct (negb _); [|done]. by destruct (min_init_rtt _) as [[??]|].
Qed.

#[export] Instance keeps_update_primary : Keeps kept_t maybe_update_primary_leg.
Proof.
  unfold maybe_update_primary_leg. apply keeps_bind; [apply _|intros s].
  destruct (cs_join_point s) as [jp|]; [|apply _]. apply keeps_bind; [apply _|intros u].
  apply keeps_if; [apply _|]. apply keeps_bind; [apply _|intros s'].
  apply keeps_bind; [apply _|intros [new|]]; [|apply _]. apply keeps_if; [apply _|].
  apply keeps_bind; [apply _|intros prev]. apply keeps_bind; [by apply keeps_modify|intros []].
  do 3 (apply keeps_bind; [apply _|intros ?]). apply keeps_bind; [|apply _].
  apply keeps_on_primary. intros [c sh]. unfold zoom_res, circ_set_last_seq_sent. simpl.
  by destruct (ci_conflux_handler c).
Qed.

#[export] Instance keeps_send_on_leg now msg leg : Keeps kept_t (send_relay_cell_on_leg now msg leg).
Proof.
  unfold send_relay_cell_on_leg. apply keeps_bind; [apply _|intros s].
  apply keeps_bind; [|apply _]. destruct (cs_join_point s); [|apply _].
  apply keeps_bind; [apply _|intros hop]. apply keeps_if; [|apply _]. apply keeps_if; [apply _|].
  apply keeps_bind; [apply _|intros cell]. apply keeps_bind; [destruct cell|]; apply _.
Qed.

#[export] Instance keeps_link_legs now jp i n : Keeps kept_t (link_legs now jp i n).
Proof.
  revert i. induction n as [|n IH]; intros i; [apply _|]. simpl.
  apply keeps_bind; [apply _|intros s]. apply keeps_bind; [|apply _].
  destruct (cs_legs s !! i) as [c|]; [|apply _]. repeat case_match; apply _.
Qed.

#[export] Instance keeps_link_circuits now : Keeps kept_t (link_circuits now).
Proof.
  unfold link_circuits. apply keeps_bind; [apply _|intros s]. apply keeps_bind; [apply _|intros [??]]. apply _.
Qed.

(** Legs are added behind those of the set. *)
Definition legs_ext (new : list (Circuit Lo Li P)) (t t' : Tun) : Prop :=
  recv_part t'.2 = recv_part t.2 ∧
  (Forall2 leg_le (cs_legs t.1) (cs_legs t'.1) ∨ Forall2 leg_le (cs_legs t.1 ++ new) (cs_legs t'.1)).

Lemma install_handlers_le jp nonce params st (legs : list (Circuit Lo Li P)) :
  Forall2 leg_le legs (install_handlers jp nonce params st legs).1.
Proof.
  induction legs as [|c legs IH]; simpl; [done|].
  assert (leg_le c (install_handler jp nonce params st c).1) as Hc.
  { unfold install_handler. destruct (conflux_status c); [done|].
    destruct (ci_hops _ !! _); [|done]. by destruct (set_stream_map _ _ _). }
  destruct (install_handler _ _ _ _ c) as [c' [[]|e|]]; simpl in *; [|by constructor..].
  destruct (install_handlers _ _ _ _ legs) as [legs' r]. by constructor.
Qed.

#[local] Arguments legs_valid : simpl never.
#[local] Arguments install_handlers : simpl never.

Lemma add_legs_ext new t : legs_ext new t (add_legs (Lo:=Lo) new t).1.
Proof.
  destruct t as [s sh]. unfold add_legs. destruct new as [|c new]; [by split; [|left]|].
  unfold mbind, ST_mbind. cbn.
  destruct (match cs_join_point s with Some p => Ok p | None => new_join_point s end) as [jp|e|];
    [|by split; [|left]..]. cbn.
  destruct (legs_valid jp _ _); [|by split; [|left]..]. cbn.
  match goal with |- context [cwnd_params ?s] => destruct (cwnd_params s) as [params|e|] end;
    [|by split; [|right]..]. cbn. unfold install_all. cbn.
  pose proof (install_handlers_le jp (cs_nonce s) params (sh_streams sh) (cs_legs s ++ c :: new)) as Hle.
  destruct (install_handlers _ _ _ _ _) as [legs r]. split; [done|by right].
Qed.

(** The reactor keeps its legs, what was received and the buffer. *)
Definition kept_r (r r' : RX) : Prop :=
  kept_t (tunnel_of r) (tunnel_of r') ∧ rx_ooo_msgs r' = rx_ooo_msgs r.

#[export] Instance kept_r_preorder : PreOrder kept_r.
Proof.
  split; [by intros r|]. intros r1 r2 r3 [H1 H2] [H3 H4]. split; [by etrans|congruence].
Qed.

#[export] Instance keeps_zoom_tunnel {E A} (m : ST Tun E A) :
  Keeps kept_t m → Keeps kept_r (zoom tunnel_of set_tunnel m).
Proof.
  intros Hm r. unfold zoom. specialize (Hm (tunnel_of r)). destruct (m (tunnel_of r)) as [[s sh] x].
  by split.
Qed.

#[export] Instance keeps_in_tunnel {A} (m : TM A) : Keeps kept_t m → Keeps kept_r (in_tunnel m).
Proof. intros Hm. unfold in_tunnel. apply _. Qed.

Ltac keeps_tac := keeps_tac_with ltac:(first [apply keeps_in_tunnel | apply keeps_on_leg]).

#[export] Instance keeps_reply done x : Keeps kept_r (reply (Lo:=Lo) (Li:=Li) (P:=P) (MH:=MH) (F:=F) done x).
Proof. by apply keeps_modify. Qed.
#[export] Instance keeps_reply_opt done x :
  Keeps kept_r (reply_opt (Lo:=Lo) (Li:=Li) (P:=P) (MH:=MH) (F:=F) done x).
Proof. destruct done; apply _. Qed.
#[export] Instance keeps_rerr {A} e : Keeps kept_r (rerr (A:=A) e).
Proof. unfold rerr. apply _. Qed.
#[export] Instance keeps_report {A} done f (m : RM A) : Keeps kept_r m → Keeps kept_r (report done f m).
Proof. intros Hm. unfold report. keeps_tac. Qed.
#[export] Instance keeps_rx_draw : Keeps kept_r rx_draw.
Proof. intros r. by split. Qed.
#[export] Instance keeps_set_meta h : Keeps kept_r (set_meta_handler h).
Proof. unfold set_meta_handler. keeps_tac. Qed.
#[export] Instance keeps_set_incoming h : Keeps kept_r (set_incoming_stream_req_handler h).
Proof. unfold set_incoming_stream_req_handler. keeps_tac. Qed.
#[export] Instance keeps_prepare msg h : Keeps kept_r (prepare_msg_and_install_handler msg h).
Proof. unfold prepare_msg_and_install_handler. keeps_tac. Qed.
#[export] Instance keeps_outcome renv tx x : Keeps kept_r (send_conflux_outcome renv tx x).
Proof. unfold send_conflux_outcome. keeps_tac. Qed.
#[export] Instance keeps_hs_result renv x b : Keeps kept_r (note_conflux_handshake_result renv x b).
Proof. unfold note_conflux_handshake_result. keeps_tac. Qed.
#[export] Instance keeps_run_close renv hop sid behav reason done :
  Keeps kept_r (run_close_stream renv hop sid behav reason done).
Proof. unfold run_close_stream. keeps_tac. Qed.
#[export] Instance keeps_xon_on_hop now rate sid buffered hop :
  Keeps kept (send_xon_on_hop now rate sid buffered hop : CM unit).
Proof. unfold send_xon_on_hop. keeps_tac. Qed.
#[export] Instance keeps_run_xon renv rate sid hop : Keeps kept_r (run_maybe_send_xon renv rate sid hop).
Proof. unfold run_maybe_send_xon. keeps_tac. Qed.
#[export] Instance keeps_run_begin renv cell hop leg done : Keeps kept_r (run_begin_stream renv cell hop leg done).
Proof. unfold run_begin_stream. keeps_tac. Qed.
#[export] Instance keeps_begin_on_leg leg hop msg checker : Keeps kept_r (begin_on_leg leg hop msg checker).
Proof. unfold begin_on_leg. apply _. Qed.
#[export] Instance keeps_control msg : Keeps kept_r (control_handle_msg msg).
Proof.
  destruct msg; simpl; unfold control_extend, control_begin_stream, control_sendme; keeps_tac.
Qed.
#[export] Instance keeps_next_event renv ready : Keeps kept_r (next_circ_event (X:=X) renv ready).
Proof. unfold next_circ_event. keeps_tac. Qed.
End reactor_frame.

(** ** The invariant *)

(** A builder leaves the identity of the circuit and its conflux state alone. *)
Class BuilderFrame (X MH Lo Li P : Type) `{!CircuitBuilder X MH Lo Li P} : Prop :=
  create_frame (x : X) first rng (c c' : Circuit Lo Li P) st st' res :
    create_first_hop x first rng c st = (c', st', res) →
    ci_unique_id c' = ci_unique_id c ∧ ci_conflux_handler c' = ci_conflux_handler c.

Definition entry_pair (e : ConfluxHeapEntry) : Z * UnparsedRelayMsg :=
  (oo_seqno (he_msg e), oo_msg (he_msg e)).

Section invariant.
Context {Lo Li P MH F X : Type}.
Context `{!OutboundClientLayer Lo, !InboundClientLayer Li, !MetaCellHandler MH Lo Li P}.
Context `{!MetaFrame MH Lo Li P, !IncomingStreamRequestFilter F, !HasRelayIds P}.
Context `{!CircuitBuilder X MH Lo Li P, !BuilderFrame X MH Lo Li P}.
#[local] Abbreviation RX := (Reactor Lo Li P MH F).
#[local] Abbreviation RCmd := (RunOnceCmdInner Lo Li P MH).
Implicit Types (r : RX) (legs : list (Circuit Lo Li P)) (es : list ConfluxHeapEntry).

Ltac keeps_tac := keeps_tac_with ltac:(first [apply keeps_in_tunnel | apply keeps_on_leg | apply keeps_report]).

Definition leg_ids legs : list nat := map ci_unique_id legs.

(** The leg of a buffered message, while it is in the set, is in the conflux tunnel. *)
Definition entries_ok es legs : Prop :=
  ∀ e c, e ∈ es → c ∈ legs → ci_unique_id c = he_leg_id e → is_Some (ci_conflux_handler c).

(** [es] are messages that are about to be buffered. *)
Definition rx_inv r es : Prop :=
  accounted (recv_part (rx_shared r)) (map entry_pair (rx_ooo_msgs r ++ es)) ∧
  NoDup (leg_ids (cs_legs (rx_circuits r))) ∧
  entries_ok (rx_ooo_msgs r ++ es) (cs_legs (rx_circuits r)).

Lemma leg_ids_le legs legs' : Forall2 leg_le legs legs' → leg_ids legs' = leg_ids legs.
Proof. induction 1 as [|c c' ?? [Hid _] ? IH]; simpl; [done|]. by rewrite Hid, IH. Qed.

Lemma entries_ok_le es legs legs' : Forall2 leg_le legs legs' → entries_ok es legs → entries_ok es legs'.
Proof.
  intros Hle Hok e c' He Hc Hid. apply list_elem_of_lookup in Hc as [i Hi].
  destruct (Forall2_lookup_r _ _ _ _ _ Hle Hi) as (c & Hc & Hid' & Hs).
  apply Hs, (Hok e c); [done|by eapply list_elem_of_lookup_2|congruence].
Qed.

Lemma entries_ok_mono es es' legs legs' :
  es' ⊆ es → legs' ⊆ legs → entries_ok es legs → entries_ok es' legs'.
Proof. intros He Hl Hok e c ???. apply (Hok e c); auto. Qed.

Lemma rx_inv_kept r r' es : kept_r r r' → rx_inv r es → rx_inv r' es.
Proof.
  intros [[Hle Hp] Ho] (Ha & Hn & Hok). simpl in Hle, Hp. unfold rx_inv. rewrite Hp, Ho, (leg_ids_le _ _ Hle).
  split_and!; [done..|by eapply entries_ok_le].
Qed.

Lemma position_elem (id : nat) legs i c :
  position id legs = Some i → legs !! i = Some c → ci_unique_id c = id.
Proof.
  revert i. induction legs as [|c0 legs IH]; intros i Hp Hc; simpl in Hp; [done|].
  destruct (Nat.eqb_spec (ci_unique_id c0) id); [by simplify_eq/=|].
  destruct (position id legs) as [j|] eqn:Hj; simplify_eq/=. by eapply IH.
Qed.

(** A leg taken out of the set leaves the other legs as they were. *)
Lemma remove_legs (s s' : ConfluxSet Lo Li P) id c :
  remove id s = (s', Ok c) → sublist (cs_legs s') (cs_legs s).
Proof.
  unfold remove, remove_unchecked. intros H.
  destruct (position id (cs_legs s)) as [i|]; simpl in H; [|done].
  destruct (cs_legs s !! i) as [c0|] eqn:Hi; simpl in H; [|done]. injection H as <- _. simpl.
  rewrite <-(take_drop i (cs_legs s)) at 3. rewrite (drop_S _ _ _ Hi).
  apply sublist_app; [done|]. by apply sublist_cons.
Qed.

(** ** Commands *)

Definition cmd_entries (cmd : RCmd) : list ConfluxHeapEntry :=
  match cmd with REnqueue leg msg => [mkEntry leg msg] | _ => [] end.

(** Circuits to link have identifiers of their own. *)
Definition fresh_legs r es (circuits : list (Circuit Lo Li P)) : Prop :=
  NoDup (leg_ids (cs_legs (rx_circuits r) ++ circuits)) ∧
  ∀ e c, e ∈ rx_ooo_msgs r ++ es → c ∈ circuits → ci_unique_id c ≠ he_leg_id e.

Definition cmd_fresh r es (cmd : RCmd) : Prop :=
  match cmd with RLink circuits _ => fresh_legs r es circuits | _ => True end.

Lemma rx_inv_ext new r r' es :
  legs_ext new (tunnel_of r) (tunnel_of r') → rx_ooo_msgs r' = rx_ooo_msgs r →
  fresh_legs r es new → rx_inv r es → rx_inv r' es.
Proof.
  intros [Hp Hl] Ho [Hnd Hf] (Ha & Hn & Hok). simpl in Hp, Hl.
  destruct Hl as [Hl|Hl]; [apply (rx_inv_kept r); [by split|by split]|].
  unfold rx_inv. rewrite Hp, Ho, (leg_ids_le _ _ Hl). split_and!; [done..|].
  eapply entries_ok_le; [done|]. intros e c He [Hc|Hc]%elem_of_app Hid; [by eapply Hok|].
  by destruct (Hf e c He Hc).
Qed.

Lemma link_inv renv circuits answer r r' es :
  handle_link_circuits renv circuits answer r = (r', Ok tt) →
  fresh_legs r es circuits → rx_inv r es → rx_inv r' es.
Proof.
  unfold handle_link_circuits. intros H Hf Hinv. st_inv. case_match.
  { eapply rx_inv_kept; [|exact Hinv]. keeps_chain. }
  st_inv. match goal with H : catch _ _ = (?x, Ok ?y) |- _ => rename H into Hc; rename x into r1 end.
  assert (rx_inv r1 es) as Hinv1.
  { unfold catch, zoom in Hc. unfold mbind, ST_mbind in Hc.
    pose proof (add_legs_ext circuits (tunnel_of r)) as Hext.
    destruct (add_legs circuits (tunnel_of r)) as [t1 x1]. simpl in Hext.
    assert (∀ t, kept_t t1 t → rx_inv (set_tunnel t r) es) as Hlift.
    { intros t Ht. eapply (rx_inv_kept (set_tunnel t1 r)); [split; [by destruct t1, t|done]|].
      apply (rx_inv_ext circuits r); [by destruct t1|done|exact Hf|exact Hinv]. }
    destruct x1 as [[]|e|]; [|injection Hc as <- <-; by apply Hlift|done].
    pose proof (keeps (R:=kept_t) (m:=link_circuits (ev_now (re_env renv))) t1) as Hk.
    destruct (link_circuits _ t1) as [t2 x2]. simpl in Hk.
    destruct x2 as [[]|e|]; [| |done]; injection Hc as <- <-; by apply Hlift. }
  eapply rx_inv_kept; [|exact Hinv1]. case_match; [|keeps_chain|].
  - apply st_modify_ok in H as ->. by split.
  - apply st_modify_ok in H as ->. by split.
Qed.

Lemma remove_inv renv leg reason r r' es :
  run_remove_leg renv leg reason r = (r', Ok tt) → rx_inv r es → rx_inv r' es.
Proof.
  unfold run_remove_leg. intros H Hinv. st_inv.
  match goal with H : remove_from_set _ _ = (?x, Ok ?y) |- _ => rename H into Hr; rename x into r1 end.
  assert (rx_inv r1 es) as Hinv1.
  { unfold remove_from_set in Hr. destruct (remove leg (rx_circuits r)) as [s' x'] eqn:Hrm.
    injection Hr as <- ->. apply remove_legs in Hrm. destruct Hinv as (Ha & Hn & Hok).
    split_and!; simpl; [done| |].
    - eapply sublist_NoDup; [exact Hn|]. by apply fmap_sublist.
    - eapply entries_ok_mono; [..|exact Hok]; [done|]. intros c Hc. by eapply elem_of_sublist. }
  eapply rx_inv_kept; [|exact Hinv1]. destruct (is_conflux_pending _); [|st_inv; reflexivity].
  match type of H with ?m _ = _ => assert (Keeps kept_r m) by (keeps_tac) end. keeps_chain.
Qed.

Lemma single_inv renv cmd r r' es :
  handle_single_run_once_cmd renv cmd r = (r', Ok tt) → cmd_fresh r es cmd →
  rx_inv r (cmd_entries cmd ++ es) → rx_inv r' es.
Proof.
  intros H Hf Hinv. destruct cmd; simpl in H, Hf, Hinv;
    try (eapply rx_inv_kept; [|exact Hinv];
         match type of H with ?m _ = _ => assert (Keeps kept_r m) by keeps_tac end; keeps_chain).
  - by eapply remove_inv.
  - by eapply link_inv.
  - apply st_modify_ok in H as ->. destruct Hinv as (Ha & Hn & Hok). split_and!; simpl; [|done|].
    + eapply accounted_perm; [|exact Ha]. rewrite !map_app. simpl. by rewrite Permutation_middle.
    + eapply entries_ok_mono; [| |exact Hok]; [|done]. intros e.
      rewrite !elem_of_cons, !elem_of_app, !elem_of_cons. tauto.
Qed.

(** The entries that the commands of a circuit ask to buffer. *)
Definition circ_entries (leg : nat) (cmds : list CircuitCmd) : list ConfluxHeapEntry :=
  cmds ≫= λ cmd, cmd_entries (from_circuit_cmd leg cmd).

Lemma circ_entries_pairs leg cmds : map entry_pair (circ_entries leg cmds) = buffers cmds.
Proof.
  induction cmds as [|cmd cmds IH]; [done|].
  change (circ_entries leg (cmd :: cmds)) with (cmd_entries (from_circuit_cmd leg cmd) ++ circ_entries leg cmds).
  change (buffers (cmd :: cmds)) with (to_buffer cmd ++ buffers cmds).
  rewrite map_app, IH. f_equal. by destruct cmd as [| | |[|]| |].
Qed.

Lemma circ_entries_leg leg cmds e : e ∈ circ_entries leg cmds → he_leg_id e = leg.
Proof.
  unfold circ_entries. intros (cmd & He & _)%list_elem_of_bind.
  destruct cmd as [| | |[|]| |]; simpl in He; try by apply not_elem_of_nil in He.
  by apply list_elem_of_singleton in He as ->.
Qed.

Lemma cmds_inv renv leg cmds r r' es :
  run_cmds renv (map (from_circuit_cmd leg) cmds) r = (r', Ok tt) →
  rx_inv r (circ_entries leg cmds ++ es) → rx_inv r' es.
Proof.
  revert r. induction cmds as [|cmd cmds IH]; intros r H Hinv; simpl in H; st_inv; [done|].
  match goal with H : handle_single_run_once_cmd _ _ _ = (_, Ok ?u) |- _ => rename H into Hs; destruct u end.
  eapply IH; [exact H|]. eapply single_inv; [exact Hs|by destruct cmd as [| | |[|]| |]|].
  by rewrite app_assoc.
Qed.

(** ** The buffer *)

Lemma pop_min_none l : pop_min l = None → l = [].
Proof. destruct l as [|e l]; simpl; [done|]. destruct (pop_min l) as [[m rest]|]; [by case_match|done]. Qed.

Lemma pop_min_some l e rest :
  pop_min l = Some (e, rest) →
  l ≡ₚ e :: rest ∧ ∀ x, x ∈ rest → oo_seqno (he_msg e) ≤ oo_seqno (he_msg x).
Proof.
  revert e rest. induction l as [|a l IH]; intros e rest H; simpl in H; [done|].
  destruct (pop_min l) as [[m rest0]|] eqn:Hp.
  - destruct (IH m rest0 eq_refl) as [Hperm Hmin].
    destruct (Z.ltb_spec (oo_seqno (he_msg m)) (oo_seqno (he_msg a))); simplify_eq.
    + split; [by rewrite Hperm, Permutation_swap|]. intros x [->|Hx]%elem_of_cons; [lia|auto].
    + split; [by rewrite Hperm|]. intros x [->|Hx]%elem_of_cons; [lia|]. specialize (Hmin x Hx). lia.
  - apply pop_min_none in Hp as ->. simplify_eq. split; [done|]. by intros x ?%not_elem_of_nil.
Qed.

(** What is popped is the least of what waits. *)
Lemma buffer_min l :
  l ≠ [] → ∃ e rest, pop_min l = Some (e, rest) ∧ e ∈ l ∧ ∀ x, x ∈ l → oo_seqno (he_msg e) ≤ oo_seqno (he_msg x).
Proof.
  intros Hne. destruct (pop_min l) as [[e rest]|] eqn:Hpop; [|by apply pop_min_none in Hpop].
  apply pop_min_some in Hpop as [Hperm Hle]. exists e, rest. split; [done|]. split; [rewrite Hperm; by left|].
  intros x Hx. rewrite Hperm in Hx. apply elem_of_cons in Hx as [->|Hx]; [done|by apply Hle].
Qed.

Lemma is_seqno_in_order_ok seq (sh : Shared MH F) b :
  is_seqno_in_order seq sh = Ok b →
  sh_last_seq_delivered sh + 1 ≤ u64_max ∧ (b = true ↔ seq = sh_last_seq_delivered sh + 1).
Proof.
  unfold is_seqno_in_order. intros (n & Hn & Hb)%bind_ok. apply uadd_inv in Hn as [-> Hle].
  injection Hb as <-. by rewrite Z.eqb_eq.
Qed.

(** Delivering the entry that is popped. *)
Lemma deliver_entry_inv renv e rest r r' cmd :
  in_tunnel (on_leg (Internal "the circuit leg we just had disappeared?!") (he_leg_id e)
    (handle_in_order_relay_msg (re_env renv) (oo_hopnum (he_msg e)) (he_leg_id e)
       (oo_cell_counts_towards_windows (he_msg e)) (oo_streamid (he_msg e)) (oo_msg (he_msg e))))
    (set_ooo rest r) = (r', Ok cmd) →
  rx_ooo_msgs r ≡ₚ e :: rest → oo_seqno (he_msg e) = sh_last_seq_delivered (rx_shared r) + 1 →
  sh_last_seq_delivered (rx_shared r) + 1 ≤ u64_max →
  rx_inv r [] →
  rx_ooo_msgs r' = rest ∧ plain_cmd cmd ∧
  leg_ids (cs_legs (rx_circuits r')) = leg_ids (cs_legs (rx_circuits r)) ∧ rx_inv r' [] ∧
  numbered (rx_shared r') = numbered (rx_shared r).
Proof.
  intros H Hp Hseq Hmax (Ha & Hn & Hok). rewrite app_nil_r in Ha, Hok.
  unfold in_tunnel, with_err, zoom, on_leg in H. simpl in H.
  destruct (position (he_leg_id e) (cs_legs (rx_circuits r))) as [i|] eqn:Hi; [|done].
  destruct (cs_legs (rx_circuits r) !! i) as [c|] eqn:Hc; [|done].
  destruct (handle_in_order_relay_msg _ _ _ _ _ _ _) as [[c' sh'] [cmd'|?|]] eqn:Hm; simplify_eq/=.
  assert (c ∈ cs_legs (rx_circuits r)) as Hin by (by eapply list_elem_of_lookup_2).
  assert (is_Some (ci_conflux_handler c)) as Hh.
  { apply (Hok e c); [rewrite Hp; left|done|by eapply position_elem]. }
  assert (counts (oo_msg (he_msg e)) = true) as Hcount.
  { destruct Ha as (_ & _ & _ & Hall). rewrite Hp in Hall. by apply Forall_cons in Hall as [??]. }
  destruct (in_order_ok _ _ _ _ _ _ _ _ _ (map entry_pair rest) Hm Hh) as (Hle & Hb & Hacc & Hnum); simpl.
  { rewrite Hcount, <-Hseq. eapply accounted_perm; [|exact Ha]. by rewrite Hp. }
  { done. }
  simpl in Hle. split; [done|]. split; [done|]. unfold rx_inv. simpl. rewrite app_nil_r.
  assert (Forall2 leg_le (cs_legs (rx_circuits r)) (<[i:=c']> (cs_legs (rx_circuits r)))) as Hall.
  { by eapply Forall2_insert_leg. }
  rewrite (leg_ids_le _ _ Hall). split; [done|]. split; [|done]. split; [done|]. split; [done|].
  eapply entries_ok_le; [done|]. eapply entries_ok_mono; [| |exact Hok]; [|done].
  intros x Hx. rewrite Hp. by right.
Qed.

Lemma plain_single renv leg cmd r r' :
  handle_single_run_once_cmd renv (from_circuit_cmd leg cmd) r = (r', Ok tt) →
  plain_cmd (Some cmd) → kept_r r r'.
Proof.
  intros H Hp. destruct cmd; try done; simpl in H.
  match type of H with ?m _ = _ => assert (Keeps kept_r m) by keeps_tac end. keeps_chain.
Qed.

(** The loop keeps the invariant, and with enough fuel ends when nothing is due. *)
Lemma dequeue_inv renv fuel r r' :
  dequeue_loop renv fuel r = (r', Ok tt) → rx_inv r [] →
  rx_inv r' [] ∧ rx_ooo_msgs r' ⊆ rx_ooo_msgs r ∧
  leg_ids (cs_legs (rx_circuits r')) = leg_ids (cs_legs (rx_circuits r)) ∧
  numbered (rx_shared r') = numbered (rx_shared r) ∧
  ((length (rx_ooo_msgs r) < fuel)%nat → ∀ e rest, pop_min (rx_ooo_msgs r') = Some (e, rest) →
     oo_seqno (he_msg e) ≠ sh_last_seq_delivered (rx_shared r') + 1).
Proof.
  revert r. induction fuel as [|fuel IH]; intros r H Hinv; simpl in H; st_inv; [split_and!; by auto with lia|].
  unfold id in H. destruct (pop_min (rx_ooo_msgs r)) as [[e rest]|] eqn:Hpop; last first.
  { st_inv. split_and!; [done..|]. intros _ e rest. by rewrite Hpop. }
  st_inv. match goal with H : map_err _ _ = Ok ?b |- _ => rename H into Hb; rename b into due end.
  destruct (is_seqno_in_order _ _) as [b|?|] eqn:Hseq; simpl in Hb; simplify_eq.
  apply is_seqno_in_order_ok in Hseq as [Hmax Hdue]. destruct due; simpl in H; last first.
  { st_inv. split_and!; [done..|]. intros _ e' rest'. rewrite Hpop. intros [= <- <-] Heq.
    by apply Hdue in Heq. }
  st_inv. destruct (pop_min_some _ _ _ Hpop) as [Hperm _].
  match goal with H : in_tunnel _ _ = (?x, Ok ?y) |- _ =>
    rename H into Hd; rename y into cmd; rename x into r1 end.
  destruct (deliver_entry_inv _ _ _ _ _ _ Hd Hperm (proj1 Hdue eq_refl) Hmax Hinv) as (Hrest & Hplain & Hids & Hinv1 & Hnum).
  match type of H with dequeue_loop _ _ ?r2 = _ =>
    assert (kept_r r1 r2) as Hk; [destruct cmd as [cmd|]; [|st_inv; reflexivity]|] end.
  { match goal with H : handle_single_run_once_cmd _ _ _ = (_, Ok ?u) |- _ => destruct u end.
    by eapply plain_single. }
  destruct (IH _ H) as (Hinv2 & Hsub & Hids2 & Hnum2 & Hend); [by eapply rx_inv_kept|].
  rewrite (proj2 Hk), Hrest in Hsub. pose proof (leg_ids_le _ _ (proj1 (proj1 Hk))) as Hids3. simpl in Hids3.
  split; [done|]. split; [|split; [by rewrite Hids2, Hids3|split]].
  - intros a Ha. rewrite Hperm. right. auto.
  - rewrite Hnum2, <-Hnum. destruct Hk as [[_ Hpart] _]. unfold recv_part in Hpart. simpl in Hpart. unfold numbered. congruence.
  - intros Hlen. apply Hend. rewrite (proj2 Hk), Hrest.
    apply Permutation_length in Hperm. simpl in Hperm. lia.
Qed.

Lemma dequeue_all_inv renv r r' :
  try_dequeue_ooo_msgs renv r = (r', Ok tt) → rx_inv r [] →
  rx_inv r' [] ∧ rx_ooo_msgs r' ⊆ rx_ooo_msgs r ∧
  leg_ids (cs_legs (rx_circuits r')) = leg_ids (cs_legs (rx_circuits r)) ∧
  numbered (rx_shared r') = numbered (rx_shared r) ∧
  ∀ e rest, pop_min (rx_ooo_msgs r') = Some (e, rest) →
    oo_seqno (he_msg e) ≠ sh_last_seq_delivered (rx_shared r') + 1.
Proof.
  unfold try_dequeue_ooo_msgs. intros H Hinv. st_inv.
  destruct (dequeue_inv _ _ _ _ H Hinv) as (H1 & H2 & H3 & H4 & H5). split_and!; [done..|]. apply H5. lia.
Qed.

(** ** Events *)

#[local] Abbreviation Ev := (CircuitEvent Lo Li P MH X).

(** The events that the circuits of a tunnel produce. *)
Definition circ_event (ev : Ev) : Prop :=
  match ev with EvRunCmd _ (CmdEnqueue _) | EvHandleControl _ => False | _ => True end.

Lemma cell_event_inv renv leg cell r r' :
  run_event renv (EvHandleCell leg cell : Ev) r = (r', Ok tt) → rx_inv r [] → rx_inv r' [].
Proof.
  simpl. intros H Hinv. st_inv.
  match goal with H : in_tunnel _ _ = (?x, Ok ?y) |- _ => rename H into Hc; rename y into cmds end.
  eapply (cmds_inv renv leg cmds); [exact H|]. rewrite app_nil_r.
  destruct Hinv as (Ha & Hn & Hok). rewrite app_nil_r in Ha, Hok.
  unfold in_tunnel, with_err, zoom, on_leg in Hc. simpl in Hc.
  destruct (position leg (cs_legs (rx_circuits r))) as [i|] eqn:Hi; [|done].
  destruct (cs_legs (rx_circuits r) !! i) as [c|] eqn:Hci; [|done].
  destruct (handle_cell _ _ _ _) as [[c' sh'] [cmds'|?|]] eqn:Hm; simplify_eq/=.
  destruct (relay_cell_ok _ _ _ _ _ _ _ Hm Ha) as (Hle & Hacc & Hb). simpl in Hle, Hb.
  assert (ci_unique_id c = leg) as Hid by (by eapply position_elem).
  assert (Forall2 leg_le (cs_legs (rx_circuits r)) (<[i:=c']> (cs_legs (rx_circuits r)))) as Hall.
  { by eapply Forall2_insert_leg. }
  split_and!; simpl.
  - by rewrite map_app, circ_entries_pairs.
  - by rewrite (leg_ids_le _ _ Hall).
  - intros e c1 [He|He]%elem_of_app Hc1 Heq.
    { by eapply entries_ok_le. }
    assert (c1 = c') as ->.
    { apply list_elem_of_lookup in Hc1 as [j Hj]. rewrite <-(leg_ids_le _ _ Hall) in Hn.
      rewrite (circ_entries_leg _ _ _ He) in Heq.
      assert (i = j) as ->; [|rewrite list_lookup_insert_eq in Hj by (by eapply lookup_lt_Some); by simplify_eq].
      eapply (NoDup_lookup _ i j leg Hn); unfold leg_ids; rewrite list_lookup_fmap.
      - rewrite list_lookup_insert_eq by (by eapply lookup_lt_Some). simpl. f_equal. by rewrite (proj1 Hle).
      - rewrite Hj. simpl. by f_equal. }
    apply Hb. rewrite <-(circ_entries_pairs leg). destruct (circ_entries leg cmds); [|done].
    by apply not_elem_of_nil in He.
Qed.

Lemma event_inv renv (ev : Ev) r r' :
  run_event renv ev r = (r', Ok tt) → circ_event ev → rx_inv r [] → rx_inv r' [].
Proof.
  intros H Hev Hinv. destruct ev as [leg cmd|msg|leg cell|leg reason|err]; [| done | | | done].
  - eapply (cmds_inv renv leg [cmd]); [exact H|]. unfold circ_entries. simpl.
    destruct cmd as [| | |[]| |]; done.
  - by eapply cell_event_inv.
  - simpl in H. st_inv. match goal with H : run_remove_leg _ _ _ _ = (_, Ok ?u) |- _ => destruct u end.
    by eapply remove_inv.
Qed.

Lemma events_inv renv (evs : list Ev) r r' :
  run_events renv evs r = (r', Ok tt) → Forall circ_event evs → rx_inv r [] → rx_inv r' [].
Proof.
  revert r. induction evs as [|ev evs IH]; intros r H Hev Hinv; simpl in H; st_inv; [done|].
  apply Forall_cons in Hev as [??].
  match goal with H : run_event _ _ _ = (_, Ok ?u) |- _ => destruct u end.
  eapply IH; [done..|]. by eapply event_inv.
Qed.

Lemma poll_hop_cmd i h st st' cmd : poll_hop i h st = Ok (st', Some cmd) → to_buffer cmd = [].
Proof.
  unfold poll_hop, with_map. intros H. ok_inv. repeat case_match; ok_inv; try done.
  repeat case_match; by ok_inv.
Qed.

Lemma poll_hops_cmd hops st st' cmd : poll_hops hops st = Ok (st', Some cmd) → to_buffer cmd = [].
Proof.
  revert st. induction hops as [|[i h] hops IH]; intros st H; simpl in H; [done|].
  apply bind_ok in H as ([st1 [cmd1|]] & H1 & H2); [|by eapply IH].
  simplify_eq. by eapply poll_hop_cmd.
Qed.

Lemma leg_events_ok now exclude ready c st st' (evs : list Ev) :
  leg_events now exclude ready c st = Ok (st', evs) → Forall circ_event evs.
Proof.
  unfold leg_events. intros (st1 & _ & (t & _ & H)%bind_ok)%bind_ok.
  destruct (match t with Some _ => _ | None => _ end).
  { injection H as <- <-. by repeat constructor. }
  apply bind_ok in H as ([st2 cmd] & Hp & H). injection H as <- <-. apply Forall_app. split.
  - repeat case_match; by repeat constructor.
  - destruct cmd as [cmd|]; [|done]. destruct (lr_poll ready); [|done].
    apply poll_hops_cmd in Hp. apply Forall_singleton. by destruct cmd.
Qed.

Lemma legs_events_ok now jp b ready legs st st' (evs : list Ev) :
  legs_events now jp b ready legs st = Ok (st', evs) → Forall circ_event evs.
Proof.
  revert b ready st evs. induction legs as [|c legs IH]; intros b [|rd ready] st evs H; simpl in H;
    try by simplify_eq; try done.
  apply bind_ok in H as ([st1 evs1] & H1 & H). apply bind_ok in H as ([st2 evs2] & H2 & H).
  injection H as <- <-. apply Forall_app. split; [by eapply leg_events_ok|by eapply IH].
Qed.

Lemma sort_events_ok (evs : list Ev) : Forall circ_event evs → Forall circ_event (sort_events evs).
Proof.
  intros H. unfold sort_events. apply Forall_app.
  split; apply Forall_forall; intros ev [_ Hin]%list_elem_of_filter; by eapply Forall_forall in H.
Qed.

#[local] Instance keeps_create renv (req : X) rng : Keeps kept (create_on_leg (F:=F) renv req rng).
Proof.
  intros [c sh]. unfold create_on_leg. simpl.
  destruct (create_first_hop _ _ _ _ _) as [[c' st'] x] eqn:Hc. apply create_frame in Hc as [Hid Hh].
  split; [split; simpl; [done|by rewrite Hh]|done].
Qed.

(** ** Whole runs *)

#[local] Abbreviation In := (Input (Lo:=Lo) (Li:=Li) (P:=P) (MH:=MH) (F:=F) (X:=X)).

(** Circuits that a user asks to link have identifiers of their own. *)
Definition input_fresh r (input : In) : Prop :=
  match input with InControl (Some (CtlLinkCircuits circuits _)) => fresh_legs r [] circuits | _ => True end.

Lemma control_inv renv msg r r' :
  run_events renv [EvHandleControl msg : Ev] r = (r', Ok tt) →
  match msg with CtlLinkCircuits circuits _ => fresh_legs r [] circuits | _ => True end →
  rx_inv r [] → rx_inv r' [].
Proof.
  intros H Hf Hinv. simpl in H. st_inv.
  match goal with H : control_handle_msg _ _ = (?x, Ok ?y) |- _ => rename H into Hc; rename x into r1; rename y into cmd end.
  assert (kept_r r r1) as Hk by (clear H; keeps_chain).
  destruct cmd as [cmd|]; [|st_inv; by eapply rx_inv_kept]. simpl in H. st_inv.
  match goal with H : handle_single_run_once_cmd _ _ _ = (_, Ok ?u) |- _ => destruct u; rename H into Hs end.
  eapply single_inv; [exact Hs| |].
  - destruct msg; simpl in Hc; unfold control_extend, control_begin_stream, control_sendme in Hc;
      st_inv; repeat case_match; st_inv; repeat case_match; st_inv; by simplify_eq/=.
  - assert (cmd_entries cmd = []) as ->; [|by eapply rx_inv_kept].
    destruct msg; simpl in Hc; unfold control_extend, control_begin_stream, control_sendme in Hc;
      st_inv; repeat case_match; st_inv; repeat case_match; st_inv; by simplify_eq/=.
Qed.

Lemma add_hop_frame first peer_id fwd rev binding settings (c : Circuit Lo Li P) st c' st' :
  add_hop first peer_id fwd rev binding settings c st = Ok (c', st') → leg_le c c'.
Proof.
  unfold add_hop. intros H. ok_inv. repeat case_match; ok_inv; done.
Qed.

#[local] Instance keeps_add_hop first peer_id fwd rev binding settings :
  Keeps kept (zoom_res (λ w : Circuit Lo Li P * Shared MH F, (w.1, sh_streams w.2)) (λ x w, (x.1, set_streams x.2 w.2))
    (λ x, x ← add_hop first peer_id fwd rev binding settings x.1 x.2; Ok (x, tt))).
Proof.
  intros [c sh]. unfold zoom_res. simpl.
  destruct (add_hop _ _ _ _ _ _ _ _) as [[c' st']|?|] eqn:Ha; simpl; [|done..].
  by apply add_hop_frame in Ha.
Qed.

Lemma cmd_inv renv (cmd : CtrlCmd Lo Li F) r r' :
  handle_cmd renv cmd r = (r', Ok tt) → rx_inv r [] → rx_inv r' [].
Proof.
  intros H. apply rx_inv_kept. destruct cmd; simpl in H; [done|..].
  1-4: match type of H with ?m _ = _ => assert (Keeps kept_r m) end; [|keeps_chain].
  1-4: keeps_tac.
  st_inv. repeat case_match; st_inv; done.
Qed.

Lemma run_once_inv renv (input : In) r r' :
  run_once renv input r = (r', Ok tt) → input_fresh r input → rx_inv r [] → rx_inv r' [].
Proof.
  unfold run_once. intros H Hf Hinv. st_inv. unfold id in H.
  destruct (cs_legs (rx_circuits r)) eqn:Hlegs; [by st_inv|].
  destruct (waiting_for_create _) as [c0|].
  { eapply rx_inv_kept; [|exact Hinv]. unfold wait_for_create in H.
    match type of H with ?m _ = _ => assert (Keeps kept_r m) by keeps_tac end. keeps_chain. }
  st_inv. match goal with H : try_dequeue_ooo_msgs _ _ = (?x, Ok ?u) |- _ => rename x into r1; destruct u; rename H into Hd end.
  destruct (dequeue_all_inv _ _ _ Hd Hinv) as (Hinv1 & Hsub & Hids & _).
  destruct input as [[cmd|]|[msg|]|ready]; [by eapply cmd_inv|by st_inv| |by st_inv|].
  - eapply control_inv; [exact H| |done]. destruct msg; try done.
    destruct Hf as [Hnd Hfr]. split.
    + unfold leg_ids in *. rewrite map_app in *. by rewrite Hids.
    + intros e c1 He Hc. rewrite app_nil_r in He. apply (Hfr e c1); [rewrite app_nil_r; auto|done].
  - st_inv. match goal with H : next_circ_event _ _ _ = (?x, Ok ?y) |- _ => rename H into Hn; rename y into evs end.
    eapply events_inv; [exact H| |].
    + apply sort_events_ok. unfold next_circ_event in Hn. st_inv. case_match. st_inv.
      match goal with H : map_err _ (legs_events _ _ _ _ _ _) = _ |- _ =>
        destruct (legs_events _ _ _ _ _ _) as [[??]|?|] eqn:He in H; simplify_eq/= end.
      by eapply legs_events_ok.
    + eapply rx_inv_kept; [|exact Hinv1]. clear H. keeps_chain.
Qed.

(** A tunnel before any multiplexed message: one circuit that is in no conflux tunnel. *)
Definition rx_initial r : Prop :=
  (∃ c, cs_legs (rx_circuits r) = [c]) ∧ rx_ooo_msgs r = [] ∧
  recv_part (rx_shared r) = (0, [], []).

(** The store of streams after the users of the streams wrote to them, read from them or dropped
    them. *)
Definition users_did (st : Streams) r : RX := set_tunnel (rx_circuits r, set_streams st (rx_shared r)) r.

(** The states of the reactor after any number of iterations, whatever the users of the streams do
    in between. *)
Inductive reachable (r0 : RX) : RX → Prop :=
| reach_init : reachable r0 r0
| reach_users st r : reachable r0 r → reachable r0 (users_did st r)
| reach_step renv (input : In) r r' :
    reachable r0 r → input_fresh r input → run_once renv input r = (r', Ok tt) → reachable r0 r'.

Lemma reachable_inv r0 r : rx_initial r0 → reachable r0 r → rx_inv r [].
Proof.
  intros ((c & Hc) & Ho & Hp) Hr.
  induction Hr as [|st r _ IH|renv input r r' _ IH Hf Hrun]; [|done|by eapply run_once_inv].
  unfold rx_inv. rewrite Hp, Ho, Hc. split_and!; [|apply NoDup_singleton|by intros e ? ?%not_elem_of_nil].
  unfold accounted. simpl. done.
Qed.

(** What the reactor handed to the streams of the tunnel, in order. *)
Definition delivered r : list UnparsedRelayMsg := hi_delivered (sh_history (rx_shared r)).

(** C2: a tunnel whose messages travel over several circuits (a conflux set) hands them to its
    streams in the order in which the sender numbered them, whatever order they arrive in, none
    twice and none left out.  In every state that the reactor reaches from a fresh circuit, over
    any sequence of commands, control messages and cells of its legs, the [k]-th message delivered
    is one that arrived with number [k], and what arrived and was not delivered is in the
    out-of-order buffer.  When the messages that arrived over all the legs are the [N] first ones
    of the sender, in any order, the next pass over the buffer that ends well leaves it empty,
    and the messages delivered are those [N] in the order of the sender. *)
Theorem conflux_in_order r0 r :
  rx_initial r0 → reachable r0 r →
  sh_last_seq_delivered (rx_shared r) = Z.of_nat (length (delivered r)) ∧
  numbered (rx_shared r) ≡ₚ delivered_pairs (delivered r) ++ map entry_pair (rx_ooo_msgs r) ∧
  ∀ renv r' msgs,
    numbered (rx_shared r) ≡ₚ delivered_pairs msgs →
    try_dequeue_ooo_msgs renv r = (r', Ok tt) →
    rx_ooo_msgs r' = [] ∧ delivered r' = msgs.
Proof.
  intros Hi Hr. pose proof (reachable_inv _ _ Hi Hr) as Hinv.
  pose proof Hinv as ((Hl & _ & Hp & _) & _). rewrite app_nil_r in Hp. split; [done|]. split; [done|].
  intros renv r' msgs Hall Hd. destruct (dequeue_all_inv _ _ _ Hd Hinv) as (Hinv' & _ & _ & Hnum & Hend).
  destruct Hinv' as ((Hl' & _ & Hp' & _) & _). rewrite app_nil_r in Hp'.
  assert (map entry_pair (rx_ooo_msgs r') = [] ∧ msgs = delivered r') as [Hnil ->]; last first.
  { by apply map_eq_nil in Hnil. }
  fold (numbered (rx_shared r')) in Hp'. rewrite Hnum, Hall in Hp'.
  apply pairs_complete; [done|]. intros Hne.
  destruct (buffer_min (rx_ooo_msgs r')) as (e & rest & Hpop & He & Hle); [by intros Hnil; rewrite Hnil in Hne|].
  exists (entry_pair e). split; [|split].
  - apply list_elem_of_fmap. eauto.
  - intros q' (e' & -> & He')%list_elem_of_fmap. by apply Hle.
  - intros Heq. by apply (Hend _ _ Hpop); rewrite Hl'.
Qed.
End invariant.

(** ** The scenario *)

#[export] Instance no_handler_frame : MetaFrame NoHandler PlainLayer PlainLayer RelayNo.
Proof. by intros ?? []. Qed.
#[export] Instance no_builder_frame : BuilderFrame NoHandler NoHandler PlainLayer PlainLayer RelayNo.
Proof. by intros []. Qed.

Lemma reachable_run inputs r0 r r' :
  reachable r0 r → (∀ now input r, (now, input) ∈ inputs → input_fresh r input) →
  run_inputs inputs r = (r', Ok tt) → reachable r0 r'.
Proof.
  unfold run_inputs. revert r.
  induction inputs as [|[now input] inputs IH]; intros r Hr Hf H; simpl in H; st_inv; [done|].
  match goal with H : run_once _ _ _ = (_, Ok ?u) |- _ => destruct u end.
  eapply IH; [eapply reach_step; [done| |done]|..|done].
  - apply (Hf now). by left.
  - intros now' input' r1 Hin. apply (Hf now'). by right.
Qed.

(** The state of the scenario after [inputs]. *)
Definition after (inputs : list (Z * TunnelInput)) : Reactor PlainLayer PlainLayer RelayNo NoHandler AcceptAll :=
  (run_inputs inputs reactor0).1.

Definition linked_tunnel := after (take 1 opening).

Lemma linked_reachable : reachable reactor0 linked_tunnel.
Proof.
  eapply (reach_step reactor0 (renv_at 1000)); [apply reach_init| |].
  - instantiate (1 := InControl (Some (CtlLinkCircuits [circuit_of 2 1] 1))). vm_compute.
    split; [by apply (bool_decide_unpack _)|]. intros e c He. by apply not_elem_of_nil in He.
  - vm_compute. reflexivity.
Qed.

Lemma scenario_reachable inputs :
  (run_inputs inputs linked_tunnel).2 = Ok tt →
  Forall (λ x, match x.2 with InControl (Some (CtlLinkCircuits _ _)) => False | _ => True end) inputs →
  reachable reactor0 (run_inputs inputs linked_tunnel).1.
Proof.
  intros H Hall. eapply (reachable_run inputs _ linked_tunnel); [apply linked_reachable| |].
  - intros now input r Hin. rewrite Forall_forall in Hall. specialize (Hall _ Hin).
    destruct input as [|[[]|]|]; done.
  - destruct (run_inputs inputs linked_tunnel) as [r x]. simpl in *. by subst.
Qed.

(** The run in which the second leg is faster. *)
Definition overtaken := (run_inputs (drop 1 opening ++ out_of_order) linked_tunnel).1.

Definition received (body : list Z) : UnparsedRelayMsg := UV1 body.

Lemma conflux_in_order_witness :
  ∃ r', try_dequeue_ooo_msgs (renv_at 8000) overtaken = (r', Ok tt) ∧
    length (rx_ooo_msgs overtaken) = 1%nat ∧
    rx_ooo_msgs r' = [] ∧ delivered r' = [received connected; received (data 21); received (data 22)].
Proof.
  eexists. split; [vm_compute; reflexivity|]. split; [by vm_compute|].
  apply (conflux_in_order reactor0 overtaken) with (renv := renv_at 8000).
  - split; [by eexists|]. by vm_compute.
  - apply scenario_reachable; [by vm_compute|]. by repeat constructor.
  - vm_compute. constructor. apply Permutation_swap.
  - vm_compute. reflexivity.
Defined.
