(* ===== verification/ConfluxSend.v ===== *)
(** * ConfluxSend: the numbers of the messages that a tunnel sends

    The sending half of a multi-path tunnel: over all the legs, the relay at the join point gives
    the multiplexed messages the numbers 1, 2, 3, ... in the order in which the client sent them,
    as long as those for the join point go through [ConfluxSet::send_relay_cell_on_leg] or directly to
    the primary leg; every command of the reactor is made of the steps of [tunnel_step].  The END
    message of a stream that the user dropped can go directly to another leg, and then two messages
    get the same number. *)

From S2P Require Import Prelude StateM Bytes Codec RelayMsg RelayCell Sendme RelayCrypt Cwnd Rtt.
From S2P Require Import Vegas Congestion FlowCtrl PollSet StreamMap ConfluxMsg HopSettings.
From S2P Require Import CircHop Circuit CircuitFrame ConfluxSet Reactor Scenario ConfluxOrder.

(** ** The numbers that the join point gives *)

(** The number of the last message on each leg, and the numbers of the messages so far. *)
Definition RelayView : Type := gmap nat Z * list Z.

Definition last_on (leg : nat) (v : RelayView) : Z := default 0 (v.1 !! leg).

(** What the relay at hop [jp] does with a cell: a SWITCH advances the number of its leg, and a
    multiplexed message gets the next one.  Cells for other hops pass by. *)
Definition relay_step (jp : nat) (v : RelayView) (e : nat * nat * RelayMsgOuter) : RelayView :=
  let '(leg, hop, cell) := e in
  if negb (hop =? jp)%nat then v
  else
    match ro_msg cell with
    | AConfluxSwitch switch => (<[leg := last_on leg v + sw_seqno switch]> v.1, v.2)
    | msg =>
        if cmd_counts_towards_seqno (msg_cmd msg)
        then (<[leg := last_on leg v + 1]> v.1, v.2 ++ [last_on leg v + 1])
        else v
    end.

Definition relay_view (jp : nat) (log : list (nat * nat * RelayMsgOuter)) : RelayView :=
  foldl (relay_step jp) (∅, []) log.

Definition is_switch (msg : AnyRelayMsg) : bool :=
  msg_cmd msg =? RelayCmd.CONFLUX_SWITCH.

Lemma relay_view_snoc jp log e : relay_view jp (log ++ [e]) = relay_step jp (relay_view jp log) e.
Proof. unfold relay_view. by rewrite foldl_app. Qed.

Lemma relay_step_plain jp v leg hop cell :
  is_switch (ro_msg cell) = false → cmd_counts_towards_seqno (msg_cmd (ro_msg cell)) = false →
  relay_step jp v (leg, hop, cell) = v.
Proof.
  unfold relay_step. intros Hs Hc. destruct (negb _); [done|].
  destruct (ro_msg cell); simpl in *; rewrite ?Hc; done.
Qed.

Lemma relay_step_counted jp v leg cell :
  cmd_counts_towards_seqno (msg_cmd (ro_msg cell)) = true →
  relay_step jp v (leg, jp, cell) = (<[leg := last_on leg v + 1]> v.1, v.2 ++ [last_on leg v + 1]).
Proof.
  unfold relay_step. intros Hc. rewrite Nat.eqb_refl. simpl.
  destruct (ro_msg cell); simpl in *; rewrite ?Hc; done.
Qed.

Lemma relay_view_fresh jp log leg : leg ∉ log.*1.*1 → last_on leg (relay_view jp log) = 0.
Proof.
  induction log as [|[[leg' hop] cell] log IH] using rev_ind; [done|].
  rewrite !fmap_app, not_elem_of_app, relay_view_snoc. simpl. intros [Hn Hne]. specialize (IH Hn).
  assert (leg' ≠ leg) by set_solver. rewrite <-IH.
  destruct (negb _); [done|]. unfold last_on. repeat case_match; try done; simpl; by rewrite lookup_insert_ne.
Qed.

(** ** Sending on a circuit *)

Section circuit_send.
Context {Lo Li P MH F : Type}.
Context `{!OutboundClientLayer Lo, !InboundClientLayer Li, !MetaCellHandler MH Lo Li P}.
Context `{!MetaFrame MH Lo Li P, !IncomingStreamRequestFilter F}.
#[local] Abbreviation W := (World (Lo:=Lo) (Li:=Li) (P:=P) (MH:=MH) (F:=F)).
#[local] Abbreviation CM := (M (Lo:=Lo) (Li:=Li) (P:=P) (MH:=MH) (F:=F)).
Implicit Types w : W.

#[export] Instance quiet_quiet : Quiet (quiet (Lo:=Lo) (Li:=Li) (P:=P) (MH:=MH) (F:=F)).
Proof.
  split; [|done]. split; [done|]. intros w1 w2 w3 (?&?&?&?) (?&?&?&?). split_and!; congruence.
Qed.

(** A cell that was sent on a leg of a tunnel is counted and logged. *)
Definition sent_on (msg : SendRelayCell) w w' : Prop :=
  ci_unique_id w'.1 = ci_unique_id w.1 ∧
  match ci_conflux_handler w.1 with
  | None => ci_conflux_handler w'.1 = None ∧ sh_history w'.2 = sh_history w.2
  | Some h => ∃ h' hop,
      note_cell_sent (msg_cmd (ro_msg (sr_cell msg))) h = Ok h' ∧ ci_conflux_handler w'.1 = Some h' ∧
      sr_hop msg = Some hop ∧
      sh_history w'.2 = log_out (ci_unique_id w.1) hop (sr_cell msg) (sh_history w.2) ∧
      (msg_cmd (ro_msg (sr_cell msg)) = RelayCmd.CONFLUX_LINK ∨ ch_state h = Linked)
  end.

Lemma send_split now msg w w' :
  send_relay_cell now msg w = (w', Ok tt) →
  ((msg_cmd (ro_msg (sr_cell msg)) =? RelayCmd.CONFLUX_LINK) = true ∨ is_conflux_pending w.1 = false) ∧
  ∃ w1 hop, quiet w w1 ∧ sr_hop msg = Some hop ∧ note_sent hop (sr_cell msg) w1 = (w', Ok tt).
Proof.
  unfold send_relay_cell. cbv zeta. intros H. st_inv.
  assert ((msg_cmd (ro_msg (sr_cell msg)) =? RelayCmd.CONFLUX_LINK) = true ∨ is_conflux_pending w.1 = false) as Hp.
  { destruct (_ =? _), (is_conflux_pending w.1); auto. by st_inv. }
  split; [done|]. rewrite (proj2 (andb_false_iff _ _)) in H; [|destruct Hp as [->| ->]; auto].
  st_inv. do 2 case_match. st_inv.
  match goal with H : note_sent ?hop _ ?w1 = (_, _) |- _ => exists w1, hop end.
  split; [|split; [by destruct (sr_hop msg); simplify_eq/=|exact H]]. clear H.
  destruct (cmd_counts_towards_windows _); [destruct (ro_streamid _)|]; keeps_chain.
Qed.

Lemma send_ok now msg w w' : send_relay_cell now msg w = (w', Ok tt) → sent_on msg w w'.
Proof.
  intros (Hp & [c1 sh1] & hop & (Hid & Hh & _ & Hhi) & Hhop & Hn)%send_split.
  destruct w as [c sh]. simpl in *. unfold sent_on. simpl. unfold note_sent in Hn. rewrite Hh in Hn.
  unfold is_conflux_pending, conflux_status in Hp. destruct (ci_conflux_handler c) as [h|]; [|by simplify_eq].
  destruct (note_cell_sent _ h) as [h'|?|] eqn:Hs; simplify_eq/=. split; [done|].
  exists h', hop. split_and!; [done..|by rewrite Hid, Hhi|].
  destruct Hp as [Hp|Hp]; [left; by apply Z.eqb_eq|right].
  apply negb_false_iff, bool_decide_eq_true in Hp. unfold client_status in Hp. by destruct (ch_state h).
Qed.

(** A send that fails has not been counted or logged. *)
Lemma bind_fails {A B} (m : CM A) (f : A → CM B) :
  Keeps quiet m → (∀ a w w' r, f a w = (w', r) → (∀ b, r ≠ Ok b) → quiet w w') →
  ∀ w w' r, (m ≫= f) w = (w', r) → (∀ b, r ≠ Ok b) → quiet w w'.
Proof.
  intros Hm Hf w w' r H Hr. unfold mbind, ST_mbind in H. pose proof (keeps (m:=m) w) as Hk.
  destruct (m w) as [w1 [a|e|]]; simpl in Hk; [|by injection H as <- <-..].
  etrans; [exact Hk|]. by eapply Hf.
Qed.

Lemma note_sent_fails hop cell w w' r :
  note_sent hop cell w = (w', r) → (∀ b, r ≠ Ok b) → quiet w w'.
Proof.
  destruct w as [c sh]. unfold note_sent. destruct (ci_conflux_handler c) as [h|]; [|by intros [= <- <-]].
  destruct (note_cell_sent _ h); intros [= <- <-] Hr; [by destruct (Hr tt)|done..].
Qed.

Lemma send_fails now msg w w' r :
  send_relay_cell now msg w = (w', r) → (∀ b, r ≠ Ok b) → quiet w w'.
Proof.
  revert w w' r. unfold send_relay_cell. cbv zeta. apply bind_fails; [apply _|intros pending].
  destruct (_ && _); [by intros w w' r [= <- <-]|].
  apply bind_fails; [apply _|intros hop]. apply bind_fails; [apply _|intros []].
  apply bind_fails; [repeat case_match; apply _|intros []]. apply bind_fails; [apply _|intros circhop].
  apply bind_fails; [apply _|intros [[cmd body] tag]]. apply bind_fails; [case_match; apply _|intros []].
  apply bind_fails; [apply _|intros []]. apply note_sent_fails.
Qed.

Lemma sent_after_quiet msg w w1 w' : quiet w w1 → sent_on msg w1 w' → sent_on msg w w'.
Proof. intros (Hid & Hh & _ & Hhi). unfold sent_on. by rewrite Hid, Hh, Hhi. Qed.

(** The operations that send nothing numbered: the numbers stay, for the client and for the relay,
    and a circuit that gets linked knows the round trip time of its handshake. *)
Definition rtt_known (h : ClientConfluxMsgHandler) : Prop := ch_state h = Linked → is_Some (ch_init_rtt h).

Definition handler_idle (o o' : option ClientConfluxMsgHandler) : Prop :=
  match o, o' with
  | None, None => True
  | Some h, Some h' => ch_last_seq_sent h' = ch_last_seq_sent h ∧ (rtt_known h → rtt_known h')
  | _, _ => False
  end.

#[export] Instance handler_idle_preorder : PreOrder handler_idle.
Proof.
  split; [by intros [h|]|]. intros [h1|] [h2|] [h3|]; try done. intros [H1 H2] [H3 H4]. split; [congruence|auto].
Qed.

Definition leg_idle (c c' : Circuit Lo Li P) : Prop :=
  ci_unique_id c' = ci_unique_id c ∧ handler_idle (ci_conflux_handler c) (ci_conflux_handler c').

Definition idle w w' : Prop :=
  leg_idle w.1 w'.1 ∧
  (∀ jp, relay_view jp (hi_out (sh_history w'.2)) = relay_view jp (hi_out (sh_history w.2))) ∧
  (ci_conflux_handler w.1 = None → hi_out (sh_history w'.2) = hi_out (sh_history w.2)).

#[export] Instance idle_quiet : Quiet idle.
Proof.
  split.
  - split; [done|]. intros w1 w2 w3 ([H1 H2] & H3 & H4) ([H5 H6] & H7 & H8).
    split_and!; [split; [congruence|by etrans]|congruence|].
    intros Hn. rewrite H8, H4; [done|done|]. rewrite Hn in H2. by destruct (ci_conflux_handler w2.1).
  - intros w w' (Hid & Hh & _ & Hhi). unfold idle. rewrite Hhi. split; [split; [done|by rewrite Hh]|done].
Qed.

(** A cell that the join point does not number. *)
Definition unnumbered (cell : RelayMsgOuter) : Prop :=
  is_switch (ro_msg cell) = false ∧ cmd_counts_towards_seqno (msg_cmd (ro_msg cell)) = false.

Lemma idle_note_sent hop cell : unnumbered cell → Keeps idle (note_sent hop cell).
Proof.
  intros [Hs Hc] [c sh]. unfold note_sent. destruct (ci_conflux_handler c) as [h|] eqn:Hh; [|done].
  unfold note_cell_sent. rewrite Hc. split; [split; [done|simpl; by rewrite Hh]|]. simpl.
  split; [|by rewrite Hh]. intros jp. by rewrite relay_view_snoc, relay_step_plain.
Qed.

#[export] Instance idle_link_sent now : Keeps idle (if_conflux (note_link_sent now) : M (Lo:=Lo) (Li:=Li) unit).
Proof.
  intros [c sh]. unfold if_conflux. destruct (ci_conflux_handler c) as [h|] eqn:Hh; [|done]. simpl.
  unfold client_note_link_sent. destruct (ch_state h); [|done..].
  split; [split; [done|]|done]. simpl. rewrite Hh. by split.
Qed.

#[export] Instance idle_conflux_msg env hop msg : Keeps idle (circ_handle_conflux_msg env hop msg).
Proof.
  intros [c sh]. unfold circ_handle_conflux_msg. destruct (ci_conflux_handler c) as [h|] eqn:Hh; [|done].
  destruct (handle_conflux_msg _ _ _ _ _) as [[h' cmd]|e|] eqn:Hm; [|done..].
  split; [split; [done|]|done]. simpl. rewrite Hh. unfold handle_conflux_msg in Hm. simpl in Hm.
  destruct (client_validate_source_hop _ _ _) as [u|?|]; simpl in Hm; [|by simplify_eq..].
  destruct (client_handle_msg _ _ _ _ _) as [[h2 cmd2]|?|] eqn:Hc; simplify_eq; [|done].
  unfold client_handle_msg in Hc. ok_inv. repeat case_match; try done.
  - unfold handle_conflux_linked in Hc. ok_inv. repeat case_match; ok_inv; simplify_eq; try done.
    split; [done|]. by intros _ _.
  - unfold handle_conflux_switch in Hc. repeat case_match; try done. ok_inv. by simplify_eq.
Qed.

#[export] Instance idle_note_delivered msg : Keeps idle (note_delivered msg).
Proof.
  intros [c sh]. unfold note_delivered. destruct (ci_conflux_handler c); [|done].
  destruct (inc_last_seq_delivered _ _); [|done..]. split; [done|]. simpl. unfold log_delivered. by case_match.
Qed.

#[export] Instance idle_action hopnum ctw sid msg : Keeps idle (conflux_action hopnum ctw sid msg).
Proof.
  intros [c sh]. unfold conflux_action. destruct (ci_conflux_handler c) as [h|] eqn:Hh; [|done].
  destruct (action_for_msg _ _ _ _ _ _) as [[h' act]|e|] eqn:Ha; [|done..].
  split; [|simpl; unfold log_numbered; by case_match]. split; [done|]. simpl. rewrite Hh.
  unfold action_for_msg in Ha. ok_inv. repeat case_match; ok_inv; simplify_eq; [done|].
  simpl in *. unfold client_inc_last_seq_recv in *. ok_inv. case_match; by simplify_eq.
Qed.

(** Operations that send at most one message, which satisfies [Q], directly on the leg. *)
Definition Sends {A} (Q : SendRelayCell → Prop) (m : CM A) : Prop :=
  ∀ w w' r, m w = (w', r) → quiet w w' ∨ ∃ msg, Q msg ∧ sent_on msg w w'.

Lemma sends_send (Q : SendRelayCell → Prop) now msg : Q msg → Sends Q (send_relay_cell now msg).
Proof.
  intros HQ w w' r H. destruct r as [[]|e|].
  - right. exists msg. split; [done|]. by eapply send_ok.
  - left. by eapply send_fails.
  - left. by eapply send_fails.
Qed.

Lemma sends_bind {A B} Q (m : CM A) (f : A → CM B) :
  Keeps quiet m → (∀ a, Sends Q (f a)) → Sends Q (m ≫= f).
Proof.
  intros Hm Hf w w' r H. unfold mbind, ST_mbind in H. pose proof (keeps (m:=m) w) as Hk.
  destruct (m w) as [w1 [a|e|]]; simpl in Hk; [|left; by injection H as <- <-..].
  destruct (Hf a w1 w' r H) as [Hq|(msg & HQ & Hs)]; [left; by etrans|right].
  exists msg. split; [done|]. by eapply sent_after_quiet.
Qed.

Lemma sends_quiet {A} Q (m : CM A) : Keeps quiet m → Sends Q m.
Proof. intros Hm w w' r H. left. pose proof (keeps (m:=m) w) as Hk. by rewrite H in Hk. Qed.

Lemma sends_xon now rate sid buffered hop :
  Sends (λ msg, sr_hop msg = Some hop ∧ msg_cmd (ro_msg (sr_cell msg)) = RelayCmd.XON)
    (send_xon_on_hop now rate sid buffered hop).
Proof.
  apply sends_bind; [apply _|intros [msg|]]; [by apply sends_send|apply sends_quiet, _].
Qed.

(** Closing a stream sends nothing, or an END to the hop. *)
Lemma sends_close now hop sid behav reason expiry (c : Circuit Lo Li P) sh w' r :
  close_stream now hop sid behav reason expiry (c, sh) = (w', r) →
  quiet (c, sh) w' ∨ ∃ h msg, behav ≠ SendNothing ∧ ci_hops c !! hop = Some h ∧
    sr_hop msg = Some (hp_hop_num h) ∧ msg_cmd (ro_msg (sr_cell msg)) = RelayCmd.END ∧
    sent_on msg (c, sh) w'.
Proof.
  intros H. change (match ci_hops c !! hop with
    | None => mret tt
    | Some _ =>
        r ← update_streams NoSuchHop hop (hop_close_stream now sid behav reason expiry);
        cell ← lift r;
        match cell with Some cell => send_relay_cell now cell | None => mret tt end
    end (c, sh) = (w', r)) in H.
  destruct (ci_hops c !! hop) as [h|] eqn:Hh; [|left; by injection H as <- <-].
  unfold mbind at 1, ST_mbind in H. cbv beta in H. unfold update_streams, with_hop in H. rewrite Hh in H.
  destruct (hop_close_stream _ _ _ _ _ h _) as [[st x]|e|] eqn:Hc; [|left; by injection H as <- <-..].
  set (w1 := (set_hops (<[hop := h]> (ci_hops c)) c, set_streams st sh) : W) in H.
  assert (quiet (c, sh) w1) as Hq by done.
  destruct x as [[cell|]|e|]; simpl in H; [|left; injection H as <- <-; exact Hq..].
  assert (behav ≠ SendNothing ∧ ∃ e, cell = mkSend (Some (hp_hop_num h)) false (mkOuter (Some sid) (AEnd e)))
    as (Hb & end_msg & ->).
  { unfold hop_close_stream in Hc. ok_inv. destruct (terminate _ _ _ _ _) as [sm [[]|?|]]; try done.
    destruct behav; [done|]. injection Hc as _ <-. eauto. }
  set (cell := mkSend _ _ _) in *.
  destruct (sends_send (λ m, m = cell) now cell eq_refl w1 w' r H) as [Hq'|(msg & Hm & Hs)].
  - left. etrans; [exact Hq|exact Hq'].
  - right. exists h, msg. subst msg. split_and!; [done..|]. by eapply sent_after_quiet.
Qed.
End circuit_send.

(** ** The tunnel *)

Section tunnel_send.
Context {Lo Li P MH F : Type}.
Context `{!OutboundClientLayer Lo, !InboundClientLayer Li, !MetaCellHandler MH Lo Li P}.
Context `{!MetaFrame MH Lo Li P, !IncomingStreamRequestFilter F, !HasRelayIds P}.
#[local] Abbreviation Tun := (Tunnel (Lo:=Lo) (Li:=Li) (P:=P) (MH:=MH) (F:=F)).
#[local] Abbreviation CM := (M (Lo:=Lo) (Li:=Li) (P:=P) (MH:=MH) (F:=F)).
Implicit Types (t : Tun) (c : Circuit Lo Li P) (s : ConfluxSet Lo Li P) (sh : Shared MH F) (v : RelayView).

Definition out_log sh : list (nat * nat * RelayMsgOuter) := hi_out (sh_history sh).

(** A leg when [N] messages have been sent: its handler and the relay agree on the number of its
    last message, which is [N] on the primary leg and less on the others.  Before the initial
    primary leg is chosen, nothing was sent. *)
Definition leg_sent (primary : nat) (selected : bool) (N : Z) v c : Prop :=
  ∃ h, ci_conflux_handler c = Some h ∧ last_on (ci_unique_id c) v = ch_last_seq_sent h ∧ rtt_known h ∧
    if selected
    then if decide (ci_unique_id c = primary) then ch_last_seq_sent h = N else 0 ≤ ch_last_seq_sent h < N
    else ch_last_seq_sent h = 0.

Definition numbers (N : Z) : list Z := seqZ 1 N.

(** The relay gave the numbers up to [N]. *)
Definition sent_part (jp : nat) (N : Z) s sh : Prop :=
  let v := relay_view jp (out_log sh) in
  v.2 = numbers N ∧ (if cs_selected_init_primary s then 0 < N else N = 0) ∧
  Forall (leg_sent (cs_primary_id s) (cs_selected_init_primary s) N v) (cs_legs s).

Definition sent_inv t : Prop :=
  let '(s, sh) := t in
  NoDup (leg_ids (cs_legs s)) ∧
  match cs_join_point s with
  | None => Forall (λ c, ci_conflux_handler c = None) (cs_legs s) ∧ out_log sh = [] ∧
            cs_selected_init_primary s = false
  | Some jp => ∃ N, sent_part (jp_hop jp) N s sh
  end.

Lemma on_leg_ok {A} e id (m : CM A) s sh s' sh' a :
  on_leg e id m (s, sh) = ((s', sh'), Ok a) →
  ∃ i c c', cs_legs s !! i = Some c ∧ ci_unique_id c = id ∧ m (c, sh) = ((c', sh'), Ok a) ∧
    s' = set_legs (<[i := c']> (cs_legs s)) s.
Proof.
  unfold on_leg. intros H. destruct (position id (cs_legs s)) as [i|] eqn:Hp; [|done].
  destruct (cs_legs s !! i) as [c|] eqn:Hc; [|done]. destruct (m (c, sh)) as [[c' sh1] r] eqn:Hm.
  injection H as <- <- ->. exists i, c, c'. split_and!; [done|by eapply position_elem|done|done].
Qed.

(** However the operation ends. *)
Lemma on_leg_run {A} e id (m : CM A) s sh t' r :
  on_leg e id m (s, sh) = (t', r) →
  t' = (s, sh) ∨ ∃ i c c' sh', cs_legs s !! i = Some c ∧ ci_unique_id c = id ∧
    m (c, sh) = ((c', sh'), r) ∧ t' = (set_legs (<[i := c']> (cs_legs s)) s, sh').
Proof.
  unfold on_leg. intros H. destruct (position id (cs_legs s)) as [i|] eqn:Hp; [|left; by injection H].
  destruct (cs_legs s !! i) as [c|] eqn:Hc; [|left; by injection H].
  destruct (m (c, sh)) as [[c' sh1] r1] eqn:Hm. injection H as <- <-. right.
  exists i, c, c', sh1. split_and!; [done|by eapply position_elem|done|done].
Qed.

Lemma leg_ids_insert (legs : list (Circuit Lo Li P)) i c c' :
  legs !! i = Some c → ci_unique_id c' = ci_unique_id c → leg_ids (<[i := c']> legs) = leg_ids legs.
Proof.
  intros Hi Hid. etrans; [apply (list_fmap_insert ci_unique_id legs i c')|].
  apply list_insert_id. etrans; [apply (list_lookup_fmap ci_unique_id)|]. rewrite Hi. simpl. by rewrite Hid.
Qed.

Lemma leg_unique (legs : list (Circuit Lo Li P)) i j c c' :
  NoDup (leg_ids legs) → legs !! i = Some c → legs !! j = Some c' → ci_unique_id c = ci_unique_id c' → i = j.
Proof.
  intros Hnd Hi Hj Heq. eapply NoDup_lookup; [exact Hnd|..].
  - etrans; [apply (list_lookup_fmap ci_unique_id)|]. rewrite Hi. simpl. done.
  - etrans; [apply (list_lookup_fmap ci_unique_id)|]. rewrite Hj. simpl. by rewrite Heq.
Qed.

Lemma leg_sent_idle primary sel N v c c' :
  leg_idle c c' → leg_sent primary sel N v c → leg_sent primary sel N v c'.
Proof.
  intros [Hid Hh] (h & Hc & Hv & Hr & Hs). rewrite Hc in Hh. unfold leg_sent. rewrite Hid.
  destruct (ci_conflux_handler c') as [h'|]; [|done]. destruct Hh as [Hl Hr'].
  exists h'. rewrite Hl. split_and!; auto.
Qed.

(** A leg after an operation that sends nothing. *)
Lemma idle_insert s sh i c c' sh' :
  cs_legs s !! i = Some c → idle (c, sh) (c', sh') → sent_inv (s, sh) →
  sent_inv (set_legs (<[i := c']> (cs_legs s)) s, sh').
Proof.
  intros Hi (Hle & Hview & Hout) [Hnd Hinv]. simpl in Hle, Hout, Hview.
  unfold sent_inv. simpl. rewrite (leg_ids_insert _ _ _ _ Hi) by apply Hle. split; [done|].
  unfold out_log in *. destruct (cs_join_point s) as [jp|].
  - destruct Hinv as (N & Hv & HN & Hall). exists N. unfold sent_part, out_log in *. simpl. rewrite Hview.
    split_and!; [done..|]. apply Forall_insert; [done|]. eapply leg_sent_idle; [done|].
    by eapply Forall_lookup_1.
  - destruct Hinv as (Hall & ? & ?). pose proof (Forall_lookup_1 _ _ _ _ Hall Hi) as Hn. rewrite (Hout Hn).
    split_and!; [|done..]. apply Forall_insert; [done|].
    destruct Hle as [_ Hh]. rewrite Hn in Hh. by destruct (ci_conflux_handler c').
Qed.

Lemma idle_step {A} e id (m : CM A) `{!Keeps idle m} t t' r :
  on_leg e id m t = (t', r) → sent_inv t → sent_inv t'.
Proof.
  destruct t as [s sh]. intros [->|(i & c & c' & sh' & Hi & _ & Hm & ->)]%on_leg_run Hinv; [done|].
  apply (keeps_ok (R:=idle)) in Hm; [|apply _]. by eapply idle_insert.
Qed.

(** Before the tunnel has a join point nothing is numbered, whatever is sent. *)
Lemma none_insert msg s sh i c c' sh' :
  cs_legs s !! i = Some c → sent_on msg (c, sh) (c', sh') → cs_join_point s = None →
  sent_inv (s, sh) → sent_inv (set_legs (<[i := c']> (cs_legs s)) s, sh').
Proof.
  intros Hi [Hid' Hm] Hjp [Hnd Hinv]. simpl in *. rewrite Hjp in *. destruct Hinv as (Hall & Hlog & Hsel).
  rewrite (leg_ids_insert _ _ _ _ Hi Hid').
  rewrite (Forall_lookup_1 _ _ _ _ Hall Hi) in Hm. destruct Hm as [Hn Hhi]. unfold out_log in *. rewrite Hhi.
  split_and!; [done| |done|done]. by apply Forall_insert.
Qed.

Lemma idle_step_none e id now msg t t' :
  on_leg e id (send_relay_cell now msg) t = (t', Ok tt) → cs_join_point t.1 = None →
  sent_inv t → sent_inv t'.
Proof.
  destruct t as [s sh], t' as [s' sh'].
  intros (i & c & c' & Hi & Hid & Hm%send_ok & ->)%on_leg_ok. by eapply none_insert.
Qed.

(** ** Numbers and cells *)


Lemma note_cell_sent_ok cmd (h h' : ClientConfluxMsgHandler) :
  note_cell_sent cmd h = Ok h' →
  ch_last_seq_sent h' = ch_last_seq_sent h + (if cmd_counts_towards_seqno cmd then 1 else 0) ∧
  ch_state h' = ch_state h ∧ ch_init_rtt h' = ch_init_rtt h.
Proof.
  unfold note_cell_sent. destruct (cmd_counts_towards_seqno cmd); [|intros [= ->]; split_and!; [lia|done..]].
  simpl. unfold client_inc_last_seq_sent. intros (n & Hn & Hh)%bind_ok. injection Hh as <-.
  by apply uadd_inv in Hn as [-> _].
Qed.

(** ** Numbered messages *)

(** Before message [N + 1] goes out on the primary leg. *)
Definition leg_ready (primary : nat) (N : Z) v c : Prop :=
  ∃ h, ci_conflux_handler c = Some h ∧ last_on (ci_unique_id c) v = ch_last_seq_sent h ∧ rtt_known h ∧
    0 ≤ ch_last_seq_sent h ≤ N ∧ (ci_unique_id c = primary → ch_last_seq_sent h = N).

Definition ready (N : Z) s v : Prop :=
  v.2 = numbers N ∧ (cs_selected_init_primary s = false → min_init_rtt (cs_legs s) = None) ∧
  Forall (leg_ready (cs_primary_id s) N v) (cs_legs s).

Lemma numbers_snoc N : 0 ≤ N → numbers N ++ [N + 1] = numbers (N + 1).
Proof. intros HN. unfold numbers. rewrite seqZ_app by lia. f_equal. by rewrite (Z.add_comm 1 N). Qed.

Lemma min_init_rtt_some (legs : list (Circuit Lo Li P)) i c :
  legs !! i = Some c → is_Some (circ_init_rtt c) → min_init_rtt legs ≠ None.
Proof.
  revert i. induction legs as [|c0 legs IH]; intros i Hi [r Hr]; simpl; [done|].
  destruct i as [|i]; simplify_eq/=.
  - rewrite Hr. destruct (min_init_rtt legs) as [[??]|]; [by case_match|done].
  - specialize (IH i Hi (mk_is_Some _ _ Hr)).
    destruct (circ_init_rtt c0), (min_init_rtt legs) as [[??]|]; try done. by case_match.
Qed.

Lemma last_on_insert_eq leg n v l : last_on leg (<[leg := n]> v.1, l) = n.
Proof. unfold last_on. simpl. by rewrite lookup_insert_eq. Qed.
Lemma last_on_insert_ne leg leg' n v l : leg ≠ leg' → last_on leg' (<[leg := n]> v.1, l) = last_on leg' v.
Proof. intros Hne. unfold last_on. simpl. by rewrite lookup_insert_ne. Qed.

(** The message gets the next number, on the primary leg. *)
Lemma numbered_insert msg jp N s sh i c c' sh' :
  cs_legs s !! i = Some c → ci_unique_id c = cs_primary_id s → sent_on msg (c, sh) (c', sh') →
  cmd_counts_towards_seqno (msg_cmd (ro_msg (sr_cell msg))) = true → sr_hop msg = Some jp →
  NoDup (leg_ids (cs_legs s)) → 0 ≤ N → ready N s (relay_view jp (out_log sh)) →
  let s' := set_legs (<[i := c']> (cs_legs s)) s in
  sent_part jp (N + 1) s' sh' ∧ cs_join_point s' = cs_join_point s ∧
  leg_ids (cs_legs s') = leg_ids (cs_legs s).
Proof.
  intros Hi Hid [Hid' Hm] Hcnt Hhop Hnd HN (Hv & Hsel & Hall).
  simpl in Hid', Hm. simpl. rewrite (leg_ids_insert _ _ _ _ Hi Hid'). split; [|done].
  pose proof (Forall_lookup_1 _ _ _ _ Hall Hi) as (h & Hh & Hlast & Hrtt & _ & HhN). rewrite Hh in Hm.
  destruct Hm as (h' & hop & Hs%note_cell_sent_ok & Hh' & Hhop' & Hhi & Hst). simplify_eq.
  rewrite Hcnt in Hs. destruct Hs as (Hs1 & Hs2 & Hs3).
  assert (ch_state h = Linked) as Hl.
  { destruct Hst as [Heq|]; [|done]. by rewrite Heq in Hcnt. }
  assert (cs_selected_init_primary s = true) as Hseld.
  { destruct (cs_selected_init_primary s) eqn:He; [done|]. exfalso.
    apply (min_init_rtt_some _ _ _ Hi); [|by apply Hsel]. unfold circ_init_rtt. rewrite Hh. by apply Hrtt. }
  unfold sent_part. simpl. unfold out_log in *. rewrite Hhi, Hseld. simpl.
  rewrite relay_view_snoc, relay_step_counted by done. simpl.
  rewrite Hid in *. rewrite Hv, Hlast, HhN by done.
  split; [by apply numbers_snoc|]. split; [lia|].
  apply Forall_lookup. intros j x Hx. destruct (decide (i = j)) as [<-|Hne].
  - rewrite list_lookup_insert_eq in Hx by (by eapply lookup_lt_Some). injection Hx as <-.
    exists h'. rewrite Hid', last_on_insert_eq, decide_True by done. unfold rtt_known. rewrite Hs2, Hs3.
    split_and!; [done|lia|done|lia].
  - rewrite list_lookup_insert_ne in Hx by done.
    destruct (Forall_lookup_1 _ _ _ _ Hall Hx) as (hx & Hhx & Hlx & Hrx & Hb & _).
    assert (ci_unique_id x ≠ cs_primary_id s) as Hnp.
    { intros Heq. apply Hne, (leg_unique _ _ _ _ _ Hnd Hi Hx). congruence. }
    exists hx. rewrite last_on_insert_ne, decide_False by congruence. split_and!; [done..|lia|lia].
Qed.

Lemma numbered_step e now msg jp N s sh s' sh' :
  on_leg e (cs_primary_id s) (send_relay_cell now msg) (s, sh) = ((s', sh'), Ok tt) →
  cmd_counts_towards_seqno (msg_cmd (ro_msg (sr_cell msg))) = true → sr_hop msg = Some jp →
  NoDup (leg_ids (cs_legs s)) → 0 ≤ N → ready N s (relay_view jp (out_log sh)) →
  sent_part jp (N + 1) s' sh' ∧ cs_join_point s' = cs_join_point s ∧
  leg_ids (cs_legs s') = leg_ids (cs_legs s).
Proof.
  intros (i & c & c' & Hi & Hid & Hm%send_ok & ->)%on_leg_ok. by eapply numbered_insert.
Qed.

(** ** Choosing the primary leg *)

Lemma position_some id (legs : list (Circuit Lo Li P)) i :
  position id legs = Some i → ∃ c, legs !! i = Some c ∧ ci_unique_id c = id.
Proof.
  revert i. induction legs as [|c legs IH]; intros i Hp; simpl in Hp; [done|].
  destruct (Nat.eqb_spec (ci_unique_id c) id); [simplify_eq; by exists c|].
  destruct (position id legs) as [j|]; simplify_eq/=. by apply IH.
Qed.

Lemma set_legs_id s i c : cs_legs s !! i = Some c → set_legs (<[i := c]> (cs_legs s)) s = s.
Proof. intros Hi. rewrite list_insert_id by done. by destruct s. Qed.

Lemma on_primary_some {A} (m : CM A) s sh i c :
  position (cs_primary_id s) (cs_legs s) = Some i → cs_legs s !! i = Some c →
  on_primary m (s, sh) =
    let '((c', sh'), r) := m (c, sh) in ((set_legs (<[i := c']> (cs_legs s)) s, sh'), r).
Proof.
  intros Hp Hc. unfold on_primary, mbind, ST_mbind. simpl.
  destruct (cs_legs s) as [|c0 legs] eqn:Hl; [done|]. unfold on_leg. rewrite Hl, Hp, Hc.
  by destruct (m (c, sh)) as [[??]?].
Qed.

Lemma on_primary_none {A} (m : CM A) s sh :
  position (cs_primary_id s) (cs_legs s) = None → ∃ e, on_primary m (s, sh) = ((s, sh), Err e).
Proof.
  intros Hp. unfold on_primary, mbind, ST_mbind. simpl. destruct (cs_legs s) as [|c0 legs] eqn:Hl; [by eexists|].
  unfold on_leg. rewrite Hl, Hp. by eexists.
Qed.

Lemma primary_seq_some s sh i c h :
  position (cs_primary_id s) (cs_legs s) = Some i → cs_legs s !! i = Some c → ci_conflux_handler c = Some h →
  primary_last_seq_sent (s, sh) = ((s, sh), Ok (ch_last_seq_sent h)).
Proof.
  intros Hp Hc Hh. unfold primary_last_seq_sent. rewrite (on_primary_some _ s sh i c Hp Hc).
  unfold mbind, ST_mbind. simpl. unfold circ_last_seq_sent. rewrite Hh. simpl. by rewrite set_legs_id.
Qed.

Lemma select_no_panic check s legs best : select_min_rtt check s legs best ≠ Panic.
Proof.
  revert best. induction legs as [|c legs IH]; intros best; simpl; [done|].
  unfold join_point_hop. destruct (cs_join_point s); simpl; [|done].
  destruct (ci_hops c !! _); simpl; [|done]. destruct (_ && _); [done|].
  destruct (leg_rtt_usec c _); simpl; done.
Qed.

(** The outcome of choosing the primary leg when [N] messages were sent: the set is ready for the
    next one, after the SWITCH cell if there is one, which advances the leg by at least one. *)
Definition update_post (jp : nat) (N : Z) s sh s' sh' (o : option SendRelayCell) : Prop :=
  let v := relay_view jp (out_log sh) in
  sh' = sh ∧ cs_join_point s' = cs_join_point s ∧ leg_ids (cs_legs s') = leg_ids (cs_legs s) ∧
  match o with
  | None => ready N s' v
  | Some cell => cs_selected_init_primary s' = true ∧ ∃ d, 1 ≤ d ∧
      cell = mkSend (Some jp) false (mkOuter None (AConfluxSwitch (mkConfluxSwitch d))) ∧
      last_on (cs_primary_id s') v + d = N ∧
      ready N s' (<[cs_primary_id s' := N]> v.1, v.2)
  end.

Lemma sent_ready jp N s sh :
  sent_part jp N s sh → cs_selected_init_primary s = true → ready N s (relay_view jp (out_log sh)).
Proof.
  intros (Hv & HN & Hall) Hsel. rewrite Hsel in HN, Hall. split_and!; [done|by rewrite Hsel|].
  eapply Forall_impl; [exact Hall|]. intros c (h & Hh & Hl & Hr & Hc). exists h. split_and!; [done..| | |].
  all: destruct (decide _); lia.
Qed.

(** The initial primary leg is chosen before anything is sent. *)
Lemma init_ready jp N s sh :
  sent_part jp N s sh → cs_selected_init_primary s = false →
  ready N (maybe_select_init_primary s) (relay_view jp (out_log sh)).
Proof.
  intros (Hv & HN & Hall) Hsel. rewrite Hsel in HN, Hall. subst N.
  assert (∀ p, Forall (leg_ready p 0 (relay_view jp (out_log sh))) (cs_legs s)) as Hr.
  { intros p. eapply Forall_impl; [exact Hall|]. intros c (h & Hh & Hl & Hr & Hc). exists h. by rewrite Hc in *. }
  unfold maybe_select_init_primary. destruct (min_init_rtt (cs_legs s)) as [[best r]|] eqn:Hm.
  - split_and!; [done..|apply Hr].
  - split_and!; [done|done|apply Hr].
Qed.

(** Moving to another leg: the number of the last message moves with it. *)
Lemma switch_spec jp N s sh p new :
  cs_join_point s = Some p → jp_hop p = jp → NoDup (leg_ids (cs_legs s)) →
  sent_part jp N s sh → cs_selected_init_primary s = true → cs_primary_id s ≠ new →
  match (prev_last_seq_sent ← primary_last_seq_sent;
         _ ← modify (λ t, (set_primary new t.1, t.2));
         new_last_seq_sent ← primary_last_seq_sent;
         delta ← lift (usub prev_last_seq_sent new_last_seq_sent);
         seqno_delta ← lift (ok_or (if delta <=? u32_max then Some delta else None)
           (Internal "Seqno delta for switch does not fit in u32?!"));
         _ ← on_primary (zoom_res fst (λ c w, (c, w.2))
               (λ c, c ← circ_set_last_seq_sent prev_last_seq_sent c; Ok (c, tt)));
         mret (Some (mkSend (Some (jp_hop p)) false
                       (mkOuter None (AConfluxSwitch (mkConfluxSwitch seqno_delta)))))) (s, sh) with
  | ((s', sh'), Ok o) => update_post jp N s sh s' sh' o
  | (_, Err _) => True
  | (_, Panic) => False
  end.
Proof.
  intros Hjp Hhop Hnd (Hv & HN & Hall) Hsel Hne. rewrite Hsel in HN, Hall.
  destruct (position (cs_primary_id s) (cs_legs s)) as [i|] eqn:Hi; last first.
  { destruct (on_primary_none (c ← gets fst; lift (circ_last_seq_sent c)) s sh Hi) as [e He].
    by rewrite (st_bind_err _ _ _ _ _ He). }
  destruct (position_some _ _ _ Hi) as (c & Hc & Hid).
  destruct (Forall_lookup_1 _ _ _ _ Hall Hc) as (h & Hh & Hl & Hr & HhN). rewrite decide_True in HhN by done.
  rewrite (st_bind_run _ _ _ _ _ (primary_seq_some _ _ _ _ _ Hi Hc Hh)), HhN. clear i c h Hi Hc Hid Hh Hl Hr HhN.
  cbv beta. rewrite (st_bind_run (S:=Tun) (E:=ProtoError) (modify _) _ _ _ _ eq_refl). cbv beta. simpl fst. simpl snd.
  destruct (position new (cs_legs s)) as [i|] eqn:Hi; last first.
  { destruct (on_primary_none (c ← gets fst; lift (circ_last_seq_sent c)) (set_primary new s) sh Hi) as [e He].
    by rewrite (st_bind_err _ _ _ _ _ He). }
  destruct (position_some _ _ _ Hi) as (c & Hc & Hid).
  destruct (Forall_lookup_1 _ _ _ _ Hall Hc) as (h & Hh & Hl & Hr & HhN). rewrite decide_False in HhN by congruence.
  rewrite (st_bind_run _ _ _ _ _ (primary_seq_some (set_primary new s) _ _ _ _ Hi Hc Hh)).
  cbv beta. rewrite usub_ok by lia. rewrite (st_bind_run (S:=Tun) (E:=ProtoError) (lift _) _ _ _ _ eq_refl).
  cbv beta. destruct (_ <=? u32_max); [|done]. simpl ok_or. rewrite (st_bind_run (S:=Tun) (E:=ProtoError) (lift _) _ _ _ _ eq_refl).
  rewrite (st_bind_run (on_primary _) _ (set_primary new s, sh)
    (set_legs (<[i := set_conflux_handler (Some (set_sent N h)) c]> (cs_legs s)) (set_primary new s), sh) tt); last first.
  { rewrite (on_primary_some _ (set_primary new s) sh i c Hi Hc). unfold zoom_res, circ_set_last_seq_sent.
    simpl. by rewrite Hh. }
  unfold update_post. simpl. rewrite Hhop. split_and!; [done..|by apply (leg_ids_insert _ _ c)|done|].
  exists (N - ch_last_seq_sent h). rewrite Hid in Hl. rewrite Hl. split_and!; [lia|done|lia|].
  split_and!; [done|simpl; by rewrite Hsel|]. simpl.
  apply Forall_lookup. intros j x Hx. destruct (decide (i = j)) as [<-|Hij].
  - rewrite list_lookup_insert_eq in Hx by (by eapply lookup_lt_Some). injection Hx as <-.
    eexists. split; [done|]. simpl. rewrite Hid, last_on_insert_eq. split_and!; [done..|lia|lia|done].
  - rewrite list_lookup_insert_ne in Hx by done.
    destruct (Forall_lookup_1 _ _ _ _ Hall Hx) as (hx & Hhx & Hlx & Hrx & Hb).
    assert (ci_unique_id x ≠ new) as Hnp.
    { intros Heq. apply Hij, (leg_unique _ _ _ _ _ Hnd Hc Hx). congruence. }
    exists hx. rewrite last_on_insert_ne by done. split_and!; [done..| | |done]; destruct (decide _); lia.
Qed.

Lemma update_spec jp N s sh p :
  cs_join_point s = Some p → jp_hop p = jp → NoDup (leg_ids (cs_legs s)) → sent_part jp N s sh →
  match maybe_update_primary_leg (s, sh) with
  | ((s', sh'), Ok o) => update_post jp N s sh s' sh' o
  | (_, Err _) => True
  | (_, Panic) => False
  end.
Proof.
  intros Hjp Hhop Hnd Hsent. unfold maybe_update_primary_leg.
  rewrite (st_bind_run (S:=Tun) (E:=ProtoError) (gets _) _ _ _ _ eq_refl). cbv beta. cbn [fst]. rewrite Hjp.
  destruct (cs_selected_init_primary s) eqn:Hsel; last first.
  { rewrite (st_bind_run (S:=Tun) update_primary_due _ _ (maybe_select_init_primary s, sh) false); last first.
    { unfold update_primary_due, should_update_primary_leg. simpl. by rewrite Hsel. }
    simpl. unfold update_post. split; [done|]. pose proof (init_ready _ _ _ _ Hsent Hsel) as Hr.
    unfold maybe_select_init_primary in *. by destruct (min_init_rtt (cs_legs s)) as [[??]|]. }
  pose proof (sent_ready _ _ _ _ Hsent Hsel) as Hready.
  rewrite (st_bind_run (S:=Tun) update_primary_due _ _ (s, sh) (negb (length (cs_legs s) <? 2)%nat)); last first.
  { unfold update_primary_due, should_update_primary_leg. simpl. by rewrite Hsel. }
  cbv beta. destruct (negb (negb _)); [done|].
  rewrite (st_bind_run (S:=Tun) (E:=ProtoError) (gets _) _ _ _ _ eq_refl). cbv beta. cbn [fst].
  destruct (select_primary_leg s) as [new|e|] eqn:Hn; [|done|]; last first.
  { unfold select_primary_leg in Hn. by case_match; apply select_no_panic in Hn. }
  rewrite (st_bind_run (S:=Tun) (E:=ProtoError) (lift _) _ _ _ _ eq_refl). cbv beta.
  destruct new as [new|]; [|done]. destruct (Nat.eqb_spec (cs_primary_id s) new); [done|].
  by apply switch_spec.
Qed.

(** ** One message *)

Lemma on_primary_ok {A} (m : CM A) s sh t a :
  on_primary m (s, sh) = (t, Ok a) → ∃ e, on_leg e (cs_primary_id s) m (s, sh) = (t, Ok a).
Proof.
  unfold on_primary. intros H. st_inv. cbn [fst] in H. destruct (cs_legs s); [by st_inv|]. by eexists.
Qed.

Lemma switch_sent now jp d N s sh s' sh' :
  on_primary (send_relay_cell now
    (mkSend (Some jp) false (mkOuter None (AConfluxSwitch (mkConfluxSwitch d))))) (s, sh) = ((s', sh'), Ok tt) →
  cs_selected_init_primary s = true → last_on (cs_primary_id s) (relay_view jp (out_log sh)) + d = N →
  ready N s (<[cs_primary_id s := N]> (relay_view jp (out_log sh)).1, (relay_view jp (out_log sh)).2) →
  ready N s' (relay_view jp (out_log sh')) ∧
  cs_join_point s' = cs_join_point s ∧ leg_ids (cs_legs s') = leg_ids (cs_legs s).
Proof.
  intros [e (i & c & c' & Hi & Hid & [Hid' Hm]%send_ok & ->)%on_leg_ok]%on_primary_ok Hsel Hd (Hv & _ & Hall).
  simpl in Hid', Hm. simpl. rewrite (leg_ids_insert _ _ _ _ Hi Hid'). split; [|done].
  destruct (Forall_lookup_1 _ _ _ _ Hall Hi) as (h & Hh & Hl & Hr & Hb & HN). rewrite Hh in Hm.
  destruct Hm as (h' & hop & Hs & Hh' & [= <-] & Hhi & _). simpl in Hs. injection Hs as <-.
  unfold out_log in *. rewrite Hhi. simpl. rewrite relay_view_snoc. simpl. rewrite Nat.eqb_refl, Hid, Hd. simpl.
  split_and!; [done|simpl; by rewrite Hsel|]. simpl. apply Forall_insert; [done|].
  exists h. by rewrite Hid'.
Qed.

(** Sending through the set: a multiplexed message for the join point gets the next number. *)
Lemma send_on_leg_step now msg leg s sh s' sh' p N :
  send_relay_cell_on_leg now msg leg (s, sh) = ((s', sh'), Ok tt) →
  cs_join_point s = Some p → sr_hop msg = Some (jp_hop p) →
  cmd_counts_towards_seqno (msg_cmd (ro_msg (sr_cell msg))) = true →
  NoDup (leg_ids (cs_legs s)) → sent_part (jp_hop p) N s sh →
  sent_part (jp_hop p) (N + 1) s' sh' ∧ cs_join_point s' = Some p ∧ leg_ids (cs_legs s') = leg_ids (cs_legs s).
Proof.
  intros H Hjp Hhop Hcnt Hnd Hsent.
  assert (0 ≤ N) as HN by (destruct Hsent as (_ & HN & _); case_match; lia).
  unfold send_relay_cell_on_leg in H. st_inv. simpl in *. rewrite Hjp, Hhop in *. st_inv.
  match goal with H : expect _ = _ |- _ => simpl in H; injection H as <- end.
  rewrite Hcnt, Nat.eqb_refl in *. simpl in *. st_inv.
  match goal with H : maybe_update_primary_leg _ = (?t, Ok ?o) |- _ =>
    pose proof (update_spec _ N s sh p Hjp eq_refl Hnd Hsent) as Hu; rewrite H in Hu; destruct t as [s1 sh1]; rename o into cell end.
  destruct Hu as (-> & Hjp1 & Hids1 & Hu). rewrite Hjp in Hjp1. simpl in H.
  match goal with H : match cell with _ => _ end _ = (?t, Ok _) |- _ => rename H into Hsw; destruct t as [s2 sh2] end.
  assert (ready N s2 (relay_view (jp_hop p) (out_log sh2)) ∧ cs_join_point s2 = cs_join_point s1 ∧
          leg_ids (cs_legs s2) = leg_ids (cs_legs s1)) as (Hready & Hjp2 & Hids2).
  { destruct cell as [cell|].
    - destruct Hu as (Hsel & d & Hd & -> & Hl & Hr). match type of Hsw with _ = (_, Ok ?u) => destruct u end.
      by eapply switch_sent.
    - by apply st_ret_ok in Hsw as [[= -> ->] _]. }
  rewrite <-Hids1, <-Hids2 in Hnd.
  destruct (numbered_step _ _ _ _ N _ _ _ _ H Hcnt Hhop Hnd HN Hready) as (H1 & H2 & H3).
  simpl in H2, H3. split_and!; [done|by rewrite H2, Hjp2|by rewrite H3, Hids2].
Qed.

(** ** Linking and adding legs *)

Lemma link_legs_step now jp i n t t' r :
  link_legs now jp i n t = (t', r) → sent_inv t → sent_inv t'.
Proof.
  revert i t. induction n as [|n IH]; intros i t H Hinv; simpl in H; [by injection H as <- <-|].
  unfold mbind, ST_mbind in H. cbn [gets] in H.
  match type of H with (match ?m t with _ => _ end) = _ => assert (sent_inv (m t).1) as H1; [|destruct (m t) as [t1 [[]|?|]]] end.
  - destruct (cs_legs t.1 !! i) as [c|]; [|done]. destruct (conflux_status c) as [[]|]; try done.
    match goal with |- sent_inv (?m t).1 => destruct (m t) as [t1 x] eqn:Hl end.
    eapply idle_step; [|exact Hl|done]. apply frame_begin_conflux_link; [|apply _].
    intros hop. by apply idle_note_sent.
  - by apply (IH _ _ H).
  - by injection H as <- <-.
  - by injection H as <- <-.
Qed.

(** The handlers that [add_legs] installs: a leg that has one keeps it. *)
Definition installed (jp : JoinPoint P) (nonce : list Z) (params : CongestionWindowParams) c c' : Prop :=
  ci_unique_id c' = ci_unique_id c ∧
  ci_conflux_handler c' =
    Some (default (ClientConfluxMsgHandler_new (jp_hop jp) nonce params) (ci_conflux_handler c)).

Lemma install_handlers_ok jp nonce params st (legs legs' : list (Circuit Lo Li P)) :
  install_handlers jp nonce params st legs = (legs', Ok tt) → Forall2 (installed jp nonce params) legs legs'.
Proof.
  revert legs'. induction legs as [|c legs IH]; intros legs' H; simpl in H; [by simplify_eq|].
  destruct (install_handler _ _ _ _ c) as [c' [[]|e|]] eqn:Hc; [|done..].
  destruct (install_handlers _ _ _ _ legs) as [legs1 r]. simplify_eq. constructor; [|by apply IH].
  unfold install_handler, conflux_status in Hc. unfold installed.
  destruct (ci_conflux_handler c) as [h|] eqn:Hh; simpl in Hc; [by simplify_eq|].
  destruct (ci_hops c !! _); [|done]. by destruct (set_stream_map _ _ _); simplify_eq.
Qed.

(** Circuits whose identifiers the tunnel has not seen. *)
Definition fresh_circuits (new : list (Circuit Lo Li P)) t : Prop :=
  NoDup (leg_ids (cs_legs t.1 ++ new)) ∧
  Forall (λ c, ci_conflux_handler c = None ∧ ci_unique_id c ≠ cs_primary_id t.1 ∧
    ci_unique_id c ∉ (out_log t.2).*1.*1) new.

Lemma installed_ids jp nonce params (legs legs' : list (Circuit Lo Li P)) :
  Forall2 (installed jp nonce params) legs legs' → leg_ids legs' = leg_ids legs.
Proof. induction 1 as [|c c' ?? [Hid _] ? IH]; simpl; [done|]. by rewrite Hid, IH. Qed.

Lemma add_legs_ok new s sh s' sh' :
  add_legs (Lo:=Lo) new (s, sh) = ((s', sh'), Ok tt) →
  ∃ p params, sh' = sh ∧ cs_join_point s' = Some p ∧ cs_primary_id s' = cs_primary_id s ∧
    cs_selected_init_primary s' = cs_selected_init_primary s ∧
    match cs_join_point s with Some p0 => p = p0 | None => True end ∧
    Forall2 (installed p (cs_nonce s) params) (cs_legs s ++ new) (cs_legs s').
Proof.
  unfold add_legs. destruct new as [|c0 new]; [done|]. intros H. st_inv. cbn [fst snd] in *.
  match goal with H : match cs_join_point s with _ => _ end = Ok ?x |- _ => rename H into Hjp; rename x into p end.
  match goal with H : cwnd_params _ = Ok ?x |- _ => rename x into params end.
  unfold install_all in H. cbn in H.
  destruct (install_handlers _ _ _ _ _) as [legs r] eqn:Hi in H. injection H as <- <- ->.
  apply install_handlers_ok in Hi. exists p, params. split_and!; [done..| |done].
  destruct (cs_join_point s); [by injection Hjp|done].
Qed.

(** A leg that gets its handler has sent nothing. *)
Lemma installed_sent p nonce params primary sel N v c c' :
  installed p nonce params c c' → leg_sent primary sel N v c ∨
    ci_conflux_handler c = None ∧ last_on (ci_unique_id c) v = 0 ∧
    (sel = true → ci_unique_id c ≠ primary ∧ 0 < N) →
  leg_sent primary sel N v c'.
Proof.
  intros [Hid Hh] [(h & Hc & Hl)|(Hc & Hl & Hs)]; rewrite Hc in Hh; simpl in Hh; unfold leg_sent; rewrite Hid.
  - by exists h.
  - eexists. split_and!; [done..|]. simpl. destruct sel; [|done]. destruct Hs as [??]; [done|].
    rewrite decide_False by done. lia.
Qed.

Lemma add_legs_step new t t' :
  add_legs (Lo:=Lo) new t = (t', Ok tt) → fresh_circuits new t → sent_inv t → sent_inv t'.
Proof.
  destruct t as [s sh], t' as [s' sh'].
  intros (p & params & -> & Hjp & Hpr & Hsel & Hold & Hlegs)%add_legs_ok [Hnd Hnew] [_ Hinv]. simpl in Hnd, Hnew.
  unfold sent_inv. rewrite (installed_ids _ _ _ _ _ Hlegs), Hjp. split; [done|].
  destruct (cs_join_point s) as [p0|].
  - subst p0. destruct Hinv as (N & Hv & HN & Hall). exists N. unfold sent_part. rewrite Hpr, Hsel.
    split_and!; [done..|]. apply Forall_lookup. intros i c' Hi.
    destruct (Forall2_lookup_r _ _ _ _ _ Hlegs Hi) as (c & Hc & Hins). eapply installed_sent; [done|].
    apply list_elem_of_lookup_2, elem_of_app in Hc as [Hc|Hc].
    + left. rewrite Forall_forall in Hall. by apply Hall.
    + right. rewrite Forall_forall in Hnew. destruct (Hnew _ Hc) as (Hn & Hp & Hl).
      split_and!; [done|by apply relay_view_fresh|].
      intros Hs. rewrite Hs in HN. done.
  - destruct Hinv as (Hall & Hlog & Hsl). exists 0. unfold sent_part. rewrite Hpr, Hsel, Hsl, Hlog.
    split_and!; [done..|]. apply Forall_lookup. intros i c' Hi.
    destruct (Forall2_lookup_r _ _ _ _ _ Hlegs Hi) as (c & Hc & Hins). eapply installed_sent; [done|]. right.
    split_and!; [|done|done]. apply list_elem_of_lookup_2, elem_of_app in Hc as [Hc|Hc].
    + rewrite Forall_forall in Hall. by apply Hall.
    + rewrite Forall_forall in Hnew. by apply Hnew.
Qed.

(** ** Runs of a tunnel *)

(** A message that goes through the set: a multiplexed one is for the join point. *)
Definition well_routed (msg : SendRelayCell) s : Prop :=
  is_switch (ro_msg (sr_cell msg)) = false ∧
  (cmd_counts_towards_seqno (msg_cmd (ro_msg (sr_cell msg))) = true →
   ∀ p, cs_join_point s = Some p → sr_hop msg = Some (jp_hop p)).

Lemma send_step now msg leg t t' :
  send_relay_cell_on_leg now msg leg t = (t', Ok tt) → well_routed msg t.1 → sent_inv t → sent_inv t'.
Proof.
  intros H [Hsw Hroute] Hinv. destruct t as [s sh], t' as [s' sh'].
  destruct (cmd_counts_towards_seqno (msg_cmd (ro_msg (sr_cell msg)))) eqn:Hcnt; simpl in Hroute.
  - destruct (cs_join_point s) as [p|] eqn:Hjp.
    + destruct Hinv as [Hnd Hinv]. rewrite Hjp in Hinv. destruct Hinv as [N Hsent].
      destruct (send_on_leg_step _ _ _ _ _ _ _ _ _ H Hjp (Hroute eq_refl p eq_refl) Hcnt Hnd Hsent) as (H1 & H2 & H3).
      split; [by rewrite H3|]. rewrite H2. eauto.
    + unfold send_relay_cell_on_leg in H. st_inv. cbn [fst] in *. rewrite Hjp in *. st_inv.
      eapply idle_step_none; [exact H|done|done].
  - assert (∃ e id, on_leg e id (send_relay_cell now msg) (s, sh) = ((s', sh'), Ok tt)) as (e & id & Hs).
    { unfold send_relay_cell_on_leg in H. rewrite Hcnt in H. st_inv. cbn [fst] in *.
      destruct (cs_join_point s); st_inv; by eexists _, _. }
    eapply idle_step; [|exact Hs|done]. apply frame_send_relay_cell. intros hop. by apply idle_note_sent.
Qed.

(** A hop of a leg to which multiplexed messages may go directly: the join point, on the primary
    leg, once that leg has been chosen. *)
Definition primary_join (id hop : nat) s : Prop :=
  ∀ p, cs_join_point s = Some p →
    hop = jp_hop p ∧ id = cs_primary_id s ∧ cs_selected_init_primary s = true.

Lemma direct_insert msg hop s sh i c c' sh' :
  cs_legs s !! i = Some c → sent_on msg (c, sh) (c', sh') → sr_hop msg = Some hop →
  primary_join (ci_unique_id c) hop s →
  cmd_counts_towards_seqno (msg_cmd (ro_msg (sr_cell msg))) = true →
  sent_inv (s, sh) → sent_inv (set_legs (<[i := c']> (cs_legs s)) s, sh').
Proof.
  intros Hi Hsent Hhop Hj Hcnt Hinv.
  destruct (cs_join_point s) as [p|] eqn:Hjp; [|by eapply none_insert].
  destruct (Hj p Hjp) as (-> & Hid & Hsel). destruct Hinv as [Hnd Hinv]. rewrite Hjp in Hinv.
  destruct Hinv as [N Hpart]. assert (0 ≤ N) by (destruct Hpart as (_ & HN & _); rewrite Hsel in HN; lia).
  destruct (numbered_insert msg (jp_hop p) N s sh i c c' sh') as (H1 & H2 & H3); try done.
  { by apply sent_ready. }
  split; [by rewrite H3|]. rewrite H2, Hjp. eauto.
Qed.

Lemma xon_step now e id rate sid buffered hop t t' r :
  on_leg e id (send_xon_on_hop now rate sid buffered hop) t = (t', r) →
  primary_join id hop t.1 → sent_inv t → sent_inv t'.
Proof.
  destruct t as [s sh]. intros [->|(i & c & c' & sh' & Hi & <- & Hm & ->)]%on_leg_run Hj Hinv; [done|].
  destruct (sends_xon _ _ _ _ _ _ _ _ Hm) as [Hq|(msg & [Hhop Hcmd] & Hs)].
  - by eapply idle_insert; [|apply quiet_sub|].
  - eapply direct_insert; [done..|by rewrite Hcmd|done].
Qed.

(** Closing a stream of a hop of a leg. *)
Definition close_allowed (id hop : nat) (behav : CloseStreamBehavior) s : Prop :=
  behav = SendNothing ∨
  ∀ c h, leg id s = Some c → ci_hops c !! hop = Some h → primary_join id (hp_hop_num h) s.

Lemma leg_lookup id s i c :
  NoDup (leg_ids (cs_legs s)) → cs_legs s !! i = Some c → ci_unique_id c = id → leg id s = Some c.
Proof.
  intros Hnd Hi <-. unfold leg. destruct (position (ci_unique_id c) (cs_legs s)) as [j|] eqn:Hp.
  - destruct (position_some _ _ _ Hp) as (c' & Hj & Hid). simpl. rewrite Hj.
    pose proof (leg_unique _ _ _ _ _ Hnd Hi Hj (eq_sym Hid)) as ->. congruence.
  - exfalso. revert i Hi Hp. clear Hnd. induction (cs_legs s) as [|c0 l IH]; intros i Hi Hp; [done|].
    simpl in Hp. destruct (Nat.eqb_spec (ci_unique_id c0) (ci_unique_id c)); [done|].
    destruct i as [|i]; [by injection Hi as ->|]. destruct (position _ l) eqn:Hl; [done|]. by apply (IH i).
Qed.

Lemma close_step now e id hop sid behav reason expiry t t' r :
  on_leg e id (close_stream now hop sid behav reason expiry) t = (t', r) →
  close_allowed id hop behav t.1 → sent_inv t → sent_inv t'.
Proof.
  destruct t as [s sh]. intros H Hok Hinv. pose proof Hinv as [Hnd _].
  pose proof (on_leg_run _ _ _ _ _ _ _ H) as [->|(i & c & c' & sh' & Hi & Hid & Hm & ->)]; [done|].
  destruct (sends_close _ _ _ _ _ _ _ _ _ _ Hm) as [Hq|(h & msg & Hb & Hh & Hhop & Hcmd & Hs)].
  - by eapply idle_insert; [|apply quiet_sub|].
  - destruct Hok as [|Hok]; [done|]. eapply direct_insert; [done..| |by rewrite Hcmd|done].
    rewrite Hid. eapply Hok; [|done]. by eapply leg_lookup.
Qed.

Lemma remove_step id s s' c sh : remove id s = (s', Ok c) → sent_inv (s, sh) → sent_inv (s', sh).
Proof.
  intros H. pose proof (remove_legs _ _ _ _ H) as Hsub. unfold remove in H.
  destruct (remove_unchecked id s) as [[c0 s1]|?|] eqn:Hu; [|done..]. injection H as <- _.
  unfold remove_unchecked in Hu. ok_inv. simpl in *. intros [Hnd Hinv]. split.
  { eapply sublist_NoDup; [exact Hnd|]. by apply fmap_sublist. }
  destruct (cs_join_point s) as [jp|]; simpl.
  - destruct Hinv as (N & Hv & HN & Hall). exists N. split_and!; [done..|].
    rewrite Forall_forall in Hall |- *. intros c1 Hc1. apply Hall. by eapply elem_of_sublist.
  - destruct Hinv as (Hall & ?). split; [|done].
    rewrite Forall_forall in Hall |- *. intros c1 Hc1. apply Hall. by eapply elem_of_sublist.
Qed.

(** What happens to a tunnel.  Messages are sent through the set; cells, SENDMEs and messages from
    the out-of-order buffer arrive; streams are begun; an XON is sent and a stream is closed, which
    sends directly on a leg; a leg is removed; circuits are added and linked; hops are added; the
    users of the streams and the handlers change what the legs share. *)
Inductive tunnel_step : Tun → Tun → Prop :=
| step_send now msg leg t t' :
    well_routed msg t.1 → send_relay_cell_on_leg now msg leg t = (t', Ok tt) → tunnel_step t t'
| step_cell env e id cell r t t' :
    on_leg e id (handle_cell env id cell) t = (t', r) → tunnel_step t t'
| step_dequeue env e id hop ctw sid msg r t t' :
    on_leg e id (handle_in_order_relay_msg env hop id ctw sid msg) t = (t', r) → tunnel_step t t'
| step_sendme now e id hop msg signals r t t' :
    on_leg e id (handle_sendme now hop msg signals) t = (t', r) → tunnel_step t t'
| step_begin e id hop msg checker r t t' :
    on_leg e id (begin_stream hop msg checker) t = (t', r) → tunnel_step t t'
| step_xon now e id rate sid buffered hop r t t' :
    primary_join id hop t.1 →
    on_leg e id (send_xon_on_hop now rate sid buffered hop) t = (t', r) → tunnel_step t t'
| step_close now e id hop sid behav reason expiry r t t' :
    close_allowed id hop behav t.1 →
    on_leg e id (close_stream now hop sid behav reason expiry) t = (t', r) → tunnel_step t t'
| step_remove id s s' c sh : remove id s = (s', Ok c) → tunnel_step (s, sh) (s', sh)
| step_add new t t' : fresh_circuits new t → add_legs new t = (t', Ok tt) → tunnel_step t t'
| step_link now r t t' : link_circuits now t = (t', r) → tunnel_step t t'
| step_hop {A} e id (m : CM A) r t t' :
    Keeps quiet m → on_leg e id m t = (t', r) → tunnel_step t t'
| step_shared s sh sh' : sh_history sh' = sh_history sh → tunnel_step (s, sh) (s, sh').

Lemma tunnel_step_inv t t' : tunnel_step t t' → sent_inv t → sent_inv t'.
Proof.
  intros [now msg leg ? ? Hw H|env e id cell r ? ? H|env e id hop ctw sid msg r ? ? H|
    now e id hop msg signals r ? ? H|e id hop msg checker r ? ? H|now e id rate sid buffered hop r ? ? Hj H|
    now e id hop sid behav reason expiry r ? ? Hc H|id s s' c sh H|new ? ? Hf H|now r ? ? H|
    A e id m r ? ? Hm H|s sh sh' H].
  - by apply (send_step _ _ _ _ _ H).
  - by apply (idle_step _ _ _ _ _ _ H).
  - by apply (idle_step _ _ _ _ _ _ H).
  - by apply (idle_step _ _ _ _ _ _ H).
  - by apply (idle_step _ _ _ _ _ _ H).
  - by apply (xon_step _ _ _ _ _ _ _ _ _ _ H).
  - by apply (close_step _ _ _ _ _ _ _ _ _ _ _ H).
  - by apply (remove_step _ _ _ _ _ H).
  - by apply (add_legs_step _ _ _ H).
  - unfold link_circuits, mbind, ST_mbind in H. cbn [gets lift] in H.
    destruct (primary_join_point _) as [[? jp]|]; simpl in H; [|by injection H as <- <-].
    by apply (link_legs_step _ _ _ _ _ _ _ H).
  - assert (Keeps idle m) by (intros w; apply quiet_sub, Hm). by apply (idle_step _ _ _ _ _ _ H).
  - unfold sent_inv, sent_part, out_log. by rewrite H.
Qed.

(** A tunnel with one circuit that has never been part of a conflux set. *)
Definition tunnel_initial t : Prop :=
  (∃ c, cs_legs t.1 = [c] ∧ ci_conflux_handler c = None) ∧ cs_join_point t.1 = None ∧
  cs_selected_init_primary t.1 = false ∧ out_log t.2 = [].

(** C3: the relay at the join point gives the multiplexed messages of a client the numbers 1, 2, 3,
    ... in the order in which they were sent, whatever leg each one takes, as long as they are
    routed as follows: a message that goes through the set and counts towards the sequence
    number is for the join point; an XON, or the END of a stream that is closed, which the
    reactor sends on a leg without asking the set, is for the join point on the leg chosen as
    primary; the circuits that are added are new to the tunnel and fit it.  Under these
    conditions it holds in every state that a tunnel reaches from one circuit by the steps of
    [tunnel_step], failed ones included, and [command_steps] shows that every command of the
    reactor is made of them; [close_stream_repeats_number] shows that the reactor does not keep
    the condition on END.  In such a state choosing the primary leg for the next message never
    panics: the subtraction of sequence numbers does not underflow.  A SWITCH cell that it asks
    for advances the new leg by at least one, so that the relay accepts it. *)
Theorem conflux_numbers t0 t p :
  tunnel_initial t0 → rtc tunnel_step t0 t → cs_join_point t.1 = Some p →
  let sent := (relay_view (jp_hop p) (out_log t.2)).2 in
  sent = numbers (Z.of_nat (length sent)) ∧
  (maybe_update_primary_leg t).2 ≠ Panic ∧
  ∀ cell, (maybe_update_primary_leg t).2 = Ok (Some cell) →
    ∃ d, 1 ≤ d ∧ ro_msg (sr_cell cell) = AConfluxSwitch (mkConfluxSwitch d).
Proof.
  intros ((c & Hl & Hc) & Hj & Hs & Ho) Hsteps Hjp.
  assert (sent_inv t) as Hinv.
  { assert (sent_inv t0) as H0.
    { destruct t0 as [s sh]. unfold sent_inv. cbn [fst snd] in *. rewrite Hl, Hj.
      split_and!; [apply NoDup_singleton|by apply Forall_singleton|done|done]. }
    clear Hl Hc Hj Hs Ho Hjp. induction Hsteps as [|t0 t1 t Hstep _ IH]; [done|].
    apply IH. by eapply tunnel_step_inv. }
  destruct t as [s sh], Hinv as [Hnd Hinv]. cbn [fst snd] in *. rewrite Hjp in Hinv. destruct Hinv as (N & Hsent).
  pose proof (update_spec _ _ _ _ p Hjp eq_refl Hnd Hsent) as Hu. destruct Hsent as (Hv & HN & _).
  split; [|destruct (maybe_update_primary_leg _) as [[s' sh'] [o|e|]]; [|done..]].
  - rewrite Hv. unfold numbers. rewrite length_seqZ. rewrite Z2Nat.id; [done|].
    destruct (cs_selected_init_primary s); lia.
  - split; [done|]. intros cell [= ->]. destruct Hu as (_ & _ & _ & _ & d & Hd & -> & _). by exists d.
Qed.
End tunnel_send.

(** ** The reactor takes these steps

    Every command that the reactor runs changes the tunnel by such steps only, provided that the
    messages in it go where the steps allow. *)

Section reactor_steps.
Context {Lo Li P MH F : Type}.
Context `{!OutboundClientLayer Lo, !InboundClientLayer Li, !MetaCellHandler MH Lo Li P}.
Context `{!MetaFrame MH Lo Li P, !IncomingStreamRequestFilter F, !HasRelayIds P}.
#[local] Abbreviation RX := (Rx (Lo:=Lo) (Li:=Li) (P:=P) (MH:=MH) (F:=F)).
#[local] Abbreviation RM := (Reactor.R (Lo:=Lo) (Li:=Li) (P:=P) (MH:=MH) (F:=F)).
#[local] Abbreviation TM := (T (Lo:=Lo) (Li:=Li) (P:=P) (MH:=MH) (F:=F)).
#[local] Abbreviation RCmd := (RunOnceCmdInner Lo Li P MH).
Implicit Types r : RX.

Definition command_allowed (cmd : RCmd) r : Prop :=
  let s := rx_circuits r in
  match cmd with
  | RSend _ cell _ | RConfluxHandshakeComplete _ cell | RBeginStream (Ok (cell, _)) _ _ _ => well_routed cell s
  | RSendMsgAndInstallHandler (Some msg) _ _ => unnumbered msg
  | RCloseStream hop _ behav _ _ =>
      ∀ id h, resolve_hop_location hop r = Some (id, h) → close_allowed id h behav s
  | RMaybeSendXon _ _ hop => ∀ id h, resolve_hop_location hop r = Some (id, h) → primary_join id h s
  | RLink circuits _ => fresh_circuits circuits (tunnel_of r) ∧ (add_legs circuits (tunnel_of r)).2 = Ok tt
  | _ => True
  end.

Definition same_tunnel r r' : Prop := tunnel_of r' = tunnel_of r.
#[export] Instance same_tunnel_preorder : PreOrder same_tunnel.
Proof. unfold same_tunnel. split; [done|]. intros ???. congruence. Qed.

#[local] Instance same_reply done x : Keeps same_tunnel (reply done x : RM unit).
Proof. by intros r. Qed.
#[local] Instance same_reply_opt done x : Keeps same_tunnel (reply_opt done x : RM unit).
Proof. destruct done; apply _. Qed.
#[local] Instance same_outcome renv tx x : Keeps same_tunnel (send_conflux_outcome renv tx x : RM unit).
Proof. unfold send_conflux_outcome. apply _. Qed.
#[local] Instance same_hs_result renv x b : Keeps same_tunnel (note_conflux_handshake_result renv x b : RM unit).
Proof.
  unfold note_conflux_handshake_result. apply keeps_bind; [apply _|intros r].
  case_match; [|apply _]. case_match; [|by apply keeps_modify].
  apply keeps_bind; [by apply keeps_modify|apply _].
Qed.

Lemma report_ok {A} done f (m : RM A) r r' a :
  report done f m r = (r', Ok a) → ∃ r1, m r = (r1, Ok a) ∧ tunnel_of r' = tunnel_of r1.
Proof.
  unfold report, mbind at 1, ST_mbind, catch. intros H.
  destruct (m r) as [r1 [x|e|]]; cbv iota beta in H; [|destruct e; by st_inv|by st_inv]. st_inv.
  - exists r1. split; [done|].
    match goal with H : reply_opt _ _ _ = _ |- _ => by apply (keeps_ok (R:=same_tunnel)) in H; [|apply _] end.
Qed.

Lemma in_tunnel_ok {A} (m : TM A) r r' a :
  in_tunnel m r = (r', Ok a) → m (tunnel_of r) = (tunnel_of r', Ok a).
Proof.
  unfold in_tunnel, with_err, zoom. destruct (m (tunnel_of r)) as [t [x|e|]] eqn:Hm; simpl; intros [= <- <-].
  by destruct t.
Qed.

Lemma send_steps now cell leg r r' :
  in_tunnel (send_relay_cell_on_leg now cell leg) r = (r', Ok tt) → well_routed cell (rx_circuits r) →
  rtc tunnel_step (tunnel_of r) (tunnel_of r').
Proof. intros H%in_tunnel_ok Hw. by eapply rtc_once, step_send. Qed.

(** A change of the handlers. *)
Lemma handler_steps h r r' :
  set_meta_handler h r = (r', Ok tt) →
  tunnel_step (tunnel_of r) (tunnel_of r') ∧ rx_circuits r' = rx_circuits r.
Proof.
  unfold set_meta_handler. intros H. st_inv. destruct (meta_handler _); [by st_inv|]. st_inv.
  split; [by apply step_shared|done].
Qed.

Lemma close_steps renv hop sid behav reason done r r' :
  run_close_stream renv hop sid behav reason done r = (r', Ok tt) →
  (∀ id h, resolve_hop_location hop r = Some (id, h) → close_allowed id h behav (rx_circuits r)) →
  rtc tunnel_step (tunnel_of r) (tunnel_of r').
Proof.
  unfold run_close_stream. intros H Hok. st_inv. unfold id in H.
  destruct (resolve_hop_location hop r) as [[leg_id hop_num]|]; simpl in H.
  2: { apply (keeps_ok (R:=same_tunnel)) in H; [|apply _]. rewrite H. done. }
  destruct (leg leg_id (rx_circuits r)) as [c|] eqn:Hl; simpl in H.
  2: { apply (keeps_ok (R:=same_tunnel)) in H; [|apply _]. rewrite H. done. }
  destruct (ci_hops c !! hop_num) as [h|]; [|by st_inv]. st_inv.
  assert (ci_unique_id c = leg_id) as Hid.
  { unfold leg in Hl. destruct (position leg_id _) as [i|] eqn:Hp; [|done]. simpl in Hl. by eapply position_elem. }
  match goal with H : catch _ _ = (?y, Ok _) |- _ => rename H into Hc; rename y into r1 end.
  apply (keeps_ok (R:=same_tunnel)) in H; [|apply _]. rewrite H. clear H.
  unfold catch, in_tunnel, with_err, zoom in Hc.
  destruct (on_leg _ _ _ (tunnel_of r)) as [t y] eqn:Ho.
  assert (tunnel_of r1 = t) as ->. { destruct t. by destruct y as [?|?|]; injection Hc as <- _. }
  eapply rtc_once, step_close; [|exact Ho]. rewrite Hid. by apply Hok.
Qed.

Lemma xon_steps renv rate sid hop r r' :
  run_maybe_send_xon renv rate sid hop r = (r', Ok tt) →
  (∀ id h, resolve_hop_location hop r = Some (id, h) → primary_join id h (rx_circuits r)) →
  rtc tunnel_step (tunnel_of r) (tunnel_of r').
Proof.
  unfold run_maybe_send_xon. intros H Hok. st_inv. unfold id in H.
  destruct (resolve_hop_location hop r) as [[leg_id hop_num]|]; [|by st_inv].
  destruct (leg _ _) as [c|]; [|by st_inv]. destruct (ci_hops c !! hop_num); [|by st_inv].
  apply in_tunnel_ok in H. eapply rtc_once, step_xon; [|exact H]. by apply Hok.
Qed.

Lemma remove_steps renv leg reason r r' :
  run_remove_leg renv leg reason r = (r', Ok tt) → rtc tunnel_step (tunnel_of r) (tunnel_of r').
Proof.
  unfold run_remove_leg. intros H. st_inv.
  match goal with H : remove_from_set _ _ = (?x, Ok ?y) |- _ => rename H into Hr; rename x into r1; rename y into c end.
  assert (tunnel_step (tunnel_of r) (tunnel_of r1)) as Hs.
  { unfold remove_from_set in Hr. destruct (remove leg (rx_circuits r)) as [s' x'] eqn:Hrm.
    injection Hr as <- ->. by eapply step_remove. }
  replace (tunnel_of r') with (tunnel_of r1); [by apply rtc_once|].
  destruct (is_conflux_pending c); [|by st_inv].
  destruct reason; unfold rerr in H; st_inv;
    match goal with H : note_conflux_handshake_result _ _ _ _ = _ |- _ =>
      apply (keeps_ok (R:=same_tunnel)) in H; [|apply _]; by rewrite H end.
Qed.

Lemma link_steps renv circuits answer r r' :
  handle_link_circuits renv circuits answer r = (r', Ok tt) →
  fresh_circuits circuits (tunnel_of r) → (add_legs circuits (tunnel_of r)).2 = Ok tt →
  rtc tunnel_step (tunnel_of r) (tunnel_of r').
Proof.
  unfold handle_link_circuits. intros H Hf Ha. st_inv. unfold id in H.
  destruct (rx_conflux_hs_ctx r).
  { apply (keeps_ok (R:=same_tunnel)) in H; [|apply _]. by rewrite H. }
  st_inv. match goal with H : catch _ _ = (?y, Ok ?z) |- _ => rename H into Hc; rename y into r1; rename z into x end.
  unfold catch, zoom, mbind at 1, ST_mbind in Hc. destruct (add_legs circuits (tunnel_of r)) as [t1 y] eqn:Hadd.
  simpl in Ha. subst y. destruct (link_circuits _ t1) as [t2 z] eqn:Hl.
  assert (tunnel_of r1 = t2) as Ht. { destruct t2. by destruct z; injection Hc as <- _. }
  assert (tunnel_of r' = tunnel_of r1) as ->.
  { destruct x as [?|?|]; [by st_inv| |by st_inv]. by apply (keeps_ok (R:=same_tunnel)) in H; [|apply _]. }
  rewrite Ht. eapply rtc_l; [by eapply step_add|]. by eapply rtc_once, step_link.
Qed.

Lemma install_steps now msg handler r r' :
  (cell ← prepare_msg_and_install_handler msg handler;
   match cell with
   | Some cell => in_tunnel (send_relay_cell_on_leg now cell None)
   | None => mret tt
   end) r = (r', Ok tt) → from_option unnumbered True msg →
  rtc tunnel_step (tunnel_of r) (tunnel_of r').
Proof.
  intros H Hok. st_inv.
  match goal with H : prepare_msg_and_install_handler _ _ _ = (?y, Ok ?z) |- _ =>
    rename H into Hp; rename y into r2; rename z into cell end.
  assert (rtc tunnel_step (tunnel_of r) (tunnel_of r2) ∧
          from_option (λ cell, unnumbered (sr_cell cell)) True cell) as [Hr2 Hc].
  { unfold prepare_msg_and_install_handler in Hp. st_inv. split.
    - destruct handler; [|by st_inv]. unfold id in *.
      match goal with H : set_meta_handler _ _ = (_, Ok ?u) |- _ =>
        destruct u; apply handler_steps in H as [? _] end. by apply rtc_once.
    - match goal with H : map_err _ _ = Ok _ |- _ => rename H into Hm end.
      destruct msg as [msg|]; [|by injection Hm as <-].
      destruct (ok_or _ _) in Hm; [|done..]. simpl in Hm. destruct (ok_or _ _) in Hm; by simplify_eq/=. }
  etrans; [exact Hr2|]. destruct cell as [cell|]; [|by st_inv].
  eapply send_steps; [exact H|]. destruct Hc as [? Hc]. split; [done|]. by rewrite Hc.
Qed.

Lemma begin_steps renv cell hop leg done r r' :
  run_begin_stream renv cell hop leg done r = (r', Ok tt) →
  match cell with Ok (cell, _) => well_routed cell (rx_circuits r) | _ => True end →
  rtc tunnel_step (tunnel_of r) (tunnel_of r').
Proof.
  unfold run_begin_stream. intros H Hok. destruct cell as [[cell sid]|e|]; unfold rerr in H; [|by st_inv..].
  st_inv. apply report_ok in H as (r1 & H & ->). by eapply send_steps.
Qed.

(** Every command of the reactor that succeeds changes the tunnel by these steps. *)
Theorem command_steps renv cmd r r' :
  handle_single_run_once_cmd renv cmd r = (r', Ok tt) → command_allowed cmd r →
  rtc tunnel_step (tunnel_of r) (tunnel_of r').
Proof.
  intros H Hok. destruct cmd; simpl in H, Hok.
  - apply report_ok in H as (r1 & H & ->). by eapply send_steps.
  - apply report_ok in H as (r1 & H & ->). eapply install_steps; [exact H|]. by destruct msg.
  - apply in_tunnel_ok in H. by eapply rtc_once, step_sendme.
  - by eapply begin_steps.
  - by eapply xon_steps.
  - by eapply close_steps.
  - st_inv. apply (keeps_ok (R:=same_tunnel)) in H; [|apply _]. by rewrite H.
  - by eapply remove_steps.
  - st_inv. match goal with H : note_conflux_handshake_result _ _ _ _ = (?y, _) |- _ =>
      rename y into r1; rename H into Hn end.
    apply (keeps_ok (R:=same_tunnel)) in Hn; [|apply _].
    apply send_steps in H; [by rewrite Hn in H|]. by injection Hn as ->.
  - destruct Hok. by eapply link_steps.
  - by st_inv.
  - by st_inv.
Qed.
End reactor_steps.

(** ** The scenario *)

Definition tunnel0 : Tunnel (Lo:=PlainLayer) (Li:=PlainLayer) (P:=RelayNo) (MH:=NoHandler) (F:=AcceptAll) :=
  tunnel_of reactor0.
Definition ms (n : Z) : Z := n * 1000000.
Definition env_at (n : Z) : Env := re_env (renv_at (ms n)).
Definition gone : ProtoError := Internal "leg disappeared?!".
Definition to_join (msg : AnyRelayMsg) : SendRelayCell := mkSend (Some 0%nat) false (mkOuter (Some 100) msg).
Definition begin_msg : AnyRelayMsg := ABegin (mkBegin [104; 105] 80 0).

(** Two legs are linked, a stream is opened, and a third leg with a shorter round trip is added. *)
Definition arrived (at_ms : Z) (id : nat) : T (Lo:=PlainLayer) (Li:=PlainLayer) (MH:=NoHandler) (F:=AcceptAll) (list CircuitCmd) :=
  on_leg gone id (handle_cell (env_at at_ms) id (ChRelay linked)).

Definition tunnel1 := (add_legs [circuit_of 2 1] tunnel0).1.
Definition tunnel2 := (link_circuits (ms 0) tunnel1).1.
Definition tunnel3 := (arrived 5 1 tunnel2).1.
Definition tunnel4 := (arrived 5 2 tunnel3).1.
Definition tunnel5 := (on_leg gone 1 (begin_stream 0 begin_msg (OutboundData (mkDataChecker true))) tunnel4).1.
Definition tunnel6 := (send_relay_cell_on_leg (ms 6) (to_join begin_msg) None tunnel5).1.
Definition tunnel7 := (add_legs [circuit_of 3 2] tunnel6).1.
Definition tunnel8 := (link_circuits (ms 10) tunnel7).1.
Definition tunnel9 := (arrived 11 3 tunnel8).1.
Definition tunnel10 := (send_relay_cell_on_leg (ms 12) (to_join (AData (mkData [1]))) None tunnel9).1.

(** Freshness, by computation. *)
Definition fresh_circuits_b (new : list (Circuit PlainLayer PlainLayer RelayNo))
    (t : Tunnel (Lo:=PlainLayer) (Li:=PlainLayer) (P:=RelayNo) (MH:=NoHandler) (F:=AcceptAll)) : bool :=
  bool_decide (NoDup (leg_ids (cs_legs t.1 ++ new))) &&
  forallb (λ c, match ci_conflux_handler c with None => true | Some _ => false end &&
    bool_decide (ci_unique_id c ≠ cs_primary_id t.1) &&
    bool_decide (ci_unique_id c ∉ (out_log t.2).*1.*1)) new.

Lemma fresh_check new t : fresh_circuits_b new t = true → fresh_circuits new t.
Proof.
  unfold fresh_circuits_b. intros [Hnd%bool_decide_eq_true Hall]%andb_true_iff. split; [done|].
  apply Forall_forall. intros c Hc. rewrite forallb_forall in Hall.
  apply list_elem_of_In, Hall in Hc. apply andb_true_iff in Hc as [[H1 H2]%andb_true_iff H3].
  apply bool_decide_eq_true in H2, H3. split_and!; [by destruct (ci_conflux_handler c)|done|done].
Qed.

Lemma two_legs_steps : rtc tunnel_step tunnel0 tunnel5.
Proof.
  eapply rtc_l; [apply (step_add [circuit_of 2 1])|]; [|vm_compute; reflexivity|].
  { apply fresh_check. vm_compute. reflexivity. }
  eapply rtc_l; [apply (step_link (ms 0) (Ok tt) _ tunnel2); vm_compute; reflexivity|].
  eapply rtc_l; [eapply (step_cell (env_at 5) gone 1 (ChRelay linked) _ _ tunnel3); vm_compute; reflexivity|].
  eapply rtc_l; [eapply (step_cell (env_at 5) gone 2 (ChRelay linked) _ _ tunnel4); vm_compute; reflexivity|].
  eapply rtc_once, (step_begin gone 1 0 begin_msg (OutboundData (mkDataChecker true))); vm_compute; reflexivity.
Qed.

Lemma third_leg_steps : rtc tunnel_step tunnel5 tunnel9.
Proof.
  eapply rtc_l; [apply (step_send (ms 6) (to_join begin_msg) None _ tunnel6); [|vm_compute; reflexivity]|].
  { split; [done|]. intros _ p Hp. vm_compute in Hp. by injection Hp as <-. }
  eapply rtc_l; [apply (step_add [circuit_of 3 2] _ tunnel7); [|vm_compute; reflexivity]|].
  { apply fresh_check. vm_compute. reflexivity. }
  eapply rtc_l; [apply (step_link (ms 10) (Ok tt) _ tunnel8); vm_compute; reflexivity|].
  eapply rtc_once, (step_cell (env_at 11) gone 3 (ChRelay linked)); vm_compute; reflexivity.
Qed.

Lemma switch_step : tunnel_step tunnel9 tunnel10.
Proof.
  apply (step_send (ms 12) (to_join (AData (mkData [1]))) None); [|vm_compute; reflexivity].
  split; [done|]. intros _ p Hp. vm_compute in Hp. by injection Hp as <-.
Qed.

Lemma tunnel0_initial : tunnel_initial tunnel0.
Proof. split; [|done]. by eexists. Qed.

Lemma conflux_numbers_witness :
  (∃ cell d, (maybe_update_primary_leg tunnel9).2 = Ok (Some cell) ∧ 1 ≤ d ∧
             ro_msg (sr_cell cell) = AConfluxSwitch (mkConfluxSwitch d)) ∧
  (relay_view 0 (out_log tunnel10.2)).2 = numbers 2.
Proof.
  split.
  - destruct (conflux_numbers tunnel0 tunnel9 (mkJoinPoint 0 (Relay (relay_no 7)) 0) tunnel0_initial)
      as (_ & _ & Hsw).
    + etrans; [apply two_legs_steps|apply third_leg_steps].
    + by vm_compute.
    + eexists. edestruct Hsw as (d & Hd & Hm); [vm_compute; reflexivity|]. exists d. split_and!; [|exact Hd|exact Hm].
      vm_compute. reflexivity.
  - destruct (conflux_numbers tunnel0 tunnel10 (mkJoinPoint 0 (Relay (relay_no 7)) 0) tunnel0_initial) as [Hn _].
    + etrans; [apply two_legs_steps|]. etrans; [apply third_leg_steps|]. apply rtc_once, switch_step.
    + by vm_compute.
    + etrans; [exact Hn|]. vm_compute. reflexivity.
Defined.

(** ** A message that bypasses the set *)

(** The users of stream [sid] of the map [m] drop it. *)
Definition drop_stream (m : nat) (sid : Z) (st : Streams) : Streams :=
  alter (λ sm, match get_mut sid sm with
               | Some (EntOpen e) =>
                   let closed := mkOpenEnt None (oe_dropped e) (oe_checker e) (oe_flow e) (oe_rx e) true in
                   set_open (wake_stream sid (update_stream sid closed (open_streams sm))) sm
               | _ => sm
               end) m st.

(** The second leg is the faster one, and a stream is opened on it. *)
Definition second_is_faster := (run_inputs
  [(ms 2, arrives None (Some linked)); (ms 5, arrives (Some linked) None);
   (ms 6, InControl (Some (CtlBeginStream LastHop begin_msg (OutboundData (mkDataChecker true)) 2)))]
  linked_tunnel).1.

(** The stream is dropped, and the streams of the join point are polled, on the first leg. *)
Definition user_gone :=
  users_did (drop_stream 0 100 (sh_streams (rx_shared second_is_faster))) second_is_faster.
Definition polled : list (Z * TunnelInput) :=
  [(ms 7, InCircuits [mkReady false None (Some 0%nat); mkReady false None None])].
Definition stream_dropped := (run_inputs polled user_gone).1.

Lemma second_is_faster_reachable : reachable reactor0 second_is_faster.
Proof. apply scenario_reachable; [vm_compute; reflexivity|]. by repeat constructor. Qed.

(** The END message of a stream that its user dropped does not go through the set, and the
    relay at the join point sees two messages with the same number.  The streams of the join point
    are polled on the first leg, and the command to close one names that leg, so that
    [handle_single_run_once_cmd] sends the END on it although the primary leg is another one.  The
    reactor reaches a state in which BEGIN has number 1 on the second leg and END has number 1 on
    the first. *)
Theorem close_stream_repeats_number :
  reachable reactor0 stream_dropped ∧
  map (λ e, (e.1.1, msg_cmd (ro_msg e.2))) (out_log (rx_shared stream_dropped)) =
    [(1%nat, RelayCmd.CONFLUX_LINK); (2%nat, RelayCmd.CONFLUX_LINK); (2%nat, RelayCmd.CONFLUX_LINKED_ACK);
     (1%nat, RelayCmd.CONFLUX_LINKED_ACK); (2%nat, RelayCmd.BEGIN); (1%nat, RelayCmd.END)] ∧
  (relay_view 0 (out_log (rx_shared stream_dropped))).2 = [1; 1].
Proof.
  split; [|split; vm_compute; reflexivity].
  apply (reachable_run polled _ user_gone).
  - apply reach_users, second_is_faster_reachable.
  - intros now input r Hin. by apply list_elem_of_singleton in Hin as [= _ ->].
  - vm_compute. reflexivity.
Qed.

(** ** A join point that is lost *)

(** A circuit whose last hop is another relay cannot join the tunnel. *)
Definition other_circuit : Circuit PlainLayer PlainLayer RelayNo :=
  mkCircuit 3 [plain_layer] [plain_layer] (hops_of 2) [Relay (relay_no 8)] [None] None [].

Definition join_point_lost := (run_inputs
  [(ms 7, InControl (Some (CtlLinkCircuits [other_circuit] 9)))] second_is_faster).1.

(** When a circuit that does not fit is added to a working multi-path tunnel, the tunnel loses
    its join point.  [add_legs] takes the join point out of the set before it checks the circuits,
    and returns early when one is invalid.  The reactor reports the error to the user and goes on
    with two linked legs and no join point, and a stream can no longer be opened. *)
Theorem add_legs_loses_join_point :
  is_Some (cs_join_point (rx_circuits second_is_faster)) ∧
  reachable reactor0 join_point_lost ∧
  map conflux_status (cs_legs (rx_circuits join_point_lost)) = [Some StLinked; Some StLinked] ∧
  cs_join_point (rx_circuits join_point_lost) = None ∧
  last (rx_replies (run_inputs
    [(ms 8, InControl (Some (CtlBeginStream LastHop begin_msg (OutboundData (mkDataChecker true)) 10)))]
    join_point_lost).1) = Some (10%nat, Err (Internal "Could not resolve hop")).
Proof.
  split; [vm_compute; by eexists|]. split; [|split_and!; vm_compute; reflexivity].
  apply (reach_step _ (renv_at (ms 7)) (InControl (Some (CtlLinkCircuits [other_circuit] 9))) second_is_faster).
  - apply second_is_faster_reachable.
  - vm_compute. split; [by apply (bool_decide_unpack _)|]. intros e c He. by apply not_elem_of_nil in He.
  - vm_compute. reflexivity.
Qed.
