(* ===== verification/Handshakes.v ===== *)
(** * Handshakes: the circuit handshakes of crate tor-proto

    [tor-proto/src/crypto/handshake.rs] and, below it, CREATE_FAST ([fast.rs]), ntor ([ntor.rs])
    and ntor v3 ([ntor_v3.rs]), both the client's and the relay's side, with the key derivation
    of [crypto/ll/kdf.rs].  The curve, the hashes and the cipher are other crates: they are the
    class [Primitives].  A secret that the code draws at random is an argument.  A digest that is
    fed piece by piece is the digest of the concatenation, so that its writer is a list of
    bytes. *)

From S2P Require Import Prelude Text Bytes Codec ExtList RelayMsg Sendme RelayCrypt.

(** ** The primitives *)

Class Primitives (SK : Type) : Type := {
  public_key : SK → list Z;
  diffie_hellman : SK → list Z → list Z;
  was_contributory : list Z → bool;
  sha1 : list Z → list Z;
  sha3_256 : list Z → list Z;
  hmac_sha256 : list Z → list Z → list Z;
  (** salt, input, info, number of bytes *)
  hkdf_sha256 : list Z → list Z → list Z → nat → option (list Z);
  (** the first bytes of the output of the extendable function *)
  shake256 : list Z → nat → list Z;
  (** the first bytes of the key stream from counter zero *)
  aes256_ctr : list Z → nat → list Z;
}.

Class PrimitiveLaws (SK : Type) `{!Primitives SK} : Prop := {
  public_key_len (sk : SK) : length (public_key sk) = 32%nat;
  dh_len (sk : SK) pk : length (diffie_hellman sk pk) = 32%nat;
  dh_comm (a b : SK) : diffie_hellman a (public_key b) = diffie_hellman b (public_key a);
  sha1_len x : length (sha1 x) = 20%nat;
  sha3_len x : length (sha3_256 x) = 32%nat;
  hmac_len k x : length (hmac_sha256 k x) = 32%nat;
  shake_len x n : length (shake256 x n) = n;
  aes_len k n : length (aes256_ctr k n) = n;
}.

(** ** Key derivation (crypto/ll/kdf.rs) *)

Section kdf.
Context {SK : Type} `{!Primitives SK}.

(** [LegacyKdf::derive] from index [idx]; each round of the loop appends a digest and increments
    the [u8] counter.  The fuel is the number of rounds that the length check allows. *)
Fixpoint legacy_kdf_loop (fuel : nat) (seed : list Z) (n_bytes : nat) (k : Z) (result : list Z) :
    res ProtoError (list Z) :=
  if (n_bytes <=? length result)%nat then Ok result
  else match fuel with
  | O => Panic
  | S fuel =>
      let result := result ++ sha1 (seed ++ [k]) in
      k ← uadd u8_max k 1;
      legacy_kdf_loop fuel seed n_bytes k result
  end.

Definition legacy_kdf (idx : Z) (seed : list Z) (n_bytes : nat) : res ProtoError (list Z) :=
  if 20 * (256 - idx) <? Z.of_nat n_bytes then Err InvalidKDFOutputLength
  else
    result ← legacy_kdf_loop 257 seed n_bytes idx [];
    Ok (take n_bytes result).

Definition ntor1_kdf (t_key m_expand seed : list Z) (n_bytes : nat) : res ProtoError (list Z) :=
  ok_or (hkdf_sha256 t_key seed m_expand n_bytes) InvalidKDFOutputLength.

Definition shake_kdf (seed : list Z) (n_bytes : nat) : res ProtoError (list Z) :=
  Ok (shake256 seed n_bytes).

(** The key generators. *)
Definition tap_expand (seed : list Z) (keylen : nat) : res ProtoError (list Z) :=
  legacy_kdf 1 seed keylen.
Definition shake_expand (seed : list Z) (keylen : nat) : res ProtoError (list Z) :=
  shake_kdf seed keylen.
Definition ntor_expand (seed : list Z) (keylen : nat) : res ProtoError (list Z) :=
  ntor1_kdf (str "ntor-curve25519-sha256-1:key_extract")
    (str "ntor-curve25519-sha256-1:key_expand") seed keylen.
End kdf.

(** ** What the handshakes have in common (crypto/handshake.rs) *)

Inductive RelayHandshakeError : Type :=
| RhFmt (e : BytesError)
| RhMissingKey
| RhBadClientHandshake
| RhInternal (msg : string).

(** [ct_lookup] (tor-llcrypto/src/util/ct.rs): the index and the flag are overwritten by every
    match. *)
Definition ct_lookup {T} (array : list T) (matches : T → bool) : option T :=
  foldl (λ found x, if matches x then Some x else found) None array.

(** A key generator: from a length to key material. *)
Definition KeyGen : Type := nat → res ProtoError (list Z).

(** ** CREATE_FAST (fast.rs) *)

Section fast.
Context {SK : Type} `{!Primitives SK}.

Definition FAST_C_HANDSHAKE_LEN : nat := 20.
Definition FAST_S_HANDSHAKE_LEN : nat := 40.

(** [state] is the random bytes. *)
Definition fast_client1 (state : list Z) : list Z * list Z := (state, state).

Definition fast_client2 (state msg : list Z) : res ProtoError KeyGen :=
  if negb (length msg =? FAST_S_HANDSHAKE_LEN)%nat then Err BadCircHandshakeAuth
  else
    let inp := state ++ slice 0 20 msg in
    kh_expect ← legacy_kdf 0 inp 20;
    if negb (bytes_eq kh_expect (slice 20 40 msg)) then Err BadCircHandshakeAuth
    else Ok (tap_expand inp).

(** [random] is the bytes that the relay draws; [reply] says whether it goes on. *)
Definition fast_server (random : list Z) (reply : bool) (msg : list Z) :
    res RelayHandshakeError (KeyGen * list Z) :=
  if negb reply then Err RhBadClientHandshake
  else if negb (length msg =? FAST_C_HANDSHAKE_LEN)%nat then Err RhBadClientHandshake
  else
    let inp := msg ++ random in
    kh ← map_err (λ _, RhInternal "Can't expand key") (legacy_kdf 0 inp 20);
    Ok (tap_expand inp, random ++ kh).
End fast.

(** ** ntor (ntor.rs) *)

Record NtorPublicKey : Type := mkNtorPk { np_id : list Z; np_pk : list Z }.
Record NtorSecretKey (SK : Type) : Type := mkNtorSk { nk_pk : NtorPublicKey; nk_sk : SK }.
Arguments mkNtorSk {SK}.
Arguments nk_pk {SK}.
Arguments nk_sk {SK}.

Record NtorHandshakeState (SK : Type) : Type := mkNtorState {
  nt_relay_public : NtorPublicKey;
  nt_my_sk : SK;
  nt_my_public : list Z;
}.
Arguments mkNtorState {SK}.
Arguments nt_relay_public {SK}.
Arguments nt_my_sk {SK}.
Arguments nt_my_public {SK}.

Section ntor.
Context {SK : Type} `{!Primitives SK}.

Definition matches_pk (pk : list Z) (key : NtorSecretKey SK) : bool := bytes_eq (np_pk (nk_pk key)) pk.

Definition client_handshake_ntor_v1_no_keygen (my_public : list Z) (my_sk : SK)
    (relay_public : NtorPublicKey) : res ProtoError (NtorHandshakeState SK * list Z) :=
  let v := np_id relay_public ++ np_pk relay_public ++ my_public in
  _ ← debug_assert (length v =? 20 + 32 + 32)%nat;
  Ok (mkNtorState relay_public my_sk my_public, v).

Definition client_handshake_ntor_v1 (my_sk : SK) (relay_public : NtorPublicKey) :
    res ProtoError (NtorHandshakeState SK * list Z) :=
  client_handshake_ntor_v1_no_keygen (public_key my_sk) my_sk relay_public.

(** The seed of the key generator and the authentication code. *)
Definition ntor_derive (xy xb : list Z) (server_pk : NtorPublicKey) (x y : list Z) : list Z * list Z :=
  let secret_input :=
    xy ++ xb ++ np_id server_pk ++ np_pk server_pk ++ x ++ y ++ str "ntor-curve25519-sha256-1" in
  let verify := hmac_sha256 (str "ntor-curve25519-sha256-1:verify") secret_input in
  let auth_input :=
    verify ++ np_id server_pk ++ np_pk server_pk ++ y ++ x ++
    str "ntor-curve25519-sha256-1" ++ str "Server" in
  (secret_input, hmac_sha256 (str "ntor-curve25519-sha256-1:mac") auth_input).

Definition client_handshake2_ntor_v1 (msg : list Z) (state : NtorHandshakeState SK) :
    res ProtoError (list Z) :=
  let '(cur, their_pk) := extract (take_array 32) (from_slice msg) in
  their_pk ← map_err (BytesErr "v3 ntor handshake") their_pk;
  let '(cur, auth) := extract (take_array 32) cur in
  auth ← map_err (BytesErr "v3 ntor handshake") auth;
  let xy := diffie_hellman (nt_my_sk state) their_pk in
  let xb := diffie_hellman (nt_my_sk state) (np_pk (nt_relay_public state)) in
  let '(seed, authcode) :=
    ntor_derive xy xb (nt_relay_public state) (nt_my_public state) their_pk in
  if bytes_eq authcode auth && was_contributory xy && was_contributory xb
  then Ok seed else Err BadCircHandshakeAuth.

(** The answer of a relay with secret [ephem]. *)
Definition server_handshake_ntor_v1_no_keygen (ephem_pub : list Z) (ephem : SK) (msg : list Z)
    (keys : list (NtorSecretKey SK)) : res RelayHandshakeError (list Z * list Z) :=
  let '(cur, my_id) := extract (take_array 20) (from_slice msg) in
  my_id ← map_err RhFmt my_id;
  let '(cur, my_key) := extract (take_array 32) cur in
  my_key ← map_err RhFmt my_key;
  let '(cur, their_pk) := extract (take_array 32) cur in
  their_pk ← map_err RhFmt their_pk;
  match ct_lookup keys (matches_pk my_key) with
  | None => Err RhMissingKey
  | Some keypair =>
      if negb (bool_decide (my_id = np_id (nk_pk keypair))) then Err RhMissingKey
      else
        let xy := diffie_hellman ephem their_pk in
        let xb := diffie_hellman (nk_sk keypair) their_pk in
        let okay := was_contributory xy && was_contributory xb in
        let '(seed, authcode) := ntor_derive xy xb (nk_pk keypair) their_pk ephem_pub in
        let reply := ephem_pub ++ authcode in
        if okay then Ok (seed, reply) else Err RhBadClientHandshake
  end.

Definition server_handshake_ntor_v1 (ephem : SK) (msg : list Z) (keys : list (NtorSecretKey SK)) :
    res RelayHandshakeError (list Z * list Z) :=
  server_handshake_ntor_v1_no_keygen (public_key ephem) ephem msg keys.

(** [NtorClient] and [NtorServer]. *)
Definition ntor_client2 (state : NtorHandshakeState SK) (msg : list Z) : res ProtoError KeyGen :=
  seed ← client_handshake2_ntor_v1 msg state;
  Ok (ntor_expand seed).

Definition ntor_server (ephem : SK) (reply : bool) (keys : list (NtorSecretKey SK)) (msg : list Z) :
    res RelayHandshakeError (KeyGen * list Z) :=
  if negb reply then Err RhBadClientHandshake
  else
    '(seed, reply) ← server_handshake_ntor_v1 ephem msg keys;
    Ok (ntor_expand seed, reply).
End ntor.

(** ** ntor v3 (ntor_v3.rs) *)

(** A reader of the output of the extendable function: its input and how much has been read. *)
Record XofReader : Type := mkXof { xof_input : list Z; xof_pos : nat }.

Definition NTOR3_CIRC_VERIFICATION : list Z := str "circuit extend".
Definition ENC_KEY_LEN : nat := 32.
Definition MAC_KEY_LEN : nat := 32.
Definition MAC_LEN : nat := 32.

Definition Encap (data : list Z) : list Z := to_be_bytes 8 (Z.of_nat (length data)) ++ data.

Definition PROTOID : list Z := str "ntor3-curve25519-sha3_256-1".
Definition T_MSGMAC : list Z := PROTOID ++ str ":msg_mac".
Definition T_MSGKDF : list Z := PROTOID ++ str ":kdf_phase1".
Definition T_KEY_SEED : list Z := PROTOID ++ str ":key_seed".
Definition T_VERIFY : list Z := PROTOID ++ str ":verify".
Definition T_FINAL : list Z := PROTOID ++ str ":kdf_final".
Definition T_AUTH : list Z := PROTOID ++ str ":auth_final".

Record NtorV3PublicKey : Type := mkNtor3Pk { n3_id : list Z; n3_pk : list Z }.
Record NtorV3SecretKey (SK : Type) : Type := mkNtor3Sk { n3k_pk : NtorV3PublicKey; n3k_sk : SK }.
Arguments mkNtor3Sk {SK}.
Arguments n3k_pk {SK}.
Arguments n3k_sk {SK}.

Record NtorV3HandshakeState (SK : Type) : Type := mkNtor3State {
  n3s_relay_public : NtorV3PublicKey;
  n3s_my_sk : SK;
  n3s_my_public : list Z;
  n3s_shared_secret : list Z;
  n3s_msg_mac : list Z;
}.
Arguments mkNtor3State {SK}.
Arguments n3s_relay_public {SK}.
Arguments n3s_my_sk {SK}.
Arguments n3s_my_public {SK}.
Arguments n3s_shared_secret {SK}.
Arguments n3s_msg_mac {SK}.

Section ntor3.
Context {SK : Type} `{!Primitives SK}.

(** [XofReader::read]. *)
Definition xof_read (n : nat) (r : XofReader) : XofReader * list Z :=
  (mkXof (xof_input r) (xof_pos r + n), drop (xof_pos r) (shake256 (xof_input r) (xof_pos r + n))).

Definition hash (t data : list Z) : list Z :=
  sha3_256 (to_be_bytes 8 (Z.of_nat (length t)) ++ t ++ data).

Definition ntor3_encrypt (key m : list Z) : list Z := xor_bytes m (aes256_ctr key (length m)).
Definition ntor3_decrypt (key m : list Z) : list Z := ntor3_encrypt key m.

Definition h_key_seed (d : list Z) : list Z := hash T_KEY_SEED d.
Definition h_verify (d : list Z) : list Z := hash T_VERIFY d.

(** The encryption key, and what has been written to the MAC so far. *)
Definition kdf_msgkdf (xb : list Z) (relay_public : NtorV3PublicKey) (client_public verification : list Z) :
    list Z * list Z :=
  let msg_kdf :=
    Encap T_MSGKDF ++ xb ++ n3_id relay_public ++ client_public ++ n3_pk relay_public ++ PROTOID ++
    Encap verification in
  let '(r, enc_key) := xof_read ENC_KEY_LEN (mkXof msg_kdf 0) in
  let '(_, mac_key) := xof_read MAC_KEY_LEN r in
  let mac :=
    Encap T_MSGMAC ++ Encap mac_key ++ n3_id relay_public ++ n3_pk relay_public ++ client_public in
  (enc_key, mac).

Definition client_handshake_ntor_v3_no_keygen (relay_public : NtorV3PublicKey)
    (client_msg verification : list Z) (my_sk : SK) : NtorV3HandshakeState SK * list Z :=
  let my_public := public_key my_sk in
  let bx := diffie_hellman my_sk (n3_pk relay_public) in
  let '(enc_key, mac) := kdf_msgkdf bx relay_public my_public verification in
  let encrypted_msg := ntor3_encrypt enc_key client_msg in
  let msg_mac := sha3_256 (mac ++ encrypted_msg) in
  let message := n3_id relay_public ++ n3_pk relay_public ++ my_public ++ encrypted_msg ++ msg_mac in
  (mkNtor3State relay_public my_sk my_public bx msg_mac, message).

Definition ntor3_matches (id pk : list Z) (key : NtorV3SecretKey SK) : bool :=
  bytes_eq id (n3_id (n3k_pk key)) && bytes_eq pk (n3_pk (n3k_pk key)).

(** The inputs of the hashes at the end of the handshake, which both sides build the same way. *)
Definition ntor3_secret_input (xy xb : list Z) (relay : NtorV3PublicKey) (x y verification : list Z) :
    list Z :=
  xy ++ xb ++ n3_id relay ++ n3_pk relay ++ x ++ y ++ PROTOID ++ Encap verification.
Definition ntor3_auth_input (verify : list Z) (relay : NtorV3PublicKey) (y x msg_mac encrypted : list Z) :
    list Z :=
  Encap T_AUTH ++ verify ++ n3_id relay ++ n3_pk relay ++ y ++ x ++ msg_mac ++ Encap encrypted ++
  PROTOID ++ str "Server".
Definition ntor3_final_keys (ntor_key_seed : list Z) : XofReader * list Z :=
  xof_read ENC_KEY_LEN (mkXof (Encap T_FINAL ++ ntor_key_seed) 0).

(** The fields of the client's message: identity, onion key, public key, encrypted message, MAC. *)
Definition ntor3_parse (message : list Z) :
    res RelayHandshakeError (list Z * list Z * list Z * list Z * list Z) :=
  let '(r, id) := extract (take_array 32) (from_slice message) in
  id ← map_err RhFmt id;
  let '(r, requested_pk) := extract (take_array 32) r in
  requested_pk ← map_err RhFmt requested_pk;
  let '(r, client_pk) := extract (take_array 32) r in
  client_pk ← map_err RhFmt client_pk;
  let '(r, client_msg) := take_all_but MAC_LEN r in
  client_msg ← map_err RhFmt client_msg;
  let '(r, msg_mac) := extract (take_array MAC_LEN) r in
  msg_mac ← map_err RhFmt msg_mac;
  _ ← map_err RhFmt (snd (should_be_exhausted r));
  Ok (id, requested_pk, client_pk, client_msg, msg_mac).

(** The rest of the relay's side, with the key that it found; [reply_fn] decides how to reply to
    the client's message. *)
Definition ntor3_respond (reply_fn : list Z → option (list Z)) (secret_key_y : SK)
    (keypair : NtorV3SecretKey SK) (client_pk client_msg msg_mac verification : list Z) :
    res RelayHandshakeError (list Z * XofReader) :=
  let xb := diffie_hellman (n3k_sk keypair) client_pk in
  let '(enc_key, mac) := kdf_msgkdf xb (n3k_pk keypair) client_pk verification in
  let computed_mac := sha3_256 (mac ++ client_msg) in
  let y_pk := public_key secret_key_y in
  let xy := diffie_hellman secret_key_y client_pk in
  let okay := bytes_eq computed_mac msg_mac && was_contributory xy && was_contributory xb in
  let plaintext_msg := ntor3_decrypt enc_key client_msg in
  let reply := reply_fn plaintext_msg in
  let okay := okay && bool_decide (is_Some reply) in
  let reply := default [] reply in
  let secret_input := ntor3_secret_input xy xb (n3k_pk keypair) client_pk y_pk verification in
  let ntor_key_seed := h_key_seed secret_input in
  let verify := h_verify secret_input in
  let '(keystream, enc_key) := ntor3_final_keys ntor_key_seed in
  let encrypted_reply := ntor3_encrypt enc_key reply in
  let auth :=
    sha3_256 (ntor3_auth_input verify (n3k_pk keypair) y_pk client_pk msg_mac encrypted_reply) in
  let reply := y_pk ++ auth ++ encrypted_reply in
  if okay then Ok (reply, keystream) else Err RhBadClientHandshake.

Definition server_handshake_ntor_v3_no_keygen (reply_fn : list Z → option (list Z)) (secret_key_y : SK)
    (message : list Z) (keys : list (NtorV3SecretKey SK)) (verification : list Z) :
    res RelayHandshakeError (list Z * XofReader) :=
  '(id, requested_pk, client_pk, client_msg, msg_mac) ← ntor3_parse message;
  match ct_lookup keys (ntor3_matches id requested_pk) with
  | None => Err RhMissingKey
  | Some keypair =>
      ntor3_respond reply_fn secret_key_y keypair client_pk client_msg msg_mac verification
  end.

(** The fields of the relay's answer: public key, authentication code, encrypted message. *)
Definition ntor3_parse_reply (relay_handshake : list Z) : res ProtoError (list Z * list Z * list Z) :=
  let '(reader, y_pk) := extract (take_array 32) (from_slice relay_handshake) in
  y_pk ← map_err (BytesErr "v3 ntor handshake") y_pk;
  let '(reader, auth) := extract (take_array 32) reader in
  auth ← map_err (BytesErr "v3 ntor handshake") auth;
  Ok (y_pk, auth, into_rest reader).

Definition client_handshake_ntor_v3_part2 (state : NtorV3HandshakeState SK)
    (relay_handshake verification : list Z) : res ProtoError (list Z * XofReader) :=
  '(y_pk, auth, encrypted_msg) ← ntor3_parse_reply relay_handshake;
  let yx := diffie_hellman (n3s_my_sk state) y_pk in
  let secret_input :=
    ntor3_secret_input yx (n3s_shared_secret state) (n3s_relay_public state) (n3s_my_public state)
      y_pk verification in
  let ntor_key_seed := h_key_seed secret_input in
  let verify := h_verify secret_input in
  let computed_auth :=
    sha3_256 (ntor3_auth_input verify (n3s_relay_public state) y_pk (n3s_my_public state)
                (n3s_msg_mac state) encrypted_msg) in
  let okay :=
    bytes_eq computed_auth auth && was_contributory yx && was_contributory (n3s_shared_secret state) in
  let '(keystream, enc_key) := ntor3_final_keys ntor_key_seed in
  let server_reply := ntor3_decrypt enc_key encrypted_msg in
  if okay then Ok (server_reply, keystream) else Err BadCircHandshakeAuth.

(** [NtorV3KeyGenerator::expand]. *)
Definition ntor3_expand (reader : XofReader) (keylen : nat) : res ProtoError (list Z) :=
  Ok (snd (xof_read keylen reader)).

(** [NtorV3Client] and [NtorV3Server]. *)
Definition ntor3_client1 (my_sk : SK) (key : NtorV3PublicKey) (extensions : list CircRequestExt) :
    res ProtoError (NtorV3HandshakeState SK * list Z) :=
  message ← map_err (EncodeErr "ntor3 handshake extensions") (write_many_onto extensions []);
  Ok (client_handshake_ntor_v3_no_keygen key message NTOR3_CIRC_VERIFICATION my_sk).

Definition ntor3_client2 (state : NtorV3HandshakeState SK) (msg : list Z) :
    res ProtoError (list CircResponseExt * KeyGen) :=
  '(message, xofreader) ← client_handshake_ntor_v3_part2 state msg NTOR3_CIRC_VERIFICATION;
  extensions ← map_err (CellDecodeErr "ntor v3 extensions") (ext_decode message);
  Ok (extensions, ntor3_expand xofreader).

(** The answer to the bytes of the client's message: [None] when anything goes wrong. *)
Definition bytes_reply_fn (reply_fn : list CircRequestExt → option (list CircResponseExt))
    (bytes : list Z) : option (list Z) :=
  match ext_decode bytes with
  | Ok client_exts =>
      reply_exts ← reply_fn client_exts;
      match write_many_onto reply_exts [] with Ok out => Some out | _ => None end
  | _ => None
  end.

Definition ntor3_server (secret_key_y : SK)
    (reply_fn : list CircRequestExt → option (list CircResponseExt))
    (keys : list (NtorV3SecretKey SK)) (msg : list Z) : res RelayHandshakeError (KeyGen * list Z) :=
  '(reply, reader) ← server_handshake_ntor_v3_no_keygen (bytes_reply_fn reply_fn) secret_key_y msg keys
    NTOR3_CIRC_VERIFICATION;
  Ok (ntor3_expand reader, reply).
End ntor3.
