(* ===== verification/HandshakeAgree.v ===== *)
(** * HandshakeAgree: what the circuit handshakes guarantee

    Both ends of each handshake of file [Handshakes] derive the same keys, and for ntor v3 each
    gets the other's extensions; a client that accepts an authenticated answer shares the whole
    transcript with the relay.  The key derivation has a length at which it overflows. *)

From S2P Require Import Prelude Text Bytes Codec ExtList RelayMsg Sendme RelayCrypt Handshakes.

(** ** Key derivation *)

Section kdf_facts.
Context {SK : Type} `{!Primitives SK, !PrimitiveLaws SK}.

(** The loop appends digests until there are enough bytes, as long as the counter allows. *)
Lemma legacy_loop_ok fuel seed n k result :
  0 ≤ k ≤ 255 → Z.of_nat n ≤ 20 * (255 - k) + Z.of_nat (length result) → 256 - k ≤ Z.of_nat fuel →
  ∃ out, legacy_kdf_loop fuel seed n k result = Ok out ∧ (n ≤ length out)%nat.
Proof.
  revert k result. induction fuel as [|fuel IH]; intros k result Hk Hn Hf; simpl.
  - lia.
  - case_match eqn:Hl; [apply Nat.leb_le in Hl|apply Nat.leb_gt in Hl]; [eauto|].
    rewrite uadd_ok by (unfold u8_max; lia). rewrite ok_bind.
    apply IH; rewrite ?length_app, ?sha1_len; lia.
Qed.

Lemma legacy_loop_overflow fuel seed n k result :
  0 ≤ k ≤ 255 → 20 * (255 - k) + Z.of_nat (length result) < Z.of_nat n → 256 - k ≤ Z.of_nat fuel →
  legacy_kdf_loop fuel seed n k result = Panic.
Proof.
  revert k result. induction fuel as [|fuel IH]; intros k result Hk Hn Hf; simpl.
  - lia.
  - rewrite (proj2 (Nat.leb_gt _ _)) by lia.
    destruct (decide (k = 255)) as [->|Hne]; [done|].
    rewrite uadd_ok by (unfold u8_max; lia). rewrite ok_bind.
    apply IH; rewrite ?length_app, ?sha1_len; lia.
Qed.

Lemma legacy_kdf_ok idx seed n :
  0 ≤ idx ≤ 255 → Z.of_nat n ≤ 20 * (255 - idx) →
  ∃ out, legacy_kdf idx seed n = Ok out ∧ length out = n.
Proof.
  intros Hi Hn. unfold legacy_kdf. rewrite (proj2 (Z.ltb_ge _ _)) by lia.
  destruct (legacy_loop_ok 257 seed n idx []) as (out & -> & Hl); [lia|simpl; lia|lia|].
  eexists. split; [done|]. rewrite length_take. lia.
Qed.

(** [LegacyKdf::derive] does what its length check allows except at the end of the range:
    up to 20 * (255 - idx) bytes it returns exactly that many; the next 20 lengths pass the check
    and overflow the counter, which panics in a build with overflow checks; longer ones are the
    documented error. *)
Theorem legacy_kdf_lengths idx seed n :
  0 ≤ idx ≤ 255 →
  if decide (Z.of_nat n ≤ 20 * (255 - idx))
  then ∃ out, legacy_kdf idx seed n = Ok out ∧ length out = n
  else if decide (Z.of_nat n ≤ 20 * (256 - idx)) then legacy_kdf idx seed n = Panic
  else legacy_kdf idx seed n = Err InvalidKDFOutputLength.
Proof.
  intros Hi. case_decide; [by apply legacy_kdf_ok|]. unfold legacy_kdf. case_decide.
  - rewrite (proj2 (Z.ltb_ge _ _)) by lia. rewrite legacy_loop_overflow; [done|lia|simpl; lia|lia].
  - by rewrite (proj2 (Z.ltb_lt _ _)) by lia.
Qed.
End kdf_facts.

(** ** Reading a message field by field *)

(** The field [x] of [n] bytes lies between [pre] and [post]. *)
Lemma take_field pre x post n off b c :
  b = pre ++ x ++ post → off = length pre → length x = n →
  extract (take_array n) (mkReader b off c) = (mkReader b (off + n) c, Ok x).
Proof. intros -> -> <-. apply (reads_extract (rd_take (length x))), reads_take. Qed.

Lemma take_field_inv n off b c r x :
  extract (take_array n) (mkReader b off c) = (r, Ok x) → (off ≤ length b)%nat →
  r = mkReader b (off + n) c ∧ x = take n (drop off b) ∧ (off + n ≤ length b)%nat.
Proof.
  unfold extract, take_array. intros Hx Ho.
  destruct (decide (n ≤ length b - off)%nat) as [Hn|Hn].
  - rewrite rd_take_ok in Hx by (unfold remaining; simpl; lia). injection Hx as <- <-.
    split_and!; [done..|lia].
  - by rewrite rd_take_err in Hx by (unfold remaining; simpl; lia).
Qed.

Lemma take_all_but_eq n off b :
  (off + n ≤ length b)%nat →
  take_all_but n (mkReader b off SupposedlyComplete) =
    (mkReader b (length b - n) SupposedlyComplete, Ok (take (length b - off - n) (drop off b))).
Proof.
  intros Hn. unfold take_all_but, remaining. cbn [rd_completeness rd_b rd_off].
  rewrite (proj2 (Nat.ltb_ge _ _)) by lia.
  rewrite rd_take_ok by (unfold remaining; simpl; lia). unfold set_off. cbn [rd_completeness rd_b rd_off].
  rewrite (proj2 (Nat.eqb_eq _ _)) by lia. do 2 f_equal. lia.
Qed.

Lemma take_all_but_err n off b r x :
  take_all_but n (mkReader b off SupposedlyComplete) = (r, Ok x) → (off ≤ length b)%nat →
  (off + n ≤ length b)%nat.
Proof.
  unfold take_all_but, remaining. cbn [rd_completeness rd_b rd_off]. intros Hx Ho.
  destruct (length b - off <? n)%nat eqn:Hn; [done|]. apply Nat.ltb_ge in Hn. lia.
Qed.

Lemma ntor3_parse_app id pk x enc mac :
  length id = 32%nat → length pk = 32%nat → length x = 32%nat → length mac = 32%nat →
  ntor3_parse (id ++ pk ++ x ++ enc ++ mac) = Ok (id, pk, x, enc, mac).
Proof.
  intros Hid Hpk Hx Hmac. unfold ntor3_parse, from_slice, MAC_LEN.
  rewrite (take_field [] id (pk ++ x ++ enc ++ mac)) by done. cbn [map_err]. rewrite ok_bind.
  rewrite (take_field id pk (x ++ enc ++ mac)) by done. cbn [map_err]. rewrite ok_bind.
  rewrite (take_field (id ++ pk) x (enc ++ mac))
    by (rewrite ?length_app, <-?(assoc_L app), ?Hid, ?Hpk; done).
  cbn [map_err]. rewrite ok_bind.
  rewrite take_all_but_eq by (rewrite !length_app; lia). cbn [map_err]. rewrite ok_bind.
  rewrite (take_field (id ++ pk ++ x ++ enc) mac [])
    by (rewrite ?length_app, ?app_nil_r, <-?(assoc_L app); (done || lia)).
  cbn [map_err]. rewrite ok_bind. unfold should_be_exhausted, remaining. cbn [rd_b rd_off].
  rewrite (proj2 (Nat.eqb_eq _ _)) by (rewrite !length_app; lia). cbn [map_err snd]. rewrite ok_bind.
  do 3 f_equal. rewrite (assoc_L app id), (assoc_L app (id ++ pk)).
  rewrite drop_app_length' by (rewrite !length_app; lia).
  apply take_app_length'. rewrite !length_app. lia.
Qed.

(** Two readings of a list as fields of known lengths. *)
Lemma split_take {A} n (b : list A) : (n ≤ length b)%nat → ∃ x y, b = x ++ y ∧ length x = n.
Proof. intros Hn. exists (take n b), (drop n b). rewrite take_drop, length_take. split; [done|lia]. Qed.

Lemma ntor3_parse_inv m id pk x enc mac :
  ntor3_parse m = Ok (id, pk, x, enc, mac) →
  m = id ++ pk ++ x ++ enc ++ mac ∧ length id = 32%nat ∧ length pk = 32%nat ∧ length x = 32%nat ∧
  length mac = 32%nat.
Proof.
  intros Hp.
  assert (128 ≤ length m)%nat as Hl.
  { unfold ntor3_parse, from_slice in Hp. 
    destruct (extract (take_array 32) (mkReader m 0 SupposedlyComplete)) as [r1 [a|e|]] eqn:E1; [|done..].
    apply take_field_inv in E1 as (-> & _ & H1); [|lia]. cbn [map_err] in Hp. rewrite ok_bind in Hp.
    destruct (extract (take_array 32) _) as [r2 [a2|e|]] eqn:E2; [|done..].
    apply take_field_inv in E2 as (-> & _ & H2); [|lia]. cbn [map_err] in Hp. rewrite ok_bind in Hp.
    destruct (extract (take_array 32) _) as [r3 [a3|e|]] eqn:E3; [|done..].
    apply take_field_inv in E3 as (-> & _ & H3); [|lia]. cbn [map_err] in Hp. rewrite ok_bind in Hp.
    destruct (take_all_but MAC_LEN _) as [r4 [a4|e|]] eqn:E4; [|done..].
    apply take_all_but_err in E4; [|lia]. unfold MAC_LEN in E4. lia. }
  destruct (split_take 32 m) as (i1 & m1 & -> & L1); [lia|]. rewrite length_app in Hl.
  destruct (split_take 32 m1) as (i2 & m2 & -> & L2); [lia|]. rewrite length_app in Hl.
  destruct (split_take 32 m2) as (i3 & m3 & -> & L3); [lia|]. rewrite length_app in Hl.
  destruct (split_take (length m3 - 32) m3) as (i4 & i5 & -> & L4); [lia|]. rewrite length_app in *.
  rewrite ntor3_parse_app in Hp by lia. simplify_eq. split_and!; (done || lia).
Qed.

Lemma ntor3_parse_reply_app y auth enc :
  length y = 32%nat → length auth = 32%nat →
  ntor3_parse_reply (y ++ auth ++ enc) = Ok (y, auth, enc).
Proof.
  intros Hy Ha. unfold ntor3_parse_reply, from_slice.
  rewrite (take_field [] y (auth ++ enc)) by done. cbn [map_err]. rewrite ok_bind.
  rewrite (take_field y auth enc) by done. cbn [map_err]. rewrite ok_bind.
  unfold into_rest. cbn [rd_off rd_b]. rewrite (assoc_L app), drop_app_length'; [done|].
  rewrite length_app. lia.
Qed.

Lemma ntor3_parse_reply_inv m y auth enc :
  ntor3_parse_reply m = Ok (y, auth, enc) →
  m = y ++ auth ++ enc ∧ length y = 32%nat ∧ length auth = 32%nat.
Proof.
  intros Hp. assert (64 ≤ length m)%nat as Hl.
  { unfold ntor3_parse_reply, from_slice in Hp.
    destruct (extract (take_array 32) (mkReader m 0 SupposedlyComplete)) as [r1 [a|e|]] eqn:E1; [|done..].
    apply take_field_inv in E1 as (-> & _ & H1); [|lia]. cbn [map_err] in Hp. rewrite ok_bind in Hp.
    destruct (extract (take_array 32) _) as [r2 [a2|e|]] eqn:E2; [|done..].
    apply take_field_inv in E2 as (-> & _ & H2); [|lia]. lia. }
  destruct (split_take 32 m) as (i1 & m1 & -> & L1); [lia|]. rewrite length_app in Hl.
  destruct (split_take 32 m1) as (i2 & m2 & -> & L2); [lia|].
  rewrite ntor3_parse_reply_app in Hp by lia. by simplify_eq.
Qed.

Lemma ct_lookup_some {T} (array : list T) p x :
  ct_lookup array p = Some x → x ∈ array ∧ p x = true.
Proof.
  unfold ct_lookup. cut (∀ acc, foldl (λ f y, if p y then Some y else f) acc array = Some x →
    acc = Some x ∨ (x ∈ array ∧ p x = true)).
  { intros H Hx. by destruct (H None Hx). }
  induction array as [|y l IH]; intros acc; simpl; [by left|]. intros [Hy|[Hx Hp]]%IH.
  - destruct (p y) eqn:Hp; [|by left]. injection Hy as ->. right. split; [left|done].
  - right. split; [by right|done].
Qed.

Lemma ct_lookup_found {T} (array : list T) p x :
  x ∈ array → p x = true → ∃ y, ct_lookup array p = Some y ∧ y ∈ array ∧ p y = true.
Proof.
  intros Hin Hp. destruct (ct_lookup array p) as [y|] eqn:Hl.
  { exists y. split; [done|]. by apply ct_lookup_some. }
  exfalso. revert Hl. unfold ct_lookup.
  cut (∀ acc, foldl (λ f y, if p y then Some y else f) acc array ≠ None); [intros H; apply H|].
  assert (∀ (l : list T) acc, is_Some acc → foldl (λ f y, if p y then Some y else f) acc l ≠ None) as Hs.
  { intros l. induction l as [|z l IH]; intros acc [v ->]; simpl; [done|]. apply IH. by destruct (p z). }
  revert Hin. induction array as [|z l IH]; intros Hin acc; [by apply not_elem_of_nil in Hin|].
  apply elem_of_cons in Hin as [<-|Hin]; simpl; [|by apply IH]. apply Hs. rewrite Hp. eauto.
Qed.

(** ** Agreement *)

Section agree.
Context {SK : Type} `{!Primitives SK, !PrimitiveLaws SK}.

(** A relay's key belongs to its identity, and its public part to its secret part. *)
Definition ntor_key_wf (id : list Z) (k : NtorSecretKey SK) : Prop :=
  np_id (nk_pk k) = id ∧ length id = 20%nat ∧ np_pk (nk_pk k) = public_key (nk_sk k).
Definition ntor3_key_wf (id : list Z) (k : NtorV3SecretKey SK) : Prop :=
  n3_id (n3k_pk k) = id ∧ length id = 32%nat ∧ n3_pk (n3k_pk k) = public_key (n3k_sk k).

Lemma fast_agree (random : list Z) (state : list Z) :
  length state = 20%nat → length random = 20%nat →
  ∃ reply kg, fast_server random true (fast_client1 state).2 = Ok (kg, reply) ∧
              fast_client2 (fast_client1 state).1 reply = Ok kg.
Proof.
  intros Hs Hr. unfold fast_server, fast_client1. cbn [fst snd negb].
  rewrite Hs. cbn [FAST_C_HANDSHAKE_LEN Nat.eqb negb].
  destruct (legacy_kdf_ok 0 (state ++ random) 20) as (kh & Hkh & Hl); [lia|lia|].
  rewrite Hkh. cbn [map_err]. rewrite ok_bind. eexists _, _. split; [done|].
  unfold fast_client2. rewrite length_app, Hr, Hl. cbn [Nat.add FAST_S_HANDSHAKE_LEN Nat.eqb negb].
  unfold slice. cbn [Nat.sub]. rewrite drop_0, take_app_length', Hkh by done. rewrite ok_bind.
  rewrite drop_app_length' by done. rewrite <-Hl, firstn_all. by rewrite bytes_eq_refl.
Qed.

(** The relay's key that answers a request for [k]. *)
Lemma ntor_lookup id (k : NtorSecretKey SK) keys :
  Forall (ntor_key_wf id) keys → k ∈ keys →
  ∃ k', ct_lookup keys (matches_pk (np_pk (nk_pk k))) = Some k' ∧ nk_pk k' = nk_pk k ∧
        ntor_key_wf id k'.
Proof.
  intros Hwf Hk. rewrite Forall_forall in Hwf.
  destruct (ct_lookup_found keys (matches_pk (np_pk (nk_pk k))) k Hk) as (k' & Hl & Hin & Hm).
  { apply bytes_eq_refl. }
  exists k'. split; [done|]. split; [|by apply Hwf]. apply bytes_eq_true in Hm.
  destruct (Hwf k Hk) as [Hi _], (Hwf k' Hin) as [Hi' _].
  destruct (nk_pk k), (nk_pk k'). simpl in *. congruence.
Qed.

(** The client's side on an answer with its two fields. *)
Lemma ntor_client2_eq (state : NtorHandshakeState SK) y auth :
  length y = 32%nat → length auth = 32%nat →
  client_handshake2_ntor_v1 (y ++ auth) state =
    let xy := diffie_hellman (nt_my_sk state) y in
    let xb := diffie_hellman (nt_my_sk state) (np_pk (nt_relay_public state)) in
    let '(seed, authcode) := ntor_derive xy xb (nt_relay_public state) (nt_my_public state) y in
    if bytes_eq authcode auth && was_contributory xy && was_contributory xb
    then Ok seed else Err BadCircHandshakeAuth.
Proof.
  intros Hy Ha. unfold client_handshake2_ntor_v1, from_slice.
  rewrite (take_field [] y auth) by done. cbn [map_err]. rewrite ok_bind.
  by rewrite (take_field y auth []) by (rewrite ?app_nil_r; done).
Qed.

(** When a client uses ntor with a key of the relay, the relay accepts the client's message,
    the client accepts the relay's answer, and both have the same seed for their keys, whichever
    of its keys the relay finds.  The shared secrets have to be contributory, that is, neither
    side sent a public key of small order. *)
Theorem ntor_agree id (x y : SK) (k : NtorSecretKey SK) keys :
  Forall (ntor_key_wf id) keys → k ∈ keys →
  was_contributory (diffie_hellman x (public_key y)) = true →
  was_contributory (diffie_hellman x (np_pk (nk_pk k))) = true →
  ∃ state msg seed reply,
    client_handshake_ntor_v1 x (nk_pk k) = Ok (state, msg) ∧
    server_handshake_ntor_v1 y msg keys = Ok (seed, reply) ∧
    client_handshake2_ntor_v1 reply state = Ok seed.
Proof.
  intros Hwf Hk Hxy Hxb. destruct (ntor_lookup id k keys Hwf Hk) as (k' & Hl & Hpk & _ & Hid & Hkey).
  rewrite Forall_forall in Hwf. destruct (Hwf k Hk) as (Hi & _ & Hkk).
  assert (length (np_pk (nk_pk k)) = 32%nat) as Hlk by (rewrite Hkk; apply public_key_len).
  unfold client_handshake_ntor_v1, client_handshake_ntor_v1_no_keygen.
  rewrite !length_app, Hi, Hid, Hlk, public_key_len. cbn [Nat.add Nat.eqb debug_assert].
  rewrite ok_bind. eexists _, _. do 2 eexists. split; [done|].
  unfold server_handshake_ntor_v1, server_handshake_ntor_v1_no_keygen, from_slice.
  rewrite (take_field [] id (np_pk (nk_pk k) ++ public_key x)) by done. cbn [map_err]. rewrite ok_bind.
  rewrite (take_field id (np_pk (nk_pk k)) (public_key x)) by done. cbn [map_err]. rewrite ok_bind.
  rewrite (take_field (id ++ np_pk (nk_pk k)) (public_key x) [])
    by (rewrite ?length_app, ?app_nil_r, <-?(assoc_L app), ?public_key_len; (done || lia)).
  cbn [map_err]. rewrite ok_bind, Hl, Hpk, Hi, bool_decide_eq_true_2 by done. cbn [negb].
  assert (diffie_hellman (nk_sk k') (public_key x) = diffie_hellman x (np_pk (nk_pk k))) as ->
    by (rewrite <-Hpk, Hkey; apply dh_comm).
  rewrite (dh_comm y x), Hxy, Hxb. cbn [andb]. unfold ntor_derive. split; [done|].
  rewrite ntor_client2_eq by first [apply public_key_len|apply hmac_len].
  cbn [nt_my_sk nt_relay_public nt_my_public]. unfold ntor_derive.
  by rewrite bytes_eq_refl, Hxy, Hxb.
Qed.
End agree.

Section agree3.
Context {SK : Type} `{!Primitives SK, !PrimitiveLaws SK}.

Lemma ntor3_decrypt_encrypt key m : ntor3_decrypt key (ntor3_encrypt key m) = m.
Proof.
  unfold ntor3_decrypt, ntor3_encrypt.
  rewrite length_xor_bytes by (by rewrite aes_len). apply xor_bytes_twice. by rewrite aes_len.
Qed.

Lemma ntor3_lookup id (k : NtorV3SecretKey SK) keys :
  Forall (ntor3_key_wf id) keys → k ∈ keys →
  ∃ k', ct_lookup keys (ntor3_matches id (n3_pk (n3k_pk k))) = Some k' ∧ n3k_pk k' = n3k_pk k ∧
        ntor3_key_wf id k'.
Proof.
  intros Hwf Hk. rewrite Forall_forall in Hwf.
  destruct (ct_lookup_found keys (ntor3_matches id (n3_pk (n3k_pk k))) k Hk) as (k' & Hl & Hin & Hm).
  { unfold ntor3_matches. destruct (Hwf k Hk) as [-> _]. by rewrite !bytes_eq_refl. }
  exists k'. split; [done|]. split; [|by apply Hwf]. apply andb_prop in Hm as [Hm1 Hm2].
  apply bytes_eq_true in Hm1, Hm2.
  destruct (Hwf k Hk) as [Hi _], (Hwf k' Hin) as [Hi' _].
  destruct (n3k_pk k), (n3k_pk k'). simpl in *. congruence.
Qed.

(** The handshake on byte strings. *)
Lemma ntor3_agree_bytes id (x y : SK) (k : NtorV3SecretKey SK) keys cm rm f v :
  Forall (ntor3_key_wf id) keys → k ∈ keys →
  was_contributory (diffie_hellman x (public_key y)) = true →
  was_contributory (diffie_hellman x (n3_pk (n3k_pk k))) = true →
  f cm = Some rm →
  ∃ reply ks,
    server_handshake_ntor_v3_no_keygen f y (client_handshake_ntor_v3_no_keygen (n3k_pk k) cm v x).2
      keys v = Ok (reply, ks) ∧
    client_handshake_ntor_v3_part2 (client_handshake_ntor_v3_no_keygen (n3k_pk k) cm v x).1 reply v
      = Ok (rm, ks).
Proof.
  intros Hwf Hk Hxy Hxb Hf.
  destruct (ntor3_lookup id k keys Hwf Hk) as (k' & Hl & Hpk & _ & Hid & Hkey).
  rewrite Forall_forall in Hwf. destruct (Hwf k Hk) as (Hi & _ & Hkk).
  assert (length (n3_pk (n3k_pk k)) = 32%nat) as Hlk by (rewrite Hkk; apply public_key_len).
  unfold client_handshake_ntor_v3_no_keygen, server_handshake_ntor_v3_no_keygen.
  destruct (kdf_msgkdf _ _ _ _) as [enc_key mac] eqn:Hkdf. cbn [fst snd].
  rewrite ntor3_parse_app by (rewrite ?Hi, ?public_key_len, ?sha3_len; done). rewrite ok_bind, Hi, Hl.
  unfold ntor3_respond.
  assert (diffie_hellman (n3k_sk k') (public_key x) = diffie_hellman x (n3_pk (n3k_pk k))) as ->
    by (rewrite <-Hpk, Hkey; apply dh_comm).
  rewrite Hpk, Hkdf, bytes_eq_refl, (dh_comm y x), Hxy, Hxb, ntor3_decrypt_encrypt, Hf.
  rewrite bool_decide_eq_true_2 by eauto. cbn [andb default].
  destruct (ntor3_final_keys _) as [ks ek] eqn:Hfin. eexists _, _. split; [done|].
  unfold client_handshake_ntor_v3_part2.
  rewrite ntor3_parse_reply_app by first [apply public_key_len|apply sha3_len]. rewrite ok_bind.
  cbn [n3s_my_sk n3s_shared_secret n3s_relay_public n3s_my_public n3s_msg_mac].
  by rewrite Hfin, bytes_eq_refl, Hxy, Hxb, ntor3_decrypt_encrypt.
Qed.

(** C27: when a client uses ntor v3 with a key of the relay, the relay gets the client's
    extensions, the client gets the relay's, each in the order of their types, and both have the
    same key stream. *)
Theorem ntor3_agree id (x y : SK) (k : NtorV3SecretKey SK) keys reply_fn exts resp :
  Forall (ntor3_key_wf id) keys → k ∈ keys →
  was_contributory (diffie_hellman x (public_key y)) = true →
  was_contributory (diffie_hellman x (n3_pk (n3k_pk k))) = true →
  Forall req_wf exts → Z.of_nat (length exts) ≤ u8_max →
  reply_fn (sort_by_key type_id exts) = Some resp →
  Forall resp_wf resp → Z.of_nat (length resp) ≤ u8_max →
  ∃ state msg keygen reply,
    ntor3_client1 x (n3k_pk k) exts = Ok (state, msg) ∧
    ntor3_server y reply_fn keys msg = Ok (keygen, reply) ∧
    ntor3_client2 state reply = Ok (sort_by_key type_id resp, keygen).
Proof.
  intros Hwf Hk Hxy Hxb Hex Hlex Hreply Hresp Hlresp.
  destruct (exts_roundtrip exts) as (cm & Hcm & Hdec); [done..|].
  destruct (exts_roundtrip resp) as (rm & Hrm & Hrdec); [done..|].
  destruct (ntor3_agree_bytes id x y k keys cm rm (bytes_reply_fn reply_fn) NTOR3_CIRC_VERIFICATION)
    as (reply & ks & Hs & Hc); [done..| |].
  { unfold bytes_reply_fn. rewrite Hdec, Hreply. simpl. by rewrite Hrm. }
  unfold ntor3_client1. rewrite Hcm. cbn [map_err]. rewrite ok_bind.
  eexists _, _, _, _. split; [apply f_equal, surjective_pairing|].
  unfold ntor3_server. rewrite Hs, ok_bind. split; [done|].
  unfold ntor3_client2. rewrite Hc, ok_bind, Hrdec. done.
Qed.
End agree3.

(** ** Authentication *)

Lemma app_inj_len {A} (a b x y : list A) n :
  length a = n → length b = n → a ++ x = b ++ y → a = b ∧ x = y.
Proof. intros Ha Hb. apply app_inj_1. congruence. Qed.

Lemma encap_inj a b p q : length p = length q → Encap a ++ p = Encap b ++ q → a = b ∧ p = q.
Proof.
  unfold Encap. intros Hl Heq. rewrite <-!(assoc_L app) in Heq.
  apply (app_inj_len _ _ _ _ 8) in Heq as [_ Heq]; [|by rewrite length_to_be_bytes..].
  by apply app_inj_2 in Heq.
Qed.

(** Takes apart an equation of two concatenations whose fields have known lengths. *)
Ltac fields_inj H :=
  repeat (let H1 := fresh in
    apply (app_inj_len _ _ _ _ 32) in H as [H1 H]; [|assumption..]; try subst).

Definition relay_key_len (rp : NtorV3PublicKey) : Prop :=
  length (n3_id rp) = 32%nat ∧ length (n3_pk rp) = 32%nat.

Lemma auth_input_inj v v' rp rp' y y' x x' m m' e e' :
  ntor3_auth_input v rp y x m e = ntor3_auth_input v' rp' y' x' m' e' →
  relay_key_len rp → relay_key_len rp' → length v = 32%nat → length v' = 32%nat →
  length y = 32%nat → length y' = 32%nat → length x = 32%nat → length x' = 32%nat →
  length m = 32%nat → length m' = 32%nat →
  v = v' ∧ rp = rp' ∧ y = y' ∧ x = x' ∧ m = m' ∧ e = e'.
Proof.
  unfold ntor3_auth_input. intros H [Hi Hp] [Hi' Hp'] Hv Hv' Hy Hy' Hx Hx' Hm Hm'.
  apply app_inv_head in H. destruct rp as [i p], rp' as [i' p']. simpl in *. fields_inj H.
  by apply encap_inj in H as [-> _].
Qed.

Lemma secret_input_inj s s' b b' rp rp' y y' x x' v v' :
  ntor3_secret_input s b rp x y v = ntor3_secret_input s' b' rp' x' y' v' →
  relay_key_len rp → relay_key_len rp' → length s = 32%nat → length s' = 32%nat →
  length b = 32%nat → length b' = 32%nat →
  length y = 32%nat → length y' = 32%nat → length x = 32%nat → length x' = 32%nat →
  s = s' ∧ b = b' ∧ v = v'.
Proof.
  unfold ntor3_secret_input. intros H [Hi Hp] [Hi' Hp'] Hs Hs' Hb Hb' Hy Hy' Hx Hx'.
  fields_inj H. apply app_inv_head in H. rewrite <-(app_nil_r (Encap v)), <-(app_nil_r (Encap v')) in H.
  by apply encap_inj in H as [-> _].
Qed.

Section authentic.
Context {SK : Type} `{!Primitives SK, !PrimitiveLaws SK}.

(** What the client hashes in a handshake that ends with the answer [reply]. *)
Definition ntor3_client_inputs (rp : NtorV3PublicKey) (cm v : list Z) (x : SK) (reply : list Z) :
    list (list Z) :=
  let bx := diffie_hellman x (n3_pk rp) in
  let '(ek, mac) := kdf_msgkdf bx rp (public_key x) v in
  let m := mac ++ ntor3_encrypt ek cm in
  match ntor3_parse_reply reply with
  | Ok (y, _, e) =>
      let si := ntor3_secret_input (diffie_hellman x y) bx rp (public_key x) y v in
      [m; to_be_bytes 8 (Z.of_nat (length T_VERIFY)) ++ T_VERIFY ++ si;
       ntor3_auth_input (h_verify si) rp y (public_key x) (sha3_256 m) e]
  | _ => []
  end.

(** What a relay with the keys [keys] hashes when it answers the message [msg]. *)
Definition ntor3_relay_inputs (f : list Z → option (list Z)) (y : SK) (keys : list (NtorV3SecretKey SK))
    (msg v : list Z) : list (list Z) :=
  match ntor3_parse msg with
  | Ok (id, pk, x, enc, msg_mac) =>
      match ct_lookup keys (ntor3_matches id pk) with
      | Some k =>
          let xb := diffie_hellman (n3k_sk k) x in
          let '(ek, mac) := kdf_msgkdf xb (n3k_pk k) x v in
          let si := ntor3_secret_input (diffie_hellman y x) xb (n3k_pk k) x (public_key y) v in
          let e := ntor3_encrypt (ntor3_final_keys (h_key_seed si)).2
                     (default [] (f (ntor3_decrypt ek enc))) in
          [mac ++ enc; to_be_bytes 8 (Z.of_nat (length T_VERIFY)) ++ T_VERIFY ++ si;
           ntor3_auth_input (h_verify si) (n3k_pk k) (public_key y) x msg_mac e]
      | None => []
      end
  | _ => []
  end.

(** No two different strings among those that the two sides hash have the same digest. *)
Definition no_collision (l l' : list (list Z)) : Prop :=
  ∀ a b, a ∈ l → b ∈ l' → sha3_256 a = sha3_256 b → a = b.

Lemma no_collision_Forall l l' :
  no_collision l l' ↔ Forall (λ a, Forall (λ b, sha3_256 a = sha3_256 b → a = b) l') l.
Proof. unfold no_collision. rewrite Forall_forall. setoid_rewrite Forall_forall. naive_solver. Qed.

#[global] Instance no_collision_dec l l' : Decision (no_collision l l').
Proof.
  refine (cast_if (decide (Forall (λ a, Forall (λ b, sha3_256 a = sha3_256 b → a = b) l') l)));
    by rewrite no_collision_Forall.
Defined.

(** What the relay's answer says about its run. *)
Lemma ntor3_respond_inv f y k x enc mac v reply ks :
  ntor3_respond f y k x enc mac v = Ok (reply, ks) →
  let xb := diffie_hellman (n3k_sk k) x in
  let '(ek, m) := kdf_msgkdf xb (n3k_pk k) x v in
  let si := ntor3_secret_input (diffie_hellman y x) xb (n3k_pk k) x (public_key y) v in
  ∃ rm, f (ntor3_decrypt ek enc) = Some rm ∧ sha3_256 (m ++ enc) = mac ∧
    ks = (ntor3_final_keys (h_key_seed si)).1 ∧
    let e := ntor3_encrypt (ntor3_final_keys (h_key_seed si)).2 rm in
    reply = public_key y ++
      sha3_256 (ntor3_auth_input (h_verify si) (n3k_pk k) (public_key y) x mac e) ++ e.
Proof.
  unfold ntor3_respond. cbv zeta. destruct (kdf_msgkdf _ _ _ _) as [ek m].
  destruct (ntor3_final_keys _) as [ks' ek']. cbn [fst snd].
  destruct (f _) as [rm|]; [|by rewrite bool_decide_eq_false_2, andb_false_r by by intros [? ?]].
  destruct (bytes_eq _ _) eqn:Hm; [|done]. apply bytes_eq_true in Hm.
  case_match; [|done]. intros [= <- <-]. eauto.
Qed.

Lemma ntor3_part2_inv st reply v out ks :
  client_handshake_ntor_v3_part2 st reply v = Ok (out, ks) →
  ∃ y auth e, ntor3_parse_reply reply = Ok (y, auth, e) ∧
    let si := ntor3_secret_input (diffie_hellman (n3s_my_sk st) y) (n3s_shared_secret st)
                (n3s_relay_public st) (n3s_my_public st) y v in
    auth = sha3_256 (ntor3_auth_input (h_verify si) (n3s_relay_public st) y (n3s_my_public st)
                       (n3s_msg_mac st) e) ∧
    ks = (ntor3_final_keys (h_key_seed si)).1 ∧
    out = ntor3_decrypt (ntor3_final_keys (h_key_seed si)).2 e.
Proof.
  unfold client_handshake_ntor_v3_part2.
  destruct (ntor3_parse_reply reply) as [[[y auth] e]|err|]; [|done..]. rewrite ok_bind. cbv zeta.
  destruct (ntor3_final_keys _) as [ks' ek'] eqn:Hf.
  destruct (bytes_eq _ _) eqn:Hm; [|done]. apply bytes_eq_true in Hm.
  case_match; [|done]. intros [= <- <-]. exists y, auth, e. by rewrite Hf.
Qed.

(** C6: an ntor-v3 client that accepts an answer has completed the handshake with the relay that
    computed its authentication code.  Whatever message that relay was given, and whatever was done
    to its answer on the way, if the client accepts an answer with the code the relay sent, and
    SHA3-256 does not collide on the strings the two hashed, then the relay answered the client's own
    message under the same verification string, the answer arrived unchanged, both hold the same key
    stream, and what the client decrypts is what the relay replied to the client's plaintext. *)
Theorem ntor3_transcript (x y : SK) rp keys f cm v v' msg' reply reply' out ks ks' :
  relay_key_len rp → Forall (λ k, relay_key_len (n3k_pk k)) keys →
  server_handshake_ntor_v3_no_keygen f y msg' keys v' = Ok (reply', ks') →
  client_handshake_ntor_v3_part2 (client_handshake_ntor_v3_no_keygen rp cm v x).1 reply v
    = Ok (out, ks) →
  take 32 (drop 32 reply) = take 32 (drop 32 reply') →
  no_collision (ntor3_client_inputs rp cm v x reply) (ntor3_relay_inputs f y keys msg' v') →
  msg' = (client_handshake_ntor_v3_no_keygen rp cm v x).2 ∧ v' = v ∧ reply = reply' ∧ ks = ks' ∧
  f cm = Some out.
Proof.
  intros Hrp Hkeys Hs Hc Hauth Hnc.
  unfold server_handshake_ntor_v3_no_keygen in Hs. unfold ntor3_relay_inputs in Hnc.
  destruct (ntor3_parse msg') as [[[[[id pk] xp] enc] mm]|e|] eqn:Hp; [|done..]. rewrite ok_bind in Hs.
  apply ntor3_parse_inv in Hp as (-> & Li & Lp & Lx & Lm).
  destruct (ct_lookup keys _) as [k|] eqn:Hl; [|done]. apply ct_lookup_some in Hl as [Hin Hmatch].
  unfold ntor3_matches in Hmatch. apply andb_true_iff in Hmatch as [->%bytes_eq_true ->%bytes_eq_true].
  rewrite Forall_forall in Hkeys. pose proof (Hkeys k Hin) as Hk.
  apply ntor3_respond_inv in Hs. apply ntor3_part2_inv in Hc as (yp & auth & e & Hpr & Hc).
  unfold ntor3_client_inputs in Hnc. rewrite Hpr in Hnc.
  apply ntor3_parse_reply_inv in Hpr as (-> & Ly & La).
  unfold client_handshake_ntor_v3_no_keygen in *. cbv zeta in *.
  destruct (kdf_msgkdf (diffie_hellman x _) _ _ _) as [ek mac] eqn:Hkc.
  destruct (kdf_msgkdf (diffie_hellman (n3k_sk k) _) _ _ _) as [ek' mac'] eqn:Hkr.
  destruct Hs as (rm & Hf & <- & -> & ->). destruct Hc as (-> & -> & ->).
  rewrite Hf in Hnc. cbn [fst snd n3s_relay_public n3s_my_sk n3s_my_public n3s_shared_secret n3s_msg_mac default] in *.
  rewrite drop_app_length', take_app_length', drop_app_length', take_app_length' in Hauth
    by (rewrite ?sha3_len, ?public_key_len; lia).
  apply Hnc in Hauth; [|set_solver..].
  apply auth_input_inj in Hauth as (Hver & -> & -> & <- & Hmac & ->); try done;
    try apply sha3_len; try apply public_key_len.
  apply Hnc in Hver; [|set_solver..]. do 2 apply app_inv_head in Hver.
  apply secret_input_inj in Hver as (Hxy & Hxb & <-); try done;
    try apply dh_len; try apply public_key_len.
  apply Hnc in Hmac; [|set_solver..]. rewrite <-Hxb, Hkc in Hkr. injection Hkr as <- <-.
  apply app_inv_head in Hmac as <-.
  rewrite ntor3_decrypt_encrypt in Hf. rewrite Hxy, Hxb, ntor3_decrypt_encrypt. done.
Qed.
End authentic.

(** ** The theorems at concrete handshakes

    A toy instance of the primitives that satisfies the laws. *)
Definition toy_digest (x : list Z) : Z := foldl (λ h b, (h * 31 + b + 1) mod 65521) 7 x.
Definition toy_bytes (n : nat) (x : list Z) : list Z :=
  match n with O => [] | S n => (toy_digest x mod 256) :: replicate n (toy_digest x / 256) end.

#[global] Instance toy_primitives : Primitives Z := {|
  public_key sk := (sk mod 256) :: replicate 31 0;
  diffie_hellman sk pk := (sk * default 0 (head pk)) mod 256 :: replicate 31 0;
  was_contributory s := negb (default 0 (head s) =? 0);
  sha1 := toy_bytes 20;
  sha3_256 := toy_bytes 32;
  hmac_sha256 k x := toy_bytes 32 (k ++ x);
  hkdf_sha256 salt x info n := Some (toy_bytes n (salt ++ x ++ info));
  shake256 x n := toy_bytes n x;
  aes256_ctr k n := toy_bytes n k;
|}.

Lemma toy_bytes_len n x : length (toy_bytes n x) = n.
Proof. destruct n; [done|]. cbn [toy_bytes length]. by rewrite length_replicate. Qed.

#[global] Instance toy_laws : PrimitiveLaws Z.
Proof.
  split; intros; try apply toy_bytes_len; try done.
  change ((a * (b mod 256)) mod 256 :: replicate 31 0 = (b * (a mod 256)) mod 256 :: replicate 31 0).
  rewrite !Z.mul_mod_idemp_r by lia. by rewrite (Z.mul_comm a b).
Qed.

Definition toy_id : list Z := replicate 32 9.
Definition toy_relay_key : NtorV3SecretKey Z :=
  mkNtor3Sk (mkNtor3Pk toy_id (public_key 5)) 5.

Lemma legacy_kdf_lengths_witness :
  legacy_kdf 0 [1] 5101 = Panic ∧ legacy_kdf 0 [1] 5121 = Err InvalidKDFOutputLength.
Proof.
  split.
  - apply (legacy_kdf_lengths 0 [1] 5101). lia.
  - apply (legacy_kdf_lengths 0 [1] 5121). lia.
Defined.

Lemma ntor_agree_witness :
  let k := mkNtorSk (mkNtorPk (replicate 20 9) (public_key 5)) 5 in
  ∃ state msg seed reply,
    client_handshake_ntor_v1 3 (nk_pk k) = Ok (state, msg) ∧
    server_handshake_ntor_v1 7 msg [k] = Ok (seed, reply) ∧
    client_handshake2_ntor_v1 reply state = Ok seed.
Proof.
  apply (ntor_agree (replicate 20 9) 3 7 (mkNtorSk (mkNtorPk (replicate 20 9) (public_key 5)) 5)
           [mkNtorSk (mkNtorPk (replicate 20 9) (public_key 5)) 5]); try reflexivity.
  - constructor; [|constructor]. done.
  - left.
Defined.

Lemma ntor3_agree_witness :
  ∃ state msg keygen reply,
    ntor3_client1 3 (n3k_pk toy_relay_key) [CcRequest] = Ok (state, msg) ∧
    ntor3_server 7 (λ _, Some [CcResponse 31]) [toy_relay_key] msg = Ok (keygen, reply) ∧
    ntor3_client2 state reply = Ok (sort_by_key type_id [CcResponse 31], keygen).
Proof.
  apply (ntor3_agree toy_id 3 7 toy_relay_key [toy_relay_key] (λ _, Some [CcResponse 31]) [CcRequest]
           [CcResponse 31]); try reflexivity.
  - constructor; [|constructor]. done.
  - left.
  - repeat constructor.
  - done.
  - repeat constructor.
  - done.
Defined.

Definition toy_client : NtorV3HandshakeState Z * list Z :=
  client_handshake_ntor_v3_no_keygen (n3k_pk toy_relay_key) [1; 2] [8] 3.
Definition toy_answer : list Z * XofReader :=
  match server_handshake_ntor_v3_no_keygen Some 7 toy_client.2 [toy_relay_key] [8] with
  | Ok p => p
  | _ => ([], mkXof [] 0)
  end.

Lemma ntor3_transcript_witness :
  toy_client.2 = toy_client.2 ∧ [8] = [8] ∧ toy_answer.1 = toy_answer.1 ∧ toy_answer.2 = toy_answer.2 ∧
  Some [1; 2] = Some [1; 2].
Proof.
  apply (ntor3_transcript 3 7 (n3k_pk toy_relay_key) [toy_relay_key] Some [1; 2] [8] [8] toy_client.2
           toy_answer.1 toy_answer.1 [1; 2] toy_answer.2 toy_answer.2).
  - done.
  - constructor; [done|constructor].
  - vm_compute. reflexivity.
  - vm_compute. reflexivity.
  - reflexivity.
  - apply (bool_decide_unpack _). vm_compute. exact I.
Defined.
