(* ===== verification/Socks.v ===== *)
(** * Socks: the SOCKS handshakes of crate tor-socksproto

    The messages ([msg.rs]), the driver that feeds bytes to a handshake and tells the caller
    what to do next ([handshake/framework.rs]), and its two implementations: the proxy
    ([handshake/proxy.rs]) and the client ([handshake/client.rs]).  A handshake is an instance
    of class [Handshake]; its [handshake_impl] runs on the handshake's own state and a reader
    over the bytes received so far.  A string is the list of its bytes. *)

From S2P Require Import Prelude Text Bytes Codec RelayMsg StateM.

#[export] Typeclasses Opaque RD.

(** ** Errors (err.rs) *)

Inductive SocksError : Type :=
| Syntax
| Decode (e : BytesError)
| BadProtocol (v : Z)
| NotImplemented (what : string)
| AlreadyFinished (bug : string)
| AuthRejected
| MessageTooLong (limit : nat)
| UnexpectedEof
| ForbiddenPipelining
| SocksBug (msg : string).

(** ** Messages (msg.rs) *)

Inductive SocksVersion : Type := SocksV4 | SocksV5.

#[export] Instance SocksVersion_eq_dec : EqDecision SocksVersion.
Proof. solve_decision. Defined.

Definition SocksVersion_try_from (v : Z) : res SocksError SocksVersion :=
  if v =? 4 then Ok SocksV4 else if v =? 5 then Ok SocksV5 else Err (BadProtocol v).

Inductive SocksAddr : Type :=
| Hostname (h : list Z)
| Ip (a : IpAddr).

Inductive SocksAuth : Type :=
| NoAuth
| Socks4 (data : list Z)
| Username (user pass : list Z).

#[export] Instance SocksAddr_eq_dec : EqDecision SocksAddr.
Proof. solve_decision. Defined.
#[export] Instance SocksAuth_eq_dec : EqDecision SocksAuth.
Proof. solve_decision. Defined.

Module SocksCmd.
Definition CONNECT : Z := 1.
Definition BIND : Z := 2.
Definition UDP_ASSOCIATE : Z := 3.
Definition RESOLVE : Z := 240.
Definition RESOLVE_PTR : Z := 241.

Definition recognized (cmd : Z) : bool :=
  (cmd =? CONNECT) || (cmd =? RESOLVE) || (cmd =? RESOLVE_PTR).

Definition requires_port (cmd : Z) : bool :=
  (cmd =? CONNECT) || (cmd =? BIND) || (cmd =? UDP_ASSOCIATE).
End SocksCmd.

Module SocksStatus.
Definition SUCCEEDED : Z := 0.
Definition GENERAL_FAILURE : Z := 1.
Definition NOT_ALLOWED : Z := 2.

Definition into_socks4_status (status : Z) : Z :=
  if status =? SUCCEEDED then 90 else 91.

Definition from_socks4_status (status : Z) : Z :=
  if status =? 90 then SUCCEEDED
  else if status =? 91 then GENERAL_FAILURE
  else if (status =? 92) || (status =? 93) then NOT_ALLOWED
  else GENERAL_FAILURE.
End SocksStatus.

Definition contains_zeros (b : list Z) : bool :=
  foldl (λ seen_any byte, seen_any || (byte =? 0)) false b.

Definition SocksHostname_try_from (s : list Z) : res SocksError (list Z) :=
  if (255 <? length s)%nat then Err (SocksBug "hostname too long")
  else if contains_zeros s then Err Syntax
  else Ok s.

Definition SocksAuth_validate (auth : SocksAuth) (version : SocksVersion) : res SocksError unit :=
  match auth with
  | NoAuth => Ok tt
  | Socks4 data =>
      if negb (bool_decide (version = SocksV4)) || contains_zeros data
      then Err Syntax else Ok tt
  | Username user pass =>
      if negb (bool_decide (version = SocksV5)) || (255 <? length user)%nat
         || (255 <? length pass)%nat
      then Err Syntax else Ok tt
  end.

Record SocksRequest : Type := mkSocksRequest {
  sq_version : SocksVersion;
  sq_cmd : Z;
  sq_addr : SocksAddr;
  sq_port : Z;
  sq_auth : SocksAuth;
}.

#[export] Instance SocksRequest_eq_dec : EqDecision SocksRequest.
Proof. solve_decision. Defined.

Definition SocksRequest_new (version : SocksVersion) (cmd : Z) (addr : SocksAddr) (port : Z)
    (auth : SocksAuth) : res SocksError SocksRequest :=
  if negb (SocksCmd.recognized cmd) then Err (NotImplemented "SOCKS command")
  else if (port =? 0) && SocksCmd.requires_port cmd then Err Syntax
  else
    _ ← SocksAuth_validate auth version;
    Ok (mkSocksRequest version cmd addr port auth).

Record SocksReply : Type := mkSocksReply {
  sp_status : Z;
  sp_addr : SocksAddr;
  sp_port : Z;
}.

(** ** Addresses as text

    [Ipv4Addr] and [Ipv6Addr] as the standard library displays them. *)

Definition ipv4_to_string (a : Z) : list Z :=
  join (str ".") (dec_digits 3 <$> to_be_bytes 4 a).

Definition hex_digit (x : Z) : Z := if x <? 10 then 48 + x else 87 + x.
Fixpoint hex_digits (fuel : nat) (x : Z) : list Z :=
  match fuel with
  | O => []
  | S fuel => if x <? 16 then [hex_digit x] else hex_digits fuel (x / 16) ++ [hex_digit (x mod 16)]
  end.

Definition segments (a : Z) : list Z :=
  (λ i, (a / 65536 ^ (7 - i)) mod 65536) <$> seqZ 0 8.

(** The longest run of zero segments, as its start and its length: [seg] is at index [i], and
    [current] and [longest] are the runs so far. *)
Fixpoint longest_zeros (i : nat) (segs : list Z) (current longest : nat * nat) : nat * nat :=
  match segs with
  | [] => longest
  | seg :: segs =>
      if seg =? 0 then
        let current :=
          ((if (current.2 =? 0)%nat then i else current.1), S current.2) in
        longest_zeros (S i) segs current
          (if (longest.2 <? current.2)%nat then current else longest)
      else longest_zeros (S i) segs (0%nat, 0%nat) longest
  end.

Definition fmt_subslice (chunk : list Z) : list Z := join (str ":") (hex_digits 4 <$> chunk).

Definition ipv6_to_string (a : Z) : list Z :=
  if Z.shiftr a 32 =? 65535 then str "::ffff:" ++ ipv4_to_string (a mod 2 ^ 32)
  else
    let segs := segments a in
    let '(start, len) := longest_zeros 0 segs (0%nat, 0%nat) (0%nat, 0%nat) in
    if (1 <? len)%nat
    then fmt_subslice (take start segs) ++ str "::" ++ fmt_subslice (drop (start + len) segs)
    else fmt_subslice segs.

Arguments ipv4_to_string : simpl never.
Arguments ipv6_to_string : simpl never.

Definition SocksAddr_to_string (a : SocksAddr) : list Z :=
  match a with
  | Ip (V4 a) => ipv4_to_string a
  | Ip (V6 a) => ipv6_to_string a
  | Hostname h => h
  end.

(** ** The framework (handshake/framework.rs) *)

Inductive ImplNextStep : Type :=
| Reply (reply : list Z)
| Finished.

(** The traits [HasHandshakeState], [HasHandshakeOutput] and [HandshakeImpl]. *)
Class Handshake (H O : Type) : Type := {
  set_failed : H → H;
  take_output : H → H * option O;
  handshake_impl : ST (H * Reader) SocksError ImplNextStep;
}.
Arguments set_failed {_ _ _}.
Arguments take_output {_ _ _}.
Arguments handshake_impl {_ _ _}.

(** A reader method as a part of a handshake: its errors become [Error::Decode]. *)
Definition rd {H A} (m : RD A) : ST (H * Reader) SocksError A := λ s,
  let '(r, x) := m s.2 in ((s.1, r), map_err Decode x).

(** An assignment to the fields of the handshake. *)
Definition set_self {H} (f : H → H) : ST (H * Reader) SocksError unit :=
  modify (λ s, (f s.1, s.2)).
Definition get_self {H A} (f : H → A) : ST (H * Reader) SocksError A := gets (λ s, f s.1).

Inductive ReadPrecision : Type := ReadAhead | PreciseReads.

Record Buffer : Type := mkBuffer { bf_buf : list Z; bf_filled : nat }.

Definition SOCKS_BUF_LEN : nat := 1024.
Definition Buffer_with_size (size : nat) : Buffer := mkBuffer (replicate size 170) 0.
Definition Buffer_default : Buffer := Buffer_with_size SOCKS_BUF_LEN.
Definition Buffer_from_parts (buf : list Z) (filled : nat) : Buffer := mkBuffer buf filled.
Definition Buffer_into_parts (b : Buffer) : list Z * nat := (bf_buf b, bf_filled b).
Definition unfilled_slice (b : Buffer) : list Z := drop (bf_filled b) (bf_buf b).
Definition filled_slice (b : Buffer) : list Z := take (bf_filled b) (bf_buf b).

Definition Buffer_note_received (len : nat) (b : Buffer) : res SocksError Buffer :=
  if (len <=? length (unfilled_slice b))%nat
  then Ok (mkBuffer (bf_buf b) (bf_filled b + len)) else Panic.

(** [recv_step_buf] of the two precisions. *)
Definition recv_step_buf (P : ReadPrecision) (buf : list Z) (deficit : nat) :
    res SocksError (list Z) :=
  match P with
  | ReadAhead => Ok buf
  | PreciseReads => if (deficit <=? length buf)%nat then Ok (take deficit buf) else Panic
  end.

(** [RecvStep::buf] and [RecvStep::note_received]; a [RecvStep] is its deficit and the buffer. *)
Definition RecvStep_buf (P : ReadPrecision) (b : Buffer) (deficit : nat) : res SocksError (list Z) :=
  recv_step_buf P (unfilled_slice b) deficit.

Definition RecvStep_note_received (len : nat) (b : Buffer) : res SocksError Buffer :=
  if (len =? 0)%nat then Err UnexpectedEof else Buffer_note_received len b.

(** [Finished]: the output and the buffer, with what was read after the handshake. *)
Definition into_output {O} (output : O) (b : Buffer) : res SocksError O :=
  if (length (filled_slice b) =? 0)%nat then Ok output
  else Err (SocksBug "handshake complete, but we read too much earlier").
Definition into_output_and_slice {O} (output : O) (b : Buffer) : Buffer * (O * list Z) :=
  (mkBuffer (bf_buf b) 0, (output, filled_slice b)).
Definition into_output_and_vec {O} (output : O) (b : Buffer) : Buffer * (O * list Z) :=
  (mkBuffer [] (bf_filled b), (output, take (bf_filled b) (bf_buf b))).
Definition into_output_forbid_pipelining {O} (output : O) (b : Buffer) : res SocksError O :=
  if negb (length (filled_slice b) =? 0)%nat then Err ForbiddenPipelining else Ok output.

Inductive NextStep (O : Type) : Type :=
| Send (data : list Z)
| Recv (deficit : nat)
| HsFinished (output : O).
Arguments Send {_} _.
Arguments Recv {_} _.
Arguments HsFinished {_} _.

Record Action : Type := mkAction { ac_drain : nat; ac_reply : list Z; ac_finished : bool }.

Section framework.
Context {H O : Type} `{!Handshake H O}.

Definition call_handshake_impl (h : H) (input : list Z) : H * (nat * res SocksError ImplNextStep) :=
  let '((h, b), rv) := handshake_impl (h, from_possibly_incomplete_slice input) in
  let drain := consumed b in
  match rv with
  | Ok (Reply []) =>
      if (drain =? 0)%nat
      then (h, (0%nat, Err (SocksBug "protocol implementation drained nothing, replied nothing")))
      else (h, (drain, rv))
  | _ => (h, (drain, rv))
  end.

(** [buffer.buf.copy_within(drain..buffer.filled, 0); buffer.filled -= drain] *)
Definition drain_buffer (drain : nat) (b : Buffer) : res SocksError Buffer :=
  if (drain <=? bf_filled b)%nat && (bf_filled b <=? length (bf_buf b))%nat then
    let moved := drop drain (take (bf_filled b) (bf_buf b)) in
    Ok (mkBuffer (moved ++ drop (length moved) (bf_buf b)) (bf_filled b - drain))
  else Panic.

Definition step (h : H) (b : Buffer) : (H * Buffer) * res SocksError (NextStep O) :=
  let '(h, (drain, rv)) := call_handshake_impl h (filled_slice b) in
  match rv with
  | Err (Decode (Incomplete deficit)) =>
      ((h, b), if (length (unfilled_slice b) <? deficit)%nat
               then Err (MessageTooLong (length (bf_buf b)))
               else Ok (Recv deficit))
  | Err e => ((h, b), Err e)
  | Panic => ((h, b), Panic)
  | Ok rv =>
      match drain_buffer drain b with
      | Ok b =>
          match rv with
          | Reply reply => ((h, b), Ok (Send reply))
          | Finished =>
              let '(h, output) := take_output h in
              match output with
              | Some output => ((h, b), Ok (HsFinished output))
              | None => ((h, b), Err (SocksBug "no output!"))
              end
          end
      | Err e => ((h, b), Err e)
      | Panic => ((h, b), Panic)
      end
  end.

(** The older interface; the outer [Err] is [Truncated]. *)
Definition handshake (h : H) (input : list Z) : H * res unit (res SocksError Action) :=
  let '(h, (drain, rv)) := call_handshake_impl h input in
  match rv with
  | Err (Decode (Incomplete _)) | Err (Decode Truncated) => (h, Err tt)
  | Err e => (set_failed h, Ok (Err e))
  | Ok (Reply reply) => (h, Ok (Ok (mkAction drain reply false)))
  | Ok Finished => (h, Ok (Ok (mkAction drain [] true)))
  | Panic => (h, Panic)
  end.
End framework.

(** ** Addresses on the wire (handshake.rs) *)

Definition USERNAME_PASSWORD : Z := 2.
Definition NO_AUTHENTICATION : Z := 0.

Definition SocksAddr_take_from : RD SocksAddr :=
  atype ← take_u8;
  if atype =? 1 then ip4 ← extract take_ipv4; mret (Ip (V4 ip4))
  else if atype =? 3 then
    hlen ← take_u8;
    hostname ← rd_take (Z.to_nat hlen);
    if negb (utf8_valid hostname) then rd_fail (InvalidMessage "bad utf8 on hostname")
    else
      hostname ← rd_lift (map_err (λ _, InvalidMessage "hostname too long")
                            (SocksHostname_try_from hostname));
      mret (Hostname hostname)
  else if atype =? 4 then ip6 ← extract take_ipv6; mret (Ip (V6 ip6))
  else rd_fail (InvalidMessage "unrecognized address type.").

Definition SocksAddr_write_onto (a : SocksAddr) (w : list Z) : res EncodeError (list Z) :=
  match a with
  | Ip (V4 ip) => Ok (write_u32 ip (write_u8 1 w))
  | Ip (V6 ip) => Ok (write_u128 ip (write_u8 4 w))
  | Hostname h =>
      _ ← debug_assert (length h <? 256)%nat;
      let hlen := wrap u8_max (Z.of_nat (length h)) in
      Ok (write_all h (write_u8 hlen (write_u8 3 w)))
  end.

(** ** The proxy (handshake/proxy.rs) *)

Inductive ProxyState : Type := PInitial | PSocks5Username | PSocks5Wait | PDone | PFailed.

#[export] Instance ProxyState_eq_dec : EqDecision ProxyState.
Proof. solve_decision. Defined.

Record SocksProxyHandshake : Type := mkProxy {
  px_state : ProxyState;
  px_socks5_auth : option SocksAuth;
  px_handshake : option SocksRequest;
}.

Module Proxy.
Definition PST : Type → Type := ST (SocksProxyHandshake * Reader) SocksError.

Definition new : SocksProxyHandshake := mkProxy PInitial None None.

Definition set_state (st : ProxyState) (h : SocksProxyHandshake) : SocksProxyHandshake :=
  mkProxy st (px_socks5_auth h) (px_handshake h).
Definition set_auth (a : option SocksAuth) (h : SocksProxyHandshake) : SocksProxyHandshake :=
  mkProxy (px_state h) a (px_handshake h).
Definition set_handshake (q : option SocksRequest) (h : SocksProxyHandshake) : SocksProxyHandshake :=
  mkProxy (px_state h) (px_socks5_auth h) q.

Definition s4 : PST ImplNextStep :=
  v ← rd take_u8;
  version ← lift (SocksVersion_try_from v);
  if negb (bool_decide (version = SocksV4)) then fail (SocksBug "called s4 on wrong type")
  else
    cmd ← rd take_u8;
    port ← rd take_u16;
    ip ← rd take_u32;
    username ← rd (take_until 0);
    let auth := match username with [] => NoAuth | _ => Socks4 username end in
    addr ←
      (if negb (ip =? 0) && (Z.shiftr ip 8 =? 0) then
         hostname ← rd (take_until 0);
         if negb (utf8_valid hostname) then fail Syntax
         else
           hostname ← lift (map_err (λ _, Decode (InvalidMessage "hostname too long"))
                              (SocksHostname_try_from hostname));
           mret (Hostname hostname)
       else mret (Ip (V4 ip)));
    request ← lift (SocksRequest_new version cmd addr port auth);
    _ ← set_self (set_state PDone);
    _ ← set_self (set_handshake (Some request));
    mret Finished.

Definition s5_initial : PST ImplNextStep :=
  v ← rd take_u8;
  version ← lift (SocksVersion_try_from v);
  if negb (bool_decide (version = SocksV5)) then fail (SocksBug "called on wrong handshake type")
  else
    nmethods ← rd take_u8;
    methods ← rd (rd_take (Z.to_nat nmethods));
    '(next, reply) ←
      (if bool_decide (USERNAME_PASSWORD ∈ methods) then
         mret (PSocks5Username, [5; USERNAME_PASSWORD])
       else if bool_decide (NO_AUTHENTICATION ∈ methods) then
         _ ← set_self (set_auth (Some NoAuth));
         mret (PSocks5Wait, [5; NO_AUTHENTICATION])
       else fail (NotImplemented "authentication methods"));
    _ ← set_self (set_state next);
    mret (Reply reply).

Definition s5_uname : PST ImplNextStep :=
  ver ← rd take_u8;
  if negb (ver =? 1) then fail (NotImplemented "username/password version")
  else
    ulen ← rd take_u8;
    username ← rd (rd_take (Z.to_nat ulen));
    plen ← rd take_u8;
    passwd ← rd (rd_take (Z.to_nat plen));
    _ ← set_self (set_auth (Some (Username username passwd)));
    _ ← set_self (set_state PSocks5Wait);
    mret (Reply [1; 0]).

Definition s5 : PST ImplNextStep :=
  v ← rd take_u8;
  version ← lift (SocksVersion_try_from v);
  if negb (bool_decide (version = SocksV5)) then fail (SocksBug "called s5 on non socks5 handshake")
  else
    cmd ← rd take_u8;
    _ ← rd take_u8;
    addr ← rd (extract SocksAddr_take_from);
    port ← rd take_u16;
    auth ← get_self px_socks5_auth;
    _ ← set_self (set_auth None);
    auth ← lift (ok_or auth (SocksBug "called s5 without negotiating auth"));
    request ← lift (SocksRequest_new version cmd addr port auth);
    _ ← set_self (set_state PDone);
    _ ← set_self (set_handshake (Some request));
    mret Finished.

(** The reader is left where it was. *)
Definition rd_peek (n : nat) : RD (list Z) := λ r, (r, peek n r).

Definition proxy_handshake_impl : PST ImplNextStep :=
  state ← get_self px_state;
  first ← rd (rd_peek 1);
  v ← lift (expect (first !! 0%nat));
  match state with
  | PInitial =>
      if v =? 4 then s4 else if v =? 5 then s5_initial else fail (BadProtocol v)
  | PSocks5Username => if v =? 1 then s5_uname else fail Syntax
  | PSocks5Wait => if v =? 5 then s5 else fail Syntax
  | PDone => fail (AlreadyFinished "called handshake() after handshaking was done")
  | PFailed => fail (AlreadyFinished "called handshake() after handshaking failed")
  end.

Definition finished (h : SocksProxyHandshake) : bool := bool_decide (px_state h = PDone).
Definition into_request (h : SocksProxyHandshake) : option SocksRequest := px_handshake h.

#[global] Instance proxy_handshake : Handshake SocksProxyHandshake SocksRequest := {|
  set_failed := set_state PFailed;
  take_output h := (set_handshake None h, px_handshake h);
  handshake_impl := proxy_handshake_impl;
|}.

Definition reply_s4 (q : SocksRequest) (status : Z) (addr : option SocksAddr) :
    res EncodeError (list Z) :=
  let w := write_u8 (SocksStatus.into_socks4_status status) (write_u8 0 []) in
  match addr with
  | Some (Ip (V4 ip)) => Ok (write_u32 ip (write_u16 (sq_port q) w))
  | _ => Ok (write_u32 0 (write_u16 0 w))
  end.

Definition reply_s5 (q : SocksRequest) (status : Z) (addr : option SocksAddr) :
    res EncodeError (list Z) :=
  let w := write_u8 0 (write_u8 status (write_u8 5 [])) in
  match addr with
  | Some a => w ← SocksAddr_write_onto a w; Ok (write_u16 (sq_port q) w)
  | None => w ← SocksAddr_write_onto (Ip (V4 0)) w; Ok (write_u16 0 w)
  end.

Definition reply (q : SocksRequest) (status : Z) (addr : option SocksAddr) :
    res EncodeError (list Z) :=
  match sq_version q with
  | SocksV4 => reply_s4 q status addr
  | SocksV5 => reply_s5 q status addr
  end.
End Proxy.

(** ** The client (handshake/client.rs) *)

Inductive ClientState : Type :=
| CInitial | CSocks4Wait | CSocks5AuthWait | CSocks5UsernameWait | CSocks5Wait | CDone | CFailed.

#[export] Instance ClientState_eq_dec : EqDecision ClientState.
Proof. solve_decision. Defined.

Record SocksClientHandshake : Type := mkClient {
  cl_request : SocksRequest;
  cl_state : ClientState;
  cl_reply : option SocksReply;
}.

Module Client.
Definition CST : Type → Type := ST (SocksClientHandshake * Reader) SocksError.

Definition new (request : SocksRequest) : SocksClientHandshake := mkClient request CInitial None.
Definition into_reply (h : SocksClientHandshake) : option SocksReply := cl_reply h.

Definition set_state (st : ClientState) (h : SocksClientHandshake) : SocksClientHandshake :=
  mkClient (cl_request h) st (cl_reply h).
Definition set_reply (r : option SocksReply) (h : SocksClientHandshake) : SocksClientHandshake :=
  mkClient (cl_request h) (cl_state h) r.

(** The message of [send_v4]. *)
Definition v4_message (q : SocksRequest) : res SocksError (list Z) :=
  let msg := write_u16 (sq_port q) (write_u8 (sq_cmd q) (write_u8 4 [])) in
  let '(msg, use_v4a) :=
    match sq_addr q with
    | Ip (V4 ipv4) => (write_u32 ipv4 msg, false)
    | _ => (write_u32 1 msg, true)
    end in
  msg ← match sq_auth q with
        | NoAuth => Ok (write_u8 0 msg)
        | Socks4 s => Ok (write_u8 0 (write_all s msg))
        | Username _ _ => Err (SocksBug "tried to send socks5 auth over socks4.")
        end;
  Ok (if (use_v4a : bool)
      then write_u8 0 (write_all (SocksAddr_to_string (sq_addr q)) msg) else msg).

Definition send_v4 : CST ImplNextStep :=
  q ← get_self cl_request;
  msg ← lift (v4_message q);
  _ ← set_self (set_state CSocks4Wait);
  mret (Reply msg).

Definition handle_v4 : CST ImplNextStep :=
  ver ← rd take_u8;
  if negb (ver =? 0) then fail Syntax
  else
    status ← rd take_u8;
    port ← rd take_u16;
    ip ← rd (extract take_ipv4);
    _ ← set_self (set_state CDone);
    _ ← set_self (set_reply (Some (mkSocksReply (SocksStatus.from_socks4_status status)
                                     (Ip (V4 ip)) port)));
    mret Finished.

(** The message of [send_v5_initial]. *)
Definition v5_methods (q : SocksRequest) : res SocksError (list Z) :=
  let msg := write_u8 5 [] in
  match sq_auth q with
  | NoAuth => Ok (write_u8 NO_AUTHENTICATION (write_u8 1 msg))
  | Socks4 _ => Err (SocksBug "Mismatched authentication type")
  | Username _ _ => Ok (write_u8 NO_AUTHENTICATION (write_u8 USERNAME_PASSWORD (write_u8 2 msg)))
  end.

Definition send_v5_initial : CST ImplNextStep :=
  q ← get_self cl_request;
  msg ← lift (v5_methods q);
  _ ← set_self (set_state CSocks5AuthWait);
  mret (Reply msg).

Definition generate_v5_username_auth (q : SocksRequest) : res SocksError (list Z) :=
  match sq_auth q with
  | Username username pass =>
      let msg := write_u8 1 [] in
      msg ← map_err (λ _, SocksBug "id too long") (nested_finish 1 username msg);
      msg ← map_err (λ _, SocksBug "password too long") (nested_finish 1 pass msg);
      Ok msg
  | _ => Err Syntax
  end.

Definition generate_v5_command (q : SocksRequest) : res SocksError (list Z) :=
  let msg := write_u8 0 (write_u8 (sq_cmd q) (write_u8 5 [])) in
  msg ← map_err (λ _, SocksBug "Can't encode address") (SocksAddr_write_onto (sq_addr q) msg);
  Ok (write_u16 (sq_port q) msg).

Definition handle_v5_auth : CST ImplNextStep :=
  ver ← rd take_u8;
  if negb (ver =? 5) then fail Syntax
  else
    auth ← rd take_u8;
    q ← get_self cl_request;
    '(msg, next_state) ←
      (if auth =? USERNAME_PASSWORD then
         msg ← lift (generate_v5_username_auth q); mret (msg, CSocks5UsernameWait)
       else if auth =? NO_AUTHENTICATION then
         msg ← lift (generate_v5_command q); mret (msg, CSocks5Wait)
       else fail (NotImplemented "authentication type"));
    _ ← set_self (set_state next_state);
    mret (Reply msg).

Definition handle_v5_username_ack : CST ImplNextStep :=
  ver ← rd take_u8;
  if negb (ver =? 1) then fail Syntax
  else
    result ← rd take_u8;
    if negb (result =? 0) then fail AuthRejected
    else
      _ ← set_self (set_state CSocks5Wait);
      q ← get_self cl_request;
      msg ← lift (generate_v5_command q);
      mret (Reply msg).

Definition handle_v5_final : CST ImplNextStep :=
  ver ← rd take_u8;
  if negb (ver =? 5) then fail Syntax
  else
    status ← rd take_u8;
    _ ← rd take_u8;
    addr ← rd (extract SocksAddr_take_from);
    port ← rd take_u16;
    _ ← set_self (set_state CDone);
    _ ← set_self (set_reply (Some (mkSocksReply status addr port)));
    mret Finished.

Definition client_handshake_impl : CST ImplNextStep :=
  state ← get_self cl_state;
  match state with
  | CInitial =>
      version ← get_self (λ h, sq_version (cl_request h));
      match version with SocksV4 => send_v4 | SocksV5 => send_v5_initial end
  | CSocks4Wait => handle_v4
  | CSocks5AuthWait => handle_v5_auth
  | CSocks5UsernameWait => handle_v5_username_ack
  | CSocks5Wait => handle_v5_final
  | CDone => fail (AlreadyFinished "called handshake() after handshaking succeeded")
  | CFailed => fail (AlreadyFinished "called handshake() after handshaking failed")
  end.

#[global] Instance client_handshake : Handshake SocksClientHandshake SocksReply := {|
  set_failed := set_state CFailed;
  take_output h := (set_reply None h, cl_reply h);
  handshake_impl := client_handshake_impl;
|}.
End Client.
