(* ===== verification/SocksFrame.v ===== *)
(** * SocksFrame: what the SOCKS framework relies on, and what it promises

    [Framed m]: a step [m] of a handshake decides from the bytes it consumes alone, asks for a
    number of bytes that it really needs, and has no effect when it asks.  The two handshakes of
    file [Socks] are framed.  From that alone follow, for both of them: a message cut anywhere
    is asked for until it is complete, bytes after it stay in the buffer, and a caller that
    reads no more than it is asked to never reads past the handshake. *)

From S2P Require Import Prelude Text Bytes Codec RelayMsg StateM Socks.

(** ** Reader methods whose success depends on the consumed bytes only *)

Class Local {A} (f : RD A) : Prop :=
  local b off off' v : (off ≤ length b)%nat →
    f (reader_at b off) = (reader_at b off', Ok v) →
    ∀ b', (off' ≤ length b')%nat → take off' b' = take off' b →
      f (reader_at b' off) = (reader_at b' off', Ok v).

#[export] Instance local_ret {A} (v : A) : Local (mret v : RD A).
Proof. by intros b off off' w _ [= -> ->] b' _ _. Qed.

#[export] Instance local_fail {A} e : Local (rd_fail (A:=A) e).
Proof. done. Qed.

#[export] Instance local_lift {A} (x : res BytesError A) : Local (rd_lift x).
Proof. by intros b off off' w _ [= -> ->] b' _ _. Qed.

Lemma take_drop_sub {A} (n off : nat) (b b' : list A) :
  take (off + n) b' = take (off + n) b → take n (drop off b') = take n (drop off b).
Proof. intros Ht. rewrite !take_drop_commute. by rewrite Ht. Qed.

#[export] Instance local_take n : Local (rd_take n).
Proof.
  intros b off off' v Hoff. destruct (decide (n ≤ length b - off)%nat) as [Hn|Hn].
  - rewrite rd_take_ok by (unfold remaining, reader_at; simpl; lia).
    unfold set_off, reader_at. simpl. intros [= <- <-] b' Hb' Ht.
    rewrite rd_take_ok by (unfold remaining; simpl; lia).
    unfold set_off. simpl. by rewrite (take_drop_sub n off b b').
  - by rewrite rd_take_err by (unfold remaining, reader_at; simpl; lia).
Qed.

(** A stable reader that succeeds stays within the slice. *)
Lemma stable_ok {A} (f : RD A) `{!PrefixStable f} b off r' v :
  (off ≤ length b)%nat → f (reader_at b off) = (r', Ok v) →
  ∃ off', r' = reader_at b off' ∧ (off ≤ off' ≤ length b)%nat.
Proof.
  intros Hoff Hf. pose proof (prefix_stable (f:=f) b [] off Hoff) as Hs.
  unfold stable_outcome in Hs. rewrite Hf in Hs. destruct Hs as (off' & ? & ? & _). eauto.
Qed.

Lemma take_le_eq {A} (n m : nat) (b b' : list A) :
  (n ≤ m)%nat → take m b' = take m b → take n b' = take n b.
Proof.
  intros Hn Ht. assert (∀ l : list A, take n l = take n (take m l)) as Hc
    by (intros l; rewrite take_take, Nat.min_l; [done|lia]).
  rewrite (Hc b'), (Hc b). by rewrite Ht.
Qed.

#[export] Instance local_bind {A B} (f : RD A) (g : A → RD B) :
  PrefixStable f → Local f → (∀ v, PrefixStable (g v)) → (∀ v, Local (g v)) → Local (f ≫= g).
Proof.
  intros Sf Lf Sg Lg b off off' v Hoff. unfold mbind, RD_mbind.
  destruct (f (reader_at b off)) as [r1 [a|e|]] eqn:Ef; [|done..]. intros Eg b' Hb' Ht.
  destruct (stable_ok f b off r1 a Hoff Ef) as (o1 & -> & Ho1).
  destruct (stable_ok (g a) b o1 _ v ltac:(lia) Eg) as (o2 & Heq & Ho2).
  injection Heq as ->.
  rewrite (Lf b off o1 a Hoff Ef b' ltac:(lia)) by (eapply take_le_eq; [|done]; lia).
  apply (Lg a b o1 o2 v ltac:(lia) Eg b' Hb' Ht).
Qed.

#[export] Instance local_extract {A} (f : RD A) : Local f → Local (extract f).
Proof.
  intros Lf b off off' v Hoff. unfold extract.
  destruct (f (reader_at b off)) as [r1 [a|e|]] eqn:Ef; [|done..].
  intros [= -> ->] b' Hb' Ht. by rewrite (Lf b off off' v Hoff Ef b' Hb' Ht).
Qed.

#[export] Instance local_advance n : Local (advance n).
Proof.
  intros b off off' v Hoff. rewrite advance_take.
  destruct (rd_take n (reader_at b off)) as [r1 [a|e|]] eqn:Ef; simpl; [|done..].
  intros [= -> <-] b' Hb' Ht. rewrite advance_take.
  by rewrite (local_take n b off off' a Hoff Ef b' Hb' Ht).
Qed.

#[export] Instance local_u8 : Local take_u8.
Proof. unfold take_u8. apply _. Qed.
#[export] Instance local_u16 : Local take_u16.
Proof. unfold take_u16, take_array. apply _. Qed.
#[export] Instance local_u32 : Local take_u32.
Proof. unfold take_u32, take_array. apply _. Qed.
#[export] Instance local_u128 : Local take_u128.
Proof. unfold take_u128, take_array. apply _. Qed.

Lemma position_take term (l k : list Z) p :
  position term l = Some p → take (S p) k = take (S p) l → position term k = Some p.
Proof.
  revert k p. induction l as [|x l IH]; intros k p; [done|]. cbn [position].
  destruct k as [|y k]; [done|]. cbn [take].
  case_match eqn:Hx.
  - intros [= <-] [= ->]. cbn [position]. by rewrite Hx.
  - destruct (position term l) as [q|] eqn:Hq; [|done]. intros [= <-] Ht.
    injection Ht as -> Ht. cbn [position]. rewrite Hx. by rewrite (IH k q).
Qed.

#[export] Instance local_until term : Local (take_until term).
Proof.
  intros b off off' v Hoff. unfold take_until. simpl.
  destruct (position term (drop off b)) as [p|] eqn:Hp; [|done]. intros Heq b' Hb' Ht.
  assert (off' = off + p + 1)%nat as ->.
  { apply position_lt in Hp as Hl. rewrite length_drop in Hl.
    unfold mbind, RD_mbind in Heq.
    rewrite rd_take_ok in Heq by (unfold remaining, reader_at; simpl; lia).
    rewrite advance_take, rd_take_ok in Heq by (unfold remaining, set_off, reader_at; simpl; lia).
    unfold set_off, reader_at in Heq. simpl in Heq. by injection Heq as <- _. }
  rewrite (position_take term (drop off b) (drop off b') p Hp)
    by (apply take_drop_sub; replace (off + S p)%nat with (off + p + 1)%nat by lia; done).
  by eapply (local_bind (rd_take p) (λ result, _ ← advance 1; mret result) _ _ _ _ b off).
Qed.

(** ** Framed steps *)

Definition framed_at {H A} (m : ST (H * Reader) SocksError A) (h : H) (b : list Z) (off : nat) : Prop :=
  match m (h, reader_at b off) with
  | ((h', r'), Ok v) => ∃ off', r' = reader_at b off' ∧ (off ≤ off' ≤ length b)%nat ∧
      ∀ b', (off' ≤ length b')%nat → take off' b' = take off' b →
        m (h, reader_at b' off) = ((h', reader_at b' off'), Ok v)
  | ((h', _), Err (Decode (Incomplete d))) => h' = h ∧ (0 < d)%nat ∧
      ∀ ext, (length ext < d)%nat → ∃ r' d',
        m (h, reader_at (b ++ ext) off) = ((h, r'), Err (Decode (Incomplete d')))
        ∧ (d ≤ length ext + d')%nat
  | ((h', _), Err e) => ∀ ext, ∃ r', m (h, reader_at (b ++ ext) off) = ((h', r'), Err e)
  | ((h', _), Panic) => ∀ ext, ∃ r', m (h, reader_at (b ++ ext) off) = ((h', r'), Panic)
  end.

Class Framed {H A} (m : ST (H * Reader) SocksError A) : Prop :=
  framed h b off : (off ≤ length b)%nat → framed_at m h b off.

(** A step that reads and leaves the handshake alone. *)
Class Parser {H A} (m : ST (H * Reader) SocksError A) : Prop := {
  parser_framed :: Framed m;
  parser_self s : (m s).1.1 = s.1;
}.

(** A result that does not ask for bytes. *)
Class Definite {A} (x : res SocksError A) : Prop := definite d : x ≠ Err (Decode (Incomplete d)).

(** A step that does not read. *)
Class Commit {H A} (m : ST (H * Reader) SocksError A) : Prop :=
  commit h : ∃ h' x, Definite x ∧ ∀ r, m (h, r) = ((h', r), x).

#[export] Instance definite_ok {A} (a : A) : Definite (Ok a).
Proof. done. Qed.
#[export] Instance definite_bind {A B} (x : res SocksError A) (f : A → res SocksError B) :
  Definite x → (∀ a, Definite (f a)) → Definite (x ≫= f).
Proof. intros Hx Hf d. destruct x; simpl; [apply Hf|by intros [= ->]; eapply Hx|done]. Qed.
#[export] Instance definite_expect {A} (o : option A) : Definite (expect o).
Proof. by destruct o. Qed.
Lemma definite_map_err {E A} (f : E → SocksError) (x : res E A) :
  (∀ e d, f e ≠ Decode (Incomplete d)) → Definite (map_err f x).
Proof. intros Hf d. destruct x; simpl; [done|by intros [= ?%Hf]|done]. Qed.
#[export] Hint Extern 2 (Definite (map_err _ _)) => (by apply definite_map_err) : typeclass_instances.
#[export] Instance definite_ok_or {A} (o : option A) msg : Definite (ok_or o (SocksBug msg)).
Proof. by destruct o. Qed.
#[export] Instance definite_version v : Definite (SocksVersion_try_from v).
Proof. intros d. unfold SocksVersion_try_from. by repeat case_match. Qed.
#[export] Instance definite_request v c a p u : Definite (SocksRequest_new v c a p u).
Proof.
  unfold SocksRequest_new. intros d. repeat (case_match; [done|]).
  destruct (SocksAuth_validate u v) as [[]|e|] eqn:Hv; simpl; [done| |done].
  unfold SocksAuth_validate in Hv. repeat case_match; simplify_eq; done.
Qed.

Section framed_steps.
Context {H : Type}.
Notation HS := (ST (H * Reader) SocksError).

Lemma parser_rd {A} (f : RD A) : PrefixStable f → Local f → Parser (rd (H:=H) f).
Proof.
  intros Sf Lf. split.
  - intros h b off Hoff. unfold framed_at, rd. cbn [fst snd].
    pose proof (λ ext, Sf b ext off Hoff) as Hs. unfold stable_outcome in Hs.
    destruct (f (reader_at b off)) as [r1 [v|e|]] eqn:Ef; cbn [map_err].
    + destruct (Hs []) as (off' & -> & Ho & _). exists off'. split_and!; [done|lia|lia|].
      intros b' Hb' Ht. by rewrite (Lf b off off' v Hoff Ef b' Hb' Ht).
    + destruct e; try (intros ext; destruct (Hs ext) as [r' ->]; by eexists).
      split; [done|]. split; [apply (Hs [])|]. intros ext Hext.
      destruct (proj2 (Hs ext) Hext) as (r' & d' & -> & ?). by eexists _, _.
    + intros ext. destruct (Hs ext) as [r' ->]. by eexists.
  - intros [h r]. unfold rd. simpl. by destruct (f r).
Qed.

Lemma commit_framed {A} (m : HS A) : Commit m → Framed m.
Proof.
  intros Hm h b off Hoff. destruct (Hm h) as (h' & x & Hx & Hr). unfold framed_at. rewrite Hr.
  destruct x as [v|e|].
  - exists off. split_and!; [done|lia|lia|]. intros. by rewrite Hr.
  - assert (∀ ext, ∃ r', m (h, reader_at (b ++ ext) off) = ((h', r'), Err e))
      by (intros ext; rewrite Hr; by eexists).
    destruct e as [|e| | | | | | | |]; try done. destruct e; try done. by destruct (Hx deficit).
  - intros ext. rewrite Hr. by eexists.
Qed.

Lemma framed_bind {A B} (m : HS A) (k : A → HS B) :
  Parser m → (∀ v, Framed (k v)) → Framed (m ≫= k).
Proof.
  intros [Fm Hself] Fk h b off Hoff. specialize (Fm h b off Hoff).
  unfold framed_at, mbind, ST_mbind in *. specialize (Hself (h, reader_at b off)).
  destruct (m (h, reader_at b off)) as [[h1 r1] [v|e|]]; cbn [fst snd] in *; subst h1.
  - destruct Fm as (o1 & -> & Ho1 & Hloc). specialize (Fk v h b o1 ltac:(lia)).
    unfold framed_at in Fk. pose proof (λ ext, Hloc (b ++ ext)) as Hext.
    assert (∀ ext, m (h, reader_at (b ++ ext) off) = (h, reader_at (b ++ ext) o1, Ok v)) as Hm.
    { intros ext. apply Hext; [rewrite length_app; lia|]. by rewrite take_app_le by lia. }
    destruct (k v (h, reader_at b o1)) as [[h2 r2] [w|e|]].
    + destruct Fk as (o2 & -> & Ho2 & Hloc2). exists o2. split_and!; [done|lia|lia|].
      intros b' Hb' Ht. rewrite Hloc; [by apply Hloc2|lia|]. eapply take_le_eq; [|done]. lia.
    + destruct e as [|e| | | | | | | |]; try (intros ext; rewrite Hm; apply Fk).
      destruct e; try (intros ext; rewrite Hm; apply Fk).
      destruct Fk as (-> & Hd & Fk). split_and!; [done..|]. intros ext Hx. rewrite Hm. by apply Fk.
    + intros ext. rewrite Hm. apply Fk.
  - destruct e as [|e| | | | | | | |]; try (intros ext; destruct (Fm ext) as [r' ->]; by eexists).
    destruct e; try (intros ext; destruct (Fm ext) as [r' ->]; by eexists).
    destruct Fm as (_ & Hd & Fm). split_and!; [done..|]. intros ext Hx.
    destruct (Fm ext Hx) as (r' & d' & -> & ?). by eexists _, _.
  - intros ext. destruct (Fm ext) as [r' ->]. by eexists.
Qed.

Lemma parser_bind {A B} (m : HS A) (k : A → HS B) :
  Parser m → (∀ v, Parser (k v)) → Parser (m ≫= k).
Proof.
  intros Pm Pk. split; [apply framed_bind; [done|apply _]|]. intros s.
  unfold mbind, ST_mbind. pose proof (parser_self (m:=m) s) as Hs.
  destruct (m s) as [s1 [v|e|]]; simpl in *; [|done..]. rewrite <-Hs. apply parser_self.
Qed.

Lemma commit_lift {A} (x : res SocksError A) : Definite x → Commit (H:=H) (lift x).
Proof. intros Hx h. by exists h, x. Qed.
Lemma commit_ret {A} (a : A) : Commit (mret a : HS A).
Proof. intros h. by exists h, (Ok a). Qed.
Lemma commit_get {A} (f : H → A) : Commit (get_self f).
Proof. intros h. by exists h, (Ok (f h)). Qed.
Lemma commit_set (f : H → H) : Commit (set_self f).
Proof. intros h. by exists (f h), (Ok tt). Qed.
Lemma commit_bind {A B} (m : HS A) (k : A → HS B) :
  Commit m → (∀ v, Commit (k v)) → Commit (m ≫= k).
Proof.
  intros Hm Hk h. destruct (Hm h) as (h1 & [v|e|] & Hx & Hr).
  - destruct (Hk v h1) as (h2 & y & Hy & Hr2). exists h2, y. split; [done|].
    intros r. unfold mbind, ST_mbind. by rewrite Hr.
  - exists h1, (Err e). split; [intros d [= ->]; by destruct (Hx d)|].
    intros r. unfold mbind, ST_mbind. by rewrite Hr.
  - exists h1, Panic. split; [done|]. intros r. unfold mbind, ST_mbind. by rewrite Hr.
Qed.

Lemma parser_lift {A} (x : res SocksError A) : Definite x → Parser (H:=H) (lift x).
Proof. intros Hx. split; [by apply commit_framed, commit_lift|done]. Qed.
Lemma parser_ret {A} (a : A) : Parser (mret a : HS A).
Proof. split; [apply commit_framed, commit_ret|done]. Qed.
Lemma parser_get {A} (f : H → A) : Parser (get_self f).
Proof. split; [apply commit_framed, commit_get|done]. Qed.
End framed_steps.

(** Takes a step apart: what reads first, then what does not read. *)
Ltac framed_tac :=
  repeat first
    [ done
    | progress cbv zeta
    | match goal with
      | |- Parser (rd _) => apply parser_rd; apply _
      | |- Parser (lift _) => apply parser_lift; apply _
      | |- Parser (fail _) => by apply parser_lift
      | |- Parser (mret _) => apply parser_ret
      | |- Parser (get_self _) => apply parser_get
      | |- Parser (_ ≫= _) => apply parser_bind; [|intros ?]
      | |- Parser _ => case_match
      | |- Commit (lift _) => apply commit_lift; apply _
      | |- Commit (fail _) => by apply commit_lift
      | |- Commit (mret _) => apply commit_ret
      | |- Commit (get_self _) => apply commit_get
      | |- Commit (set_self _) => apply commit_set
      | |- Commit (_ ≫= _) => apply commit_bind; [|intros ?]
      | |- Commit _ => case_match
      | |- Framed (_ ≫= _) =>
          first [ apply commit_framed; solve [framed_tac] | apply framed_bind; [|intros ?] ]
      | |- Framed (match ?x with _ => _ end) => destruct x
      | |- Framed _ => apply commit_framed
      end ].

(** A step that looks at the next byte is framed when it goes on to consume it. *)
Class Eats {H A} (m : ST (H * Reader) SocksError A) : Prop :=
  eats h b off h' off' v : (off ≤ length b)%nat →
    m (h, reader_at b off) = ((h', reader_at b off'), Ok v) → (off < off')%nat.

Lemma eats_take_u8 {H A} (k : Z → ST (H * Reader) SocksError A) :
  (∀ v, Framed (k v)) → Eats (rd take_u8 ≫= k).
Proof.
  intros Fk h b off h' off' v Hoff Heq. apply st_bind_ok in Heq as ([h1 r1] & x & Hrd & Hk).
  unfold rd in Hrd. cbn [fst snd] in Hrd.
  destruct (take_u8 (reader_at b off)) as [r [y|e|]] eqn:Ht; simplify_eq/=.
  apply progress_off in Ht as Hp; [|done]. simpl in Hp.
  destruct (stable_ok take_u8 b off _ _ Hoff Ht) as (o1 & -> & Ho1). simpl in Hp.
  pose proof (Fk x h1 b o1 ltac:(lia)) as F. unfold framed_at in F. rewrite Hk in F.
  destruct F as (o2 & [= ->] & ? & _). lia.
Qed.

Lemma eats_lift {H A B} (x : res SocksError A) (k : A → ST (H * Reader) SocksError B) :
  (∀ v, Eats (k v)) → Eats (lift x ≫= k).
Proof. intros Ek. destruct x as [v|e|]; [apply Ek|done..]. Qed.

Lemma peek_app b ext off :
  (off < length b)%nat →
  peek 1 (reader_at (b ++ ext) off) = peek 1 (reader_at b off).
Proof.
  intros Hoff. unfold peek, remaining, reader_at. cbn [rd_b rd_off].
  rewrite length_app, !(proj2 (Nat.ltb_ge _ _)) by lia. f_equal.
  rewrite drop_app_le by lia. rewrite take_app_le; [done|]. rewrite length_drop. lia.
Qed.

Lemma peek_local b b' off off' :
  (off < off')%nat → (off' ≤ length b)%nat → (off' ≤ length b')%nat →
  take off' b' = take off' b → peek 1 (reader_at b' off) = peek 1 (reader_at b off).
Proof.
  intros Hlt Hb Hb' Ht. unfold peek, remaining, reader_at. cbn [rd_b rd_off].
  rewrite !(proj2 (Nat.ltb_ge _ _)) by lia. f_equal. apply take_drop_sub.
  eapply take_le_eq; [|done]. lia.
Qed.

Lemma framed_peek {H A} (k : list Z → ST (H * Reader) SocksError A) :
  (∀ x, Framed (k [x])) → (∀ x, Eats (k [x])) → Framed (rd (Proxy.rd_peek 1) ≫= k).
Proof.
  intros Fk Ek h b off Hoff. unfold framed_at, mbind, ST_mbind, rd, Proxy.rd_peek. cbn [fst snd].
  destruct (decide (off < length b)%nat) as [Hlt|Hge].
  - pose proof (λ ext, peek_app b ext off Hlt) as Hext.
    pose proof (λ b' off', peek_local b b' off off') as Hloc.
    assert (∃ x, peek 1 (reader_at b off) = Ok [x]) as [x Hx].
    { unfold peek, remaining, reader_at. cbn [rd_b rd_off].
      rewrite (proj2 (Nat.ltb_ge _ _)) by lia.
      destruct (drop off b) as [|x l] eqn:Hd; [|by exists x].
      apply (f_equal length) in Hd. rewrite length_drop in Hd. simpl in Hd. lia. }
    rewrite Hx in *. cbn [map_err]. specialize (Fk x h b off Hoff). unfold framed_at in Fk.
    pose proof (Ek x h b off) as Hk.
    destruct (k [x] (h, reader_at b off)) as [[h2 r2] [w|e|]].
    + destruct Fk as (o2 & -> & Ho2 & Hloc2). specialize (Hk h2 o2 w Hoff eq_refl).
      exists o2. split_and!; [done|lia|lia|].
      intros b' Hb' Ht. rewrite (Hloc b' o2) by (done || lia). by apply Hloc2.
    + destruct e as [|e| | | | | | | |]; try (intros ext; rewrite Hext; apply Fk).
      destruct e; try (intros ext; rewrite Hext; apply Fk).
      destruct Fk as (-> & Hd & Fk). split_and!; [done..|]. intros ext Hx'. rewrite Hext. by apply Fk.
    + intros ext. rewrite Hext. apply Fk.
  - unfold peek at 1, remaining, reader_at at 1 2. cbn [rd_b rd_off].
    rewrite (proj2 (Nat.ltb_lt _ _)) by lia. unfold incomplete_error. simpl. split_and!; [done|lia|].
    intros ext Hx. assert (ext = []) as -> by (destruct ext; [done|simpl in Hx; lia]).
    rewrite app_nil_r. unfold peek, remaining, reader_at. cbn [rd_b rd_off].
    rewrite (proj2 (Nat.ltb_lt _ _)) by lia. unfold incomplete_error. simpl.
    eexists _, _. split; [done|]. lia.
Qed.

(** ** The two handshakes are framed *)

#[export] Instance stable_fail_map {A} (x : res SocksError A) msg :
  PrefixStable (rd_lift (map_err (λ _, InvalidMessage msg) x)).
Proof. intros b ext off Hoff. unfold stable_outcome, rd_lift. destruct x; simpl; eauto. Qed.

#[export] Instance stable_addr : PrefixStable SocksAddr_take_from.
Proof.
  unfold SocksAddr_take_from. apply stable_bind; [apply _|intros atype].
  unfold take_ipv4, take_ipv6. repeat case_match; try apply _.
  apply stable_bind; [apply _|intros]. apply stable_bind; [apply _|intros].
  case_match; apply _.
Qed.

#[export] Instance local_addr : Local SocksAddr_take_from.
Proof.
  assert (∀ c (hostname : list Z),
    PrefixStable (if (c : bool) then rd_fail (InvalidMessage "bad utf8 on hostname") else
      x ← rd_lift (map_err (λ _, InvalidMessage "hostname too long")
            (SocksHostname_try_from hostname)); mret (Hostname x))) by (intros []; apply _).
  assert (∀ c (hostname : list Z),
    Local (if (c : bool) then rd_fail (InvalidMessage "bad utf8 on hostname") else
      x ← rd_lift (map_err (λ _, InvalidMessage "hostname too long")
            (SocksHostname_try_from hostname)); mret (Hostname x))) by (intros []; apply _).
  unfold SocksAddr_take_from, take_ipv4, take_ipv6.
  apply local_bind; [apply _..| |]; intros atype; repeat case_match; apply _.
Qed.

#[export] Instance framed_s4 : Framed Proxy.s4.
Proof. unfold Proxy.s4. framed_tac. Qed.
#[export] Instance framed_s5_initial : Framed Proxy.s5_initial.
Proof. unfold Proxy.s5_initial. framed_tac. Qed.
#[export] Instance framed_s5_uname : Framed Proxy.s5_uname.
Proof. unfold Proxy.s5_uname. framed_tac. Qed.
#[export] Instance framed_s5 : Framed Proxy.s5.
Proof. unfold Proxy.s5. framed_tac. Qed.

#[export] Instance framed_proxy : Framed Proxy.proxy_handshake_impl.
Proof.
  unfold Proxy.proxy_handshake_impl. apply framed_bind; [apply parser_get|intros state].
  assert (∀ e, Eats (fail (A:=ImplNextStep) (S:=SocksProxyHandshake * Reader) e)) as Hfail by done.
  assert (Eats Proxy.s4) by (apply eats_take_u8; intros; framed_tac).
  assert (Eats Proxy.s5_initial) by (apply eats_take_u8; intros; framed_tac).
  assert (Eats Proxy.s5_uname) by (apply eats_take_u8; intros; framed_tac).
  assert (Eats Proxy.s5) by (apply eats_take_u8; intros; framed_tac).
  apply framed_peek; intros x.
  - apply framed_bind; [by apply parser_lift|intros v].
    destruct state; repeat case_match; try apply _; by apply commit_framed, commit_lift.
  - apply eats_lift. intros v. destruct state; repeat case_match; done.
Qed.

#[export] Instance framed_client : Framed Client.client_handshake_impl.
Proof.
  unfold Client.client_handshake_impl, Client.send_v4, Client.send_v5_initial, Client.handle_v4,
    Client.handle_v5_auth, Client.handle_v5_username_ack, Client.handle_v5_final.
  assert (∀ q, Definite (Client.v4_message q)).
  { intros q. unfold Client.v4_message. destruct (sq_addr q) as [|[]], (sq_auth q); by intros d. }
  assert (∀ q, Definite (Client.v5_methods q)).
  { intros q. unfold Client.v5_methods. by destruct (sq_auth q). }
  assert (∀ q, Definite (Client.generate_v5_username_auth q)).
  { intros q. unfold Client.generate_v5_username_auth. destruct (sq_auth q); [done..|apply _]. }
  assert (∀ q, Definite (Client.generate_v5_command q)).
  { intros q. unfold Client.generate_v5_command. apply _. }
  framed_tac.
Qed.

(** ** What follows for the driver *)

Definition buffer_ok (b : Buffer) : Prop := (bf_filled b ≤ length (bf_buf b))%nat.

(** The caller writes [data] into the slice it was given. *)
Definition fill (data : list Z) (b : Buffer) : Buffer :=
  mkBuffer (take (bf_filled b) (bf_buf b) ++ data ++ drop (bf_filled b + length data) (bf_buf b))
    (bf_filled b).

Lemma filled_length b : buffer_ok b → length (filled_slice b) = bf_filled b.
Proof. unfold buffer_ok, filled_slice. rewrite length_take. lia. Qed.

Lemma note_received_fill data b b' :
  buffer_ok b → (length data ≤ length (unfilled_slice b))%nat →
  RecvStep_note_received (length data) (fill data b) = Ok b' →
  buffer_ok b' ∧ filled_slice b' = filled_slice b ++ data ∧ length (bf_buf b') = length (bf_buf b).
Proof.
  unfold RecvStep_note_received, Buffer_note_received, buffer_ok, unfilled_slice, fill, filled_slice.
  rewrite length_drop. intros Hb Hd. case_match; [done|].
  case_match; [|done]. intros [= <-]. cbn [bf_buf bf_filled].
  rewrite !length_app, length_take, length_drop. split_and!; [lia| |lia].
  rewrite <-(Nat.min_l (bf_filled b) (length (bf_buf b))) at 1 by lia.
  rewrite <-length_take, (assoc_L app), <-length_app. apply take_app_length.
Qed.

Lemma note_received_ok data b :
  buffer_ok b → data ≠ [] → (length data ≤ length (unfilled_slice b))%nat →
  ∃ b', RecvStep_note_received (length data) (fill data b) = Ok b'.
Proof.
  unfold RecvStep_note_received, Buffer_note_received, buffer_ok, unfilled_slice, fill.
  rewrite length_drop. cbn [bf_filled bf_buf]. intros Hb Hne Hd.
  destruct data as [|x data]; [done|]. simpl length at 1. cbn [Nat.eqb].
  rewrite length_drop, !length_app, length_take, length_drop.
  rewrite (proj2 (Nat.leb_le _ _)) by lia. eauto.
Qed.

Lemma drain_buffer_ok n b :
  buffer_ok b → (n ≤ bf_filled b)%nat →
  ∃ b', drain_buffer n b = Ok b' ∧ buffer_ok b' ∧ filled_slice b' = drop n (filled_slice b)
        ∧ length (bf_buf b') = length (bf_buf b).
Proof.
  unfold drain_buffer, buffer_ok, filled_slice. intros Hb Hn.
  rewrite !(proj2 (Nat.leb_le _ _)) by done. cbn [andb].
  eexists. split; [done|]. cbn [bf_buf bf_filled].
  assert (length (drop n (take (bf_filled b) (bf_buf b))) = bf_filled b - n)%nat as Hl
    by (rewrite length_drop, length_take; lia).
  rewrite length_app, !Hl, length_drop. split_and!; [lia| |lia].
  rewrite <-Hl at 1. by rewrite take_app_length.
Qed.

Section driver.
Context {H O : Type} `{!Handshake H O} `{!Framed (handshake_impl (H:=H) (O:=O))}.
Implicit Types (h : H) (b : Buffer).

(** [m] is a complete message for the handshake in state [h]. *)
Definition accepts h (m : list Z) h' (out : ImplNextStep) : Prop :=
  m ≠ [] ∧ handshake_impl (h, reader_at m 0) = ((h', reader_at m (length m)), Ok out).

Lemma accepts_rest h m h' out rest :
  accepts h m h' out →
  handshake_impl (h, reader_at (m ++ rest) 0) = ((h', reader_at (m ++ rest) (length m)), Ok out).
Proof.
  intros [_ Hm]. pose proof (framed (m:=handshake_impl) h m 0 ltac:(lia)) as F.
  unfold framed_at in F. rewrite Hm in F. destruct F as (o & [= <-] & _ & F).
  apply F; [rewrite length_app; lia|]. by rewrite take_app_length, firstn_all.
Qed.

Lemma accepts_partial h p q h' out :
  accepts h (p ++ q) h' out → q ≠ [] →
  ∃ r d, handshake_impl (h, reader_at p 0) = ((h, r), Err (Decode (Incomplete d)))
         ∧ (0 < d ≤ length q)%nat.
Proof.
  intros [_ Hm] Hq. pose proof (framed (m:=handshake_impl) h p 0 ltac:(lia)) as F.
  unfold framed_at in F.
  assert (0 < length q)%nat by (destruct q; [done|simpl; lia]).
  destruct (handshake_impl (h, reader_at p 0)) as [[h1 r1] [v|e|]].
  - destruct F as (o & -> & Ho & F). exfalso.
    rewrite F in Hm; [|rewrite length_app; lia|by rewrite take_app_le by lia].
    injection Hm as _ Heq _. rewrite length_app in Heq. lia.
  - destruct e as [|e| | | | | | | |]; try (destruct (F q) as [? F']; congruence).
    destruct e; try (destruct (F q) as [? F']; congruence).
    destruct F as (-> & Hd & F). exists r1, deficit. split_and!; [done..|].
    destruct (decide (length q < deficit)%nat) as [Hlt|]; [|lia].
    destruct (F q Hlt) as (? & ? & F' & _). congruence.
  - destruct (F q) as [? F']. congruence.
Qed.

Lemma step_partial h b q h' out :
  buffer_ok b → (length (filled_slice b) + length q ≤ length (bf_buf b))%nat →
  accepts h (filled_slice b ++ q) h' out → q ≠ [] →
  ∃ d, step h b = ((h, b), Ok (Recv d)) ∧ (0 < d ≤ length q)%nat.
Proof.
  intros Hb Hsize Ha Hq. destruct (accepts_partial _ _ _ _ _ Ha Hq) as (r & d & Hi & Hd).
  exists d. split; [|done]. unfold step, call_handshake_impl, from_possibly_incomplete_slice.
  unfold reader_at in Hi. rewrite Hi. rewrite (proj2 (Nat.ltb_ge _ _)); [done|].
  rewrite filled_length in Hsize by done. unfold unfilled_slice. rewrite length_drop. lia.
Qed.

Lemma step_reply h b m rest h' reply :
  buffer_ok b → filled_slice b = m ++ rest → accepts h m h' (Reply reply) →
  ∃ b', step h b = ((h', b'), Ok (Send reply)) ∧ buffer_ok b' ∧ filled_slice b' = rest
        ∧ length (bf_buf b') = length (bf_buf b).
Proof.
  intros Hb Hm Ha. pose proof (accepts_rest _ _ _ _ rest Ha) as Hi.
  destruct (drain_buffer_ok (length m) b Hb) as (b' & Hd & Hb' & Hf & Hl).
  { rewrite <-filled_length, Hm, length_app by done. lia. }
  exists b'. rewrite Hf, Hm, drop_app_length. split_and!; try done.
  unfold step, call_handshake_impl, from_possibly_incomplete_slice. rewrite Hm.
  unfold reader_at in Hi. rewrite Hi. unfold consumed. cbn [rd_off].
  destruct Ha as [Hne _]. destruct m as [|x m]; [done|].
  replace (length (x :: m) =? 0)%nat with false by done.
  destruct reply; by rewrite Hd.
Qed.

Lemma step_finished h b m rest h' h'' o :
  buffer_ok b → filled_slice b = m ++ rest → accepts h m h' Finished →
  take_output h' = (h'', Some o) →
  ∃ b', step h b = ((h'', b'), Ok (HsFinished o)) ∧ buffer_ok b' ∧ filled_slice b' = rest
        ∧ length (bf_buf b') = length (bf_buf b).
Proof.
  intros Hb Hm Ha Ho. pose proof (accepts_rest _ _ _ _ rest Ha) as Hi.
  destruct (drain_buffer_ok (length m) b Hb) as (b' & Hd & Hb' & Hf & Hl).
  { rewrite <-filled_length, Hm, length_app by done. lia. }
  exists b'. rewrite Hf, Hm, drop_app_length. split_and!; try done.
  unfold step, call_handshake_impl, from_possibly_incomplete_slice. rewrite Hm.
  unfold reader_at in Hi. rewrite Hi. unfold consumed. cbn [rd_off]. by rewrite Hd, Ho.
Qed.

(** The caller's loop with a peer that sends anything. *)
Inductive drive (P : ReadPrecision) : H * Buffer → H * Buffer → Prop :=
| drive_send h b h' b' data :
    step h b = ((h', b'), Ok (Send data)) → drive P (h, b) (h', b')
| drive_recv h b h' b1 b' d slice data :
    step h b = ((h', b1), Ok (Recv d)) → RecvStep_buf P b1 d = Ok slice →
    bytes_ok data → (length data ≤ length slice)%nat →
    RecvStep_note_received (length data) (fill data b1) = Ok b' →
    drive P (h, b) (h', b').

(** The buffer holds no more than what was asked for. *)
Definition wanted h (bytes : list Z) : Prop :=
  bytes = [] ∨ ∃ p ext r d, bytes = p ++ ext ∧ (length ext ≤ d)%nat ∧
    handshake_impl (h, reader_at p 0) = ((h, r), Err (Decode (Incomplete d))).

Lemma wanted_exact h bytes h' off out :
  wanted h bytes →
  handshake_impl (h, reader_at bytes 0) = ((h', reader_at bytes off), Ok out) →
  off = length bytes.
Proof.
  intros Hw Hok. pose proof (framed (m:=handshake_impl) h bytes 0 ltac:(lia)) as F.
  unfold framed_at in F. rewrite Hok in F. destruct F as (o & [= <-] & Ho & F).
  destruct Hw as [->|(p & ext & r & d & -> & Hd & Hinc)]; [simpl in *; lia|].
  destruct (decide (off = length (p ++ ext))) as [|Hne]; [done|exfalso].
  rewrite length_app in *.
  pose proof (framed (m:=handshake_impl) h p 0 ltac:(lia)) as Fp. unfold framed_at in Fp.
  rewrite Hinc in Fp. destruct Fp as (_ & Hd0 & Fp).
  assert (∃ ext', (length ext' < d)%nat ∧ (off ≤ length p + length ext')%nat ∧
            take off (p ++ ext') = take off (p ++ ext)) as (e' & Hlt & Hle & Ht).
  { exists (take (length ext - 1) ext). rewrite length_take. split_and!; [lia|lia|].
    destruct (decide (length ext = 0)%nat) as [H0|].
    - by destruct ext.
    - rewrite !take_app. f_equal. rewrite take_take. f_equal. lia. }
  destruct (Fp e' Hlt) as (? & ? & Hb & _).
  rewrite F in Hb; [done|rewrite length_app; lia|done].
Qed.

(** Where the results of [step] come from. *)
Lemma step_inv h b h' b' ns :
  buffer_ok b → step h b = ((h', b'), Ok ns) →
  match ns with
  | Recv d => h' = h ∧ b' = b ∧ (d ≤ length (unfilled_slice b))%nat ∧ ∃ r,
      handshake_impl (h, reader_at (filled_slice b) 0) = ((h, r), Err (Decode (Incomplete d)))
  | _ => ∃ h1 off out,
      handshake_impl (h, reader_at (filled_slice b) 0) =
        ((h1, reader_at (filled_slice b) off), Ok out) ∧
      buffer_ok b' ∧ filled_slice b' = drop off (filled_slice b) ∧
      match ns with
      | Send data => out = Reply data ∧ h' = h1
      | HsFinished o => out = Finished ∧ take_output h1 = (h', Some o)
      | Recv _ => False
      end
  end.
Proof.
  intros Hb. unfold step, call_handshake_impl, from_possibly_incomplete_slice.
  pose proof (framed (m:=handshake_impl) h (filled_slice b) 0 ltac:(lia)) as F.
  unfold framed_at in F. unfold reader_at in *.
  destruct (handshake_impl _) as [[h1 r1] [out|e|]]; [|destruct e; try done; destruct e; try done|done].
  - destruct F as (off & -> & Ho & _). rewrite filled_length in Ho by done.
    destruct (drain_buffer_ok off b Hb) as (b1 & Hd & Hb1 & Hf1 & _); [lia|].
    unfold consumed. cbn [rd_off].
    destruct out as [[|x data]|].
    + destruct (off =? 0)%nat; [done|]. rewrite Hd. intros [= <- <- <-]. by eexists _, _, _.
    + rewrite Hd. intros [= <- <- <-]. by eexists _, _, _.
    + rewrite Hd. destruct (take_output h1) as [h2 [o|]] eqn:Ho2; [|done].
      intros [= <- <- <-]. by eexists _, _, _.
  - destruct F as (-> & Hd & _). case_match eqn:Hc; [done|]. intros [= <- <- <-].
    apply Nat.ltb_ge in Hc. split_and!; try done. by eexists.
Qed.

Definition drive_inv (s : H * Buffer) : Prop := buffer_ok s.2 ∧ wanted s.1 (filled_slice s.2).

Lemma drive_inv_step s s' : drive_inv s → drive PreciseReads s s' → drive_inv s'.
Proof.
  intros [Hb Hw] Hs. destruct Hs as [h b h' b' data Hs|h b h' b1 b' d slice data Hs Hsl _ Hlen Hn].
  - apply step_inv in Hs as (h1 & off & out & Hok & Hb' & Hf & _ & ->); [|done].
    split; [done|]. left. simpl. rewrite Hf.
    by rewrite (wanted_exact _ _ _ _ _ Hw Hok), drop_all.
  - apply step_inv in Hs as (-> & -> & Hd & r & Hinc); [|done].
    unfold RecvStep_buf, recv_step_buf in Hsl. case_match; [|done]. injection Hsl as <-.
    rewrite length_take in Hlen. apply note_received_fill in Hn as (Hb' & Hf & _); [|done|lia].
    split; [done|]. right. simpl. rewrite Hf. eexists _, _, r, d. split_and!; [done|lia|done].
Qed.

(** With precise reads nothing is left in the buffer when a message has been handled. *)
Lemma precise_empty h0 n s h' b' ns :
  reachable (eq (h0, Buffer_with_size n)) (drive PreciseReads) s →
  step s.1 s.2 = ((h', b'), Ok ns) →
  match ns with Recv _ => True | _ => filled_slice b' = [] end.
Proof.
  intros Hr Hs.
  assert (drive_inv s) as [Hb Hw].
  { revert Hr. apply invariant_reachable; [|apply drive_inv_step]. intros ? <-. split; [|by left].
    unfold buffer_ok. simpl. lia. }
  apply step_inv in Hs; [|done]. destruct ns; [|done|];
    destruct Hs as (h1 & off & out & Hok & _ & -> & _);
    by rewrite (wanted_exact _ _ _ _ _ Hw Hok), drop_all.
Qed.
End driver.

(** A caller that uses precise reads never reads past the handshake: whatever the peer
    sends and however it is cut, when the proxy's or the client's handshake sends a message or
    finishes, the buffer is empty, so that [into_output] returns the output. *)
Theorem precise_reads_exact (q : SocksRequest) (n : nat) :
  (∀ s h' b' ns,
    reachable (eq (Proxy.new, Buffer_with_size n)) (drive PreciseReads) s →
    step s.1 s.2 = ((h', b'), Ok ns) →
    match ns with
    | Recv _ => True
    | Send _ => filled_slice b' = []
    | HsFinished o => into_output o b' = Ok o
    end) ∧
  (∀ s h' b' ns,
    reachable (eq (Client.new q, Buffer_with_size n)) (drive PreciseReads) s →
    step s.1 s.2 = ((h', b'), Ok ns) →
    match ns with
    | Recv _ => True
    | Send _ => filled_slice b' = []
    | HsFinished o => into_output o b' = Ok o
    end).
Proof.
  split; intros s h' b' ns Hr Hs; eapply precise_empty in Hr; try done; destruct ns; try done;
    unfold into_output; by rewrite Hr.
Qed.
