(* ===== verification/SocksTalk.v ===== *)
(** * SocksTalk: a client and a proxy that talk to each other

    [net_step] is a client and a proxy of file [Socks], each with its buffer, joined by two
    queues of bytes; either may take a step at any time, and a read returns any nonempty part
    of what is in its queue.  [talk] is the conversation that two handshakes have when every
    message arrives whole; file [SocksFrame] makes the two the same. *)

From S2P Require Import Prelude Text Bytes Codec RelayMsg StateM Socks SocksFrame.

Record Peer (H O : Type) : Type := mkPeer { pe_hs : H; pe_buf : Buffer; pe_fin : option O }.
Arguments mkPeer {_ _} _ _ _.
Arguments pe_hs {_ _} _.
Arguments pe_buf {_ _} _.
Arguments pe_fin {_ _} _.

(** One step of the caller's loop of one peer, which reads from [rx] and writes to [tx]. *)
Inductive peer_step {H O : Type} `{!Handshake H O} (P : ReadPrecision) :
    Peer H O * list Z * list Z → Peer H O * list Z * list Z → Prop :=
| peer_send h b h' b' data rx tx :
    step h b = ((h', b'), Ok (Send data)) →
    peer_step P (mkPeer h b None, rx, tx) (mkPeer h' b' None, rx, tx ++ data)
| peer_recv h b h' b1 b' d slice data rx tx :
    step h b = ((h', b1), Ok (Recv d)) → RecvStep_buf P b1 d = Ok slice →
    data ≠ [] → (length data ≤ length slice)%nat →
    RecvStep_note_received (length data) (fill data b1) = Ok b' →
    peer_step P (mkPeer h b None, data ++ rx, tx) (mkPeer h' b' None, rx, tx)
| peer_finish h b h' b' o o' rx tx :
    step h b = ((h', b'), Ok (HsFinished o)) → into_output_forbid_pipelining o b' = Ok o' →
    peer_step P (mkPeer h b None, rx, tx) (mkPeer h' b' (Some o'), rx, tx).

(** The loop of a peer does not stop with an error. *)
Definition peer_fine {H O : Type} `{!Handshake H O} (P : ReadPrecision) (p : Peer H O) : Prop :=
  pe_fin p = None →
  match step (pe_hs p) (pe_buf p) with
  | (_, Ok (Send _)) => True
  | ((_, b), Ok (Recv d)) => is_ok (RecvStep_buf P b d) = true
  | ((_, b), Ok (HsFinished o)) => is_ok (into_output_forbid_pipelining o b) = true
  | _ => False
  end.

(** Takes apart a step of a peer whose handshake is known to take the step [Hs]. *)
Ltac peer_inv H Hs :=
  inversion H; subst; clear H;
  match goal with H' : step _ _ = _ |- _ => lazymatch H' with Hs => fail | _ => rewrite Hs in H' end end;
  simplify_eq.

(** ** One peer that receives a message in pieces *)

Section peer.
Context {H O : Type} `{!Handshake H O} `{!Framed (handshake_impl (H:=H) (O:=O))}.

(** [h] handles the message [m]: it sends a reply or has an output [o]. *)
Inductive handles (h : H) (m : list Z) : H → list Z + O → Prop :=
| handles_reply h' m' : accepts h m h' (Reply m') → handles h m h' (inl m')
| handles_finish h' h'' o :
    accepts h m h' Finished → take_output h' = (h'', Some o) → handles h m h'' (inr o).

Lemma handles_nonempty h m h' out : handles h m h' out → m ≠ [].
Proof. by intros [? ? [? _]|? ? ? [? _] _]. Qed.

Lemma handles_partial h b q h' out :
  buffer_ok b → (length (filled_slice b ++ q) ≤ length (bf_buf b))%nat →
  handles h (filled_slice b ++ q) h' out → q ≠ [] →
  ∃ d, step h b = ((h, b), Ok (Recv d)) ∧ (0 < d ≤ length q)%nat.
Proof. rewrite length_app. intros Hb Hl [? ? Ha|? ? ? Ha _] Hq; by eapply step_partial. Qed.

(** The step in which a complete message is handled. *)
Lemma handles_full h b m h' out :
  buffer_ok b → filled_slice b = m → handles h m h' out →
  ∃ b', step h b = ((h', b'), Ok (match out with inl m' => Send m' | inr o => HsFinished o end))
        ∧ buffer_ok b' ∧ filled_slice b' = [] ∧ length (bf_buf b') = length (bf_buf b).
Proof.
  intros Hb Hm [? m' Ha|? ? o Ha Ho]; rewrite <-(app_nil_r m) in Hm.
  - by eapply step_reply.
  - by eapply step_finished.
Qed.

Lemma recv_buf_bounds P b d slice :
  RecvStep_buf P b d = Ok slice → (length slice ≤ length (unfilled_slice b))%nat.
Proof.
  unfold RecvStep_buf, recv_step_buf. destruct P; [by intros [= ->]|].
  case_match; [|done]. intros [= <-]. rewrite length_take. lia.
Qed.

Lemma recv_buf_ok P b d :
  (0 < d ≤ length (unfilled_slice b))%nat →
  ∃ slice, RecvStep_buf P b d = Ok slice ∧ (1 ≤ length slice)%nat.
Proof.
  intros Hd. unfold RecvStep_buf, recv_step_buf. destruct P.
  - eexists. split; [done|lia].
  - rewrite (proj2 (Nat.leb_le _ _)) by lia. eexists. split; [done|]. rewrite length_take. lia.
Qed.

Lemma unfilled_length b : length (unfilled_slice b) = (length (bf_buf b) - bf_filled b)%nat.
Proof. apply length_drop. Qed.

(** A peer that is receiving a message it handles is fine. *)
Lemma handles_fine P h b q h' out :
  buffer_ok b → (length (filled_slice b ++ q) ≤ length (bf_buf b))%nat →
  handles h (filled_slice b ++ q) h' out → peer_fine P (mkPeer h b None).
Proof.
  intros Hb Hl Hh _. simpl. destruct (decide (q = [])) as [->|Hq].
  - rewrite app_nil_r in Hh. destruct (handles_full _ _ _ _ _ Hb eq_refl Hh) as (b' & -> & _ & Hf & _).
    destruct out; [done|]. unfold into_output_forbid_pipelining. by rewrite Hf.
  - destruct (handles_partial _ _ _ _ _ Hb Hl Hh Hq) as (d & -> & Hd).
    rewrite length_app, filled_length in Hl by done.
    destruct (recv_buf_ok P b d) as (slice & -> & _); [rewrite unfilled_length; lia|done].
Qed.

(** What a step of such a peer does. *)
Lemma handles_step P h b rx tx h' out x :
  buffer_ok b → (length (filled_slice b ++ rx) ≤ length (bf_buf b))%nat →
  handles h (filled_slice b ++ rx) h' out →
  peer_step P (mkPeer h b None, rx, tx) x →
  (∃ data rx' b', rx = data ++ rx' ∧ data ≠ [] ∧ x = (mkPeer h b' None, rx', tx) ∧ buffer_ok b' ∧
     filled_slice b' ++ rx' = filled_slice b ++ rx ∧ length (bf_buf b') = length (bf_buf b)) ∨
  (rx = [] ∧ ∃ b', buffer_ok b' ∧ filled_slice b' = [] ∧ length (bf_buf b') = length (bf_buf b) ∧
     x = match out with
         | inl m' => (mkPeer h' b' None, [], tx ++ m')
         | inr o => (mkPeer h' b' (Some o), [], tx)
         end).
Proof.
  intros Hb Hl Hh Hs. destruct (decide (rx = [])) as [->|Hne].
  - right. split; [done|]. rewrite app_nil_r in Hh.
    destruct (handles_full _ _ _ _ _ Hb eq_refl Hh) as (b' & Hstep & Hb' & Hf & Hlen).
    exists b'. split_and!; try done. destruct out; peer_inv Hs Hstep; [done|].
    match goal with H : into_output_forbid_pipelining _ _ = _ |- _ => rename H into Ho end.
    unfold into_output_forbid_pipelining in Ho. rewrite Hf in Ho. by injection Ho as <-.
  - left. destruct (handles_partial _ _ _ _ _ Hb Hl Hh Hne) as (d & Hstep & Hd).
    peer_inv Hs Hstep.
    match goal with H : RecvStep_buf _ _ _ = _ |- _ => apply recv_buf_bounds in H end.
    match goal with H : RecvStep_note_received _ _ = _ |- _ =>
      apply note_received_fill in H as (? & Hf & ?); [|done|lia] end.
    eexists _, _, _. split_and!; [done..| |done]. by rewrite Hf, <-(assoc_L app).
Qed.

(** Such a peer can take a step when its queue holds the rest of the message. *)
Lemma handles_can P h b rx tx h' out :
  buffer_ok b → (length (filled_slice b ++ rx) ≤ length (bf_buf b))%nat →
  handles h (filled_slice b ++ rx) h' out →
  ∃ x, peer_step P (mkPeer h b None, rx, tx) x.
Proof.
  intros Hb Hl Hh. destruct rx as [|x rx].
  - rewrite app_nil_r in Hh. destruct (handles_full _ _ _ _ _ Hb eq_refl Hh) as (b' & Hs & _ & Hf & _).
    destruct out as [m'|o]; eexists; [by eapply peer_send|].
    eapply peer_finish; [done|]. unfold into_output_forbid_pipelining. by rewrite Hf.
  - destruct (handles_partial _ _ _ _ _ Hb Hl Hh) as (d & Hs & Hd); [done|].
    rewrite length_app, filled_length in Hl by done.
    destruct (recv_buf_ok P b d) as (slice & Hsl & Hlen); [rewrite unfilled_length; lia|].
    destruct (note_received_ok [x] b) as [b' Hb']; [done..|rewrite unfilled_length; simpl in *; lia|].
    eexists. by eapply (peer_recv P h b h b b' d slice [x]).
Qed.

(** A peer with nothing to read waits. *)
Lemma handles_waits P h b m tx h' out x :
  buffer_ok b → filled_slice b = [] → (length m ≤ length (bf_buf b))%nat → handles h m h' out →
  ¬ peer_step P (mkPeer h b None, [], tx) x.
Proof.
  intros Hb Hf Hl Hh Hs. pose proof (handles_nonempty _ _ _ _ Hh) as Hm.
  destruct (handles_partial h b m h' out) as (d & Hstep & _); rewrite ?Hf; try done.
  peer_inv Hs Hstep.
  match goal with H : _ ++ _ = [] |- _ => apply app_eq_nil in H as [-> _] end. done.
Qed.
End peer.

Section net.
Context {C OC S OS : Type} `{!Handshake C OC} `{!Handshake S OS}.
Context `{!Framed (handshake_impl (H:=C) (O:=OC))} `{!Framed (handshake_impl (H:=S) (O:=OS))}.

(** How the server answers, once, when its handshake is complete. *)
Variable answer : OS → option (list Z).

Record Net : Type := mkNet {
  nt_client : Peer C OC;
  nt_server : Peer S OS;
  nt_c2s : list Z;
  nt_s2c : list Z;
  nt_answered : bool;
}.

Inductive net_step (P : ReadPrecision) : Net → Net → Prop :=
| net_client c c' s c2s c2s' s2c s2c' a :
    peer_step P (c, s2c, c2s) (c', s2c', c2s') →
    net_step P (mkNet c s c2s s2c a) (mkNet c' s c2s' s2c' a)
| net_server c s s' c2s c2s' s2c s2c' a :
    peer_step P (s, c2s, s2c) (s', c2s', s2c') →
    net_step P (mkNet c s c2s s2c a) (mkNet c s' c2s' s2c' a)
| net_answer c s c2s s2c o data :
    pe_fin s = Some o → answer o = Some data →
    net_step P (mkNet c s c2s s2c false) (mkNet c s c2s (s2c ++ data) true).

(** [steps P n σ σ']: a run of [n] steps. *)
Inductive steps (P : ReadPrecision) : nat → Net → Net → Prop :=
| steps_O σ : steps P 0 σ σ
| steps_S n σ σ' σ'' : steps P n σ σ' → net_step P σ' σ'' → steps P (Datatypes.S n) σ σ''.

(** [talk size q a to_server c s m n]: message [m] is on its way, to the server or to the client, and
    fits into a buffer of [size] bytes; from there on the two reach outputs [q] and [a].  [n]
    counts the steps that remain when [m] has arrived. *)
Inductive talk (size : nat) (q : OS) (a : OC) : bool → C → S → list Z → nat → Prop :=
| talk_server c s s' m m' n :
    (length m ≤ size)%nat → handles s m s' (inl m') →
    talk size q a false c s' m' n → talk size q a true c s m (1 + length m' + n)
| talk_client c c' s m m' n :
    (length m ≤ size)%nat → handles c m c' (inl m') →
    talk size q a true c' s m' n → talk size q a false c s m (1 + length m' + n)
| talk_end c c' s s' m m' :
    (length m ≤ size)%nat → handles s m s' (inr q) → answer q = Some m' →
    (length m' ≤ size)%nat → handles c m' c' (inr a) →
    talk size q a true c s m (3 + length m').

(** The states of a run; the last argument bounds the steps that remain. *)
Inductive phase (size : nat) (q : OS) (a : OC) : Net → nat → Prop :=
| ph_start c0 c s m n bc bs :
    handshake_impl (c0, reader_at [] 0) = ((c, reader_at [] 0), Ok (Reply m)) → m ≠ [] →
    talk size q a true c s m n →
    buffer_ok bc → filled_slice bc = [] → length (bf_buf bc) = size →
    buffer_ok bs → filled_slice bs = [] → length (bf_buf bs) = size →
    phase size q a (mkNet (mkPeer c0 bc None) (mkPeer s bs None) [] [] false) (1 + length m + n)
| ph_to_server c s m n bc bs rx :
    talk size q a true c s m n → filled_slice bs ++ rx = m →
    buffer_ok bc → filled_slice bc = [] → length (bf_buf bc) = size →
    buffer_ok bs → length (bf_buf bs) = size →
    phase size q a (mkNet (mkPeer c bc None) (mkPeer s bs None) rx [] false) (length rx + n)
| ph_to_client c s m n bc bs rx :
    talk size q a false c s m n → filled_slice bc ++ rx = m →
    buffer_ok bc → length (bf_buf bc) = size →
    buffer_ok bs → filled_slice bs = [] → length (bf_buf bs) = size →
    phase size q a (mkNet (mkPeer c bc None) (mkPeer s bs None) [] rx false) (length rx + n)
| ph_done c c' s m bc bs :
    answer q = Some m → (length m ≤ size)%nat → handles c m c' (inr a) →
    buffer_ok bc → filled_slice bc = [] → length (bf_buf bc) = size →
    phase size q a (mkNet (mkPeer c bc None) (mkPeer s bs (Some q)) [] [] false) (2 + length m)
| ph_answered c c' s m bc bs rx :
    filled_slice bc ++ rx = m → (length m ≤ size)%nat → handles c m c' (inr a) →
    buffer_ok bc → length (bf_buf bc) = size →
    phase size q a (mkNet (mkPeer c bc None) (mkPeer s bs (Some q)) [] rx true) (1 + length rx)
| ph_final c s bc bs :
    filled_slice bc = [] →
    phase size q a (mkNet (mkPeer c bc (Some a)) (mkPeer s bs (Some q)) [] [] true) 0.

Lemma talk_to_server size q a c s m n :
  talk size q a true c s m n →
  (length m ≤ size)%nat ∧ (∃ s' out, handles s m s' out) ∧
  ∃ m' c' out, handles c m' c' out ∧ (length m' ≤ size)%nat.
Proof.
  inversion 1 as [? ? ? ? ? ? ? ? Ht| |]; subst; split_and!; eauto.
  inversion Ht; subst; eauto.
Qed.

Lemma talk_to_client size q a c s m n :
  talk size q a false c s m n →
  (length m ≤ size)%nat ∧ (∃ c' out, handles c m c' out) ∧
  ∃ m' s' out, handles s m' s' out ∧ (length m' ≤ size)%nat.
Proof.
  inversion 1 as [|? ? ? ? ? ? ? ? Ht|]; subst; split_and!; eauto.
  apply talk_to_server in Ht as (? & (? & ? & ?) & _). eauto.
Qed.

Lemma open_step (c0 c : C) m bc :
  buffer_ok bc → filled_slice bc = [] → m ≠ [] →
  handshake_impl (c0, reader_at [] 0) = ((c, reader_at [] 0), Ok (Reply m)) →
  ∃ b', step c0 bc = ((c, b'), Ok (Send m)) ∧ buffer_ok b' ∧ filled_slice b' = [] ∧
        length (bf_buf b') = length (bf_buf bc).
Proof.
  intros Hb Hf Hm Hi. destruct (drain_buffer_ok 0 bc Hb) as (b' & Hd & Hb' & Hf' & Hl); [lia|].
  exists b'. rewrite Hf in Hf'. split_and!; [|done..].
  unfold step, call_handshake_impl, from_possibly_incomplete_slice. rewrite Hf.
  unfold reader_at in Hi. rewrite Hi. destruct m; [done|]. simpl. by rewrite Hd.
Qed.

(** A peer that has nothing to read takes no step. *)
Ltac waits :=
  match goal with H : peer_step _ _ _ |- _ =>
    exfalso; revert H; eapply handles_waits; [eassumption|eassumption| |eassumption]; lia end.

(** Each step leads to a later phase. *)
Definition advances (size : nat) (q : OS) (a : OC) (P : ReadPrecision) (σ : Net) (n : nat) : Prop :=
  ∀ σ', net_step P σ σ' → ∃ n', phase size q a σ' n' ∧ (n' < n)%nat.

Lemma advances_start P size q a c0 c s m n bc bs :
  handshake_impl (c0, reader_at [] 0) = ((c, reader_at [] 0), Ok (Reply m)) → m ≠ [] →
  talk size q a true c s m n →
  buffer_ok bc → filled_slice bc = [] → length (bf_buf bc) = size →
  buffer_ok bs → filled_slice bs = [] → length (bf_buf bs) = size →
  advances size q a P (mkNet (mkPeer c0 bc None) (mkPeer s bs None) [] [] false) (1 + length m + n).
Proof.
  intros Hi Hm Ht Hbc Hfc Hlc Hbs Hfs Hls σ' Hs.
  destruct (open_step c0 c m bc Hbc Hfc Hm Hi) as (b' & Hstep & Hb' & Hf' & Hl').
  inversion Hs as [? ? ? ? ? ? ? ? Hp|? ? ? ? ? ? ? ? Hp|? ? ? ? ? ? Ho]; subst; [| |done].
  - peer_inv Hp Hstep. eexists. split; [eapply ph_to_server; rewrite ?Hfs; try done; congruence|].
    simpl. lia.
  - apply talk_to_server in Ht as (? & (? & ? & ?) & _). waits.
Qed.

Lemma advances_to_server P size q a c s m n bc bs rx :
  talk size q a true c s m n → filled_slice bs ++ rx = m →
  buffer_ok bc → filled_slice bc = [] → length (bf_buf bc) = size →
  buffer_ok bs → length (bf_buf bs) = size →
  advances size q a P (mkNet (mkPeer c bc None) (mkPeer s bs None) rx [] false) (length rx + n).
Proof.
  intros Ht <- Hbc Hfc Hlc Hbs Hls σ' Hs.
  destruct (talk_to_server _ _ _ _ _ _ _ Ht) as (Hlm & (s1 & out & Hh) & m1 & c1 & out1 & Hc & Hlm1).
  inversion Hs as [? ? ? ? ? ? ? ? Hp|? ? ? ? ? ? ? ? Hp|? ? ? ? ? ? Ho]; simplify_eq/=.
  - waits.
  - inversion Ht as [? ? s2 ? m' n' _ Hr Ht'| |? c2 ? s2 ? m' _ Hr Ha Hlm' Hc2]; simplify_eq.
    all: eapply (handles_step P) in Hr; [|done|lia|exact Hp];
      destruct Hr as [(data & rx' & b' & -> & Hne & [= -> -> ->] & Hb' & Hf & Hl)
        |(-> & b' & Hb' & Hf & Hl & [= -> -> ->])].
    1,3: eexists; split; [eapply ph_to_server; rewrite ?Hf; try done; congruence|];
         rewrite length_app; destruct data; [done|simpl; lia].
    + eexists. split; [eapply ph_to_client; rewrite ?Hfc; try done; congruence|]. simpl. lia.
    + eexists. split; [by eapply ph_done|]. simpl. lia.
Qed.

Lemma advances_to_client P size q a c s m n bc bs rx :
  talk size q a false c s m n → filled_slice bc ++ rx = m →
  buffer_ok bc → length (bf_buf bc) = size →
  buffer_ok bs → filled_slice bs = [] → length (bf_buf bs) = size →
  advances size q a P (mkNet (mkPeer c bc None) (mkPeer s bs None) [] rx false) (length rx + n).
Proof.
  intros Ht <- Hbc Hlc Hbs Hfs Hls σ' Hs.
  destruct (talk_to_client _ _ _ _ _ _ _ Ht) as (Hlm & (s1 & out & Hh) & m1 & c1 & out1 & Hc & Hlm1).
  inversion Hs as [? ? ? ? ? ? ? ? Hp|? ? ? ? ? ? ? ? Hp|? ? ? ? ? ? Ho]; simplify_eq/=.
  - inversion Ht as [|? c2 ? ? m' n' _ Hr Ht'|]; simplify_eq.
    eapply (handles_step P) in Hr; [|done|lia|exact Hp];
      destruct Hr as [(data & rx' & b' & -> & Hne & [= -> -> ->] & Hb' & Hf & Hl)
        |(-> & b' & Hb' & Hf & Hl & [= -> -> ->])].
    + eexists; split; [eapply ph_to_client; rewrite ?Hf; try done; congruence|].
      rewrite length_app; destruct data; [done|simpl; lia].
    + eexists. split; [eapply ph_to_server; rewrite ?Hfs; try done; congruence|]. simpl. lia.
  - waits.
Qed.

Lemma advances_done P size q a c c' s m bc bs :
  answer q = Some m → (length m ≤ size)%nat → handles c m c' (inr a) →
  buffer_ok bc → filled_slice bc = [] → length (bf_buf bc) = size →
  advances size q a P (mkNet (mkPeer c bc None) (mkPeer s bs (Some q)) [] [] false) (2 + length m).
Proof.
  intros Ha Hl Hc Hbc Hfc Hlc σ' Hs.
  inversion Hs as [? ? ? ? ? ? ? ? Hp|? ? ? ? ? ? ? ? Hp|? ? ? ? ? ? Ho Ha']; simplify_eq/=.
  - waits.
  - inversion Hp.
  - eexists. split; [eapply ph_answered; try done; by rewrite Hfc|]. lia.
Qed.

Lemma advances_answered P size q a c c' s m bc bs rx :
  filled_slice bc ++ rx = m → (length m ≤ size)%nat → handles c m c' (inr a) →
  buffer_ok bc → length (bf_buf bc) = size →
  advances size q a P (mkNet (mkPeer c bc None) (mkPeer s bs (Some q)) [] rx true) (1 + length rx).
Proof.
  intros <- Hl Hc Hbc Hlc σ' Hs.
  inversion Hs as [? ? ? ? ? ? ? ? Hp|? ? ? ? ? ? ? ? Hp|? ? ? ? ? ? Ho Ha']; simplify_eq/=.
  - eapply (handles_step P) in Hc as Hr; [|done|lia|exact Hp];
      destruct Hr as [(data & rx' & b' & -> & Hne & [= -> -> ->] & Hb' & Hf & Hl')
        |(-> & b' & Hb' & Hf & Hl' & [= -> -> ->])].
    + eexists; split; [by eapply (ph_answered _ _ _ _ _ _ (filled_slice bc ++ data ++ rx'))|].
      rewrite length_app; destruct data; [done|simpl; lia].
    + eexists. split; [by eapply ph_final|lia].
  - inversion Hp.
Qed.

Lemma phase_step P size q a σ n : phase size q a σ n → advances size q a P σ n.
Proof.
  destruct 1; [by eapply advances_start|by eapply advances_to_server|by eapply advances_to_client
    |by eapply advances_done|by eapply advances_answered|].
  intros σ' Hs. inversion Hs as [? ? ? ? ? ? ? ? Hp|? ? ? ? ? ? ? ? Hp|]; simplify_eq; inversion Hp.
Qed.

Lemma net_runs P size q a σ n k σ' :
  phase size q a σ n → steps P k σ σ' → ∃ n', phase size q a σ' n' ∧ (n' + k ≤ n)%nat.
Proof.
  intros Hp Hs. revert Hp. induction Hs as [|k σ σ' σ'' Hs IH Hstep]; intros Hp.
  - exists n. split; [done|lia].
  - destruct (IH Hp) as (n1 & Hp1 & Hle). destruct (phase_step P _ _ _ _ _ Hp1 _ Hstep) as (n2 & Hp2 & ?).
    exists n2. split; [done|lia].
Qed.

Definition net_fine (P : ReadPrecision) (σ : Net) : Prop :=
  peer_fine P (nt_client σ) ∧ peer_fine P (nt_server σ).

(** The end of a run: both sides have their output, and no byte is left over. *)
Definition net_final (q : OS) (a : OC) (σ : Net) : Prop :=
  pe_fin (nt_client σ) = Some a ∧ pe_fin (nt_server σ) = Some q ∧
  nt_c2s σ = [] ∧ nt_s2c σ = [] ∧ filled_slice (pe_buf (nt_client σ)) = [].

Lemma waiting_fine {H O} `{!Handshake H O} `{!Framed (handshake_impl (H:=H) (O:=O))} P h m b h' out :
  buffer_ok b → filled_slice b = [] → (length m ≤ length (bf_buf b))%nat → handles h m h' out →
  peer_fine P (mkPeer h b None).
Proof. intros Hb Hf Hl Hh. eapply (handles_fine P h b m); [done|by rewrite Hf|by rewrite Hf]. Qed.

Lemma phase_fine P size q a σ n : phase size q a σ n → net_fine P σ.
Proof.
  destruct 1 as [c0 c s m n bc bs Hi Hm Ht ? ? Hlc ? ? Hls|c s m n bc bs rx Ht <- ? ? Hlc ? Hls
    |c s m n bc bs rx Ht <- ? Hlc ? ? Hls|c c' s m bc bs ? ? Hc|c c' s m bc bs rx <- ? Hc|];
    split; try done; cbn [nt_client nt_server].
  - intros _. cbn [pe_hs pe_buf]. destruct (open_step c0 c m bc) as (b' & -> & _); done.
  - apply talk_to_server in Ht as (? & (? & ? & ?) & _). eapply waiting_fine; [done..| |done]. lia.
  - apply talk_to_server in Ht as (_ & _ & m' & ? & ? & ? & ?).
    eapply (waiting_fine _ _ m'); [done..| |done]. lia.
  - apply talk_to_server in Ht as (? & (? & ? & ?) & _). eapply handles_fine; [done| |done]. lia.
  - apply talk_to_client in Ht as (? & (? & ? & ?) & _). eapply handles_fine; [done| |done]. lia.
  - apply talk_to_client in Ht as (_ & _ & m' & ? & ? & ? & ?).
    eapply (waiting_fine _ _ m'); [done..| |done]. lia.
  - eapply waiting_fine; [done..| |exact Hc]. lia.
  - eapply handles_fine; [done| |exact Hc]. lia.
Qed.

Lemma client_moves P c s c2s s2c a :
  (∃ x, peer_step P (c, s2c, c2s) x) → ∃ σ, net_step P (mkNet c s c2s s2c a) σ.
Proof. intros [[[c' s2c'] c2s'] Hp]. eexists. by apply net_client. Qed.
Lemma server_moves P c s c2s s2c a :
  (∃ x, peer_step P (s, c2s, s2c) x) → ∃ σ, net_step P (mkNet c s c2s s2c a) σ.
Proof. intros [[[s' c2s'] s2c'] Hp]. eexists. by apply net_server. Qed.

Lemma phase_live P size q a σ n :
  phase size q a σ n → net_final q a σ ∨ ∃ σ', net_step P σ σ'.
Proof.
  destruct 1 as [c0 c s m n bc bs Hi Hm Ht ? ? Hlc ? ? Hls|c s m n bc bs rx Ht <- ? ? Hlc ? Hls
    |c s m n bc bs rx Ht <- ? Hlc ? ? Hls|c c' s m bc bs ? ? Hc|c c' s m bc bs rx <- ? Hc|];
    [right..|by left].
  - destruct (open_step c0 c m bc) as (b' & ? & _); [done..|].
    apply client_moves. eexists. by apply peer_send.
  - apply talk_to_server in Ht as (? & (? & ? & ?) & _).
    eapply server_moves, handles_can; [done| |done]. lia.
  - apply talk_to_client in Ht as (? & (? & ? & ?) & _).
    eapply client_moves, handles_can; [done| |done]. lia.
  - eexists. by apply (net_answer P _ _ _ _ q).
  - eapply client_moves, handles_can; [done| |done]. lia.
Qed.
End net.
