(* ===== verification/SocksAgree.v ===== *)
(** * SocksAgree: the conversation of the SOCKS client with the SOCKS proxy

    The messages of the client are the ones the proxy reads, and the other way around, for each
    version and kind of authentication.  With file [SocksTalk] this gives [socks_agree]: the
    two always finish and agree on the request, however the bytes are cut. *)

From S2P Require Import Prelude Text Bytes Codec RelayMsg StateM Socks SocksFrame SocksTalk.

(** ** Reading a message *)

Definition hreads {H A} (m : ST (H * Reader) SocksError A) (h : H) (bs : list Z) (h' : H) (v : A) : Prop :=
  ∀ pre post c,
    m (h, mkReader (pre ++ bs ++ post) (length pre) c) =
      ((h', mkReader (pre ++ bs ++ post) (length pre + length bs) c), Ok v).

Section hreads.
Context {H : Type}.
Notation HS := (ST (H * Reader) SocksError).
Implicit Types h : H.

Lemma hreads_rd {A B} (f : RD A) (k : A → HS B) h bs1 bs2 h2 v w :
  reads f bs1 v → hreads (k v) h bs2 h2 w → hreads (rd f ≫= k) h (bs1 ++ bs2) h2 w.
Proof.
  intros Hf Hk pre post c. unfold mbind, ST_mbind, rd. cbn [fst snd].
  rewrite <-(assoc_L app), Hf. cbn [map_err].
  specialize (Hk (pre ++ bs1) post c). rewrite <-(assoc_L app), length_app in Hk.
  by rewrite Hk, length_app, Nat.add_assoc.
Qed.

(** A step that does not read. *)
Lemma hreads_skip {A B} (m : HS A) (k : A → HS B) h h1 bs h2 v w :
  (∀ r, m (h, r) = ((h1, r), Ok v)) → hreads (k v) h1 bs h2 w → hreads (m ≫= k) h bs h2 w.
Proof. intros Hm Hk pre post c. unfold mbind, ST_mbind. by rewrite Hm. Qed.

Lemma hreads_get {A B} (f : H → A) (k : A → HS B) h bs h2 w :
  hreads (k (f h)) h bs h2 w → hreads (get_self f ≫= k) h bs h2 w.
Proof. by apply hreads_skip. Qed.
Lemma hreads_set {B} (f : H → H) (k : unit → HS B) h bs h2 w :
  hreads (k tt) (f h) bs h2 w → hreads (set_self f ≫= k) h bs h2 w.
Proof. by apply hreads_skip. Qed.
Lemma hreads_lift {A B} (x : res SocksError A) (k : A → HS B) h bs h2 v w :
  x = Ok v → hreads (k v) h bs h2 w → hreads (lift x ≫= k) h bs h2 w.
Proof. intros ->. by apply hreads_skip. Qed.

Lemma hreads_ret {A} (v : A) h : hreads (mret v : HS A) h [] h v.
Proof. intros pre post c. simpl. by rewrite Nat.add_0_r. Qed.

Lemma hreads_bind {A B} (m : HS A) (k : A → HS B) h h1 bs1 bs2 h2 v w :
  hreads m h bs1 h1 v → hreads (k v) h1 bs2 h2 w → hreads (m ≫= k) h (bs1 ++ bs2) h2 w.
Proof.
  intros Hf Hk pre post c. unfold mbind, ST_mbind. rewrite <-(assoc_L app), Hf.
  specialize (Hk (pre ++ bs1) post c). rewrite <-(assoc_L app), length_app in Hk.
  by rewrite Hk, length_app, Nat.add_assoc.
Qed.

Lemma hreads_peek {A} (k : list Z → HS A) h x bs h2 w :
  hreads (k [x]) h (x :: bs) h2 w → hreads (rd (Proxy.rd_peek 1) ≫= k) h (x :: bs) h2 w.
Proof.
  intros Hk pre post c. unfold mbind, ST_mbind, rd, Proxy.rd_peek, peek, remaining.
  cbn [fst snd rd_b rd_off]. rewrite length_app, drop_app_length. simpl length.
  rewrite (proj2 (Nat.ltb_ge _ _)) by lia. apply Hk.
Qed.

Lemma hreads_rd_last {A B} (f : RD A) (k : A → HS B) h bs h2 v w :
  reads f bs v → hreads (k v) h [] h2 w → hreads (rd f ≫= k) h bs h2 w.
Proof. rewrite <-(app_nil_r bs) at 2. apply hreads_rd. Qed.
End hreads.

Lemma hreads_accepts {H O} `{!Handshake H O} (h : H) x bs h' out :
  hreads handshake_impl h (x :: bs) h' out → accepts h (x :: bs) h' out.
Proof.
  intros Hr. split; [done|]. specialize (Hr [] [] PossiblyIncomplete).
  by rewrite app_nil_r in Hr.
Qed.

(** Reads the parts of a message in order. *)
Ltac hreads_tac :=
  repeat first
    [ progress cbv beta iota zeta
    | match goal with
      | |- hreads (rd _ ≫= _) _ _ _ _ => eapply hreads_rd; [by eauto with arti|]
      | |- hreads (get_self _ ≫= _) _ _ _ _ => apply hreads_get
      | |- hreads (set_self _ ≫= _) _ _ _ _ => apply hreads_set
      | |- hreads (lift _ ≫= _) _ _ _ _ => eapply hreads_lift; [reflexivity|]
      | |- hreads (mret _) _ _ _ _ => apply hreads_ret
      end ].

(** ** Well-formed requests *)

Lemma contains_zeros_spec b : contains_zeros b = false ↔ 0 ∉ b.
Proof.
  unfold contains_zeros. cut (∀ acc, foldl (λ s x, s || (x =? 0)) acc b = false ↔ acc = false ∧ 0 ∉ b).
  { intros ->. naive_solver. }
  induction b as [|x b IH]; intros acc; simpl; [set_solver|].
  rewrite IH, orb_false_iff, Z.eqb_neq, not_elem_of_cons. naive_solver.
Qed.

Lemma hostname_ok h : (length h ≤ 255)%nat → 0 ∉ h → SocksHostname_try_from h = Ok h.
Proof.
  intros Hl Hz. unfold SocksHostname_try_from. rewrite (proj2 (Nat.ltb_ge _ _)) by lia.
  by rewrite (proj2 (contains_zeros_spec h) Hz).
Qed.

Lemma hostname_inv h h' :
  SocksHostname_try_from h = Ok h' → h' = h ∧ (length h ≤ 255)%nat ∧ 0 ∉ h.
Proof.
  unfold SocksHostname_try_from. case_match eqn:Hl; [done|]. case_match eqn:Hz; [done|].
  intros [= <-]. apply Nat.ltb_ge in Hl. by apply contains_zeros_spec in Hz.
Qed.

(** What the types [SocksAddr] and [u16] guarantee. *)
Definition addr_wf (a : SocksAddr) : Prop :=
  match a with
  | Hostname h => utf8_valid h = true ∧ (length h ≤ 255)%nat ∧ 0 ∉ h
  | Ip a => ip_wf a
  end.

(** A value that [SocksRequest::new] returned. *)
Definition request_wf (q : SocksRequest) : Prop :=
  SocksRequest_new (sq_version q) (sq_cmd q) (sq_addr q) (sq_port q) (sq_auth q) = Ok q ∧
  in_uint u16_max (sq_port q) ∧ addr_wf (sq_addr q).

(** ** Addresses *)

Lemma reads_addr a bs :
  addr_wf a → SocksAddr_write_onto a [] = Ok bs → reads SocksAddr_take_from bs a.
Proof.
  unfold SocksAddr_take_from, SocksAddr_write_onto.
  destruct a as [h|[a|a]]; simpl addr_wf.
  - intros (Hu & Hl & Hz). rewrite (proj2 (Nat.ltb_lt _ _)) by lia. intros [= <-].
    unfold write_u8, write_all, vec_writer, wrap, u8_max. simpl. rewrite Z.mod_small by lia.
    eapply (reads_bind take_u8 _ [3]); [apply reads_u8|]. simpl.
    eapply (reads_bind take_u8 _ [Z.of_nat (length h)]); [apply reads_u8|].
    eapply reads_bind_nil; [apply reads_take'; lia|]. rewrite Hu. simpl.
    rewrite hostname_ok by done. apply reads_ret.
  - intros Ha [= <-]. eapply (reads_bind take_u8 _ [1]); [apply reads_u8|]. simpl.
    eapply reads_bind_nil; [by apply reads_take_ipv4|apply reads_ret].
  - intros Ha [= <-]. eapply (reads_bind take_u8 _ [4]); [apply reads_u8|].
    cbn [Z.eqb Pos.eqb]. eapply reads_bind_nil; [by apply reads_take_ipv6|apply reads_ret].
Qed.

Lemma addr_write_app a w :
  SocksAddr_write_onto a w = (bs ← SocksAddr_write_onto a []; Ok (w ++ bs)).
Proof.
  destruct a as [h|[a|a]]; simpl; unfold write_u8, write_u32, write_u128, write_all, vec_writer;
    simpl; rewrite <-?(assoc_L app); simpl; try done.
  destruct (length h <? 256)%nat; simpl; [|done]. by rewrite <-?(assoc_L app).
Qed.

Lemma addr_write_ok a :
  addr_wf a → ∃ bs, SocksAddr_write_onto a [] = Ok bs ∧ (length bs ≤ 257)%nat.
Proof.
  destruct a as [h|[a|a]]; simpl.
  - intros (_ & Hl & _). rewrite (proj2 (Nat.ltb_lt _ _)) by lia. simpl. eexists. split; [done|].
    unfold write_u8, write_all, vec_writer. simpl. lia.
  - eexists. split; [done|]. unfold write_u32, write_u8, write_all, vec_writer. simpl. lia.
  - eexists. split; [done|]. unfold write_u128, write_u8, write_all, vec_writer.
    rewrite length_app, length_to_be_bytes. simpl. lia.
Qed.

(** ** IPv6 addresses as text *)

(** Digits, lower-case hexadecimal letters, [:] and [.]. *)
Definition addr_char (x : Z) : Prop := 46 ≤ x < 128.

Lemma dec_digits_chars fuel x : 0 ≤ x → Forall addr_char (dec_digits fuel x) ∧ (length (dec_digits fuel x) ≤ fuel)%nat.
Proof.
  revert x. induction fuel as [|fuel IH]; intros x Hx; simpl; [split; [constructor|lia]|].
  case_match; zify_bool; [unfold addr_char; split; [repeat constructor; lia|simpl; lia]|].
  pose proof (Z.mod_pos_bound x 10 ltac:(lia)). destruct (IH (x / 10)) as [Hc Hl]; [by apply Z.div_pos|].
  rewrite length_app. simpl. split; [|lia]. apply Forall_app. split; [done|].
  unfold addr_char. repeat constructor; lia.
Qed.

Lemma hex_digits_chars fuel x : 0 ≤ x → Forall addr_char (hex_digits fuel x) ∧ (length (hex_digits fuel x) ≤ fuel)%nat.
Proof.
  assert (∀ d, 0 ≤ d < 16 → addr_char (hex_digit d)) as Hd.
  { intros d Hd. unfold hex_digit, addr_char. case_match; zify_bool; lia. }
  revert x. induction fuel as [|fuel IH]; intros x Hx; simpl; [split; [constructor|lia]|].
  case_match; zify_bool; [split; [apply Forall_singleton, Hd; lia|simpl; lia]|].
  pose proof (Z.mod_pos_bound x 16 ltac:(lia)). destruct (IH (x / 16)) as [Hc Hl]; [by apply Z.div_pos|].
  rewrite length_app. simpl. split; [|lia]. apply Forall_app. split; [done|].
  by apply Forall_singleton, Hd.
Qed.

Lemma join_chars sep (ps : list (list Z)) n :
  Forall addr_char sep → length sep = 1%nat → Forall (λ p, Forall addr_char p ∧ (length p ≤ n)%nat) ps →
  Forall addr_char (join sep ps) ∧ (length (join sep ps) ≤ length ps * (n + 1))%nat.
Proof.
  intros Hs Hl Hps. induction Hps as [|p ps [Hp Hn] Hps [IHc IHl]]; simpl; [split; [constructor|lia]|].
  destruct ps as [|p' ps]; simpl; [split; [done|lia]|].
  rewrite !length_app. split; [by rewrite !Forall_app|]. simpl length in *. lia.
Qed.

Lemma segments_spec a : length (segments a) = 8%nat ∧ Forall (λ x, 0 ≤ x) (segments a).
Proof.
  unfold segments. split; [by rewrite length_fmap|]. apply Forall_fmap, Forall_true.
  intros i. simpl. apply Z.mod_pos_bound. lia.
Qed.

Lemma fmt_subslice_chars chunk :
  Forall (λ x, 0 ≤ x) chunk →
  Forall addr_char (fmt_subslice chunk) ∧ (length (fmt_subslice chunk) ≤ length chunk * 5)%nat.
Proof.
  intros Hc. unfold fmt_subslice. destruct (join_chars (str ":") (hex_digits 4 <$> chunk) 4) as [H1 H2].
  - by repeat constructor.
  - done.
  - apply Forall_fmap. eapply Forall_impl; [done|]. intros x Hx. by apply hex_digits_chars.
  - rewrite length_fmap in H2. split; [done|lia].
Qed.

Lemma ipv4_to_string_chars a :
  Forall addr_char (ipv4_to_string a) ∧ (length (ipv4_to_string a) ≤ 16)%nat.
Proof.
  unfold ipv4_to_string.
  destruct (join_chars (str ".") (dec_digits 3 <$> to_be_bytes 4 a) 3) as [H1 H2].
  - by repeat constructor.
  - done.
  - apply Forall_fmap. eapply Forall_impl; [apply to_be_bytes_ok|]. intros x Hx. apply dec_digits_chars.
    unfold byte_ok in Hx. lia.
  - rewrite length_fmap, length_to_be_bytes in H2. split; [done|lia].
Qed.

Lemma ipv6_to_string_chars a :
  Forall addr_char (ipv6_to_string a) ∧ (length (ipv6_to_string a) ≤ 82)%nat.
Proof.
  unfold ipv6_to_string. case_match.
  - destruct (ipv4_to_string_chars (a mod 2 ^ 32)) as [H1 H2]. rewrite length_app. simpl length.
    split; [|lia]. apply Forall_app_2; [by repeat constructor|done].
  - destruct (segments_spec a) as [Hl Hs]. destruct (longest_zeros _ _ _ _) as [start len].
    case_match.
    + destruct (fmt_subslice_chars (take start (segments a))) as [H1 H2]; [by apply Forall_take|].
      destruct (fmt_subslice_chars (drop (start + len) (segments a))) as [H3 H4]; [by apply Forall_drop|].
      rewrite length_take in H2. rewrite length_drop in H4. rewrite !length_app. simpl length.
      split; [|lia]. rewrite !Forall_app. split_and!; [done|by repeat constructor|done].
    + destruct (fmt_subslice_chars (segments a) Hs) as [H1 H2]. split; [done|lia].
Qed.

Lemma utf8_ascii l : Forall (λ x, x < 128) l → utf8_valid l = true.
Proof. induction 1 as [|x l Hx Hl IH]; cbn [utf8_valid]; [done|]. by rewrite (proj2 (Z.ltb_lt _ _)). Qed.

(** The host name that stands for an address in a SOCKS4a request. *)
Lemma to_string_hostname a : addr_wf a → addr_wf (Hostname (SocksAddr_to_string a)).
Proof.
  assert (∀ l, Forall addr_char l → utf8_valid l = true ∧ 0 ∉ l) as Hc.
  { intros l Hl. split.
    - apply utf8_ascii. eapply Forall_impl; [done|]. unfold addr_char. intros. lia.
    - intros Hin. rewrite Forall_forall in Hl. specialize (Hl 0 Hin). unfold addr_char in Hl. lia. }
  destruct a as [h|[a|a]]; cbn [addr_wf SocksAddr_to_string]; [done| |]; intros _.
  - destruct (ipv4_to_string_chars a) as [? ?]. destruct (Hc _ H). split_and!; [done|lia|done].
  - destruct (ipv6_to_string_chars a) as [? ?]. destruct (Hc _ H). split_and!; [done|lia|done].
Qed.

#[local] Opaque ipv4_to_string ipv6_to_string to_be_bytes.

(** ** What the proxy understands *)

(** Over SOCKS4 an IPv6 address is sent as text, and no authentication as an empty string. *)
Definition as_received (q : SocksRequest) : SocksRequest :=
  mkSocksRequest (sq_version q) (sq_cmd q)
    (match sq_version q, sq_addr q with
     | SocksV4, Ip (V6 a) => Hostname (ipv6_to_string a)
     | _, a => a
     end)
    (sq_port q)
    (match sq_auth q with Socks4 [] => NoAuth | a => a end).

(** The proxy reads the addresses 0.0.0.1 to 0.0.0.255 as the mark of a host name. *)
Definition v4_representable (q : SocksRequest) : Prop :=
  match sq_version q, sq_addr q with
  | SocksV4, Ip (V4 a) => a = 0 ∨ 256 ≤ a
  | _, _ => True
  end.

Lemma request_new_inv v c a p u q :
  SocksRequest_new v c a p u = Ok q →
  q = mkSocksRequest v c a p u ∧ SocksAuth_validate u v = Ok tt ∧
  ∀ a', SocksRequest_new v c a' p u = Ok (mkSocksRequest v c a' p u) ∧
        SocksRequest_new v c a' p NoAuth = Ok (mkSocksRequest v c a' p NoAuth).
Proof.
  unfold SocksRequest_new. do 2 (case_match; [done|]).
  destruct (SocksAuth_validate u v) as [[]|e|] eqn:Hv; [|done..]. by intros [= <-].
Qed.

Section conversation.
Context (q : SocksRequest) (Hq : request_wf q).

Lemma as_received_new a' :
  SocksRequest_new (sq_version q) (sq_cmd q) a' (sq_port q)
    (match sq_auth q with Socks4 [] => NoAuth | a => a end)
  = Ok (mkSocksRequest (sq_version q) (sq_cmd q) a' (sq_port q)
          (match sq_auth q with Socks4 [] => NoAuth | a => a end)).
Proof.
  destruct Hq as ((_ & _ & Hn)%request_new_inv & _).
  destruct (sq_auth q) as [|[|x d]|]; apply Hn.
Qed.

(** *** SOCKS4 *)

Definition v4_user : list Z := match sq_auth q with Socks4 s => s | _ => [] end.
Definition v4_ip : Z := match sq_addr q with Ip (V4 a) => a | _ => 1 end.
Definition v4_tail : list Z :=
  match sq_addr q with Ip (V4 _) => [] | a => SocksAddr_to_string a ++ [0] end.

Lemma v4_message_eq :
  sq_version q = SocksV4 →
  Client.v4_message q =
    Ok ([4] ++ [sq_cmd q] ++ to_be_bytes 2 (sq_port q) ++ to_be_bytes 4 v4_ip ++
        (v4_user ++ [0]) ++ v4_tail) ∧ 0 ∉ v4_user.
Proof.
  intros Hv. destruct Hq as ((_ & Ha & _)%request_new_inv & _). rewrite Hv in Ha.
  unfold Client.v4_message, v4_user, v4_ip, v4_tail, SocksAuth_validate in *.
  destruct (sq_addr q) as [h|[a|a]], (sq_auth q) as [|d|]; try done; simpl in Ha;
    split; try set_solver;
    try (destruct (contains_zeros d) eqn:Hz; [done|]; by apply contains_zeros_spec in Hz);
    unfold write_u16, write_u32, write_u8, write_all, vec_writer; simpl;
    by rewrite <-?(assoc_L app).
Qed.

Lemma v4_shift : v4_representable q → sq_version q = SocksV4 →
  negb (v4_ip =? 0) && (Z.shiftr v4_ip 8 =? 0) =
    match sq_addr q with Ip (V4 _) => false | _ => true end.
Proof.
  unfold v4_representable, v4_ip. intros Hr Hv. rewrite Hv in Hr.
  destruct (sq_addr q) as [h|[a|a]]; [done| |done].
  destruct Hr as [->|Hr]; [done|]. destruct Hq as (_ & _ & Ha).
  rewrite Z.shiftr_div_pow2 by lia. apply andb_false_iff. right. apply Z.eqb_neq.
  pose proof (Z.div_le_mono 256 a (2 ^ 8) ltac:(lia) Hr). change (256 / 2 ^ 8) with 1 in H. lia.
Qed.

Lemma v4_ip_range : in_uint u32_max v4_ip.
Proof. unfold v4_ip. destruct Hq as (_ & _ & Ha). by destruct (sq_addr q) as [h|[a|a]]. Qed.

Lemma v4_auth_eq :
  sq_version q = SocksV4 →
  match v4_user with [] => NoAuth | _ => Socks4 v4_user end =
  match sq_auth q with Socks4 [] => NoAuth | a => a end.
Proof.
  intros Hv. destruct Hq as ((_ & Ha & _)%request_new_inv & _). rewrite Hv in Ha.
  unfold v4_user. by destruct (sq_auth q) as [|[]|].
Qed.

(** The proxy reads the host name, when there is one. *)
Lemma proxy_reads_tail h :
  v4_representable q → sq_version q = SocksV4 →
  hreads (H:=SocksProxyHandshake)
    (if negb (v4_ip =? 0) && (Z.shiftr v4_ip 8 =? 0) then
       hostname ← rd (take_until 0);
       if negb (utf8_valid hostname) then fail Syntax
       else
         hostname ← lift (map_err (λ _, Decode (InvalidMessage "hostname too long"))
                            (SocksHostname_try_from hostname));
         mret (Hostname hostname)
     else mret (Ip (V4 v4_ip))) h v4_tail h (sq_addr (as_received q)).
Proof.
  intros Hr Hv. rewrite v4_shift by done. destruct Hq as (_ & _ & Ha).
  unfold as_received, v4_tail, v4_ip. rewrite Hv.
  apply to_string_hostname in Ha as (Hu & Hl & Hz).
  assert (∀ t, utf8_valid t = true → (length t ≤ 255)%nat → 0 ∉ t →
    hreads (H:=SocksProxyHandshake) (hostname ← rd (take_until 0);
       if negb (utf8_valid hostname) then fail Syntax
       else
         hostname ← lift (map_err (λ _, Decode (InvalidMessage "hostname too long"))
                            (SocksHostname_try_from hostname));
         mret (Hostname hostname)) h (t ++ [0]) h (Hostname t)) as Ht.
  { intros t Hu' Hl' Hz'. rewrite <-(app_nil_r (t ++ [0])).
    eapply hreads_rd; [by apply reads_until|]. rewrite Hu'. cbn [negb].
    rewrite hostname_ok by done. apply hreads_ret. }
  destruct (sq_addr q) as [t|[a|a]]; [by apply Ht|apply hreads_ret|by apply Ht].
Qed.

Definition proxy_done (q : SocksRequest) : SocksProxyHandshake := mkProxy PDone None (Some q).

Lemma proxy_reads_v4 :
  sq_version q = SocksV4 → v4_representable q → ∃ m h,
  Client.v4_message q = Ok m ∧ handles Proxy.new m h (inr (as_received q)).
Proof.
  intros Hv Hr. destruct (v4_message_eq Hv) as [Hm Hz]. eexists _, _. split; [exact Hm|].
  eapply (handles_finish _ _ (proxy_done (as_received q))); [|done].
  apply hreads_accepts. unfold handshake_impl, Proxy.proxy_handshake, Proxy.proxy_handshake_impl.
  hreads_tac. apply hreads_peek. hreads_tac. cbn [px_state Proxy.new Z.eqb Pos.eqb].
  apply (hreads_rd take_u8 _ _ [4] _ _ 4); [apply reads_u8|]. hreads_tac.
  rewrite bool_decide_eq_true_2 by done. cbn [negb].
  apply (hreads_rd take_u8 _ _ [sq_cmd q] _ _ (sq_cmd q)); [apply reads_u8|].
  eapply hreads_rd; [by apply reads_u16, Hq|].
  eapply hreads_rd; [by apply reads_u32, v4_ip_range|].
  eapply hreads_rd; [by apply reads_until|]. cbv zeta.
  rewrite <-(app_nil_r v4_tail). eapply (hreads_bind _ _ _ Proxy.new); [by apply proxy_reads_tail|].
  eapply hreads_lift.
  { rewrite v4_auth_eq, <-Hv by done. apply as_received_new. }
  hreads_tac.
Qed.
(** *** SOCKS5 *)

Definition client_at (st : ClientState) : SocksClientHandshake := mkClient q st None.

Lemma proxy_reads_methods :
  sq_version q = SocksV5 → ∃ m,
  Client.v5_methods q = Ok m ∧ (0 < length m ≤ 4)%nat ∧
  match sq_auth q with
  | NoAuth => handles Proxy.new m (mkProxy PSocks5Wait (Some NoAuth) None) (inl [5; 0])
  | _ => handles Proxy.new m (mkProxy PSocks5Username None None) (inl [5; 2])
  end.
Proof.
  intros Hv. destruct Hq as ((_ & Ha & _)%request_new_inv & _). rewrite Hv in Ha.
  unfold Client.v5_methods. destruct (sq_auth q) as [| |u p]; [|done|];
    eexists; (split; [reflexivity|]); (split; [simpl; lia|]);
    apply handles_reply; (split; [done|reflexivity]).
Qed.

Lemma client_reads_method :
  (∀ m, Client.generate_v5_username_auth q = Ok m →
    handles (client_at CSocks5AuthWait) [5; 2] (client_at CSocks5UsernameWait) (inl m)) ∧
  (∀ m, Client.generate_v5_command q = Ok m →
    handles (client_at CSocks5AuthWait) [5; 0] (client_at CSocks5Wait) (inl m) ∧
    handles (client_at CSocks5UsernameWait) [1; 0] (client_at CSocks5Wait) (inl m)).
Proof.
  split; [|split]; intros; apply handles_reply; apply hreads_accepts;
    unfold handshake_impl, Client.client_handshake, Client.client_handshake_impl; hreads_tac;
    cbn [client_at cl_state].
  - apply (hreads_rd take_u8 _ _ [5] _ _ 5); [apply reads_u8|]. cbn [Z.eqb Pos.eqb negb].
    apply (hreads_rd take_u8 _ _ [2] [] _ 2); [apply reads_u8|]. hreads_tac.
    cbn [Z.eqb Pos.eqb negb USERNAME_PASSWORD]. eapply (hreads_bind _ _ _ _ [] []).
    + eapply hreads_lift; [done|]. hreads_tac.
    + hreads_tac.
  - apply (hreads_rd take_u8 _ _ [5] _ _ 5); [apply reads_u8|]. cbn [Z.eqb Pos.eqb negb].
    apply (hreads_rd take_u8 _ _ [0] [] _ 0); [apply reads_u8|]. hreads_tac.
    cbn [Z.eqb Pos.eqb negb USERNAME_PASSWORD NO_AUTHENTICATION]. eapply (hreads_bind _ _ _ _ [] []).
    + eapply hreads_lift; [done|]. hreads_tac.
    + hreads_tac.
  - apply (hreads_rd take_u8 _ _ [1] _ _ 1); [apply reads_u8|]. cbn [Z.eqb Pos.eqb negb].
    apply (hreads_rd take_u8 _ _ [0] [] _ 0); [apply reads_u8|]. cbn [Z.eqb Pos.eqb negb].
    apply hreads_set, hreads_get. eapply hreads_lift; [done|]. hreads_tac.
Qed.
Lemma proxy_reads_username u p :
  sq_auth q = Username u p → sq_version q = SocksV5 → ∃ m,
  Client.generate_v5_username_auth q = Ok m ∧ (length m ≤ 513)%nat ∧
  handles (mkProxy PSocks5Username None None) m
    (mkProxy PSocks5Wait (Some (sq_auth q)) None) (inl [1; 0]).
Proof.
  intros Hu Hv. destruct Hq as ((_ & Ha & _)%request_new_inv & _). rewrite Hu, Hv in Ha.
  unfold SocksAuth_validate in Ha. simpl in Ha.
  destruct (255 <? length u)%nat eqn:Hlu; [done|]. destruct (255 <? length p)%nat eqn:Hlp; [done|].
  apply Nat.ltb_ge in Hlu, Hlp.
  unfold Client.generate_v5_username_auth, nested_finish. rewrite Hu.
  rewrite !(proj2 (Z.ltb_lt _ _)) by (change (256 ^ Z.of_nat 1) with 256; lia). cbn [map_err].
  rewrite !to_be_bytes_1 by lia. eexists. split; [reflexivity|].
  unfold write_u8, write_all, vec_writer. rewrite !length_app. simpl length. split; [lia|].
  apply handles_reply. rewrite <-!(assoc_L app). cbn [app]. apply hreads_accepts.
  unfold handshake_impl, Proxy.proxy_handshake, Proxy.proxy_handshake_impl. hreads_tac.
  apply hreads_peek. hreads_tac. cbn [px_state Z.eqb Pos.eqb].
  apply (hreads_rd take_u8 _ _ [1] _ _ 1); [apply reads_u8|]. cbn [Z.eqb Pos.eqb negb].
  apply (hreads_rd take_u8 _ _ [Z.of_nat (length u)] _ _ (Z.of_nat (length u))); [apply reads_u8|].
  eapply hreads_rd; [by apply reads_take'; rewrite Nat2Z.id|].
  apply (hreads_rd take_u8 _ _ [Z.of_nat (length p)] _ _ (Z.of_nat (length p))); [apply reads_u8|].
  eapply hreads_rd_last; [by apply reads_take'; rewrite Nat2Z.id|].
  hreads_tac.
Qed.

Lemma proxy_reads_command :
  sq_version q = SocksV5 → ∃ m h,
  Client.generate_v5_command q = Ok m ∧ (length m ≤ 262)%nat ∧
  handles (mkProxy PSocks5Wait (Some (sq_auth q)) None) m h (inr q).
Proof.
  intros Hv. destruct Hq as (Hn & Hp & Ha). destruct (addr_write_ok _ Ha) as (bs & Hw & Hl).
  unfold Client.generate_v5_command. rewrite addr_write_app, Hw. simpl map_err. rewrite ok_bind.
  eexists _, _. split; [reflexivity|]. unfold write_u8, write_u16, write_all, vec_writer.
  rewrite !length_app, length_to_be_bytes. simpl length. split; [lia|].
  eapply (handles_finish _ _ (proxy_done q)); [|done].
  cbn [app]. apply hreads_accepts.
  unfold handshake_impl, Proxy.proxy_handshake, Proxy.proxy_handshake_impl. hreads_tac.
  apply hreads_peek. hreads_tac. cbn [px_state Z.eqb Pos.eqb].
  apply (hreads_rd take_u8 _ _ [5] _ _ 5); [apply reads_u8|]. hreads_tac.
  rewrite bool_decide_eq_true_2 by done. cbn [negb].
  apply (hreads_rd take_u8 _ _ [sq_cmd q] _ _ (sq_cmd q)); [apply reads_u8|].
  apply (hreads_rd take_u8 _ _ [0] _ _ 0); [apply reads_u8|].
  eapply hreads_rd; [by apply reads_extract, reads_addr|].
  eapply hreads_rd_last; [by apply reads_u16|]. apply hreads_get, hreads_set.
  eapply hreads_lift; [reflexivity|]. eapply hreads_lift; [by rewrite <-Hv|]. hreads_tac.
Qed.

(** *** The final reply *)

#[local] Transparent to_be_bytes.

Definition expected_reply (status : Z) : SocksReply :=
  mkSocksReply
    (match sq_version q with
     | SocksV4 => SocksStatus.from_socks4_status (SocksStatus.into_socks4_status status)
     | SocksV5 => status
     end) (Ip (V4 0)) 0.

Lemma client_reads_reply status : ∃ m h,
  Proxy.reply (as_received q) status None = Ok m ∧ (length m ≤ 10)%nat ∧
  handles (client_at (match sq_version q with SocksV4 => CSocks4Wait | SocksV5 => CSocks5Wait end))
    m h (inr (expected_reply status)).
Proof.
  unfold Proxy.reply, expected_reply. simpl sq_version. destruct (sq_version q); eexists _, _;
    (split; [reflexivity|]); (split; [simpl; lia|]);
    (eapply handles_finish; [split; [done|]|]); reflexivity.
Qed.
End conversation.

(** ** The whole conversation *)

Definition answer (status : Z) (q : SocksRequest) : option (list Z) :=
  match Proxy.reply q status None with Ok m => Some m | _ => None end.

Definition start (q : SocksRequest) (size : nat) :
    Net (C:=SocksClientHandshake) (OC:=SocksReply) (S:=SocksProxyHandshake) (OS:=SocksRequest) :=
  mkNet (mkPeer (Client.new q) (Buffer_with_size size) None)
    (mkPeer Proxy.new (Buffer_with_size size) None) [] [] false.

Lemma as_received_v5 q : request_wf q → sq_version q = SocksV5 → as_received q = q.
Proof.
  intros ((_ & Ha & _)%request_new_inv & _) Hv. destruct q as [v c a p u]. unfold as_received.
  simpl in *. subst v. by destruct u as [|[|x d]|], a as [|[]].
Qed.

Lemma conversation_v4 q status size :
  request_wf q → v4_representable q → sq_version q = SocksV4 →
  (∀ m, Client.v4_message q = Ok m → (length m ≤ size)%nat) → (513 ≤ size)%nat →
  ∃ m n, Client.v4_message q = Ok m ∧ m ≠ [] ∧
    talk (answer status) size (as_received q) (expected_reply q status) true
      (client_at q CSocks4Wait) Proxy.new m n.
Proof.
  intros Hq Hr Hv Hm Hs. destruct (proxy_reads_v4 q Hq Hv Hr) as (m & h & Hmsg & Hh).
  destruct (client_reads_reply q status) as (m' & h' & Hrep & Hl & Hc). rewrite Hv in Hc.
  eexists m, _. split; [done|]. split; [exact (handles_nonempty _ _ _ _ Hh)|].
  eapply talk_end; [by apply Hm|done| |..|done]; [|lia]. unfold answer. by rewrite Hrep.
Qed.

Lemma conversation_v5 q status size :
  request_wf q → sq_version q = SocksV5 → (513 ≤ size)%nat →
  ∃ m n, Client.v5_methods q = Ok m ∧ m ≠ [] ∧
    talk (answer status) size (as_received q) (expected_reply q status) true
      (client_at q CSocks5AuthWait) Proxy.new m n.
Proof.
  intros Hq Hv Hs. destruct (proxy_reads_methods q Hq Hv) as (m1 & Hm1 & Hl1 & Hh1).
  destruct (proxy_reads_command q Hq Hv) as (m3 & h3 & Hm3 & Hl3 & Hh3).
  destruct (client_reads_reply q status) as (m4 & h4 & Hrep & Hl4 & Hc4). rewrite Hv in Hc4.
  destruct (client_reads_method q) as [Hc1 Hc2]. destruct (Hc2 m3 Hm3) as [Hc2a Hc2b].
  assert (∀ c s, handles s m3 h3 (inr q) → c = client_at q CSocks5Wait →
    talk (answer status) size (as_received q) (expected_reply q status) true c s m3 (3 + length m4)) as Hend.
  { intros c s Hs3 ->. rewrite as_received_v5 in * by done.
    eapply talk_end; [lia|done| |..|done]; [|lia]. unfold answer. by rewrite Hrep. }
  destruct (sq_auth q) as [|d|u p] eqn:Hu.
  - eexists m1, _. split; [done|]. split; [by intros ->; simpl in Hl1; lia|].
    eapply talk_server; [lia|done|]. eapply talk_client; [simpl; lia|done|]. by apply Hend.
  - destruct Hq as ((_ & Ha & _)%request_new_inv & _). by rewrite Hu, Hv in Ha.
  - destruct (proxy_reads_username q Hq u p Hu Hv) as (m2 & Hm2 & Hl2 & Hh2).
    eexists m1, _. split; [done|]. split; [by intros ->; simpl in Hl1; lia|].
    eapply talk_server; [lia|done|]. eapply talk_client; [simpl; lia|by apply Hc1|].
    eapply talk_server; [lia|done|]. eapply talk_client; [simpl; lia|done|]. apply Hend; [|done].
    by rewrite Hu.
Qed.

Lemma client_opens q m c r :
  match sq_version q with
  | SocksV4 => Client.v4_message q = Ok m ∧ c = client_at q CSocks4Wait
  | SocksV5 => Client.v5_methods q = Ok m ∧ c = client_at q CSocks5AuthWait
  end → handshake_impl (Client.new q, r) = ((c, r), Ok (Reply m)).
Proof.
  change (handshake_impl (Client.new q, r)) with
    ((match sq_version q with SocksV4 => Client.send_v4 | SocksV5 => Client.send_v5_initial end)
       (Client.new q, r)).
  destruct (sq_version q); intros [Hm ->].
  - unfold Client.send_v4, get_self, gets, lift, mbind, ST_mbind. cbn [fst cl_request Client.new].
    by rewrite Hm.
  - unfold Client.send_v5_initial, get_self, gets, lift, mbind, ST_mbind.
    cbn [fst cl_request Client.new]. by rewrite Hm.
Qed.

Lemma start_phase q status size :
  request_wf q → v4_representable q → (513 ≤ size)%nat →
  (∀ m, sq_version q = SocksV4 → Client.v4_message q = Ok m → (length m ≤ size)%nat) →
  ∃ n, phase (answer status) size (as_received q) (expected_reply q status) (start q size) n.
Proof.
  intros Hq Hr Hs Hm.
  assert (∃ m n c, talk (answer status) size (as_received q) (expected_reply q status) true c Proxy.new m n ∧
    m ≠ [] ∧ handshake_impl (Client.new q, reader_at [] 0) = ((c, reader_at [] 0), Ok (Reply m)))
    as (m & n & c & Ht & Hne & Hi).
  { destruct (sq_version q) eqn:Hv.
    - destruct (conversation_v4 q status size) as (m & n & Hmsg & Hne & Ht); [done..|auto|done|].
      exists m, n, (client_at q CSocks4Wait). split_and!; [done..|].
      apply client_opens. by rewrite Hv.
    - destruct (conversation_v5 q status size) as (m & n & Hmsg & Hne & Ht); [done..|].
      exists m, n, (client_at q CSocks5AuthWait). split_and!; [done..|].
      apply client_opens. by rewrite Hv. }
  assert (buffer_ok (Buffer_with_size size)) by (unfold buffer_ok; simpl; lia).
  eexists. eapply ph_start; try done; exact (length_replicate _ _).
Qed.

(** C7: a client that asks for any valid request and a proxy, each with its own buffer and any
    precision of reads, reach the end of the handshake in a bounded number of steps, whichever
    of them runs first and however the bytes between them are cut; none of them fails on the
    way, no run stops before the end, and at the end the proxy has the client's request and the
    client the proxy's status.  Over SOCKS4 an IPv6 address arrives as a host name and an empty
    authentication string as none; over SOCKS5 the request is the same.  The SOCKS4 message has
    to fit into the buffer, and an IPv4 address must not be one of 0.0.0.1 to 0.0.0.255. *)
Theorem socks_agree (P : ReadPrecision) (q : SocksRequest) (status : Z) (size : nat) :
  request_wf q → v4_representable q → (513 ≤ size)%nat →
  (∀ m, sq_version q = SocksV4 → Client.v4_message q = Ok m → (length m ≤ size)%nat) →
  (sq_version q = SocksV5 → as_received q = q) ∧
  ∃ bound, ∀ k σ, steps (answer status) P k (start q size) σ →
    (k ≤ bound)%nat ∧ net_fine P σ ∧
    (net_final (as_received q) (expected_reply q status) σ
     ∨ ∃ σ', net_step (answer status) P σ σ').
Proof.
  intros Hq Hr Hs Hm. split; [by apply as_received_v5|].
  destruct (start_phase q status size Hq Hr Hs Hm) as [bound Hp]. exists bound. intros k σ Hk.
  destruct (net_runs _ P _ _ _ _ _ _ _ Hp Hk) as (n' & Hp' & Hle). split; [lia|].
  split; [by eapply phase_fine|by eapply phase_live].
Qed.
