(* ===== verification/SocksSafe.v ===== *)
(** * SocksSafe: a SOCKS proxy whose client sends anything

    [Tame I m]: from a handshake that satisfies [I], step [m] does not panic, and an error is
    one that the peer caused.  Every step of the proxy is tame, and a request that it returns is
    well-formed, so that every reply to it can be encoded. *)

From S2P Require Import Prelude Text Bytes Codec RelayMsg StateM Socks SocksFrame SocksTalk SocksAgree.

(** The errors that mean that the peer broke the protocol. *)
Definition peer_fault (e : SocksError) : Prop :=
  match e with
  | Syntax | Decode _ | BadProtocol _ | NotImplemented _ | MessageTooLong _ => True
  | _ => False
  end.

Definition tame_result {A} (x : res SocksError A) : Prop :=
  match x with Ok _ => True | Err e => peer_fault e | Panic => False end.

Class Tame {H A} (I : H → Prop) (m : ST (H * Reader) SocksError A) : Prop :=
  tame h r : I h → rd_wf r → rd_wf (m (h, r)).1.2 ∧ tame_result (m (h, r)).2.

Section tame.
Context {H : Type} {I : H → Prop}.
Notation HS := (ST (H * Reader) SocksError).

Lemma tame_rd {A B} (f : RD A) (k : A → HS B) : Safe f → (∀ v, Tame I (k v)) → Tame I (rd f ≫= k).
Proof.
  intros Sf Hk h r Hi Hr. unfold mbind, ST_mbind, rd. cbn [fst snd].
  destruct (Sf r Hr) as (Hp & _ & _ & Hw). destruct (f r) as [r' [v|e|]]; [by apply Hk|done|done].
Qed.
Lemma tame_lift {A} (x : res SocksError A) : tame_result x → Tame I (lift x).
Proof. by intros Hx h r Hi Hr. Qed.
Lemma tame_lift_bind {A B} (x : res SocksError A) (k : A → HS B) :
  tame_result x → (∀ v, Tame I (k v)) → Tame I (lift x ≫= k).
Proof. intros Hx Hk h r Hi Hr. unfold mbind, ST_mbind, lift. destruct x; [by apply Hk|done|done]. Qed.
Lemma tame_lift_ok {A B} (x : res SocksError A) a (k : A → HS B) :
  x = Ok a → Tame I (k a) → Tame I (lift x ≫= k).
Proof. intros ->. intros Hk h r. apply Hk. Qed.
Lemma tame_ret {A} (a : A) : Tame I (mret a : HS A).
Proof. by intros h r Hi Hr. Qed.
Lemma tame_set {B} (f : H → H) (k : unit → HS B) :
  Tame (λ _, True) (k tt) → Tame I (set_self f ≫= k).
Proof. intros Hk h r Hi Hr. by apply Hk. Qed.
Lemma tame_get {A B} (f : H → A) (k : A → HS B) :
  (∀ h, I h → Tame I (k (f h))) → Tame I (get_self f ≫= k).
Proof. intros Hk h r Hi Hr. by apply Hk. Qed.
Lemma tame_bind {A B} (m : HS A) (k : A → HS B) :
  Tame I m → (∀ v, Tame (λ _, True) (k v)) → Tame I (m ≫= k).
Proof.
  intros Hm Hk h r Hi Hr. unfold mbind, ST_mbind. specialize (Hm h r Hi Hr).
  destruct (m (h, r)) as [[h1 r1] [v|e|]]; cbn [fst snd] in *; [|done..].
  destruct Hm as [Hm _]. by apply Hk.
Qed.
End tame.

Lemma tame_request v c a p u : tame_result (SocksRequest_new v c a p u).
Proof.
  unfold SocksRequest_new. do 2 (case_match; [done|]).
  unfold SocksAuth_validate. destruct u; simpl; [done|by case_match..].
Qed.

Lemma tame_hostname s msg :
  tame_result (map_err (λ _, Decode (InvalidMessage msg)) (SocksHostname_try_from s)).
Proof. unfold SocksHostname_try_from. by repeat case_match. Qed.

#[export] Instance safe_socks_addr : Safe SocksAddr_take_from.
Proof.
  assert (∀ s msg, Safe (rd_lift (map_err (λ _, InvalidMessage msg) (SocksHostname_try_from s)))) as Hn.
  { intros s msg r Hr. unfold rd_lift, SocksHostname_try_from. by repeat case_match. }
  unfold SocksAddr_take_from, take_ipv4, take_ipv6.
  apply safe_bind; [apply _|intros]. repeat case_match; apply _.
Qed.

Ltac tame_tac :=
  repeat first
    [ done
    | progress cbv zeta
    | match goal with
      | |- Tame _ (rd _ ≫= _) => apply tame_rd; [apply _|intros ?]
      | H : negb (bool_decide _) = true |- _ => by vm_compute in H
      | |- Tame _ (lift (SocksVersion_try_from _) ≫= _) => eapply tame_lift_ok; [reflexivity|]
      | |- Tame _ (lift _ ≫= _) =>
          apply tame_lift_bind; [first [apply tame_request|apply tame_hostname]|intros ?]
      | |- Tame _ (fail _) => apply tame_lift
      | |- Tame _ (mret _) => apply tame_ret
      | |- Tame _ (set_self _ ≫= _) => apply tame_set
      | |- Tame _ (get_self _ ≫= _) => apply tame_get
      | |- Tame _ (_ ≫= _) => apply tame_bind; [|intros ?]
      | |- Tame _ (if _ then _ else _) => case_match
      | |- Tame _ (let '(_, _) := ?x in _) => destruct x
      end ].

(** The byte that was looked at is the first one that is read. *)
Lemma peek1 r x : peek 1 r = Ok x → ∃ y, x = [y].
Proof.
  unfold peek. case_match eqn:Hn; [done|]. intros [= <-]. apply Nat.ltb_ge in Hn.
  unfold remaining in Hn. destruct (drop (rd_off r) (rd_b r)) as [|y l] eqn:Hd; [|by exists y].
  apply (f_equal length) in Hd. rewrite length_drop in Hd. simpl in Hd. lia.
Qed.

Lemma peek_take_u8 y r : peek 1 r = Ok [y] → take_u8 r = (set_off (rd_off r + 1) r, Ok y).
Proof.
  intros Hp. unfold take_u8, rd_take, advance, mbind, RD_mbind. by rewrite Hp.
Qed.

Definition tame_on {A} (y : Z) (m : ST (SocksProxyHandshake * Reader) SocksError A) (I : SocksProxyHandshake → Prop) : Prop :=
  ∀ h r, I h → rd_wf r → peek 1 r = Ok [y] → rd_wf (m (h, r)).1.2 ∧ tame_result (m (h, r)).2.

Lemma tame_first {A} I y (k : Z → ST (SocksProxyHandshake * Reader) SocksError A) :
  Tame I (k y) → tame_on y (rd take_u8 ≫= k) I.
Proof.
  intros Hk h r Hi Hr Hp. pose proof (safe_u8 r Hr) as (_ & _ & _ & Hw).
  unfold mbind, ST_mbind, rd. cbn [fst snd]. rewrite (peek_take_u8 y r Hp) in *.
  by apply Hk.
Qed.

Lemma tame_s4 : tame_on 4 Proxy.s4 (λ _, True).
Proof. apply tame_first. tame_tac. Qed.

Lemma tame_s5_initial : tame_on 5 Proxy.s5_initial (λ _, True).
Proof. apply tame_first. tame_tac. Qed.

Lemma tame_s5_uname : tame_on 1 Proxy.s5_uname (λ _, True).
Proof. apply tame_first. tame_tac. Qed.

Lemma tame_s5 : tame_on 5 Proxy.s5 (λ h, px_socks5_auth h ≠ None).
Proof.
  apply tame_first. tame_tac. intros h Hh. tame_tac. apply tame_lift. by destruct (px_socks5_auth h).
Qed.

(** ** The states of a proxy that has not finished *)

Definition proxy_live (h : SocksProxyHandshake) : Prop :=
  match px_state h with
  | PInitial | PSocks5Username => True
  | PSocks5Wait => px_socks5_auth h ≠ None
  | PDone | PFailed => False
  end.

Lemma tame_proxy : Tame proxy_live Proxy.proxy_handshake_impl.
Proof.
  intros h r Hl Hr. unfold Proxy.proxy_handshake_impl.
  unfold mbind, ST_mbind, rd, Proxy.rd_peek, get_self, gets. cbn [fst snd].
  destruct (peek 1 r) as [x|e|] eqn:Hp; [| done | unfold peek in Hp; by case_match].
  destruct (peek1 r x Hp) as [y ->]. cbn [map_err lift expect lookup list_lookup].
  unfold proxy_live in Hl.
  destruct (px_state h); [| | |done..]; repeat case_match; try done; zify_bool; subst;
    [by apply tame_s4|by apply tame_s5_initial|by apply tame_s5_uname|by apply tame_s5].
Qed.

(** ** What a complete message leads to *)

Definition good (r : Reader) : Prop := rd_wf r ∧ bytes_ok (rd_b r).

Lemma rd_ok {H A} (f : RD A) `{!Safe f} (s s' : H * Reader) v :
  good s.2 → rd f s = (s', Ok v) → good s'.2 ∧ s'.1 = s.1 ∧ f s.2 = (s'.2, Ok v).
Proof.
  intros [Hw Hb]. unfold rd. pose proof (safe (f:=f) s.2 Hw) as (_ & Hs & _ & Hw').
  destruct (f s.2) as [r [x|e|]]; cbn [map_err]; [|done..]. intros [= <- <-]. simpl in *.
  unfold good. by rewrite Hs.
Qed.

Lemma take_array_range n r r' b :
  good r → extract (take_array n) r = (r', Ok b) → 0 ≤ from_be_bytes b < 256 ^ Z.of_nat n.
Proof.
  intros [Hw Hb]. unfold extract, take_array.
  destruct (decide (n ≤ remaining r)%nat) as [Hn|Hn]; [|by rewrite rd_take_err by lia].
  rewrite rd_take_ok by done. intros [= _ <-].
  pose proof (from_be_bytes_bound (take n (drop (rd_off r) (rd_b r)))) as Hr.
  rewrite length_take, length_drop in Hr. unfold remaining in Hn.
  rewrite Nat.min_l in Hr by lia. by apply Hr, Forall_take, Forall_drop.
Qed.

Lemma take_u16_range r r' x : good r → take_u16 r = (r', Ok x) → in_uint u16_max x.
Proof.
  intros Hg. unfold take_u16, mbind, RD_mbind.
  destruct (extract (take_array 2) r) as [r1 [b|e|]] eqn:He; [|done..]. intros [= _ <-].
  apply take_array_range in He; [|done]. unfold in_uint, u16_max. simpl in He. lia.
Qed.
Lemma take_u32_range r r' x : good r → take_u32 r = (r', Ok x) → in_uint u32_max x.
Proof.
  intros Hg. unfold take_u32, mbind, RD_mbind.
  destruct (extract (take_array 4) r) as [r1 [b|e|]] eqn:He; [|done..]. intros [= _ <-].
  apply take_array_range in He; [|done]. unfold in_uint, u32_max. simpl in He. lia.
Qed.
Lemma take_u128_range r r' x : good r → take_u128 r = (r', Ok x) → in_uint u128_max x.
Proof.
  intros Hg. unfold take_u128, mbind, RD_mbind.
  destruct (extract (take_array 16) r) as [r1 [b|e|]] eqn:He; [|done..]. intros [= _ <-].
  apply take_array_range in He; [|done]. unfold in_uint, u128_max. simpl in He. lia.
Qed.

Lemma extract_ok {A} (f : RD A) r r' v : extract f r = (r', Ok v) → f r = (r', Ok v).
Proof. unfold extract. by destruct (f r) as [? [?|?|]]. Qed.

Lemma read_addr_wf r r' a : good r → SocksAddr_take_from r = (r', Ok a) → addr_wf a.
Proof.
  intros Hg. unfold SocksAddr_take_from. unfold mbind at 1, RD_mbind at 1.
  pose proof (safe_u8 r (proj1 Hg)) as (_ & Hb & _ & Hw).
  destruct (take_u8 r) as [r1 [atype|e|]]; [|done..]. cbn [fst] in *.
  assert (good r1) as Hg1 by (split; [done|]; rewrite Hb; apply Hg).
  repeat case_match; unfold mbind, RD_mbind.
  - destruct (extract take_ipv4 r1) as [r2 [x|e|]] eqn:He; [|done..]. intros [= _ <-].
    apply extract_ok, take_u32_range in He; done.
  - destruct (take_u8 r1) as [r2 [n|e|]]; [|done..].
    destruct (rd_take (Z.to_nat n) r2) as [r3 [h|e|]]; [|done..].
    destruct (utf8_valid h) eqn:Hu; [|done]. cbn [negb]. unfold rd_lift.
    destruct (SocksHostname_try_from h) as [x|e|] eqn:Hh; [|done..]. intros [= _ <-].
    apply hostname_inv in Hh as (-> & ? & ?). done.
  - destruct (extract take_ipv6 r1) as [r2 [x|e|]] eqn:He; [|done..]. intros [= _ <-].
    apply extract_ok, take_u128_range in He; done.
  - done.
Qed.

Ltac socks_inv :=
  repeat first
    [ progress st_inv
    | match goal with
      | H : set_self _ _ = _ |- _ => unfold set_self in H
      | H : get_self _ _ = _ |- _ => unfold get_self in H
      | G : good ?s.2, H : rd ?f ?s = (_, Ok _) |- _ =>
          apply rd_ok in H as (? & ? & H); [|apply _|exact G]
      | H : (if ?b then _ else _) _ = (_, Ok _) |- _ => destruct b eqn:?
      end ].

Lemma request_new_wf v c a p u q :
  SocksRequest_new v c a p u = Ok q → in_uint u16_max p → addr_wf a → request_wf q.
Proof.
  intros Hn Hp Ha. pose proof (request_new_inv _ _ _ _ _ _ Hn) as (-> & _ & _). done.
Qed.

Lemma s4_finishes s s' out :
  good s.2 → Proxy.s4 s = (s', Ok out) →
  out = Finished ∧ ∃ q, px_handshake s'.1 = Some q ∧ request_wf q.
Proof.
  intros Hg Hs. unfold Proxy.s4 in Hs. socks_inv; (split; [done|]); eexists; (split; [reflexivity|]);
    (eapply request_new_wf; [eassumption|by eapply take_u16_range; [|eassumption]|]).
  - match goal with H : map_err _ (SocksHostname_try_from ?h) = Ok _ |- _ =>
      destruct (SocksHostname_try_from h) eqn:Hh; simplify_eq/= end.
    apply hostname_inv in Hh as (-> & ? & ?). split_and!; try done. by apply negb_false_iff.
  - by eapply take_u32_range; [|eassumption].
Qed.

Lemma s5_finishes s s' out :
  good s.2 → Proxy.s5 s = (s', Ok out) →
  out = Finished ∧ ∃ q, px_handshake s'.1 = Some q ∧ request_wf q.
Proof.
  intros Hg Hs. unfold Proxy.s5 in Hs. socks_inv. split; [done|]. eexists. split; [reflexivity|].
  eapply request_new_wf; [eassumption|by eapply take_u16_range; [|eassumption]|].
  match goal with H : extract _ _ = _ |- _ => apply extract_ok in H; by eapply read_addr_wf in H end.
Qed.

Lemma s5_initial_replies s s' out :
  good s.2 → Proxy.s5_initial s = (s', Ok out) → (∃ x m, out = Reply (x :: m)) ∧ proxy_live s'.1.
Proof.
  intros Hg Hs. unfold Proxy.s5_initial in Hs. socks_inv; (split; [by eexists _, _|done]).
Qed.

Lemma s5_uname_replies s s' out :
  good s.2 → Proxy.s5_uname s = (s', Ok out) → (∃ x m, out = Reply (x :: m)) ∧ proxy_live s'.1.
Proof. intros Hg Hs. unfold Proxy.s5_uname in Hs. socks_inv. split; [by eexists _, _|done]. Qed.

Lemma proxy_ok h r h' r' out :
  good r → proxy_live h → Proxy.proxy_handshake_impl (h, r) = ((h', r'), Ok out) →
  match out with
  | Reply m => m ≠ [] ∧ proxy_live h'
  | Finished => ∃ q, px_handshake h' = Some q ∧ request_wf q
  end.
Proof.
  intros Hg Hl Hs. unfold Proxy.proxy_handshake_impl in Hs. unfold get_self in Hs. st_inv.
  unfold rd, Proxy.rd_peek in *. simplify_eq/=. unfold proxy_live in Hl.
  destruct (px_state h); [| | |done..];
    repeat match type of Hs with context [if ?b then _ else _] => destruct b end; try done.
  - apply s4_finishes in Hs as [-> ?]; done.
  - apply s5_initial_replies in Hs as [(x & m & ->) ?]; done.
  - apply s5_uname_replies in Hs as [(x & m & ->) ?]; done.
  - apply s5_finishes in Hs as [-> ?]; done.
Qed.

(** ** The driver *)

Definition safe_state (s : SocksProxyHandshake * Buffer) : Prop :=
  proxy_live s.1 ∧ buffer_ok s.2 ∧ bytes_ok (bf_buf s.2).

Lemma drain_bytes n b b' : drain_buffer n b = Ok b' → bytes_ok (bf_buf b) → bytes_ok (bf_buf b').
Proof.
  unfold drain_buffer. case_match; [|done]. intros [= <-] Hb. simpl.
  apply Forall_app_2; [by apply Forall_drop, Forall_take|by apply Forall_drop].
Qed.

(** What [step] returns to the caller of a proxy, and the state it leaves. *)
Lemma proxy_step h b :
  safe_state (h, b) →
  match step h b with
  | (s', Ok (Send _)) => safe_state s'
  | (s', Ok (Recv _)) => s' = (h, b)
  | (_, Ok (HsFinished q)) => request_wf q
  | (_, Err e) => peer_fault e
  | (_, Panic) => False
  end.
Proof.
  intros (Hl & Hb & Hbs). unfold step, call_handshake_impl, from_possibly_incomplete_slice.
  assert (good (mkReader (filled_slice b) 0 PossiblyIncomplete)) as Hg.
  { split; [unfold rd_wf; simpl; lia|]. by apply Forall_take. }
  pose proof (tame_proxy h _ Hl (proj1 Hg)) as [_ Ht].
  pose proof (λ h' r' out, proxy_ok h _ h' r' out Hg Hl) as Hok.
  pose proof (framed_proxy h (filled_slice b) 0%nat ltac:(lia)) as F.
  unfold framed_at, reader_at in F. unfold handshake_impl, Proxy.proxy_handshake.
  destruct (Proxy.proxy_handshake_impl _) as [[h1 r1] [out|e|]]; cbn [fst snd] in *.
  - destruct F as (off & -> & Ho & _). specialize (Hok _ _ _ eq_refl).
    rewrite filled_length in Ho by done.
    destruct (drain_buffer_ok off b Hb) as (b1 & Hd & Hb1 & _); [lia|].
    unfold consumed. cbn [rd_off]. destruct out as [[|x m]|].
    + by destruct Hok.
    + rewrite Hd. split_and!; [apply Hok|done|by eapply drain_bytes].
    + rewrite Hd. destruct Hok as (q & Hq & Hwf). simpl. by rewrite Hq.
  - destruct e as [|e| | | | | | | |]; try done. destruct e; try done.
    destruct F as (-> & _ & _). by destruct (length (unfilled_slice b) <? deficit)%nat.
  - done.
Qed.

Lemma safe_drive P s s' : safe_state s → drive P s s' → safe_state s'.
Proof.
  intros Hs Hd. destruct Hd as [h b h' b' data Hst|h b h' b1 b' d slice data Hst Hsl Hby Hlen Hn];
    pose proof (proxy_step h b Hs) as Hp; rewrite Hst in Hp; [done|]. simplify_eq.
  destruct Hs as (Hl & Hb & Hbs). cbn [fst snd] in *. apply recv_buf_bounds in Hsl.
  pose proof Hn as Hn'. apply note_received_fill in Hn as (Hb' & _ & _); [|done|lia].
  split_and!; [done..|]. unfold RecvStep_note_received, Buffer_note_received in Hn'.
  repeat case_match; simplify_eq/=. repeat apply Forall_app_2; try done;
    by apply Forall_take || by apply Forall_drop.
Qed.

(** C26: whatever bytes a client sends and however they arrive, the proxy's handshake does not
    panic, returns only errors that blame the client, and never the internal errors of the
    framework; and when it finishes, the request is well-formed and every reply to it can be
    encoded. *)
Theorem proxy_survives_any_client (P : ReadPrecision) (n : nat) s :
  reachable (eq (Proxy.new, Buffer_with_size n)) (drive P) s →
  match step s.1 s.2 with
  | (_, Ok (HsFinished q)) =>
      request_wf q ∧
      ∀ status addr, from_option addr_wf True addr → is_ok (Proxy.reply q status addr) = true
  | (_, Ok _) => True
  | (_, Err e) => peer_fault e
  | (_, Panic) => False
  end.
Proof.
  intros Hr. assert (safe_state s) as Hs.
  { revert Hr. apply invariant_reachable; [|apply safe_drive]. intros ? <-. split_and!; [done| |].
    - unfold buffer_ok. simpl. lia.
    - apply Forall_replicate. unfold byte_ok. lia. }
  destruct s as [h b]. pose proof (proxy_step h b Hs) as Hp. simpl.
  destruct (step h b) as [[h' b'] [[]|e|]]; try done. split; [done|].
  intros status addr Ha. unfold Proxy.reply, Proxy.reply_s4, Proxy.reply_s5.
  destruct (sq_version output), addr as [a|]; try done; [by destruct a as [|[]]|].
  destruct (addr_write_ok a Ha) as (bs & Hw & _). by rewrite addr_write_app, Hw.
Qed.

(** ** Concrete runs *)

(** The buffer of a caller that has received [data]. *)
Definition buffer_of (n : nat) (data : list Z) : Buffer :=
  mkBuffer (data ++ replicate (n - length data) 170) (length data).

(** Three bytes that arrive one by one. *)
Lemma three_bytes P :
  reachable (eq (Proxy.new, Buffer_with_size 8)) (drive P) (Proxy.new, buffer_of 8 [5; 1; 0]).
Proof.
  assert (∀ data x, (length data < 8)%nat → byte_ok x → data ∈ [[]; [5]; [5; 1]] →
    drive P (Proxy.new, buffer_of 8 data) (Proxy.new, buffer_of 8 (data ++ [x]))) as Hd.
  { intros data x Hl Hx Hin. rewrite !elem_of_cons, elem_of_nil in Hin.
    destruct Hin as [->|[->|[->|[]]]]; destruct P;
      (eapply (drive_recv _ _ _ _ _ _ _ _ [x]); [reflexivity|reflexivity|by apply Forall_singleton|simpl; lia
        |reflexivity]). }
  eapply reach_step; [|apply (Hd [5; 1] 0); [simpl; lia|unfold byte_ok; lia|set_solver]].
  eapply reach_step; [|apply (Hd [5] 1); [simpl; lia|unfold byte_ok; lia|set_solver]].
  eapply reach_step; [|apply (Hd [] 5); [simpl; lia|unfold byte_ok; lia|set_solver]].
  by apply reach_init.
Qed.

Lemma precise_reads_exact_witness :
  let b := buffer_of 8 [5; 1; 0] in
  reachable (eq (Proxy.new, Buffer_with_size 8)) (drive PreciseReads) (Proxy.new, b) ∧
  (step Proxy.new b).2 = Ok (Send [5; 0]) ∧ filled_slice (step Proxy.new b).1.2 = [].
Proof.
  intros b. split; [apply three_bytes|]. split; [reflexivity|].
  refine (proj1 (precise_reads_exact (mkSocksRequest SocksV5 1 (Ip (V4 0)) 80 NoAuth) 8)
            (Proxy.new, b) (step Proxy.new b).1.1 _ (Send [5; 0]) _ _); [apply three_bytes|reflexivity].
Defined.

Lemma proxy_survives_any_client_witness :
  let s := (Proxy.new, buffer_of 8 [5; 1; 0]) in
  reachable (eq (Proxy.new, Buffer_with_size 8)) (drive ReadAhead) s ∧
  match step s.1 s.2 with
  | (_, Ok (HsFinished q)) =>
      request_wf q ∧
      ∀ status addr, from_option addr_wf True addr → is_ok (Proxy.reply q status addr) = true
  | (_, Ok _) => True
  | (_, Err e) => peer_fault e
  | (_, Panic) => False
  end.
Proof.
  intros s. split; [apply three_bytes|].
  exact (proxy_survives_any_client ReadAhead 8 s (three_bytes ReadAhead)).
Defined.

Definition example_request : SocksRequest :=
  mkSocksRequest SocksV5 SocksCmd.CONNECT (Hostname (str "www.torproject.org")) 443
    (Username (str "hello") (str "world")).

Lemma example_request_wf : request_wf example_request.
Proof.
  split; [reflexivity|]. split; [unfold in_uint; simpl; unfold u16_max; lia|].
  split; [reflexivity|]. split; [simpl; lia|].
  apply contains_zeros_spec. reflexivity.
Qed.

Lemma socks_agree_witness :
  request_wf example_request ∧ v4_representable example_request ∧ as_received example_request = example_request ∧
  ∃ bound, ∀ k σ, steps (answer 0) PreciseReads k (start example_request SOCKS_BUF_LEN) σ →
    (k ≤ bound)%nat ∧ net_fine PreciseReads σ ∧
    (net_final (as_received example_request) (expected_reply example_request 0) σ
     ∨ ∃ σ', net_step (answer 0) PreciseReads σ σ').
Proof.
  split; [apply example_request_wf|]. split; [done|].
  destruct (socks_agree PreciseReads example_request 0 SOCKS_BUF_LEN) as [Hv Hb].
  - apply example_request_wf.
  - done.
  - unfold SOCKS_BUF_LEN. lia.
  - done.
  - split; [by apply Hv|exact Hb].
Defined.

(** ** Where the handshakes do not do what they should *)

(** A SOCKS4 client that asks for an address 0.0.0.1 to 0.0.0.255 sends a message that the
    proxy takes for the start of a SOCKS4a request: it keeps waiting for a host name that never
    comes, and both sides wait for each other. *)
Theorem socks4_low_address_hangs :
  let q := mkSocksRequest SocksV4 SocksCmd.CONNECT (Ip (V4 7)) 80 NoAuth in
  request_wf q ∧
  ∃ m c, handshake_impl (Client.new q, reader_at [] 0) = ((c, reader_at [] 0), Ok (Reply m)) ∧
    (step Proxy.new (buffer_of SOCKS_BUF_LEN m)).2 = Ok (Recv 1) ∧
    (step c (Buffer_with_size SOCKS_BUF_LEN)).2 = Ok (Recv 1).
Proof.
  split.
  - split; [reflexivity|]. unfold in_uint, u16_max. simpl. unfold in_uint, u32_max. lia.
  - eexists _, _. split; [reflexivity|]. split; reflexivity.
Qed.

(** [step] does not put the handshake into its failed state when the handshake returns an
    error, although the trait leaves that to the framework: the second call after a rejected
    SOCKS5 command finds the authentication consumed and reports an internal error. *)
Theorem step_forgets_failure :
  let h := mkProxy PSocks5Wait (Some NoAuth) None in
  let b := buffer_of 64 [5; 2; 0; 1; 127; 0; 0; 1; 0; 80] in
  (step h b).2 = Err (NotImplemented "SOCKS command") ∧
  px_state (step h b).1.1 = PSocks5Wait ∧
  (step (step h b).1.1 (step h b).1.2).2 = Err (SocksBug "called s5 without negotiating auth") ∧
  px_state (handshake h (filled_slice b)).1 = PFailed.
Proof. repeat split. Qed.
