(* ===== verification/ChanHandler.v ===== *)
(** * ChanHandler: which cells a channel takes, and in what form

    [tor-proto/src/channel/handler.rs] and [channel/msg.rs]: the three states of a channel's codec
    (new, handshake, open), the messages that each link protocol, kind of channel and stage allows,
    and the logs of the handshake, which the relays' authentication covers.  The state of a running
    SHA-256 is the bytes it has been given.  An encoder returns the bytes it appends. *)

From S2P Require Import Prelude Bytes Codec RelayMsg RelayCell ChanCell Sendme.

(** ** Sets of messages (channel/msg.rs) *)

Inductive ChannelType : Type :=
| ClientInitiator
| RelayInitiator
| RelayResponder (authenticated : bool).

Definition type_set_authenticated (t : ChannelType) : ChannelType :=
  match t with RelayResponder _ => RelayResponder true | t => t end.

Inductive LinkVersion : Type := LinkV4 | LinkV5.

Definition LinkVersion_value (v : LinkVersion) : Z := match v with LinkV4 => 4 | LinkV5 => 5 end.

Definition LinkVersion_try_from (value : Z) : res ProtoError LinkVersion :=
  if value =? 4 then Ok LinkV4
  else if value =? 5 then Ok LinkV5
  else Err (HandshakeProto "Unknown link version").

Inductive MessageStage : Type := StHandshake | StOpen.

Definition stage_to_err (s : MessageStage) (msg : string) : ProtoError :=
  match s with StHandshake => HandshakeProto msg | StOpen => ChanProto msg end.

Definition HandshakeRelayInitiatorMsg : ChanMsgSet :=
  OnlyMsgs [ChanCmd.AUTHENTICATE; ChanCmd.CERTS; ChanCmd.NETINFO; ChanCmd.VPADDING].
Definition HandshakeRelayResponderMsg : ChanMsgSet :=
  OnlyMsgs [ChanCmd.AUTH_CHALLENGE; ChanCmd.CERTS; ChanCmd.NETINFO; ChanCmd.VPADDING].
Definition HandshakeClientInitiatorMsg : ChanMsgSet := OnlyMsgs [ChanCmd.NETINFO; ChanCmd.VPADDING].

Definition linkv4_OpenChanMsgC2R : ChanMsgSet :=
  OnlyMsgs [ChanCmd.CREATE2; ChanCmd.CREATE_FAST; ChanCmd.DESTROY; ChanCmd.PADDING; ChanCmd.VPADDING;
            ChanCmd.RELAY; ChanCmd.RELAY_EARLY].
Definition linkv4_OpenChanMsgR2C : ChanMsgSet :=
  OnlyMsgs [ChanCmd.CREATED_FAST; ChanCmd.CREATED2; ChanCmd.RELAY; ChanCmd.DESTROY; ChanCmd.PADDING;
            ChanCmd.VPADDING].
Definition linkv4_OpenChanMsgR2R : ChanMsgSet :=
  OnlyMsgs [ChanCmd.CREATE2; ChanCmd.CREATED2; ChanCmd.DESTROY; ChanCmd.PADDING; ChanCmd.VPADDING;
            ChanCmd.RELAY; ChanCmd.RELAY_EARLY].

(** The sets that [decode_cell] and [encode_cell] choose. *)
Definition linkv4_decode_set (chan_type : ChannelType) (stage : MessageStage) : ChanMsgSet :=
  match chan_type, stage with
  | ClientInitiator, StHandshake => HandshakeRelayResponderMsg
  | ClientInitiator, StOpen => linkv4_OpenChanMsgR2C
  | RelayInitiator, StHandshake => HandshakeRelayResponderMsg
  | RelayInitiator, StOpen => linkv4_OpenChanMsgR2R
  | RelayResponder _, StHandshake => HandshakeRelayInitiatorMsg
  | RelayResponder authenticated, StOpen =>
      if authenticated then linkv4_OpenChanMsgR2R else linkv4_OpenChanMsgC2R
  end.

Definition linkv4_encode_set (chan_type : ChannelType) (stage : MessageStage) : ChanMsgSet :=
  match chan_type, stage with
  | ClientInitiator, StHandshake => HandshakeClientInitiatorMsg
  | ClientInitiator, StOpen => linkv4_OpenChanMsgC2R
  | RelayInitiator, StHandshake => HandshakeRelayInitiatorMsg
  | RelayInitiator, StOpen => linkv4_OpenChanMsgR2R
  | RelayResponder _, StHandshake => HandshakeRelayResponderMsg
  | RelayResponder authenticated, StOpen =>
      if authenticated then linkv4_OpenChanMsgR2R else linkv4_OpenChanMsgR2C
  end.

Definition linkv5_OpenChanMsgC2R : ChanMsgSet :=
  OnlyMsgs [ChanCmd.CREATE2; ChanCmd.CREATE_FAST; ChanCmd.DESTROY; ChanCmd.PADDING;
            ChanCmd.PADDING_NEGOTIATE; ChanCmd.VPADDING; ChanCmd.RELAY; ChanCmd.RELAY_EARLY].
Definition linkv5_OpenChanMsgR2C : ChanMsgSet :=
  OnlyMsgs [ChanCmd.CREATED_FAST; ChanCmd.CREATED2; ChanCmd.DESTROY; ChanCmd.PADDING; ChanCmd.VPADDING;
            ChanCmd.RELAY].
Definition linkv5_OpenChanMsgR2R : ChanMsgSet :=
  OnlyMsgs [ChanCmd.CREATE2; ChanCmd.CREATED2; ChanCmd.DESTROY; ChanCmd.PADDING; ChanCmd.VPADDING;
            ChanCmd.RELAY; ChanCmd.RELAY_EARLY].

Definition linkv5_decode_set (chan_type : ChannelType) (stage : MessageStage) : ChanMsgSet :=
  match chan_type, stage with
  | ClientInitiator, StHandshake => HandshakeRelayResponderMsg
  | ClientInitiator, StOpen => linkv5_OpenChanMsgR2C
  | RelayInitiator, StHandshake => HandshakeRelayResponderMsg
  | RelayInitiator, StOpen => linkv5_OpenChanMsgR2R
  | RelayResponder _, StHandshake => HandshakeRelayInitiatorMsg
  | RelayResponder false, StOpen => linkv5_OpenChanMsgC2R
  | RelayResponder true, StOpen => linkv5_OpenChanMsgR2R
  end.

Definition linkv5_encode_set (chan_type : ChannelType) (stage : MessageStage) : ChanMsgSet :=
  match chan_type, stage with
  | ClientInitiator, StHandshake => HandshakeClientInitiatorMsg
  | ClientInitiator, StOpen => linkv5_OpenChanMsgC2R
  | RelayInitiator, StHandshake => HandshakeRelayInitiatorMsg
  | RelayInitiator, StOpen => linkv5_OpenChanMsgR2R
  | RelayResponder _, StHandshake => HandshakeRelayResponderMsg
  | RelayResponder false, StOpen => linkv5_OpenChanMsgR2C
  | RelayResponder true, StOpen => linkv5_OpenChanMsgR2R
  end.

(** [decode_as_any] and [encode_as_any]. *)
Definition decode_as_any (s : ChanMsgSet) (stage : MessageStage) (src : list Z) :
    list Z * res ProtoError (option ChanCell) :=
  let '(src, out) := decode_cell s src in
  (src, map_err (λ _, stage_to_err stage "Decoding cell error") out).

Definition encode_as_any (s : ChanMsgSet) (stage : MessageStage) (cell : ChanCell) (dst : list Z) :
    res ProtoError (list Z) :=
  if in_msg_set s (cl_msg cell)
  then map_err (λ _, stage_to_err stage "Encoding cell error") (write_cell cell dst)
  else Err (stage_to_err stage "Disallowed cell command").

Record MessageFilter : Type := mkFilter {
  mf_link_version : LinkVersion;
  mf_channel_type : ChannelType;
  mf_stage : MessageStage }.

Definition filter_decode_set (f : MessageFilter) : ChanMsgSet :=
  match mf_link_version f with
  | LinkV4 => linkv4_decode_set (mf_channel_type f) (mf_stage f)
  | LinkV5 => linkv5_decode_set (mf_channel_type f) (mf_stage f)
  end.
Definition filter_encode_set (f : MessageFilter) : ChanMsgSet :=
  match mf_link_version f with
  | LinkV4 => linkv4_encode_set (mf_channel_type f) (mf_stage f)
  | LinkV5 => linkv5_encode_set (mf_channel_type f) (mf_stage f)
  end.

Definition filter_decode_cell (f : MessageFilter) (src : list Z) :
    list Z * res ProtoError (option ChanCell) := decode_as_any (filter_decode_set f) (mf_stage f) src.
Definition filter_encode_cell (f : MessageFilter) (cell : ChanCell) (dst : list Z) :
    res ProtoError (list Z) := encode_as_any (filter_encode_set f) (mf_stage f) cell dst.

(** ** The states of the codec (channel/handler.rs) *)

Record NewChannelHandler : Type := mkNew {
  nh_channel_type : ChannelType;
  nh_clog : option (list Z);
  nh_slog : option (list Z) }.

(** [hh_inner] is the link version of the cell codec. *)
Record HandshakeChannelHandler : Type := mkHandshaking {
  hh_filter : MessageFilter;
  hh_inner : Z;
  hh_clog : option (list Z);
  hh_slog : option (list Z) }.

Record OpenChannelHandler : Type := mkOpen { oh_filter : MessageFilter; oh_inner : Z }.

Inductive ChannelCellHandler : Type :=
| HNew (h : NewChannelHandler)
| HHandshake (h : HandshakeChannelHandler)
| HOpen (h : OpenChannelHandler).

Definition Handler_from (ty : ChannelType) : ChannelCellHandler :=
  HNew (match ty with
        | ClientInitiator => mkNew ty None None
        | RelayInitiator | RelayResponder _ => mkNew ty (Some []) (Some [])
        end).

Definition handler_channel_type (h : ChannelCellHandler) : ChannelType :=
  match h with
  | HNew h => nh_channel_type h
  | HHandshake h => mf_channel_type (hh_filter h)
  | HOpen h => mf_channel_type (oh_filter h)
  end.

Definition set_link_version (link_version : Z) (h : ChannelCellHandler) :
    res ProtoError ChannelCellHandler :=
  match h with
  | HNew h =>
      v ← LinkVersion_try_from link_version;
      Ok (HHandshake (mkHandshaking (mkFilter v (nh_channel_type h) StHandshake) (LinkVersion_value v)
                        (nh_clog h) (nh_slog h)))
  | _ => Err (Internal "Setting link protocol without a new handler")
  end.

Definition set_open (h : ChannelCellHandler) : res ProtoError ChannelCellHandler :=
  match h with
  | HHandshake h =>
      match LinkVersion_try_from (hh_inner h) with
      | Ok v => Ok (HOpen (mkOpen (mkFilter v (mf_channel_type (hh_filter h)) StOpen) (LinkVersion_value v)))
      | _ => Panic
      end
  | _ => Err (Internal "Setting open without a handshake handler")
  end.

Definition set_authenticated (h : ChannelCellHandler) : res ProtoError ChannelCellHandler :=
  match h with
  | HHandshake h =>
      let f := hh_filter h in
      Ok (HHandshake (mkHandshaking
            (mkFilter (mf_link_version f) (type_set_authenticated (mf_channel_type f)) (mf_stage f))
            (hh_inner h) (hh_clog h) (hh_slog h)))
  | _ => Err (Internal "Setting authenticated without a handshake handler")
  end.

(** What the digests of the logs cover; the logs are taken out. *)
Definition get_clog (h : ChannelCellHandler) : ChannelCellHandler * res ProtoError (list Z) :=
  match h with
  | HHandshake h =>
      (HHandshake (mkHandshaking (hh_filter h) (hh_inner h) None (hh_slog h)),
       ok_or (hh_clog h) (Internal "No clog digest on channel"))
  | _ => (h, Err (Internal "Getting CLOG without a handshake handler"))
  end.
Definition get_slog (h : ChannelCellHandler) : ChannelCellHandler * res ProtoError (list Z) :=
  match h with
  | HHandshake h =>
      (HHandshake (mkHandshaking (hh_filter h) (hh_inner h) (hh_clog h) None),
       ok_or (hh_slog h) (Internal "No slog digest on channel"))
  | _ => (h, Err (Internal "Getting SLOG without a handshake handler"))
  end.

Definition log_update (bytes : list Z) (log : option (list Z)) : option (list Z) := (.++ bytes) <$> log.

Definition HEADER_SIZE : nat := 5.

(** [Decoder for NewChannelHandler]: only a VERSIONS cell, with its two-byte circuit identifier. *)
Definition new_decode (h : NewChannelHandler) (src : list Z) :
    NewChannelHandler * list Z * res ProtoError (option (list Z)) :=
  match src with
  | c0 :: c1 :: cmd :: l0 :: l1 :: _ =>
      if negb (from_be_bytes [c0; c1] =? 0)
      then (h, src, Err (HandshakeProto "Invalid CircID in variable cell"))
      else if negb (cmd =? ChanCmd.VERSIONS)
      then (h, src, Err (HandshakeProto "Invalid command variable cell, expected a VERSIONS."))
      else
        let body_len := Z.to_nat (from_be_bytes [l0; l1]) in
        if (body_len mod 2 =? 1)%nat
        then (h, src, Err (HandshakeProto "VERSIONS cell body length is odd. Rejecting."))
        else
          let wanted_bytes := (HEADER_SIZE + body_len)%nat in
          if (length src <? wanted_bytes)%nat then (h, src, Ok None)
          else
            let data := take wanted_bytes src in
            let h := mkNew (nh_channel_type h) (nh_clog h) (log_update data (nh_slog h)) in
            let body := drop HEADER_SIZE data in
            let '(_, out) := extract (while_remaining take_u16) (from_slice body) in
            (h, drop wanted_bytes src, vs ← map_err (BytesErr "new cell handler") out; Ok (Some vs))
  | _ => (h, src, Ok None)
  end.

Definition new_encode (h : NewChannelHandler) (versions dst : list Z) :
    res ProtoError (NewChannelHandler * list Z) :=
  encoded_bytes ← map_err (CellEncodeErr "new cell handler") (encode_for_handshake versions);
  Ok (mkNew (nh_channel_type h) (log_update encoded_bytes (nh_clog h)) (nh_slog h),
      dst ++ encoded_bytes).

Definition handshake_decode (h : HandshakeChannelHandler) (src : list Z) :
    HandshakeChannelHandler * list Z * res ProtoError (option ChanCell) :=
  let '(rest, out) := filter_decode_cell (hh_filter h) src in
  match out with
  | Ok cell =>
      let n_used := (length src - length rest)%nat in
      (mkHandshaking (hh_filter h) (hh_inner h) (hh_clog h) (log_update (take n_used src) (hh_slog h)),
       rest, Ok cell)
  | out => (h, rest, out)
  end.

Definition handshake_encode (h : HandshakeChannelHandler) (item : ChanCell) (dst : list Z) :
    res ProtoError (HandshakeChannelHandler * list Z) :=
  let before_dst_len := length dst in
  dst ← filter_encode_cell (hh_filter h) item dst;
  Ok (mkHandshaking (hh_filter h) (hh_inner h) (log_update (drop before_dst_len dst) (hh_clog h))
        (hh_slog h), dst).

(** [Decoder] and [Encoder for ChannelCellHandler]. *)
Definition handler_decode (h : ChannelCellHandler) (src : list Z) :
    ChannelCellHandler * list Z * res ProtoError (option ChanCell) :=
  match h with
  | HNew h =>
      let '(h, src, out) := new_decode h src in
      (HNew h, src, o ← out; Ok (option_map (λ vs, mkChanCell None (CmVersions vs)) o))
  | HHandshake h => let '(h, src, out) := handshake_decode h src in (HHandshake h, src, out)
  | HOpen h =>
      let '(src, out) := filter_decode_cell (oh_filter h) src in (HOpen h, src, out)
  end.

Definition handler_encode (h : ChannelCellHandler) (item : ChanCell) (dst : list Z) :
    res ProtoError (ChannelCellHandler * list Z) :=
  match h with
  | HNew h =>
      match cl_msg item with
      | CmVersions versions => '(h, dst) ← new_encode h versions dst; Ok (HNew h, dst)
      | _ => Err (HandshakeProto "Non VERSIONS cell for new handler")
      end
  | HHandshake h => '(h, dst) ← handshake_encode h item dst; Ok (HHandshake h, dst)
  | HOpen h => dst ← filter_encode_cell (oh_filter h) item dst; Ok (HOpen h, dst)
  end.

(** ** Reading frames from a stream

    A decoder is asked again and again while it returns items, and then for each new piece of the
    stream. *)

Section framing.
Context {H C E : Type} (decode : H → list Z → H * list Z * res E (option C)).

(** At [h] the bytes [enc] are the frame of [c], which leads to [h']. *)
Definition frame_at (h : H) (enc : list Z) (c : C) (h' : H) : Prop :=
  enc ≠ [] ∧
  (∀ rest, decode h (enc ++ rest) = (h', rest, Ok (Some c))) ∧
  (∀ p q, enc = p ++ q → q ≠ [] → decode h p = (h, p, Ok None)).

Inductive frames_from : H → list (list Z * C) → H → Prop :=
| frames_nil h : frames_from h [] h
| frames_cons h enc c h1 fs h2 :
    frame_at h enc c h1 → frames_from h1 fs h2 → frames_from h ((enc, c) :: fs) h2.

(** Every frame has a byte or more, so the length of the buffer is enough fuel. *)
Fixpoint drain (fuel : nat) (h : H) (buf : list Z) : H * list Z * res E (list C) :=
  match decode h buf with
  | (h, buf, Ok None) => (h, buf, Ok [])
  | (h, buf, Ok (Some c)) =>
      match fuel with
      | O => (h, buf, Panic)
      | S fuel => let '(h, buf, out) := drain fuel h buf in (h, buf, cs ← out; Ok (c :: cs))
      end
  | (h, buf, Err e) => (h, buf, Err e)
  | (h, buf, Panic) => (h, buf, Panic)
  end.

Fixpoint receive (h : H) (buf : list Z) (chunks : list (list Z)) : H * list Z * res E (list C) :=
  match chunks with
  | [] => (h, buf, Ok [])
  | chunk :: chunks =>
      match drain (length (buf ++ chunk)) h (buf ++ chunk) with
      | (h, buf, Ok cs) =>
          let '(h, buf, out) := receive h buf chunks in (h, buf, cs' ← out; Ok (cs ++ cs'))
      | out => out
      end
  end.

Context (decode_nil : ∀ h, decode h [] = (h, [], Ok None)).

(** The start of a sequence of frames splits into whole frames and a part of the next one. *)
Lemma drain_prefix fuel h fs h' b tail :
  frames_from h fs h' → b ++ tail = concat fs.*1 → (length b ≤ fuel)%nat →
  ∃ fs1 fs2 h1 b1, fs = fs1 ++ fs2 ∧ frames_from h1 fs2 h' ∧ b1 ++ tail = concat fs2.*1 ∧
    (tail = [] → b1 = []) ∧ drain fuel h b = (h1, b1, Ok fs1.*2).
Proof.
  intros Hf. revert b fuel. induction Hf as [h|h enc c h1 fs h2 (Hne & Hdec & Hpre) Hf IH]; intros b fuel Hb Hl.
  - apply app_eq_nil in Hb as [-> ->]. exists [], [], h, []. split; [done|]. split; [constructor|].
    split_and!; [done..|]. destruct fuel; cbn [drain]; by rewrite decode_nil.
  - cbn [fmap list_fmap fst concat] in Hb. assert (length enc ≠ 0%nat) by by destruct enc.
    apply app_eq_inv in Hb as [(k & -> & Hk)|(k & -> & Hk)].
    + rewrite length_app in Hl. destruct fuel as [|fuel]; [lia|].
      destruct (IH k fuel) as (fs1 & fs2 & h3 & b1 & -> & Hf2 & Hb1 & Ht & Hd); [done|lia|].
      exists ((enc, c) :: fs1), fs2, h3, b1. split_and!; [done..|]. cbn [drain]. by rewrite Hdec, Hd.
    + destruct (decide (k = [])) as [->|Hk0].
      * rewrite app_nil_r in *. cbn [app] in Hk. destruct fuel as [|fuel]; [lia|].
        destruct (IH [] fuel) as (fs1 & fs2 & h3 & b1 & -> & Hf2 & Hb1 & Ht & Hd); [done|simpl; lia|].
        exists ((b, c) :: fs1), fs2, h3, b1. split_and!; [done..|].
        cbn [drain]. rewrite <-(app_nil_r b), Hdec, Hd. done.
      * exists [], ((b ++ k, c) :: fs), h, b. split; [done|]. split; [by econstructor|].
        split; [cbn [fmap list_fmap fst concat]; by rewrite <-(assoc_L app), Hk|].
        split; [intros ->; by destruct k|]. destruct fuel; cbn [drain]; by rewrite (Hpre b k).
Qed.

Lemma frames_concat_nil h fs h' : frames_from h fs h' → concat fs.*1 = [] → fs = [] ∧ h' = h.
Proof.
  destruct 1 as [|h enc c h1 fs h2 (Hne & _) _]; [done|]. cbn [fmap list_fmap fst concat].
  by intros [-> _]%app_eq_nil.
Qed.

(** However the stream is cut, exactly its items are read, and nothing remains. *)
Lemma receive_frames h fs h' buf chunks :
  frames_from h fs h' → buf ++ concat chunks = concat fs.*1 → (chunks = [] → buf = []) →
  receive h buf chunks = (h', [], Ok fs.*2).
Proof.
  revert h fs buf. induction chunks as [|chunk chunks IH]; intros h fs buf Hf Hc Hb.
  - rewrite Hb in Hc by done. cbn [concat app] in Hc. symmetry in Hc.
    destruct (frames_concat_nil _ _ _ Hf Hc) as [-> ->]. by rewrite Hb.
  - cbn [receive concat] in *. rewrite (assoc_L app) in Hc.
    destruct (drain_prefix (length (buf ++ chunk)) h fs h' (buf ++ chunk) (concat chunks) Hf Hc)
      as (fs1 & fs2 & h1 & b1 & -> & Hf2 & Hb1 & Ht & ->); [done|].
    rewrite (IH h1 fs2 b1 Hf2 Hb1) by by intros ->; apply Ht. cbn. by rewrite fmap_app.
Qed.
End framing.

(** ** Two ends of a channel *)

(** The kinds of the end that sends and the end that receives; during the handshake a responder
    does not know yet whether it talks to a relay. *)
Definition types_match (stage : MessageStage) (t t' : ChannelType) : Prop :=
  match t, t' with
  | ClientInitiator, RelayResponder a | RelayResponder a, ClientInitiator =>
      stage = StHandshake ∨ a = false
  | RelayInitiator, RelayResponder a | RelayResponder a, RelayInitiator =>
      stage = StHandshake ∨ a = true
  | _, _ => False
  end.

Definition filters_match (f f' : MessageFilter) : Prop :=
  mf_link_version f = mf_link_version f' ∧ mf_stage f = mf_stage f' ∧
  types_match (mf_stage f) (mf_channel_type f) (mf_channel_type f').

(** A client keeps no logs. *)
Definition logs_match (sent received : option (list Z)) : Prop :=
  match sent, received with Some a, Some b => a = b | _, _ => True end.

Definition handlers_match (h h' : ChannelCellHandler) : Prop :=
  match h, h' with
  | HNew h, HNew h' =>
      types_match StHandshake (nh_channel_type h) (nh_channel_type h') ∧ logs_match (nh_clog h) (nh_slog h')
  | HHandshake h, HHandshake h' =>
      mf_stage (hh_filter h) = StHandshake ∧ filters_match (hh_filter h) (hh_filter h') ∧
      logs_match (hh_clog h) (hh_slog h')
  | HOpen h, HOpen h' => filters_match (oh_filter h) (oh_filter h')
  | _, _ => False
  end.

Lemma in_msg_set_mono l l' m :
  l ⊆ l' → in_msg_set (OnlyMsgs l) m = true → in_msg_set (OnlyMsgs l') m = true.
Proof. intros Hl. destruct m; simpl; rewrite ?bool_decide_eq_true; done || apply Hl. Qed.

(** What one end may send, the other may receive. *)
Lemma filter_sets_match f f' m :
  filters_match f f' → in_msg_set (filter_encode_set f) m = true →
  in_msg_set (filter_decode_set f') m = true.
Proof.
  destruct f as [v t st], f' as [v' t' st']. intros (Hv & Hs & Ht). simpl in *. subst v' st'.
  unfold filter_encode_set, filter_decode_set. cbn [mf_link_version mf_channel_type mf_stage].
  destruct v, st, t as [| |[]], t' as [| |[]]; try done; try (by destruct Ht);
    apply in_msg_set_mono; apply (bool_decide_unpack _); vm_compute; exact I.
Qed.

Lemma log_update_nil l : log_update [] l = l.
Proof. destruct l as [l|]; simpl; [by rewrite app_nil_r|done]. Qed.

Lemma logs_match_update b l l' : logs_match l l' → logs_match (log_update b l) (log_update b l').
Proof. destruct l, l'; simpl; congruence. Qed.

(** The frame of a cell that passes both filters. *)
Lemma filter_frame f f' cell dst out :
  filters_match f f' → chan_cell_wf cell → filter_encode_cell f cell dst = Ok out →
  ∃ enc, out = dst ++ enc ∧ frames (filter_decode_set f') enc cell.
Proof.
  intros Hm Hc. unfold filter_encode_cell, encode_as_any.
  destruct (in_msg_set _ _) eqn:Hs; [|done].
  destruct (write_cell cell dst) as [o|e|] eqn:Hw; [|done..]. intros [= <-].
  eapply write_cell_frames; [done|by eapply filter_sets_match|done].
Qed.

Lemma filter_decode_ok f src src' c :
  decode_cell (filter_decode_set f) src = (src', Ok c) → filter_decode_cell f src = (src', Ok c).
Proof. intros H. unfold filter_decode_cell, decode_as_any. by rewrite H. Qed.

Lemma handshake_frame (h : HandshakeChannelHandler) enc cell :
  frames (filter_decode_set (hh_filter h)) enc cell →
  frame_at handler_decode (HHandshake h) enc cell
    (HHandshake (mkHandshaking (hh_filter h) (hh_inner h) (hh_clog h) (log_update enc (hh_slog h)))).
Proof.
  intros (Hne & Hd & Hp). split; [done|]. split.
  - intros rest. cbn [handler_decode]. unfold handshake_decode. rewrite (filter_decode_ok _ _ _ _ (Hd rest)).
    rewrite length_app. replace (length enc + length rest - length rest)%nat with (length enc) by lia.
    by rewrite take_app_length.
  - intros p q Heq Hq. cbn [handler_decode]. unfold handshake_decode.
    rewrite (filter_decode_ok _ _ _ _ (Hp p q Heq Hq)). rewrite Nat.sub_diag, take_0, log_update_nil.
    by destruct h.
Qed.

Lemma open_frame (h : OpenChannelHandler) enc cell :
  frames (filter_decode_set (oh_filter h)) enc cell →
  frame_at handler_decode (HOpen h) enc cell (HOpen h).
Proof.
  intros (Hne & Hd & Hp). split; [done|]. split.
  - intros rest. cbn [handler_decode]. by rewrite (filter_decode_ok _ _ _ _ (Hd rest)).
  - intros p q Heq Hq. cbn [handler_decode]. by rewrite (filter_decode_ok _ _ _ _ (Hp p q Heq Hq)).
Qed.

Definition versions_wf (vs : list Z) : Prop := Forall (in_uint u16_max) vs ∧ Versions_new vs = Some vs.

#[local] Opaque to_be_bytes.

Lemma versions_body_len vs (w bs : list Z) :
  Versions_encode vs w = Ok bs → length bs = (length w + 2 * length vs)%nat.
Proof.
  unfold Versions_encode. revert w. induction vs as [|v vs IH]; intros w; cbn [write_list].
  - intros [= <-]. simpl. lia.
  - rewrite ok_bind. intros ->%IH. unfold write_u16, write_all, vec_writer.
    rewrite length_app, length_to_be_bytes. simpl. lia.
Qed.

(** The bytes of a VERSIONS cell: a header of five bytes and the versions. *)
Lemma encode_for_handshake_ok vs :
  versions_wf vs →
  ∃ l0 l1 body, encode_for_handshake vs = Ok ([0; 0; ChanCmd.VERSIONS; l0; l1] ++ body) ∧
    length body = (2 * length vs)%nat ∧ Z.to_nat (from_be_bytes [l0; l1]) = (2 * length vs)%nat ∧
    reads_all (while_remaining take_u16) body vs.
Proof.
  intros [Hvs Hlen]. unfold Versions_new in Hlen. case_match; [|done]. zify_bool.
  unfold encode_for_handshake. cbv zeta.
  set (w := write_u16 _ (write_u8 _ _)).
  assert (∃ bs, Versions_encode vs w = Ok bs) as [bs Hbs].
  { unfold Versions_encode. clear. generalize w. clear w. induction vs as [|v vs IH]; intros w; cbn [write_list]; [eauto|].
    rewrite ok_bind. apply IH. }
  rewrite Hbs. pose proof (versions_body_len _ _ _ Hbs) as Hl.
  destruct (reads_u16s vs w bs Hvs Hbs) as (body & -> & _ & Hr).
  assert (∃ l0 l1, to_be_bytes 2 (Z.of_nat (length vs) * 2) = [l0; l1]) as (l0 & l1 & Hll).
  { pose proof (length_to_be_bytes 2 (Z.of_nat (length vs) * 2)) as H2.
    destruct (to_be_bytes 2 _) as [|l0 [|l1 [|]]]; try done. eauto. }
  exists l0, l1, body.
  assert (w = [0; 0; ChanCmd.VERSIONS; l0; l1]) as Hw.
  { unfold w, write_u16, write_u8, write_all, vec_writer. by rewrite Hll. }
  rewrite Hw in *. split; [done|]. rewrite length_app in Hl. split; [simpl in Hl; lia|].
  split; [|done]. rewrite <-Hll, from_to_be_bytes; [lia|]. change (256 ^ Z.of_nat 2) with 65536. change (u16_max / 2) with 32767 in *. lia.
Qed.

Lemma new_frame (h : NewChannelHandler) vs enc :
  versions_wf vs → encode_for_handshake vs = Ok enc →
  frame_at handler_decode (HNew h) enc (mkChanCell None (CmVersions vs))
    (HNew (mkNew (nh_channel_type h) (nh_clog h) (log_update enc (nh_slog h)))).
Proof.
  intros Hvs Henc. destruct (encode_for_handshake_ok vs Hvs) as (l0 & l1 & body & He & Hlb & Hl & Hr).
  rewrite He in Henc. injection Henc as <-.
  assert ((2 * length vs) mod 2 =? 1 = false)%nat as Hmod.
  { rewrite Nat.mul_comm, Nat.Div0.mod_mul. done. }
  split; [done|]. split.
  - intros rest. cbn [handler_decode]. unfold new_decode. cbn [app]. cbv zeta. rewrite Hl, Hmod. cbn [negb].
    change (from_be_bytes [0; 0] =? 0) with true. cbn [negb].
    change (ChanCmd.VERSIONS =? ChanCmd.VERSIONS) with true. cbn [negb].
    change (0 :: 0 :: ChanCmd.VERSIONS :: l0 :: l1 :: body ++ rest)
      with (([0; 0; ChanCmd.VERSIONS; l0; l1] ++ body) ++ rest).
    assert ((HEADER_SIZE + 2 * length vs)%nat = length ([0; 0; ChanCmd.VERSIONS; l0; l1] ++ body)) as Hw
      by (rewrite length_app, Hlb; done).
    rewrite Hw. rewrite (proj2 (Nat.ltb_ge _ _)) by (rewrite (length_app _ rest); lia).
    rewrite take_app_length, drop_app_length.
    change (drop HEADER_SIZE ([0; 0; ChanCmd.VERSIONS; l0; l1] ++ body)) with body.
    specialize (Hr [] SupposedlyComplete). cbn [app length] in Hr. unfold extract, from_slice.
    rewrite Hr. done.
  - intros p q Heq Hq. cbn [handler_decode]. unfold new_decode.
    destruct p as [|c0 [|c1 [|c2 [|c3 [|c4 p]]]]]; try done. cbn [app] in Heq.
    injection Heq as <- <- <- <- <- Heq. cbv zeta. rewrite Hl, Hmod.
    change (from_be_bytes [0; 0] =? 0) with true. cbn [negb].
    change (ChanCmd.VERSIONS =? ChanCmd.VERSIONS) with true. cbn [negb].
    rewrite Heq, length_app in Hlb. rewrite (proj2 (Nat.ltb_lt _ _)); [done|].
    unfold HEADER_SIZE. destruct q; [done|]. simpl in *. lia.
Qed.

(** The cells that an end can be asked to send: VERSIONS while the channel is new, anything well
    formed afterwards. *)
Definition sendable (h : ChannelCellHandler) (cell : ChanCell) : Prop :=
  match h with
  | HNew _ => ∃ vs, cell = mkChanCell None (CmVersions vs) ∧ versions_wf vs
  | _ => chan_cell_wf cell
  end.

Lemma handler_frame h h' cell dst h1 out :
  handlers_match h h' → sendable h cell → handler_encode h cell dst = Ok (h1, out) →
  ∃ enc h1', out = dst ++ enc ∧ frame_at handler_decode h' enc cell h1' ∧ handlers_match h1 h1'.
Proof.
  intros Hm Hs He. destruct h as [h|h|h], h' as [h'|h'|h']; try done; simpl in Hm, Hs, He.
  - destruct Hs as (vs & -> & Hvs). destruct Hm as [Ht Hl]. cbn [cl_msg] in He. unfold new_encode in He.
    destruct (encode_for_handshake vs) as [enc|e|] eqn:Henc; [|done..]. injection He as <- <-.
    exists enc. eexists. split; [done|]. split; [by apply new_frame|]. split; [done|]. by apply logs_match_update.
  - destruct Hm as (Hst & Hf & Hl). apply bind_ok in He as ([h2 o] & He & [= <- <-]).
    unfold handshake_encode in He. apply bind_ok in He as (o' & He & [= <- <-]).
    destruct (filter_frame _ _ _ _ _ Hf Hs He) as (enc & -> & Hfr).
    exists enc. eexists. split; [done|]. split; [by apply handshake_frame|].
    rewrite drop_app_length. split_and!; [done..|]. by apply logs_match_update.
  - apply bind_ok in He as (o & He & [= <- <-]).
    destruct (filter_frame _ _ _ _ _ Hm Hs He) as (enc & -> & Hfr).
    exists enc. eexists. split; [done|]. split; [by apply open_frame|]. done.
Qed.

Fixpoint encode_all (h : ChannelCellHandler) (cells : list ChanCell) (dst : list Z) :
    res ProtoError (ChannelCellHandler * list Z) :=
  match cells with
  | [] => Ok (h, dst)
  | cell :: cells => '(h, dst) ← handler_encode h cell dst; encode_all h cells dst
  end.

Lemma handler_decode_nil h : handler_decode h [] = (h, [], Ok None).
Proof.
  destruct h as [h|h|h]; [done| |done]. cbn. unfold handshake_decode. cbn. rewrite log_update_nil. by destruct h.
Qed.

Lemma sendable_encode h cell dst h1 out c :
  handler_encode h cell dst = Ok (h1, out) → sendable h c → sendable h1 c.
Proof.
  destruct h as [h|h|h]; simpl; intros He Hc.
  - destruct (cl_msg cell); try done. apply bind_ok in He as ([h2 o] & _ & [= <- _]). done.
  - apply bind_ok in He as ([h2 o] & _ & [= <- _]). done.
  - apply bind_ok in He as (o & _ & [= <- _]). done.
Qed.

Lemma encode_all_frames h h' cells dst h1 out :
  handlers_match h h' → Forall (sendable h) cells → encode_all h cells dst = Ok (h1, out) →
  ∃ fs h1', out = dst ++ concat fs.*1 ∧ fs.*2 = cells ∧ frames_from handler_decode h' fs h1' ∧
    handlers_match h1 h1'.
Proof.
  revert h h' dst. induction cells as [|cell cells IH]; intros h h' dst Hm Hs; cbn [encode_all].
  - intros [= <- <-]. exists [], h'. rewrite app_nil_r. split_and!; [done..|constructor|done].
  - intros ([h2 o] & He & Ha)%bind_ok. inversion Hs as [|?? Hc Hcs]; subst.
    destruct (handler_frame _ _ _ _ _ _ Hm Hc He) as (enc & h2' & -> & Hf & Hm2).
    edestruct (IH h2 h2') as (fs & h1' & -> & <- & Hfs & Hm1); [done| |done|].
    { eapply Forall_impl; [exact Hcs|]. intros c Hc'. by eapply sendable_encode. }
    exists ((enc, cell) :: fs), h1'. cbn. rewrite (assoc_L app). split_and!; [done..| |done].
    by econstructor.
Qed.

(** C10: whatever cells one end of a channel sends, in each state of the codec, and however the
    bytes are cut on the way, the other end reads exactly these cells in this order and is left
    with an empty buffer: what one kind of channel may send, its peer accepts.  The log of what
    the one end has sent is the log of what the other has received. *)
Theorem channel_stream h h' cells h1 bytes chunks :
  handlers_match h h' → Forall (sendable h) cells → encode_all h cells [] = Ok (h1, bytes) →
  concat chunks = bytes →
  ∃ h1', receive handler_decode h' [] chunks = (h1', [], Ok cells) ∧ handlers_match h1 h1'.
Proof.
  intros Hm Hs He Hc.
  destruct (encode_all_frames h h' cells [] h1 bytes Hm Hs He) as (fs & h1' & Hb & <- & Hf & Hm1).
  exists h1'. split; [|done]. apply receive_frames; [apply handler_decode_nil|done| |done].
  by rewrite Hc, Hb.
Qed.

(** A relay's part of a handshake, cut in the middle of its first cell. *)
Definition example_sender : ChannelCellHandler :=
  HHandshake (mkHandshaking (mkFilter LinkV5 RelayInitiator StHandshake) 5 (Some [1]) (Some [])).
Definition example_receiver : ChannelCellHandler :=
  HHandshake (mkHandshaking (mkFilter LinkV5 (RelayResponder false) StHandshake) 5 (Some [2]) (Some [1])).
Definition example_cells : list ChanCell :=
  [mkChanCell None (CmVpadding 3); mkChanCell None (CmCerts [mkTorCert 4 [7; 7]]);
   mkChanCell None (CmNetinfo (mkNetinfo 0 (Some (V4 2130706433)) []))].
Definition example_bytes : list Z :=
  match encode_all example_sender example_cells [] with Ok (_, b) => b | _ => [] end.
Definition example_after : ChannelCellHandler :=
  match encode_all example_sender example_cells [] with Ok (h, _) => h | _ => example_sender end.

Lemma channel_stream_witness :
  ∃ h1', receive handler_decode example_receiver [] [take 5 example_bytes; drop 5 example_bytes]
           = (h1', [], Ok example_cells) ∧ handlers_match example_after h1'.
Proof.
  apply (channel_stream example_sender example_receiver example_cells example_after example_bytes).
  - repeat split. left. reflexivity.
  - constructor; [|constructor; [|constructor; [|constructor]]];
      (split; [exact I|split; [|reflexivity]]); cbn.
    + unfold in_uint, u16_max. lia.
    + constructor; [unfold byte_ok; simpl; lia|constructor].
    + split; [unfold in_uint, u32_max; simpl; lia|]. split; [|constructor]. simpl.
      split; [unfold in_uint, u32_max; lia|reflexivity].
  - vm_compute. reflexivity.
  - cbn [concat]. by rewrite app_nil_r, take_drop.
Defined.
