(* ===== verification/TorCert.v ===== *)
(** * TorCert: certificates

    [tor-checkable] (objects that are valid for some time, [src/lib.rs] and [src/timed.rs]),
    [tor-cert/src/lib.rs], [encode.rs] and [rsa.rs], and [validate_batch] of
    [tor-llcrypto/src/pk/ed25519.rs].  Signatures, digests and points on curves are other crates:
    they are a type class, whose laws say that what was signed verifies.  A time is the number of
    nanoseconds since the epoch. *)

From S2P Require Import Prelude Text Bytes Codec RelayCrypt.

(** ** Time bounds (tor-checkable) *)

Inductive TimeValidityError : Type :=
| NotYetValid (d : Z)
| Expired (d : Z)
| TimeUnspecified.

(** [SystemTime::duration_since]. *)
Definition duration_since (a b : Z) : option Z := if b <=? a then Some (a - b) else None.

Record TimerangeBound (T : Type) : Type := mkTimerange {
  tr_obj : T;
  tr_start : option Z;
  tr_end : option Z }.
Arguments mkTimerange {T}.
Arguments tr_obj {T}.
Arguments tr_start {T}.
Arguments tr_end {T}.

(** A time after which the operating system cannot represent times. *)
Definition time_max : Z := (2 ^ 63 - 1) * 1000000000 + 999999999.
Definition time_min : Z := - 2 ^ 63 * 1000000000.

Definition extend_tolerance {T} (d : Z) (b : TimerangeBound T) : TimerangeBound T :=
  mkTimerange (tr_obj b) (tr_start b)
    (t ← tr_end b; if t + d <=? time_max then Some (t + d) else None).
Definition extend_pre_tolerance {T} (d : Z) (b : TimerangeBound T) : TimerangeBound T :=
  mkTimerange (tr_obj b) (t ← tr_start b; if time_min <=? t - d then Some (t - d) else None) (tr_end b).

Definition timerange_is_valid_at {T} (b : TimerangeBound T) (t : Z) : res TimeValidityError unit :=
  match (start ← tr_start b; duration_since start t) with
  | Some d => Err (NotYetValid d)
  | None =>
      match (fin ← tr_end b; duration_since t fin) with
      | Some d => Err (Expired d)
      | None => Ok tt
      end
  end.

(** [Timebound::check_valid_at]. *)
Definition timerange_check_valid_at {T} (b : TimerangeBound T) (t : Z) : res TimeValidityError T :=
  _ ← timerange_is_valid_at b t; Ok (tr_obj b).

(** ** Keys and signatures *)

(** [ed_point] says whether bytes are the encoding of a point; [verify_batch] is that of the
    library, for two signatures or more. *)
Class Signing (SK : Type) : Type := {
  ed_public : SK → list Z;
  ed_sign : SK → list Z → list Z;
  ed_point : list Z → bool;
  ed_verify : list Z → list Z → list Z → bool;
  verify_batch : list (list Z * list Z * list Z) → bool;
  sha256 : list Z → list Z;
  (** the key in an X.509 certificate, whether a key has signed a digest, its identity *)
  x509_extract_rsa_subject_kludge : list Z → option (list Z);
  rsa_verify : list Z → list Z → list Z → bool;
  to_rsa_identity : list Z → list Z;
}.

Class SigningLaws (SK : Type) `{!Signing SK} : Prop := {
  ed_public_len (sk : SK) : length (ed_public sk) = 32%nat;
  ed_sign_len (sk : SK) msg : length (ed_sign sk msg) = 64%nat;
  ed_public_point (sk : SK) : ed_point (ed_public sk) = true;
  ed_verify_sign (sk : SK) msg : ed_verify (ed_public sk) msg (ed_sign sk msg) = true;
}.

(** A signature to be checked: key, signature, text. *)
Record ValidatableEd25519Signature : Type := mkValidatable {
  vs_key : list Z;
  vs_sig : list Z;
  vs_text : list Z }.

Section signing.
Context {SK : Type} `{!Signing SK}.

Definition sig_is_valid (s : ValidatableEd25519Signature) : bool :=
  ed_verify (vs_key s) (vs_text s) (vs_sig s).

Definition validate_batch (sigs : list ValidatableEd25519Signature) : bool :=
  match sigs with
  | [] => true
  | [s] => sig_is_valid s
  | _ => verify_batch ((λ s, (vs_text s, vs_sig s, vs_key s)) <$> sigs)
  end.
End signing.

(** ** Ed25519 certificates *)

Module CertType.
Definition TLS_LINK_X509 : Z := 1.
Definition RSA_ID_X509 : Z := 2.
Definition LINK_AUTH_X509 : Z := 3.
Definition IDENTITY_V_SIGNING : Z := 4.
Definition SIGNING_V_TLS_CERT : Z := 5.
Definition SIGNING_V_LINK_AUTH : Z := 6.
Definition RSA_ID_V_IDENTITY : Z := 7.
Definition HS_BLINDED_ID_V_SIGNING : Z := 8.
Definition HS_IP_V_SIGNING : Z := 9.
Definition NTOR_CC_IDENTITY : Z := 10.
Definition HS_IP_CC_SIGNING : Z := 11.
Definition FAMILY_V_IDENTITY : Z := 12.
End CertType.

Module KeyType.
Definition ED25519_KEY : Z := 1.
Definition SHA256_OF_RSA : Z := 2.
Definition SHA256_OF_X509 : Z := 3.
End KeyType.

Definition SIGNED_WITH_ED25519_KEY : Z := 4.

Inductive CertifiedKey : Type :=
| KeyEd25519 (k : list Z)
| KeyRsaSha256Digest (k : list Z)
| KeyX509Sha256Digest (k : list Z)
| KeyUnrecognized (key_type : Z) (key_digest : list Z).

Definition ck_key_type (k : CertifiedKey) : Z :=
  match k with
  | KeyEd25519 _ => KeyType.ED25519_KEY
  | KeyRsaSha256Digest _ => KeyType.SHA256_OF_RSA
  | KeyX509Sha256Digest _ => KeyType.SHA256_OF_X509
  | KeyUnrecognized t _ => t
  end.
Definition ck_as_bytes (k : CertifiedKey) : list Z :=
  match k with KeyEd25519 k | KeyRsaSha256Digest k | KeyX509Sha256Digest k | KeyUnrecognized _ k => k end.
Definition ck_as_ed25519 (k : CertifiedKey) : option (list Z) :=
  match k with KeyEd25519 k => Some k | _ => None end.

Definition CertifiedKey_from_reader (key_type : Z) : RD CertifiedKey :=
  if key_type =? KeyType.ED25519_KEY then k ← extract (take_array 32); mret (KeyEd25519 k)
  else if key_type =? KeyType.SHA256_OF_RSA then k ← extract (take_array 32); mret (KeyRsaSha256Digest k)
  else if key_type =? KeyType.SHA256_OF_X509 then k ← extract (take_array 32); mret (KeyX509Sha256Digest k)
  else k ← extract (take_array 32); mret (KeyUnrecognized key_type k).

Inductive CertExt : Type :=
| SignedWithEd25519 (pk : list Z)
| ExtUnrecognized (affects_validation : bool) (ext_type : Z) (body : list Z).

Definition ext_id (e : CertExt) : Z :=
  match e with SignedWithEd25519 _ => SIGNED_WITH_ED25519_KEY | ExtUnrecognized _ t _ => t end.

Definition CertExt_take_from : RD CertExt :=
  len ← take_u16;
  ext_type ← take_u8;
  flags ← take_u8;
  body ← rd_take (Z.to_nat len);
  if ext_type =? SIGNED_WITH_ED25519_KEY then
    if (length body =? 32)%nat then mret (SignedWithEd25519 body)
    else rd_fail (InvalidMessage "wrong length on Ed25519 key")
  else if negb (Z.land flags 1 =? 0) then
    rd_fail (InvalidMessage "unrecognized certificate extension, with 'affects_validation' flag set.")
  else mret (ExtUnrecognized false ext_type body).

Record Ed25519Cert : Type := mkCert {
  ce_exp_hours : Z;
  ce_cert_type : Z;
  ce_cert_key : CertifiedKey;
  ce_extensions : list CertExt;
  ce_signed_with : option (list Z) }.

(** [KeyUnknownCert] wraps an [UncheckedCert]. *)
Record UncheckedCert : Type := mkUnchecked {
  uc_cert : Ed25519Cert;
  uc_text : list Z;
  uc_signature : list Z }.

Definition rd_consumed : RD nat := λ r, (r, Ok (consumed r)).

(** [extensions.iter().find(..)] and the key of the one found. *)
Definition included_pkey (exts : list CertExt) : option (list Z) :=
  match find (λ e, ext_id e =? SIGNED_WITH_ED25519_KEY) exts with
  | Some (SignedWithEd25519 pk) => Some pk
  | _ => None
  end.

Definition Ed25519Cert_take (cert : list Z) : RD UncheckedCert :=
  v ← take_u8;
  if negb (v =? 1) then rd_fail (InvalidMessage "Unrecognized certificate version") else
  cert_type ← take_u8;
  exp_hours ← take_u32;
  cert_key_type ← take_u8;
  let cert_key_type :=
    if (cert_type =? CertType.SIGNING_V_TLS_CERT) && (cert_key_type =? KeyType.ED25519_KEY)
    then KeyType.SHA256_OF_X509 else cert_key_type in
  cert_key ← CertifiedKey_from_reader cert_key_type;
  n_exts ← take_u8;
  extensions ← repeat_read (extract CertExt_take_from) (Z.to_nat n_exts);
  sig_offset ← rd_consumed;
  signature ← extract (take_array 64);
  _ ← should_be_exhausted;
  mret (mkUnchecked (mkCert exp_hours cert_type cert_key extensions (included_pkey extensions))
          (take sig_offset cert) signature).

(** [Ed25519Cert::decode]. *)
Definition Ed25519Cert_decode (cert : list Z) : res BytesError UncheckedCert :=
  snd (Ed25519Cert_take cert (from_slice cert)).

(** The time [exp_hours] hours after the epoch. *)
Definition expiry_of (exp_hours : Z) : Z := exp_hours * 3600 * 1000000000.
Definition expiry (c : Ed25519Cert) : Z := expiry_of (ce_exp_hours c).
Definition is_expired_at (c : Ed25519Cert) (t : Z) : bool := expiry c <=? t.

Definition cert_is_valid_at (c : Ed25519Cert) (t : Z) : res TimeValidityError unit :=
  if is_expired_at c t then
    match duration_since t (expiry c) with Some d => Err (Expired d) | None => Panic end
  else Ok tt.

Definition cert_check_valid_at (c : Ed25519Cert) (t : Z) : res TimeValidityError Ed25519Cert :=
  _ ← cert_is_valid_at c t; Ok c.

Inductive CertError : Type := KeyMismatch | MissingPubKey | BadSignature.

Definition with_signer (k : list Z) (u : UncheckedCert) : UncheckedCert :=
  let c := uc_cert u in
  mkUnchecked (mkCert (ce_exp_hours c) (ce_cert_type c) (ce_cert_key c) (ce_extensions c) (Some k))
    (uc_text u) (uc_signature u).

Definition should_have_signing_key (u : UncheckedCert) : res CertError UncheckedCert :=
  match ce_signed_with (uc_cert u) with
  | Some a => Ok (with_signer a u)
  | None => Err MissingPubKey
  end.

Definition should_be_signed_with (u : UncheckedCert) (pkey : list Z) : res CertError UncheckedCert :=
  match ce_signed_with (uc_cert u) with
  | Some a => if bytes_eq a pkey then Ok (with_signer pkey u) else Err KeyMismatch
  | None => Ok (with_signer pkey u)
  end.

(** The deprecated [KeyUnknownCert::check_key]. *)
Definition check_key (u : UncheckedCert) (pkey : option (list Z)) : res CertError UncheckedCert :=
  match pkey with
  | Some wanted => should_be_signed_with u wanted
  | None => should_have_signing_key u
  end.

Section check.
Context {SK : Type} `{!Signing SK}.

(** A [SigCheckedCert] is the certificate it wraps. *)
Definition dangerously_split (u : UncheckedCert) :
    res CertError (Ed25519Cert * ValidatableEd25519Signature) :=
  signing_key ← ok_or (ce_signed_with (uc_cert u)) MissingPubKey;
  if ed_point signing_key
  then Ok (uc_cert u, mkValidatable signing_key (uc_signature u) (uc_text u))
  else Err BadSignature.

Definition is_well_signed (u : UncheckedCert) : res CertError unit :=
  pubkey ← ok_or (ce_signed_with (uc_cert u)) MissingPubKey;
  if negb (ed_point pubkey) then Err BadSignature else
  if ed_verify pubkey (uc_text u) (uc_signature u) then Ok tt else Err BadSignature.

(** [SelfSigned::check_signature]. *)
Definition check_signature (u : UncheckedCert) : res CertError Ed25519Cert :=
  _ ← is_well_signed u; Ok (uc_cert u).
End check.

(** ** Building certificates (encode.rs) *)

Inductive CertEncodeError : Type :=
| EncKeyMismatch
| TooManyExtensions
| ExtensionTooLong
| MissingField (name : string)
| CertEncBytes (e : EncodeError).

Record Ed25519CertConstructor : Type := mkConstructor {
  cc_exp_hours : option Z;
  cc_cert_type : option Z;
  cc_cert_key : option CertifiedKey;
  cc_extensions : option (list CertExt);
  cc_signed_with : option (option (list Z)) }.

Definition constructor_default : Ed25519CertConstructor := mkConstructor None None None None None.

(** [expiration]: hours, rounded up; [t] may precede the epoch. *)
Definition exp_hours_of (t : Z) : Z :=
  let secs := default 0 (duration_since t 0) / 1000000000 in
  let hours := saturating_add u64_max secs (3600 - 1) / 3600 in
  if hours <=? u32_max then hours else u32_max.
Definition cc_expiration (t : Z) (c : Ed25519CertConstructor) : Ed25519CertConstructor :=
  mkConstructor (Some (exp_hours_of t)) (cc_cert_type c) (cc_cert_key c) (cc_extensions c) (cc_signed_with c).

(** The setters [derive_builder] generates. *)
Definition cc_set_cert_type (ty : Z) (c : Ed25519CertConstructor) : Ed25519CertConstructor :=
  mkConstructor (cc_exp_hours c) (Some ty) (cc_cert_key c) (cc_extensions c) (cc_signed_with c).
Definition cc_set_cert_key (k : CertifiedKey) (c : Ed25519CertConstructor) : Ed25519CertConstructor :=
  mkConstructor (cc_exp_hours c) (cc_cert_type c) (Some k) (cc_extensions c) (cc_signed_with c).

Definition is_signed_with_ext (e : CertExt) : bool :=
  match e with SignedWithEd25519 _ => true | _ => false end.

Definition clear_signing_key (c : Ed25519CertConstructor) : Ed25519CertConstructor :=
  mkConstructor (cc_exp_hours c) (cc_cert_type c) (cc_cert_key c)
    (Some (List.filter (λ e, negb (is_signed_with_ext e)) (default [] (cc_extensions c)))) None.

Definition set_signing_key (k : list Z) (c : Ed25519CertConstructor) : Ed25519CertConstructor :=
  let c := clear_signing_key c in
  mkConstructor (cc_exp_hours c) (cc_cert_type c) (cc_cert_key c)
    (Some (default [] (cc_extensions c) ++ [SignedWithEd25519 k])) (Some (Some k)).

Definition CertExt_write (e : CertExt) (w : list Z) : res EncodeError (list Z) :=
  match e with
  | SignedWithEd25519 pk => Ok (write_all pk (write_u8 0 (write_u8 SIGNED_WITH_ED25519_KEY (write_u16 32 w))))
  | ExtUnrecognized affects ty body =>
      if Z.of_nat (length body) <=? u16_max then
        Ok (write_all body (write_u8 (Z.b2z affects) (write_u8 ty (write_u16 (Z.of_nat (length body)) w))))
      else Err EncBadLengthValue
  end.

Section encode.
Context {SK : Type} `{!Signing SK}.

Definition encode_and_sign (c : Ed25519CertConstructor) (skey : SK) : res CertEncodeError (list Z) :=
  _ ← match cc_signed_with c with
      | Some (Some signer) =>
          if negb (bytes_eq signer (ed_public skey)) then Err EncKeyMismatch else Ok tt
      | _ => Ok tt
      end;
  let w := write_u8 1 [] in
  cert_type ← ok_or (cc_cert_type c) (MissingField "cert_type");
  let w := write_u8 cert_type w in
  exp_hours ← ok_or (cc_exp_hours c) (MissingField "expiration");
  let w := write_u32 exp_hours w in
  cert_key ← ok_or (cc_cert_key c) (MissingField "cert_key");
  let w := write_all (ck_as_bytes cert_key) (write_u8 (ck_key_type cert_key) w) in
  let extensions := default [] (cc_extensions c) in
  n ← (if Z.of_nat (length extensions) <=? u8_max then Ok (Z.of_nat (length extensions))
       else Err TooManyExtensions);
  w ← map_err CertEncBytes (write_list CertExt_write extensions (write_u8 n w));
  Ok (write_all (ed_sign skey w) w).
End encode.

(** ** RSA cross-certificates (rsa.rs) *)

Record RsaCrosscert : Type := mkCrosscert {
  rc_subject_key : list Z;
  rc_exp_hours : Z;
  rc_digest : list Z;
  rc_signature : list Z }.

Definition rc_expiry (c : RsaCrosscert) : Z := expiry_of (rc_exp_hours c).
Definition subject_key_matches (c : RsaCrosscert) (other : list Z) : bool := bytes_eq other (rc_subject_key c).

Section rsa.
Context {SK : Type} `{!Signing SK}.

(** [RsaCrosscert::decode] allows bytes after the signature. *)
Definition RsaCrosscert_take : RD RsaCrosscert := λ r,
  (signed_portion ← (λ r, (r, peek 36 r));
   subject_key ← extract (take_array 32);
   exp_hours ← take_u32;
   siglen ← take_u8;
   signature ← rd_take (Z.to_nat siglen);
   mret (mkCrosscert subject_key exp_hours
           (sha256 (str "Tor TLS RSA/Ed25519 cross-certificate" ++ signed_portion)) signature)) r.
Definition RsaCrosscert_decode (bytes : list Z) : res BytesError RsaCrosscert :=
  snd (RsaCrosscert_take (from_slice bytes)).

Definition rc_is_well_signed (c : RsaCrosscert) (k : list Z) : res BytesError unit :=
  if rsa_verify k (rc_digest c) (rc_signature c) then Ok tt
  else Err (InvalidMessage "Invalid signature on RSA->Ed identity crosscert").

Definition rc_check_signature (c : RsaCrosscert) (k : list Z) : res BytesError (TimerangeBound RsaCrosscert) :=
  _ ← rc_is_well_signed c k; Ok (mkTimerange c None (Some (rc_expiry c))).
End rsa.

(** ** What is built reads back *)

(** The calls of the constructor's interface. *)
Inductive BuilderCall : Type :=
| Expiration (t : Z)
| SetCertType (ty : Z)
| SetCertKey (k : CertifiedKey)
| SetSigningKey (k : list Z)
| ClearSigningKey.

Definition builder_call (c : Ed25519CertConstructor) (call : BuilderCall) : Ed25519CertConstructor :=
  match call with
  | Expiration t => cc_expiration t c
  | SetCertType ty => cc_set_cert_type ty c
  | SetCertKey k => cc_set_cert_key k c
  | SetSigningKey k => set_signing_key k c
  | ClearSigningKey => clear_signing_key c
  end.
Definition build_cert (calls : list BuilderCall) : Ed25519CertConstructor :=
  foldl builder_call constructor_default calls.

(** The keys that can be made: [from_reader] makes no unrecognized key with a recognized type. *)
Definition key_wf (k : CertifiedKey) : Prop :=
  length (ck_as_bytes k) = 32%nat ∧
  match k with KeyUnrecognized ty _ => in_uint u8_max ty ∧ ¬ 1 ≤ ty ≤ 3 | _ => True end.

(** The arguments the types of the interface allow. *)
Definition call_ok (call : BuilderCall) : Prop :=
  match call with
  | SetCertType ty => in_uint u8_max ty
  | SetCertKey k => key_wf k
  | SetSigningKey k => length k = 32%nat
  | _ => True
  end.
#[export] Instance key_wf_dec k : Decision (key_wf k).
Proof. destruct k; apply _. Defined.
#[export] Instance call_ok_dec call : Decision (call_ok call).
Proof. destruct call; apply _. Defined.

(** What every sequence of calls leaves: the list of extensions is the signing key, when it is set. *)
Definition constructor_wf (c : Ed25519CertConstructor) : Prop :=
  (∀ h, cc_exp_hours c = Some h → in_uint u32_max h) ∧
  (∀ ty, cc_cert_type c = Some ty → in_uint u8_max ty) ∧
  (∀ k, cc_cert_key c = Some k → key_wf k) ∧
  match cc_signed_with c with
  | Some (Some k) => cc_extensions c = Some [SignedWithEd25519 k] ∧ length k = 32%nat
  | Some None => False
  | None => default [] (cc_extensions c) = []
  end.

Lemma exp_hours_of_bound t : in_uint u32_max (exp_hours_of t).
Proof.
  unfold exp_hours_of, duration_since, saturating_add, in_uint.
  set (s := default 0 _). assert (0 ≤ s) by (subst s; case_match; simpl; zify_bool; lia).
  set (h := _ / 3600). assert (0 ≤ h).
  { apply Z.div_pos; [|lia]. pose proof (Z.div_pos s 1000000000). unfold u64_max. lia. }
  case_match; zify_bool; unfold u32_max in *; lia.
Qed.

Lemma no_signing_ext c :
  constructor_wf c → List.filter (λ e, negb (is_signed_with_ext e)) (default [] (cc_extensions c)) = [].
Proof.
  intros (_ & _ & _ & H). destruct (cc_signed_with c) as [[k|]|]; [|done|by rewrite H].
  by destruct H as [-> _].
Qed.

Lemma builder_call_wf c call : constructor_wf c → call_ok call → constructor_wf (builder_call c call).
Proof.
  intros Hwf Hc. pose proof (no_signing_ext c Hwf) as Hno. destruct Hwf as (He & Ht & Hk & Hs).
  destruct call; simpl in Hc;
    (split; [|split; [|split]]); simpl; try done; try (intros ? [= <-]; done).
  - intros ? [= <-]. apply exp_hours_of_bound.
  - by rewrite Hno.
Qed.

Lemma build_cert_wf calls : Forall call_ok calls → constructor_wf (build_cert calls).
Proof.
  intros Hc. unfold build_cert.
  assert (constructor_wf constructor_default) as Hd by done. revert Hd.
  generalize constructor_default. induction Hc as [|call calls Hcall _ IH]; intros c Hd; [done|].
  apply IH. by apply builder_call_wf.
Qed.

(** [runs f pre bs v]: after [pre], [f] consumes the rest [bs] and returns [v]. *)
Definition runs {A} (f : RD A) (pre bs : list Z) (v : A) : Prop :=
  ∀ c, f (mkReader (pre ++ bs) (length pre) c) = (mkReader (pre ++ bs) (length pre + length bs) c, Ok v).

Lemma runs_bind {A B} (f : RD A) (g : A → RD B) pre bs1 bs2 v w :
  reads f bs1 v → runs (g v) (pre ++ bs1) bs2 w → runs (f ≫= g) pre (bs1 ++ bs2) w.
Proof.
  intros Hf Hg c. unfold mbind, RD_mbind. rewrite Hf.
  specialize (Hg c). rewrite <-(assoc_L app), length_app in Hg.
  by rewrite Hg, length_app, Nat.add_assoc.
Qed.

Lemma reads_array n bs : n = length bs → reads (extract (take_array n)) bs bs.
Proof. intros. by apply reads_extract, reads_take'. Qed.

(** The key that is read for one that was written: for the certificate of a TLS certificate an
    Ed25519 key is taken for the digest of an X.509 certificate. *)
Definition read_key (ty : Z) (k : CertifiedKey) : CertifiedKey :=
  match k with
  | KeyEd25519 b => if ty =? CertType.SIGNING_V_TLS_CERT then KeyX509Sha256Digest b else k
  | _ => k
  end.

Lemma reads_key ty k :
  key_wf k →
  reads (CertifiedKey_from_reader
           (if (ty =? CertType.SIGNING_V_TLS_CERT) && (ck_key_type k =? KeyType.ED25519_KEY)
            then KeyType.SHA256_OF_X509 else ck_key_type k)) (ck_as_bytes k) (read_key ty k).
Proof.
  intros [Hl Hk]. unfold read_key, CertifiedKey_from_reader.
  assert (∀ (f : list Z → CertifiedKey),
    reads (x ← extract (take_array 32); mret (f x)) (ck_as_bytes k) (f (ck_as_bytes k))) as Hr.
  { intros f. eapply reads_bind_nil; [by apply reads_array|apply reads_ret]. }
  destruct k as [b|b|b|t b]; simpl ck_key_type; simpl ck_as_bytes in *.
  - destruct (ty =? _); simpl; apply (Hr (λ b, _ b)).
  - rewrite andb_false_r. simpl. apply (Hr KeyRsaSha256Digest).
  - rewrite andb_false_r. simpl. apply (Hr KeyX509Sha256Digest).
  - destruct Hk as [_ Hk]. unfold KeyType.ED25519_KEY, KeyType.SHA256_OF_RSA, KeyType.SHA256_OF_X509.
    rewrite !(proj2 (Z.eqb_neq t _)) by lia. rewrite andb_false_r.
    rewrite !(proj2 (Z.eqb_neq t _)) by lia. apply (Hr (KeyUnrecognized t)).
Qed.

(** Extensions that can be written and are read back. *)
Definition ext_wf (e : CertExt) : Prop :=
  match e with
  | SignedWithEd25519 pk => length pk = 32%nat
  | ExtUnrecognized affects ty _ => affects = false ∧ ty ≠ SIGNED_WITH_ED25519_KEY
  end.

Lemma CertExt_roundtrip e w bs :
  ext_wf e → CertExt_write e w = Ok bs → ∃ c, bs = w ++ c ∧ reads (extract CertExt_take_from) c e.
Proof.
  unfold CertExt_write, write_u16, write_u8, write_all, vec_writer. intros Hwf Hw.
  destruct e as [pk|affects ty body]; simpl in Hwf.
  - injection Hw as <-. eexists. rewrite <-!(assoc_L app). split; [done|].
    apply reads_extract. unfold CertExt_take_from.
    eapply reads_bind; [by apply reads_u16|]. eapply (reads_bind _ _ [_]); [apply reads_u8|].
    eapply (reads_bind _ _ [_]); [apply reads_u8|].
    eapply reads_bind_nil; [by apply reads_take'|]. rewrite Hwf. apply reads_ret.
  - destruct Hwf as [-> Hty]. case_match; [|done]. zify_bool. injection Hw as <-. eexists.
    rewrite <-!(assoc_L app). split; [done|]. apply reads_extract. unfold CertExt_take_from.
    eapply reads_bind; [apply reads_u16; unfold in_uint; lia|].
    eapply (reads_bind _ _ [_]); [apply reads_u8|]. eapply (reads_bind _ _ [_]); [apply reads_u8|].
    eapply reads_bind_nil; [by apply reads_take'; rewrite Nat2Z.id|].
    rewrite (proj2 (Z.eqb_neq _ _)) by done. apply reads_ret.
Qed.

(** What is read after the extensions. *)
Lemma cert_tail pre sig (g : nat → list Z → UncheckedCert) :
  length sig = 64%nat →
  runs (sig_offset ← rd_consumed; signature ← extract (take_array 64); _ ← should_be_exhausted;
        mret (g sig_offset signature)) pre sig (g (length pre) sig).
Proof.
  intros Hs c. unfold mbind at 1, RD_mbind at 1, rd_consumed, consumed. cbn [rd_off].
  pose proof (reads_array 64 sig ltac:(done) pre [] c) as Ha. rewrite app_nil_r in Ha.
  unfold mbind, RD_mbind. rewrite Ha. unfold should_be_exhausted, remaining. cbn [rd_off rd_b].
  by rewrite length_app, Nat.sub_diag.
Qed.

(** The signed part of a certificate. *)
Definition cert_text (ty h : Z) (k : CertifiedKey) (n : Z) (exts : list Z) : list Z :=
  [1] ++ [ty] ++ to_be_bytes 4 h ++ [ck_key_type k] ++ ck_as_bytes k ++ [n] ++ exts.

Lemma runs_cert ty h k exts bexts sig cert :
  in_uint u32_max h → key_wf k → length sig = 64%nat →
  reads (repeat_read (extract CertExt_take_from) (length exts)) bexts exts →
  cert = cert_text ty h k (Z.of_nat (length exts)) bexts ++ sig →
  runs (Ed25519Cert_take cert) [] cert
    (mkUnchecked (mkCert h ty (read_key ty k) exts (included_pkey exts))
       (cert_text ty h k (Z.of_nat (length exts)) bexts) sig).
Proof.
  intros Hh Hk Hs Hexts Hcert. set (text := cert_text _ _ _ _ _) in *.
  assert (take (length text) cert = text) as <- by (rewrite Hcert; apply take_app_length).
  rewrite Hcert at 2. unfold text at 1, cert_text. rewrite <-!(assoc_L app).
  unfold Ed25519Cert_take.
  eapply (runs_bind _ _ _ [_]); [apply reads_u8|]. simpl negb. cbv match.
  eapply (runs_bind _ _ _ [_]); [apply reads_u8|].
  eapply runs_bind; [by apply reads_u32|].
  eapply (runs_bind _ _ _ [_]); [apply reads_u8|]. cbv zeta.
  eapply runs_bind; [by apply reads_key|].
  eapply (runs_bind _ _ _ [_]); [apply reads_u8|].
  eapply runs_bind; [by rewrite Nat2Z.id|].
  rewrite <-!(assoc_L app). rewrite app_nil_l.
  by apply (cert_tail text sig (λ o s, mkUnchecked _ (take o cert) s)).
Qed.

Section roundtrip.
Context {SK : Type} `{!Signing SK, !SigningLaws SK}.

Lemma encode_and_sign_inv c (sk : SK) bs :
  encode_and_sign c sk = Ok bs →
  ∃ ty h k bexts text, cc_cert_type c = Some ty ∧ cc_exp_hours c = Some h ∧ cc_cert_key c = Some k ∧
    (∀ key, cc_signed_with c = Some (Some key) → key = ed_public sk) ∧
    write_list CertExt_write (default [] (cc_extensions c)) bexts = Ok text ∧
    bexts = cert_text ty h k (Z.of_nat (length (default [] (cc_extensions c)))) [] ∧
    bs = text ++ ed_sign sk text.
Proof.
  unfold encode_and_sign. intros ([] & Hs & Hb)%bind_ok.
  apply bind_ok in Hb as (ty & Hty%ok_or_ok & Hb).
  apply bind_ok in Hb as (h & Hh%ok_or_ok & Hb).
  apply bind_ok in Hb as (k & Hk%ok_or_ok & Hb).
  apply bind_ok in Hb as (n & Hn & Hb). apply bind_ok in Hb as (w & Hw & Hb).
  case_match; [|done]. injection Hn as <-. injection Hb as <-.
  destruct (write_list _ _ _) as [w'| |] eqn:Hl; [|done..]. injection Hw as ->.
  eexists ty, h, k, _, w. repeat split; try done.
  - intros key Hkey. rewrite Hkey in Hs. destruct (bytes_eq key _) eqn:E; [|done].
    unfold bytes_eq in E. by apply bool_decide_eq_true in E.
Qed.

(** C30: A certificate built by any sequence of the constructor's calls and signed with a key is
    decoded again: it is accepted as signed with that key, its signature verifies, the decoded
    certificate has the type, expiration and (up to the treatment of TLS certificates) key that were
    set, and it is valid exactly before its expiry time. *)
Theorem cert_roundtrip (calls : list BuilderCall) (sk : SK) (bs : list Z) :
  Forall call_ok calls → encode_and_sign (build_cert calls) sk = Ok bs →
  ∃ ty h k u u' cert,
    cc_cert_type (build_cert calls) = Some ty ∧ cc_exp_hours (build_cert calls) = Some h ∧
    cc_cert_key (build_cert calls) = Some k ∧
    Ed25519Cert_decode bs = Ok u ∧
    should_be_signed_with u (ed_public sk) = Ok u' ∧
    check_signature u' = Ok cert ∧
    ce_cert_type cert = ty ∧ ce_exp_hours cert = h ∧ ce_cert_key cert = read_key ty k ∧
    ce_signed_with cert = Some (ed_public sk) ∧
    ∀ t, cert_check_valid_at cert t = if t <? expiry_of h then Ok cert else Err (Expired (t - expiry_of h)).
Proof.
  intros Hc (ty & h & k & bexts & text & Hty & Hh & Hk & Hs & Hw & -> & ->)%encode_and_sign_inv.
  pose proof (build_cert_wf calls Hc) as (Wh & Wty & Wk & Wext). set (c := build_cert calls) in *.
  assert (Forall ext_wf (default [] (cc_extensions c)) ∧
    ∀ key, included_pkey (default [] (cc_extensions c)) = Some key → key = ed_public sk) as [Wx Wi].
  { destruct (cc_signed_with c) as [[key|]|]; [|done|by rewrite Wext].
    destruct Wext as [-> Hl]. split; [by repeat constructor|]. intros ? [= <-]. by apply Hs. }
  eapply (reads_repeat _ _ id) in Hw as (bx & Htext & Hr);
    [|eapply Forall_impl; [exact Wx|]; intros e He w bs; by apply CertExt_roundtrip].
  rewrite list_fmap_id in Hr.
  assert (text = cert_text ty h k (Z.of_nat (length (default [] (cc_extensions c)))) bx) as ->.
  { rewrite Htext. unfold cert_text. by rewrite <-!(assoc_L app). }
  set (text := cert_text _ _ _ _ _) in *. set (sig := ed_sign sk text).
  pose proof (runs_cert ty h k _ bx sig (text ++ sig) (Wh _ Hh) (Wk _ Hk) (ed_sign_len _ _) Hr eq_refl
    SupposedlyComplete) as Hrun.
  set (exts := default [] _) in *. fold text in Hrun.
  exists ty, h, k. eexists _, _, (mkCert h ty (read_key ty k) exts (Some (ed_public sk))).
  repeat split; try done.
  - unfold Ed25519Cert_decode. change (from_slice _) with (mkReader ([] ++ text ++ sig) 0 SupposedlyComplete).
    change 0%nat with (length (@nil Z)). rewrite Hrun. done.
  - unfold should_be_signed_with. simpl. destruct (included_pkey exts) as [key|]; [|done].
    rewrite (Wi key eq_refl), bytes_eq_refl. done.
  - unfold check_signature, is_well_signed. subst sig. simpl. by rewrite ed_public_point, ed_verify_sign.
  - intros t. unfold cert_check_valid_at, cert_is_valid_at, is_expired_at, duration_since, expiry. simpl.
    destruct (Z.ltb_spec t (expiry_of h)); [by rewrite (proj2 (Z.leb_gt _ _))|].
    by rewrite (proj2 (Z.leb_le _ _)).
Qed.
End roundtrip.

(** ** Bytes from anyone *)

#[export] Instance safe_consumed : Safe rd_consumed.
Proof. by intros r Hr. Qed.
#[export] Instance safe_exhausted : Safe should_be_exhausted.
Proof. intros r Hr. unfold should_be_exhausted. by case_match. Qed.
#[export] Instance safe_key ty : Safe (CertifiedKey_from_reader ty).
Proof. unfold CertifiedKey_from_reader, take_array. apply _. Qed.
#[export] Instance safe_ext : Safe CertExt_take_from.
Proof. unfold CertExt_take_from. apply _. Qed.
#[export] Instance safe_cert cert : Safe (Ed25519Cert_take cert).
Proof. unfold Ed25519Cert_take, take_array. apply _. Qed.

Lemma find_included exts pk :
  included_pkey exts = Some pk → SignedWithEd25519 pk ∈ exts.
Proof.
  unfold included_pkey. destruct (find _ exts) as [[k|]|] eqn:E; [|done..].
  intros [= <-]. apply find_some in E as [Hin _]. by apply list_elem_of_In.
Qed.

(** The expiry time a constructor is given is rounded to an hour: at most an hour later, and less
    than a second earlier. *)
Lemma exp_hours_of_spec t :
  0 ≤ t → t ≤ expiry_of u32_max →
  t - 1000000000 < expiry_of (exp_hours_of t) < t + 3600 * 1000000000.
Proof.
  intros Ht Hm. unfold exp_hours_of, duration_since. rewrite (proj2 (Z.leb_le 0 t)) by done. simpl default.
  rewrite Z.sub_0_r. set (secs := t / 1000000000).
  assert (secs * 1000000000 ≤ t < secs * 1000000000 + 1000000000) as Hs.
  { pose proof (Z.div_mod t 1000000000). pose proof (Z.mod_pos_bound t 1000000000). lia. }
  unfold expiry_of, u32_max in *. unfold saturating_add, u64_max.
  rewrite Z.min_l by lia. set (hours := (secs + (3600 - 1)) / 3600).
  assert (secs ≤ hours * 3600 < secs + 3600) as Hh.
  { pose proof (Z.div_mod (secs + 3599) 3600). pose proof (Z.mod_pos_bound (secs + 3599) 3600).
    subst hours. change (3600 - 1) with 3599. lia. }
  rewrite (proj2 (Z.leb_le _ _)) by lia. lia.
Qed.

(** A read that succeeds leaves the slice to the reads after it. *)
Lemma safe_bind_inv {A B} (f : RD A) `{!Safe f} (g : A → RD B) r b :
  rd_wf r → snd ((f ≫= g) r) = Ok b →
  ∃ a r', snd (g a r') = Ok b ∧ rd_b r' = rd_b r ∧ rd_wf r' ∧ f r = (r', Ok a).
Proof.
  intros Hr. pose proof (safe (f:=f) r Hr) as (_ & Hb & _ & Hw). unfold mbind, RD_mbind.
  destruct (f r) as [r' [a|e|]]; [|done..]. intros H. by exists a, r'.
Qed.

Lemma Ed25519Cert_decode_inv bytes u :
  Ed25519Cert_decode bytes = Ok u →
  bytes = uc_text u ++ uc_signature u ∧ length (uc_signature u) = 64%nat ∧
  ce_signed_with (uc_cert u) = included_pkey (ce_extensions (uc_cert u)).
Proof.
  unfold Ed25519Cert_decode, Ed25519Cert_take. intros H.
  apply safe_bind_inv in H as (v & r1 & H & Hb1 & Hw1 & _); [|apply _|unfold rd_wf; simpl; lia].
  destruct (v =? 1); [|done]. cbn [negb] in H.
  apply safe_bind_inv in H as (ty & r2 & H & Hb2 & Hw2 & _); [|apply _|done].
  apply safe_bind_inv in H as (h & r3 & H & Hb3 & Hw3 & _); [|apply _|done].
  apply safe_bind_inv in H as (kt & r4 & H & Hb4 & Hw4 & _); [|apply _|done]. cbv zeta in H.
  apply safe_bind_inv in H as (k & r5 & H & Hb5 & Hw5 & _); [|apply _|done].
  apply safe_bind_inv in H as (n & r6 & H & Hb6 & Hw6 & _); [|apply _|done].
  apply safe_bind_inv in H as (exts & r7 & H & Hb7 & Hw7 & _); [|apply _|done].
  assert (rd_b r7 = bytes) as Hb by (rewrite Hb7, Hb6, Hb5, Hb4, Hb3, Hb2, Hb1; done).
  clear -H Hb Hw7. unfold mbind at 1, RD_mbind at 1, rd_consumed, consumed in H.
  unfold mbind, RD_mbind, extract, take_array in H.
  destruct (decide (64 ≤ remaining r7)%nat) as [Hn|Hn]; [|by rewrite rd_take_err in H by lia].
  rewrite rd_take_ok in H by done. unfold should_be_exhausted, set_off, remaining in H. simpl in H.
  destruct (Nat.eqb_spec (length (rd_b r7) - (rd_off r7 + 64)) 0) as [E|]; [|done]. injection H as <-. simpl.
  unfold rd_wf, remaining in *. rewrite Hb in *. split_and!; [|rewrite length_take, length_drop; lia|done].
  rewrite (take_ge (drop _ _)) by (rewrite length_drop; lia). by rewrite take_drop.
Qed.

Section foreign.
Context {SK : Type} `{!Signing SK}.

#[export] Instance safe_crosscert : Safe RsaCrosscert_take.
Proof.
  assert (Safe (λ r, (r, peek 36 r))).
  { intros r Hr. unfold safe_after, peek. simpl. by case_match. }
  unfold RsaCrosscert_take, take_array. apply safe_bind; apply _.
Qed.

(** C31: Whatever bytes are presented as a certificate, decoding and checking them with any key at
    any time returns a value or an error; a certificate that passes is one whose bytes before the
    last 64 verify under the key that was asked for, which is the key it lists if it lists one, and
    whose expiry time is later. *)
Theorem cert_checks_sound (bytes key : list Z) (now : Z) :
  let checked :=
    u ← map_err inl (map_err inl (Ed25519Cert_decode bytes));
    u ← map_err inl (map_err inr (should_be_signed_with u key));
    cert ← map_err inl (map_err inr (check_signature u));
    map_err inr (cert_check_valid_at cert now) : res ((BytesError + CertError) + TimeValidityError) Ed25519Cert in
  checked ≠ Panic ∧
  ∀ cert, checked = Ok cert →
    ∃ text sig, bytes = text ++ sig ∧ length sig = 64%nat ∧
      ed_point key = true ∧ ed_verify key text sig = true ∧ now < expiry cert ∧
      (∀ pk, included_pkey (ce_extensions cert) = Some pk → pk = key).
Proof.
  intros checked. split.
  - subst checked. unfold Ed25519Cert_decode.
    pose proof (safe (f:=Ed25519Cert_take bytes) (from_slice bytes)) as [Hp _]; [unfold rd_wf; simpl; lia|].
    destruct (snd _) as [u|e|]; [|done..]. simpl.
    unfold should_be_signed_with, check_signature, is_well_signed, cert_check_valid_at, cert_is_valid_at.
    unfold duration_since, is_expired_at. repeat (case_match; simpl; try done); zify_bool; lia.
  - intros cert. subst checked. destruct (Ed25519Cert_decode bytes) as [u| |] eqn:Hd; [|done..].
    apply Ed25519Cert_decode_inv in Hd as (-> & Hl & Hs). simpl. unfold should_be_signed_with.
    assert (∀ u', map_err inl (map_err inr (check_signature (with_signer key u))) ≫=
        (λ cert, map_err inr (cert_check_valid_at cert now)) = (Ok u' : res ((BytesError + CertError) + _) _) →
      u' = uc_cert (with_signer key u) ∧ ed_point key = true ∧
      ed_verify key (uc_text u) (uc_signature u) = true ∧ now < expiry u') as Hu.
    { intros u'. unfold check_signature, is_well_signed, cert_check_valid_at, cert_is_valid_at, is_expired_at.
      unfold duration_since. simpl. repeat (case_match; simpl; try done). zify_bool. by intros [= <-]. }
    destruct (ce_signed_with (uc_cert u)) as [a|] eqn:Ha.
    + unfold bytes_eq. case_bool_decide as Hk; [|done]. subst a. intros (-> & Hpt & Hv & Hx)%Hu.
      exists (uc_text u), (uc_signature u). split_and!; try done. simpl. intros pk. rewrite <-Hs. congruence.
    + intros (-> & Hpt & Hv & Hx)%Hu.
      exists (uc_text u), (uc_signature u). split_and!; try done. simpl. intros pk. by rewrite <-Hs.
Qed.
End foreign.

(** ** An instance

    A key is a number, and a signature a checksum of the key and the text. *)

Definition toy_checksum (k msg : list Z) : Z := (default 0 (head k) + foldr Z.add 0 msg) mod 256.

#[export] Instance toy_signing : Signing Z := {|
  ed_public := λ sk, replicate 32 sk;
  ed_sign := λ sk msg, replicate 64 (toy_checksum [sk] msg);
  ed_point := λ k, (length k =? 32)%nat;
  ed_verify := λ k msg sig, bytes_eq sig (replicate 64 (toy_checksum k msg));
  verify_batch := λ sigs, forallb (λ '(m, s, k), bytes_eq s (replicate 64 (toy_checksum k m))) sigs;
  sha256 := λ msg, replicate 32 (toy_checksum [] msg);
  x509_extract_rsa_subject_kludge := λ c, if (3 <=? length c)%nat then Some (take 3 c) else None;
  rsa_verify := λ k msg sig, bytes_eq sig [toy_checksum k msg];
  to_rsa_identity := λ k, replicate 20 (toy_checksum k []);
|}.

#[export] Instance toy_signing_laws : SigningLaws Z.
Proof. split; try done. intros sk msg. apply bytes_eq_refl. Qed.

Definition toy_calls : list BuilderCall :=
  [SetSigningKey (replicate 32 9); Expiration (7000 * 1000000000); SetCertType CertType.SIGNING_V_TLS_CERT;
   SetCertKey (KeyEd25519 (replicate 32 5)); SetSigningKey (replicate 32 4)].

Lemma cert_roundtrip_witness :
  ∃ bs u u' cert,
    encode_and_sign (build_cert toy_calls) (4 : Z) = Ok bs ∧ Ed25519Cert_decode bs = Ok u ∧
    should_be_signed_with u (replicate 32 4) = Ok u' ∧ check_signature u' = Ok cert ∧
    ce_cert_key cert = KeyX509Sha256Digest (replicate 32 5).
Proof.
  destruct (encode_and_sign (build_cert toy_calls) (4 : Z)) as [bs| |] eqn:E; [|vm_compute in E; discriminate..].
  destruct (cert_roundtrip toy_calls (4 : Z) bs) as
    (ty & h & k & u & u' & cert & Hty & _ & Hk & Hd & Hs & Hc & _ & _ & Hkey & _).
  { apply (bool_decide_unpack _). vm_compute. exact I. }
  { exact E. }
  exists bs, u, u', cert. split; [reflexivity|]. repeat (split; [assumption|]).
  rewrite Hkey. vm_compute in Hty, Hk. injection Hty as <-. injection Hk as <-. reflexivity.
Defined.
