(* ===== verification/ChanHandshake.v ===== *)
(** * ChanHandshake: opening a channel

    The handshake that opens a channel: [tor-proto/src/channel/handshake.rs] (what both ends
    share), [client/channel/handshake.rs], [relay/channel.rs] and [relay/channel/*.rs], the
    declared clock skew of [util/skew.rs], and what a channel is opened to
    ([tor-linkspec/src/owned.rs]).  A frame is the codec of file [ChanHandler] over a transport:
    the pieces of the stream that are still to come, and all that was sent.  Times are in
    nanoseconds. *)

From S2P Require Import Prelude Text Bytes Codec RelayMsg RelayCell ChanCell Sendme RelayCrypt StateM ChanHandler TorCert.

(** ** Clock skew (util/skew.rs) *)

Inductive ClockSkew : Type := Slow (d : Z) | NoSkew | Fast (d : Z).

Definition SKEW_MIN : Z := 2 * 1000000000.

Definition magnitude (s : ClockSkew) : Z := match s with Slow d | Fast d => d | NoSkew => 0 end.
Definition if_above (s : ClockSkew) (m : Z) : ClockSkew := if m <? magnitude s then s else NoSkew.

Definition from_handshake_timestamps (ours_at_start theirs delay : Z) : ClockSkew :=
  let theirs_at_start_min := theirs - delay in
  let theirs_at_start_max := theirs in
  match duration_since theirs_at_start_min ours_at_start with
  | Some skew => if_above (Slow skew) SKEW_MIN
  | None =>
      match duration_since ours_at_start theirs_at_start_max with
      | Some skew => if_above (Fast skew) SKEW_MIN
      | None => NoSkew
      end
  end.

(** [delay] is the difference of the two instants of the coarse clock. *)
Definition unauthenticated_clock_skew (netinfo : Netinfo) (delay wallclock : Z) : ClockSkew :=
  match Netinfo_timestamp netinfo with
  | Some ts => from_handshake_timestamps wallclock (ts * 1000000000) delay
  | None => NoSkew
  end.

(** ** Who is at the other end (tor-linkspec) *)

Inductive RelayId : Type := IdEd25519 (id : list Z) | IdRsa (id : list Z).
#[export] Instance RelayId_eq_dec : EqDecision RelayId.
Proof. solve_decision. Defined.

Record RelayIds : Type := mkIds { ri_ed : option (list Z); ri_rsa : option (list Z) }.

Inductive RelayIdType : Type := TyEd25519 | TyRsa.
Definition id_type (i : RelayId) : RelayIdType := match i with IdEd25519 _ => TyEd25519 | IdRsa _ => TyRsa end.
Definition identity (ids : RelayIds) (t : RelayIdType) : option RelayId :=
  match t with TyEd25519 => option_map IdEd25519 (ri_ed ids) | TyRsa => option_map IdRsa (ri_rsa ids) end.
Definition identities (ids : RelayIds) : list RelayId := omap (identity ids) [TyEd25519; TyRsa].

(** [check_id_match_helper] of [channel.rs]; its messages also spell the identities. *)
Fixpoint check_ids (mine : RelayIds) (wanted : list RelayId) : res ProtoError unit :=
  match wanted with
  | [] => Ok tt
  | desired :: wanted =>
      match identity mine (id_type desired) with
      | Some actual =>
          if decide (actual = desired) then check_ids mine wanted
          else Err (ChanMismatch "Identity does not match target")
      | None => Err (ChanMismatch "Peer does not have identity")
      end
  end.
Definition check_id_match_helper (mine wanted : RelayIds) : res ProtoError unit :=
  check_ids mine (identities wanted).

Definition SocketAddr : Type := IpAddr * Z.
Inductive PtTargetAddr : Type := IpPort (a : SocketAddr) | HostPort (host : string) (port : Z) | NoTargetAddr.
Inductive ChannelMethod : Type :=
| Direct (addrs : list SocketAddr)
| Pluggable (transport : string) (addr : PtTargetAddr) (settings : list (string * string)).

Definition socket_addrs (m : ChannelMethod) : option (list SocketAddr) :=
  match m with
  | Direct addrs => Some addrs
  | Pluggable _ (IpPort a) _ => Some [a]
  | Pluggable _ _ _ => None
  end.

Record OwnedChanTarget : Type := mkTarget {
  ct_addrs : list SocketAddr;
  ct_method : ChannelMethod;
  ct_ids : RelayIds }.

(** The peer that both [finish] functions build. *)
Definition peer_of (target_method : option ChannelMethod) (ids : RelayIds) : OwnedChanTarget :=
  let addrs := m ← target_method; socket_addrs m in
  mkTarget (default [] addrs) (default (Direct (default [] addrs)) target_method) ids.

(** ** Frames

    [Framed] asks the codec for an item, and on [None] adds the next piece of the stream to its
    buffer and asks again; at the end of the stream, bytes that are no item are an error. *)

Record Frame : Type := mkFrame {
  fr_codec : ChannelCellHandler;
  fr_buf : list Z;
  fr_chunks : list (list Z);
  fr_sent : list Z }.

Definition new_frame (ty : ChannelType) (chunks : list (list Z)) : Frame := mkFrame (Handler_from ty) [] chunks [].

Fixpoint pull (codec : ChannelCellHandler) (buf : list Z) (chunks : list (list Z)) :
    ChannelCellHandler * list Z * list (list Z) * res ProtoError (option ChanCell) :=
  match handler_decode codec buf with
  | (codec, buf, Ok None) =>
      match chunks with
      | [] => (codec, buf, [], match buf with [] => Ok None | _ => Err ChanIoErr end)
      | chunk :: chunks => pull codec (buf ++ chunk) chunks
      end
  | (codec, buf, out) => (codec, buf, chunks, out)
  end.

Definition frame_next : ST Frame ProtoError (option ChanCell) := λ fr,
  let '(codec, buf, chunks, out) := pull (fr_codec fr) (fr_buf fr) (fr_chunks fr) in
  (mkFrame codec buf chunks (fr_sent fr), out).

Definition frame_send (cell : ChanCell) : ST Frame ProtoError unit := λ fr,
  match handler_encode (fr_codec fr) cell [] with
  | Ok (codec, bytes) => (mkFrame codec (fr_buf fr) (fr_chunks fr) (fr_sent fr ++ bytes), Ok tt)
  | Err e => (fr, Err e)
  | Panic => (fr, Panic)
  end.

(** An operation of the codec. *)
Definition with_codec {A} (f : ChannelCellHandler → ChannelCellHandler * res ProtoError A) :
    ST Frame ProtoError A := λ fr,
  let '(codec, out) := f (fr_codec fr) in (mkFrame codec (fr_buf fr) (fr_chunks fr) (fr_sent fr), out).
Definition on_codec (f : ChannelCellHandler → res ProtoError ChannelCellHandler) : ST Frame ProtoError unit :=
  with_codec (λ h, match f h with Ok h' => (h', Ok tt) | Err e => (h, Err e) | Panic => (h, Panic) end).

(** What is still to be read; a cell takes a byte or more of it. *)
Definition unread (fr : Frame) : nat := length (fr_buf fr) + length (concat (fr_chunks fr)).

(** ** What both ends do *)

Definition LINK_PROTOCOLS : list Z := [4; 5].

(** The times at which it was sent are the caller's. *)
Definition send_versions_cell : ST Frame ProtoError unit :=
  versions ← lift (ok_or (Versions_new LINK_PROTOCOLS) (CellEncodeErr "versions message" EncBadLengthValue));
  frame_send (mkChanCell None (CmVersions versions)).

Definition recv_versions_cell : ST Frame ProtoError Z :=
  cell ← frame_next;
  match cell with
  | None => fail ChanIoErr
  | Some cell =>
      match cl_msg cell with
      | CmVersions their_versions =>
          link_protocol ← lift (ok_or (best_shared_link_protocol their_versions LINK_PROTOCOLS)
                                      (HandshakeProto "No shared link protocols"));
          _ ← on_codec (set_link_version link_protocol);
          mret link_protocol
      | _ => fail (Internal "Unexpected cell, expecting a VERSIONS cell")
      end
  end.

(** The cells that a handshake has seen. *)
Record SeenCells : Type := mkSeen {
  sc_auth_challenge : option AuthChallenge;
  sc_authenticate : option Authenticate;
  sc_certs : option (list TorCert);
  sc_netinfo : option Netinfo }.
Definition seen_nothing : SeenCells := mkSeen None None None None.

(** One cell: go on with what was seen, or stop at a NETINFO. *)
Inductive Round : Type := Continue (s : SeenCells) | Stop (s : SeenCells).

Definition responder_round (s : SeenCells) (m : AnyChanMsg) : res ProtoError Round :=
  match m with
  | CmVpadding _ => Ok (Continue s)
  | CmAuthChallenge ac =>
      match sc_auth_challenge s with
      | Some _ => Err (HandshakeProto "Duplicate AUTH_CHALLENGE cell")
      | None => Ok (Continue (mkSeen (Some ac) (sc_authenticate s) (sc_certs s) (sc_netinfo s)))
      end
  | CmCerts c =>
      match sc_certs s with
      | Some _ => Err (HandshakeProto "Duplicate CERTS cell")
      | None => Ok (Continue (mkSeen (sc_auth_challenge s) (sc_authenticate s) (Some c) (sc_netinfo s)))
      end
  | CmNetinfo n =>
      match sc_netinfo s with
      | Some _ => Err (Internal "Somehow tried to record a duplicate NETINFO cell")
      | None => Ok (Stop (mkSeen (sc_auth_challenge s) (sc_authenticate s) (sc_certs s) (Some n)))
      end
  | _ => Err (Internal "Unexpected cell during initiator handshake")
  end.

Definition initiator_round (s : SeenCells) (m : AnyChanMsg) : res ProtoError Round :=
  match m with
  | CmVpadding _ => Ok (Continue s)
  | CmAuthenticate a =>
      match sc_authenticate s with
      | Some _ => Err (HandshakeProto "Duplicate AUTHENTICATE cell")
      | None => Ok (Continue (mkSeen (sc_auth_challenge s) (Some a) (sc_certs s) (sc_netinfo s)))
      end
  | CmCerts c =>
      match sc_certs s with
      | Some _ => Err (HandshakeProto "Duplicate CERTS cell")
      | None => Ok (Continue (mkSeen (sc_auth_challenge s) (sc_authenticate s) (Some c) (sc_netinfo s)))
      end
  | CmNetinfo n =>
      match sc_netinfo s with
      | Some _ => Err (Internal "Somehow tried to record a duplicate NETINFO cell")
      | None => Ok (Stop (mkSeen (sc_auth_challenge s) (sc_authenticate s) (sc_certs s) (Some n)))
      end
  | _ => Err (Internal "Unexpected cell during initiator handshake")
  end.

(** [while let Some(cell) = framed_tls.next()]. *)
Fixpoint read_cells (round : SeenCells → AnyChanMsg → res ProtoError Round) (fuel : nat) (s : SeenCells) :
    ST Frame ProtoError SeenCells :=
  cell ← frame_next;
  match cell with
  | None => mret s
  | Some cell =>
      r ← lift (round s (cl_msg cell));
      match r with
      | Stop s => mret s
      | Continue s => match fuel with O => lift Panic | S fuel => read_cells round fuel s end
      end
  end.

Definition recv_cells_from_responder (expecting_auth_challenge : bool) :
    ST Frame ProtoError (option AuthChallenge * list TorCert * Netinfo) :=
  n ← gets unread;
  s ← read_cells responder_round n seen_nothing;
  match sc_netinfo s with
  | None => fail (HandshakeProto "Missing NETINFO cell")
  | Some netinfo =>
      match sc_certs s with
      | None => fail (HandshakeProto "Missing CERTS cell")
      | Some certs =>
          if expecting_auth_challenge && negb (from_option (λ _, true) false (sc_auth_challenge s))
          then fail (HandshakeProto "Missing AUTH_CHALLENGE cell")
          else mret (sc_auth_challenge s, certs, netinfo)
      end
  end.

Definition recv_cells_from_initiator : ST Frame ProtoError (option (Authenticate * list TorCert) * Netinfo) :=
  n ← gets unread;
  s ← read_cells initiator_round n seen_nothing;
  match sc_netinfo s with
  | None => fail (HandshakeProto "Missing NETINFO cell")
  | Some netinfo =>
      match sc_authenticate s, sc_certs s with
      | Some a, Some c => mret (Some (a, c), netinfo)
      | None, None => mret (None, netinfo)
      | _, _ => fail (HandshakeProto "CERTS and AUTHENTICATE must be present or both be absent")
      end
  end.

(** ** Checking the responder *)

Record UnverifiedChannel : Type := mkUnverified {
  uv_link_protocol : Z;
  uv_frame : Frame;
  uv_certs_cell : option (list TorCert);
  uv_target_method : option ChannelMethod;
  uv_clock_skew : ClockSkew }.

Record VerifiedChannel : Type := mkVerified {
  vc_link_protocol : Z;
  vc_frame : Frame;
  vc_target_method : option ChannelMethod;
  vc_ed25519_id : option (list Z);
  vc_rsa_id_cert_digest : option (list Z * list Z);
  vc_peer_cert_digest : list Z;
  vc_clock_skew : ClockSkew }.

Definition cert_error (e : CertError) : ProtoError :=
  HandshakeCertErr (match e with
                    | KeyMismatch => "Key on certificate was not as expected"
                    | MissingPubKey => "Missing signing key on certificate"
                    | BadSignature => "Signature on certificate was invalid"
                    end).

(** [Certs::parse_ed_cert] (tor-cell) and [get_cert]: every error becomes a [HandshakeProto]. *)
Definition parse_ed_cert (certs : list TorCert) (tp : Z) : res CellError UncheckedCert :=
  body ← ok_or (cert_body certs tp) (CellChanProto "Missing certificate");
  cert ← map_err (λ e, CellBytesErr e "ed25519 certificate") (Ed25519Cert_decode body);
  if negb (ce_cert_type (uc_cert cert) =? tp)
  then Err (CellChanProto "Found a certificate labeled as another type")
  else Ok cert.
Definition get_cert (certs : list TorCert) (tp : Z) : res ProtoError UncheckedCert :=
  map_err (λ e, HandshakeProto (match e with CellChanProto e => e | _ => "Unable to parse certificate" end))
    (parse_ed_cert certs tp).

(** [check_timeliness]: what [is_valid_at] says, as an error of the handshake. *)
Definition timeliness_error (skew : ClockSkew) (e : TimeValidityError) : ProtoError :=
  match e, skew with
  | Expired expired_by, Fast skew =>
      if expired_by <? skew then HandshakeCertsExpired expired_by
      else HandshakeProto "Certificate expired or not yet valid"
  | _, _ => HandshakeProto "Certificate expired or not yet valid"
  end.
Definition check_timeliness (valid : res TimeValidityError unit) (skew : ClockSkew) : res ProtoError unit :=
  map_err (timeliness_error skew) valid.

Section check.
Context {SK : Type} `{!Signing SK}.

Definition check_internal (uv : UnverifiedChannel) (peer : RelayIds) (peer_cert_digest : list Z) (now : Z) :
    res ProtoError VerifiedChannel :=
  c ← ok_or (uv_certs_cell uv) (Internal "No CERTS cell found to verify");
  id_sk ← get_cert c CertType.IDENTITY_V_SIGNING;
  sk_tls ← get_cert c CertType.SIGNING_V_TLS_CERT;
  id_sk ← map_err cert_error (should_have_signing_key id_sk);
  '(id_sk, id_sk_sig) ← map_err cert_error (dangerously_split id_sk);
  let id_sk_timeliness := check_timeliness (cert_is_valid_at id_sk now) (uv_clock_skew uv) in
  identity_key ← ok_or (ce_signed_with id_sk) (HandshakeProto "Missing identity key in identity->signing cert");
  signing_key ← ok_or (ck_as_ed25519 (ce_cert_key id_sk)) (HandshakeProto "Bad key type in identity->signing cert");
  sk_tls ← map_err cert_error (should_be_signed_with sk_tls signing_key);
  '(sk_tls, sk_tls_sig) ← map_err cert_error (dangerously_split sk_tls);
  let sk_tls_timeliness := check_timeliness (cert_is_valid_at sk_tls now) (uv_clock_skew uv) in
  if negb (bytes_eq peer_cert_digest (ck_as_bytes (ce_cert_key sk_tls)))
  then Err (HandshakeProto "Peer cert did not authenticate TLS cert") else
  if negb (validate_batch [id_sk_sig; sk_tls_sig])
  then Err (HandshakeProto "Invalid ed25519 signature in handshake") else
  pkrsa ← ok_or (x ← cert_body c CertType.RSA_ID_X509; x509_extract_rsa_subject_kludge x)
                (HandshakeProto "Couldn't find RSA identity key");
  rsa_cert ← ok_or (cert_body c CertType.RSA_ID_V_IDENTITY) (HandshakeProto "No RSA->Ed crosscert");
  rsa_cert ← map_err (BytesErr "RSA identity cross-certificate") (RsaCrosscert_decode rsa_cert);
  rsa_cert ← map_err (λ _, HandshakeProto "Bad RSA->Ed crosscert signature") (rc_check_signature rsa_cert pkrsa);
  let rsa_cert_timeliness := check_timeliness (timerange_is_valid_at rsa_cert now) (uv_clock_skew uv) in
  let rsa_cert := tr_obj rsa_cert in
  if negb (subject_key_matches rsa_cert identity_key)
  then Err (HandshakeProto "RSA->Ed crosscert certifies incorrect key") else
  let rsa_id := to_rsa_identity pkrsa in
  _ ← map_err (λ e, match e with ChanMismatch msg => HandshakeProto msg | e => e end)
        (check_id_match_helper (mkIds (Some identity_key) (Some rsa_id)) peer);
  _ ← id_sk_timeliness;
  _ ← sk_tls_timeliness;
  _ ← rsa_cert_timeliness;
  Ok (mkVerified (uv_link_protocol uv) (uv_frame uv) (uv_target_method uv) (Some identity_key)
        (Some (rsa_id, rc_digest rsa_cert)) peer_cert_digest (uv_clock_skew uv)).

Definition check (uv : UnverifiedChannel) (peer : RelayIds) (peer_cert : list Z) (now : Z) :
    res ProtoError VerifiedChannel := check_internal uv peer (sha256 peer_cert) now.
End check.

(** ** Channels *)

Record Channel : Type := mkChannel {
  chn_type : ChannelType;
  chn_link_protocol : Z;
  chn_frame : Frame;
  chn_peer : OwnedChanTarget;
  chn_clock_skew : ClockSkew }.

(** [UnverifiedChannel::finish], for a peer that does not authenticate. *)
Definition unverified_finish (uv : UnverifiedChannel) : res ProtoError Channel :=
  let '(fr, out) := on_codec set_open (uv_frame uv) in
  _ ← out;
  Ok (mkChannel (handler_channel_type (fr_codec fr)) (uv_link_protocol uv) fr
        (peer_of (uv_target_method uv) (mkIds None None)) (uv_clock_skew uv)).

(** [VerifiedChannel::set_authenticated] and [finish]. *)
Definition verified_set_authenticated (vc : VerifiedChannel) : res ProtoError VerifiedChannel :=
  let '(fr, out) := on_codec set_authenticated (vc_frame vc) in
  _ ← out;
  Ok (mkVerified (vc_link_protocol vc) fr (vc_target_method vc) (vc_ed25519_id vc) (vc_rsa_id_cert_digest vc)
        (vc_peer_cert_digest vc) (vc_clock_skew vc)).

Definition verified_finish (vc : VerifiedChannel) : res ProtoError Channel :=
  let '(fr, out) := on_codec set_open (vc_frame vc) in
  _ ← out;
  Ok (mkChannel (handler_channel_type (fr_codec fr)) (vc_link_protocol vc) fr
        (peer_of (vc_target_method vc)
           (mkIds (vc_ed25519_id vc) (option_map fst (vc_rsa_id_cert_digest vc)))) (vc_clock_skew vc)).

(** ** Clients (client/channel/handshake.rs) *)

(** [delay] and [wallclock] are the times around the exchange. *)
Definition client_connect (target_method : option ChannelMethod) (delay wallclock : Z) (fr : Frame) :
    res ProtoError UnverifiedChannel :=
  let '(fr, out) :=
    (_ ← send_versions_cell;
     link_protocol ← recv_versions_cell;
     '(_, certs, netinfo) ← recv_cells_from_responder false;
     mret (link_protocol, certs, netinfo)) fr in
  '(link_protocol, certs, netinfo) ← out;
  Ok (mkUnverified link_protocol fr (Some certs) target_method
        (unauthenticated_clock_skew netinfo delay wallclock)).

Definition first_ip (target_method : option ChannelMethod) : option IpAddr :=
  m ← target_method; addrs ← socket_addrs m; option_map fst (head addrs).

Definition with_frame (vc : VerifiedChannel) (fr : Frame) : VerifiedChannel :=
  mkVerified (vc_link_protocol vc) fr (vc_target_method vc) (vc_ed25519_id vc) (vc_rsa_id_cert_digest vc)
    (vc_peer_cert_digest vc) (vc_clock_skew vc).

Definition client_finish (vc : VerifiedChannel) : res ProtoError Channel :=
  let netinfo := Netinfo_from_client (first_ip (vc_target_method vc)) in
  let '(fr, out) := frame_send (mkChanCell None (CmNetinfo netinfo)) (vc_frame vc) in
  _ ← out; verified_finish (with_frame vc fr).

(** ** Relays (relay/channel.rs and relay/channel) *)

Definition AUTHTYPE_ED25519_SHA256_RFC5705 : Z := 3.
Definition LINK_AUTH : list Z := [AUTHTYPE_ED25519_SHA256_RFC5705].

Record RelayIdentities (SK : Type) : Type := mkIdentities {
  id_rsa_id : list Z;
  id_ed_id : list Z;
  id_link_sign_kp : SK;
  id_cert_id_sign_ed : Ed25519Cert;
  id_cert_sign_tls_ed : Ed25519Cert;
  id_cert_sign_link_auth_ed : Ed25519Cert;
  id_cert_id_x509_rsa : list Z;
  id_cert_id_rsa : RsaCrosscert }.
Arguments id_ed_id {SK}.
Arguments id_link_sign_kp {SK}.
Arguments id_cert_id_x509_rsa {SK}.

Record ChannelAuthenticationData : Type := mkAuthData {
  ad_link_auth : Z;
  ad_cid : list Z;
  ad_sid : list Z;
  ad_cid_ed : list Z;
  ad_sid_ed : list Z;
  ad_clog : list Z;
  ad_slog : list Z;
  ad_scert : list Z }.

Definition auth_type_bytes (link_auth : Z) : res ProtoError (list Z) :=
  if link_auth =? 3 then Ok (str "AUTH0003") else Err BadCellAuth.
Definition keying_material_label_bytes (link_auth : Z) : res ProtoError (list Z) :=
  if link_auth =? 3 then Ok (str "EXPORTER FOR TOR TLS CLIENT BINDING AUTH0003") else Err BadCellAuth.

#[export] Instance Authenticate_eq_dec : EqDecision Authenticate.
Proof. solve_decision. Defined.

Definition build_netinfo_cell (peer_ip : IpAddr) (my_addrs : list IpAddr) (wallclock : Z) :
    res ProtoError Netinfo :=
  d ← ok_or (duration_since wallclock 0) (Internal "Wallclock may have gone backwards");
  let secs := d / 1000000000 in
  if secs <=? u32_max then Ok (Netinfo_from_relay secs (Some peer_ip) my_addrs)
  else Err (Internal "Wallclock secs fail to convert to 32bit").

Section relay.
Context {SK : Type} `{!Signing SK}.
(** [CertifiedConn::export_keying_material] of the TLS library. *)
Context (export_keying_material : nat → list Z → option (list Z) → res ProtoError (list Z)).

Definition build_certs_cell (ids : RelayIdentities SK) : list TorCert :=
  [mkTorCert CertType.RSA_ID_X509 (id_cert_id_x509_rsa ids)].

(** [random] are the 24 random bytes. *)
Definition into_authenticate (d : ChannelAuthenticationData) (link_ed : SK) (random : list Z) :
    res ProtoError Authenticate :=
  ty ← auth_type_bytes (ad_link_auth d);
  label ← keying_material_label_bytes (ad_link_auth d);
  tls_secrets ← export_keying_material 32 label (Some (ad_cid d));
  let body := ty ++ ad_cid d ++ ad_sid d ++ ad_cid_ed d ++ ad_sid_ed d ++ ad_slog d ++ ad_clog d ++
              ad_scert d ++ tls_secrets ++ random in
  Ok (mkAuthenticate (ad_link_auth d) (body ++ ed_sign link_ed body)).

(** [ChannelAuthenticationData::build]: the logs are taken out of the codec.  A responder's own
    certificate is left to do: [todo!()] panics. *)
Definition build_auth_data (auth_challenge : option AuthChallenge) (ids : RelayIdentities SK)
    (vc : VerifiedChannel) : Frame * res ProtoError ChannelAuthenticationData :=
  let is_responder := from_option (λ _, false) true auth_challenge in
  let methods := List.filter (λ m, from_option (λ c, bool_decide (m ∈ ac_methods c)) true auth_challenge) LINK_AUTH in
  (link_auth ← lift (ok_or (match methods with [] => None | _ => Some (foldr Z.max 0 methods) end) BadCellAuth);
   let cid := sha256 (id_cert_id_x509_rsa ids) in
   '(_, sid) ← lift (ok_or (vc_rsa_id_cert_digest vc) (Internal "Verified channel without a RSA identity"));
   let cid_ed := id_ed_id ids in
   sid_ed ← lift (ok_or (vc_ed25519_id vc) (Internal "Verified channel without an ed25519 identity"));
   clog ← with_codec get_clog;
   slog ← with_codec get_slog;
   let clog := sha256 clog in
   let slog := sha256 slog in
   if is_responder then lift Panic
   else mret (mkAuthData link_auth cid sid cid_ed sid_ed clog slog (vc_peer_cert_digest vc))) (vc_frame vc).

Record UnverifiedInitiator : Type := mkUnverifiedInitiator {
  ui_inner : UnverifiedChannel;
  ui_auth_challenge : AuthChallenge;
  ui_netinfo : Netinfo }.

(** [RelayInitiatorHandshake::connect]. *)
Definition relay_connect (delay wallclock : Z) (fr : Frame) : res ProtoError UnverifiedInitiator :=
  let '(fr, out) :=
    (_ ← send_versions_cell;
     link_protocol ← recv_versions_cell;
     '(auth_challenge, certs, netinfo) ← recv_cells_from_responder true;
     auth_challenge ← lift (ok_or auth_challenge (ChanProto "Missing AUTH_CHALLENGE as relay initiator"));
     mret (link_protocol, auth_challenge, certs, netinfo)) fr in
  '(link_protocol, auth_challenge, certs, netinfo) ← out;
  Ok (mkUnverifiedInitiator
        (mkUnverified link_protocol fr (Some certs) None (unauthenticated_clock_skew netinfo delay wallclock))
        auth_challenge netinfo).

(** [UnverifiedInitiatorRelayChannel::verify]. *)
Definition initiator_verify (ui : UnverifiedInitiator) (ids : RelayIdentities SK) (peer : RelayIds)
    (peer_cert : list Z) (now : Z) (random : list Z) : res ProtoError (VerifiedChannel * Authenticate) :=
  verified ← check (ui_inner ui) peer peer_cert now;
  let '(fr, data) := build_auth_data (Some (ui_auth_challenge ui)) ids verified in
  data ← data;
  auth_cell ← into_authenticate data (id_link_sign_kp ids) random;
  verified ← verified_set_authenticated (with_frame verified fr);
  Ok (verified, auth_cell).

(** [VerifiedInitiatorRelayChannel::finish]. *)
Definition initiator_finish (vc : VerifiedChannel) (auth_cell : Authenticate) (ids : RelayIdentities SK)
    (my_addrs : list IpAddr) (wallclock : Z) : res ProtoError Channel :=
  let '(fr, out) :=
    (_ ← frame_send (mkChanCell None (CmCerts (build_certs_cell ids)));
     _ ← frame_send (mkChanCell None (CmAuthenticate auth_cell));
     peer_ip ← lift (ok_or (first_ip (vc_target_method vc)) (Internal "Target method address invalid"));
     netinfo ← lift (build_netinfo_cell peer_ip my_addrs wallclock);
     frame_send (mkChanCell None (CmNetinfo netinfo))) (vc_frame vc) in
  _ ← out; verified_finish (with_frame vc fr).

(** [send_cells_to_initiator]; [challenge] are the 32 random bytes. *)
Definition send_cells_to_initiator (ids : RelayIdentities SK) (peer : SocketAddr) (my_addrs : list IpAddr)
    (challenge : list Z) (wallclock : Z) : ST Frame ProtoError unit :=
  _ ← send_versions_cell;
  _ ← frame_send (mkChanCell None (CmCerts (build_certs_cell ids)));
  _ ← frame_send (mkChanCell None (CmAuthChallenge (mkAuthChallenge challenge [AUTHTYPE_ED25519_SHA256_RFC5705])));
  netinfo ← lift (build_netinfo_cell (fst peer) my_addrs wallclock);
  frame_send (mkChanCell None (CmNetinfo netinfo)).

Inductive MaybeVerifiable : Type :=
| Verifiable (inner : UnverifiedChannel) (auth_cell : Authenticate) (netinfo : Netinfo)
| NonVerifiable (inner : UnverifiedChannel).

(** [RelayResponderHandshake::handshake]. *)
Definition responder_handshake (ids : RelayIdentities SK) (peer : SocketAddr) (my_addrs : list IpAddr)
    (challenge : list Z) (delay wallclock : Z) (fr : Frame) : res ProtoError MaybeVerifiable :=
  let '(fr, out) :=
    (link_protocol ← recv_versions_cell;
     _ ← send_cells_to_initiator ids peer my_addrs challenge wallclock;
     '(cells, netinfo) ← recv_cells_from_initiator;
     mret (link_protocol, cells, netinfo)) fr in
  '(link_protocol, cells, netinfo) ← out;
  let inner := mkUnverified link_protocol fr (option_map snd cells) (Some (Direct [peer]))
                 (unauthenticated_clock_skew netinfo delay wallclock) in
  Ok (match option_map fst cells with
      | Some auth_cell => Verifiable inner auth_cell netinfo
      | None => NonVerifiable inner
      end).

(** [UnverifiedResponderRelayChannel::verify]. *)
Definition responder_verify (inner : UnverifiedChannel) (auth_cell : Authenticate) (ids : RelayIdentities SK)
    (peer : RelayIds) (peer_cert : list Z) (now : Z) (random : list Z) : res ProtoError VerifiedChannel :=
  verified ← check inner peer peer_cert now;
  let '(fr, data) := build_auth_data None ids verified in
  data ← data;
  our_auth_cell ← into_authenticate data (id_link_sign_kp ids) random;
  if decide (auth_cell = our_auth_cell) then verified_set_authenticated (with_frame verified fr)
  else Err (ChanProto "AUTHENTICATE was unexpected. Failing authentication").
End relay.

(** ** What a channel that passes the checks proves *)

Section chain.
Context {SK : Type} `{!Signing SK}.

(** The certificate of a type that a CERTS cell holds. *)
Definition holds_cert (certs : list TorCert) (tp : Z) (u : UncheckedCert) : Prop :=
  ∃ body, cert_body certs tp = Some body ∧ Ed25519Cert_decode body = Ok u ∧ ce_cert_type (uc_cert u) = tp.

(** The two lines of authentication, as the comment in [check_internal] draws them: from the
    identity key over the signing key to the TLS certificate, and from the RSA key to the identity
    key; at the time [now] none of the certificates has expired. *)
Record ChainOfTrust (certs : list TorCert) (tls_digest : list Z) (now : Z) (ed_id rsa_id cc_digest : list Z) :
    Prop := mkChain {
  chain_ed : ∃ id_sk sk_tls signing_key,
    holds_cert certs CertType.IDENTITY_V_SIGNING id_sk ∧ holds_cert certs CertType.SIGNING_V_TLS_CERT sk_tls ∧
    ce_signed_with (uc_cert id_sk) = Some ed_id ∧ ce_cert_key (uc_cert id_sk) = KeyEd25519 signing_key ∧
    (∀ k, ce_signed_with (uc_cert sk_tls) = Some k → k = signing_key) ∧
    ck_as_bytes (ce_cert_key (uc_cert sk_tls)) = tls_digest ∧
    ed_point ed_id = true ∧ ed_point signing_key = true ∧
    validate_batch [mkValidatable ed_id (uc_signature id_sk) (uc_text id_sk);
                    mkValidatable signing_key (uc_signature sk_tls) (uc_text sk_tls)] = true ∧
    now < expiry (uc_cert id_sk) ∧ now < expiry (uc_cert sk_tls);
  chain_rsa : ∃ x509 pkrsa body cc,
    cert_body certs CertType.RSA_ID_X509 = Some x509 ∧ x509_extract_rsa_subject_kludge x509 = Some pkrsa ∧
    to_rsa_identity pkrsa = rsa_id ∧
    cert_body certs CertType.RSA_ID_V_IDENTITY = Some body ∧ RsaCrosscert_decode body = Ok cc ∧
    rsa_verify pkrsa (rc_digest cc) (rc_signature cc) = true ∧ rc_subject_key cc = ed_id ∧
    rc_digest cc = cc_digest ∧ now < rc_expiry cc }.

(** Every identity that is wanted is one of those that were proved. *)
Definition ids_proved (wanted : RelayIds) (ed_id rsa_id : list Z) : Prop :=
  (∀ k, ri_ed wanted = Some k → k = ed_id) ∧ (∀ k, ri_rsa wanted = Some k → k = rsa_id).

Lemma map_err_ok {E F A} (f : E → F) (r : res E A) a : map_err f r = Ok a ↔ r = Ok a.
Proof. destruct r; simpl; split; congruence. Qed.

Lemma get_cert_ok certs tp u : get_cert certs tp = Ok u ↔ holds_cert certs tp u.
Proof.
  unfold get_cert, parse_ed_cert, holds_cert. rewrite map_err_ok. split.
  - intros (body & Hb%ok_or_ok & H)%bind_ok. apply bind_ok in H as (u' & Hd%map_err_ok & H).
    exists body. destruct (Z.eqb_spec (ce_cert_type (uc_cert u')) tp); [|done]. by injection H as ->.
  - intros (body & -> & Hd & <-). simpl. rewrite Hd. simpl. by rewrite Z.eqb_refl.
Qed.

Lemma check_id_match_ok ed rsa wanted :
  check_id_match_helper (mkIds (Some ed) (Some rsa)) wanted = Ok tt ↔ ids_proved wanted ed rsa.
Proof.
  unfold check_id_match_helper, identities, ids_proved. destruct wanted as [[e|] [r|]]; simpl;
    repeat case_decide; simplify_eq; naive_solver.
Qed.

Lemma timely_cert_ok c now skew :
  check_timeliness (cert_is_valid_at c now) skew = Ok tt ↔ now < expiry c.
Proof.
  unfold check_timeliness. rewrite map_err_ok. unfold cert_is_valid_at, is_expired_at, duration_since.
  destruct (Z.leb_spec (expiry c) now); split; done || lia.
Qed.

Lemma timely_crosscert_ok cc e now skew :
  check_timeliness (timerange_is_valid_at (mkTimerange (T:=RsaCrosscert) cc None (Some e)) now) skew = Ok tt
    ↔ now < e.
Proof.
  unfold check_timeliness. rewrite map_err_ok. unfold timerange_is_valid_at, duration_since. simpl.
  destruct (Z.leb_spec e now); split; done || lia.
Qed.

Lemma split_ok u c s :
  dangerously_split u = Ok (c, s) ↔
  ∃ k, ce_signed_with (uc_cert u) = Some k ∧ ed_point k = true ∧ c = uc_cert u ∧
    s = mkValidatable k (uc_signature u) (uc_text u).
Proof.
  unfold dangerously_split. split.
  - intros (k & Hk%ok_or_ok & H)%bind_ok. destruct (ed_point k) eqn:E; [|done]. injection H as <- <-. eauto.
  - intros (k & -> & Hp & -> & ->). simpl. by rewrite Hp.
Qed.

Lemma signed_with_ok u k u' :
  should_be_signed_with u k = Ok u' ↔
  (∀ a, ce_signed_with (uc_cert u) = Some a → a = k) ∧ u' = with_signer k u.
Proof.
  unfold should_be_signed_with. destruct (ce_signed_with (uc_cert u)) as [a|]; [|naive_solver].
  destruct (bytes_eq a k) eqn:E.
  - apply bytes_eq_true in E as ->. naive_solver.
  - split; [done|]. intros [H _]. rewrite (H a eq_refl) in E. by rewrite bytes_eq_refl in E.
Qed.

Lemma have_key_ok u u' :
  should_have_signing_key u = Ok u' ↔
  ∃ k, ce_signed_with (uc_cert u) = Some k ∧ u' = with_signer k u.
Proof. unfold should_have_signing_key. destruct (ce_signed_with (uc_cert u)); naive_solver. Qed.

(** The channel that the checks return for a chain of trust. *)
Definition proved_channel (uv : UnverifiedChannel) (peer : RelayIds) (tls_digest : list Z) (now : Z)
    (vc : VerifiedChannel) : Prop :=
  ∃ certs ed_id rsa_id cc_digest,
    uv_certs_cell uv = Some certs ∧ ChainOfTrust certs tls_digest now ed_id rsa_id cc_digest ∧
    ids_proved peer ed_id rsa_id ∧
    vc = mkVerified (uv_link_protocol uv) (uv_frame uv) (uv_target_method uv) (Some ed_id)
           (Some (rsa_id, cc_digest)) tls_digest (uv_clock_skew uv).

Lemma check_internal_inv uv peer tls_digest now vc :
  check_internal uv peer tls_digest now = Ok vc → proved_channel uv peer tls_digest now vc.
Proof.
  unfold check_internal.
  intros (certs & Hc%ok_or_ok & H)%bind_ok.
  apply bind_ok in H as (id_sk & Hid%get_cert_ok & H). apply bind_ok in H as (sk_tls & Htls%get_cert_ok & H).
  apply bind_ok in H as (u1 & (k & Hk & ->)%map_err_ok%have_key_ok & H).
  apply bind_ok in H as ([c1 s1] & (k' & [= <-] & Hpt & -> & ->)%map_err_ok%split_ok & H).
  apply bind_ok in H as (ik & [= <-]%ok_or_ok & H). apply bind_ok in H as (sk & Hsk%ok_or_ok & H).
  apply bind_ok in H as (u2 & [Hs2 ->]%map_err_ok%signed_with_ok & H).
  apply bind_ok in H as ([c2 s2] & (k2 & [= <-] & Hpt2 & -> & ->)%map_err_ok%split_ok & H).
  cbv zeta in H. destruct (bytes_eq _ _) eqn:Hdig; [|done]. apply bytes_eq_true in Hdig. cbn [negb] in H.
  destruct (validate_batch _) eqn:Hbatch; [|done]. cbn [negb] in H.
  apply bind_ok in H as (pk & (x509 & Hx & Hpk)%ok_or_ok%bind_Some & H).
  apply bind_ok in H as (body & Hbody%ok_or_ok & H). apply bind_ok in H as (cc & Hcc%map_err_ok & H).
  apply bind_ok in H as (tr & Htr%map_err_ok & H). unfold rc_check_signature, rc_is_well_signed in Htr.
  destruct (rsa_verify _ _ _) eqn:Hrsa; [|done]. injection Htr as <-.
  cbn [tr_obj] in H. unfold subject_key_matches in H.
  destruct (bytes_eq k _) eqn:Hsub; [|done]. apply bytes_eq_true in Hsub. cbn [negb] in H.
  apply bind_ok in H as ([] & Hids%map_err_ok%check_id_match_ok & H).
  apply bind_ok in H as ([] & Ht1%timely_cert_ok & H). apply bind_ok in H as ([] & Ht2%timely_cert_ok & H).
  apply bind_ok in H as ([] & Ht3%timely_crosscert_ok & [= <-]). unfold ck_as_ed25519 in Hsk.
  destruct (ce_cert_key (uc_cert (with_signer k id_sk))) as [sk'| | |] eqn:Hkey; [|done..].
  injection Hsk as ->. exists certs, k, (to_rsa_identity pk), (rc_digest cc). split; [done|]. split; [|done].
  split; [by exists id_sk, sk_tls, sk|by exists x509, pk, body, cc].
Qed.

Lemma check_internal_intro uv peer tls_digest now vc :
  proved_channel uv peer tls_digest now vc → check_internal uv peer tls_digest now = Ok vc.
Proof.
  unfold check_internal. intros (certs & ed & rsa & dg & -> & [Hed Hrsa] & Hids & ->).
  destruct Hed as (id_sk & sk_tls & sk & Hid & Htls & Hk & Hkey & Hs2 & Hdig & Hp1 & Hp2 & Hb & Ht1 & Ht2).
  destruct Hrsa as (x509 & pk & body & cc & Hx & Hpk & <- & Hbody & Hcc & Hv & <- & <- & Ht3).
  cbn [ok_or]. rewrite ok_bind. rewrite (proj2 (get_cert_ok _ _ _) Hid), ok_bind.
  rewrite (proj2 (get_cert_ok _ _ _) Htls), ok_bind.
  rewrite (proj2 (have_key_ok id_sk _)) by eauto. cbn [map_err]. rewrite ok_bind.
  rewrite (proj2 (split_ok (with_signer (rc_subject_key cc) id_sk) _ _)) by eauto 10.
  cbn [map_err]. rewrite ok_bind. cbv zeta. cbn [ce_signed_with uc_cert with_signer ok_or].
  rewrite ok_bind. cbn [ce_cert_key uc_cert with_signer]. rewrite Hkey. cbn [ck_as_ed25519 ok_or].
  rewrite ok_bind. rewrite (proj2 (signed_with_ok sk_tls sk _)) by eauto. cbn [map_err]. rewrite ok_bind.
  rewrite (proj2 (split_ok (with_signer sk sk_tls) _ _)) by eauto 10.
  cbn [map_err]. rewrite ok_bind. cbn [ce_cert_key uc_cert with_signer uc_signature uc_text].
  rewrite Hdig, bytes_eq_refl, Hb, Hx. cbn [negb]. simpl (Some x509 ≫= _). rewrite Hpk. cbn [ok_or].
  rewrite ok_bind, Hbody. cbn [ok_or]. rewrite ok_bind, Hcc. cbn [map_err]. rewrite ok_bind.
  unfold rc_check_signature, rc_is_well_signed. rewrite Hv. rewrite ok_bind. cbn [map_err]. rewrite ok_bind.
  cbn [tr_obj]. unfold subject_key_matches. rewrite bytes_eq_refl. cbn [negb].
  rewrite (proj2 (check_id_match_ok _ _ peer) Hids). cbn [map_err]. rewrite ok_bind.
  rewrite !(proj2 (timely_cert_ok _ _ _)) by done. rewrite !ok_bind.
  by rewrite (proj2 (timely_crosscert_ok _ _ _ _)).
Qed.

(** C8: The checks on a responder's handshake succeed exactly when its CERTS cell holds a chain of
    trust to the TLS certificate of the connection in which no certificate has expired, and the
    chain proves every identity that was wanted; the channel then carries the identities that were
    proved. *)
Theorem check_internal_refines (uv : UnverifiedChannel) (peer : RelayIds) (tls_digest : list Z) (now : Z)
    (vc : VerifiedChannel) :
  check_internal uv peer tls_digest now = Ok vc ↔ proved_channel uv peer tls_digest now vc.
Proof. split; [apply check_internal_inv|apply check_internal_intro]. Qed.
End chain.

(** ** Whatever bytes arrive *)

(** The states between which reading and writing cells moves a codec: only its logs change. *)
Definition same_kind (h h' : ChannelCellHandler) : Prop :=
  match h, h' with
  | HNew h, HNew h' => nh_channel_type h' = nh_channel_type h
  | HHandshake h, HHandshake h' => hh_filter h' = hh_filter h ∧ hh_inner h' = hh_inner h
  | HOpen h, HOpen h' => h' = h
  | _, _ => False
  end.

(** A decoder takes bytes off the front, one or more for an item. *)
Definition took {A} (src src' : list Z) (out : res ProtoError (option A)) : Prop :=
  (length src' ≤ length src)%nat ∧ ∀ c, out = Ok (Some c) → (length src' < length src)%nat.

Lemma new_decode_total h src :
  let '(h', src', out) := new_decode h src in
  out ≠ Panic ∧ nh_channel_type h' = nh_channel_type h ∧ took src src' out.
Proof.
  unfold new_decode, took. destruct src as [|c0 [|c1 [|cmd [|l0 [|l1 src]]]]]; [done..|].
  destruct (negb (from_be_bytes [c0; c1] =? 0)); [done|]. destruct (negb (cmd =? _)); [done|].
  destruct (Nat.eqb _ 1); [done|].
  set (all := c0 :: _). destruct (Nat.ltb_spec (length all) (HEADER_SIZE + Z.to_nat (from_be_bytes [l0; l1])));
    [done|].
  set (data := drop HEADER_SIZE _). pose proof (safe (f:=extract (while_remaining take_u16)) (from_slice data)) as [Hp _];
    [unfold rd_wf; simpl; lia|].
  destruct (extract _ _) as [r out]. simpl in Hp. split; [by destruct out|]. split; [done|].
  rewrite length_drop. unfold HEADER_SIZE in *. split; [lia|]. intros c _. lia.
Qed.

Lemma filter_decode_total f src :
  let '(src', out) := filter_decode_cell f src in out ≠ Panic ∧ took src src' out.
Proof.
  unfold filter_decode_cell, decode_as_any, took. pose proof (decode_cell_total (filter_decode_set f) src) as H.
  destruct (decode_cell _ src) as [src' out]. destruct H as [Hp Hc]. split; [by destruct out|].
  destruct Hc as [[-> ->]|(_ & used & -> & Hu)]; [done|]. rewrite length_app. split; [lia|]. intros; lia.
Qed.

Lemma handler_decode_total h src :
  let '(h', src', out) := handler_decode h src in out ≠ Panic ∧ same_kind h h' ∧ took src src' out.
Proof.
  unfold took. destruct h as [h|h|h]; simpl.
  - pose proof (new_decode_total h src) as H. destruct (new_decode h src) as [[h' src'] out].
    destruct H as (Hp & Ht & Hl & Hc). split; [by destruct out|]. split; [done|]. split; [done|].
    intros c Hout. destruct out as [[vs|]| |]; simplify_eq/=. by eapply Hc.
  - unfold handshake_decode. pose proof (filter_decode_total (hh_filter h) src) as H.
    destruct (filter_decode_cell _ src) as [src' out]. destruct H as (Hp & Hl & Hc). by destruct out.
  - pose proof (filter_decode_total (oh_filter h) src) as H.
    destruct (filter_decode_cell _ src) as [src' out]. by destruct H as (Hp & Hl & Hc).
Qed.

Lemma same_kind_trans a b c : same_kind a b → same_kind b c → same_kind a c.
Proof. destruct a, b, c; simpl; intuition congruence. Qed.

Lemma pull_total codec buf chunks :
  let '(codec', buf', chunks', out) := pull codec buf chunks in
  out ≠ Panic ∧ same_kind codec codec' ∧ took (buf ++ concat chunks) (buf' ++ concat chunks') out.
Proof.
  unfold took. revert codec buf. induction chunks as [|chunk chunks IH]; intros codec buf; simpl;
    pose proof (handler_decode_total codec buf) as H; destruct (handler_decode codec buf) as [[h' buf'] out];
    destruct H as (Hp & Hk & Hl & Hc); destruct out as [[c|]|e|]; simpl; try done.
  all: try (split_and!; [done..|rewrite ?length_app; lia|]; intros c' [=]; specialize (Hc c eq_refl);
    rewrite ?length_app; lia).
  - split; [by destruct buf'|]. split; [done|]. rewrite !app_nil_r. split; [done|]. by destruct buf'.
  - specialize (IH h' (buf' ++ chunk)). destruct (pull _ _ _) as [[[h2 b2] c2] out2].
    destruct IH as (Hp2 & Hk2 & Hl2 & Hc2). split; [done|]. split; [by eapply same_kind_trans|].
    rewrite !length_app in *. split; [lia|]. intros c Hout. apply Hc2 in Hout. lia.
Qed.

Lemma frame_next_total fr :
  let '(fr', out) := frame_next fr in
  out ≠ Panic ∧ same_kind (fr_codec fr) (fr_codec fr') ∧ (∀ c, out = Ok (Some c) → (unread fr' < unread fr)%nat).
Proof.
  unfold frame_next. pose proof (pull_total (fr_codec fr) (fr_buf fr) (fr_chunks fr)) as H.
  destruct (pull _ _ _) as [[[codec buf] chunks] out]. destruct H as (Hp & Hk & _ & Hc).
  split_and!; [done..|]. intros c Hout. specialize (Hc c Hout). unfold unread. simpl.
  rewrite !length_app in Hc. lia.
Qed.

Lemma read_cells_total round fuel s fr :
  (∀ s m, round s m ≠ Panic) → (unread fr ≤ fuel)%nat →
  let '(fr', out) := read_cells round fuel s fr in out ≠ Panic ∧ same_kind (fr_codec fr) (fr_codec fr').
Proof.
  intros Hr. revert s fr. induction fuel as [|fuel IH]; intros s fr Hf; cbn [read_cells];
    unfold mbind, ST_mbind; pose proof (frame_next_total fr) as H;
    destruct (frame_next fr) as [fr' out]; destruct H as (Hp & Hk & Hc);
    destruct out as [[c|]|e|]; try done; unfold lift;
    specialize (Hr s (cl_msg c)) as Hrs; destruct (round s (cl_msg c)) as [[s'|s']|e|]; try done;
    specialize (Hc c eq_refl); [lia|].
  specialize (IH s' fr' ltac:(lia)). destruct (read_cells _ _ _ _) as [fr2 out2]. destruct IH as [? Hk2].
  split; [done|]. by eapply same_kind_trans.
Qed.

Lemma responder_round_total s m : responder_round s m ≠ Panic.
Proof. unfold responder_round. destruct m; try done; by case_match. Qed.
Lemma initiator_round_total s m : initiator_round s m ≠ Panic.
Proof. unfold initiator_round. destruct m; try done; by case_match. Qed.

Lemma recv_responder_total b fr :
  let '(fr', out) := recv_cells_from_responder b fr in out ≠ Panic ∧ same_kind (fr_codec fr) (fr_codec fr').
Proof.
  unfold recv_cells_from_responder, mbind, ST_mbind, gets.
  pose proof (read_cells_total responder_round (unread fr) seen_nothing fr responder_round_total ltac:(done)) as H.
  destruct (read_cells _ _ _ _) as [fr' [s|e|]]; [|by destruct H..]. destruct H as [_ Hk].
  destruct (sc_netinfo s); [|done]. destruct (sc_certs s); [|done]. by destruct (b && _).
Qed.

Lemma best_shared_cases vs :
  best_shared_link_protocol vs LINK_PROTOCOLS =
    if bool_decide (5 ∈ vs) then Some 5 else if bool_decide (4 ∈ vs) then Some 4 else None.
Proof.
  unfold best_shared_link_protocol, LINK_PROTOCOLS. repeat case_bool_decide;
    rewrite !filter_cons; repeat case_decide; done.
Qed.

(** The state after the exchange of VERSIONS. *)
Definition negotiated (ty : ChannelType) (v : Z) (h : ChannelCellHandler) : Prop :=
  ∃ lv hh, h = HHandshake hh ∧ LinkVersion_value lv = v ∧ hh_inner hh = v ∧
    hh_filter hh = mkFilter lv ty StHandshake.

Lemma set_link_version_new v h :
  v = 4 ∨ v = 5 →
  ∃ h', set_link_version v (HNew h) = Ok h' ∧ negotiated (nh_channel_type h) v h'.
Proof.
  unfold set_link_version, negotiated. intros [-> | ->]; simpl; eexists; (split; [done|]);
    [exists LinkV4|exists LinkV5]; by eexists.
Qed.

Lemma recv_versions_total fr h :
  fr_codec fr = HNew h →
  let '(fr', out) := recv_versions_cell fr in
  out ≠ Panic ∧ ∀ v, out = Ok v → negotiated (nh_channel_type h) v (fr_codec fr').
Proof.
  intros Hn. unfold recv_versions_cell, mbind, ST_mbind. pose proof (frame_next_total fr) as H.
  destruct (frame_next fr) as [fr' out]. destruct H as (Hp & Hk & _). rewrite Hn in Hk.
  destruct (fr_codec fr') as [h'| |] eqn:Hc; [|done..]. simpl in Hk. rewrite <-Hk.
  destruct out as [[c|]|e|]; [|done..]. destruct (cl_msg c); try done. unfold lift. rewrite best_shared_cases.
  assert (∀ v, v = 4 ∨ v = 5 → ∃ h2, set_link_version v (fr_codec fr') = Ok h2 ∧ negotiated (nh_channel_type h') v h2)
    as Hset by (intros v Hv; rewrite Hc; by apply set_link_version_new).
  unfold on_codec, with_codec.
  destruct (bool_decide (5 ∈ versions)); [|destruct (bool_decide (4 ∈ versions)); [|done]]; cbn [ok_or];
    [destruct (Hset 5) as (h2 & -> & Hneg)|destruct (Hset 4) as (h2 & -> & Hneg)];
    auto; (split; [done|]); by intros v [= <-].
Qed.

Lemma send_versions_new fr h :
  fr_codec fr = HNew h →
  ∃ h', send_versions_cell fr =
    (mkFrame (HNew h') (fr_buf fr) (fr_chunks fr) (fr_sent fr ++ [0; 0; 7; 0; 4; 0; 4; 0; 5]), Ok tt) ∧
    nh_channel_type h' = nh_channel_type h ∧
    nh_clog h' = log_update [0; 0; 7; 0; 4; 0; 4; 0; 5] (nh_clog h) ∧ nh_slog h' = nh_slog h.
Proof.
  intros Hc. unfold send_versions_cell, mbind, ST_mbind, lift, frame_send. rewrite Hc. simpl.
  by eexists (mkNew _ _ _).
Qed.

Lemma negotiated_kind ty v h h' : negotiated ty v h → same_kind h h' → negotiated ty v h'.
Proof.
  intros (lv & hh & -> & Hv & Hi & Hf) Hk. destruct h' as [|hh'|]; try done. destruct Hk as [Hf' Hi'].
  exists lv, hh'. by rewrite Hf', Hi'.
Qed.

Lemma client_connect_total target_method delay wallclock chunks :
  let r := client_connect target_method delay wallclock (new_frame ClientInitiator chunks) in
  r ≠ Panic ∧ ∀ uv, r = Ok uv →
    negotiated ClientInitiator (uv_link_protocol uv) (fr_codec (uv_frame uv)) ∧
    uv_target_method uv = target_method ∧ is_Some (uv_certs_cell uv).
Proof.
  unfold client_connect. set (fr0 := new_frame ClientInitiator chunks).
  destruct (send_versions_new fr0 (mkNew ClientInitiator None None) eq_refl) as (h' & Hs & Ht & _).
  rewrite (st_bind_run _ _ _ _ _ Hs). set (fr1 := mkFrame _ _ _ _).
  pose proof (recv_versions_total fr1 h' eq_refl) as Hv.
  destruct (recv_versions_cell fr1) as [fr2 [v|e|]] eqn:E; destruct Hv as [Hp Hv];
    [|by rewrite (st_bind_err _ _ _ _ _ E)|done].
  rewrite (st_bind_run _ _ _ _ _ E). specialize (Hv v eq_refl). rewrite Ht in Hv. cbn [nh_channel_type] in Hv.
  pose proof (recv_responder_total false fr2) as Hr.
  destruct (recv_cells_from_responder false fr2) as [fr3 [[[ac certs] netinfo]|e|]] eqn:E2; destruct Hr as [Hp' Hk];
    [|by rewrite (st_bind_err _ _ _ _ _ E2)|done].
  rewrite (st_bind_run _ _ _ _ _ E2). split; [done|]. intros uv [= <-]. simpl.
  split_and!; [by eapply negotiated_kind|done|eauto].
Qed.

(** A client's NETINFO can always be sent, and the channel then be opened. *)
Lemma write_client_netinfo a :
  ∃ bytes, write_cell (mkChanCell None (CmNetinfo (Netinfo_from_client a))) [] = Ok bytes.
Proof.
  unfold write_cell. change (ChanCmd.is_var_cell (chan_msg_cmd _)) with false. cbv zeta.
  cbn [cl_msg cl_circid chan_encode_onto]. unfold Netinfo_encode, Netinfo_from_client.
  cbn [ni_timestamp ni_their_addr ni_my_addr length Z.of_nat].
  change (Z.of_nat 0 <=? u8_max) with true. cbn [write_list map_err]. rewrite ok_bind.
  unfold enc_one_netinfo_addr, write_ip, write_u8, write_u32, write_all, vec_writer.
  destruct (default (V4 0) a) as [x|x]; rewrite (proj2 (Nat.ltb_ge _ _)); eauto;
    rewrite !length_app, !length_to_be_bytes; unfold CELL_DATA_LEN; simpl; lia.
Qed.

Lemma client_finish_total vc v :
  negotiated ClientInitiator v (fr_codec (vc_frame vc)) →
  ∃ ch f, client_finish vc = Ok ch ∧ chn_type ch = ClientInitiator ∧ fr_codec (chn_frame ch) = HOpen f ∧
    oh_inner f = v ∧ mf_stage (oh_filter f) = StOpen ∧
    chn_peer ch = peer_of (vc_target_method vc)
      (mkIds (vc_ed25519_id vc) (option_map fst (vc_rsa_id_cert_digest vc))) ∧
    chn_link_protocol ch = vc_link_protocol vc.
Proof.
  intros (lv & hh & Hc & <- & Hi & Hf). unfold client_finish, frame_send. rewrite Hc.
  destruct (write_client_netinfo (first_ip (vc_target_method vc))) as (bytes & Hw).
  cbn [handler_encode]. unfold handshake_encode, filter_encode_cell. rewrite Hf.
  assert (filter_encode_set (mkFilter lv ClientInitiator StHandshake) = HandshakeClientInitiatorMsg) as ->
    by by destruct lv.
  unfold encode_as_any. cbn [in_msg_set HandshakeClientInitiatorMsg cl_msg chan_msg_cmd mf_stage].
  rewrite bool_decide_true by set_solver. rewrite Hw. cbn [map_err]. rewrite !ok_bind.
  unfold verified_finish, on_codec, with_codec. cbn [with_frame vc_frame fr_codec set_open hh_inner].
  rewrite Hi. destruct lv; simpl; do 2 eexists; done.
Qed.
