(* ===== verification/ChanOpen.v ===== *)
(** * ChanOpen: channels from the first byte to the open state

    What the handshake of file [ChanHandshake] does as a whole: a client against any peer, a client
    against a peer that follows the protocol, relays with each other, and what a declared clock
    skew says about the clocks. *)

From S2P Require Import Prelude Text Bytes Codec RelayMsg RelayCell ChanCell Sendme RelayCrypt StateM ChanHandler TorCert ChanHandshake.

(** ** A client and any peer *)

Section any_peer.
Context {SK : Type} `{!Signing SK}.

Lemma bind_no_panic {E A B} (r : res E A) (f : A → res E B) :
  r ≠ Panic → (∀ a, r = Ok a → f a ≠ Panic) → r ≫= f ≠ Panic.
Proof. destruct r; simpl; auto. Qed.
Lemma map_err_no_panic {E F A} (f : E → F) (r : res E A) : r ≠ Panic → map_err f r ≠ Panic.
Proof. by destruct r. Qed.
Lemma ok_or_no_panic {E A} (o : option A) (e : E) : ok_or o e ≠ Panic.
Proof. by destruct o. Qed.

Lemma cert_decode_no_panic b : Ed25519Cert_decode b ≠ Panic.
Proof. destruct (safe (f:=Ed25519Cert_take b) (from_slice b)) as [Hp _]; [unfold rd_wf; simpl; lia|done]. Qed.
Lemma crosscert_decode_no_panic b : RsaCrosscert_decode b ≠ Panic.
Proof. destruct (safe (f:=RsaCrosscert_take) (from_slice b)) as [Hp _]; [unfold rd_wf; simpl; lia|done]. Qed.
Lemma cert_valid_no_panic c now : cert_is_valid_at c now ≠ Panic.
Proof. unfold cert_is_valid_at, is_expired_at, duration_since. by destruct (expiry c <=? now). Qed.
Lemma timerange_no_panic {T} (b : TimerangeBound T) t : timerange_is_valid_at b t ≠ Panic.
Proof. unfold timerange_is_valid_at. by repeat case_match. Qed.
Lemma split_no_panic u : dangerously_split u ≠ Panic.
Proof. unfold dangerously_split. apply bind_no_panic; [apply ok_or_no_panic|]. intros a _. by case_match. Qed.
Lemma signed_with_no_panic u k : should_be_signed_with u k ≠ Panic.
Proof. unfold should_be_signed_with. by repeat case_match. Qed.
Lemma have_key_no_panic u : should_have_signing_key u ≠ Panic.
Proof. unfold should_have_signing_key. by case_match. Qed.
Lemma get_cert_no_panic certs tp : get_cert certs tp ≠ Panic.
Proof.
  apply map_err_no_panic, bind_no_panic; [apply ok_or_no_panic|]. intros b _.
  apply bind_no_panic; [apply map_err_no_panic, cert_decode_no_panic|]. intros u _. by case_match.
Qed.
Lemma rc_check_no_panic cc k : rc_check_signature cc k ≠ Panic.
Proof. unfold rc_check_signature, rc_is_well_signed. by destruct (rsa_verify _ _ _). Qed.
Lemma check_ids_no_panic mine wanted : check_ids mine wanted ≠ Panic.
Proof. induction wanted as [|i wanted IH]; simpl; [done|]. by repeat case_match. Qed.

#[local] Hint Resolve map_err_no_panic ok_or_no_panic get_cert_no_panic have_key_no_panic split_no_panic
  signed_with_no_panic crosscert_decode_no_panic rc_check_no_panic check_ids_no_panic cert_valid_no_panic
  timerange_no_panic : no_panic.

Lemma check_internal_no_panic uv peer digest now : check_internal uv peer digest now ≠ Panic.
Proof.
  unfold check_internal, check_timeliness, check_id_match_helper.
  repeat first [ apply bind_no_panic; [solve [eauto with no_panic]|intros ? _]
               | case_match; cbv zeta ]; done.
Qed.

(** C29: Whatever bytes a peer sends, in whatever pieces, a client's handshake with it returns a
    result or an error and does not panic.  A handshake that passes the checks can be finished: the
    channel is then open, as a client's channel, with the link protocol that was negotiated, and its
    peer has every identity that was wanted. *)
Theorem client_handshake_total target_method delay wallclock chunks peer peer_cert now :
  let connected := client_connect target_method delay wallclock (new_frame ClientInitiator chunks) in
  connected ≠ Panic ∧
  ∀ uv, connected = Ok uv →
    check uv peer peer_cert now ≠ Panic ∧
    ∀ vc, check uv peer peer_cert now = Ok vc →
      ∃ ch f ed_id rsa_id, client_finish vc = Ok ch ∧ chn_type ch = ClientInitiator ∧
        fr_codec (chn_frame ch) = HOpen f ∧ oh_inner f = chn_link_protocol ch ∧
        (chn_link_protocol ch = 4 ∨ chn_link_protocol ch = 5) ∧
        chn_peer ch = peer_of target_method (mkIds (Some ed_id) (Some rsa_id)) ∧ ids_proved peer ed_id rsa_id.
Proof.
  intros connected. pose proof (client_connect_total target_method delay wallclock chunks) as [Hp Hc].
  fold connected in Hp, Hc. split; [done|]. intros uv (Hn & Ht & _)%Hc.
  unfold check. split; [apply check_internal_no_panic|].
  intros vc (certs & ed & rsa & dg & _ & _ & Hids & ->)%check_internal_inv.
  destruct (client_finish_total (mkVerified (uv_link_protocol uv) (uv_frame uv) (uv_target_method uv) (Some ed)
    (Some (rsa, dg)) (sha256 peer_cert) (uv_clock_skew uv)) (uv_link_protocol uv) Hn)
    as (ch & f & Hf & Hty & Hcodec & Hv & _ & Hpeer & Hlp).
  exists ch, f, ed, rsa. cbn in Hlp, Hpeer. rewrite Hlp, Hv. split_and!; try done.
  - destruct Hn as ([|] & hh & _ & Hlv & _); simpl in Hlv; auto.
  - by rewrite Hpeer, Ht.
Qed.
End any_peer.

(** ** Relays *)

(** Once the link protocol is negotiated, the codec of a responder refuses a VERSIONS cell. *)
Lemma send_versions_late v fr :
  negotiated (RelayResponder false) v (fr_codec fr) →
  send_versions_cell fr = (fr, Err (HandshakeProto "Disallowed cell command")).
Proof.
  intros (lv & hh & Hc & _ & _ & Hf). unfold send_versions_cell, mbind, ST_mbind, lift. cbn [ok_or].
  change (Versions_new LINK_PROTOCOLS) with (Some LINK_PROTOCOLS). cbn [ok_or].
  unfold frame_send. rewrite Hc. cbn [handler_encode]. unfold handshake_encode, filter_encode_cell. rewrite Hf.
  by destruct lv.
Qed.

Section relays.
Context {SK : Type} `{!Signing SK}.
Context (export_keying_material : nat → list Z → option (list Z) → res ProtoError (list Z)).

Lemma recv_versions_inv fr h v fr' :
  fr_codec fr = HNew h → recv_versions_cell fr = (fr', Ok v) → negotiated (nh_channel_type h) v (fr_codec fr').
Proof. intros Hh E. pose proof (recv_versions_total fr h Hh) as H. rewrite E in H. by apply H. Qed.

Lemma responder_handshake_err (ids : RelayIdentities SK) peer my_addrs challenge delay wallclock chunks fr v :
  recv_versions_cell (new_frame (RelayResponder false) chunks) = (fr, Ok v) →
  responder_handshake ids peer my_addrs challenge delay wallclock (new_frame (RelayResponder false) chunks)
    = Err (HandshakeProto "Disallowed cell command").
Proof.
  intros Hv. unfold responder_handshake. rewrite (st_bind_run _ _ _ _ _ Hv).
  pose proof (recv_versions_inv (new_frame (RelayResponder false) chunks) (mkNew (RelayResponder false) (Some []) (Some [])) _ _ eq_refl Hv) as Hn.
  cbn [nh_channel_type] in Hn.
  unfold send_cells_to_initiator. pose proof (send_versions_late v fr Hn) as Hs.
  erewrite st_bind_err; [|by eapply st_bind_err]. done.
Qed.

Lemma relay_connect_target delay wallclock fr ui :
  relay_connect delay wallclock fr = Ok ui → uv_target_method (ui_inner ui) = None.
Proof.
  unfold relay_connect. match goal with |- (let '(_, _) := ?x in _) = _ → _ => destruct x as [fr' out] end. intros ([[[lp ac] certs] n] & _ & [= <-])%bind_ok. done.
Qed.

Lemma initiator_verify_target ui (ids : RelayIdentities SK) peer cert now random vc auth :
  initiator_verify export_keying_material ui ids peer cert now random = Ok (vc, auth) →
  vc_target_method vc = uv_target_method (ui_inner ui).
Proof.
  unfold initiator_verify, check. intros (vc1 & (certs & ed & rsa & dg & _ & _ & _ & ->)%check_internal_inv & H)%bind_ok.
  destruct (build_auth_data _ _ _) as [fr data]. apply bind_ok in H as (d & _ & H).
  apply bind_ok in H as (a & _ & H). apply bind_ok in H as (vc2 & Hs & [= <- _]).
  unfold verified_set_authenticated in Hs. destruct (on_codec _ _) as [fr' out].
  by apply bind_ok in Hs as ([] & _ & [= <-]).
Qed.

(** C40: Channels between relays do not open.  A responder answers an initiator's VERSIONS after it
    has moved its codec to the handshake state, in which a VERSIONS cell is refused, so its handshake
    fails on every input; an initiator that has connected and verified its peer has no target method,
    without which it cannot finish. *)
Theorem relay_channels_never_open (ids : RelayIdentities SK) my_addrs wallclock :
  (∀ peer challenge delay chunks,
     is_ok (responder_handshake ids peer my_addrs challenge delay wallclock
              (new_frame (RelayResponder false) chunks)) = false) ∧
  (∀ delay fr ui peer cert now random vc auth,
     relay_connect delay wallclock fr = Ok ui →
     initiator_verify export_keying_material ui ids peer cert now random = Ok (vc, auth) →
     is_ok (initiator_finish vc auth ids my_addrs wallclock) = false).
Proof.
  split.
  - intros peer challenge delay chunks.
    destruct (recv_versions_cell (new_frame (RelayResponder false) chunks)) as [fr [v|e|]] eqn:E.
    + by erewrite responder_handshake_err.
    + unfold responder_handshake. by erewrite st_bind_err.
    + unfold responder_handshake, mbind, ST_mbind. by rewrite E.
  - intros delay fr ui peer cert now random vc auth Hc%relay_connect_target Hv%initiator_verify_target.
    unfold initiator_finish. rewrite Hv, Hc. unfold mbind, ST_mbind.
    destruct (frame_send _ (vc_frame vc)) as [fr1 [[]|e|]]; [|done..].
    by destruct (frame_send _ fr1) as [fr2 [[]|e|]].
Qed.
End relays.

(** ** Clocks *)

(** C39: What a clock skew says.  The relay's clock is ahead of ours by [s]; it reads its clock at
    some moment of the exchange and reports whole seconds.  If our clock is reported slow by [d], it
    is slow by [d] or more; if it is reported fast by [d], it is fast by more than [d] less a second;
    and if nothing is reported, ours is fast by at most two seconds and the time of the exchange, or
    slow by less than three seconds and the time of the exchange. *)
Theorem clock_skew_sound (ours delay s at_moment theirs : Z) :
  0 ≤ at_moment ≤ delay →
  theirs = (ours + at_moment + s) / 1000000000 * 1000000000 →
  match from_handshake_timestamps ours theirs delay with
  | Slow d => SKEW_MIN < d ≤ s
  | Fast d => SKEW_MIN < d < - s + 1000000000
  | NoSkew => - SKEW_MIN - delay ≤ s < SKEW_MIN + delay + 1000000000
  end.
Proof.
  intros Hm ->. remember (ours + at_moment + s) as real eqn:Hreal.
  pose proof (Z.div_mod real 1000000000). pose proof (Z.mod_pos_bound real 1000000000).
  generalize dependent (real / 1000000000). intros q Hq. unfold from_handshake_timestamps, duration_since, if_above, SKEW_MIN.
  destruct (Z.leb_spec ours (q * 1000000000 - delay)); simpl;
    [destruct (Z.ltb_spec (2 * 1000000000) (q * 1000000000 - delay - ours))
    |destruct (Z.leb_spec (q * 1000000000) ours); simpl;
       [destruct (Z.ltb_spec (2 * 1000000000) (ours - q * 1000000000))|]]; lia.
Qed.

Lemma clock_skew_sound_witness :
  from_handshake_timestamps 5000000000 13000000000 1000000000 = Slow 7000000000 ∧
  SKEW_MIN < 7000000000 ≤ 8000000000.
Proof.
  split; [reflexivity|].
  pose proof (clock_skew_sound 5000000000 1000000000 8000000000 500000000 13000000000) as H.
  apply H; [lia|reflexivity].
Defined.

(** ** A client and a peer that follows the protocol *)

(** However a frame is cut, it is the next item, and what follows it is left. *)
Lemma pull_frame h enc c h1 rest buf chunks :
  frame_at handler_decode h enc c h1 → buf ++ concat chunks = enc ++ rest →
  ∃ buf' chunks', pull h buf chunks = (h1, buf', chunks', Ok (Some c)) ∧ buf' ++ concat chunks' = rest.
Proof.
  intros (Hne & Hdec & Hpre). revert buf. induction chunks as [|chunk chunks IH]; intros buf Hb.
  - cbn [concat] in Hb. rewrite app_nil_r in Hb. subst buf. cbn [pull]. rewrite Hdec.
    exists rest, []. by rewrite app_nil_r.
  - apply app_eq_inv in Hb as [(k & -> & Hk)|(k & Hk & Hr)].
    + cbn [pull]. rewrite Hdec. exists k, (chunk :: chunks). done.
    + destruct (decide (k = [])) as [->|Hk0].
      * rewrite app_nil_r in Hk. subst buf. cbn [pull]. rewrite <-(app_nil_r enc), Hdec.
        exists [], (chunk :: chunks). by rewrite Hr.
      * cbn [pull]. rewrite (Hpre buf k Hk Hk0). apply IH. cbn [concat] in Hr.
        rewrite <-(assoc_L app), Hr, Hk. by rewrite (assoc_L app).
Qed.

Lemma frame_next_frame fr enc c h1 rest :
  frame_at handler_decode (fr_codec fr) enc c h1 → fr_buf fr ++ concat (fr_chunks fr) = enc ++ rest →
  ∃ buf chunks, frame_next fr = (mkFrame h1 buf chunks (fr_sent fr), Ok (Some c)) ∧ buf ++ concat chunks = rest.
Proof.
  intros Hf Hb. destruct (pull_frame _ _ _ _ _ _ _ Hf Hb) as (buf & chunks & Hp & Hr).
  exists buf, chunks. unfold frame_next. by rewrite Hp.
Qed.

(** The rounds of the loop over cells that do not end it. *)
Fixpoint rounds (s : SeenCells) (msgs : list AnyChanMsg) : res ProtoError SeenCells :=
  match msgs with
  | [] => Ok s
  | m :: msgs =>
      r ← responder_round s m;
      match r with Continue s => rounds s msgs | Stop _ => Err (Internal "stopped") end
  end.

Lemma read_cells_frames s fs h' last enc h2 s1 s2 rest fuel fr :
  frames_from handler_decode (fr_codec fr) fs h' → frame_at handler_decode h' enc last h2 →
  rounds s (cl_msg <$> fs.*2) = Ok s1 → responder_round s1 (cl_msg last) = Ok (Stop s2) →
  fr_buf fr ++ concat (fr_chunks fr) = concat fs.*1 ++ enc ++ rest → (length fs ≤ fuel)%nat →
  ∃ buf chunks, read_cells responder_round fuel s fr = (mkFrame h2 buf chunks (fr_sent fr), Ok s2) ∧
    buf ++ concat chunks = rest.
Proof.
  intros Hfs Hl Hr Hstop Hb Hfuel. revert s fuel fr Hfs Hr Hb Hfuel.
  induction fs as [|[e c] fs IH]; intros s fuel fr Hfs Hr Hb Hfuel; inversion Hfs; subst; cbn in Hr, Hb.
  - injection Hr as ->. destruct (frame_next_frame fr enc last h2 rest) as (buf & chunks & Hn & Hrest); [done|done|].
    exists buf, chunks. split; [|done]. destruct fuel; cbn [read_cells]; rewrite (st_bind_run _ _ _ _ _ Hn);
      unfold mbind, ST_mbind, lift; by rewrite Hstop.
  - apply bind_ok in Hr as ([s'|s'] & Hrd & Hr); [|done]. rewrite <-(assoc_L app) in Hb.
    destruct (frame_next_frame fr e c h1 (concat fs.*1 ++ enc ++ rest)) as (buf & chunks & Hn & Hrest); [done|done|].
    destruct fuel as [|fuel]; [simpl in Hfuel; lia|]. cbn [read_cells]. rewrite (st_bind_run _ _ _ _ _ Hn).
    unfold mbind, ST_mbind, lift. rewrite Hrd. apply (IH s' fuel (mkFrame h1 buf chunks (fr_sent fr))); [done..|].
    simpl in Hfuel. lia.
Qed.

Definition is_vpadding (m : AnyChanMsg) : bool := match m with CmVpadding _ => true | _ => false end.

Lemma rounds_padding s msgs : rounds s msgs = rounds s (List.filter (negb ∘ is_vpadding) msgs).
Proof.
  revert s. induction msgs as [|m msgs IH]; intros s; [done|]. cbn [rounds List.filter]. unfold compose at 1.
  destruct (is_vpadding m) eqn:E; cbn [negb].
  - destruct m; try done. apply IH.
  - cbn [rounds]. destruct (responder_round s m) as [[s'|]| |]; simpl; auto.
Qed.

(** What a responder sends after its VERSIONS: padding anywhere, a CERTS and perhaps an
    AUTH_CHALLENGE in any order, and then a NETINFO. *)
Definition responder_cells (certs : list TorCert) (ac : option AuthChallenge) (n : Netinfo) (cells : list ChanCell) :
    Prop :=
  ∃ pre, cells = pre ++ [mkChanCell None (CmNetinfo n)] ∧
    List.filter (negb ∘ is_vpadding) (cl_msg <$> pre) ≡ₚ CmCerts certs :: option_list (CmAuthChallenge <$> ac).

Lemma rounds_responder certs ac msgs :
  List.filter (negb ∘ is_vpadding) msgs ≡ₚ CmCerts certs :: option_list (CmAuthChallenge <$> ac) →
  rounds seen_nothing msgs = Ok (mkSeen ac None (Some certs) None).
Proof.
  intros Hp. rewrite rounds_padding. destruct ac as [ac|]; simpl in Hp.
  - symmetry in Hp. by apply Permutation_length_2_inv in Hp as [-> | ->].
  - symmetry in Hp. by apply Permutation_length_1_inv in Hp as ->.
Qed.

Lemma frames_snoc {H C E} (decode : H → list Z → H * list Z * res E (option C)) h fs e c h' :
  frames_from decode h (fs ++ [(e, c)]) h' → ∃ h1, frames_from decode h fs h1 ∧ frame_at decode h1 e c h'.
Proof.
  revert h. induction fs as [|[e0 c0] fs IH]; intros h Hf; inversion Hf as [|? ? ? h1 ? ? Hat Hfs]; subst.
  - inversion Hfs; subst. exists h. split; [constructor|done].
  - destruct (IH _ Hfs) as (h2 & Hf2 & Hl). exists h2. split; [by econstructor|done].
Qed.

Lemma frames_length {H C E} (decode : H → list Z → H * list Z * res E (option C)) h fs h' :
  frames_from decode h fs h' → (length fs ≤ length (concat fs.*1))%nat.
Proof.
  induction 1 as [|h e c h1 fs h2 (Hne & _) _ IH]; [done|]. cbn. rewrite length_app.
  destruct e; [done|]. simpl. lia.
Qed.

Lemma recv_cells_honest b fr peer_h certs ac n cells h3 bytes rest :
  handlers_match peer_h (fr_codec fr) → Forall (sendable peer_h) cells → responder_cells certs ac n cells →
  encode_all peer_h cells [] = Ok (h3, bytes) → fr_buf fr ++ concat (fr_chunks fr) = bytes ++ rest →
  (b = true → is_Some ac) →
  ∃ fr', recv_cells_from_responder b fr = (fr', Ok (ac, certs, n)) ∧
    fr_buf fr' ++ concat (fr_chunks fr') = rest ∧ handlers_match h3 (fr_codec fr').
Proof.
  intros Hm Hs (pre & -> & Hp) He Hb Hac.
  destruct (encode_all_frames _ _ _ _ _ _ Hm Hs He) as (fs & h1 & -> & Hfs & Hfr & Hm3).
  apply fmap_app_inv in Hfs as (fs0 & [|[e last] [|]] & Hpre & Hlast & ->); [done| |done].
  simpl in Hlast. injection Hlast as <-. destruct (frames_snoc _ _ _ _ _ _ Hfr) as (h2 & Hf2 & Hat).
  rewrite fmap_app, concat_app in Hb. cbn [app fmap list_fmap fst concat] in Hb. rewrite app_nil_r, <-(assoc_L app) in Hb.
  destruct (read_cells_frames seen_nothing fs0 h2 (mkChanCell None (CmNetinfo n)) e h1
    (mkSeen ac None (Some certs) None) (mkSeen ac None (Some certs) (Some n)) rest (unread fr) fr)
    as (buf & chunks & Hrd & Hrest); try done.
  { rewrite <-Hpre. by apply rounds_responder. }
  { unfold unread. rewrite <-length_app, Hb, length_app. pose proof (frames_length _ _ _ _ Hf2). lia. }
  exists (mkFrame h1 buf chunks (fr_sent fr)). split; [|done]. unfold recv_cells_from_responder.
  unfold mbind, ST_mbind, gets. rewrite Hrd. cbn [sc_netinfo sc_certs sc_auth_challenge].
  destruct b; [|done]. destruct (Hac eq_refl) as [a ->]. done.
Qed.

Lemma recv_versions_honest fr h vs v lv enc rest :
  fr_codec fr = HNew h → versions_wf vs → encode_for_handshake vs = Ok enc →
  best_shared_link_protocol vs LINK_PROTOCOLS = Some v → LinkVersion_value lv = v →
  fr_buf fr ++ concat (fr_chunks fr) = enc ++ rest →
  ∃ fr' hh, recv_versions_cell fr = (fr', Ok v) ∧ fr_buf fr' ++ concat (fr_chunks fr') = rest ∧
    fr_codec fr' = HHandshake hh ∧ hh_filter hh = mkFilter lv (nh_channel_type h) StHandshake ∧
    hh_slog hh = log_update enc (nh_slog h).
Proof.
  intros Hh Hvs Henc Hbest Hlv Hb. pose proof (ChanHandler.new_frame h vs enc Hvs Henc) as Hat. rewrite <-Hh in Hat.
  destruct (frame_next_frame _ _ _ _ _ Hat Hb) as (buf & chunks & Hn & Hr).
  unfold recv_versions_cell. rewrite (st_bind_run _ _ _ _ _ Hn). cbn [cl_msg]. unfold mbind, ST_mbind, lift.
  rewrite Hbest. cbn [ok_or]. unfold on_codec, with_codec. cbn [fr_codec set_link_version]. rewrite <-Hlv.
  destruct lv; simpl; do 2 eexists; (split; [done|]); done.
Qed.

Section honest.
Context {SK : Type} `{!Signing SK}.

(** C9: A client opens a channel to a peer that follows the protocol.  The peer offers versions of
    which [v] is the best that both support, and then sends, in any order and with padding anywhere,
    a CERTS cell with a chain of trust that proves the wanted identities, perhaps an AUTH_CHALLENGE,
    and last a NETINFO.  Then, however the bytes are cut, the client connects, the checks pass and the
    open channel has version [v] and the identities of the peer; bytes that follow are left unread. *)
Theorem client_opens_channel (vs : list Z) (v : Z) (lv : LinkVersion) certs ac n cells clog slog h3 b1 b2 rest
    chunks target delay wallclock peer peer_cert now ed_id rsa_id cc_digest :
  versions_wf vs → best_shared_link_protocol vs LINK_PROTOCOLS = Some v → LinkVersion_value lv = v →
  encode_for_handshake vs = Ok b1 →
  responder_cells certs ac n cells → Forall chan_cell_wf cells →
  encode_all (HHandshake (mkHandshaking (mkFilter lv (RelayResponder false) StHandshake) v clog slog)) cells []
    = Ok (h3, b2) →
  concat chunks = b1 ++ b2 ++ rest →
  ChainOfTrust certs (sha256 peer_cert) now ed_id rsa_id cc_digest → ids_proved peer ed_id rsa_id →
  ∃ uv vc ch,
    client_connect target delay wallclock (ChanHandshake.new_frame ClientInitiator chunks) = Ok uv ∧
    uv_clock_skew uv = unauthenticated_clock_skew n delay wallclock ∧
    fr_buf (uv_frame uv) ++ concat (fr_chunks (uv_frame uv)) = rest ∧
    check uv peer peer_cert now = Ok vc ∧ client_finish vc = Ok ch ∧
    chn_type ch = ClientInitiator ∧ chn_link_protocol ch = v ∧
    chn_peer ch = peer_of target (mkIds (Some ed_id) (Some rsa_id)).
Proof.
  intros Hvs Hbest Hlv He1 Hcells Hwf He2 Hc Hchain Hids.
  destruct (send_versions_new (ChanHandshake.new_frame ClientInitiator chunks) (mkNew ClientInitiator None None) eq_refl)
    as (h' & Hs & Ht & _ & Hsl).
  edestruct (recv_versions_honest (mkFrame (HNew h') [] chunks ([] ++ [0; 0; 7; 0; 4; 0; 4; 0; 5])))
    as (fr1 & hh & Hv & Hb1 & Hcodec & Hf & Hlog); [done..|].
  rewrite Hsl in Hlog.
  rewrite Ht in Hf. cbn [nh_channel_type] in Hf.
  edestruct (recv_cells_honest false fr1) as (fr2 & Hr & Hb2 & _); [| |done|done|done|done|].
  { rewrite Hcodec. split; [done|]. split; [by rewrite Hf; repeat split; left|]. simpl. rewrite Hlog. by destruct clog. }
  { eapply Forall_impl; [exact Hwf|]. done. }
  set (uv := mkUnverified v fr2 (Some certs) target (unauthenticated_clock_skew n delay wallclock)).
  assert (client_connect target delay wallclock (ChanHandshake.new_frame ClientInitiator chunks) = Ok uv) as Hcon.
  { unfold client_connect. rewrite (st_bind_run _ _ _ _ _ Hs). cbn [fr_buf fr_chunks fr_sent ChanHandshake.new_frame].
    rewrite (st_bind_run _ _ _ _ _ Hv), (st_bind_run _ _ _ _ _ Hr). done. }
  pose proof (client_connect_total target delay wallclock chunks) as [_ Hn]. destruct (Hn uv Hcon) as (Hneg & _).
  set (vc := mkVerified v fr2 target (Some ed_id) (Some (rsa_id, cc_digest)) (sha256 peer_cert) (uv_clock_skew uv)).
  destruct (client_finish_total vc v Hneg) as (ch & f & Hfin & Hty & _ & _ & _ & Hpeer & Hlp).
  exists uv, vc, ch. split_and!; try done. unfold check. apply check_internal_intro.
  by exists certs, ed_id, rsa_id, cc_digest.
Qed.
End honest.

(** *** An example *)

Definition ok_bytes {E} (r : res E (list Z)) : list Z := match r with Ok b => b | _ => [] end.
Definition toy_time : Z := 1000 * 3600 * 1000000000.
Definition toy_peer_cert : list Z := [3; 1; 4].

Definition toy_id_cert : list Z :=
  ok_bytes (encode_and_sign (build_cert [SetCertType CertType.IDENTITY_V_SIGNING; Expiration toy_time;
    SetCertKey (KeyEd25519 (replicate 32 5)); SetSigningKey (replicate 32 4)]) (4 : Z)).
Definition toy_tls_cert : list Z :=
  ok_bytes (encode_and_sign (build_cert [SetCertType CertType.SIGNING_V_TLS_CERT; Expiration toy_time;
    SetCertKey (KeyX509Sha256Digest (sha256 (SK:=Z) toy_peer_cert))]) (5 : Z)).
Definition toy_signed_portion : list Z := replicate 32 4 ++ to_be_bytes 4 1000.
Definition toy_cc_digest : list Z := sha256 (SK:=Z) (str "Tor TLS RSA/Ed25519 cross-certificate" ++ toy_signed_portion).
Definition toy_crosscert : list Z := toy_signed_portion ++ [1; toy_checksum [9; 9; 9] toy_cc_digest].
Definition toy_certs : list TorCert :=
  [mkTorCert CertType.RSA_ID_X509 [9; 9; 9]; mkTorCert CertType.IDENTITY_V_SIGNING toy_id_cert;
   mkTorCert CertType.SIGNING_V_TLS_CERT toy_tls_cert; mkTorCert CertType.RSA_ID_V_IDENTITY toy_crosscert].

Definition decoded_or (d : UncheckedCert) (b : list Z) : UncheckedCert :=
  match Ed25519Cert_decode b with Ok u => u | _ => d end.
Definition no_cert : UncheckedCert := mkUnchecked (mkCert 0 0 (KeyEd25519 []) [] None) [] [].

Lemma toy_chain :
  ChainOfTrust (SK:=Z) toy_certs (sha256 (SK:=Z) toy_peer_cert) 5 (replicate 32 4)
    (to_rsa_identity (SK:=Z) [9; 9; 9]) toy_cc_digest.
Proof.
  split.
  - exists (decoded_or no_cert toy_id_cert), (decoded_or no_cert toy_tls_cert), (replicate 32 5).
    split_and!; try (vm_compute; reflexivity).
    + exists toy_id_cert. split_and!; vm_compute; reflexivity.
    + exists toy_tls_cert. split_and!; vm_compute; reflexivity.
    + vm_compute. done.
  - exists [9; 9; 9], [9; 9; 9], toy_crosscert.
    exists (mkCrosscert (replicate 32 4) 1000 toy_cc_digest [toy_checksum [9; 9; 9] toy_cc_digest]).
    split_and!; vm_compute; reflexivity.
Qed.

Definition toy_netinfo : Netinfo := mkNetinfo 77 (Some (V4 2130706433)) [].
Definition toy_cells : list ChanCell :=
  [mkChanCell None (CmAuthChallenge (mkAuthChallenge (replicate 32 1) [3])); mkChanCell None (CmVpadding 3);
   mkChanCell None (CmCerts toy_certs); mkChanCell None (CmNetinfo toy_netinfo)].
Definition toy_responder : ChannelCellHandler :=
  HHandshake (mkHandshaking (mkFilter LinkV5 (RelayResponder false) StHandshake) 5 None None).
Definition toy_sent : ChannelCellHandler * list Z :=
  match encode_all toy_responder toy_cells [] with Ok r => r | _ => (toy_responder, []) end.
Definition toy_stream : list Z := ok_bytes (encode_for_handshake [3; 4; 5]) ++ snd toy_sent ++ [42].

Lemma toy_cells_wf : Forall chan_cell_wf toy_cells.
Proof.
  constructor; [|constructor; [|constructor; [|constructor; [|constructor]]]]; (split; [exact I|split; [|reflexivity]]).
  - vm_compute. repeat split; try discriminate. repeat constructor; try discriminate.
  - unfold chan_msg_wf. simpl. unfold in_uint, u16_max. lia.
  - repeat (constructor; [unfold byte_ok; cbn [tc_certtype]; split; reflexivity || discriminate|]). constructor.
  - split; [unfold in_uint, u32_max; simpl; lia|]. split; [|constructor]. simpl.
    split; [unfold in_uint, u32_max; lia|reflexivity].
Qed.

Lemma toy_cells_responder :
  responder_cells toy_certs (Some (mkAuthChallenge (replicate 32 1) [3])) toy_netinfo toy_cells.
Proof. exists (take 3 toy_cells). split; [reflexivity|]. simpl. apply Permutation_swap. Qed.

Lemma toy_encode : encode_all toy_responder toy_cells [] = Ok (fst toy_sent, snd toy_sent).
Proof. vm_compute. reflexivity. Qed.

Lemma toy_chunks :
  concat [take 9 toy_stream; drop 9 toy_stream] = ok_bytes (encode_for_handshake [3; 4; 5]) ++ snd toy_sent ++ [42].
Proof. cbn [concat]. by rewrite app_nil_r, take_drop. Qed.

Lemma toy_versions : versions_wf [3; 4; 5].
Proof. split; [|reflexivity]. repeat (constructor; [unfold in_uint, u16_max; lia|]). constructor. Qed.

Lemma client_opens_channel_witness :
  ∃ uv vc ch,
    client_connect None 0 0 (ChanHandshake.new_frame ClientInitiator [take 9 toy_stream; drop 9 toy_stream]) = Ok uv ∧
    check (SK:=Z) uv (mkIds (Some (replicate 32 4)) None) toy_peer_cert 5 = Ok vc ∧ client_finish vc = Ok ch ∧
    chn_link_protocol ch = 5.
Proof.
  pose proof (client_opens_channel (SK:=Z) [3; 4; 5] 5 LinkV5 toy_certs (Some (mkAuthChallenge (replicate 32 1) [3]))
    toy_netinfo toy_cells None None (fst toy_sent) (ok_bytes (encode_for_handshake [3; 4; 5])) (snd toy_sent) [42]
    [take 9 toy_stream; drop 9 toy_stream] None 0 0 (mkIds (Some (replicate 32 4)) None) toy_peer_cert 5
    (replicate 32 4) (to_rsa_identity (SK:=Z) [9; 9; 9]) toy_cc_digest toy_versions eq_refl eq_refl eq_refl
    toy_cells_responder toy_cells_wf toy_encode toy_chunks toy_chain) as H.
  destruct H as (uv & vc & ch & Hc & _ & _ & Hk & Hf & _ & Hlp & _).
  - split; simpl; intros k Hk; inversion Hk; reflexivity.
  - exists uv, vc, ch. repeat split; assumption.
Defined.
