(* ===== verification/ConsDiff.v ===== *)
(** * ConsDiff: consensus diffs (crate [tor-consdiff])

    A directory cache sends a consensus as an ed-style diff against the one the client has.
    The file models the whole crate: the header and command parsers, the iterator that forces
    the commands into reverse order, the fast backwards application [apply_diff], and the
    reference application [apply_diff_trivial], which edits a vector in place.  A line is its
    bytes; [usize] arithmetic and the vector operations panic where the code's do.  The crates
    [hex] and [sha3] are parameters. *)

From S2P Require Import Prelude Text.

(** ** The standard library on strings and vectors *)

Definition isize_max : Z := 9223372036854775807.

Definition len {A} (l : list A) : Z := Z.of_nat (length l).
Definition takeZ {A} (n : Z) (l : list A) : list A := take (Z.to_nat n) l.
Definition dropZ {A} (n : Z) (l : list A) : list A := drop (Z.to_nat n) l.

(** [str::lines]: a line ends with a newline, which is dropped with a carriage return before
    it; the text after the last newline is a line when it is not empty. *)
Definition strip_cr (p : list Z) : list Z :=
  match last p with
  | Some x => if x =? 13 then take (length p - 1) p else p
  | None => p
  end.

Fixpoint end_lines (ps : list (list Z)) : list (list Z) :=
  match ps with
  | [] => []
  | [p] => match p with [] => [] | _ => [p] end
  | p :: ps => strip_cr p :: end_lines ps
  end.

Definition lines_of (s : list Z) : list (list Z) := end_lines (split_on 10 s).

Definition is_ascii_whitespace (x : Z) : bool :=
  (x =? 32) || (x =? 9) || (x =? 10) || (x =? 12) || (x =? 13).

Fixpoint split_ascii_pieces (l : list Z) : list (list Z) :=
  match l with
  | [] => [[]]
  | x :: l =>
      if is_ascii_whitespace x then [] :: split_ascii_pieces l
      else match split_ascii_pieces l with
           | [] => [[x]]
           | p :: ps => (x :: p) :: ps
           end
  end.

Definition split_ascii_whitespace (l : list Z) : list (list Z) :=
  filter (λ p, p ≠ []) (split_ascii_pieces l).

Definition is_ascii (s : list Z) : bool := forallb (λ x, x <? 128) s.

Definition starts_with (s p : list Z) : bool := bool_decide (take (length p) s = p).

Section vec.
Context {E A : Type}.

(** [v.get(i..)]. *)
Definition get_from (v : list A) (i : Z) : option (list A) :=
  if i <=? len v then Some (dropZ i v) else None.

(** [v.truncate(n)]. *)
Definition vec_truncate (v : list A) (n : Z) : list A := takeZ n v.

(** [v.resize(n, x)]. *)
Definition resize (v : list A) (n : Z) (x : A) : list A :=
  takeZ n v ++ replicate (Z.to_nat (n - len v)) x.

(** [v.copy_within(a..b, dest)]. *)
Definition copy_within (v : list A) (a b dest : Z) : res E (list A) :=
  if (a <=? b) && (b <=? len v) && (dest <=? len v - (b - a))
  then Ok (takeZ dest v ++ takeZ (b - a) (dropZ a v) ++ dropZ (dest + (b - a)) v)
  else Panic.

(** [v[a..b].copy_from_slice(src)]. *)
Definition copy_from_slice (v : list A) (a b : Z) (src : list A) : res E (list A) :=
  if (a <=? b) && (b <=? len v) && (len src =? b - a)
  then Ok (takeZ a v ++ src ++ dropZ b v)
  else Panic.
End vec.

(** ** Data *)

Inductive Error : Type :=
| BadDiff (what : string)
| CantApply (what : string).

Inductive DiffCommand : Type :=
| Delete (low high : Z)
| DeleteToEnd (low : Z)
| Replace (low high : Z) (lines : list (list Z))
| Insert (pos : Z) (lines : list (list Z)).

Record DiffResult : Type := mkDiffResult {
  d_post : list Z;
  dr_lines : list (list Z);
}.

Inductive RangeEnd : Type :=
| Num (n : Z)
| DollarSign.

(** ** Parsing *)

Definition parse_err : Error := BadDiff "can't parse line number".

Definition parse_usize (s : list Z) : res Error Z := ok_or (parse_uint usize_max s) parse_err.

Definition parse_nonzero (s : list Z) : res Error Z :=
  v ← parse_usize s; if v =? 0 then Err parse_err else Ok v.

Definition range_end_from_str (s : list Z) : res Error RangeEnd :=
  if bool_decide (s = str "$") then Ok DollarSign
  else
    v ← parse_nonzero s;
    if v =? usize_max then Err (BadDiff "range cannot end at usize::MAX") else Ok (Num v).

Definition looks_like_diff (s : list Z) : bool :=
  starts_with s (str "network-status-diff-version").

Section header.
Variable hex_decode : list Z → option (list Z).

Definition hex (s : list Z) : res Error (list Z) :=
  ok_or (hex_decode s) (BadDiff "invalid hexadecimal in 'hash' line").

(** The digests before and after, and the lines not yet read. *)
Definition parse_diff_header (iter : list (list Z))
    : res Error ((list Z * list Z) * list (list Z)) :=
  match iter with
  | line1 :: iter =>
      if negb (bool_decide (line1 = str "network-status-diff-version 1"))
      then Err (BadDiff "unrecognized or missing header")
      else
        match iter with
        | [] => Err (BadDiff "header truncated")
        | line2 :: iter =>
            if negb (starts_with line2 (str "hash ")) then Err (BadDiff "missing 'hash' line")
            else
              match split_ascii_whitespace line2 with
              | [_; e1; e2] =>
                  d1 ← hex e1;
                  d2 ← hex e2;
                  if (len d1 =? 32) && (len d2 =? 32) then Ok ((d1, d2), iter)
                  else Err (BadDiff "wrong digest lengths on 'hash' line")
              | _ => Err (BadDiff "invalid 'hash' line")
              end
        end
  | [] => Err (BadDiff "unrecognized or missing header")
  end.
End header.

(** [linebuf_mut]: the command with the lines of its block, for one that has a block. *)
Definition linebuf_mut (c : DiffCommand) : option (list (list Z) → DiffCommand) :=
  match c with
  | Replace low high _ => Some (Replace low high)
  | Insert pos _ => Some (Insert pos)
  | _ => None
  end.

(** The lines up to the one that is a period. *)
Fixpoint read_block (iter : list (list Z)) : res Error (list (list Z) * list (list Z)) :=
  match iter with
  | [] => Err (BadDiff "unterminated block to insert")
  | line :: iter =>
      if bool_decide (line = str ".") then Ok ([], iter)
      else '(ls, iter) ← read_block iter; Ok (line :: ls, iter)
  end.

Definition parse_line_range (range : list Z) : res Error (Z * option RangeEnd) :=
  match split_once 44 range with
  | Some (a, b) =>
      low ← parse_usize a;
      high ← range_end_from_str b;
      Ok (low, Some high)
  | None => low ← parse_usize range; Ok (low, None)
  end.

Definition command_of (command : list Z) (low : Z) (high : option RangeEnd)
    : res Error DiffCommand :=
  if bool_decide (command = str "d") then
    match high with
    | None => Ok (Delete low low)
    | Some (Num high) => Ok (Delete low high)
    | Some DollarSign => Ok (DeleteToEnd low)
    end
  else if bool_decide (command = str "c") then
    match high with
    | None => Ok (Replace low low [])
    | Some (Num high) => Ok (Replace low high [])
    | Some DollarSign => Err (BadDiff "can't parse command line")
    end
  else if bool_decide (command = str "a") then
    match high with
    | None => Ok (Insert low [])
    | Some _ => Err (BadDiff "can't parse command line")
    end
  else Err (BadDiff "can't parse command line").

Definition misordered_range (low : Z) (high : option RangeEnd) : bool :=
  match high with Some (Num hi) => hi <? low | _ => false end.

Definition from_line_iterator (iter : list (list Z))
    : res Error (option DiffCommand * list (list Z)) :=
  match iter with
  | [] => Ok (None, [])
  | command :: iter =>
      if (len command <? 2) || negb (is_ascii command) then Err (BadDiff "command too short")
      else
        let range := takeZ (len command - 1) command in
        let command := dropZ (len command - 1) command in
        '(low, high) ← parse_line_range range;
        if low =? usize_max then Err (BadDiff "range cannot begin at usize::MAX")
        else if misordered_range low high then Err (BadDiff "mis-ordered lines in range")
        else
          cmd ← command_of command low high;
          match linebuf_mut cmd with
          | Some linebuf => '(ls, iter) ← read_block iter; Ok (Some (linebuf ls), iter)
          | None => Ok (Some cmd, iter)
          end
  end.

(** ** Commands *)

Definition lines (c : DiffCommand) : option (list (list Z)) :=
  match c with
  | Replace _ _ lines | Insert _ lines => Some lines
  | _ => None
  end.

Definition following_lines (c : DiffCommand) : res Error (option Z) :=
  match c with
  | Delete _ high | Replace _ high _ => n ← uadd usize_max high 1; Ok (Some n)
  | DeleteToEnd _ => Ok None
  | Insert pos _ => n ← uadd usize_max pos 1; Ok (Some n)
  end.

Definition first_removed_line (c : DiffCommand) : res Error Z :=
  match c with
  | Delete low _ => Ok low
  | DeleteToEnd low => Ok low
  | Replace low _ _ => Ok low
  | Insert pos _ => uadd usize_max pos 1
  end.

Definition is_insert (c : DiffCommand) : bool :=
  match c with Insert _ _ => true | _ => false end.

(** [DiffCommandIter]. *)
Record DiffCommandIter : Type := mkDiffCommandIter {
  dci_iter : list (list Z);
  last_cmd_first_removed : option Z;
}.

Definition iter_new (iter : list (list Z)) : DiffCommandIter := mkDiffCommandIter iter None.

(** [next]: an error ends the loops that use the iterator. *)
Definition iter_next (it : DiffCommandIter) : res Error (option (DiffCommand * DiffCommandIter)) :=
  '(c, iter) ← from_line_iterator (dci_iter it);
  match c with
  | None => Ok None
  | Some c =>
      following ← following_lines c;
      let accept :=
        first ← first_removed_line c;
        Ok (Some (c, mkDiffCommandIter iter (Some first))) in
      match last_cmd_first_removed it, following with
      | Some _, None => Err (BadDiff "misordered commands")
      | Some a, Some b => if a <? b then Err (BadDiff "misordered commands") else accept
      | _, _ => accept
      end
  end.

(** [for command in it { apply(command?)?; }]: a command takes at least one line. *)
Fixpoint for_commands {S} (fuel : nat) (apply : DiffCommand → S → res Error S)
    (it : DiffCommandIter) (s : S) : res Error S :=
  match fuel with
  | O => Panic
  | S fuel =>
      n ← iter_next it;
      match n with
      | None => Ok s
      | Some (c, it) => s ← apply c s; for_commands fuel apply it s
      end
  end.

(** ** Results *)

Definition dr_from_str (s d_post : list Z) : DiffResult := mkDiffResult d_post (lines_of s).
Definition dr_new (d_post : list Z) : DiffResult := mkDiffResult d_post [].

Definition set_lines (d : DiffResult) (ls : list (list Z)) : DiffResult :=
  mkDiffResult (d_post d) ls.

Definition push_reversed (d : DiffResult) (ls : list (list Z)) : DiffResult :=
  set_lines d (dr_lines d ++ rev ls).

Definition remove_lines (d : DiffResult) (first last : Z) : res Error DiffResult :=
  let v := dr_lines d in
  if (len v <? first) || (len v <? last) || (first =? 0) || (last =? 0)
  then Err (CantApply "line out of range")
  else
    n ← usub last first;
    n_to_remove ← uadd usize_max n 1;
    v ← (if last =? len v then Ok v
         else dest ← usub first 1; copy_within v last (len v) dest);
    n ← usub (len v) n_to_remove;
    Ok (set_lines d (vec_truncate v n)).

Definition insert_at (d : DiffResult) (pos : Z) (ls : list (list Z)) : res Error DiffResult :=
  let v := dr_lines d in
  top ← uadd usize_max (len v) 1;
  if (top <? pos) || (pos =? 0) then Err (CantApply "position out of range")
  else
    let orig_len := len v in
    size ← uadd usize_max (len v) (len ls);
    let v := resize v size [] in
    p ← usub pos 1;
    dest ← uadd usize_max p (len ls);
    v ← copy_within v p orig_len dest;
    stop ← uadd usize_max pos (len ls);
    stop ← usub stop 1;
    v ← copy_from_slice v p stop ls;
    Ok (set_lines d v).

(** [Display]. *)
Definition to_string (d : DiffResult) : list Z := concat (map (λ l, l ++ [10]) (dr_lines d)).

Section digest.
Variable sha3_256 : list Z → list Z.

(** [Sha3_256] over its updates is over their concatenation. *)
Definition check_digest (d : DiffResult) : res Error unit :=
  let input := fold_left (λ acc line, (acc ++ line) ++ [10]) (dr_lines d) [] in
  if bool_decide (sha3_256 input = d_post d) then Ok tt
  else Err (CantApply "Wrong digest after applying diff").
End digest.

(** ** Application *)

Definition apply_to (c : DiffCommand) (target : DiffResult) : res Error DiffResult :=
  match c with
  | Delete low high => remove_lines target low high
  | DeleteToEnd low => remove_lines target low (len (dr_lines target))
  | Replace low high ls => target ← remove_lines target low high; insert_at target low ls
  | Insert pos ls => pos ← uadd usize_max pos 1; insert_at target pos ls
  end.

(** The input and the output after the command. *)
Definition apply_transformation (c : DiffCommand) (s : DiffResult * DiffResult)
    : res Error (DiffResult * DiffResult) :=
  let '(input, output) := s in
  following ← following_lines c;
  output ← match following with
           | Some succ =>
               i ← usub succ 1;
               match get_from (dr_lines input) i with
               | Some subslice => Ok (push_reversed output subslice)
               | None => Err (CantApply "ending line number didn't correspond to document")
               end
           | None => Ok output
           end;
  let output := match lines c with Some ls => push_reversed output ls | None => output end in
  remove ← first_removed_line c;
  if (remove =? 0) || (negb (is_insert c) && (len (dr_lines input) <? remove))
  then Err (CantApply "starting line number didn't correspond to document")
  else
    n ← usub remove 1;
    Ok (set_lines input (vec_truncate (dr_lines input) n), output).

Section apply.
Variable hex_decode : list Z → option (list Z).

Definition apply_diff_trivial (input diff : list Z) : res Error DiffResult :=
  '((_, d2), diff_lines) ← parse_diff_header hex_decode (lines_of diff);
  let diffable := dr_from_str input d2 in
  for_commands (S (length diff_lines)) apply_to (iter_new diff_lines) diffable.

Definition apply_diff (input diff : list Z) (check_digest_in : option (list Z))
    : res Error DiffResult :=
  let input := dr_from_str input (replicate 32 0) in
  '((d1, d2), diff_lines) ← parse_diff_header hex_decode (lines_of diff);
  let go :=
    let output := dr_new d2 in
    '(input, output) ←
      for_commands (S (length diff_lines)) apply_transformation (iter_new diff_lines)
        (input, output);
    let output := push_reversed output (dr_lines input) in
    Ok (set_lines output (rev (dr_lines output))) in
  match check_digest_in with
  | Some d_want =>
      if bool_decide (d1 = d_want) then go
      else Err (CantApply "listed digest does not match document")
  | None => go
  end.
End apply.

(** ** Facts about vectors *)

Ltac run_ok := repeat (rewrite ok_bind; cbn beta).
Ltac destruct_exists := repeat match goal with H : ∃ _, _ |- _ => destruct H end.

Lemma len_nonneg {A} (l : list A) : 0 ≤ len l.
Proof. unfold len. lia. Qed.

Lemma len_app {A} (l k : list A) : len (l ++ k) = len l + len k.
Proof. unfold len. rewrite length_app. lia. Qed.

Lemma len_takeZ {A} n (l : list A) : 0 ≤ n ≤ len l → len (takeZ n l) = n.
Proof. unfold len, takeZ. intros. rewrite length_take. lia. Qed.

Lemma len_dropZ {A} n (l : list A) : 0 ≤ n ≤ len l → len (dropZ n l) = len l - n.
Proof. unfold len, dropZ. intros. rewrite length_drop. lia. Qed.

Lemma takeZ_app {A} n (l k : list A) : n = len l → takeZ n (l ++ k) = l.
Proof. unfold len, takeZ. intros ->. rewrite Nat2Z.id. apply take_app_length. Qed.

Lemma dropZ_app {A} n (l k : list A) : n = len l → dropZ n (l ++ k) = k.
Proof. unfold len, dropZ. intros ->. rewrite Nat2Z.id. apply drop_app_length. Qed.

Lemma takeZ_app_l {A} n (l k : list A) : n ≤ len l → takeZ n (l ++ k) = takeZ n l.
Proof. unfold len, takeZ. intros. apply take_app_le. lia. Qed.

Lemma dropZ_app_l {A} n (l k : list A) : n ≤ len l → dropZ n (l ++ k) = dropZ n l ++ k.
Proof. unfold len, dropZ. intros. apply drop_app_le. lia. Qed.

Lemma takeZ_all {A} n (l : list A) : len l ≤ n → takeZ n l = l.
Proof. unfold len, takeZ. intros. apply take_ge. lia. Qed.

Lemma dropZ_all {A} n (l : list A) : len l ≤ n → dropZ n l = [].
Proof. unfold len, dropZ. intros. apply drop_ge. lia. Qed.

Lemma takeZ_dropZ {A} n (l : list A) : takeZ n l ++ dropZ n l = l.
Proof. apply take_drop. Qed.

(** Removing a range keeps what is before and after it. *)
Lemma remove_lines_ok d first last :
  1 ≤ first ≤ last → last ≤ len (dr_lines d) ≤ usize_max →
  remove_lines d first last =
    Ok (set_lines d (takeZ (first - 1) (dr_lines d) ++ dropZ last (dr_lines d))).
Proof.
  intros Hf Hl. unfold remove_lines. set (v := dr_lines d) in *.
  rewrite !(proj2 (Z.ltb_ge _ _)), !(proj2 (Z.eqb_neq _ 0)) by lia. cbn [orb].
  run_arith lia.
  assert (Ht : len (takeZ (first - 1) v) = first - 1) by (apply len_takeZ; lia).
  destruct (Z.eqb_spec last (len v)) as [->|Hne].
  - rewrite ok_bind. run_arith lia. rewrite (dropZ_all (len v)), app_nil_r by lia.
    do 3 f_equal. unfold vec_truncate, takeZ. f_equal. lia.
  - run_arith lia. unfold copy_within.
    rewrite !(proj2 (Z.leb_le _ _)) by lia. cbn [andb]. rewrite ok_bind.
    assert (Hd : len (dropZ last v) = len v - last) by (apply len_dropZ; lia).
    rewrite (takeZ_all (len v - last)) by lia.
    assert (Hr : len (dropZ (first - 1 + (len v - last)) v) = len v - (first - 1 + (len v - last)))
      by (apply len_dropZ; lia).
    run_arith ltac:(rewrite ?len_app; lia).
    unfold vec_truncate. rewrite (assoc_L app), takeZ_app; [done|].
    rewrite !len_app. lia.
Qed.

Lemma remove_lines_err d first last :
  len (dr_lines d) < last ∨ first = 0 ∨ len (dr_lines d) < first →
  ∃ what, remove_lines d first last = Err (CantApply what).
Proof.
  intros H. unfold remove_lines. eexists.
  replace ((len (dr_lines d) <? first) || _ || (first =? 0) || (last =? 0)) with true; [done|].
  symmetry. rewrite !orb_true_iff, !Z.ltb_lt, !Z.eqb_eq. lia.
Qed.

Lemma insert_at_ok d pos ls :
  1 ≤ pos ≤ len (dr_lines d) + 1 → len (dr_lines d) + len ls < usize_max →
  insert_at d pos ls =
    Ok (set_lines d (takeZ (pos - 1) (dr_lines d) ++ ls ++ dropZ (pos - 1) (dr_lines d))).
Proof.
  intros Hp Hl. unfold insert_at. set (v := dr_lines d) in *. pose proof (len_nonneg ls).
  run_arith lia.
  rewrite (proj2 (Z.ltb_ge _ _)), (proj2 (Z.eqb_neq _ _)) by lia. cbn [orb].
  run_arith lia.
  unfold resize. rewrite (takeZ_all _ v) by lia.
  replace (len v + len ls - len v) with (len ls) by lia.
  set (pad := replicate (Z.to_nat (len ls)) []).
  assert (Hpad : len pad = len ls) by (unfold pad, len; rewrite length_replicate; lia).
  unfold copy_within.
  rewrite !(proj2 (Z.leb_le _ _)) by (rewrite ?len_app; lia). cbn [andb]. run_ok.
  rewrite (dropZ_app_l (pos - 1)) by lia.
  rewrite (takeZ_app (len v - (pos - 1))) by (rewrite len_dropZ; lia).
  replace (pos - 1 + len ls + (len v - (pos - 1))) with (len (v ++ pad)) by (rewrite len_app; lia).
  rewrite (dropZ_all (len (v ++ pad))), app_nil_r by lia.
  run_arith lia. run_ok. unfold copy_from_slice.
  assert (Ht : len (takeZ (pos - 1 + len ls) (v ++ pad)) = pos - 1 + len ls)
    by (apply len_takeZ; rewrite len_app; lia).
  assert (Hd : len (dropZ (pos - 1) v) = len v - (pos - 1)) by (apply len_dropZ; lia).
  rewrite !(proj2 (Z.leb_le _ _)), (proj2 (Z.eqb_eq _ _)) by (rewrite ?len_app; lia).
  cbn [andb]. run_ok.
  rewrite (dropZ_app (pos + len ls - 1)) by lia.
  do 3 f_equal. rewrite takeZ_app_l by lia. unfold takeZ. rewrite take_take.
  rewrite (Nat.min_l (Z.to_nat (pos - 1)) _) by lia. apply take_app_le. unfold len in *. lia.
Qed.

Lemma insert_at_err d pos ls :
  pos = 0 ∨ len (dr_lines d) + 1 < pos → len (dr_lines d) < usize_max →
  ∃ what, insert_at d pos ls = Err (CantApply what).
Proof.
  intros H Hl. unfold insert_at. rewrite (uadd_ok _ (len (dr_lines d)) 1), ok_bind by lia. eexists.
  replace ((len (dr_lines d) + 1 <? pos) || (pos =? 0)) with true; [done|].
  symmetry. rewrite orb_true_iff, Z.ltb_lt, Z.eqb_eq. lia.
Qed.

(** ** What the parser accepts *)

(** The commands that come out of the parser: no line number is the largest [usize], and a
    range does not end before it starts. *)
Definition wf_command (c : DiffCommand) : Prop :=
  match c with
  | Delete low high | Replace low high _ => 0 ≤ low ≤ high ∧ high < usize_max
  | DeleteToEnd low => 0 ≤ low < usize_max
  | Insert pos _ => 0 ≤ pos < usize_max
  end.

Definition follows (c : DiffCommand) : option Z :=
  match c with
  | Delete _ high | Replace _ high _ => Some (high + 1)
  | DeleteToEnd _ => None
  | Insert pos _ => Some (pos + 1)
  end.

Definition first_removed (c : DiffCommand) : Z :=
  match c with
  | Delete low _ | DeleteToEnd low | Replace low _ _ => low
  | Insert pos _ => pos + 1
  end.

Definition block (c : DiffCommand) : list (list Z) := default [] (lines c).

Lemma following_lines_ok c : wf_command c → following_lines c = Ok (follows c).
Proof. destruct c; simpl; intros; run_arith lia; done. Qed.

Lemma first_removed_line_ok c : wf_command c → first_removed_line c = Ok (first_removed c).
Proof. destruct c; simpl; intros; run_arith lia; done. Qed.

(** Parsing fails with [BadDiff] only. *)
Definition bad_or {A} (P : A → Prop) (r : res Error A) : Prop :=
  match r with Ok a => P a | Err (BadDiff _) => True | _ => False end.

Lemma bad_or_bind {A B} (P : A → Prop) (Q : B → Prop) (r : res Error A) f :
  bad_or P r → (∀ a, P a → bad_or Q (f a)) → bad_or Q (r ≫= f).
Proof. destruct r as [a|[]|]; simpl; try done. auto. Qed.

Lemma bad_or_mono {A} (P Q : A → Prop) (r : res Error A) :
  bad_or P r → (∀ a, P a → Q a) → bad_or Q r.
Proof. destruct r as [a|[]|]; simpl; auto. Qed.

Lemma parse_usize_spec s : bad_or (λ v, 0 ≤ v ≤ usize_max) (parse_usize s).
Proof.
  unfold parse_usize. destruct (parse_uint usize_max s) eqn:H; simpl; [|done].
  by apply parse_uint_range in H.
Qed.

Lemma range_end_spec s :
  bad_or (λ r, match r with Num v => 0 < v < usize_max | DollarSign => True end)
    (range_end_from_str s).
Proof.
  unfold range_end_from_str, parse_nonzero. case_bool_decide; [done|].
  eapply (bad_or_bind (λ v, 0 < v ≤ usize_max)).
  - eapply bad_or_bind; [apply parse_usize_spec|]. intros v Hv. simpl in *.
    destruct (Z.eqb_spec v 0); simpl; [done|lia].
  - intros v Hv. simpl in *. destruct (Z.eqb_spec v usize_max); simpl; [done|lia].
Qed.

Lemma parse_line_range_spec s :
  bad_or (λ r, 0 ≤ r.1 ≤ usize_max ∧ ∀ v, r.2 = Some (Num v) → 0 < v < usize_max) (parse_line_range s).
Proof.
  unfold parse_line_range. destruct (split_once 44 s) as [[a b]|].
  - eapply bad_or_bind; [apply parse_usize_spec|]. intros low Hlow.
    eapply bad_or_bind; [apply range_end_spec|]. intros [v|] Hv; simpl; naive_solver.
  - eapply bad_or_bind; [apply parse_usize_spec|]. intros low Hlow. naive_solver.
Qed.

Lemma command_of_spec s low high :
  0 ≤ low < usize_max → misordered_range low high = false →
  (∀ v, high = Some (Num v) → 0 < v < usize_max) →
  bad_or (λ c, wf_command c ∧ block c = []) (command_of s low high).
Proof.
  intros Hlow Hmis Hhigh. unfold command_of.
  destruct high as [[v|]|]; simpl in Hmis; zify_bool; repeat case_bool_decide; simpl; try done;
    try specialize (Hhigh v eq_refl); split; simpl; done || lia.
Qed.

Lemma read_block_spec iter :
  bad_or (λ r, (length r.1 + length r.2 < length iter)%nat) (read_block iter).
Proof.
  induction iter as [|line iter IH]; simpl; [done|].
  case_bool_decide; simpl; [lia|].
  eapply bad_or_bind; [apply IH|]. intros [ls rest]. simpl. lia.
Qed.

Lemma linebuf_wf c linebuf ls :
  linebuf_mut c = Some linebuf → wf_command c → wf_command (linebuf ls) ∧ block (linebuf ls) = ls.
Proof. destruct c; simpl; intros [= <-]; done. Qed.

(** A command takes a line, and the lines of its block. *)
Lemma from_line_iterator_spec iter :
  bad_or (λ r, match r.1 with
               | Some c => wf_command c ∧ (length (block c) + length r.2 < length iter)%nat
               | None => True
               end) (from_line_iterator iter).
Proof.
  destruct iter as [|command iter]; simpl; [done|]. case_match; [done|].
  eapply bad_or_bind; [apply parse_line_range_spec|]. intros [low high] [Hlow Hhigh]. simpl in Hlow, Hhigh.
  destruct (Z.eqb_spec low usize_max) as [|Hne]; [done|].
  destruct (misordered_range low high) eqn:Hmis; [done|].
  eapply bad_or_bind; [eapply command_of_spec; [lia|done|done]|]. intros c [Hc Hb].
  destruct (linebuf_mut c) as [linebuf|] eqn:Hl; simpl.
  - eapply bad_or_bind; [apply read_block_spec|]. intros [ls rest] Hlen. simpl in *.
    destruct (linebuf_wf c linebuf ls Hl Hc) as [? ->]. split; [done|lia].
  - split; [done|]. rewrite Hb. simpl. lia.
Qed.

(** Each command comes before the part of the text that the one before it changed. *)
Definition ordered (prev : option Z) (c : DiffCommand) : Prop :=
  match prev with Some a => ∃ b, follows c = Some b ∧ b ≤ a | None => True end.

Lemma iter_next_spec it :
  bad_or (λ n, match n with
               | Some (c, it') =>
                   wf_command c ∧ ordered (last_cmd_first_removed it) c ∧
                   last_cmd_first_removed it' = Some (first_removed c) ∧
                   (length (block c) + length (dci_iter it') < length (dci_iter it))%nat
               | None => True
               end) (iter_next it).
Proof.
  unfold iter_next. eapply bad_or_bind; [apply from_line_iterator_spec|].
  intros [[c|] iter]; simpl; [|done]. intros [Hc Hlen].
  rewrite following_lines_ok, ok_bind by done. rewrite first_removed_line_ok, ok_bind by done.
  destruct (last_cmd_first_removed it) as [a|]; simpl; [|done].
  destruct (follows c) as [b|] eqn:Hb; simpl; [|done].
  destruct (Z.ltb_spec a b); simpl; [done|]. eauto 10.
Qed.

(** ** Both applications agree *)

(** Equal results; the same parse error; or a diff that does not apply. *)
Definition agree {A B} (R : A → B → Prop) (r : res Error A) (r' : res Error B) : Prop :=
  match r, r' with
  | Ok a, Ok b => R a b
  | Err (BadDiff what), Err (BadDiff what') => what = what'
  | Err (CantApply _), Err (CantApply _) => True
  | _, _ => False
  end.

Lemma agree_bind {A B A' B'} (R : A → B → Prop) (Q : A' → B' → Prop) r r' f f' :
  agree R r r' → (∀ a b, R a b → agree Q (f a) (f' b)) → agree Q (r ≫= f) (r' ≫= f').
Proof. destruct r as [|[]|], r' as [|[]|]; simpl; try done. auto. Qed.

Lemma agree_finish {A B C} (R : A → B → Prop) (Q : A → C → Prop) r r' f :
  agree R r r' → (∀ a b, R a b → agree Q (Ok a) (f b)) → agree Q r (r' ≫= f).
Proof.
  destruct r as [a|[]|], r' as [b|[]|]; simpl; try done. intros HR Hf. by apply Hf.
Qed.

(** The edited text is the unread input followed by the output, which is built backwards. *)
Definition coupled (target : DiffResult) (s : DiffResult * DiffResult) : Prop :=
  dr_lines target = dr_lines s.1 ++ rev (dr_lines s.2) ∧ d_post target = d_post s.2.

(** The input ends just before what the last command changed. *)
Definition ready (prev : option Z) (s : DiffResult * DiffResult) : Prop :=
  match prev with
  | Some a => len (dr_lines s.1) = a - 1
  | None => dr_lines s.2 = []
  end.

Lemma len_rev {A} (l : list A) : len (rev l) = len l.
Proof. unfold len. by rewrite length_rev. Qed.

(** The input reaches to where a command that comes next ends. *)
Lemma reaches prev c s b :
  ready prev s → ordered prev c → follows c = Some b →
  dr_lines s.2 = [] ∨ b ≤ len (dr_lines s.1) + 1.
Proof.
  destruct prev as [a|]; simpl; [|by left]. intros Hl (b' & Hb' & Hle) Hb. right.
  simplify_eq. lia.
Qed.

(** A range of the input, removed on both sides and replaced by a block. *)
Lemma edit_agree target I O low high ls :
  coupled target (I, O) → 1 ≤ low → low - 1 ≤ high → high ≤ len (dr_lines I) →
  let t := set_lines target
             (takeZ (low - 1) (dr_lines target) ++ ls ++ dropZ high (dr_lines target)) in
  let s := (set_lines I (takeZ (low - 1) (dr_lines I)),
            set_lines O ((dr_lines O ++ rev (dropZ high (dr_lines I))) ++ rev ls)) in
  coupled t s ∧ ready (Some low) s ∧ len (dr_lines t) ≤ len (dr_lines target) + len ls.
Proof.
  intros [Ht Hd] Hlow Hlh Hhigh. simpl in *. rewrite Ht, takeZ_app_l, dropZ_app_l by lia.
  split_and!; [split; [simpl|done]| |].
  - by rewrite !rev_app_distr, !rev_involutive.
  - apply len_takeZ. lia.
  - rewrite !len_app, len_takeZ, len_dropZ by lia. lia.
Qed.

(** The reference application on each side of its range checks. *)
Lemma apply_to_spec c target :
  wf_command c → len (dr_lines target) + len (block c) < usize_max →
  match c with
  | Delete low high | Replace low high _ =>
      if decide (1 ≤ low ∧ high ≤ len (dr_lines target)) then
        apply_to c target = Ok (set_lines target
          (takeZ (low - 1) (dr_lines target) ++ block c ++ dropZ high (dr_lines target)))
      else ∃ what, apply_to c target = Err (CantApply what)
  | DeleteToEnd low =>
      if decide (1 ≤ low ≤ len (dr_lines target)) then
        apply_to c target = Ok (set_lines target (takeZ (low - 1) (dr_lines target)))
      else ∃ what, apply_to c target = Err (CantApply what)
  | Insert pos _ =>
      if decide (pos ≤ len (dr_lines target)) then
        apply_to c target = Ok (set_lines target
          (takeZ pos (dr_lines target) ++ block c ++ dropZ pos (dr_lines target)))
      else ∃ what, apply_to c target = Err (CantApply what)
  end.
Proof.
  intros Hwf Hlen. pose proof (len_nonneg (block c)).
  destruct c as [low high|low|low high ls|pos ls]; unfold block in *; simpl in Hwf, Hlen, H |- *;
    destruct decide as [Hr|Hr].
  - rewrite remove_lines_ok by lia. done.
  - apply remove_lines_err. lia.
  - rewrite remove_lines_ok by lia. by rewrite dropZ_all, app_nil_r by lia.
  - apply remove_lines_err. lia.
  - rewrite remove_lines_ok, ok_bind by lia.
    assert (Ht : len (takeZ (low - 1) (dr_lines target)) = low - 1) by (apply len_takeZ; lia).
    assert (Hd : len (dropZ high (dr_lines target)) = len (dr_lines target) - high)
      by (apply len_dropZ; lia).
    pose proof (len_nonneg (dropZ high (dr_lines target))).
    rewrite insert_at_ok by (simpl; rewrite len_app; lia). simpl.
    by rewrite takeZ_app, dropZ_app by lia.
  - destruct (remove_lines_err target low high) as [what ->]; [lia|]. by exists what.
  - rewrite uadd_ok, ok_bind by lia. rewrite insert_at_ok by lia.
    by replace (pos + 1 - 1) with pos by lia.
  - rewrite uadd_ok, ok_bind by lia. apply insert_at_err; lia.
Qed.

(** The lines after a command are copied when the input has the last line it names. *)
Lemma copy_following I O n :
  0 ≤ n →
  (i ← usub (n + 1) 1;
   match get_from (dr_lines I) i with
   | Some subslice => Ok (push_reversed O subslice)
   | None => Err (CantApply "ending line number didn't correspond to document")
   end) =
  if decide (n ≤ len (dr_lines I)) then Ok (push_reversed O (dropZ n (dr_lines I)))
  else Err (CantApply "ending line number didn't correspond to document").
Proof.
  intros Hn. rewrite usub_ok, ok_bind by lia. unfold get_from.
  replace (n + 1 - 1) with n by lia.
  destruct decide; [by rewrite (proj2 (Z.leb_le _ _))|].
  by rewrite (proj2 (Z.leb_gt _ _)) by lia.
Qed.

Lemma first_line_ok {A} low n (k : Z → res Error A) e :
  1 ≤ low → low ≤ n →
  (if (low =? 0) || (n <? low) then Err e else i ← usub low 1; k i) = k (low - 1).
Proof.
  intros. rewrite (proj2 (Z.eqb_neq _ _)), (proj2 (Z.ltb_ge _ _)) by lia. simpl.
  by rewrite usub_ok, ok_bind by lia.
Qed.

Lemma first_line_err {A} low n (m : res Error A) e :
  0 ≤ low → ¬ 1 ≤ low ≤ n →
  (if (low =? 0) || (n <? low) then Err e else m) = Err e.
Proof.
  intros. replace ((low =? 0) || _) with true; [done|]. symmetry.
  rewrite orb_true_iff, Z.eqb_eq, Z.ltb_lt. lia.
Qed.

Lemma apply_transformation_spec c I O :
  wf_command c →
  match c with
  | Delete low high | Replace low high _ =>
      if decide (1 ≤ low ∧ high ≤ len (dr_lines I)) then
        apply_transformation c (I, O) =
          Ok (set_lines I (takeZ (low - 1) (dr_lines I)),
              set_lines O ((dr_lines O ++ rev (dropZ high (dr_lines I))) ++ rev (block c)))
      else ∃ what, apply_transformation c (I, O) = Err (CantApply what)
  | DeleteToEnd low =>
      if decide (1 ≤ low ≤ len (dr_lines I)) then
        apply_transformation c (I, O) = Ok (set_lines I (takeZ (low - 1) (dr_lines I)), O)
      else ∃ what, apply_transformation c (I, O) = Err (CantApply what)
  | Insert pos _ =>
      if decide (pos ≤ len (dr_lines I)) then
        apply_transformation c (I, O) =
          Ok (set_lines I (takeZ pos (dr_lines I)),
              set_lines O ((dr_lines O ++ rev (dropZ pos (dr_lines I))) ++ rev (block c)))
      else ∃ what, apply_transformation c (I, O) = Err (CantApply what)
  end.
Proof.
  intros Hwf. unfold apply_transformation.
  rewrite following_lines_ok, ok_bind, first_removed_line_ok by done.
  destruct c as [low high|low|low high ls|pos ls]; unfold block; simpl in Hwf |- *;
    rewrite ?copy_following by lia; repeat destruct decide; simpl; try lia; try (by eexists);
    try (eexists; apply first_line_err; lia).
  - rewrite first_line_ok by lia. by rewrite app_nil_r.
  - by rewrite first_line_ok by lia.
  - by rewrite first_line_ok by lia.
  - rewrite (proj2 (Z.eqb_neq _ _)) by lia. simpl. rewrite usub_ok, ok_bind by lia.
    by replace (pos + 1 - 1) with pos by lia.
Qed.

(** One command on both sides. *)
Lemma step_agree prev c target s :
  wf_command c → ordered prev c → ready prev s → coupled target s →
  len (dr_lines target) + len (block c) < usize_max →
  agree (λ t s', coupled t s' ∧ ready (Some (first_removed c)) s' ∧
                 len (dr_lines t) ≤ len (dr_lines target) + len (block c))
    (apply_to c target) (apply_transformation c s).
Proof.
  intros Hwf Ho Hr Hc Hlen. destruct s as [I O].
  assert (HT : len (dr_lines target) = len (dr_lines I) + len (dr_lines O)).
  { destruct Hc as [-> _]. simpl. by rewrite len_app, len_rev. }
  pose proof (apply_to_spec c target Hwf Hlen) as H1.
  pose proof (apply_transformation_spec c I O Hwf) as H2.
  assert (Hreach : ∀ b, follows c = Some b → len (dr_lines O) = 0 ∨ b ≤ len (dr_lines I) + 1).
  { intros b Hb. destruct (reaches prev c (I, O) b Hr Ho Hb) as [HO|]; [|by right].
    left. simpl in HO. by rewrite HO. }
  pose proof (len_nonneg (dr_lines O)).
  generalize dependent (apply_to c target). generalize dependent (apply_transformation c (I, O)).
  intros r2 H2 r1 H1.
  destruct c as [low high|low|low high ls|pos ls]; simpl in Hwf, Hreach, H1, H2.
  - specialize (Hreach _ eq_refl). repeat destruct decide; try lia; destruct_and?;
      destruct_exists; subst; [|done].
    refine (edit_agree target I O low high [] Hc _ _ _); lia.
  - assert (HO : dr_lines O = []) by (destruct prev; [by destruct Ho as (?&?&?)|done]).
    rewrite HO in HT. change (len (@nil (list Z))) with 0 in HT.
    repeat destruct decide; try lia; destruct_exists; subst; [|done].
    pose proof (edit_agree target I O low (len (dr_lines I)) [] Hc) as He. simpl in He.
    rewrite !dropZ_all, !app_nil_r in He by lia.
    destruct O. simpl in *. subst. refine (He _ _ _); lia.
  - specialize (Hreach _ eq_refl). repeat destruct decide; try lia; destruct_and?;
      destruct_exists; subst; [|done].
    refine (edit_agree target I O low high ls Hc _ _ _); lia.
  - specialize (Hreach _ eq_refl). repeat destruct decide; try lia; destruct_and?;
      destruct_exists; subst; [|done].
    pose proof (edit_agree target I O (pos + 1) pos ls Hc) as He.
    replace (pos + 1 - 1) with pos in He by lia. refine (He _ _ _); lia.
Qed.

(** The loops run to the end of the diff: the fuel is more than the lines left. *)
Lemma for_commands_agree fuel it target s :
  (length (dci_iter it) < fuel)%nat →
  coupled target s → ready (last_cmd_first_removed it) s →
  len (dr_lines target) + len (dci_iter it) < usize_max →
  agree coupled (for_commands fuel apply_to it target)
    (for_commands fuel apply_transformation it s).
Proof.
  revert it target s. induction fuel as [|fuel IH]; intros it target s Hf Hc Hr Hlen; [lia|].
  cbn [for_commands]. pose proof (iter_next_spec it) as Hn.
  destruct (iter_next it) as [[[c it']|]|[what|]|]; simpl in Hn; try done.
  destruct Hn as (Hwf & Ho & Hlast & Hit). rewrite !ok_bind.
  assert (Hb : len (block c) + len (dci_iter it') < len (dci_iter it)) by (unfold len; lia).
  pose proof (len_nonneg (dci_iter it')).
  eapply agree_bind; [by apply (step_agree (last_cmd_first_removed it) c); try lia|].
  intros t s' (Hc' & Hr' & Hlen'). apply IH; [lia|done|by rewrite Hlast|lia].
Qed.

Lemma split_on_lengths c l :
  (length (concat (split_on c l)) + length (split_on c l) = S (length l))%nat.
Proof.
  induction l as [|x l IH]; simpl; [done|]. destruct (x =? c); simpl; [lia|].
  destruct (split_on_nonempty c l) as (p & ps & Heq). rewrite Heq in *. simpl in *.
  rewrite ?length_app in *. simpl. lia.
Qed.

Lemma end_lines_length ps : (length (end_lines ps) ≤ length (concat ps) + (length ps - 1))%nat.
Proof.
  induction ps as [|p ps IH]; simpl; [lia|]. destruct ps as [|q ps].
  - destruct p; simpl; rewrite ?length_app; simpl; lia.
  - cbn [length] in *. rewrite length_app. lia.
Qed.

Lemma lines_of_length s : len (lines_of s) ≤ len s.
Proof.
  unfold lines_of, len. pose proof (split_on_lengths 10 s).
  pose proof (end_lines_length (split_on 10 s)).
  destruct (split_on_nonempty 10 s) as (p & ps & Heq). rewrite Heq in *. cbn [length] in *. lia.
Qed.

Lemma parse_diff_header_spec hex_decode iter :
  bad_or (λ r, (length r.2 + 2 = length iter)%nat) (parse_diff_header hex_decode iter).
Proof.
  destruct iter as [|line1 [|line2 iter]]; simpl; [done|by case_match|].
  case_match; [done|]. case_match; [done|].
  destruct (split_ascii_whitespace line2) as [|? [|e1 [|e2 []]]]; try done.
  unfold hex. destruct (hex_decode e1), (hex_decode e2); simpl; try done.
  case_match; simpl; [lia|done].
Qed.

Lemma parse_diff_header_lengths hex_decode iter d1 d2 rest :
  parse_diff_header hex_decode iter = Ok ((d1, d2), rest) → len d1 = 32 ∧ len d2 = 32.
Proof.
  destruct iter as [|line1 [|line2 iter]]; simpl; [done|by case_match|].
  case_match; [done|]. case_match; [done|].
  destruct (split_ascii_whitespace line2) as [|? [|e1 [|e2 []]]]; try done.
  intros Hp. ok_inv. destruct ((len _ =? 32) && _) eqn:Hl; [|done]. ok_inv. zify_bool. naive_solver.
Qed.

(** C11: the backwards application of a diff, which moves lines from the end of the input to a
    reversed output, gives what the in-place edits give: the same text and digest, the same
    parse error, or a failure to apply on both sides.  Neither overflows, indexes out of range
    or runs on for texts of a size that a process can hold. *)
Theorem apply_diff_equiv hex_decode input diff :
  len input ≤ isize_max → len diff ≤ isize_max →
  agree eq (apply_diff_trivial hex_decode input diff) (apply_diff hex_decode input diff None).
Proof.
  intros Hi Hd. unfold apply_diff_trivial, apply_diff.
  pose proof (parse_diff_header_spec hex_decode (lines_of diff)) as Hh.
  pose proof (lines_of_length input). pose proof (lines_of_length diff).
  destruct (parse_diff_header hex_decode (lines_of diff)) as [[[d1 d2] iter]|[]|]; simpl in Hh; try done.
  rewrite !ok_bind. cbn beta iota.
  assert (Ha := for_commands_agree (S (length iter)) (iter_new iter) (dr_from_str input d2)
    (dr_from_str input (replicate 32 0), dr_new d2)).
  eapply agree_finish; [apply Ha|].
  - simpl. lia.
  - split; simpl; [by rewrite app_nil_r|done].
  - done.
  - simpl. unfold isize_max, usize_max, u64_max, len in *. lia.
  - intros [dt lt] [[di li] [dx lo]] [Hl Hp]. simpl in *. subst.
    by rewrite rev_app_distr, rev_involutive.
Qed.

(** ** What a checked result is *)

Lemma for_commands_keeps {S} (P : S → Prop) fuel apply it (s s' : S) :
  (∀ c s s', apply c s = Ok s' → P s → P s') →
  for_commands fuel apply it s = Ok s' → P s → P s'.
Proof.
  intros Ha. revert it s. induction fuel as [|fuel IH]; intros it s; cbn [for_commands]; [done|].
  intros H Hs. ok_inv. destruct x as [[c it']|]; ok_inv; eauto.
Qed.

Lemma apply_transformation_d_post c s s' :
  apply_transformation c s = Ok s' → d_post s'.2 = d_post s.2.
Proof.
  destruct s as [I O]. unfold apply_transformation. intros H. ok_inv.
  case_match; [done|]. ok_inv. simpl.
  destruct x as [succ|]; ok_inv; repeat case_match; ok_inv; by subst.
Qed.

Lemma digest_input ls acc :
  fold_left (λ acc line, (acc ++ line) ++ [10]) ls acc = acc ++ concat (map (λ l, l ++ [10]) ls).
Proof.
  revert acc. induction ls as [|l ls IH]; intros acc; simpl; [by rewrite app_nil_r|].
  by rewrite IH, <-!(assoc_L app).
Qed.

(** C32: a text that [apply_diff] makes from a diff for the document with digest [d], and that
    passes [check_digest], prints as bytes whose hash is the second digest of the diff's
    header; the first is [d], and both have 32 bytes. *)
Theorem apply_diff_checked hex_decode sha3_256 input diff d r :
  apply_diff hex_decode input diff (Some d) = Ok r → check_digest sha3_256 r = Ok tt →
  ∃ rest, parse_diff_header hex_decode (lines_of diff) = Ok ((d, sha3_256 (to_string r)), rest) ∧
          len d = 32 ∧ len (sha3_256 (to_string r)) = 32.
Proof.
  unfold apply_diff, check_digest. rewrite digest_input. cbn [app]. fold (to_string r).
  intros H Hc. apply bind_ok in H as ([[d1 d2] rest] & Hh & H).
  case_bool_decide as Hsha; [|done]. case_bool_decide; [|done]. subst d1.
  apply bind_ok in H as ([I O] & Hf & H). ok_inv.
  pose proof (for_commands_keeps (λ s, d_post s.2 = d2) _ _ _ _ _
    (λ c s s' Ha Hs, eq_trans (apply_transformation_d_post c s s' Ha) Hs) Hf eq_refl) as Hd.
  simpl in Hd, Hsha. rewrite Hsha, Hd. exists rest. split; [done|].
  by apply parse_diff_header_lengths in Hh.
Qed.

Definition example_hex (s : list Z) : option (list Z) := Some (replicate 32 (len s)).
Definition nl : string := String (Ascii.ascii_of_nat 10) EmptyString.
Definition example_text : list Z :=
  str (String.concat nl ["1"; "2"; "3"; "4"; "5"; "6"; "7"; "8"; "9"; ""]%string).
Definition example_diff : list Z :=
  str (String.concat nl
    ["network-status-diff-version 1"; "hash aa bbbb"; "7,$d"; "5,6c"; "five"; "."; "2a"; "x"; "y"; ".";
     "1d"; ""]%string).

Lemma example_text_fits : len example_text ≤ isize_max.
Proof. done. Qed.
Lemma example_diff_fits : len example_diff ≤ isize_max.
Proof. done. Qed.

Lemma apply_diff_equiv_witness :
  agree eq (apply_diff_trivial example_hex example_text example_diff)
    (apply_diff example_hex example_text example_diff None) ∧
  apply_diff example_hex example_text example_diff None =
    Ok (mkDiffResult (replicate 32 4) (map str ["2"; "x"; "y"; "3"; "4"; "five"]%string)).
Proof.
  split; [apply (apply_diff_equiv _ _ _ example_text_fits example_diff_fits)|].
  vm_compute. reflexivity.
Defined.

Lemma apply_diff_checked_witness :
  ∃ rest, parse_diff_header example_hex (lines_of example_diff) =
            Ok ((replicate 32 2, replicate 32 4), rest) ∧
          len (replicate 32 2) = 32 ∧ len (replicate 32 4) = 32.
Proof.
  pose proof (apply_diff_checked example_hex (λ _, replicate 32 4) example_text example_diff
    (replicate 32 2)
    (mkDiffResult (replicate 32 4) (map str ["2"; "x"; "y"; "3"; "4"; "five"]%string))
    ltac:(vm_compute; reflexivity) ltac:(vm_compute; reflexivity)) as H.
  exact H.
Defined.
