(* ===== verification/HsTime.v ===== *)
(** * HsTime: when onion services and clients meet

    Time periods ([tor-hscrypto/src/time.rs]), the lifetime of a consensus
    ([tor-netdoc/src/doc/netstatus.rs]), and the parameters of the onion service directory ring
    ([tor-netdir/src/hsdir_params.rs]): which period a consensus is in and which shared random
    value goes with it.  A time is the number of nanoseconds since the epoch, a [Duration] a
    number of nanoseconds.  The hash, and the start of a day as the crate [time] computes it,
    are parameters. *)

From S2P Require Import Prelude Text Bytes TorCert.

(** ** Durations and times *)

Definition ns : Z := 1000000000.
Definition duration_max : Z := u64_max * ns + (ns - 1).

Definition as_secs (d : Z) : Z := d / ns.
Definition subsec_nanos (d : Z) : Z := d mod ns.
Definition from_secs (s : Z) : Z := s * ns.

(** [SystemTime::checked_add], and the operators, which panic. *)
Definition time_checked_add (t d : Z) : option Z :=
  if t + d <=? time_max then Some (t + d) else None.
Definition time_add {E} (t d : Z) : res E Z := expect (time_checked_add t d).
Definition time_sub {E} (t d : Z) : res E Z := if time_min <=? t - d then Ok (t - d) else Panic.
Definition duration_mul {E} (d n : Z) : res E Z := umul duration_max d n.

(** [Range::contains]. *)
Definition range_contains (r : Z * Z) (t : Z) : bool := (r.1 <=? t) && (t <? r.2).

(** ** Time periods *)

Inductive TimePeriodError : Type := OutOfRange | IntervalInvalid | OffsetInvalid.

(** The length is in minutes. *)
Record TimePeriod : Type := mkTimePeriod {
  interval_num : Z;
  tp_length : Z;
  epoch_offset_in_sec : Z;
}.

#[export] Instance TimePeriod_eq_dec : EqDecision TimePeriod.
Proof. solve_decision. Defined.

Definition to_u32 {E} (x : Z) (e : E) : res E Z := if x <=? u32_max then Ok x else Err e.

Definition tp_new (length when epoch_offset : Z) : res TimePeriodError TimePeriod :=
  length_in_sec ← to_u32 (as_secs length) IntervalInvalid;
  if negb (length_in_sec mod 60 =? 0) || negb (subsec_nanos length =? 0) then Err IntervalInvalid
  else
    let length_in_minutes := length_in_sec / 60 in
    epoch_offset_in_sec ← to_u32 (as_secs epoch_offset) OffsetInvalid;
    epoch ← time_add 0 epoch_offset;
    since ← ok_or (duration_since when epoch) OutOfRange;
    interval_num ← udiv (as_secs since) length_in_sec;
    Ok (mkTimePeriod interval_num length_in_minutes epoch_offset_in_sec).

Definition tp_from_parts (length interval_num epoch_offset_in_sec : Z)
    : res TimePeriodError TimePeriod :=
  _ ← umul u32_max length 60;
  Ok (mkTimePeriod interval_num length epoch_offset_in_sec).

Definition tp_next (p : TimePeriod) : option TimePeriod :=
  n ← checked_add u64_max (interval_num p) 1;
  Some (mkTimePeriod n (tp_length p) (epoch_offset_in_sec p)).

Definition tp_prev (p : TimePeriod) : option TimePeriod :=
  n ← checked_sub (interval_num p) 1;
  Some (mkTimePeriod n (tp_length p) (epoch_offset_in_sec p)).

Definition tp_range (p : TimePeriod) : res TimePeriodError (Z * Z) :=
  length_in_sec ← umul u64_max (tp_length p) 60;
  start_sec ← ok_or (checked_mul u64_max length_in_sec (interval_num p)) OutOfRange;
  end_sec ← ok_or (checked_add u64_max start_sec length_in_sec) OutOfRange;
  let epoch_offset := from_secs (epoch_offset_in_sec p) in
  epoch ← time_add 0 epoch_offset;
  start ← ok_or (time_checked_add epoch (from_secs start_sec)) OutOfRange;
  stop ← ok_or (time_checked_add epoch (from_secs end_sec)) OutOfRange;
  Ok (start, stop).

Definition tp_contains (p : TimePeriod) (when : Z) : res TimePeriodError bool :=
  match tp_range p with
  | Ok r => Ok (range_contains r when)
  | Err _ => Ok false
  | Panic => Panic
  end.

Definition tp_partial_cmp (p q : TimePeriod) : option comparison :=
  if (tp_length p =? tp_length q) && (epoch_offset_in_sec p =? epoch_offset_in_sec q)
  then Some (interval_num p ?= interval_num q)
  else None.

(** ** Consensus lifetimes and shared random values *)

Record Lifetime : Type := mkLifetime { valid_after : Z; fresh_until : Z; valid_until : Z }.

(** [Lifetime::new]; [InvalidLifetime] is its error. *)
Definition lifetime_new (valid_after fresh_until valid_until : Z) : res unit Lifetime :=
  if (valid_after <? fresh_until) && (fresh_until <? valid_until)
  then Ok (mkLifetime valid_after fresh_until valid_until)
  else Err tt.

Definition valid_at (l : Lifetime) (when : Z) : bool :=
  (valid_after l <=? when) && (when <=? valid_until l).

Definition voting_period {E} (l : Lifetime) : res E Z :=
  expect (duration_since (fresh_until l) (valid_after l)).

Record SharedRandStatus : Type := mkSharedRand {
  n_reveals : Z;
  sr_value : list Z;
  sr_timestamp : option Z;
}.

(** What the ring parameters use of an [MdConsensus]. *)
Record Consensus : Type := mkConsensus {
  con_lifetime : Lifetime;
  shared_rand_cur : option SharedRandStatus;
  shared_rand_prev : option SharedRandStatus;
}.

(** ** Ring parameters *)

Inductive NetdirError : Type := InvalidConsensus (what : string).

Record HsDirParams : Type := mkHsDirParams {
  hp_time_period : TimePeriod;
  shared_rand : list Z;
  srv_lifespan : Z * Z;
}.

#[export] Instance HsDirParams_eq_dec : EqDecision HsDirParams.
Proof. solve_decision. Defined.

Definition VOTING_PERIODS_IN_OFFSET : Z := 12.
Definition VOTING_PERIODS_IN_SRV_ROUND : Z := 24.
Definition ONE_DAY : Z := from_secs 86400.

Definition start_of_shard_rand_period (p : HsDirParams) : Z := (srv_lifespan p).1.

(** The offset is cut to 32 bits. *)
Definition offset_within_srv_period (p : HsDirParams) (when : Z) : res unit (option Z) :=
  if (srv_lifespan p).1 <=? when then
    d ← expect (duration_since when (srv_lifespan p).1);
    Ok (Some (wrap u32_max (as_secs d)))
  else Ok None.

Record HsDirs (D : Type) : Type := mkHsDirs { current : D; secondary : list D }.
Arguments mkHsDirs {D}.
Arguments current {D}.
Arguments secondary {D}.

Definition hsdirs_map {D D2} (f : D → D2) (h : HsDirs D) : HsDirs D2 :=
  mkHsDirs (f (current h)) (map f (secondary h)).
Definition iter_filter_secondary {D} (h : HsDirs D) (sec : bool) : list D :=
  current h :: (if sec then secondary h else []).
Definition hsdirs_iter {D} (h : HsDirs D) : list D := iter_filter_secondary h true.

Inductive HsDirOp : Type := Upload | Download.
Definition iter_for_op {D} (h : HsDirs D) (op : HsDirOp) : list D :=
  iter_filter_secondary h (match op with Upload => true | Download => false end).

Definition SrvInfo : Type := list Z * (Z * Z).

Definition find_srv_for_time (info : list SrvInfo) (when : Z) : option SrvInfo :=
  head (filter (λ i, range_contains i.2 when = true) info).

Definition find_params_for_time (info : list SrvInfo) (period : TimePeriod)
    : res NetdirError (option HsDirParams) :=
  r ← map_err (λ _, InvalidConsensus
        "HsDir time period in consensus could not be represented as a SystemTime range.")
        (tp_range period);
  Ok (srv ← find_srv_for_time info r.1; Some (mkHsDirParams period srv.1 srv.2)).

Section params.
Variable sha3_256 : list Z → list Z.
Variable start_of_day_containing : Z → Z.

Definition disaster_srv (period : TimePeriod) : list Z :=
  sha3_256 (str "shared-random-disaster" ++ to_be_bytes 8 (tp_length period) ++
            to_be_bytes 8 (interval_num period)).

Definition disaster_params (period : TimePeriod) : res NetdirError HsDirParams :=
  match tp_range period with
  | Ok r => Ok (mkHsDirParams period (disaster_srv period) r)
  | _ => Panic
  end.

Definition srv_interval (c : Consensus) : res NetdirError Z :=
  match
    (cur ← shared_rand_cur c;
     prev ← shared_rand_prev c;
     cur_ts ← sr_timestamp cur;
     prev_ts ← sr_timestamp prev;
     duration_since cur_ts prev_ts)
  with
  | Some d => Ok d
  | None =>
      vp ← voting_period (con_lifetime c);
      duration_mul vp VOTING_PERIODS_IN_SRV_ROUND
  end.

Definition extract_srvs (c : Consensus) : res NetdirError (list SrvInfo) :=
  let consensus_ts := valid_after (con_lifetime c) in
  interval ← srv_interval c;
  v1 ← match shared_rand_cur c with
       | Some cur =>
           let ts_begin := default (start_of_day_containing consensus_ts) (sr_timestamp cur) in
           ts_end ← time_add ts_begin interval;
           Ok [(sr_value cur, (ts_begin, ts_end))]
       | None => Ok []
       end;
  v2 ← match shared_rand_prev c with
       | Some prev =>
           ts_begin ← match sr_timestamp prev with
                      | Some t => Ok t
                      | None => time_sub (start_of_day_containing consensus_ts) ONE_DAY
                      end;
           ts_end ← time_add ts_begin interval;
           Ok [(sr_value prev, (ts_begin, ts_end))]
       | None => Ok []
       end;
  Ok (v1 ++ v2).

(** [Duration::try_from] for an [IntegerMinutes]. *)
Definition minutes_to_duration (minutes : Z) : option Z :=
  if minutes <? 0 then None else s ← checked_mul u64_max minutes 60; Some (from_secs s).

(** [find_params_for_time(..).ok().flatten()], as a list. *)
Definition found_params (info : list SrvInfo) (period : option TimePeriod)
    : res NetdirError (list HsDirParams) :=
  match period with
  | None => Ok []
  | Some period =>
      match find_params_for_time info period with
      | Ok (Some p) => Ok [p]
      | Panic => Panic
      | _ => Ok []
      end
  end.

Definition compute (c : Consensus) (hsdir_timeperiod_length : Z)
    : res NetdirError (HsDirs HsDirParams) :=
  srvs ← extract_srvs c;
  tp_length ← ok_or (minutes_to_duration hsdir_timeperiod_length)
    (InvalidConsensus "Minutes in hsdir timeperiod could not be converted to a Duration");
  vp ← voting_period (con_lifetime c);
  offset ← duration_mul vp VOTING_PERIODS_IN_OFFSET;
  cur_period ← map_err
    (λ _, InvalidConsensus "Consensus valid-after did not fall in a time period")
    (tp_new tp_length (valid_after (con_lifetime c)) offset);
  found ← find_params_for_time srvs cur_period;
  cur ← match found with Some p => Ok p | None => disaster_params cur_period end;
  before ← found_params srvs (tp_prev cur_period);
  after ← found_params srvs (tp_next cur_period);
  Ok (mkHsDirs cur (before ++ after)).
End params.

(** ** Periods tile the time line *)

Definition wf_period (p : TimePeriod) : Prop :=
  0 ≤ interval_num p ∧ 0 ≤ tp_length p ≤ u32_max ∧ 0 ≤ epoch_offset_in_sec p ≤ u32_max.

(** The length of a period and the start of its epoch, in nanoseconds. *)
Definition period_ns (p : TimePeriod) : Z := from_secs (tp_length p * 60).
Definition epoch_ns (p : TimePeriod) : Z := from_secs (epoch_offset_in_sec p).
Definition period_start (p : TimePeriod) : Z := epoch_ns p + interval_num p * period_ns p.

Lemma time_add_ok {E} t d : t + d ≤ time_max → time_add (E:=E) t d = Ok (t + d).
Proof. intros. unfold time_add, time_checked_add. by rewrite (proj2 (Z.leb_le _ _)). Qed.

Lemma tp_range_spec p :
  wf_period p →
  tp_range p =
    if period_start p + period_ns p <=? time_max
    then Ok (period_start p, period_start p + period_ns p) else Err OutOfRange.
Proof.
  intros (Hn & Hl & Ho). unfold tp_range, period_start, period_ns, epoch_ns, from_secs, ns.
  set (L := tp_length p) in *. set (n := interval_num p) in *. set (O := epoch_offset_in_sec p) in *.
  unfold u32_max in *. rewrite umul_ok, ok_bind by (unfold u64_max; lia).
  unfold checked_mul, checked_add.
  destruct (L * 60 * n <=? u64_max) eqn:H1; zify_bool; cbn [ok_or].
  2: { replace (_ <=? time_max) with false; [done|]. symmetry. apply Z.leb_gt.
       unfold time_max, u64_max in *. nia. }
  rewrite ok_bind. destruct (L * 60 * n + L * 60 <=? u64_max) eqn:H2; zify_bool; cbn [ok_or].
  2: { replace (_ <=? time_max) with false; [done|]. symmetry. apply Z.leb_gt.
       unfold time_max, u64_max in *. nia. }
  rewrite ok_bind, time_add_ok, ok_bind by (unfold time_max; lia). unfold time_checked_add.
  replace (0 + O * 1000000000 + L * 60 * n * 1000000000)
    with (O * 1000000000 + n * (L * 60 * 1000000000)) by lia.
  replace (0 + O * 1000000000 + (L * 60 * n + L * 60) * 1000000000)
    with (O * 1000000000 + n * (L * 60 * 1000000000) + L * 60 * 1000000000) by lia.
  destruct (_ + L * 60 * 1000000000 <=? time_max) eqn:H3; zify_bool.
  - by rewrite (proj2 (Z.leb_le _ _)) by lia.
  - by destruct (_ <=? time_max).
Qed.

Lemma tp_contains_spec p t :
  wf_period p →
  tp_contains p t = Ok ((period_start p + period_ns p <=? time_max) &&
                        range_contains (period_start p, period_start p + period_ns p) t).
Proof. intros Hp. unfold tp_contains. rewrite tp_range_spec by done. by destruct (_ <=? time_max). Qed.

(** What [TimePeriod::new] accepts, and the period it makes. *)
Lemma tp_new_inv length when offset p :
  0 ≤ length → 0 ≤ offset → tp_new length when offset = Ok p →
  wf_period p ∧ period_ns p = length ∧ 0 < length ∧ epoch_offset_in_sec p = as_secs offset ∧
  offset ≤ when ∧ interval_num p = (when - offset) / length.
Proof.
  intros Hl Ho. unfold tp_new, to_u32, subsec_nanos, as_secs.
  destruct (length / ns <=? u32_max) eqn:H1; [|done]. cbn [mbind res_mbind res_bind].
  destruct (negb _ || _) eqn:H2; [done|].
  destruct (offset / ns <=? u32_max) eqn:H3; [|done]. cbn [mbind res_mbind res_bind].
  zify_bool.
  pose proof (Z.div_mod length ns) as Hdl. pose proof (Z.div_mod offset ns) as Hdo.
  pose proof (Z.mod_pos_bound offset ns) as Hmo. pose proof (Z.div_mod (length / ns) 60) as Hd6.
  rewrite time_add_ok by (unfold time_max, u32_max, ns in *; lia). intros Hr.
  apply bind_ok in Hr as (epoch & He & Hr). injection He as <-.
  apply bind_ok in Hr as (since & Hs & Hr). apply ok_or_ok in Hs. unfold duration_since in Hs.
  destruct (_ <=? when) eqn:H4; [|done]. injection Hs as <-. zify_bool.
  ok_inv. unfold wf_period, period_ns, from_secs. simpl.
  specialize (Hdl ltac:(done)). specialize (Hdo ltac:(done)). specialize (Hmo ltac:(done)).
  specialize (Hd6 ltac:(done)).
  assert (Hx : x = (when - offset) / length).
  { subst x. rewrite Z.div_div by (unfold ns in *; lia). f_equal; lia. }
  assert (0 ≤ length / ns) by (apply Z.div_pos; [lia|done]).
  assert (0 < length) by (unfold ns in *; lia).
  pose proof (Z.div_pos offset ns ltac:(lia) ltac:(done)).
  pose proof (Z.div_pos (when - offset) length ltac:(lia) ltac:(lia)).
  split_and!; lia || nia.
Qed.

(** C33: [TimePeriod::new] puts a time in the period it belongs to, when the offset of the epoch is
    a whole number of seconds (the period keeps only those) and the times fit.  The period contains
    the time, it has the length asked for, no other period of that length and epoch contains the
    time, and the next period starts where this one ends. *)
Theorem tp_new_partition length when offset p :
  0 ≤ length → 0 ≤ offset → subsec_nanos offset = 0 → when + 2 * length ≤ time_max →
  tp_new length when offset = Ok p →
  (∃ a, tp_range p = Ok (a, a + length) ∧ a ≤ when < a + length ∧
     ∀ q, tp_next p = Some q → tp_range q = Ok (a + length, a + 2 * length)) ∧
  ∀ q, wf_period q → tp_length q = tp_length p →
       epoch_offset_in_sec q = epoch_offset_in_sec p → tp_contains q when = Ok true → q = p.
Proof.
  intros Hl Ho Hsub Hmax Hnew.
  destruct (tp_new_inv _ _ _ _ Hl Ho Hnew) as (Hwf & Hlen & Hpos & Hoff & Hle & Hnum).
  assert (Hep : epoch_ns p = offset).
  { unfold epoch_ns, from_secs, subsec_nanos, as_secs in *. rewrite Hoff.
    pose proof (Z.div_mod offset ns ltac:(done)). lia. }
  assert (Hst : period_start p = offset + (when - offset) / length * length).
  { unfold period_start. by rewrite Hep, Hlen, Hnum. }
  pose proof (Z.div_mod (when - offset) length ltac:(lia)).
  pose proof (Z.mod_pos_bound (when - offset) length Hpos). split.
  - exists (period_start p). rewrite tp_range_spec, Hlen by done.
    rewrite (proj2 (Z.leb_le _ _)) by lia. split_and!; [done|lia|lia|].
    unfold tp_next, checked_add. destruct (_ <=? u64_max) eqn:Hn; [|done]. intros q [= <-].
    rewrite tp_range_spec by (destruct Hwf; split; simpl; [lia|done]).
    unfold period_start in *. unfold epoch_ns, period_ns in *. simpl.
    rewrite Hlen in *. rewrite (proj2 (Z.leb_le _ _)) by lia. do 2 f_equal; lia.
  - intros [n l o] Hq Hl' Ho' Hc. rewrite tp_contains_spec in Hc by done. injection Hc as Hc.
    unfold range_contains in Hc. zify_bool. destruct p as [n' l' o']. simpl in *. subst l o.
    f_equal. unfold period_start, period_ns, epoch_ns in *. simpl in *. rewrite Hlen, Hep in *. nia.
Qed.

Lemma tp_new_partition_witness :
  (∃ a, tp_range (mkTimePeriod 16903 1440 43200) = Ok (a, a + from_secs 86400) ∧
     a ≤ from_secs 1460545200 < a + from_secs 86400 ∧
     ∀ q, tp_next (mkTimePeriod 16903 1440 43200) = Some q →
          tp_range q = Ok (a + from_secs 86400, a + 2 * from_secs 86400)) ∧
  ∀ q, wf_period q → tp_length q = 1440 → epoch_offset_in_sec q = 43200 →
       tp_contains q (from_secs 1460545200) = Ok true → q = mkTimePeriod 16903 1440 43200.
Proof.
  apply (tp_new_partition (from_secs 86400) (from_secs 1460545200) (from_secs 43200)
    (mkTimePeriod 16903 1440 43200)); vm_compute; done.
Defined.

(** A length of zero passes the checks of [TimePeriod::new] and divides by zero. *)
Lemma tp_new_zero_panics when offset :
  as_secs offset ≤ u32_max → 0 ≤ offset ≤ when → tp_new 0 when offset = Panic.
Proof.
  intros Ho Hw. unfold tp_new, to_u32.
  change (as_secs 0) with 0. cbn [Z.leb u32_max Z.compare mbind res_mbind res_bind].
  change (negb (0 mod 60 =? 0) || negb (subsec_nanos 0 =? 0)) with false. cbn iota.
  rewrite (proj2 (Z.leb_le _ _)), ok_bind by done.
  pose proof (Z.div_mod offset ns ltac:(done)). pose proof (Z.mod_pos_bound offset ns ltac:(done)).
  rewrite time_add_ok, ok_bind by (unfold as_secs, u32_max, time_max, ns in *; lia).
  unfold duration_since. by rewrite (proj2 (Z.leb_le _ _)) by lia.
Qed.

(** With an offset that is not a whole number of seconds, the period that is made need not
    contain the time it was made for. *)
Lemma tp_new_subsecond_offset :
  ∃ p, tp_new (from_secs 60) (from_secs 60 + 200000000) 500000000 = Ok p ∧
       tp_contains p (from_secs 60 + 200000000) = Ok false.
Proof. exists (mkTimePeriod 0 1 0). split; vm_compute; done. Qed.

(** ** Client and service agree

    The authorities make a shared random value for each round of 24 voting periods; a consensus
    lists the one of its round and the one before.  Without timestamps, a round is a day. *)

Definition round (vp : Z) : Z := VOTING_PERIODS_IN_SRV_ROUND * vp.

Definition stamped (vp k : Z) (s : SharedRandStatus) : Prop :=
  sr_timestamp s = Some (k * round vp) ∨ (sr_timestamp s = None ∧ round vp = ONE_DAY).

Definition round_of (vp : Z) (c : Consensus) : Z := valid_after (con_lifetime c) / round vp.

Definition on_schedule (vp : Z) (srv : Z → list Z) (c : Consensus) : Prop :=
  fresh_until (con_lifetime c) = valid_after (con_lifetime c) + vp ∧
  ∃ cur prev,
    shared_rand_cur c = Some cur ∧ shared_rand_prev c = Some prev ∧
    sr_value cur = srv (round_of vp c) ∧ stamped vp (round_of vp c) cur ∧
    sr_value prev = srv (round_of vp c - 1) ∧ stamped vp (round_of vp c - 1) prev.

(** The parameters of the [i]-th period: it starts in the middle of the [i]-th round. *)
Definition nth_period (minutes i : Z) : TimePeriod := mkTimePeriod i minutes (minutes * 30).
Definition nth_params (vp : Z) (srv : Z → list Z) (minutes i : Z) : HsDirParams :=
  mkHsDirParams (nth_period minutes i) (srv i) (i * round vp, (i + 1) * round vp).

Section agree.
Variable sha3_256 : list Z → list Z.
Variable start_of_day : Z → Z.
Hypothesis start_of_day_spec : ∀ t, 0 ≤ t → start_of_day t = t / ONE_DAY * ONE_DAY.

Variables vp minutes : Z.
Variable srv : Z → list Z.
Hypothesis Hminutes : 5 ≤ minutes ≤ 14400.
Hypothesis Hround : from_secs (minutes * 60) = round vp.

Lemma round_pos : round vp = 24 * vp ∧ 0 < vp ∧ 24 * vp ≤ 14400 * 60 * ns.
Proof. unfold from_secs, round, VOTING_PERIODS_IN_SRV_ROUND, ns in *. lia. Qed.

Definition in_time (c : Consensus) : Prop :=
  12 * vp ≤ valid_after (con_lifetime c) ∧ valid_after (con_lifetime c) + 3 * round vp ≤ time_max.

Lemma round_of_spec c :
  in_time c →
  0 ≤ round_of vp c ∧ round_of vp c * round vp ≤ valid_after (con_lifetime c)
    < (round_of vp c + 1) * round vp.
Proof.
  intros [? ?]. destruct round_pos as (? & ? & ?). unfold round_of.
  pose proof (Z.div_mod (valid_after (con_lifetime c)) (round vp) ltac:(lia)).
  pose proof (Z.mod_pos_bound (valid_after (con_lifetime c)) (round vp) ltac:(lia)).
  split; [apply Z.div_pos; lia|lia].
Qed.

Lemma schedule_voting_period {E} c :
  on_schedule vp srv c → voting_period (E:=E) (con_lifetime c) = Ok vp.
Proof.
  intros [Hf _]. destruct round_pos as (? & ? & ?). unfold voting_period, duration_since.
  rewrite Hf, (proj2 (Z.leb_le _ _)) by lia. simpl. f_equal. lia.
Qed.

Lemma schedule_interval c : on_schedule vp srv c → srv_interval c = Ok (round vp).
Proof.
  intros Hs. pose proof (schedule_voting_period (E:=NetdirError) c Hs) as Hv.
  destruct round_pos as (Hr & ? & ?).
  assert (Hm : duration_mul (E:=NetdirError) vp VOTING_PERIODS_IN_SRV_ROUND = Ok (round vp)).
  { unfold duration_mul, VOTING_PERIODS_IN_SRV_ROUND.
    rewrite umul_ok by (unfold duration_max, u64_max, ns in *; lia). f_equal. lia. }
  destruct Hs as (_ & cur & prev & Hc & Hp & _ & Htc & _ & Htp). unfold srv_interval.
  rewrite Hc, Hp, Hv. simpl.
  destruct Htc as [->|[-> _]]; simpl; [|by rewrite Hm].
  destruct Htp as [->|[-> _]]; simpl; [|by rewrite Hm].
  unfold duration_since. rewrite (proj2 (Z.leb_le _ _)) by nia. f_equal. lia.
Qed.

Lemma schedule_srvs c :
  in_time c → on_schedule vp srv c →
  let k := round_of vp c in
  extract_srvs start_of_day c =
    Ok [(srv k, (k * round vp, (k + 1) * round vp));
        (srv (k - 1), ((k - 1) * round vp, k * round vp))].
Proof.
  intros Ht Hs k. destruct (round_of_spec c Ht) as (Hk & Hk1 & Hk2). destruct Ht as [Ht1 Ht2].
  destruct round_pos as (Hr & Hvp & Hmax).
  unfold extract_srvs. rewrite schedule_interval, ok_bind by done.
  destruct Hs as (_ & cur & prev & -> & -> & Hvc & Htc & Hvp' & Htp).
  fold k in Hvc, Htc, Hvp', Htp, Hk, Hk1, Hk2.
  assert (Hday : round vp = ONE_DAY → start_of_day (valid_after (con_lifetime c)) = k * round vp).
  { intros Hd. rewrite start_of_day_spec by lia. unfold k, round_of. by rewrite Hd. }
  assert (Hcur : default (start_of_day (valid_after (con_lifetime c))) (sr_timestamp cur)
                 = k * round vp).
  { destruct Htc as [->|[-> Hd]]; [done|]. by apply Hday. }
  rewrite Hcur, time_add_ok, ok_bind by lia.
  assert (Hprev : match sr_timestamp prev with
                  | Some t => Ok t
                  | None => time_sub (E:=NetdirError)
                              (start_of_day (valid_after (con_lifetime c))) ONE_DAY
                  end = Ok ((k - 1) * round vp)).
  { destruct Htp as [->|[-> Hd]]; [done|]. rewrite Hday, <-Hd by done. unfold time_sub.
    rewrite (proj2 (Z.leb_le _ _)); [f_equal; lia|].
    unfold time_min, ns in *. nia. }
  rewrite ok_bind, Hprev, ok_bind, time_add_ok, !ok_bind by lia.
  rewrite Hvc, Hvp'. simpl. repeat f_equal; lia.
Qed.

Lemma nth_period_wf i : 0 ≤ i → wf_period (nth_period minutes i).
Proof. intros. unfold wf_period, u32_max. simpl. lia. Qed.

Lemma nth_range i :
  0 ≤ i → (i + 1) * round vp + 12 * vp ≤ time_max →
  tp_range (nth_period minutes i) = Ok (i * round vp + 12 * vp, (i + 1) * round vp + 12 * vp).
Proof.
  intros Hi Hm. rewrite tp_range_spec by by apply nth_period_wf.
  assert (Hp : period_start (nth_period minutes i) = i * round vp + 12 * vp).
  { unfold period_start, epoch_ns, period_ns. simpl. rewrite Hround. destruct round_pos as (Hr & _).
    unfold from_secs in *. lia. }
  rewrite Hp. unfold period_ns. simpl. rewrite Hround, (proj2 (Z.leb_le _ _)) by lia.
  do 2 f_equal. lia.
Qed.

(** The rounds whose value a consensus of round [k] lists. *)
Definition listed (k i : Z) : bool := (i =? k) || (i =? k - 1).

Lemma find_params_nth k i :
  0 ≤ i → (i + 1) * round vp + 12 * vp ≤ time_max →
  find_params_for_time
    [(srv k, (k * round vp, (k + 1) * round vp)); (srv (k - 1), ((k - 1) * round vp, k * round vp))]
    (nth_period minutes i) = Ok (if listed k i then Some (nth_params vp srv minutes i) else None).
Proof.
  intros Hi Hm. destruct round_pos as (Hr & Hvp & _).
  unfold find_params_for_time. rewrite nth_range by done. cbn [map_err]. rewrite ok_bind. f_equal.
  unfold find_srv_for_time, range_contains, listed. cbn [fst snd].
  assert (Hin : ∀ j, (j * round vp <=? i * round vp + 12 * vp) &&
                     (i * round vp + 12 * vp <? (j + 1) * round vp) = (i =? j)).
  { intros j. apply eq_iff_eq_true. rewrite andb_true_iff, Z.leb_le, Z.ltb_lt, Z.eqb_eq. nia. }
  rewrite !filter_cons, filter_nil. cbn [fst snd].

  pose proof (Hin (k - 1)) as Hin1. replace (k - 1 + 1) with k in Hin1 by lia.
  rewrite (Hin k), Hin1. unfold nth_params.
  destruct (Z.eqb_spec i k) as [->|]; [done|].
  destruct (Z.eqb_spec i (k - 1)) as [->|]; [|done]. simpl. by replace (k - 1 + 1) with k by lia.
Qed.

Lemma found_params_nth k i :
  0 ≤ i → (i + 1) * round vp + 12 * vp ≤ time_max →
  found_params
    [(srv k, (k * round vp, (k + 1) * round vp)); (srv (k - 1), ((k - 1) * round vp, k * round vp))]
    (Some (nth_period minutes i)) = Ok (if listed k i then [nth_params vp srv minutes i] else []).
Proof.
  intros Hi Hm. unfold found_params. rewrite find_params_nth by done. by destruct (listed k i).
Qed.

(** The period of a time. *)
Definition index_at (t : Z) : Z := (t - 12 * vp) / round vp.

Lemma index_at_spec t :
  12 * vp ≤ t →
  0 ≤ index_at t ∧ index_at t * round vp + 12 * vp ≤ t < (index_at t + 1) * round vp + 12 * vp.
Proof.
  intros Ht. destruct round_pos as (? & ? & _). unfold index_at.
  pose proof (Z.div_mod (t - 12 * vp) (round vp) ltac:(lia)).
  pose proof (Z.mod_pos_bound (t - 12 * vp) (round vp) ltac:(lia)).
  split; [apply Z.div_pos; lia|lia].
Qed.

Lemma tp_new_nth t :
  12 * vp ≤ t → tp_new (round vp) t (12 * vp) = Ok (nth_period minutes (index_at t)).
Proof.
  intros Ht. destruct round_pos as (Hr & Hvp & _).
  assert (H12 : 12 * vp = minutes * 30 * ns) by (unfold from_secs in *; lia).
  unfold tp_new, to_u32, as_secs, subsec_nanos, index_at. rewrite <-Hround. unfold from_secs.
  rewrite H12, !Z.div_mul, Z.mod_mul by done. unfold u32_max in *.
  rewrite !(proj2 (Z.leb_le _ _)), ok_bind by lia. rewrite Z.mod_mul, !Z.eqb_refl by done.
  cbn [negb orb]. rewrite ok_bind.
  rewrite time_add_ok, ok_bind by (unfold time_max, ns; lia). unfold duration_since.
  rewrite (proj2 (Z.leb_le _ _)) by lia. cbn [ok_or]. rewrite ok_bind, udiv_ok, ok_bind by lia.
  unfold nth_period. rewrite Z.div_mul by done. do 2 f_equal.
  rewrite Z.div_div by (done || lia). f_equal; lia.
Qed.

Lemma minutes_duration : minutes_to_duration minutes = Some (round vp).
Proof.
  unfold minutes_to_duration, checked_mul. rewrite (proj2 (Z.ltb_ge _ _)) by lia.
  rewrite (proj2 (Z.leb_le _ _)) by (unfold u64_max; lia). simpl. by rewrite Hround.
Qed.

(** What [compute] gives for a consensus on schedule. *)
Lemma compute_schedule c :
  in_time c → on_schedule vp srv c →
  let k := round_of vp c in
  let i := index_at (valid_after (con_lifetime c)) in
  compute sha3_256 start_of_day c minutes =
    Ok (mkHsDirs (nth_params vp srv minutes i)
          ((if (1 <=? i) && listed k (i - 1) then [nth_params vp srv minutes (i - 1)] else []) ++
           (if listed k (i + 1) then [nth_params vp srv minutes (i + 1)] else []))).
Proof.
  intros Ht Hs k i. destruct (round_of_spec c Ht) as (Hk & Hk1 & Hk2). fold k in Hk, Hk1, Hk2.
  destruct round_pos as (Hr & Hvp & Hmax). pose proof Ht as [Ht1 Ht2].
  destruct (index_at_spec _ Ht1) as (Hi & Hi1 & Hi2). fold i in Hi, Hi1, Hi2.
  unfold compute. rewrite schedule_srvs, ok_bind by done. fold k.
  rewrite minutes_duration. cbn [ok_or]. rewrite ok_bind, schedule_voting_period, ok_bind by done.
  unfold duration_mul, VOTING_PERIODS_IN_OFFSET.
  rewrite umul_ok, ok_bind by (unfold duration_max, u64_max, ns in *; lia).
  replace (vp * 12) with (12 * vp) by lia. rewrite tp_new_nth by done. fold i. cbn [map_err].
  rewrite ok_bind, find_params_nth, ok_bind by lia.
  replace (listed k i) with true; [|symmetry; unfold listed; rewrite orb_true_iff, !Z.eqb_eq; nia].
  rewrite ok_bind.
  assert (Hnext : tp_next (nth_period minutes i) = Some (nth_period minutes (i + 1))).
  { unfold tp_next, checked_add. simpl. rewrite (proj2 (Z.leb_le _ _)); [done|].
    assert (ns ≤ round vp) by (rewrite <-Hround; unfold from_secs, ns; lia).
    assert (i * ns ≤ i * round vp) by (apply Z.mul_le_mono_nonneg_l; lia).
    unfold u64_max, time_max, ns in *. lia. }
  rewrite Hnext, found_params_nth by lia. unfold tp_prev, checked_sub. simpl interval_num.
  destruct (1 <=? i) eqn:H1; zify_bool; cbn [andb mbind option_bind].
  - change (mkTimePeriod (i - 1) _ _) with (nth_period minutes (i - 1)).
    by rewrite (found_params_nth k (i - 1)) by lia.
  - done.
Qed.

(** The client's parameters are among those of the service. *)
Lemma client_params_listed cs cc :
  on_schedule vp srv cs → on_schedule vp srv cc → in_time cs → in_time cc →
  Z.abs (valid_after (con_lifetime cs) - valid_after (con_lifetime cc)) ≤ 12 * vp →
  ∃ ds dc,
    compute sha3_256 start_of_day cs minutes = Ok ds ∧
    compute sha3_256 start_of_day cc minutes = Ok dc ∧
    current dc = nth_params vp srv minutes (index_at (valid_after (con_lifetime cc))) ∧
    current dc ∈ hsdirs_iter ds.
Proof.
  intros Hs Hc Hts Htc Habs.
  pose proof (compute_schedule cs Hts Hs) as Es. pose proof (compute_schedule cc Htc Hc) as Ec.
  set (ks := round_of vp cs) in *. set (ic := index_at (valid_after (con_lifetime cc))) in *.
  set (js := index_at (valid_after (con_lifetime cs))) in *. cbv zeta in Es, Ec.
  destruct (round_of_spec cs Hts) as (Hk & Hk1 & Hk2). fold ks in Hk, Hk1, Hk2.
  destruct (index_at_spec _ (proj1 Hts)) as (His & Hi1 & Hi2). fold js in His, Hi1, Hi2.
  destruct (index_at_spec _ (proj1 Htc)) as (Hic & Hi3 & Hi4). fold ic in Hic, Hi3, Hi4.
  destruct round_pos as (Hr & Hvp & _).
  eexists _, _. split_and!; [exact Es|exact Ec|done|].
  unfold hsdirs_iter, iter_filter_secondary. simpl.
  assert (Hl : listed ks ic = true) by (unfold listed; rewrite orb_true_iff, !Z.eqb_eq; nia).
  assert (ic = js ∨ ic = js - 1 ∨ ic = js + 1) as [Hj|[Hj|Hj]] by nia;
    rewrite Hj in Hl |- *; [by left| |].
  - rewrite Hl, (proj2 (Z.leb_le _ _)) by lia. simpl. right. by left.
  - rewrite Hl. right. apply elem_of_app. right. by left.
Qed.

(** A client and a service whose consensuses are at most 12 voting periods apart agree on
    the ring.  The client's only parameters, which are those of the period that contains its
    consensus and of the shared random value of the round in which that period began, are
    among those that the service uploads for. *)
Theorem client_service_params_agree cs cc :
  on_schedule vp srv cs → on_schedule vp srv cc → in_time cs → in_time cc →
  Z.abs (valid_after (con_lifetime cs) - valid_after (con_lifetime cc)) ≤ 12 * vp →
  ∃ ds dc i a b,
    compute sha3_256 start_of_day cs minutes = Ok ds ∧
    compute sha3_256 start_of_day cc minutes = Ok dc ∧
    current dc ∈ hsdirs_iter ds ∧
    tp_range (hp_time_period (current dc)) = Ok (a, b) ∧
    a ≤ valid_after (con_lifetime cc) < b ∧
    shared_rand (current dc) = srv i ∧ i * round vp ≤ a < (i + 1) * round vp.
Proof.
  intros Hs Hc Hts Htc Habs.
  destruct (client_params_listed cs cc) as (ds & dc & Es & Ec & Hcur & Hin); [done..|].
  destruct (index_at_spec _ (proj1 Htc)) as (Hic & Hi3 & Hi4). destruct round_pos as (Hr & Hvp & _).
  destruct Htc as [Htc1 Htc2].
  eexists ds, dc, (index_at (valid_after (con_lifetime cc))), _, _. rewrite Hcur in Hin |- *.
  split_and!; try done; try apply nth_range; lia.
Qed.
End agree.

Definition example_srv (k : Z) : list Z := [k].
Definition example_consensus (hour : Z) : Consensus :=
  let t := from_secs (hour * 3600) in
  let k := t / ONE_DAY in
  mkConsensus (mkLifetime t (t + from_secs 3600) (t + from_secs 10800))
    (Some (mkSharedRand 7 (example_srv k) None)) (Some (mkSharedRand 7 (example_srv (k - 1)) None)).

Lemma example_on_schedule hour : on_schedule (from_secs 3600) example_srv (example_consensus hour).
Proof.
  split; [done|]. eexists _, _. split_and!; [done..|by right|done|by right].
Qed.

Lemma example_in_time hour : 12 ≤ hour ≤ 1000000000 → in_time (from_secs 3600) (example_consensus hour).
Proof.
  intros Hh. unfold in_time. simpl. unfold from_secs, ns, time_max, round, VOTING_PERIODS_IN_SRV_ROUND. lia.
Qed.

(** A service after noon and a client before it. *)
Lemma client_service_params_agree_witness :
  ∃ ds dc i a b,
    compute (λ l, l) (λ t, t / ONE_DAY * ONE_DAY) (example_consensus 405709) 1440 = Ok ds ∧
    compute (λ l, l) (λ t, t / ONE_DAY * ONE_DAY) (example_consensus 405707) 1440 = Ok dc ∧
    current dc ∈ hsdirs_iter ds ∧
    tp_range (hp_time_period (current dc)) = Ok (a, b) ∧
    a ≤ from_secs (405707 * 3600) < b ∧
    shared_rand (current dc) = example_srv i ∧
    i * round (from_secs 3600) ≤ a < (i + 1) * round (from_secs 3600).
Proof.
  apply (client_service_params_agree (λ l, l) (λ t, t / ONE_DAY * ONE_DAY) (λ t _, eq_refl)
    (from_secs 3600) 1440 example_srv ltac:(lia) eq_refl
    (example_consensus 405709) (example_consensus 405707)
    (example_on_schedule _) (example_on_schedule _)
    (example_in_time 405709 ltac:(lia)) (example_in_time 405707 ltac:(lia))).
  vm_compute. done.
Defined.
