(* ===== verification/NetDir.v ===== *)
(** * NetDir: a network directory and its onion service rings

    What [tor-netdir/src/lib.rs] keeps of a consensus and the microdescriptors that came for it,
    the lookups by identity, and the rings of [tor-netdir/src/hsdir_ring.rs] from which clients
    and services choose directories.  An index of a routerstatus is a [nat].  Weights, families
    and country codes are left out; whether a directory has enough paths, which is a question of
    floating-point weights, is an argument.  The hash is a parameter, as is the shuffle. *)

From stdpp Require Import sorting.
From S2P Require Import Prelude Text Bytes RelayMsg ChanHandshake HsTime.

(** ** Directory entries *)

Record MdRouterStatus : Type := mkRs {
  rs_rsa_identity : list Z;
  rs_md_digest : list Z;
  is_flagged_hsdir : bool;
  no_ed_consensus : bool;
}.

Definition ed25519_id_is_usable (rs : MdRouterStatus) : bool := negb (no_ed_consensus rs).

Record Microdesc : Type := mkMd { md_digest : list Z; md_ed25519_id : list Z }.

#[export] Instance MdRouterStatus_eq_dec : EqDecision MdRouterStatus.
Proof. solve_decision. Defined.
#[export] Instance Microdesc_eq_dec : EqDecision Microdesc.
Proof. solve_decision. Defined.

Record UncheckedRelay : Type := mkUnchecked { ur_rs : MdRouterStatus; ur_md : option Microdesc }.
Record Relay : Type := mkRelay { r_rs : MdRouterStatus; r_md : Microdesc }.

Definition is_usable (r : UncheckedRelay) : bool :=
  match ur_md r with Some _ => ed25519_id_is_usable (ur_rs r) | None => false end.

Definition into_relay (r : UncheckedRelay) : option Relay :=
  if is_usable r then md ← ur_md r; Some (mkRelay (ur_rs r) md) else None.

Definition is_hsdir_for_ring (r : UncheckedRelay) : bool := is_flagged_hsdir (ur_rs r).

(** [HasRelayIds] for a [Relay] and for an [UncheckedRelay]. *)
Definition relay_ids (r : Relay) : RelayIds :=
  mkIds (Some (md_ed25519_id (r_md r))) (Some (rs_rsa_identity (r_rs r))).
Definition unchecked_ids (r : UncheckedRelay) : RelayIds :=
  mkIds (if ed25519_id_is_usable (ur_rs r) then md_ed25519_id <$> ur_md r else None)
    (Some (rs_rsa_identity (ur_rs r))).

Definition has_identity (ids : RelayIds) (id : RelayId) : bool :=
  bool_decide (identity ids (id_type id) = Some id).

(** ** Rings *)

Record HsDirRing : Type := mkRing {
  ring_params : HsDirParams;
  ring : list (list Z * nat);
}.

Definition empty_from_params (p : HsDirParams) : HsDirRing := mkRing p [].
Definition ring_time_period (r : HsDirRing) : TimePeriod := hp_time_period (ring_params r).

(** [sort_by_key], which is stable. *)
Fixpoint insert_entry (x : list Z * nat) (l : list (list Z * nat)) : list (list Z * nat) :=
  match l with
  | [] => [x]
  | y :: l => if str_leb x.1 y.1 then x :: y :: l else y :: insert_entry x l
  end.
Definition sort_ring (l : list (list Z * nat)) : list (list Z * nat) :=
  foldr insert_entry [] l.

(** [binary_search_by_key] on a sorted ring, and the insertion point when there is no match: the
    entries below the key.  Among equal keys the library may return any; it is the first here. *)
Definition find_pos (r : HsDirRing) (idx : list Z) : nat :=
  length (filter (λ e, str_leb idx e.1 = false) (ring r)).

(** [.filter(|x| selected.insert(x.0)).take(spread)]: once enough are taken, no more is drawn. *)
Fixpoint take_new (spread : nat) (selected : gset (list Z)) (items : list (list Z * nat))
    : list (list Z * nat) * gset (list Z) :=
  match spread, items with
  | O, _ | _, [] => ([], selected)
  | S spread', x :: items =>
      if decide (x.1 ∈ selected) then take_new spread selected items
      else let '(out, selected) := take_new spread' ({[x.1]} ∪ selected) items in
           (x :: out, selected)
  end.

Definition ring_from (r : HsDirRing) (idx : list Z) : list (list Z * nat) :=
  let pos := find_pos r idx in drop pos (ring r) ++ take pos (ring r).

Definition ring_items_at (r : HsDirRing) (idx : list Z) (spread : nat) (selected : gset (list Z))
    : list (list Z * nat) * gset (list Z) :=
  take_new spread selected (ring_from r idx).

(** ** The directory *)

(** The parameters that the rings use; each has the bounds of its [BoundedInt32]. *)
Record NetParams : Type := mkNetParams {
  hsdir_timeperiod_length : Z;
  hsdir_n_replicas : Z;
  hsdir_spread_fetch : Z;
  hsdir_spread_store : Z;
}.

Record NetDir : Type := mkNetDir {
  nd_consensus : Consensus;
  c_relays : list MdRouterStatus;
  nd_params : NetParams;
  mds : list (option Microdesc);
  rsidx_by_missing : gmap (list Z) nat;
  rsidx_by_ed : gmap (list Z) nat;
  rsidx_by_rsa : gmap (list Z) nat;
  hsdir_rings : HsDirs HsDirRing;
}.

Record PartialNetDir : Type := mkPartial { pnd_netdir : NetDir; prev_netdir : option NetDir }.

Definition set_rings (nd : NetDir) (rings : HsDirs HsDirRing) : NetDir :=
  mkNetDir (nd_consensus nd) (c_relays nd) (nd_params nd) (mds nd) (rsidx_by_missing nd)
    (rsidx_by_ed nd) (rsidx_by_rsa nd) rings.

(** [collect] of an iterator over the entries and their indexes into a map: the last wins. *)
Fixpoint index_by (key : MdRouterStatus → list Z) (i : nat) (l : list MdRouterStatus)
    (m : gmap (list Z) nat) : gmap (list Z) nat :=
  match l with
  | [] => m
  | rs :: l => index_by key (S i) l (<[key rs := i]> m)
  end.

(** [iter_enumerated().filter_map(f)]. *)
Fixpoint filter_map_rs {E B} (f : nat → MdRouterStatus → res E (option B)) (i : nat)
    (l : list MdRouterStatus) : res E (list B) :=
  match l with
  | [] => Ok []
  | rs :: l =>
      b ← f i rs;
      bs ← filter_map_rs f (S i) l;
      Ok (match b with Some b => b :: bs | None => bs end)
  end.

(** Like [debug_assert!], [assert!] panics. *)
Section lookups.
Context {E : Type}.

Definition relay_from_rs_and_rsidx (nd : NetDir) (rs : MdRouterStatus) (rsidx : nat)
    : res E UncheckedRelay :=
  rs' ← expect (c_relays nd !! rsidx);
  _ ← debug_assert (bool_decide (rs_rsa_identity rs' = rs_rsa_identity rs));
  md ← expect (mds nd !! rsidx);
  _ ← match md with
      | Some md => debug_assert (bool_decide (rs_md_digest rs = md_digest md))
      | None => Ok tt
      end;
  Ok (mkUnchecked rs md).

Definition all_relays (nd : NetDir) : res E (list UncheckedRelay) :=
  filter_map_rs (λ i rs, r ← relay_from_rs_and_rsidx nd rs i; Ok (Some r)) 0 (c_relays nd).

Definition relays (nd : NetDir) : res E (list Relay) :=
  l ← all_relays nd; Ok (omap (M:=list) into_relay l).

Definition md_by_rsidx (nd : NetDir) (rsidx : nat) : option Microdesc :=
  md ← mds nd !! rsidx; md.

Definition relay_by_rs_idx (nd : NetDir) (rs_idx : nat) : option Relay :=
  rs ← c_relays nd !! rs_idx;
  md ← mds nd !! rs_idx;
  into_relay (mkUnchecked rs md).

Definition by_rsa_id_unchecked (nd : NetDir) (rsa_id : list Z) : res E (option UncheckedRelay) :=
  match rsidx_by_rsa nd !! rsa_id with
  | None => Ok None
  | Some rsidx =>
      rs ← expect (c_relays nd !! rsidx);
      _ ← debug_assert (bool_decide (rs_rsa_identity rs = rsa_id));
      r ← relay_from_rs_and_rsidx nd rs rsidx;
      Ok (Some r)
  end.

Definition by_rsa_id (nd : NetDir) (rsa_id : list Z) : res E (option Relay) :=
  r ← by_rsa_id_unchecked nd rsa_id; Ok (r ≫= into_relay).

Definition rsa_id_is_listed (nd : NetDir) (rsa_id : list Z) : res E bool :=
  r ← by_rsa_id_unchecked nd rsa_id; Ok (bool_decide (is_Some r)).

Definition by_id (nd : NetDir) (id : RelayId) : res E (option Relay) :=
  answer ← match id with
           | IdEd25519 ed =>
               match rsidx_by_ed nd !! ed with
               | None => Ok None
               | Some rsidx =>
                   rs ← expect (c_relays nd !! rsidx);
                   r ← relay_from_rs_and_rsidx nd rs rsidx;
                   Ok (into_relay r)
               end
           | IdRsa rsa => r ← by_rsa_id_unchecked nd rsa; Ok (r ≫= into_relay)
           end;
  match answer with
  | None => Ok None
  | Some answer =>
      _ ← debug_assert (has_identity (relay_ids answer) id);
      Ok (Some answer)
  end.

Definition by_ids (nd : NetDir) (target : RelayIds) : res E (option Relay) :=
  match identities target with
  | [] => Ok None
  | first_id :: others =>
      candidate ← by_id nd first_id;
      Ok (c ← candidate;
          if forallb (has_identity (relay_ids c)) others then Some c else None)
  end.

Definition id_pair_listed (nd : NetDir) (ed_id rsa_id : list Z) : res E (option bool) :=
  r ← by_rsa_id_unchecked nd rsa_id;
  Ok (match r with
      | Some u =>
          if negb (ed25519_id_is_usable (ur_rs u)) then Some false
          else md ← ur_md u; Some (bool_decide (md_ed25519_id md = ed_id))
      | None => Some false
      end).

Definition ids_listed (nd : NetDir) (target : RelayIds) : res E (option bool) :=
  match ri_rsa target, ri_ed target with
  | Some r, Some e => id_pair_listed nd e r
  | Some r, None => b ← rsa_id_is_listed nd r; Ok (Some b)
  | None, Some e => Ok (if decide (is_Some (rsidx_by_ed nd !! e)) then Some true else None)
  | None, None => Ok None
  end.

Definition all_hsdirs (nd : NetDir) : res E (list (nat * Relay)) :=
  filter_map_rs (λ i rs,
    relay ← relay_from_rs_and_rsidx nd rs i;
    Ok (if is_hsdir_for_ring relay then relay ← into_relay relay; Some (i, relay) else None))
    0 (c_relays nd).

(** The directory with the microdescriptor, and whether it was wanted. *)
Definition add_arc_microdesc (nd : NetDir) (md : Microdesc) : res E (NetDir * bool) :=
  match rsidx_by_missing nd !! md_digest md with
  | Some rsidx =>
      rs ← expect (c_relays nd !! rsidx);
      _ ← debug_assert (bool_decide (rs_md_digest rs = md_digest md));
      _ ← expect (mds nd !! rsidx);
      Ok (mkNetDir (nd_consensus nd) (c_relays nd) (nd_params nd) (<[rsidx := Some md]> (mds nd))
            (delete (md_digest md) (rsidx_by_missing nd))
            (<[md_ed25519_id md := rsidx]> (rsidx_by_ed nd)) (rsidx_by_rsa nd) (hsdir_rings nd),
          true)
  | None => Ok (nd, false)
  end.

Fixpoint add_microdescs (nd : NetDir) (l : list Microdesc) : res E NetDir :=
  match l with
  | [] => Ok nd
  | md :: l => '(nd, _) ← add_arc_microdesc nd md; add_microdescs nd l
  end.

Definition missing_microdescs (nd : NetDir) : gset (list Z) := dom (rsidx_by_missing nd).
Definition n_missing (nd : NetDir) : nat := size (rsidx_by_missing nd).

Definition fill_from_previous_netdir (p : PartialNetDir) (prev : NetDir) : res E PartialNetDir :=
  nd ← add_microdescs (pnd_netdir p) (omap id (mds prev));
  Ok (mkPartial nd (Some prev)).

(** [replace_overridden_parameters]: the new parameters come from the consensus and the
    replacement. *)
Definition replace_overridden_parameters (nd : NetDir) (new_params : NetParams) : NetDir :=
  mkNetDir (nd_consensus nd) (c_relays nd) new_params (mds nd) (rsidx_by_missing nd)
    (rsidx_by_ed nd) (rsidx_by_rsa nd) (hsdir_rings nd).
End lookups.

(** ** Rings of a directory *)

Inductive Bug : Type := Internal (what : string).

Section rings.
Variable sha3_256 : list Z → list Z.
Variable start_of_day : Z → Z.

Definition relay_hsdir_index (kp_relayid_ed : list Z) (p : HsDirParams) : list Z :=
  sha3_256 (str "node-idx" ++ kp_relayid_ed ++ shared_rand p ++
            to_be_bytes 8 (interval_num (hp_time_period p)) ++
            to_be_bytes 8 (tp_length (hp_time_period p))).

Definition service_hsdir_index (kp_hs_blind_id : list Z) (replica : Z) (p : HsDirParams) : list Z :=
  sha3_256 (str "store-at-idx" ++ kp_hs_blind_id ++ to_be_bytes 8 replica ++
            to_be_bytes 8 (tp_length (hp_time_period p)) ++
            to_be_bytes 8 (interval_num (hp_time_period p))).

(** The indexes of the ring of a previous directory that has the same parameters. *)
Definition reuse_index_values (new_params : HsDirParams) (prev : option NetDir)
    : gmap (list Z) (list Z) :=
  match
    (prev ← prev;
     prev_ring ← head (filter (λ r, ring_params r = new_params) (hsdirs_iter (hsdir_rings prev)));
     Some (foldl (λ m '(hsdir_index, rsidx),
                    match md_by_rsidx prev rsidx with
                    | Some md => <[md_ed25519_id md := hsdir_index]> m
                    | None => m
                    end) ∅ (ring prev_ring)))
  with
  | Some m => m
  | None => ∅
  end.

Definition ring_compute {E} (new_params : HsDirParams) (this_netdir : NetDir) (prev : option NetDir)
    : res E HsDirRing :=
  let reuse := reuse_index_values new_params prev in
  hsdirs ← all_hsdirs this_netdir;
  Ok (mkRing new_params
        (sort_ring
           (map (λ '(rsidx, relay),
                   let ed_id := md_ed25519_id (r_md relay) in
                   (default (relay_hsdir_index ed_id new_params) (reuse !! ed_id), rsidx))
              hsdirs))).

(** [HsDirs::map] with a function that can panic. *)
Fixpoint map_rings {E} (f : HsDirParams → res E HsDirRing) (l : list HsDirParams)
    : res E (list HsDirRing) :=
  match l with
  | [] => Ok []
  | p :: l => r ← f p; rs ← map_rings f l; Ok (r :: rs)
  end.

Definition expect_params (c : Consensus) (p : NetParams) : res Bug (HsDirs HsDirParams) :=
  match compute sha3_256 start_of_day c (hsdir_timeperiod_length p) with
  | Ok h => Ok h
  | _ => Panic
  end.

(** [PartialNetDir::new_inner], with the parameters that it reads from the consensus. *)
Definition new_inner (c : Consensus) (relays : list MdRouterStatus) (p : NetParams)
    : res Bug PartialNetDir :=
  let n_relays := length relays in
  let missing := index_by rs_md_digest 0 relays ∅ in
  let by_rsa := index_by rs_rsa_identity 0 relays ∅ in
  params ← expect_params c p;
  Ok (mkPartial
        (mkNetDir c relays p (replicate n_relays None) missing ∅ by_rsa
           (hsdirs_map empty_from_params params))
        None).

Definition compute_rings (p : PartialNetDir) : res Bug PartialNetDir :=
  let nd := pnd_netdir p in
  params ← expect_params (nd_consensus nd) (nd_params nd);
  cur ← ring_compute (current params) nd (prev_netdir p);
  sec ← map_rings (λ q, ring_compute q nd (prev_netdir p)) (secondary params);
  Ok (mkPartial (set_rings nd (mkHsDirs cur sec)) (prev_netdir p)).

Definition unwrap_if_sufficient (have_enough_paths : NetDir → bool) (p : PartialNetDir)
    : res Bug (NetDir + PartialNetDir) :=
  if have_enough_paths (pnd_netdir p) then
    p ← compute_rings p; Ok (inl (pnd_netdir p))
  else Ok (inr p).

(** ** Choosing directories *)

Definition n_replicas (nd : NetDir) : res Bug Z :=
  let n := hsdir_n_replicas (nd_params nd) in
  if (0 <=? n) && (n <=? u8_max) then Ok n else Panic.

Definition nd_spread (nd : NetDir) (op : HsDirOp) : res Bug nat :=
  let spread := match op with
                | Download => hsdir_spread_fetch (nd_params nd)
                | Upload => hsdir_spread_store (nd_params nd)
                end in
  if 0 <=? spread then Ok (Z.to_nat spread) else Panic.

(** The entries for the replicas in turn, with the nodes already selected. *)
Fixpoint select_replicas (hsid : list Z) (r : HsDirRing) (spread : nat) (replicas : list Z)
    (selected : gset (list Z)) : list (list Z * nat) :=
  match replicas with
  | [] => []
  | replica :: replicas =>
      let hsdir_idx := service_hsdir_index hsid replica (ring_params r) in
      let '(items, selected) := ring_items_at r hsdir_idx spread selected in
      items ++ select_replicas hsid r spread replicas selected
  end.

Definition select_hsdirs (nd : NetDir) (hsid : list Z) (r : HsDirRing) (spread : nat)
    : res Bug (list Relay) :=
  n ← n_replicas nd;
  Ok (omap (M:=list) (λ e, relay_by_rs_idx nd e.2)
        (select_replicas hsid r spread (seqZ 1 n) ∅)).

Definition hs_dirs_download (nd : NetDir) (hsid : list Z) (period : TimePeriod)
    (shuffle : list Relay → list Relay) : res Bug (list Relay) :=
  spread ← nd_spread nd Download;
  let r := current (hsdir_rings nd) in
  if negb (bool_decide (hp_time_period (ring_params r) = period)) then
    Err (Internal "our current ring is not associated with the requested time period!")
  else
    hs_dirs ← select_hsdirs nd hsid r spread;
    Ok (shuffle hs_dirs).

Fixpoint upload_to (nd : NetDir) (hsid : list Z) (period : TimePeriod) (spread : nat)
    (rings : list HsDirRing) : res Bug (list Relay) :=
  match rings with
  | [] => Ok []
  | r :: rings =>
      _ ← debug_assert (bool_decide (period = ring_time_period r));
      l ← select_hsdirs nd hsid r spread;
      l' ← upload_to nd hsid period spread rings;
      Ok (l ++ l')
  end.

Definition hs_dirs_upload (nd : NetDir) (hsid : list Z) (period : TimePeriod)
    : res Bug (list Relay) :=
  spread ← nd_spread nd Upload;
  let rings := filter (λ r, hp_time_period (ring_params r) = period)
                 (hsdirs_iter (hsdir_rings nd)) in
  if (length rings =? 0)%nat then
    Err (Internal "the specified time period does not have an associated ring")
  else upload_to nd hsid period spread rings.

Definition hs_time_period (nd : NetDir) : TimePeriod := ring_time_period (current (hsdir_rings nd)).
Definition hs_all_time_periods (nd : NetDir) : list HsDirParams :=
  map ring_params (hsdirs_iter (hsdir_rings nd)).
End rings.

(** ** Well-formed directories *)

Section invariant.
Variable sha3_256 : list Z → list Z.
Variable start_of_day : Z → Z.

(** Every entry of a ring is a usable relay with the flag, at the index of its identity. *)
Definition entry_ok (nd : NetDir) (p : HsDirParams) (e : list Z * nat) : Prop :=
  ∃ relay, relay_by_rs_idx nd e.2 = Some relay ∧ is_flagged_hsdir (r_rs relay) = true ∧
           e.1 = relay_hsdir_index sha3_256 (md_ed25519_id (r_md relay)) p.

Definition key_le (x y : list Z * nat) : Prop := str_leb x.1 y.1 = true.

Definition ring_ok (nd : NetDir) (r : HsDirRing) : Prop :=
  Forall (entry_ok nd (ring_params r)) (ring r) ∧ StronglySorted key_le (ring r).

Record netdir_ok (nd : NetDir) : Prop := {
  ok_len : length (mds nd) = length (c_relays nd);
  ok_md i md : mds nd !! i = Some (Some md) →
    ∃ rs, c_relays nd !! i = Some rs ∧ rs_md_digest rs = md_digest md;
  ok_missing d i : rsidx_by_missing nd !! d = Some i →
    mds nd !! i = Some None ∧ ∃ rs, c_relays nd !! i = Some rs ∧ rs_md_digest rs = d;
  ok_ed e i : rsidx_by_ed nd !! e = Some i →
    ∃ md, mds nd !! i = Some (Some md) ∧ md_ed25519_id md = e;
  ok_ed_known i md : mds nd !! i = Some (Some md) → is_Some (rsidx_by_ed nd !! md_ed25519_id md);
  ok_rsa r i : rsidx_by_rsa nd !! r = Some i →
    ∃ rs, c_relays nd !! i = Some rs ∧ rs_rsa_identity rs = r;
  ok_rings : Forall (ring_ok nd) (hsdirs_iter (hsdir_rings nd));
}.

Lemma relay_from_ok {E} nd i rs :
  netdir_ok nd → c_relays nd !! i = Some rs →
  ∃ md, mds nd !! i = Some md ∧ relay_from_rs_and_rsidx (E:=E) nd rs i = Ok (mkUnchecked rs md).
Proof.
  intros Hok Hrs. destruct (mds nd !! i) as [md|] eqn:Hmd.
  2: { apply lookup_ge_None in Hmd. apply lookup_lt_Some in Hrs. rewrite (ok_len _ Hok) in Hmd. lia. }
  exists md. split; [done|]. unfold relay_from_rs_and_rsidx. rewrite Hrs, Hmd. simpl.
  rewrite bool_decide_eq_true_2 by done. simpl. destruct md as [md|]; [|done].
  destruct (ok_md _ Hok _ _ Hmd) as (rs' & Hrs' & Hd). simplify_eq.
  by rewrite bool_decide_eq_true_2.
Qed.

Lemma filter_map_rs_ok {E B} (f : nat → MdRouterStatus → res E (option B)) g i l :
  (∀ j rs, l !! j = Some rs → f (i + j)%nat rs = Ok (g (i + j)%nat rs)) →
  ∃ out, filter_map_rs f i l = Ok out ∧
    ∀ b, b ∈ out ↔ ∃ j rs, l !! j = Some rs ∧ g (i + j)%nat rs = Some b.
Proof.
  revert i. induction l as [|rs l IH]; intros i Hf; simpl.
  { exists []. split; [done|]. intros b. split; [by intros ?%elem_of_nil|].
    intros (j & rs & Hj & _). by rewrite lookup_nil in Hj. }
  pose proof (Hf 0%nat rs eq_refl) as H0. rewrite Nat.add_0_r in H0. rewrite H0.
  destruct (IH (S i)) as (out & -> & Hout).
  { intros j rs' Hj. rewrite Nat.add_succ_comm. by apply (Hf (S j)). }
  simpl. eexists. split; [done|]. intros b.
  assert (Hb : b ∈ (match g i rs with Some b => b :: out | None => out end) ↔
               g i rs = Some b ∨ b ∈ out).
  { destruct (g i rs) as [b'|]; [rewrite elem_of_cons|]; naive_solver. }
  rewrite Hb, Hout. split.
  - intros [Hg|(j & rs' & Hj & Hg)].
    + exists 0%nat, rs. split; [done|]. by rewrite Nat.add_0_r.
    + exists (S j), rs'. by rewrite <-Nat.add_succ_comm.
  - intros ([|j] & rs' & Hj & Hg); simpl in Hj.
    + left. simplify_eq. by rewrite Nat.add_0_r in Hg.
    + right. exists j, rs'. by rewrite Nat.add_succ_comm.
Qed.

(** The relays for the rings, with their indexes. *)
Lemma all_hsdirs_ok {E} nd :
  netdir_ok nd →
  ∃ out, all_hsdirs (E:=E) nd = Ok out ∧
    ∀ i r, (i, r) ∈ out ↔ relay_by_rs_idx nd i = Some r ∧ is_flagged_hsdir (r_rs r) = true.
Proof.
  intros Hok.
  destruct (filter_map_rs_ok
    (λ i rs, relay ← relay_from_rs_and_rsidx (E:=E) nd rs i;
       Ok (if is_hsdir_for_ring relay then relay ← into_relay relay; Some (i, relay) else None))
    (λ i rs, if is_flagged_hsdir rs then
               md ← mds nd !! i; r ← into_relay (mkUnchecked rs md); Some (i, r) else None)
    0 (c_relays nd)) as (out & Hout & Hin).
  { intros j rs Hj. destruct (relay_from_ok (E:=E) nd j rs Hok Hj) as (md & Hmd & Hr).
    simpl. rewrite Hr, Hmd. done. }
  exists out. split; [exact Hout|]. intros i r. rewrite Hin. unfold relay_by_rs_idx. split.
  - intros (j & rs & Hj & Hg). simpl in Hg. destruct (is_flagged_hsdir rs) eqn:Hf; [|done].
    destruct (mds nd !! j) as [md|] eqn:Hmd; [|done]. simpl in Hg.
    destruct (into_relay _) as [r'|] eqn:Hr; [|done]. simplify_eq/=. rewrite Hj, Hmd. simpl.
    rewrite Hr. split; [done|]. unfold into_relay, is_usable in Hr.
    repeat case_match; simplify_eq/=; done.
  - intros [Hr Hf]. destruct (c_relays nd !! i) as [rs|] eqn:Hrs; [|done]. simpl in Hr.
    exists i, rs. split; [done|]. simpl.
    destruct (mds nd !! i) as [md|]; [|done]. simpl in Hr |- *.
    assert (r_rs r = rs) as <-; [|by rewrite Hf, Hr].
    unfold into_relay, is_usable in Hr. repeat case_match; simplify_eq/=; done.
Qed.

Lemma insert_entry_perm x l : insert_entry x l ≡ₚ x :: l.
Proof.
  induction l as [|y l IH]; simpl; [done|]. case_match; [done|]. rewrite IH. apply perm_swap.
Qed.

Lemma sort_ring_perm l : sort_ring l ≡ₚ l.
Proof. induction l as [|x l IH]; simpl; [done|]. by rewrite insert_entry_perm, IH. Qed.

Lemma insert_entry_sorted x l :
  StronglySorted key_le l → StronglySorted key_le (insert_entry x l).
Proof.
  induction 1 as [|y l Hl IH Hy]; simpl; [by repeat constructor|].
  destruct (str_leb x.1 y.1) eqn:Hxy.
  - constructor; [by constructor|]. constructor; [done|].
    eapply Forall_impl; [exact Hy|]. intros z Hz. by eapply str_leb_trans.
  - constructor; [done|]. rewrite insert_entry_perm. constructor; [|done].
    unfold key_le. destruct (str_leb_total x.1 y.1); congruence.
Qed.

Lemma sort_ring_sorted l : StronglySorted key_le (sort_ring l).
Proof. induction l; simpl; [constructor|]. by apply insert_entry_sorted. Qed.

(** The index of a relay that is reused is the index that would be computed. *)
Lemma reuse_sound p prev ed idx :
  (∀ nd, prev = Some nd → netdir_ok nd) →
  reuse_index_values p prev !! ed = Some idx → idx = relay_hsdir_index sha3_256 ed p.
Proof.
  intros Hprev. unfold reuse_index_values. destruct prev as [nd|]; [|simpl; by rewrite lookup_empty].
  specialize (Hprev nd eq_refl). simpl.
  destruct (head _) as [r|] eqn:Hr; simpl; [|by rewrite lookup_empty].
  apply head_Some_elem_of, list_elem_of_filter in Hr as [Hp Hin].
  pose proof (ok_rings _ Hprev) as Hrings. rewrite Forall_forall in Hrings.
  destruct (Hrings r Hin) as [Hes _]. rewrite Hp in Hes.
  assert (Hinv : ∀ l m, Forall (entry_ok nd p) l →
    (∀ ed idx, m !! ed = Some idx → idx = relay_hsdir_index sha3_256 ed p) →
    ∀ ed idx, foldl (λ (m : gmap (list Z) (list Z)) '(hsdir_index, rsidx),
                      match md_by_rsidx nd rsidx with
                      | Some md => <[md_ed25519_id md := hsdir_index]> m
                      | None => m
                      end) m l !! ed = Some idx → idx = relay_hsdir_index sha3_256 ed p).
  { induction l as [|[i j] l IH]; intros m Hl Hm; simpl; [done|].
    inversion Hl as [|?? (relay & Hrel & _ & Hi) Hl']; subst. apply IH; [done|].
    unfold relay_by_rs_idx in Hrel. unfold md_by_rsidx. simpl in Hrel, Hi.
    destruct (c_relays nd !! j) as [rs|]; [|done]. destruct (mds nd !! j) as [[md|]|]; [|done..].
    simpl in Hrel |- *. intros ed' idx'. rewrite lookup_insert_Some.
    unfold into_relay, is_usable in Hrel. simpl in Hrel. case_match; [|done]. simplify_eq/=.
    intros [[<- <-]|[_ ?]]; [done|by apply Hm]. }
  apply (Hinv (ring r) ∅ Hes). intros ??. by rewrite lookup_empty.
Qed.

Lemma ring_compute_spec {E} p nd prev :
  (∀ nd, prev = Some nd → netdir_ok nd) →
  ring_compute sha3_256 (E:=E) p nd prev =
    (hsdirs ← all_hsdirs nd;
     Ok (mkRing p (sort_ring
       (map (λ '(rsidx, relay), (relay_hsdir_index sha3_256 (md_ed25519_id (r_md relay)) p, rsidx))
          hsdirs)))).
Proof.
  intros Hprev. unfold ring_compute. destruct (all_hsdirs nd) as [hs| |]; simpl; [|done..].
  do 3 f_equal. apply map_ext. intros [i r].
  destruct (reuse_index_values p prev !! _) eqn:Hr; [|done]. simpl.
  f_equal. by eapply reuse_sound.
Qed.

Lemma ring_compute_ok {E} p nd prev :
  netdir_ok nd → (∀ nd, prev = Some nd → netdir_ok nd) →
  ∃ r, ring_compute sha3_256 (E:=E) p nd prev = Ok r ∧ ring_params r = p ∧ ring_ok nd r.
Proof.
  intros Hok Hprev. rewrite ring_compute_spec by done.
  destruct (all_hsdirs_ok (E:=E) nd Hok) as (hs & -> & Hin). simpl. eexists. split; [done|]. split; [done|]. split.
  - cbn [ring ring_params]. rewrite sort_ring_perm. apply Forall_map, Forall_forall. intros [i r] Hir. simpl.
    apply Hin in Hir as [Hr Hf]. by exists r.
  - apply sort_ring_sorted.
Qed.

Lemma index_by_spec key i l m d j :
  index_by key i l m !! d = Some j →
  m !! d = Some j ∨ ((i ≤ j)%nat ∧ ∃ rs, l !! (j - i)%nat = Some rs ∧ key rs = d).
Proof.
  revert i m. induction l as [|rs l IH]; intros i m; simpl; [by left|].
  intros [Hm|(Hij & rs' & Hl & Hk)]%IH.
  - apply lookup_insert_Some in Hm as [[<- <-]|[_ ?]]; [|by left]. right. split; [done|].
    exists rs. by rewrite Nat.sub_diag.
  - right. split; [lia|]. exists rs'. split; [|done].
    by replace (j - i)%nat with (S (j - S i)) by lia.
Qed.

Lemma index_by_lookup key l d j :
  index_by key 0 l ∅ !! d = Some j → ∃ rs, l !! j = Some rs ∧ key rs = d.
Proof.
  intros [He|(_ & Hj)]%index_by_spec; [by rewrite lookup_empty in He|].
  by rewrite Nat.sub_0_r in Hj.
Qed.

(** ** Every operation keeps the directory well formed *)

Lemma new_inner_ok c relays p pnd :
  new_inner sha3_256 start_of_day c relays p = Ok pnd →
  netdir_ok (pnd_netdir pnd) ∧ prev_netdir pnd = None.
Proof.
  unfold new_inner. intros H. apply bind_ok in H as (params & _ & H). ok_inv. split; [|done].
  constructor; simpl.
  - by rewrite length_replicate.
  - intros i md H. apply lookup_replicate in H as [? _]. done.
  - intros d i (rs & Hrs & Hd)%index_by_lookup. split; [|by exists rs].
    apply lookup_replicate_2. by eapply lookup_lt_Some.
  - intros e i. by rewrite lookup_empty.
  - intros i md H. apply lookup_replicate in H as [? _]. done.
  - intros r i. apply index_by_lookup.
  - repeat constructor. apply Forall_map, Forall_true. by repeat constructor.
Qed.

Lemma relay_by_rs_idx_add nd i md j r :
  mds nd !! i = Some None → relay_by_rs_idx nd j = Some r →
  ∀ nd', c_relays nd' = c_relays nd → mds nd' = <[i := Some md]> (mds nd) →
  relay_by_rs_idx nd' j = Some r.
Proof.
  intros Hi Hr nd' Hc Hm. unfold relay_by_rs_idx in *. rewrite Hc, Hm.
  destruct (decide (i = j)) as [<-|Hne]; [|by rewrite list_lookup_insert_ne].
  rewrite Hi in Hr. by destruct (c_relays nd !! i).
Qed.

(** The assertions of [add_arc_microdesc] hold. *)
Lemma add_arc_microdesc_ok {E} nd md :
  netdir_ok nd → ∃ nd' b, add_arc_microdesc (E:=E) nd md = Ok (nd', b) ∧ netdir_ok nd'.
Proof.
  intros Hok. unfold add_arc_microdesc.
  destruct (rsidx_by_missing nd !! md_digest md) as [i|] eqn:Hi; [|by eexists _, _].
  destruct (ok_missing _ Hok _ _ Hi) as (Hmd & rs & Hrs & Hd).
  rewrite Hrs. simpl. rewrite bool_decide_eq_true_2, Hmd by done. simpl.
  eexists _, _. split; [done|]. pose proof (lookup_lt_Some _ _ _ Hmd) as Hlt.
  constructor; simpl.
  - rewrite length_insert. apply (ok_len _ Hok).
  - intros j md' Hj. destruct (decide (i = j)) as [<-|Hne].
    + rewrite list_lookup_insert_eq in Hj by done. simplify_eq. by exists rs.
    + rewrite list_lookup_insert_ne in Hj by done. by apply (ok_md _ Hok).
  - intros d j [Hdj Hj]%lookup_delete_Some. destruct (ok_missing _ Hok _ _ Hj) as (Hm & rs' & Hrs' & Hd').
    destruct (decide (i = j)) as [<-|Hne]; [congruence|]. rewrite list_lookup_insert_ne by done. eauto.
  - intros e j [[<- <-]|[Hne Hj]]%lookup_insert_Some.
    + exists md. by rewrite list_lookup_insert_eq.
    + destruct (ok_ed _ Hok _ _ Hj) as (md' & Hm & He). exists md'. split; [|done].
      rewrite list_lookup_insert_ne; [done|]. intros <-. by rewrite Hmd in Hm.
  - intros j md' Hj. rewrite lookup_insert_is_Some. destruct (decide (i = j)) as [<-|Hne].
    + rewrite list_lookup_insert_eq in Hj by done. simplify_eq. by left.
    + rewrite list_lookup_insert_ne in Hj by done. apply (ok_ed_known _ Hok) in Hj.
      destruct (decide (md_ed25519_id md = md_ed25519_id md')); auto.
  - apply (ok_rsa _ Hok).
  - eapply Forall_impl; [apply (ok_rings _ Hok)|]. intros r [He Hs]. split; [|done].
    eapply Forall_impl; [exact He|]. intros e (relay & Hr & Hf & Hx). exists relay.
    split_and!; [|done..]. by eapply relay_by_rs_idx_add.
Qed.

Lemma add_microdescs_ok {E} nd l :
  netdir_ok nd → ∃ nd', add_microdescs (E:=E) nd l = Ok nd' ∧ netdir_ok nd'.
Proof.
  revert nd. induction l as [|md l IH]; intros nd Hok; simpl; [by exists nd|].
  destruct (add_arc_microdesc_ok (E:=E) nd md Hok) as (nd' & b & -> & Hok'). simpl. by apply IH.
Qed.

Lemma map_rings_ok {E} (f : HsDirParams → res E HsDirRing) (P : HsDirRing → Prop) l :
  (∀ p, ∃ r, f p = Ok r ∧ P r) → ∃ rs, map_rings f l = Ok rs ∧ Forall P rs.
Proof.
  intros Hf. induction l as [|p l (rs & IH & Hrs)]; simpl; [by exists []|].
  destruct (Hf p) as (r & -> & Hr). rewrite IH. simpl. exists (r :: rs). by repeat constructor.
Qed.

Lemma set_rings_ok nd rings :
  netdir_ok nd → Forall (ring_ok nd) (hsdirs_iter rings) → netdir_ok (set_rings nd rings).
Proof.
  intros [] Hr. by constructor.
Qed.

Lemma compute_rings_ok pnd pnd' :
  netdir_ok (pnd_netdir pnd) → (∀ nd, prev_netdir pnd = Some nd → netdir_ok nd) →
  compute_rings sha3_256 start_of_day pnd = Ok pnd' → netdir_ok (pnd_netdir pnd').
Proof.
  intros Hok Hprev. unfold compute_rings. intros H. apply bind_ok in H as (params & _ & H).
  destruct (ring_compute_ok (E:=Bug) (current params) _ _ Hok Hprev) as (cur & Hc & _ & Hcur).
  destruct (map_rings_ok (λ q, ring_compute sha3_256 (E:=Bug) q (pnd_netdir pnd) (prev_netdir pnd))
    (ring_ok (pnd_netdir pnd)) (secondary params)) as (sec & Hs & Hsec).
  { intros q. destruct (ring_compute_ok (E:=Bug) q _ _ Hok Hprev) as (r & ? & _ & ?). by exists r. }
  rewrite Hc, ok_bind, Hs, ok_bind in H. ok_inv. simpl. apply set_rings_ok; [done|].
  by constructor.
Qed.

(** The life of a directory: a partial one is made from a consensus, takes microdescriptors,
    also from the directory before it, and becomes a full one when it has enough; a full one
    takes more microdescriptors and new parameters. *)
Inductive built : NetDir + PartialNetDir → Prop :=
| built_new c relays p pnd :
    new_inner sha3_256 start_of_day c relays p = Ok pnd → built (inr pnd)
| built_fill pnd prev pnd' :
    built (inr pnd) → built (inl prev) →
    fill_from_previous_netdir (E:=Bug) pnd prev = Ok pnd' → built (inr pnd')
| built_add_partial pnd md nd b :
    built (inr pnd) → add_arc_microdesc (E:=Bug) (pnd_netdir pnd) md = Ok (nd, b) →
    built (inr (mkPartial nd (prev_netdir pnd)))
| built_unwrap pnd enough d :
    built (inr pnd) → unwrap_if_sufficient sha3_256 start_of_day enough pnd = Ok d → built d
| built_add nd md nd' b :
    built (inl nd) → add_arc_microdesc (E:=Bug) nd md = Ok (nd', b) → built (inl nd')
| built_replace nd p : built (inl nd) → built (inl (replace_overridden_parameters nd p)).

Definition dir_ok (d : NetDir + PartialNetDir) : Prop :=
  match d with
  | inl nd => netdir_ok nd
  | inr pnd => netdir_ok (pnd_netdir pnd) ∧ ∀ nd, prev_netdir pnd = Some nd → netdir_ok nd
  end.

Lemma add_arc_keeps {E} nd md nd' b :
  netdir_ok nd → add_arc_microdesc (E:=E) nd md = Ok (nd', b) → netdir_ok nd'.
Proof.
  intros Hok H. destruct (add_arc_microdesc_ok (E:=E) nd md Hok) as (? & ? & H' & ?).
  rewrite H in H'. by simplify_eq.
Qed.

Lemma built_dir_ok d : built d → dir_ok d.
Proof.
  induction 1 as [c relays p pnd H|pnd prev pnd' _ [Hok _] _ Hprev H|pnd md nd b _ [Hok Hp] H
    |pnd enough d _ [Hok Hp] H|nd md nd' b _ Hok H|nd p _ Hok]; simpl in *.
  - apply new_inner_ok in H as [? ->]. done.
  - unfold fill_from_previous_netdir in H.
    destruct (add_microdescs_ok (E:=Bug) (pnd_netdir pnd) (omap id (mds prev)) Hok) as (nd & Hnd & ?).
    rewrite Hnd, ok_bind in H. ok_inv. simpl. naive_solver.
  - split; [|done]. by eapply add_arc_keeps.
  - unfold unwrap_if_sufficient in H. destruct (enough _); ok_inv; [|done].
    by eapply compute_rings_ok.
  - by eapply add_arc_keeps.
  - destruct Hok. by constructor.
Qed.

Lemma into_relay_inv rs md r :
  into_relay (mkUnchecked rs md) = Some r →
  md = Some (r_md r) ∧ rs = r_rs r ∧ ed25519_id_is_usable rs = true.
Proof.
  unfold into_relay, is_usable. simpl. destruct md as [md|]; [|done]. case_match; [|done].
  by intros [= <-].
Qed.

Lemma into_relay_at nd i rs md r :
  c_relays nd !! i = Some rs → mds nd !! i = Some md → into_relay (mkUnchecked rs md) = Some r →
  relay_by_rs_idx nd i = Some r.
Proof. intros Hrs Hmd Hr. unfold relay_by_rs_idx. rewrite Hrs, Hmd. done. Qed.

Lemma by_rsa_unchecked_ok {E} nd rsa :
  netdir_ok nd →
  by_rsa_id_unchecked (E:=E) nd rsa = Ok None ∨
  ∃ i rs md, by_rsa_id_unchecked (E:=E) nd rsa = Ok (Some (mkUnchecked rs md)) ∧
    c_relays nd !! i = Some rs ∧ mds nd !! i = Some md ∧ rs_rsa_identity rs = rsa.
Proof.
  intros Hok. unfold by_rsa_id_unchecked.
  destruct (rsidx_by_rsa nd !! rsa) as [i|] eqn:Hi; [|by left]. right.
  destruct (ok_rsa _ Hok _ _ Hi) as (rs & Hrs & Hrsa).
  destruct (relay_from_ok (E:=E) nd i rs Hok Hrs) as (md & Hmd & Hr).
  exists i, rs, md. rewrite Hrs. simpl. rewrite bool_decide_eq_true_2, Hr by done. done.
Qed.

(** A lookup finds a usable relay with the identity, or nothing. *)
Lemma by_id_ok {E} nd id :
  netdir_ok nd →
  ∃ o, by_id (E:=E) nd id = Ok o ∧
    ∀ r, o = Some r → has_identity (relay_ids r) id = true ∧ ∃ i, relay_by_rs_idx nd i = Some r.
Proof.
  intros Hok. unfold by_id. destruct id as [ed|rsa].
  - destruct (rsidx_by_ed nd !! ed) as [i|] eqn:Hi; [|by exists None].
    destruct (ok_ed _ Hok _ _ Hi) as (md & Hmd & Hed).
    destruct (ok_md _ Hok _ _ Hmd) as (rs & Hrs & _).
    destruct (relay_from_ok (E:=E) nd i rs Hok Hrs) as (md' & Hmd' & Hr).
    rewrite Hrs. simpl. rewrite Hr. simpl. simplify_eq.
    destruct (into_relay _) as [r|] eqn:Hinto; [|by exists None].
    assert (Hid : has_identity (relay_ids r) (IdEd25519 (md_ed25519_id md)) = true).
    { apply into_relay_inv in Hinto as ([= ->] & _ & _). by apply bool_decide_eq_true_2. }
    rewrite Hid. simpl. exists (Some r). split; [done|]. intros r' [= <-]. split; [done|].
    exists i. by eapply into_relay_at.
  - destruct (by_rsa_unchecked_ok (E:=E) nd rsa Hok) as [->|(i & rs & md & -> & Hrs & Hmd & Hrsa)];
      [by exists None|]. simpl.
    destruct (into_relay _) as [r|] eqn:Hinto; [|by exists None].
    assert (Hid : has_identity (relay_ids r) (IdRsa rsa) = true).
    { apply into_relay_inv in Hinto as (_ & -> & _). apply bool_decide_eq_true_2. by subst. }
    rewrite Hid. simpl. exists (Some r). split; [done|]. intros r' [= <-]. split; [done|].
    exists i. by eapply into_relay_at.
Qed.

(** C18: every directory that the code builds is well formed, full or partial: its maps point
    at the entries they are for, and its rings hold usable directories at the index of their
    identity.  On such a directory no assertion fails: a microdescriptor is taken or not wanted,
    and a lookup gives a usable relay of the consensus that has the identity, or none. *)
Theorem netdir_invariant d :
  built d →
  dir_ok d ∧
  ∀ nd, d = inl nd ∨ (∃ prev, d = inr (mkPartial nd prev)) →
    (∀ md, ∃ nd' b, add_arc_microdesc (E:=Bug) nd md = Ok (nd', b)) ∧
    (∀ id, ∃ o, by_id (E:=Bug) nd id = Ok o ∧
       ∀ r, o = Some r →
            has_identity (relay_ids r) id = true ∧ ∃ i, relay_by_rs_idx nd i = Some r).
Proof.
  intros Hd%built_dir_ok. split; [done|]. intros nd Hnd.
  assert (netdir_ok nd) by (destruct Hnd as [->|[prev ->]]; [done|by destruct Hd]). split.
  - intros md. destruct (add_arc_microdesc_ok (E:=Bug) nd md) as (nd' & b & ? & _); [done|eauto].
  - intros id. by apply by_id_ok.
Qed.

(** C19: taking over the indexes of a ring of the previous directory, as [HsDirRing::compute]
    does, gives the ring that hashing every identity gives. *)
Theorem ring_reuse_equiv {E} p nd prev :
  built (inl prev) →
  ring_compute sha3_256 (E:=E) p nd (Some prev) = ring_compute sha3_256 p nd None.
Proof.
  intros Hprev%built_dir_ok. rewrite !ring_compute_spec; [done|done|].
  intros nd' [= <-]. apply Hprev.
Qed.
End invariant.

(** A directory of three relays, two of which are onion service directories. *)
Definition example_hash (l : list Z) : list Z := take 4 (drop 8 l).
Definition example_start_of_day (t : Z) : Z := t / ONE_DAY * ONE_DAY.
Definition example_relays : list MdRouterStatus :=
  [mkRs [1] [101] true false; mkRs [2] [102] false false; mkRs [3] [103] true false].
Definition example_mds : list Microdesc := [mkMd [103] [23]; mkMd [101] [21]; mkMd [102] [22]].
Definition example_params : NetParams := mkNetParams 1440 2 1 2.

Definition example_dir (c : Consensus) (prev : option NetDir) : res Bug NetDir :=
  pnd ← new_inner example_hash example_start_of_day c example_relays example_params;
  pnd ← match prev with Some prev => fill_from_previous_netdir pnd prev | None => Ok pnd end;
  nd ← add_microdescs (pnd_netdir pnd) example_mds;
  d ← unwrap_if_sufficient example_hash example_start_of_day (λ nd, (n_missing nd =? 0)%nat)
        (mkPartial nd (prev_netdir pnd));
  match d with inl nd => Ok nd | inr _ => Panic end.

Lemma add_microdescs_built sha sod pnd l nd :
  built sha sod (inr pnd) → add_microdescs (E:=Bug) (pnd_netdir pnd) l = Ok nd →
  built sha sod (inr (mkPartial nd (prev_netdir pnd))).
Proof.
  revert pnd. induction l as [|md l IH]; intros pnd Hp; simpl.
  - intros [= <-]. by destruct pnd.
  - intros H. apply bind_ok in H as ([nd1 b] & H1 & H).
    apply (IH (mkPartial nd1 (prev_netdir pnd))); [|done]. by eapply built_add_partial.
Qed.

Lemma example_dir_built c prev nd :
  (∀ p, prev = Some p → built example_hash example_start_of_day (inl p)) →
  example_dir c prev = Ok nd → built example_hash example_start_of_day (inl nd).
Proof.
  intros Hprev H. unfold example_dir in H. apply bind_ok in H as (pnd & H1 & H).
  apply bind_ok in H as (pnd' & H2 & H). apply bind_ok in H as (nd' & H3 & H).
  apply bind_ok in H as (d & H4 & H).
  assert (Hb : built example_hash example_start_of_day (inr pnd')).
  { destruct prev as [p|]; ok_inv.
    - eapply built_fill; [by eapply built_new|by apply Hprev|done].
    - by eapply built_new. }
  apply (add_microdescs_built _ _ _ _ _ Hb) in H3.
  eapply built_unwrap in H4; [|exact H3]. destruct d; ok_inv. done.
Qed.

Definition example_netdir : NetDir :=
  match example_dir (example_consensus 405707) None with
  | Ok nd => nd
  | _ => mkNetDir (example_consensus 0) [] example_params [] ∅ ∅ ∅
           (mkHsDirs (mkRing (mkHsDirParams (mkTimePeriod 0 0 0) [] (0, 0)) []) [])
  end.

Lemma example_netdir_built : built example_hash example_start_of_day (inl example_netdir).
Proof.
  apply (example_dir_built (example_consensus 405707) None); [done|]. vm_compute. reflexivity.
Qed.

Lemma netdir_invariant_witness :
  ∃ o, by_id (E:=Bug) example_netdir (IdEd25519 [23]) = Ok o ∧
    ∀ r, o = Some r → has_identity (relay_ids r) (IdEd25519 [23]) = true ∧
                      ∃ i, relay_by_rs_idx example_netdir i = Some r.
Proof.
  destruct (netdir_invariant example_hash example_start_of_day (inl example_netdir)
    example_netdir_built) as [_ H].
  destruct (H example_netdir (or_introl eq_refl)) as [_ Hid]. apply Hid.
Defined.

(** A later consensus in the same period: every index of the current ring is reused. *)
Definition example_next : HsDirParams := ring_params (current (hsdir_rings example_netdir)).

Lemma ring_reuse_equiv_witness :
  ring_compute example_hash (E:=Bug) example_next example_netdir (Some example_netdir) =
    ring_compute example_hash example_next example_netdir None ∧
  size (reuse_index_values example_next (Some example_netdir)) = 2%nat.
Proof.
  split; [|vm_compute; reflexivity].
  apply (ring_reuse_equiv example_hash example_start_of_day), example_netdir_built.
Defined.
