(* ===== verification/HsDirAgree.v ===== *)
(** * HsDirAgree: the directories of a client and of a service

    How many directories [select_hsdirs] of [tor-netdir/src/lib.rs] chooses, and that a client
    asks only directories to which the service uploads, when both have a ring with the same
    parameters and relays. *)

From stdpp Require Import sorting.
From S2P Require Import Prelude Text ChanHandshake HsTime NetDir.

(** ** Taking new entries *)

Definition keys (l : list (list Z * nat)) : list (list Z) := map fst l.
Definition key_set (l : list (list Z * nat)) : gset (list Z) := list_to_set (keys l).

(** The entries whose key is not selected. *)
Definition fresh (selected : gset (list Z)) (l : list (list Z * nat)) : list (list Z * nat) :=
  filter (λ e, e.1 ∉ selected) l.

Lemma take_new_selected spread selected l :
  (take_new spread selected l).2 = key_set (take_new spread selected l).1 ∪ selected.
Proof.
  revert spread selected. induction l as [|x l IH]; intros [|spread] selected;
    unfold key_set, keys; simpl; [set_solver..|].
  destruct (decide (x.1 ∈ selected)); [apply (IH (S spread))|].
  specialize (IH spread ({[x.1]} ∪ selected)). destruct (take_new spread _ l) as [out sel].
  simpl in *. rewrite IH. unfold key_set, keys. set_solver.
Qed.

(** More spread, or more selected before, and no key is lost. *)
Lemma take_new_mono spread spread' selected selected' l l' :
  (spread ≤ spread')%nat → selected ⊆ selected' → keys l = keys l' →
  (take_new spread selected l).2 ⊆ (take_new spread' selected' l').2.
Proof.
  revert l' spread spread' selected selected'. induction l as [|x l IH];
    intros [|y l'] spread spread' selected selected' Hs Hsel Hk; try done.
  { by destruct spread, spread'. }
  injection Hk as Hxy Hk. destruct spread as [|spread].
  { change ((take_new 0 selected (x :: l)).2) with selected. rewrite take_new_selected. set_solver. }
  destruct spread' as [|spread']; [lia|]. cbn [take_new]. rewrite <-Hxy.
  destruct (decide (x.1 ∈ selected)) as [Hx|Hx], (decide (x.1 ∈ selected')) as [Hx'|Hx'].
  - by apply IH.
  - by destruct Hx'; apply Hsel.
  - specialize (IH l' spread (S spread') ({[x.1]} ∪ selected) selected').
    destruct (take_new spread _ l) as [out sel]. apply IH; [lia|set_solver|done].
  - specialize (IH l' spread spread' ({[x.1]} ∪ selected) ({[x.1]} ∪ selected')).
    destruct (take_new spread _ l) as [out sel], (take_new spread' _ l') as [out' sel'].
    apply IH; [lia|set_solver|done].
Qed.

Lemma take_new_sub spread selected l e : e ∈ (take_new spread selected l).1 → e ∈ l.
Proof.
  revert spread selected. induction l as [|x l IH]; intros [|spread] selected; simpl;
    [by intros ?%elem_of_nil..|].
  destruct (decide (x.1 ∈ selected)); [intros ?%IH; by right|].
  specialize (IH spread ({[x.1]} ∪ selected)). destruct (take_new spread _ l) as [out sel].
  simpl in *. rewrite !elem_of_cons. naive_solver.
Qed.

Lemma fresh_add_ne x selected l :
  x ∉ keys l → fresh ({[x]} ∪ selected) l = fresh selected l.
Proof.
  unfold fresh, keys. induction l as [|e l IH]; simpl; [done|].
  rewrite not_elem_of_cons. intros [Hx Hl]. rewrite !filter_cons, IH by done.
  repeat case_decide; set_solver.
Qed.

(** Without equal keys, the first fresh entries are taken and the others stay fresh. *)
Lemma take_new_fresh spread selected l :
  NoDup (keys l) →
  (take_new spread selected l).1 = take spread (fresh selected l) ∧
  fresh (take_new spread selected l).2 l = drop spread (fresh selected l).
Proof.
  revert spread selected. induction l as [|x l IH]; intros spread selected Hl.
  { by destruct spread. }
  inversion Hl as [|?? Hx Hl']; subst.
  destruct spread as [|spread]; [by rewrite take_0, drop_0|]. cbn [take_new].
  destruct (decide (x.1 ∈ selected)) as [Hin|Hin].
  - destruct (IH (S spread) selected Hl') as [-> H2].
    assert (Hsub : x.1 ∈ (take_new (S spread) selected l).2).
    { rewrite take_new_selected. set_solver. }
    unfold fresh in *. rewrite !filter_cons_False by naive_solver. done.
  - destruct (IH spread ({[x.1]} ∪ selected) Hl') as [H1 H2].
    rewrite fresh_add_ne in H1, H2 by done. pose proof (take_new_selected spread ({[x.1]} ∪ selected) l) as H3.
    destruct (take_new spread _ l) as [out sel]. simpl in *.
    unfold fresh in *. rewrite (filter_cons_False (λ e, e.1 ∉ sel) x) by (intros Hn; apply Hn; rewrite H3; set_solver).
    rewrite (filter_cons_True (λ e, e.1 ∉ selected)) by done. simpl. by rewrite H1, H2.
Qed.

Lemma fresh_perm selected l l' : l ≡ₚ l' → length (fresh selected l) = length (fresh selected l').
Proof. intros Hp. unfold fresh. by rewrite Hp. Qed.

Section select.
Variable sha3_256 : list Z → list Z.

Lemma ring_from_perm r idx : ring_from r idx ≡ₚ ring r.
Proof. unfold ring_from. rewrite Permutation_app_comm. by rewrite take_drop. Qed.

Lemma ring_from_keys r r' idx : keys (ring r) = keys (ring r') → keys (ring_from r idx) = keys (ring_from r' idx).
Proof.
  intros Hk. assert (Hpos : find_pos r idx = find_pos r' idx).
  { assert (Hf : ∀ l : list (list Z * nat), length (filter (λ e, str_leb idx e.1 = false) l) =
                 length (filter (λ k, str_leb idx k = false) (keys l))).
    { induction l as [|e l IH]; simpl; [done|]. rewrite !filter_cons. repeat case_decide; simpl; lia || done. }
    unfold find_pos. by rewrite !Hf, Hk. }
  unfold ring_from, keys in *. rewrite !map_app, <-!firstn_map, <-!skipn_map, Hpos, Hk. done.
Qed.

(** The keys that are chosen, with those that were selected before. *)
Definition chosen (hsid : list Z) (r : HsDirRing) (spread : nat) (replicas : list Z)
    (selected : gset (list Z)) : gset (list Z) :=
  key_set (select_replicas sha3_256 hsid r spread replicas selected) ∪ selected.

Lemma chosen_cons hsid r spread replica replicas selected :
  chosen hsid r spread (replica :: replicas) selected =
    chosen hsid r spread replicas
      (take_new spread selected (ring_from r (service_hsdir_index sha3_256 hsid replica (ring_params r)))).2.
Proof.
  unfold chosen. cbn [select_replicas]. unfold ring_items_at.
  pose proof (take_new_selected spread selected
    (ring_from r (service_hsdir_index sha3_256 hsid replica (ring_params r)))) as Hsel.
  destruct (take_new spread selected _) as [items sel]. simpl in *.
  unfold key_set, keys in *. rewrite map_app, list_to_set_app_L, Hsel. set_solver.
Qed.

(** A larger spread chooses every key that a smaller one does, also when nodes that were chosen
    for a lower replica are skipped. *)
Lemma chosen_mono hsid r r' spread spread' replicas selected selected' :
  (spread ≤ spread')%nat → selected ⊆ selected' → keys (ring r) = keys (ring r') →
  ring_params r = ring_params r' →
  chosen hsid r spread replicas selected ⊆ chosen hsid r' spread' replicas selected'.
Proof.
  intros Hs Hsel Hk Hp. revert selected selected' Hsel.
  induction replicas as [|replica replicas IH]; intros selected selected' Hsel.
  { unfold chosen. simpl. unfold key_set. simpl. set_solver. }
  rewrite !chosen_cons. apply IH. rewrite Hp. apply take_new_mono; [done..|]. by apply ring_from_keys.
Qed.

Lemma select_replicas_sub hsid r spread replicas selected e :
  e ∈ select_replicas sha3_256 hsid r spread replicas selected → e ∈ ring r.
Proof.
  revert selected. induction replicas as [|replica replicas IH]; intros selected;
    [by intros ?%elem_of_nil|]. cbn [select_replicas]. unfold ring_items_at.
  pose proof (take_new_sub spread selected
    (ring_from r (service_hsdir_index sha3_256 hsid replica (ring_params r))) e) as Hsub.
  destruct (take_new spread selected _) as [items sel]. rewrite ring_from_perm in Hsub.
  simpl in Hsub. rewrite elem_of_app. naive_solver.
Qed.

(** Every replica adds [spread] entries until the ring is used up. *)
Lemma select_replicas_length hsid r spread replicas selected :
  NoDup (keys (ring r)) →
  length (select_replicas sha3_256 hsid r spread replicas selected) =
    Nat.min (length replicas * spread) (length (fresh selected (ring r))).
Proof.
  intros Hnd. revert selected. induction replicas as [|replica replicas IH]; intros selected; [done|].
  cbn [select_replicas]. unfold ring_items_at.
  set (l := ring_from r (service_hsdir_index sha3_256 hsid replica (ring_params r))).
  assert (Hl : l ≡ₚ ring r) by apply ring_from_perm.
  destruct (take_new_fresh spread selected l) as [H1 H2].
  { unfold keys. by rewrite Hl. }
  destruct (take_new spread selected l) as [items sel]. simpl in H1, H2.
  rewrite length_app, IH, H1, <-(fresh_perm _ _ _ Hl), H2, length_take, length_drop.
  rewrite <-(fresh_perm selected _ _ Hl). simpl. lia.
Qed.

(** ** Rings of two directories *)

(** The identities of the relays on a ring. *)
Definition ring_ids (nd : NetDir) (r : HsDirRing) : list (list Z) :=
  omap (λ e, md_ed25519_id <$> md_by_rsidx nd e.2) (ring r).

Lemma relay_at_md nd i r : relay_by_rs_idx nd i = Some r → md_by_rsidx nd i = Some (r_md r).
Proof.
  unfold relay_by_rs_idx, md_by_rsidx. destruct (c_relays nd !! i) as [rs|]; [|done].
  destruct (mds nd !! i) as [md|]; [|done]. simpl. intros Hr. by apply into_relay_inv in Hr as [-> _].
Qed.

Lemma ring_keys nd r :
  ring_ok sha3_256 nd r →
  keys (ring r) = map (λ ed, relay_hsdir_index sha3_256 ed (ring_params r)) (ring_ids nd r).
Proof.
  intros [Hr _]. unfold ring_ids. induction Hr as [|e l (relay & Hrel & _ & He) _ IH]; [done|].
  simpl. rewrite (relay_at_md _ _ _ Hrel). simpl. by rewrite He, IH.
Qed.

#[local] Instance str_le_antisymm : AntiSymm (=) (λ a b, str_leb a b = true).
Proof. intros a b. apply str_leb_antisym. Qed.

Lemma keys_sorted l : StronglySorted key_le l → StronglySorted (λ a b, str_leb a b = true) (keys l).
Proof.
  induction 1 as [|e l _ IH He]; simpl; constructor; [done|]. by apply Forall_map.
Qed.

(** A ring is determined by its parameters and the relays on it. *)
Lemma same_keys nd nd' r r' :
  ring_ok sha3_256 nd r → ring_ok sha3_256 nd' r' → ring_params r = ring_params r' →
  ring_ids nd r ≡ₚ ring_ids nd' r' → keys (ring r) = keys (ring r').
Proof.
  intros Hr Hr' Hp Hids. apply (StronglySorted_unique (λ a b, str_leb a b = true)).
  - apply keys_sorted, Hr.
  - apply keys_sorted, Hr'.
  - rewrite (ring_keys nd r Hr), (ring_keys nd' r' Hr'), Hp. by rewrite Hids.
Qed.

(** The choice never fails to find a relay. *)
Lemma select_hsdirs_ok nd hsid r spread n :
  ring_ok sha3_256 nd r → n_replicas nd = Ok n →
  let es := select_replicas sha3_256 hsid r spread (seqZ 1 n) ∅ in
  ∃ l, select_hsdirs sha3_256 nd hsid r spread = Ok l ∧ length l = length es ∧
    ∀ x, x ∈ l ↔ ∃ e, e ∈ es ∧ relay_by_rs_idx nd e.2 = Some x.
Proof.
  intros [Hr _] Hn es. unfold select_hsdirs. rewrite Hn, ok_bind. fold es. eexists. split; [done|].
  assert (Hes : Forall (entry_ok sha3_256 nd (ring_params r)) es).
  { apply Forall_forall. intros e He%select_replicas_sub. by eapply Forall_forall in Hr. }
  split.
  - clearbody es. induction Hes as [|e l (relay & Hrel & _) _ IH]; [done|].
    simpl. rewrite Hrel. simpl. f_equal. exact IH.
  - intros x. rewrite list_elem_of_omap. naive_solver.
Qed.

Lemma upload_to_ok nd hsid period spread n rings :
  Forall (ring_ok sha3_256 nd) rings →
  Forall (λ r, hp_time_period (ring_params r) = period) rings → n_replicas nd = Ok n →
  ∃ u, upload_to sha3_256 nd hsid period spread rings = Ok u ∧
    ∀ r l, r ∈ rings → select_hsdirs sha3_256 nd hsid r spread = Ok l → l ⊆ u.
Proof.
  intros Hok Hp Hn. induction rings as [|r rings IH]; simpl.
  { exists []. split; [done|]. by intros r l ?%elem_of_nil. }
  inversion Hok; subst. inversion Hp as [|?? Hpr]; subst.
  rewrite bool_decide_eq_true_2 by done. simpl.
  destruct (select_hsdirs_ok nd hsid r spread n) as (l & Hl & _); [done..|]. rewrite Hl. simpl.
  destruct IH as (u & Hu & Hin); [done..|]. rewrite Hu. simpl. exists (l ++ u). split; [done|].
  intros r' l' [->|Hr']%elem_of_cons Hl'.
  - rewrite Hl in Hl'. injection Hl' as <-. set_solver.
  - specialize (Hin r' l' Hr' Hl'). set_solver.
Qed.

(** The upload covers every ring of the period. *)
Lemma hs_dirs_upload_ok nd hsid period spread n r l :
  netdir_ok sha3_256 nd → r ∈ hsdirs_iter (hsdir_rings nd) →
  hp_time_period (ring_params r) = period → nd_spread nd Upload = Ok spread →
  n_replicas nd = Ok n → select_hsdirs sha3_256 nd hsid r spread = Ok l →
  ∃ u, hs_dirs_upload sha3_256 nd hsid period = Ok u ∧ l ⊆ u.
Proof.
  intros Hok Hr Hp Hs Hn Hl. unfold hs_dirs_upload. rewrite Hs, ok_bind.
  set (rings := filter _ _).
  assert (Hin : r ∈ rings) by by apply list_elem_of_filter.
  destruct (length rings =? 0)%nat eqn:Hlen.
  { apply Nat.eqb_eq, nil_length_inv in Hlen. rewrite Hlen in Hin. by apply elem_of_nil in Hin. }
  destruct (upload_to_ok nd hsid period spread n rings) as (u & Hu & Hsub).
  - apply Forall_forall. intros r' [_ Hr']%list_elem_of_filter.
    pose proof (ok_rings _ _ Hok) as Hrs. rewrite Forall_forall in Hrs. by apply Hrs.
  - apply Forall_forall. by intros r' [? _]%list_elem_of_filter.
  - done.
  - exists u. split; [done|]. by eapply Hsub.
Qed.

(** ** The client finds the service *)

(** No two relays on the ring hash to the same index. *)
Definition collision_free (ids : list (list Z)) (p : HsDirParams) : Prop :=
  NoDup ids ∧
  ∀ e e', e ∈ ids → e' ∈ ids → relay_hsdir_index sha3_256 e p = relay_hsdir_index sha3_256 e' p → e = e'.

Lemma ring_keys_nodup nd r :
  ring_ok sha3_256 nd r → collision_free (ring_ids nd r) (ring_params r) → NoDup (keys (ring r)).
Proof.
  intros Hr [Hnd Hinj]. rewrite (ring_keys nd r Hr). by apply NoDup_fmap_2_strong.
Qed.

(** The spreads and the number of replicas, as their bounds and the consensus have them. *)
Definition params_match (pc ps : NetParams) : Prop :=
  hsdir_n_replicas pc = hsdir_n_replicas ps ∧ 1 ≤ hsdir_n_replicas ps ≤ 16 ∧
  1 ≤ hsdir_spread_fetch pc ≤ hsdir_spread_store ps.

Lemma ring_id_of_entry nd r e relay :
  e ∈ ring r → relay_by_rs_idx nd e.2 = Some relay → md_ed25519_id (r_md relay) ∈ ring_ids nd r.
Proof.
  intros He Hr. apply list_elem_of_omap. exists e. split; [done|].
  by rewrite (relay_at_md _ _ _ Hr).
Qed.

(** Selections from two rings with the same keys. *)
Lemma selections_agree ndc nds rc rs hsid n sc ss lc ls :
  ring_ok sha3_256 ndc rc → ring_ok sha3_256 nds rs → ring_params rs = ring_params rc →
  ring_ids ndc rc ≡ₚ ring_ids nds rs → collision_free (ring_ids ndc rc) (ring_params rc) →
  (sc ≤ ss)%nat → n_replicas ndc = Ok n → n_replicas nds = Ok n →
  select_hsdirs sha3_256 ndc hsid rc sc = Ok lc → select_hsdirs sha3_256 nds hsid rs ss = Ok ls →
  ∀ x, x ∈ lc → ∃ y, y ∈ ls ∧ md_ed25519_id (r_md x) = md_ed25519_id (r_md y).
Proof.
  intros Hrc Hrs Hp Hids [_ Hinj] Hle Hnc Hns Hlc Hls x Hx.
  destruct (select_hsdirs_ok ndc hsid rc sc n Hrc Hnc) as (lc' & Hlc' & _ & Hinc).
  destruct (select_hsdirs_ok nds hsid rs ss n Hrs Hns) as (ls' & Hls' & _ & Hins).
  rewrite Hlc in Hlc'. injection Hlc' as <-. rewrite Hls in Hls'. injection Hls' as <-.
  apply Hinc in Hx as (e & He & Hex).
  pose proof (chosen_mono hsid rc rs sc ss (seqZ 1 n) ∅ ∅ Hle ltac:(done)
    (same_keys ndc nds rc rs Hrc Hrs (eq_sym Hp) Hids) (eq_sym Hp) e.1) as Hmono.
  unfold chosen, key_set, keys in Hmono. rewrite !union_empty_r_L, !elem_of_list_to_set in Hmono.
  destruct (proj1 (list_elem_of_fmap _ _ _) (Hmono (list_elem_of_fmap_2 fst _ _ He))) as (e' & Hk & He').
  pose proof (select_replicas_sub _ _ _ _ _ _ He) as Her.
  pose proof (select_replicas_sub _ _ _ _ _ _ He') as Her'.
  destruct (proj1 (Forall_forall _ _) (proj1 Hrc) e Her) as (x' & Hx' & _ & Hkx).
  destruct (proj1 (Forall_forall _ _) (proj1 Hrs) e' Her') as (y & Hy & _ & Hky).
  rewrite Hex in Hx'. injection Hx' as <-. exists y. split; [apply Hins; by exists e'|].
  rewrite Hp in Hky. apply Hinj; [by eapply ring_id_of_entry| |congruence].
  rewrite Hids. by eapply ring_id_of_entry.
Qed.
End select.

(** The rings are those of the consensus, for periods of [minutes]. *)
Definition ring_minutes sha3_256 start_of_day (nd : NetDir) (minutes : Z) : Prop :=
  compute sha3_256 start_of_day (nd_consensus nd) minutes =
    Ok (hsdirs_map ring_params (hsdir_rings nd)).

Lemma map_rings_params sha3_256 nd prev l rs :
  map_rings (λ q, ring_compute sha3_256 (E:=Bug) q nd prev) l = Ok rs → map ring_params rs = l.
Proof.
  revert rs. induction l as [|p l IH]; intros rs; simpl; [by intros [= <-]|]. intros H.
  apply bind_ok in H as (r & Hr & H). apply bind_ok in H as (rs' & Hrs & H). ok_inv. simpl.
  rewrite (IH rs' Hrs). f_equal. unfold ring_compute in Hr. by apply bind_ok in Hr as (hs & _ & [= <-]).
Qed.

(** A directory has them when it becomes a full one. *)
Lemma unwrap_ring_minutes sha3_256 start_of_day enough pnd nd :
  unwrap_if_sufficient sha3_256 start_of_day enough pnd = Ok (inl nd) →
  ring_minutes sha3_256 start_of_day nd (hsdir_timeperiod_length (nd_params nd)).
Proof.
  unfold unwrap_if_sufficient. destruct (enough _); [|by intros [=]]. intros H.
  apply bind_ok in H as (pnd' & H & Hnd). injection Hnd as <-.
  unfold compute_rings in H. apply bind_ok in H as (params & Hp & H).
  apply bind_ok in H as (cur & Hc & H). apply bind_ok in H as (sec & Hs & H). ok_inv.
  unfold ring_minutes, expect_params, hsdirs_map in *. simpl.
  destruct (compute _ _ _ _) as [h| |]; [|done..]. injection Hp as ->.
  rewrite (map_rings_params _ _ _ _ _ Hs). unfold ring_compute in Hc.
  apply bind_ok in Hc as (hs & _ & [= <-]). by destruct params.
Qed.

Lemma n_replicas_ok nd :
  1 ≤ hsdir_n_replicas (nd_params nd) ≤ 16 → n_replicas nd = Ok (hsdir_n_replicas (nd_params nd)).
Proof.
  intros. unfold n_replicas. by rewrite !(proj2 (Z.leb_le _ _)) by (unfold u8_max; lia).
Qed.

Lemma fresh_empty l : fresh ∅ l = l.
Proof.
  unfold fresh. induction l as [|e l IH]; [done|].
  rewrite filter_cons_True by set_solver. by rewrite IH.
Qed.

(** The client's list: all that the current ring has, up to the parameters. *)
Lemma hs_dirs_download_ok sha3_256 nd hsid shuffle :
  let rc := current (hsdir_rings nd) in
  let n := hsdir_n_replicas (nd_params nd) in
  let fetch := hsdir_spread_fetch (nd_params nd) in
  netdir_ok sha3_256 nd → 1 ≤ n ≤ 16 → 1 ≤ fetch →
  collision_free sha3_256 (ring_ids nd rc) (ring_params rc) →
  ∃ l, select_hsdirs sha3_256 nd hsid rc (Z.to_nat fetch) = Ok l ∧
    hs_dirs_download sha3_256 nd hsid (hs_time_period nd) shuffle = Ok (shuffle l) ∧
    Z.of_nat (length l) = Z.min (n * fetch) (Z.of_nat (length (ring rc))).
Proof.
  intros rc n fetch Hok Hn Hf Hcf.
  assert (Hrc : ring_ok sha3_256 nd rc) by (pose proof (ok_rings _ _ Hok) as Hr; by inversion Hr).
  destruct (select_hsdirs_ok sha3_256 nd hsid rc (Z.to_nat fetch) n Hrc (n_replicas_ok nd Hn))
    as (l & Hl & Hlen & _).
  exists l. split_and!; [done| |].
  - unfold hs_dirs_download, nd_spread. fold fetch. rewrite (proj2 (Z.leb_le _ _)), ok_bind by lia.
    rewrite bool_decide_eq_true_2 by done. simpl. fold rc. by rewrite Hl.
  - rewrite Hlen, select_replicas_length, fresh_empty, length_seqZ by by eapply ring_keys_nodup.
    rewrite Nat2Z.inj_min, Nat2Z.inj_mul, !Z2Nat.id by lia. done.
Qed.

(** C12: a client asks only directories that the service uploads to.  Take two directories that were
    built from consensuses on the authorities' schedule, at most 12 voting periods apart, with
    time periods of 24 voting periods and the shared random values of that schedule.  Let both
    have the same onion service directories on the rings for the client's time period, the same
    number of replicas (1 to 16), and no collision of indexes, and let the client's spread for
    fetching be not larger than the service's for storing.  Then, for the client's time period,
    the client's list has as many relays as the parameters and the ring allow, the service's
    upload is defined, and every relay on the former is on the latter. *)
Theorem client_finds_service sha3_256 start_of_day vp minutes srv ndc nds hsid shuffle :
  (∀ t, 0 ≤ t → start_of_day t = t / ONE_DAY * ONE_DAY) →
  5 ≤ minutes ≤ 14400 → from_secs (minutes * 60) = round vp →
  built sha3_256 start_of_day (inl ndc) → built sha3_256 start_of_day (inl nds) →
  ring_minutes sha3_256 start_of_day ndc minutes → ring_minutes sha3_256 start_of_day nds minutes →
  on_schedule vp srv (nd_consensus ndc) → on_schedule vp srv (nd_consensus nds) →
  in_time vp (nd_consensus ndc) → in_time vp (nd_consensus nds) →
  Z.abs (valid_after (con_lifetime (nd_consensus nds)) - valid_after (con_lifetime (nd_consensus ndc)))
    ≤ 12 * vp →
  params_match (nd_params ndc) (nd_params nds) →
  let rc := current (hsdir_rings ndc) in
  (∀ rs, rs ∈ hsdirs_iter (hsdir_rings nds) → ring_params rs = ring_params rc →
         ring_ids ndc rc ≡ₚ ring_ids nds rs) →
  collision_free sha3_256 (ring_ids ndc rc) (ring_params rc) →
  (∀ l, shuffle l ≡ₚ l) →
  ∃ l u, hs_dirs_download sha3_256 ndc hsid (hs_time_period ndc) shuffle = Ok l ∧
    hs_dirs_upload sha3_256 nds hsid (hs_time_period ndc) = Ok u ∧
    Z.of_nat (length l) = Z.min (hsdir_n_replicas (nd_params ndc) * hsdir_spread_fetch (nd_params ndc))
                            (Z.of_nat (length (ring rc))) ∧
    ∀ x, x ∈ l → ∃ y, y ∈ u ∧ md_ed25519_id (r_md x) = md_ed25519_id (r_md y).
Proof.
  intros Hsod Hmin Hround Hbc Hbs Hmc Hms Hsc Hss Htc Hts Habs (Hn & Hn16 & Hsp) rc Hids Hcf Hshuf.
  apply built_dir_ok in Hbc, Hbs. simpl in Hbc, Hbs.
  destruct (client_params_listed sha3_256 start_of_day Hsod vp minutes srv Hmin Hround
    (nd_consensus nds) (nd_consensus ndc)) as (ds & dc & Eds & Edc & _ & Hin); [done..|].
  rewrite Hmc in Edc. rewrite Hms in Eds. injection Edc as <-. injection Eds as <-.
  apply (list_elem_of_fmap ring_params (_ :: _)) in Hin as (rs & Hp & Hrs). simpl in Hp. fold rc in Hp.
  assert (Hrc : ring_ok sha3_256 ndc rc) by (pose proof (ok_rings _ _ Hbc) as Hr; by inversion Hr).
  assert (Hrs' : ring_ok sha3_256 nds rs).
  { pose proof (ok_rings _ _ Hbs) as Hr. rewrite Forall_forall in Hr. by apply Hr. }
  pose proof (n_replicas_ok nds Hn16) as Hns.
  destruct (hs_dirs_download_ok sha3_256 ndc hsid shuffle) as (lc & Hlc & Hd & Hlen);
    [done|lia|lia|done|].
  destruct (select_hsdirs_ok sha3_256 nds hsid rs (Z.to_nat (hsdir_spread_store (nd_params nds)))
    _ Hrs' Hns) as (ls & Hls & _ & _).
  destruct (hs_dirs_upload_ok sha3_256 nds hsid (hs_time_period ndc)
    (Z.to_nat (hsdir_spread_store (nd_params nds))) (hsdir_n_replicas (nd_params nds)) rs ls)
    as (u & Hu & Hsub); [done|done|by rewrite <-Hp| |done|done|].
  { unfold nd_spread. by rewrite (proj2 (Z.leb_le _ _)) by lia. }
  exists (shuffle lc), u. split_and!; [done|done|by rewrite Hshuf|].
  intros x Hx. rewrite Hshuf in Hx.
  destruct (selections_agree sha3_256 ndc nds rc rs hsid (hsdir_n_replicas (nd_params nds))
    (Z.to_nat (hsdir_spread_fetch (nd_params ndc))) (Z.to_nat (hsdir_spread_store (nd_params nds)))
    lc ls) with x as (y & Hy & He); try done; [by apply Hids|lia|rewrite <-Hn; apply n_replicas_ok; lia|].
  exists y. split; [by apply Hsub|done].
Qed.

(** The service has the consensus of two hours later; the client's period is its previous one. *)
Definition example_service : NetDir :=
  match example_dir (example_consensus 405709) (Some example_netdir) with
  | Ok nd => nd
  | _ => example_netdir
  end.

Lemma example_dir_next c p nd :
  built example_hash example_start_of_day (inl p) → example_dir c (Some p) = Ok nd →
  built example_hash example_start_of_day (inl nd).
Proof. intros Hp. apply example_dir_built. by intros p' [= <-]. Qed.

Lemma example_service_made :
  example_dir (example_consensus 405709) (Some example_netdir) = Ok example_service.
Proof. vm_compute. reflexivity. Qed.

Lemma example_service_built : built example_hash example_start_of_day (inl example_service).
Proof. exact (example_dir_next _ _ _ example_netdir_built example_service_made). Qed.

Lemma example_netdir_consensus : nd_consensus example_netdir = example_consensus 405707.
Proof. vm_compute. reflexivity. Qed.
Lemma example_service_consensus : nd_consensus example_service = example_consensus 405709.
Proof. vm_compute. reflexivity. Qed.
Lemma example_netdir_minutes : ring_minutes example_hash example_start_of_day example_netdir 1440.
Proof. unfold ring_minutes. vm_compute. reflexivity. Qed.
Lemma example_service_minutes : ring_minutes example_hash example_start_of_day example_service 1440.
Proof. unfold ring_minutes. vm_compute. reflexivity. Qed.
Lemma example_params_match : params_match (nd_params example_netdir) (nd_params example_service).
Proof. vm_compute. done. Qed.

Lemma example_client_ids :
  ring_ids example_netdir (current (hsdir_rings example_netdir)) = [[21]; [23]].
Proof. vm_compute. reflexivity. Qed.

Lemma example_ring_ids rs :
  rs ∈ hsdirs_iter (hsdir_rings example_service) →
  ring_params rs = ring_params (current (hsdir_rings example_netdir)) →
  ring_ids example_netdir (current (hsdir_rings example_netdir)) ≡ₚ ring_ids example_service rs.
Proof.
  assert (Hall : Forall (λ rs, ring_ids example_service rs = [[21]; [23]])
    (hsdirs_iter (hsdir_rings example_service))) by (vm_compute; repeat constructor).
  intros Hrs _. rewrite Forall_forall in Hall. by rewrite (Hall rs Hrs), example_client_ids.
Qed.

Lemma example_collision_free :
  collision_free example_hash (ring_ids example_netdir (current (hsdir_rings example_netdir)))
    (ring_params (current (hsdir_rings example_netdir))).
Proof.
  rewrite example_client_ids. split; [by apply (bool_decide_unpack _)|].
  intros e e'. rewrite !elem_of_cons, !elem_of_nil.
  by intros [->|[->|[]]] [->|[->|[]]]; vm_compute.
Qed.

Lemma client_finds_service_witness :
  ∃ l u, hs_dirs_download example_hash example_netdir [9] (hs_time_period example_netdir) reverse = Ok l ∧
    hs_dirs_upload example_hash example_service [9] (hs_time_period example_netdir) = Ok u ∧
    Z.of_nat (length l) =
      Z.min (hsdir_n_replicas (nd_params example_netdir) * hsdir_spread_fetch (nd_params example_netdir))
        (Z.of_nat (length (ring (current (hsdir_rings example_netdir))))) ∧
    ∀ x, x ∈ l → ∃ y, y ∈ u ∧ md_ed25519_id (r_md x) = md_ed25519_id (r_md y).
Proof.
  apply (client_finds_service example_hash example_start_of_day (from_secs 3600) 1440 example_srv
    example_netdir example_service [9] reverse (λ _ _, eq_refl) ltac:(lia) eq_refl
    example_netdir_built example_service_built example_netdir_minutes example_service_minutes);
    rewrite ?example_netdir_consensus, ?example_service_consensus.
  - apply example_on_schedule.
  - apply example_on_schedule.
  - apply example_in_time. lia.
  - apply example_in_time. lia.
  - vm_compute. done.
  - apply example_params_match.
  - apply example_ring_ids.
  - apply example_collision_free.
  - intros l. apply reverse_Permutation.
Defined.
