(* ===== verification/HsRevision.v ===== *)
(** * HsRevision: revision counters of onion service descriptors

    The order-preserving encryption of [tor-hscrypto/src/ope.rs] and
    [generate_revision_counter] of [tor-hsservice/src/publish/reactor.rs].  A directory keeps
    the descriptor with the larger counter, so a service must never go back.  The hash and the
    key stream of AES in counter mode are parameters. *)

From S2P Require Import Prelude Text TorCert HsTime.

Definition DERIVATION_PREFIX : list Z := str "rev-counter-generation".
(** Number of words that are made at once, and of bytes in a word. *)
Definition BUF_LEN : Z := 8 * 1024.
Definition STEP : Z := 2.

(** [chunks_exact(2)] and [u16::from_le_bytes]. *)
Fixpoint le_words (l : list Z) : list Z :=
  match l with
  | a :: b :: l => (a + 256 * b) :: le_words l
  | _ => []
  end.

(** [sum] of [u64] values. *)
Fixpoint sum_u64 {E} (acc : Z) (l : list Z) : res E Z :=
  match l with
  | [] => Ok acc
  | x :: l => acc ← uadd u64_max acc x; sum_u64 acc l
  end.

Definition add_slice_as_le_u16 {E} (slice : list Z) : res E Z :=
  _ ← debug_assert (Z.of_nat (length slice) mod 2 =? 0);
  sum_u64 0 (le_words slice).

(** The errors of [FatalError] that come from the key store, and an internal error. *)
Inductive FatalError : Type := Keystore | FatalBug (what : string).

Section ope.
Variable sha3_256 : list Z → list Z.
(** The bytes of the key stream of a key, with the counter at zero. *)
Variable keystream : list Z → nat → Z.

Definition from_secret (secret : list Z) : list Z := sha3_256 (DERIVATION_PREFIX ++ secret).

(** [apply_keystream]: the cipher is its key and the bytes used so far. *)
Definition apply_keystream (key : list Z) (pos : nat) (buf : list Z) : list Z * nat :=
  (zip_with Z.lxor buf (map (keystream key) (seq pos (length buf))), (pos + length buf)%nat).

(** [while n >= BUF_LEN]: the result, the rest of [n] and the cipher. *)
Fixpoint encrypt_chunks {E} (fuel : nat) (key : list Z) (pos : nat) (result n : Z)
    : res E (Z * Z * nat) :=
  match fuel with
  | O => Panic
  | S fuel =>
      if BUF_LEN <=? n then
        let '(buf, pos) := apply_keystream key pos (replicate (Z.to_nat (BUF_LEN * STEP)) 0) in
        x ← add_slice_as_le_u16 buf;
        result ← uadd u64_max result x;
        n ← usub n BUF_LEN;
        encrypt_chunks fuel key pos result n
      else Ok (result, n, pos)
  end.

Definition encrypt_inner {E} (key : list Z) (n : Z) : res E Z :=
  '(result, n, pos) ← encrypt_chunks (S (Z.to_nat (n / BUF_LEN))) key 0 n n;
  if 0 <? n then
    let '(buf, _) := apply_keystream key pos (replicate (Z.to_nat (n * STEP)) 0) in
    x ← add_slice_as_le_u16 buf;
    uadd u64_max result x
  else Ok result.

Definition encrypt {E} (key : list Z) (offset : Z) : res E Z :=
  encrypt_inner key (saturating_add u32_max offset 1).

(** [ope_secret] is the part of [create_ope_key] that reads the key of a period. *)
Definition generate_revision_counter (ope_secret : TimePeriod → res FatalError (list Z))
    (params : HsDirParams) (now : Z) : res FatalError Z :=
  secret ← ope_secret (hp_time_period params);
  let ope_key := from_secret secret in
  offset ← match offset_within_srv_period params now with
           | Ok (Some offset) => Ok offset
           | Ok None => Err (FatalBug "current wallclock time not within SRV range?!")
           | _ => Panic
           end;
  encrypt ope_key offset.

(** ** The sum without a buffer *)

(** The [i]-th word of the key stream, and the sum of the first [n]. *)
Definition word (key : list Z) (i : nat) : Z :=
  keystream key (2 * i) + 256 * keystream key (2 * i + 1).
Definition words_sum (key : list Z) (from n : nat) : Z := sumZ (map (word key) (seq from n)).

Hypothesis keystream_bytes : ∀ key i, 0 ≤ keystream key i ≤ 255.

Lemma word_range key i : 0 ≤ word key i ≤ 65535.
Proof.
  unfold word. pose proof (keystream_bytes key (2 * i)).
  pose proof (keystream_bytes key (2 * i + 1)). lia.
Qed.

Lemma words_sum_range key from n : 0 ≤ words_sum key from n ≤ 65535 * Z.of_nat n.
Proof.
  unfold words_sum. revert from. induction n as [|n IH]; intros from; [simpl; lia|].
  cbn [seq map sumZ]. pose proof (word_range key from). specialize (IH (S from)). lia.
Qed.

Lemma words_sum_app key from n m :
  words_sum key from (n + m) = words_sum key from n + words_sum key (from + n) m.
Proof. unfold words_sum. by rewrite seq_app, map_app, sumZ_app. Qed.

Lemma sum_u64_ok {E} l acc :
  Forall (λ x, 0 ≤ x) l → 0 ≤ acc → acc + sumZ l ≤ u64_max → sum_u64 (E:=E) acc l = Ok (acc + sumZ l).
Proof.
  intros Hl. revert acc. induction Hl as [|x l Hx Hl IH]; intros acc Ha Hm; simpl in *.
  { f_equal. lia. }
  assert (0 ≤ sumZ l) by (clear -Hl; induction Hl; simpl; lia).
  rewrite uadd_ok, ok_bind, IH by lia. f_equal. lia.
Qed.

(** The words of the key stream from an even position. *)
Lemma le_words_stream key from n :
  le_words (zip_with Z.lxor (replicate (2 * n) 0) (map (keystream key) (seq (2 * from) (2 * n)))) =
    map (word key) (seq from n).
Proof.
  revert from. induction n as [|n IH]; intros from; [done|].
  replace (2 * S n)%nat with (S (S (2 * n))) by lia. cbn [replicate seq map zip_with le_words].
  rewrite !Z.lxor_0_l. f_equal.
  - unfold word. by rewrite Nat.add_1_r.
  - replace (S (S (2 * from))) with (2 * S from)%nat by lia. apply IH.
Qed.

Lemma slice_sum {E} key from n :
  Z.of_nat n ≤ u32_max →
  add_slice_as_le_u16 (E:=E) (apply_keystream key (2 * from) (replicate (2 * n) 0)).1 =
    Ok (words_sum key from n).
Proof.
  intros Hn. unfold add_slice_as_le_u16, apply_keystream. cbn [fst].
  rewrite length_zip_with, length_map, length_seq, length_replicate, Nat.min_id.
  rewrite Nat2Z.inj_mul, Z.mul_comm, Z.mod_mul, Z.eqb_refl by done. cbn [debug_assert]. rewrite ok_bind.
  rewrite le_words_stream. pose proof (words_sum_range key from n).
  rewrite sum_u64_ok; [done| |done|unfold words_sum, u64_max, u32_max in *; lia].
  apply Forall_map, Forall_forall. intros i _. apply word_range.
Qed.

Lemma encrypt_chunks_ok {E} fuel key k result n :
  n / BUF_LEN < Z.of_nat fuel → 0 ≤ n ≤ u32_max →
  0 ≤ result → result + 65535 * n ≤ u64_max →
  ∃ m, encrypt_chunks (E:=E) fuel key (2 * k) result n =
         Ok (result + words_sum key k m, n - Z.of_nat m, (2 * (k + m))%nat) ∧
       0 ≤ n - Z.of_nat m < BUF_LEN.
Proof.
  revert k result n. induction fuel as [|fuel IH]; intros k result n Hf Hn Hr Hm.
  { pose proof (Z.div_pos n BUF_LEN ltac:(lia) ltac:(done)). lia. }
  cbn [encrypt_chunks]. destruct (BUF_LEN <=? n) eqn:Hle; zify_bool.
  2: { exists 0%nat. split; [|lia]. change (words_sum key k 0) with 0. rewrite Nat.add_0_r.
       f_equal. f_equal. f_equal; lia. }
  set (b := Z.to_nat BUF_LEN). assert (Hb : Z.of_nat b = BUF_LEN) by done.
  replace (Z.to_nat (BUF_LEN * STEP)) with (2 * b)%nat by (unfold STEP; lia).
  pose proof (slice_sum (E:=E) key k b ltac:(unfold u32_max in *; lia)) as Hs.
  pose proof (words_sum_range key k b) as Hw.
  assert (Hp : (apply_keystream key (2 * k) (replicate (2 * b) 0)).2 = (2 * (k + b))%nat).
  { unfold apply_keystream. cbn [snd]. rewrite length_replicate. lia. }
  destruct (apply_keystream key (2 * k) _) as [buf pos]. cbn [fst snd] in Hs, Hp. subst pos.
  rewrite Hs, ok_bind, uadd_ok, ok_bind, usub_ok, ok_bind by lia.
  destruct (IH (k + b)%nat (result + words_sum key k b) (n - BUF_LEN)) as (m & Hm' & Hrest);
    [|lia..|].
  { replace (n - BUF_LEN) with (n + (-1) * BUF_LEN) by lia. rewrite Z.div_add by done. lia. }
  exists (b + m)%nat. rewrite Hm'. split; [|lia]. rewrite words_sum_app. f_equal. f_equal; [f_equal; lia|lia].
Qed.

(** The buffered loop computes the sum of the first [n] words, plus [n]. *)
Lemma encrypt_inner_ok {E} key n :
  0 ≤ n ≤ u32_max → encrypt_inner (E:=E) key n = Ok (n + words_sum key 0 (Z.to_nat n)).
Proof.
  intros Hn. unfold encrypt_inner.
  destruct (encrypt_chunks_ok (E:=E) (S (Z.to_nat (n / BUF_LEN))) key 0 n n) as (m & Hm & Hrest).
  - pose proof (Z.div_pos n BUF_LEN ltac:(lia) ltac:(done)). lia.
  - done.
  - lia.
  - unfold u32_max, u64_max in *. lia.
  - change (2 * 0)%nat with 0%nat in Hm. rewrite Hm, ok_bind. cbn beta iota.
    assert (Hsum : words_sum key 0 (Z.to_nat n) =
      words_sum key 0 m + words_sum key m (Z.to_nat (n - Z.of_nat m))).
    { replace (Z.to_nat n) with (m + Z.to_nat (n - Z.of_nat m))%nat at 1 by lia.
      by rewrite words_sum_app. }
    pose proof (words_sum_range key 0 (Z.to_nat n)).
    destruct (0 <? n - Z.of_nat m) eqn:Hz; zify_bool.
    + replace (Z.to_nat ((n - Z.of_nat m) * STEP)) with (2 * Z.to_nat (n - Z.of_nat m))%nat
        by (unfold STEP; lia).
      pose proof (slice_sum (E:=E) key (0 + m) (Z.to_nat (n - Z.of_nat m))
        ltac:(unfold u32_max in *; lia)) as Hs.
      destruct (apply_keystream key (2 * (0 + m)) _) as [buf pos]. cbn [fst] in Hs.
      change (0 + m)%nat with m in Hs.
      rewrite Hs, ok_bind, uadd_ok by (unfold u32_max, u64_max in *; lia). f_equal. lia.
    + replace (Z.to_nat (n - Z.of_nat m)) with 0%nat in Hsum by lia.
      change (words_sum key m 0) with 0 in Hsum. f_equal. lia.
Qed.

Lemma encrypt_ok {E} key offset :
  0 ≤ offset < u32_max →
  encrypt (E:=E) key offset = Ok (offset + 1 + words_sum key 0 (Z.to_nat (offset + 1))).
Proof.
  intros Ho. unfold encrypt, saturating_add. rewrite Z.min_l by lia. apply encrypt_inner_ok. lia.
Qed.

(** C25: within a round of the shared random value, the revision counter is defined and never
    goes back: it grows with every second that passes, and is the same within a second. *)
Theorem revision_counter_increases ope_secret params secret now now' :
  ope_secret (hp_time_period params) = Ok secret →
  (srv_lifespan params).1 ≤ now ≤ now' → as_secs (now' - (srv_lifespan params).1) < u32_max →
  ∃ c c', generate_revision_counter ope_secret params now = Ok c ∧
    generate_revision_counter ope_secret params now' = Ok c' ∧
    (as_secs (now - (srv_lifespan params).1) = as_secs (now' - (srv_lifespan params).1) → c = c') ∧
    (as_secs (now - (srv_lifespan params).1) < as_secs (now' - (srv_lifespan params).1) → c < c') ∧
    c' ≤ u64_max.
Proof.
  intros Hsec Hnow Hmax. set (start := (srv_lifespan params).1) in *.
  assert (Hgen : ∀ t, start ≤ t ≤ now' → generate_revision_counter ope_secret params t =
    Ok (as_secs (t - start) + 1 +
        words_sum (from_secret secret) 0 (Z.to_nat (as_secs (t - start) + 1)))).
  { intros t Ht. unfold generate_revision_counter, offset_within_srv_period. rewrite Hsec, ok_bind.
    fold start. rewrite (proj2 (Z.leb_le _ _)) by lia. unfold duration_since.
    rewrite (proj2 (Z.leb_le _ _)) by lia. cbn [expect]. rewrite ok_bind.
    assert (0 ≤ as_secs (t - start) ≤ as_secs (now' - start)).
    { unfold as_secs. split; [apply Z.div_pos; [lia|done]|apply Z.div_le_mono; [done|lia]]. }
    rewrite ok_bind. unfold wrap. rewrite Z.mod_small by lia. apply encrypt_ok. lia. }
  eexists _, _. rewrite !Hgen by lia. split; [done|]. split; [done|].
  assert (0 ≤ as_secs (now - start)) by (apply Z.div_pos; [lia|done]).
  split; [by intros ->|]. split.
  - intros Hlt. set (a := as_secs (now - start)) in *. set (b := as_secs (now' - start)) in *.
    replace (Z.to_nat (b + 1)) with (Z.to_nat (a + 1) + Z.to_nat (b - a))%nat by lia.
    rewrite words_sum_app.
    pose proof (words_sum_range (from_secret secret) (0 + Z.to_nat (a + 1)) (Z.to_nat (b - a))). lia.
  - pose proof (words_sum_range (from_secret secret) 0 (Z.to_nat (as_secs (now' - start) + 1))).
    assert (0 ≤ as_secs (now' - start)) by (apply Z.div_pos; [lia|done]).
    unfold u32_max, u64_max in *. lia.
Qed.
End ope.

Lemma revision_counter_increases_witness :
  ∃ c c',
    generate_revision_counter (λ l, l) (λ _ i, Z.of_nat i mod 256) (λ _, Ok [1])
      (mkHsDirParams (mkTimePeriod 16903 1440 43200) [] (0, ONE_DAY)) (from_secs 5) = Ok c ∧
    generate_revision_counter (λ l, l) (λ _ i, Z.of_nat i mod 256) (λ _, Ok [1])
      (mkHsDirParams (mkTimePeriod 16903 1440 43200) [] (0, ONE_DAY)) (from_secs 7) = Ok c' ∧ c < c'.
Proof.
  destruct (revision_counter_increases (λ l, l) (λ _ i, Z.of_nat i mod 256)
    ltac:(intros ? i; pose proof (Z.mod_pos_bound (Z.of_nat i) 256 ltac:(lia)); lia)
    (λ _, Ok [1]) (mkHsDirParams (mkTimePeriod 16903 1440 43200) [] (0, ONE_DAY)) [1]
    (from_secs 5) (from_secs 7) eq_refl) as (c & c' & H1 & H2 & _ & H3 & _).
  - vm_compute. done.
  - vm_compute. done.
  - exists c, c'. split; [exact H1|]. split; [exact H2|]. apply H3. vm_compute. done.
Defined.
